(* ===== verification/_CoqProject ===== *)
-Q . S2P
Prelude.v
Compression.v
Algo.v
AllocInfo.v
LruCache.v
Stacktrace.v
StacktraceTree.v
IStacktraceTracker.v
StacktraceTracker.v
StaticTracker.v
ThreadTracker.v
OwnedGuards.v
Locks.v
Worker.v
SignalMask.v
MemHawk.v
Counters.v
Construct.v
HawkMalloc.v
Overrides.v
HawkHeap.v
Symbols.v
Profiling.v
HeaptrackWriter.v
Snapshots.v
ProtobufWriter.v
CompressedTrie.v
GetTop.v
FromChars.v
Doubles.v
FlameStats.v
FlameMain.v
ParseStruct.v
Config.v
Logging.v
TextWriter.v
ReportText.v
Describe.v
Shutdown.v
Writers.v
WriterContract.v
Reports.v
Files.v
Startup.v
