(* ===== verification/Prelude.v ===== *)
(** * MemHawk: a verified model of the memory profiler

    MemHawk is a library that is loaded into a program with [LD_PRELOAD], replaces the
    allocation functions, attributes every live block to the stack trace that allocated
    it, and periodically reports the balance per trace.  This library models the C++
    code under [src/source/memhawk/src] and proves it correct from the bit level of the
    trace compression up to the statement that the reports agree with the heap.

    ** The program and its model

    A call of [malloc] reaches [hawk_malloc] ([hawk_malloc.cpp]), which obtains a larger
    block from libc, unwinds the stack ([RecursiveStacktrace], [stacktrace.cpp]), writes an
    [AllocInfo] header in front of the user's data and calls [MemHawk::TrackAlloc]
    ([memhawk.cpp]).  The profiler finds the thread's [ThreadTracker] ([thread_tracker.cpp]),
    which looks the trace up in an [LruCache], collapses recursion in it ([algo.cpp]) and
    asks the [StacktraceTracker] for an id ([stacktrace_tree.h] is its trie); MemHawk's own
    allocations go to the [StaticStacktraceTracker], whose traces are stored compressed
    ([compression.cpp]), or, when they happen inside the profiler's critical sections, to
    a queue.  A worker thread collects the balances and hands them to the writers.

    - [Prelude]: outcomes of C++ code, arrays, machine integers, lists, tactics.
    - [Compression]: [impl/compression.{h,cpp}]; bits and bytes of the encoding.
    - [Algo]: [impl/algo.{h,cpp}]; the scalar, the AVX-512 and the naive variant.
    - [AllocInfo]: [impl/alloc_info.h]; 64-bit counters and the exact sums they represent.
    - [LruCache]: [impl/lru_cache.h]; the container is behind the class [SequencedHash].
    - [Stacktrace]: [impl/stacktrace.{h,cpp}], [impl/recursion_guard.h]; the unwinders are
      behind the class [Unwinder].
    - [StacktraceTree], [IStacktraceTracker], [StacktraceTracker], [StaticTracker]:
      [impl/stacktrace_tree.h], [impl/i_stacktrace_tracker.h] and [impl/trackers/]; the
      virtual interface is a class with its contract [TrackerSpec], which both trackers meet.
    - [ThreadTracker]: [impl/thread_tracker.{h,cpp}].
    - [OwnedGuards]: [impl/spinlock.h] and [impl/owned_guards.h] as transition systems.
    - [MemHawk]: [impl/memhawk.{h,cpp}]; the writers are behind [IWriterStrategy].
      [Construct]: [PostponedConstruct] step by step, with MemHawk's own allocations.
    - [HawkMalloc]: [hawk_malloc.cpp]; libc and the kernel are the class [Libc], the profiler
      the class [Profiler].
    - [Overrides]: the exported operators [new] and [delete] in [hawk_malloc.cpp].
    - [HawkHeap]: the specification of every allocation function and runs of a program.
    - [Symbols]: [overrides.h] and [overrides-libc.h], the table of exported symbols.
    - [Profiling]: MemHawk as the profiler of the allocation functions, with a recording writer.
    - [Locks]: the same handlers as sequences of lock operations of interleaved threads, and the
      fork handlers.  [Worker]: the loop of the worker thread with its clock and [MemHawk::Stop]
      step by step.  [SignalMask]: [impl/scoped_sigmask.h] and the frame of the worker around its
      loop, among threads that send and handle signals.
    - [Counters]: the counters of the thread trackers over a run.  [Shutdown]: what [MemHawk::Stop]
      logs from them, [~MemHawk] and [deinit_memhawk].
    - [HeaptrackWriter], [ProtobufWriter], [TextWriter]: [impl/writers/], with readers of the two
      machine formats as specifications; serialization, zstd and the container of the text
      writer are parameters.  [Snapshots] holds what the writers share, [Writers] the adaptor
      and the factory ([impl/writers/adaptor.h], [impl/writers/factory.h]).
    - [Doubles]: numbers with a binary point as [float] and [double] round them.  [ReportText]: the
      text of the report.  [Describe]: [Stacktrace::Describe], the text of the second file and
      the dumps of the trackers; libunwind and [dladdr] are the class [Symbolizer].
    - [WriterContract]: the class [WriterSpec], what the profiler relies on in a writer; the
      adaptor meets it.  [Reports]: the profiler with any such writer, in step with the recording
      one.  [Files]: the whole program, from [malloc] to the bytes of the files.
    - [Startup]: the constructor of the library ([init_memhawk]): configuration, program name,
      log, profiler and writers put together; [dlsym] and RE2 are parameters.
    - [ParseStruct]: [impl/config/]; structs of configuration variables are trees of named
      members, as [boost::hana] shows them to the code.  [FromChars]: [std::from_chars].
      [Config]: [impl/config.{h,cpp}], [impl/logging_level.h].
    - [Logging]: [impl/logging.{h,cpp}], with the files and descriptors of the process.
    - [CompressedTrie], [GetTop], [FlameStats], [FlameMain]: the tool that draws flame graphs,
      [flamegraph/src/graph.h] and [flamegraph/src/main.cpp].

    Objects are records and handlers are state passing functions on them, in the monad
    [outcome]: [Undef] is undefined behaviour of C++ (an access outside an array, a
    dereferenced null or end iterator, a free of what is not a block, division by zero) or
    [abort()], and [NoFuel] a loop that exceeded the fuel of its model.  Machine integers
    are values of [Z] with the wrap-around written out ([u8], [u32], [u64], [i64]).

    ** What is proved

    - C1: the whole program, from [malloc] to the files: what a reader finds in the files of the
      enabled writers agrees with the heap, but for the own operations of the profiler that wait in its
      queue or that a full queue lost.  Which these are is said by a reference queue ([Waiting] in
      [MemHawk]) that sees the calls and their events only; [watched_profiler] of [Reports] runs it
      beside the profiler.
    - C2, C3, C5, C26: the allocation functions are memory safe and answer as C and C++ promise in
      any sequence of requests within the bounds of [allowed], null exactly when libc or the kernel has
      no memory, the events balance to the live blocks, the headers are sound, and the exported
      symbols are bound to functions with their types and can be mixed.
    - C4, C6, C25: no event is lost from the construction of the profiler on but those the reference
      queue loses, ids resolve for ever, trackers are exclusive.
    - C7, C13: the lock order excludes deadlock; which locks a child finds free after a fork.
    - C8, C22, C24: [Stop] ends the worker, in a child of a fork too, the rounds of the worker are
      periodic but for a last one that [Stop] brings forward, and no handler of the application runs
      on it.
    - C23: the log at the end shows the exact counters of every tracker, which add up to what was
      tracked.
    - C9, C27, C28: the files of all enabled writers tell the same balances and frames; a reader of
      the heaptrack file and a reader of the protobuf file end with exactly the balances and
      traces that were accounted.
    - C10: compressed traces decompress to themselves; equal words mean equal traces.
    - C11: recursion is collapsed the way the specification [collapse] says, by the scalar and by
      the vector variant; nothing but repetitions is removed.
    - C12: the cache holds the most recently used entries and never a stale value.
    - C14, C15: bounds of stack traces, unwinding, the order of the cache keys.
    - C16, C17: ids lead back to traces, for both trackers; the static one answers as a reference store
      of bounded size ([store_all]).
    - C18, C19: the cache is transparent; the balance of a thread is exact.
    - C20, C21: mutual exclusion; callbacks run exactly once in every interleaving.
    - C29 to C31: the trie of a flame graph shows exact sums, its heaviest nodes are the ones
      listed, and the tool ends with an answer on all arguments and every input; the statistics
      count every node once, printed profiles are read back.
    - C32 to C36: parsing of options refines an abstract configuration, reports exactly the
      errors there are, and gives each variable the value that its last readable text stands for; the
      help output can be given back; the
      library aborts, exits or starts as the environment says, the profiler only with a checked
      configuration and in a state for which C1 to C5 hold.
    - C37: the log holds exactly the messages that are not below its level.
    - C38 to C40: the text of the report shows exact totals and the greatest balances, with the
      error of its printed numbers, every listed trace is described once, and the dumps of the
      trackers show the traces they know.

    ** Fuel and bounds

    The loops that are not structural have fuel computed from their input: the number of
    words of the span in [Compression] and [Algo], the 65 steps to the root that a trie of
    traces of at most 64 frames can need in [StacktraceTracker], the length of the array in
    [trim_nulls].  Every theorem about such a loop states that the result is a [Ret], so the
    fuel is enough.  Ids are below 2^31 as long as [1 + 64 * n < 2^31] for [n] calls: this is
    the bound of the theorems about runs of the profiler.

    ** What is not modelled

    The log lines of the handlers of the profiler (those of the starting thread are in [Startup], those of
    the worker in [SignalMask], those of the end in [Shutdown]) and the symbolizer written in Rust.  The
    profiler is leaked on purpose, so the dumps of [Describe] are written only where a tracker is
    destroyed, as in the tests of the repository.  For the allocation functions construction is
    one step ([RInit]); [Construct] shows that MemHawk's own allocations during
    [PostponedConstruct] may as well come after it.  The heaptrack writer needs every number it
    writes to have at most 15 hexadecimal digits, which nothing in the program enforces: where it is
    enabled, C1, C9 and C27 have this as a hypothesis.  Names with a newline would break its lines, and
    those of [Describe]: the theorems about their readers ask for names without.  Handlers of the profiler are single steps: every
    access to shared data is inside a critical section of a lock whose mutual exclusion is C20, and C7 shows
    that the critical sections of the handlers never wait for each other in a circle. *)

From Stdlib Require Import ZArith Lia.
From stdpp Require Import base numbers list gmap.

#[global] Open Scope Z_scope.

(** ** Outcomes of C++ code

    [Ret] is normal completion, [Undef] undefined behaviour (an access outside
    an array, a dereferenced end iterator, a null dereference), [NoFuel] a loop
    that did not finish within the fuel the model was given. *)

Inductive outcome (A : Type) : Type :=
| Ret (a : A)
| Undef
| NoFuel.
Arguments Ret {A} _.
Arguments Undef {A}.
Arguments NoFuel {A}.

#[export] Instance outcome_ret : MRet outcome := fun A a => Ret a.
#[export] Instance outcome_bind : MBind outcome :=
  fun A B f m => match m with Ret a => f a | Undef => Undef | NoFuel => NoFuel end.

#[export] Instance outcome_eq_dec `{EqDecision A} : EqDecision (outcome A).
Proof. solve_decision. Defined.

Lemma bind_ret {A B} (a : A) (f : A → outcome B) : (Ret a ≫= f) = f a.
Proof. reflexivity. Qed.

Lemma bind_ret_inv {A B} (m : outcome A) (f : A → outcome B) b :
  (m ≫= f) = Ret b → ∃ a, m = Ret a ∧ f a = Ret b.
Proof. destruct m; cbn; intros; simplify_eq; eauto. Qed.

(** Splits every hypothesis [m ≫= f = Ret b] into its two halves. *)
Ltac inv_ret :=
  repeat match goal with
  | H : (_ ≫= _) = Ret _ |- _ =>
      let a := fresh "r" in let H1 := fresh "Hr" in
      apply bind_ret_inv in H as (a & H1 & H)
  | H : mret _ = Ret _ |- _ => unfold mret, outcome_ret in H
  | H : Ret _ = Ret _ |- _ => injection H as H; subst
  | H : Undef = Ret _ |- _ => discriminate H
  | H : NoFuel = Ret _ |- _ => discriminate H
  end.

(** ** Arrays, indexed by machine integers *)

Definition zlen {A} (a : list A) : Z := Z.of_nat (length a).

(** The value read at an index, with a default out of range; specifications only. *)
Definition get (a : list Z) (i : Z) : Z := a !!! Z.to_nat i.

Definition put {A} (a : list A) (i : Z) (x : A) : list A := <[Z.to_nat i := x]> a.

(** [a[i]] and [a[i] = x] as the code performs them: undefined out of range. *)
Definition rd {A} (a : list A) (i : Z) : outcome A :=
  if i <? 0 then Undef
  else match a !! Z.to_nat i with Some x => Ret x | None => Undef end.

Definition wr {A} (a : list A) (i : Z) (x : A) : outcome (list A) :=
  if (0 <=? i) && (i <? zlen a) then Ret (put a i x) else Undef.

Lemma zlen_nonneg {A} (a : list A) : 0 ≤ zlen a.
Proof. unfold zlen; lia. Qed.

Lemma zlen_cons {A} (x : A) l : zlen (x :: l) = zlen l + 1.
Proof. unfold zlen; cbn [length]; lia. Qed.

Lemma zlen_app {A} (l k : list A) : zlen (l ++ k) = zlen l + zlen k.
Proof. unfold zlen; rewrite length_app; lia. Qed.

Lemma zlen_put {A} (a : list A) i x : zlen (put a i x) = zlen a.
Proof. unfold zlen, put. by rewrite length_insert. Qed.

Lemma zlen_replicate {A} n (x : A) : zlen (replicate n x) = Z.of_nat n.
Proof. unfold zlen. by rewrite length_replicate. Qed.

Lemma rd_in (a : list Z) i : 0 ≤ i < zlen a → rd a i = Ret (get a i).
Proof.
  intros Hi. unfold rd, get, zlen in *. destruct (Z.ltb_spec i 0); [lia|].
  rewrite list_lookup_lookup_total_lt by lia. done.
Qed.

Lemma rd_some {A} (a : list A) (i : Z) x :
  0 ≤ i → a !! Z.to_nat i = Some x → rd a i = Ret x.
Proof. intros Hi H. unfold rd. destruct (Z.ltb_spec i 0); [lia|]. by rewrite H. Qed.

Lemma rd_inv {A} (a : list A) i x :
  rd a i = Ret x → 0 ≤ i < zlen a ∧ a !! Z.to_nat i = Some x.
Proof.
  unfold rd, zlen. destruct (Z.ltb_spec i 0); [done|].
  destruct (a !! Z.to_nat i) eqn:E; intros; simplify_eq.
  apply lookup_lt_Some in E as ?. split; [lia|done].
Qed.

Lemma wr_in {A} (a : list A) i x : 0 ≤ i < zlen a → wr a i x = Ret (put a i x).
Proof.
  intros Hi. unfold wr.
  destruct (Z.leb_spec 0 i), (Z.ltb_spec i (zlen a)); try lia; done.
Qed.

Lemma wr_inv {A} (a : list A) i x b :
  wr a i x = Ret b → 0 ≤ i < zlen a ∧ b = put a i x.
Proof.
  unfold wr. destruct (Z.leb_spec 0 i), (Z.ltb_spec i (zlen a)); cbn; intros; simplify_eq.
  split; [lia|done].
Qed.

Lemma get_put_eq (a : list Z) i x : 0 ≤ i < zlen a → get (put a i x) i = x.
Proof.
  intros Hi. unfold get, put, zlen in *. apply list_lookup_total_insert_eq. lia.
Qed.

Lemma get_put_ne (a : list Z) i j x : 0 ≤ i → 0 ≤ j → i ≠ j → get (put a i x) j = get a j.
Proof.
  intros ???. unfold get, put. apply list_lookup_total_insert_ne. lia.
Qed.

Lemma get_put (a : list Z) i j x :
  0 ≤ i < zlen a → 0 ≤ j → get (put a i x) j = if decide (i = j) then x else get a j.
Proof.
  intros. case_decide; subst; [by apply get_put_eq | apply get_put_ne; lia].
Qed.

Lemma get_app_l (l k : list Z) i : 0 ≤ i < zlen l → get (l ++ k) i = get l i.
Proof. intros. unfold get, zlen in *. apply lookup_total_app_l. lia. Qed.

Lemma get_cons_0 x (l : list Z) : get (x :: l) 0 = x.
Proof. reflexivity. Qed.

Lemma get_cons_S x (l : list Z) i : 0 < i → get (x :: l) i = get l (i - 1).
Proof.
  intros. unfold get. replace (Z.to_nat i) with (S (Z.to_nat (i - 1))) by lia. done.
Qed.

Lemma get_replicate n (x i : Z) : 0 ≤ i < Z.of_nat n → get (replicate n x) i = x.
Proof.
  intros. unfold get. apply lookup_total_replicate_2. lia.
Qed.

(** Two arrays of the same length with the same elements are equal. *)
Lemma list_eq_get (a b : list Z) :
  zlen a = zlen b → (∀ i, 0 ≤ i < zlen a → get a i = get b i) → a = b.
Proof.
  unfold zlen, get. intros Hl He. apply list_eq_same_length with (length a); [lia|done|].
  intros i x y Hi Hx Hy. specialize (He (Z.of_nat i)). rewrite Nat2Z.id in He.
  apply list_lookup_total_correct in Hx, Hy. rewrite <- Hx, <- Hy. apply He. lia.
Qed.

(** ** Machine integers

    A w-bit unsigned value is a [Z] in [0, 2^w); [i64] is the two's complement
    reading that the targets of the code give to signed 64-bit results. *)

Definition u8 (x : Z) : Z := x mod 2 ^ 8.
Definition u32 (x : Z) : Z := x mod 2 ^ 32.
Definition u64 (x : Z) : Z := x mod 2 ^ 64.
Definition i64 (x : Z) : Z := (x + 2 ^ 63) mod 2 ^ 64 - 2 ^ 63.

Definition is_u8 (x : Z) : Prop := 0 ≤ x < 2 ^ 8.
Definition is_u32 (x : Z) : Prop := 0 ≤ x < 2 ^ 32.
Definition is_u64 (x : Z) : Prop := 0 ≤ x < 2 ^ 64.
Definition is_i64 (x : Z) : Prop := - 2 ^ 63 ≤ x < 2 ^ 63.

Lemma u8_small x : is_u8 x → u8 x = x.
Proof. apply Z.mod_small. Qed.
Lemma u32_small x : is_u32 x → u32 x = x.
Proof. apply Z.mod_small. Qed.
Lemma u64_small x : is_u64 x → u64 x = x.
Proof. apply Z.mod_small. Qed.
Lemma u32_range x : is_u32 (u32 x).
Proof. apply Z.mod_pos_bound. lia. Qed.
Lemma u64_range x : is_u64 (u64 x).
Proof. apply Z.mod_pos_bound. lia. Qed.
Lemma i64_range x : is_i64 (i64 x).
Proof. unfold i64, is_i64. pose proof (Z.mod_pos_bound (x + 2^63) (2^64)). lia. Qed.
Lemma i64_small x : is_i64 x → i64 x = x.
Proof. unfold i64, is_i64. intros. rewrite Z.mod_small; lia. Qed.

Lemma u64_u64 x : u64 (u64 x) = u64 x.
Proof. apply Zmod_mod. Qed.
Lemma u64_add_l x y : u64 (u64 x + y) = u64 (x + y).
Proof. apply Zplus_mod_idemp_l. Qed.
Lemma u64_add_r x y : u64 (x + u64 y) = u64 (x + y).
Proof. apply Zplus_mod_idemp_r. Qed.

(** [i64] only depends on its argument modulo 2^64. *)
Lemma i64_cong x y : x mod 2 ^ 64 = y mod 2 ^ 64 → i64 x = i64 y.
Proof.
  intros H. unfold i64. f_equal.
  rewrite <- (Zplus_mod_idemp_l x), <- (Zplus_mod_idemp_l y). by rewrite H.
Qed.

Lemma i64_mod x : i64 x mod 2 ^ 64 = x mod 2 ^ 64.
Proof.
  unfold i64. rewrite Zminus_mod_idemp_l. f_equal. lia.
Qed.

Lemma i64_add_l x y : i64 (i64 x + y) = i64 (x + y).
Proof.
  apply i64_cong. rewrite <- Zplus_mod_idemp_l, i64_mod. apply Zplus_mod_idemp_l.
Qed.
Lemma i64_add_r x y : i64 (x + i64 y) = i64 (x + y).
Proof. rewrite Z.add_comm, i64_add_l. f_equal. lia. Qed.
Lemma i64_sub_l x y : i64 (i64 x - y) = i64 (x - y).
Proof. apply (i64_add_l x (- y)). Qed.
Lemma i64_sub_r x y : i64 (x - i64 y) = i64 (x - y).
Proof.
  apply i64_cong. rewrite <- Zminus_mod_idemp_r, i64_mod. apply Zminus_mod_idemp_r.
Qed.
Lemma i64_u64 x : i64 (u64 x) = i64 x.
Proof. apply i64_cong. apply Zmod_mod. Qed.
Lemma i64_idem x : i64 (i64 x) = i64 x.
Proof. apply i64_cong, i64_mod. Qed.

(** Rewriting database that removes inner truncations. *)
Create Rewrite HintDb word.
Create Rewrite HintDb zlen.
#[export] Hint Rewrite u64_u64 u64_add_l u64_add_r i64_add_l i64_add_r i64_sub_l
  i64_sub_r i64_u64 i64_idem : word.

#[export] Hint Rewrite @zlen_put @zlen_app @zlen_cons @zlen_replicate : zlen.

(** Decides the boolean comparisons of a goal with [lia]. *)
Ltac zcases :=
  repeat match goal with
  | |- context [?a <? ?b] => destruct (Z.ltb_spec a b); try lia
  | |- context [?a <=? ?b] => destruct (Z.leb_spec a b); try lia
  | |- context [?a =? ?b] => destruct (Z.eqb_spec a b); try lia
  end.

(** Executes the array access at the head of a monadic program, its bounds by [lia]. *)
Ltac step_rd :=
  match goal with
  | |- context [mbind ?f (rd ?a ?i)] =>
      rewrite (rd_in a i) by lia; rewrite (bind_ret (get a i) f); cbv beta iota
  end.
Ltac step_wr :=
  match goal with
  | |- context [mbind ?f (wr ?a ?i ?x)] =>
      rewrite (wr_in a i x) by lia; rewrite (bind_ret (put a i x) f); cbv beta iota
  end.
Ltac step_ret :=
  match goal with
  | |- context [mbind ?f (Ret ?a)] => rewrite (bind_ret a f); cbv beta iota
  end.

(** Closes a ground side condition by evaluation. *)
Ltac ground := vm_compute; repeat split; done.

(** ** Lists *)

Lemma filter_all {A} (P : A → Prop) `{∀ x, Decision (P x)} (l : list A) :
  (∀ x, x ∈ l → P x) → filter P l = l.
Proof.
  induction l as [|x l IH]; intros Hl; [done|]. rewrite filter_cons_True.
  - rewrite IH; [done|]. intros y Hy. apply Hl. by right.
  - apply Hl. by left.
Qed.

Lemma filter_none {A} (P : A → Prop) `{∀ x, Decision (P x)} (l : list A) :
  (∀ x, x ∈ l → ¬ P x) → filter P l = [].
Proof.
  induction l as [|x l IH]; intros Hl; [done|]. rewrite filter_cons_False.
  - apply IH. intros y Hy. apply Hl. by right.
  - apply Hl. by left.
Qed.

(** The last [n] elements of a list. *)
Definition lastn {A} (n : nat) (l : list A) : list A := drop (length l - n) l.

Lemma lastn_all {A} n (l : list A) : (length l ≤ n)%nat → lastn n l = l.
Proof. intros H. unfold lastn. by replace (length l - n)%nat with 0%nat by lia. Qed.

Lemma lastn_app {A} (l k : list A) : lastn (length k) (l ++ k) = k.
Proof.
  unfold lastn. rewrite length_app, drop_app_ge by lia.
  by replace (length l + length k - length k - length l)%nat with 0%nat by lia.
Qed.

Lemma lastn_split {A} n (l : list A) :
  ∃ a, l = a ++ lastn n l ∧ (a = [] ∧ (length (lastn n l) ≤ n)%nat ∨ length (lastn n l) = n).
Proof.
  exists (take (length l - n) l). unfold lastn. split; [by rewrite take_drop|].
  rewrite length_drop. destruct (decide (length l ≤ n)%nat) as [Hle|Hgt].
  - left. replace (length l - n)%nat with 0%nat by lia. rewrite take_0. split; [done|lia].
  - right. lia.
Qed.

Lemma Forall_sublist {A} (P : A → Prop) (l k : list A) : sublist l k → Forall P k → Forall P l.
Proof.
  induction 1 as [|x l k _ IH|x l k _ IH]; intros H; [done| |].
  - apply Forall_cons in H as [? ?]. constructor; auto.
  - apply Forall_cons in H as [_ ?]. auto.
Qed.

(** ** Permutations by counting *)

Definition occ {A} `{EqDecision A} (l : list A) (x : A) : nat := count_occ (fun a b => decide (a = b)) l x.

Lemma occ_app {A} `{EqDecision A} (l k : list A) x : occ (l ++ k) x = (occ l x + occ k x)%nat.
Proof. apply count_occ_app. Qed.

Lemma occ_nil {A} `{EqDecision A} (x : A) : occ [] x = 0%nat.
Proof. reflexivity. Qed.

Lemma perm_occ {A} `{EqDecision A} (l k : list A) : l ≡ₚ k ↔ ∀ x, occ l x = occ k x.
Proof. apply Permutation_count_occ. Qed.

(** Proves a permutation of concatenations from the permutations in the context. *)
Ltac perm_solve :=
  rewrite !perm_occ in *;
  let x := fresh "x" in
  intros x;
  repeat match goal with H : ∀ y, occ _ y = occ _ y |- _ => specialize (H x) end;
  rewrite ?occ_app, ?occ_nil in *; lia.
