(* ===== verification/Compression.v ===== *)
(** * Bit packing of stack traces ([impl/compression.h], [impl/compression.cpp])

    A buffer of 32-bit words is a [list Z]; an iterator is the index of the word
    it points to, a bit index in that word and the running [valuePos].  Reads and
    writes outside the buffer are [Undef].  [Compress] stores the number of
    values, a control block of two 2-bit size codes per value and the data bits;
    [Decompress] reads them back. *)

From Stdlib Require Import ZArith Lia.
From stdpp Require Import base numbers list.
From S2P Require Import Prelude.

(** ** Iterators and words *)

Definition ValueBitsSize : Z := 32.
Definition ValueBitsMask : Z := u32 (Z.lnot 0).

Record BitIterator := mkBitIterator {
  value : Z;
  bitIndex : Z;
  valuePos : Z;
}.

Definition BitIterator_begin : BitIterator := mkBitIterator 0 0 0.

Definition AdvanceBytes (it : BitIterator) (cnt : Z) : BitIterator :=
  mkBitIterator (value it + cnt) (bitIndex it) (u32 (valuePos it + cnt)).

Inductive SizeBits := Zero | TwoBytes | ThreeBytes | FourBytes.

Definition SizeBits_to_u32 (s : SizeBits) : Z :=
  match s with Zero => 0 | TwoBytes => 1 | ThreeBytes => 2 | FourBytes => 3 end.

Definition shift_left (value count : Z) : Z :=
  if ValueBitsSize <=? count then 0 else u32 (Z.shiftl value count).

Definition shift_right (value count : Z) : Z :=
  if ValueBitsSize <=? count then 0 else Z.shiftr value count.

(** The new value of the word [ClearBits] takes by reference. *)
Definition ClearBits (value from to : Z) : Z :=
  let upper := Z.land value (shift_left ValueBitsMask from) in
  let lower := Z.land upper (shift_right ValueBitsMask (u32 (ValueBitsSize - to))) in
  Z.land value (u32 (Z.lnot lower)).

Definition ClearUnusedBits (buf : list Z) (it : BitIterator) : outcome (list Z) :=
  if bitIndex it =? 0 then Ret buf
  else
    w ← rd buf (value it);
    wr buf (value it) (ClearBits w (bitIndex it) ValueBitsSize).

(** The end of both loops: move to the next word when this one is full. *)
Definition step_iter (it : BitIterator) (cur : Z) : BitIterator :=
  let bi := u32 (bitIndex it + cur) in
  if ValueBitsSize <=? bi
  then mkBitIterator (value it + 1) 0 (u32 (valuePos it + 1))
  else mkBitIterator (value it) bi (valuePos it).

(** ** EncodeBits and DecodeBits

    Every turn of either loop consumes at least one bit, so [bitCount + 1] turns
    are enough. *)

Fixpoint EncodeBits_loop (fuel : nat) (buf : list Z) (it : BitIterator)
    (bitCount v : Z) : outcome (list Z * BitIterator) :=
  match fuel with
  | O => NoFuel
  | S fuel =>
    if 0 <? bitCount then
      let maxBitDiff := u32 (ValueBitsSize - bitIndex it) in
      let curBitsCount := if bitCount <=? maxBitDiff then bitCount else maxBitDiff in
      let BitsMask := u32 (Z.lnot (shift_left ValueBitsMask curBitsCount)) in
      let curBitsValue := Z.land v BitsMask in
      let v' := shift_right v curBitsCount in
      w ← rd buf (value it);
      let cleared := ClearBits w (bitIndex it) (u32 (bitIndex it + curBitsCount)) in
      buf' ← wr buf (value it) (Z.lor cleared (shift_left curBitsValue (bitIndex it)));
      EncodeBits_loop fuel buf' (step_iter it curBitsCount)
        (u32 (bitCount - curBitsCount)) v'
    else Ret (buf, it)
  end.

Definition EncodeBits (buf : list Z) (it : BitIterator) (bitCount v : Z)
    : outcome (list Z * BitIterator) :=
  EncodeBits_loop (S (Z.to_nat bitCount)) buf it bitCount v.

Fixpoint DecodeBits_loop (fuel : nat) (buf : list Z) (it : BitIterator)
    (bitCount decodedBits v : Z) : outcome (Z * BitIterator) :=
  match fuel with
  | O => NoFuel
  | S fuel =>
    if 0 <? bitCount then
      let maxBitDiff := u32 (ValueBitsSize - bitIndex it) in
      let curBitsCount := if bitCount <=? maxBitDiff then bitCount else maxBitDiff in
      let BitsMask := u32 (Z.lnot (shift_left ValueBitsMask curBitsCount)) in
      w ← rd buf (value it);
      let curBitsValue := Z.land (shift_right w (bitIndex it)) BitsMask in
      DecodeBits_loop fuel buf (step_iter it curBitsCount)
        (u32 (bitCount - curBitsCount)) (u32 (decodedBits + curBitsCount))
        (Z.lor v (shift_left curBitsValue decodedBits))
    else Ret (v, it)
  end.

Definition DecodeBits (buf : list Z) (it : BitIterator) (bitCount : Z)
    : outcome (Z * BitIterator) :=
  DecodeBits_loop (S (Z.to_nat bitCount)) buf it bitCount 0 0.

(** ** Encode and Decode of one 32-bit value *)

Definition Encode (buf : list Z) (controlIter dataIter : BitIterator) (v : Z)
    : outcome (list Z * BitIterator * BitIterator) :=
  let '(size, bitCount) :=
    if v =? 0 then (Zero, 0)
    else if v <? 2 ^ 16 then (TwoBytes, 16)
    else if v <? 2 ^ 24 then (ThreeBytes, 24)
    else (FourBytes, 32) in
  '(buf1, ci) ← EncodeBits buf controlIter 2 (SizeBits_to_u32 size);
  if bitCount =? 0 then Ret (buf1, ci, dataIter)
  else
    '(buf2, di) ← EncodeBits buf1 dataIter bitCount v;
    Ret (buf2, ci, di).

(** The [default] of the switch is [ABSL_UNREACHABLE], hence [Undef]. *)
Definition Decode (buf : list Z) (controlIter dataIter : BitIterator)
    : outcome (Z * BitIterator * BitIterator) :=
  '(sizeBits, ci) ← DecodeBits buf controlIter 2;
  if sizeBits =? SizeBits_to_u32 Zero then Ret (0, ci, dataIter)
  else if sizeBits =? SizeBits_to_u32 TwoBytes then
    '(v, di) ← DecodeBits buf dataIter 16; Ret (v, ci, di)
  else if sizeBits =? SizeBits_to_u32 ThreeBytes then
    '(v, di) ← DecodeBits buf dataIter 24; Ret (v, ci, di)
  else if sizeBits =? SizeBits_to_u32 FourBytes then
    '(v, di) ← DecodeBits buf dataIter 32; Ret (v, ci, di)
  else Undef.

(** ** Compress and Decompress *)

Definition CalculateControlBlockSize (size : Z) : Z :=
  let blockSizeBits := u64 (size * 2 * 2) in
  u64 (blockSizeBits + ValueBitsSize - 1) / ValueBitsSize.

Definition CalculateMaxExpectedSize (n : Z) : Z :=
  u32 (1 + n * 2 + CalculateControlBlockSize n).

(** The loop of [Compress]; [prev] is the previous element. *)
Fixpoint Compress_loop (xs : list Z) (buf : list Z) (ci di : BitIterator) (prev : Z)
    : outcome (list Z * BitIterator * BitIterator) :=
  match xs with
  | [] => Ret (buf, ci, di)
  | cur :: xs =>
    let diff := u64 (cur - prev) in
    let high := u32 (Z.shiftr diff 32) in
    let low := u32 diff in
    '(buf1, ci1, di1) ← Encode buf ci di low;
    '(buf2, ci2, di2) ← Encode buf1 ci1 di1 high;
    Compress_loop xs buf2 ci2 di2 cur
  end.

(** [Compress(in, uint32_t* out)]: the new buffer and the number of words used. *)
Definition Compress (xs : list Z) (out : list Z) : outcome (list Z * Z) :=
  out0 ← wr out 0 (u32 (zlen xs));
  let ci := AdvanceBytes BitIterator_begin 1 in
  let di := AdvanceBytes BitIterator_begin (u32 (1 + CalculateControlBlockSize (zlen xs))) in
  '(buf, ci, di) ← Compress_loop xs out0 ci di 0;
  buf1 ← ClearUnusedBits buf di;
  buf2 ← ClearUnusedBits buf1 ci;
  if bitIndex di =? 0 then Ret (buf2, valuePos di)
  else Ret (buf2, u32 (valuePos di + 1)).

(** [Compress(in, std::vector<uint32_t>& out)]. *)
Definition Compress_vec (xs : list Z) : outcome (list Z) :=
  '(buf, size) ← Compress xs (replicate (Z.to_nat (CalculateMaxExpectedSize (zlen xs))) 0);
  Ret (resize (Z.to_nat size) 0 buf).

(** The loop of [Decompress]; [n] values are left. *)
Fixpoint Decompress_loop (n : nat) (buf : list Z) (ci di : BitIterator) (prev : Z)
    : outcome (list Z) :=
  match n with
  | O => Ret []
  | S n =>
    '(low, ci1, di1) ← Decode buf ci di;
    '(high, ci2, di2) ← Decode buf ci1 di1;
    let diff := Z.lor (u64 (Z.shiftl high 32)) low in
    let cur := u64 (prev + diff) in
    rest ← Decompress_loop n buf ci2 di2 cur;
    Ret (cur :: rest)
  end.

(** The values [Decompress] stores into [out[0..total)]; it returns their number. *)
Definition Decompress (buf : list Z) : outcome (list Z) :=
  total ← rd buf 0;
  let ci := AdvanceBytes BitIterator_begin 1 in
  let di := AdvanceBytes BitIterator_begin (u32 (1 + CalculateControlBlockSize total)) in
  Decompress_loop (Z.to_nat total) buf ci di 0.

(** ** Words, bit by bit *)

Lemma u32_testbit x j : 0 ≤ j → Z.testbit (u32 x) j = (j <? 32) && Z.testbit x j.
Proof.
  intros Hj. unfold u32. zcases; cbn.
  - apply Z.mod_pow2_bits_low. lia.
  - apply Z.mod_pow2_bits_high. lia.
Qed.

Lemma is_u32_bits x : is_u32 x ↔ ∀ j, 0 ≤ j → Z.testbit x j = (j <? 32) && Z.testbit x j.
Proof.
  unfold is_u32. split.
  - intros Hx j Hj. by rewrite <- u32_testbit, u32_small.
  - intros H. replace x with (u32 x); [apply u32_range|].
    apply Z.bits_inj'. intros j Hj. by rewrite u32_testbit, <- H.
Qed.

Lemma u32_bits_high x j : is_u32 x → 32 ≤ j → Z.testbit x j = false.
Proof. intros Hx Hj. rewrite is_u32_bits in Hx. rewrite Hx by lia. by zcases. Qed.

Lemma ValueBitsMask_testbit j : 0 ≤ j → Z.testbit ValueBitsMask j = (j <? 32).
Proof.
  intros. unfold ValueBitsMask.
  rewrite u32_testbit, Z.lnot_spec, Z.bits_0 by lia. by destruct (j <? 32).
Qed.

Lemma shift_left_testbit v c j :
  0 ≤ c → 0 ≤ j →
  Z.testbit (shift_left v c) j = (j <? 32) && (c <=? j) && Z.testbit v (j - c).
Proof.
  intros. unfold shift_left, ValueBitsSize. destruct (Z.leb_spec 32 c).
  - rewrite Z.bits_0. by zcases.
  - rewrite u32_testbit, Z.shiftl_spec by lia. zcases; cbn; [done|].
    by rewrite Z.testbit_neg_r by lia.
Qed.

Lemma shift_right_testbit v c j :
  is_u32 v → 0 ≤ c → 0 ≤ j → Z.testbit (shift_right v c) j = Z.testbit v (j + c).
Proof.
  intros. unfold shift_right, ValueBitsSize. destruct (Z.leb_spec 32 c).
  - rewrite Z.bits_0, u32_bits_high by (done || lia). done.
  - by rewrite Z.shiftr_spec by lia.
Qed.

Lemma ValueBitsMask_u32 : is_u32 ValueBitsMask.
Proof. apply u32_range. Qed.

Lemma ClearBits_testbit w from to j :
  is_u32 w → 0 ≤ from → from ≤ to ≤ 32 → 0 ≤ j →
  Z.testbit (ClearBits w from to) j
  = Z.testbit w j && negb ((from <=? j) && (j <? to)).
Proof.
  intros Hw ???. unfold ClearBits, ValueBitsSize.
  rewrite (u32_small (32 - to)) by (unfold is_u32; lia).
  rewrite Z.land_spec, u32_testbit, Z.lnot_spec, !Z.land_spec by lia.
  rewrite shift_left_testbit, shift_right_testbit by (done || lia || apply ValueBitsMask_u32).
  destruct (Z.ltb_spec j 32).
  - destruct (Z.leb_spec from j); cbn; [|by rewrite andb_false_r].
    rewrite !ValueBitsMask_testbit by lia.
    destruct (Z.testbit w j); zcases; done.
  - rewrite (u32_bits_high w) by (done || lia). done.
Qed.

Lemma low_mask_testbit c j :
  0 ≤ c → 0 ≤ j →
  Z.testbit (u32 (Z.lnot (shift_left ValueBitsMask c))) j = (j <? 32) && (j <? c).
Proof.
  intros. rewrite u32_testbit, Z.lnot_spec, shift_left_testbit by lia.
  destruct (Z.leb_spec c j); zcases; cbn; try done;
    rewrite ?ValueBitsMask_testbit by lia; by zcases.
Qed.

Lemma is_u32_land_r x y : is_u32 y → is_u32 (Z.land x y).
Proof.
  rewrite !is_u32_bits. intros Hy j Hj. rewrite Z.land_spec, Hy by done.
  by destruct (j <? 32), (Z.testbit x j), (Z.testbit y j).
Qed.

Lemma is_u32_lor x y : is_u32 x → is_u32 y → is_u32 (Z.lor x y).
Proof.
  rewrite !is_u32_bits. intros Hx Hy j Hj. rewrite Z.lor_spec, Hx, Hy by done.
  by destruct (j <? 32), (Z.testbit x j), (Z.testbit y j).
Qed.

Lemma is_u32_shift_left v c : is_u32 (shift_left v c).
Proof. unfold shift_left. case_match; [done | apply u32_range]. Qed.

Lemma is_u32_shift_right v c : is_u32 v → 0 ≤ c → is_u32 (shift_right v c).
Proof.
  intros Hv ?. apply is_u32_bits. intros j ?. rewrite shift_right_testbit by done.
  zcases; [done|]. by rewrite u32_bits_high by (done || lia).
Qed.

Lemma is_u32_ClearBits w from to : is_u32 (ClearBits w from to).
Proof. apply is_u32_land_r, u32_range. Qed.

(** ** Buffers as bit streams *)

Definition words (buf : list Z) : Prop := Forall is_u32 buf.

(** Bit [k] of a buffer. *)
Definition bit (buf : list Z) (k : Z) : bool := Z.testbit (get buf (k / 32)) (k mod 32).

(** The iterator at bit position [p]. *)
Definition iter_at (p : Z) : BitIterator := mkBitIterator (p / 32) (p mod 32) (p / 32).

Lemma words_get buf i : words buf → 0 ≤ i < zlen buf → is_u32 (get buf i).
Proof.
  intros Hw Hi. unfold get, zlen in *. apply Forall_lookup_total_1; [done|lia].
Qed.

Lemma words_put buf i w : words buf → is_u32 w → words (put buf i w).
Proof. intros. by apply Forall_insert. Qed.

Lemma words_replicate n : words (replicate n 0).
Proof. by apply Forall_replicate. Qed.

Lemma bit_put buf i w k :
  0 ≤ i < zlen buf → 0 ≤ k →
  bit (put buf i w) k = if decide (i = k / 32) then Z.testbit w (k mod 32) else bit buf k.
Proof.
  intros. unfold bit. rewrite get_put; [|done|apply Z.div_pos; lia].
  by case_decide.
Qed.

(** Words are determined by their bits. *)
Lemma words_ext b1 b2 :
  words b1 → words b2 → zlen b1 = zlen b2 →
  (∀ k, 0 ≤ k < 32 * zlen b1 → bit b1 k = bit b2 k) → b1 = b2.
Proof.
  intros H1 H2 Hl Hb. apply list_eq_get; [done|]. intros i Hi.
  apply Z.bits_inj'. intros j Hj. destruct (Z.ltb_spec j 32).
  - specialize (Hb (32 * i + j)). unfold bit in Hb.
    replace ((32 * i + j) / 32) with i in Hb by (Z.div_mod_to_equations; lia).
    replace ((32 * i + j) mod 32) with j in Hb by (Z.div_mod_to_equations; lia).
    apply Hb. lia.
  - rewrite !u32_bits_high; [done|..]; try lia; apply words_get; done || lia.
Qed.

Lemma step_iter_at p c :
  0 ≤ p → 0 ≤ c → p mod 32 + c ≤ 32 → (p + c) / 32 < 2 ^ 32 →
  step_iter (iter_at p) c = iter_at (p + c).
Proof.
  intros Hp Hc Hle Hb. unfold step_iter, iter_at, ValueBitsSize; cbn [bitIndex value valuePos].
  assert (Hm := Z.mod_pos_bound p 32 ltac:(lia)).
  rewrite (u32_small (p mod 32 + c)) by (unfold is_u32; lia).
  zcases.
  - assert ((p + c) / 32 = p / 32 + 1 ∧ (p + c) mod 32 = 0) as [E1 E2]
      by (Z.div_mod_to_equations; lia).
    rewrite E1, E2, u32_small; [done|]. unfold is_u32.
    assert (0 ≤ p / 32) by (apply Z.div_pos; lia). lia.
  - assert ((p + c) / 32 = p / 32 ∧ (p + c) mod 32 = p mod 32 + c) as [E1 E2]
      by (Z.div_mod_to_equations; lia).
    by rewrite E1, E2.
Qed.

(** The word that one turn of [EncodeBits] stores. *)
Lemma store_testbit w v from c j :
  is_u32 w → 0 ≤ from → 0 ≤ c → from + c ≤ 32 → 0 ≤ j →
  Z.testbit (Z.lor (ClearBits w from (from + c))
    (shift_left (Z.land v (u32 (Z.lnot (shift_left ValueBitsMask c)))) from)) j
  = if (from <=? j) && (j <? from + c) then Z.testbit v (j - from) else Z.testbit w j.
Proof.
  intros. rewrite Z.lor_spec, ClearBits_testbit, shift_left_testbit by (done || lia).
  destruct (Z.leb_spec from j); cbn.
  - rewrite Z.land_spec, low_mask_testbit by lia.
    zcases; cbn; rewrite ?andb_true_r, ?andb_false_r, ?orb_false_r; try done.
  - by rewrite andb_false_r, andb_true_r, orb_false_r.
Qed.

(** What writing bits [p, p+n) of a buffer with the low bits of [v] means. *)
Definition bits_written (buf buf' : list Z) (p n v : Z) : Prop :=
  words buf' ∧ zlen buf' = zlen buf ∧
  ∀ k, 0 ≤ k →
    bit buf' k = if (p <=? k) && (k <? p + n) then Z.testbit v (k - p) else bit buf k.

(** One turn of [EncodeBits]: a piece that stays inside a word. *)
Lemma store_piece buf p c v :
  words buf → 0 ≤ p → 0 < c → p mod 32 + c ≤ 32 → p + c ≤ 32 * zlen buf →
  bits_written buf
    (put buf (p / 32)
      (Z.lor (ClearBits (get buf (p / 32)) (p mod 32) (p mod 32 + c))
        (shift_left (Z.land v (u32 (Z.lnot (shift_left ValueBitsMask c)))) (p mod 32))))
    p c v.
Proof.
  intros Hw Hp Hc Hle Hin.
  assert (Hm := Z.mod_pos_bound p 32 ltac:(lia)).
  assert (Hi : 0 ≤ p / 32 < zlen buf) by (Z.div_mod_to_equations; lia).
  split; [|split].
  - apply words_put; [done|].
    apply is_u32_lor; [apply is_u32_ClearBits | apply is_u32_shift_left].
  - apply zlen_put.
  - intros k Hk. rewrite bit_put by done. assert (Hk' := Z.mod_pos_bound k 32 ltac:(lia)).
    case_decide as Hd.
    + rewrite store_testbit by (lia || by apply words_get).
      replace (k mod 32 - p mod 32) with (k - p) by (Z.div_mod_to_equations; lia).
      unfold bit. rewrite <- Hd.
      destruct (Z.leb_spec (p mod 32) (k mod 32)), (Z.leb_spec p k),
        (Z.ltb_spec (k mod 32) (p mod 32 + c)), (Z.ltb_spec k (p + c)); cbn; try done;
        exfalso; Z.div_mod_to_equations; lia.
    + destruct (Z.leb_spec p k), (Z.ltb_spec k (p + c)); cbn; try done.
      exfalso. apply Hd. Z.div_mod_to_equations; lia.
Qed.

Lemma EncodeBits_loop_spec fuel : ∀ buf p n v,
  words buf → is_u32 v → 0 ≤ p → is_u32 n → n < Z.of_nat fuel →
  p + n ≤ 32 * zlen buf → zlen buf < 2 ^ 32 →
  ∃ buf', EncodeBits_loop fuel buf (iter_at p) n v = Ret (buf', iter_at (p + n))
          ∧ bits_written buf buf' p n v.
Proof.
  induction fuel as [|fuel IH]; intros buf p n v Hw Hv Hp Hn Hf Hin Hl;
    unfold is_u32 in Hn; [lia|].
  cbn [EncodeBits_loop]. destruct (Z.ltb_spec 0 n).
  2: { exists buf. replace (p + n) with p by lia. split; [done|].
       split; [done|]. split; [done|]. intros k Hk. by zcases. }
  assert (Hm := Z.mod_pos_bound p 32 ltac:(lia)). unfold ValueBitsSize.
  cbn [iter_at bitIndex value].
  rewrite (u32_small (32 - p mod 32)) by (unfold is_u32; lia).
  set (c := if n <=? 32 - p mod 32 then n else 32 - p mod 32).
  assert (Hc : 0 < c ∧ c ≤ n ∧ p mod 32 + c ≤ 32) by (subst c; zcases).
  clearbody c.
  assert (Hi : 0 ≤ p / 32 < zlen buf) by (Z.div_mod_to_equations; lia).
  rewrite rd_in by done. cbn.
  rewrite wr_in by done. cbn.
  rewrite (u32_small (p mod 32 + c)) by (unfold is_u32; lia).
  destruct (store_piece buf p c v) as (W1 & W2 & W3); try done; try lia.
  set (buf1 := put _ _ _) in *.
  change {| value := p / 32; bitIndex := p mod 32; valuePos := p / 32 |} with (iter_at p).
  assert ((p + c) / 32 < 2 ^ 32) by (apply Z.div_lt_upper_bound; lia).
  rewrite step_iter_at by lia.
  rewrite (u32_small (n - c)) by (unfold is_u32; lia).
  destruct (IH buf1 (p + c) (n - c) (shift_right v c)) as (buf' & E & V1 & V2 & V3);
    try done; try lia; [apply is_u32_shift_right; done || lia | unfold is_u32; lia |].
  exists buf'. replace (p + n) with (p + c + (n - c)) by lia. split; [done|].
  split; [done|]. split; [lia|]. intros k Hk. rewrite V3, W3 by done.
  destruct (Z.leb_spec (p + c) k); cbn.
  - rewrite shift_right_testbit by (done || lia). replace (k - (p + c) + c) with (k - p) by lia.
    by zcases.
  - by zcases.
Qed.

Lemma EncodeBits_spec buf p n v :
  words buf → is_u32 v → 0 ≤ p → is_u32 n → p + n ≤ 32 * zlen buf → zlen buf < 2 ^ 32 →
  ∃ buf', EncodeBits buf (iter_at p) n v = Ret (buf', iter_at (p + n))
          ∧ bits_written buf buf' p n v.
Proof.
  intros ??? Hn ??. apply EncodeBits_loop_spec; try done. unfold is_u32 in Hn. lia.
Qed.

Lemma DecodeBits_loop_spec fuel : ∀ buf p n d v,
  words buf → is_u32 v → 0 ≤ p → 0 ≤ n → 0 ≤ d → d + n ≤ 32 → n < Z.of_nat fuel →
  p + n ≤ 32 * zlen buf → zlen buf < 2 ^ 32 →
  ∃ v', DecodeBits_loop fuel buf (iter_at p) n d v = Ret (v', iter_at (p + n)) ∧
        ∀ j, 0 ≤ j →
          Z.testbit v' j
          = Z.testbit v j || ((d <=? j) && (j <? d + n) && bit buf (p + (j - d))).
Proof.
  induction fuel as [|fuel IH]; intros buf p n d v Hw Hv Hp Hn Hd Hdn Hf Hin Hl; [lia|].
  cbn [DecodeBits_loop]. destruct (Z.ltb_spec 0 n).
  2: { exists v. replace (p + n) with p by lia. split; [done|]. intros j Hj.
       replace ((d <=? j) && (j <? d + n)) with false by (zcases; done).
       by rewrite orb_false_r. }
  assert (Hm := Z.mod_pos_bound p 32 ltac:(lia)). unfold ValueBitsSize.
  cbn [iter_at bitIndex value].
  rewrite (u32_small (32 - p mod 32)) by (unfold is_u32; lia).
  set (c := if n <=? 32 - p mod 32 then n else 32 - p mod 32).
  assert (Hc : 0 < c ∧ c ≤ n ∧ p mod 32 + c ≤ 32) by (subst c; zcases).
  clearbody c.
  assert (Hi : 0 ≤ p / 32 < zlen buf) by (Z.div_mod_to_equations; lia).
  rewrite rd_in by done. cbn.
  change {| value := p / 32; bitIndex := p mod 32; valuePos := p / 32 |} with (iter_at p).
  assert ((p + c) / 32 < 2 ^ 32) by (apply Z.div_lt_upper_bound; lia).
  rewrite step_iter_at by lia.
  rewrite (u32_small (n - c)), (u32_small (d + c)) by (unfold is_u32; lia).
  destruct (IH buf (p + c) (n - c) (d + c)
    (Z.lor v (shift_left (Z.land (shift_right (get buf (p / 32)) (p mod 32))
      (u32 (Z.lnot (shift_left ValueBitsMask c)))) d))) as (v' & E & V); try done; try lia.
  { apply is_u32_lor; [done | apply is_u32_shift_left]. }
  exists v'. replace (p + n) with (p + c + (n - c)) by lia. split; [done|].
  intros j Hj. rewrite V, Z.lor_spec, shift_left_testbit by lia. rewrite <- orb_assoc. f_equal.
  destruct (Z.leb_spec d j); cbn.
  2: { rewrite andb_false_r. by zcases. }
  rewrite Z.land_spec, shift_right_testbit, low_mask_testbit
    by (lia || by apply words_get).
  replace (p + c + (j - (d + c))) with (p + (j - d)) by lia.
  destruct (Z.ltb_spec (j - d) c); cbn.
  - replace (d + c <=? j) with false by (zcases; done). cbn.
    rewrite orb_false_r. unfold bit.
    replace ((p + (j - d)) / 32) with (p / 32) by (Z.div_mod_to_equations; lia).
    replace ((p + (j - d)) mod 32) with (j - d + p mod 32) by (Z.div_mod_to_equations; lia).
    zcases. cbn. by rewrite andb_true_r.
  - rewrite !andb_false_r. cbn. by zcases.
Qed.

(** Reading back [n] bits that hold the low bits of [v]. *)
Lemma DecodeBits_spec buf p n v :
  words buf → 0 ≤ p → 0 ≤ n ≤ 32 → 0 ≤ v < 2 ^ n →
  p + n ≤ 32 * zlen buf → zlen buf < 2 ^ 32 →
  (∀ j, 0 ≤ j < n → bit buf (p + j) = Z.testbit v j) →
  DecodeBits buf (iter_at p) n = Ret (v, iter_at (p + n)).
Proof.
  intros Hw Hp Hn Hv Hin Hl Hb. unfold DecodeBits.
  destruct (DecodeBits_loop_spec (S (Z.to_nat n)) buf p n 0 0) as (v' & -> & V);
    try done; try lia.
  do 2 f_equal. apply Z.bits_inj'. intros j Hj. rewrite V, Z.bits_0 by done. cbn [orb].
  replace (p + (j - 0)) with (p + j) by lia.
  destruct (Z.ltb_spec j n).
  - rewrite Hb by lia. by zcases.
  - replace (j <? 0 + n) with false by (zcases; done). rewrite andb_false_r. cbn.
    rewrite <- (Z.mod_small v (2 ^ n)) by lia. by rewrite Z.mod_pow2_bits_high by lia.
Qed.

(** ** One encoded value *)

Definition size_code (v : Z) : SizeBits :=
  if v =? 0 then Zero else if v <? 2 ^ 16 then TwoBytes
  else if v <? 2 ^ 24 then ThreeBytes else FourBytes.

Definition code_width (s : SizeBits) : Z :=
  match s with Zero => 0 | TwoBytes => 16 | ThreeBytes => 24 | FourBytes => 32 end.

Definition width (v : Z) : Z := code_width (size_code v).

(** The value [v] is stored with its code at control bit [c] and data bit [d]. *)
Definition stored (buf : list Z) (c d v : Z) : Prop :=
  (∀ j, 0 ≤ j < 2 → bit buf (c + j) = Z.testbit (SizeBits_to_u32 (size_code v)) j) ∧
  (∀ j, 0 ≤ j < width v → bit buf (d + j) = Z.testbit v j).

(** [buf'] differs from [buf] only in [c, c+m) and [d, d+n). *)
Definition frame (buf buf' : list Z) (c m d n : Z) : Prop :=
  words buf' ∧ zlen buf' = zlen buf ∧
  ∀ k, 0 ≤ k → ¬ (c ≤ k < c + m) → ¬ (d ≤ k < d + n) → bit buf' k = bit buf k.

Lemma width_bounds v : 0 ≤ width v ≤ 32.
Proof. unfold width. destruct (size_code v); cbn; lia. Qed.

Lemma width_fits v : is_u32 v → 0 ≤ v < 2 ^ width v.
Proof. unfold is_u32, width, size_code. intros. zcases; cbn [code_width]; lia. Qed.

Lemma Encode_unfold buf ci di v :
  Encode buf ci di v =
  ('(buf1, ci1) ← EncodeBits buf ci 2 (SizeBits_to_u32 (size_code v));
   '(buf2, di1) ← EncodeBits buf1 di (width v) v;
   Ret (buf2, ci1, di1)).
Proof.
  unfold Encode, width, size_code.
  destruct (v =? 0); [|destruct (v <? 2 ^ 16); [|destruct (v <? 2 ^ 24)]]; cbn [code_width Z.eqb].
  all: destruct (EncodeBits buf ci 2 _) as [[buf1 ci1]| |]; try done.
Qed.

Lemma Encode_spec buf c d v :
  words buf → is_u32 v → 0 ≤ c → c + 2 ≤ d → d + width v ≤ 32 * zlen buf →
  zlen buf < 2 ^ 32 →
  ∃ buf', Encode buf (iter_at c) (iter_at d) v
            = Ret (buf', iter_at (c + 2), iter_at (d + width v))
          ∧ stored buf' c d v ∧ frame buf buf' c 2 d (width v).
Proof.
  intros Hw Hv Hc Hcd Hin Hl. pose proof (width_bounds v) as Hwd.
  assert (Hs : is_u32 (SizeBits_to_u32 (size_code v)))
    by (unfold is_u32; destruct (size_code v); cbn; lia).
  rewrite Encode_unfold.
  destruct (EncodeBits_spec buf c 2 (SizeBits_to_u32 (size_code v)))
    as (buf1 & -> & W1 & L1 & B1); try done; try lia.
  rewrite bind_ret; cbv beta iota.
  destruct (EncodeBits_spec buf1 d (width v) v) as (buf2 & -> & W2 & L2 & B2);
    try done; try lia; [unfold is_u32; lia|].
  exists buf2. split; [done|]. split; [split|split; [done|split; [lia|]]].
  - intros j Hj. rewrite B2, B1 by lia. replace (c + j - c) with j by lia. by zcases.
  - intros j Hj. rewrite B2 by lia. replace (d + j - d) with j by lia. by zcases.
  - intros k Hk N1 N2. rewrite B2, B1 by done. by zcases.
Qed.

Lemma Decode_spec buf c d v :
  words buf → is_u32 v → 0 ≤ c → 0 ≤ d → c + 2 ≤ 32 * zlen buf →
  d + width v ≤ 32 * zlen buf → zlen buf < 2 ^ 32 → stored buf c d v →
  Decode buf (iter_at c) (iter_at d) = Ret (v, iter_at (c + 2), iter_at (d + width v)).
Proof.
  intros Hw Hv Hc Hd Hin1 Hin2 Hl [S1 S2]. unfold Decode.
  rewrite (DecodeBits_spec buf c 2 (SizeBits_to_u32 (size_code v)));
    [|done|done|lia|destruct (size_code v); cbn; lia|done|done|done].
  pose proof (width_fits v Hv) as Hf. pose proof (width_bounds v) as Hb.
  rewrite bind_ret.
  assert (HD : DecodeBits buf (iter_at d) (width v) = Ret (v, iter_at (d + width v)))
    by (apply DecodeBits_spec; done).
  unfold width in *. cbv beta iota.
  destruct (size_code v) eqn:E; cbn [SizeBits_to_u32 code_width Z.eqb Pos.eqb] in HD |- *;
    rewrite ?HD; try done.
  assert (v = 0) as -> by (revert E; unfold size_code; zcases; done).
  by rewrite Z.add_0_r.
Qed.

(** A stored value survives writes elsewhere. *)
Lemma stored_frame buf buf' c d v c' m d' n :
  0 ≤ c → 0 ≤ d → stored buf c d v → frame buf buf' c' m d' n →
  c + 2 ≤ c' → c + 2 ≤ d' → d + width v ≤ d' → c' + m ≤ d →
  stored buf' c d v.
Proof.
  intros Hc Hd [S1 S2] (_ & _ & F) ????. split; intros j Hj; rewrite F; auto; lia.
Qed.

(** ** The two loops *)

Definition diff_low (prev cur : Z) : Z := u32 (u64 (cur - prev)).
Definition diff_high (prev cur : Z) : Z := u32 (Z.shiftr (u64 (cur - prev)) 32).

(** Number of data bits of a compressed list. *)
Fixpoint data_bits (prev : Z) (xs : list Z) : Z :=
  match xs with
  | [] => 0
  | x :: xs => width (diff_low prev x) + width (diff_high prev x) + data_bits x xs
  end.

Fixpoint stored_all (buf : list Z) (c d prev : Z) (xs : list Z) : Prop :=
  match xs with
  | [] => True
  | x :: xs =>
    let lo := diff_low prev x in
    let hi := diff_high prev x in
    stored buf c d lo ∧ stored buf (c + 2) (d + width lo) hi ∧
    stored_all buf (c + 4) (d + width lo + width hi) x xs
  end.

Lemma data_bits_bounds xs : ∀ prev, 0 ≤ data_bits prev xs ≤ 64 * zlen xs.
Proof.
  induction xs as [|x xs IH]; intros prev; cbn [data_bits]; [done|].
  rewrite zlen_cons.
  pose proof (width_bounds (diff_low prev x)). pose proof (width_bounds (diff_high prev x)).
  specialize (IH x). lia.
Qed.

Lemma diff_join prev cur :
  is_u64 cur →
  u64 (prev + Z.lor (u64 (Z.shiftl (diff_high prev cur) 32)) (diff_low prev cur)) = cur.
Proof.
  intros Hc. unfold diff_high, diff_low.
  assert (Hd : 0 ≤ u64 (cur - prev) < 2 ^ 64) by apply u64_range.
  assert (Z.lor (u64 (Z.shiftl (u32 (Z.shiftr (u64 (cur - prev)) 32)) 32)) (u32 (u64 (cur - prev)))
          = u64 (cur - prev)) as ->.
  { set (x := u64 (cur - prev)) in *. apply Z.bits_inj'. intros j Hj. rewrite Z.lor_spec.
    unfold u64 at 1. destruct (Z.ltb_spec j 64).
    - rewrite Z.mod_pow2_bits_low, Z.shiftl_spec by lia.
      rewrite (u32_testbit x) by lia. destruct (Z.ltb_spec j 32); cbn.
      + by rewrite Z.testbit_neg_r by lia.
      + rewrite u32_testbit, Z.shiftr_spec by lia. replace (j - 32 + 32) with j by lia.
        zcases. by rewrite orb_false_r.
    - rewrite Z.mod_pow2_bits_high, u32_testbit by lia. zcases. cbn.
      rewrite <- (Z.mod_small x (2 ^ 64)) by done. by rewrite Z.mod_pow2_bits_high by lia. }
  rewrite u64_add_r. replace (prev + (cur - prev)) with cur by lia. by apply u64_small.
Qed.

Lemma frame_refl buf c m d n : words buf → frame buf buf c m d n.
Proof. by intros. Qed.

Lemma frame_trans b1 b2 b3 c m d n m' n' :
  0 ≤ m → 0 ≤ n → 0 ≤ m' → 0 ≤ n' →
  frame b1 b2 c m d n → frame b2 b3 (c + m) m' (d + n) n' →
  frame b1 b3 c (m + m') d (n + n').
Proof.
  intros ???? (W1 & L1 & F1) (W2 & L2 & F2). split; [done|split; [lia|]].
  intros k Hk N1 N2. rewrite F2, F1; (done || lia).
Qed.

(** The two [Encode] calls of one turn of [Compress]. *)
Lemma Encode_pair buf c d lo hi :
  words buf → is_u32 lo → is_u32 hi → 0 ≤ c → c + 4 ≤ d →
  d + width lo + width hi ≤ 32 * zlen buf → zlen buf < 2 ^ 32 →
  ∃ buf1 buf2,
    Encode buf (iter_at c) (iter_at d) lo
      = Ret (buf1, iter_at (c + 2), iter_at (d + width lo)) ∧
    Encode buf1 (iter_at (c + 2)) (iter_at (d + width lo)) hi
      = Ret (buf2, iter_at (c + 4), iter_at (d + width lo + width hi)) ∧
    stored buf2 c d lo ∧ stored buf2 (c + 2) (d + width lo) hi ∧
    frame buf buf2 c 4 d (width lo + width hi).
Proof.
  intros Hw Hlo Hhi Hc Hcd Hin Hl.
  pose proof (width_bounds lo). pose proof (width_bounds hi).
  destruct (Encode_spec buf c d lo) as (buf1 & E1 & S1 & F1); try done; try lia.
  pose proof F1 as (W1 & L1 & _).
  destruct (Encode_spec buf1 (c + 2) (d + width lo) hi) as (buf2 & E2 & S2 & F2);
    try done; try lia.
  exists buf1, buf2. replace (c + 4) with (c + 2 + 2) by lia.
  split_and!; [done|done| |done|].
  - apply (stored_frame buf1 buf2 c d lo _ _ _ _ Hc ltac:(lia) S1 F2); lia.
  - apply (frame_trans buf buf1 buf2 c 2 d (width lo) 2 (width hi)); done || lia.
Qed.

Lemma Compress_loop_spec xs : ∀ buf c d prev,
  words buf → Forall is_u64 xs → 0 ≤ c → c + 4 * zlen xs ≤ d →
  d + data_bits prev xs ≤ 32 * zlen buf → zlen buf < 2 ^ 32 →
  ∃ buf', Compress_loop xs buf (iter_at c) (iter_at d) prev
            = Ret (buf', iter_at (c + 4 * zlen xs), iter_at (d + data_bits prev xs))
          ∧ stored_all buf' c d prev xs
          ∧ frame buf buf' c (4 * zlen xs) d (data_bits prev xs).
Proof.
  induction xs as [|x xs IH]; intros buf c d prev Hw Hxs Hc Hcd Hin Hl.
  { exists buf. cbn [Compress_loop data_bits]. change (zlen []) with 0.
    by rewrite Z.mul_0_r, !Z.add_0_r. }
  apply Forall_cons in Hxs as [Hx Hxs].
  cbn [Compress_loop data_bits stored_all] in *. rewrite zlen_cons in *.
  change (u32 (u64 (x - prev))) with (diff_low prev x).
  change (u32 (Z.shiftr (u64 (x - prev)) 32)) with (diff_high prev x).
  assert (Hlo : is_u32 (diff_low prev x)) by apply u32_range.
  assert (Hhi : is_u32 (diff_high prev x)) by apply u32_range.
  set (lo := diff_low prev x) in *. set (hi := diff_high prev x) in *.
  pose proof (width_bounds lo). pose proof (width_bounds hi).
  pose proof (data_bits_bounds xs x). pose proof (zlen_nonneg xs).
  destruct (Encode_pair buf c d lo hi) as (buf1 & buf2 & -> & E2 & S1 & S2 & F);
    try done; try lia.
  rewrite bind_ret; cbv beta iota. rewrite E2, bind_ret; cbv beta iota.
  pose proof F as (W2 & L2 & _).
  destruct (IH buf2 (c + 4) (d + width lo + width hi) x) as (buf' & -> & SA & FA);
    try done; try lia.
  exists buf'. split; [|split; [split_and!|]].
  - replace (c + 4 * (zlen xs + 1)) with (c + 4 + 4 * zlen xs) by lia.
    by rewrite !Z.add_assoc.
  - apply (stored_frame buf2 buf' c d lo _ _ _ _ Hc ltac:(lia) S1 FA); lia.
  - apply (stored_frame buf2 buf' (c + 2) (d + width lo) hi _ _ _ _ ltac:(lia)
      ltac:(lia) S2 FA); lia.
  - done.
  - replace (4 * (zlen xs + 1)) with (4 + 4 * zlen xs) by lia.
    apply (frame_trans buf buf2 buf' c 4 d (width lo + width hi)); try lia; [done|].
    by rewrite Z.add_assoc.
Qed.

Lemma Decompress_loop_spec xs : ∀ buf c d prev,
  words buf → Forall is_u64 xs → 0 ≤ c → c + 4 * zlen xs ≤ d →
  d + data_bits prev xs ≤ 32 * zlen buf → zlen buf < 2 ^ 32 →
  stored_all buf c d prev xs →
  Decompress_loop (length xs) buf (iter_at c) (iter_at d) prev = Ret xs.
Proof.
  induction xs as [|x xs IH]; intros buf c d prev Hw Hxs Hc Hcd Hin Hl HS; [done|].
  apply Forall_cons in Hxs as [Hx Hxs].
  cbn [length Decompress_loop data_bits stored_all] in *. rewrite zlen_cons in *.
  destruct HS as (S1 & S2 & S3).
  assert (Hlo : is_u32 (diff_low prev x)) by apply u32_range.
  assert (Hhi : is_u32 (diff_high prev x)) by apply u32_range.
  pose proof (width_bounds (diff_low prev x)). pose proof (width_bounds (diff_high prev x)).
  pose proof (data_bits_bounds xs x). pose proof (zlen_nonneg xs).
  rewrite (Decode_spec buf c d (diff_low prev x)) by (done || lia).
  rewrite bind_ret; cbv beta iota.
  rewrite (Decode_spec buf (c + 2) _ (diff_high prev x)) by (done || lia).
  rewrite bind_ret; cbv beta iota. rewrite diff_join by done.
  replace (c + 2 + 2) with (c + 4) by lia.
  rewrite IH by (done || lia). done.
Qed.

(** ** Compress as a whole *)

Definition ceil32 (p : Z) : Z := 32 * ((p + 31) / 32).

(** First data bit of a buffer that holds [n] values. *)
Definition data_start (n : Z) : Z := 32 * (1 + CalculateControlBlockSize n).

(** Words used by the compressed form of [xs]. *)
Definition used_words (xs : list Z) : Z :=
  (data_start (zlen xs) + data_bits 0 xs + 31) / 32.

Lemma ceil32_bounds p : p ≤ ceil32 p < p + 32.
Proof. unfold ceil32. Z.div_mod_to_equations; lia. Qed.

Lemma ClearUnusedBits_spec buf p :
  words buf → 0 ≤ p → ceil32 p ≤ 32 * zlen buf →
  ∃ buf', ClearUnusedBits buf (iter_at p) = Ret buf' ∧ words buf' ∧ zlen buf' = zlen buf ∧
    ∀ k, 0 ≤ k → bit buf' k = bit buf k && negb ((p <=? k) && (k <? ceil32 p)).
Proof.
  intros Hw Hp Hin. unfold ClearUnusedBits. cbn [iter_at bitIndex value].
  pose proof (Z.mod_pos_bound p 32 ltac:(lia)) as Hm.
  destruct (Z.eqb_spec (p mod 32) 0) as [E|E].
  - exists buf. split_and!; [done|done|done|]. intros k Hk.
    assert (ceil32 p = p) by (unfold ceil32; Z.div_mod_to_equations; lia).
    destruct (bit buf k); [|done]. by zcases.
  - assert (Hc : ceil32 p = 32 * (p / 32) + 32)
      by (unfold ceil32; Z.div_mod_to_equations; lia).
    assert (Hi : 0 ≤ p / 32 < zlen buf) by (Z.div_mod_to_equations; lia).
    rewrite rd_in, bind_ret, wr_in by done. eexists; split; [done|].
    split; [apply words_put; [done|apply is_u32_ClearBits]|]. split; [apply zlen_put|].
    intros k Hk. rewrite bit_put by done. unfold ValueBitsSize.
    pose proof (Z.mod_pos_bound k 32 ltac:(lia)). case_decide as Hd.
    + rewrite ClearBits_testbit by (lia || by apply words_get).
      unfold bit. rewrite <- Hd. f_equal. f_equal.
      destruct (Z.leb_spec (p mod 32) (k mod 32)), (Z.leb_spec p k),
        (Z.ltb_spec (k mod 32) 32), (Z.ltb_spec k (ceil32 p)); cbn; try done; exfalso;
        Z.div_mod_to_equations; lia.
    + destruct (bit buf k); [|done].
      destruct (Z.leb_spec p k), (Z.ltb_spec k (ceil32 p)); try done.
      exfalso. apply Hd. Z.div_mod_to_equations; lia.
Qed.

Lemma CalculateControlBlockSize_eq n :
  0 ≤ n ≤ 2 ^ 30 → CalculateControlBlockSize n = (4 * n + 31) / 32.
Proof.
  intros. unfold CalculateControlBlockSize, ValueBitsSize.
  rewrite (u64_small (n * 2 * 2)) by (unfold is_u64; lia).
  rewrite u64_small by (unfold is_u64; lia). f_equal. lia.
Qed.

Lemma data_start_bounds n :
  0 ≤ n ≤ 2 ^ 30 →
  32 + 4 * n ≤ data_start n ∧ data_start n = ceil32 (32 + 4 * n) ∧ data_start n ≤ 2 ^ 33.
Proof.
  intros. unfold data_start, ceil32. rewrite CalculateControlBlockSize_eq by done.
  Z.div_mod_to_equations; lia.
Qed.

Lemma used_words_bounds xs :
  zlen xs ≤ 2 ^ 30 →
  1 ≤ used_words xs ≤ CalculateMaxExpectedSize (zlen xs) ∧
  CalculateMaxExpectedSize (zlen xs) < 2 ^ 32 ∧
  32 * used_words xs = ceil32 (data_start (zlen xs) + data_bits 0 xs).
Proof.
  intros Hn. pose proof (zlen_nonneg xs). pose proof (data_bits_bounds xs 0).
  unfold used_words, ceil32, CalculateMaxExpectedSize, data_start.
  rewrite CalculateControlBlockSize_eq by lia.
  assert (0 ≤ (4 * zlen xs + 31) / 32 ≤ zlen xs + 1) by (Z.div_mod_to_equations; lia).
  rewrite u32_small by (unfold is_u32; lia).
  split_and!; [..|done]; Z.div_mod_to_equations; lia.
Qed.

Lemma Advance_begin n :
  is_u32 n → AdvanceBytes BitIterator_begin (u32 n) = iter_at (32 * n).
Proof.
  intros Hn. unfold AdvanceBytes, BitIterator_begin, iter_at; cbn [value bitIndex valuePos].
  rewrite !Z.add_0_l, !(u32_small n) by done.
  replace (32 * n / 32) with n by (Z.div_mod_to_equations; lia).
  by replace (32 * n mod 32) with 0 by (Z.div_mod_to_equations; lia).
Qed.

(** What the compressed buffer holds. *)
Record compressed (xs buf : list Z) : Prop := {
  comp_words : words buf;
  comp_fits : used_words xs ≤ zlen buf;
  comp_total : get buf 0 = zlen xs;
  comp_stored : stored_all buf 32 (data_start (zlen xs)) 0 xs;
  comp_pad_ctl : ∀ k, 32 + 4 * zlen xs ≤ k < data_start (zlen xs) → bit buf k = false;
  comp_pad_data : ∀ k, data_start (zlen xs) + data_bits 0 xs ≤ k < 32 * used_words xs →
                    bit buf k = false;
}.

Lemma stored_agree buf buf' c d v lim :
  0 ≤ c → 0 ≤ d → c + 2 ≤ lim → d + width v ≤ lim →
  (∀ k, 0 ≤ k < lim → (c ≤ k < c + 2 ∨ d ≤ k < d + width v) → bit buf' k = bit buf k) →
  stored buf c d v → stored buf' c d v.
Proof.
  intros ???? Ha [S1 S2]. pose proof (width_bounds v).
  split; intros j Hj; rewrite Ha; auto; lia.
Qed.

Lemma stored_all_agree xs : ∀ buf buf' c d prev,
  0 ≤ c → c + 4 * zlen xs ≤ d →
  (∀ k, c ≤ k < c + 4 * zlen xs → bit buf' k = bit buf k) →
  (∀ k, d ≤ k < d + data_bits prev xs → bit buf' k = bit buf k) →
  stored_all buf c d prev xs → stored_all buf' c d prev xs.
Proof.
  induction xs as [|x xs IH]; intros buf buf' c d prev Hc Hcd A1 A2 HS; [done|].
  cbn [stored_all data_bits] in *. rewrite zlen_cons in *. destruct HS as (S1 & S2 & S3).
  pose proof (width_bounds (diff_low prev x)). pose proof (width_bounds (diff_high prev x)).
  pose proof (data_bits_bounds xs x). pose proof (zlen_nonneg xs).
  split_and!.
  - eapply (stored_agree buf buf' _ _ _ (d + width (diff_low prev x))); [..|done]; try lia.
    intros k Hk [?|?]; [apply A1|apply A2]; lia.
  - eapply (stored_agree buf buf' _ _ _ (d + width (diff_low prev x) + width (diff_high prev x)));
      [..|done]; try lia.
    intros k Hk [?|?]; [apply A1|apply A2]; lia.
  - apply (IH buf); try done; try lia; intros k Hk; [apply A1|apply A2]; lia.
Qed.

Lemma get_bits buf buf' i :
  words buf → words buf' → 0 ≤ i < zlen buf → i < zlen buf' →
  (∀ k, 32 * i ≤ k < 32 * i + 32 → bit buf' k = bit buf k) → get buf' i = get buf i.
Proof.
  intros W W' Hi Hi' Hb. apply Z.bits_inj'. intros j Hj. destruct (Z.ltb_spec j 32).
  - specialize (Hb (32 * i + j)). unfold bit in Hb.
    replace ((32 * i + j) / 32) with i in Hb by (Z.div_mod_to_equations; lia).
    replace ((32 * i + j) mod 32) with j in Hb by (Z.div_mod_to_equations; lia).
    apply Hb. lia.
  - rewrite !u32_bits_high; try done; try lia; apply words_get; done || lia.
Qed.

Lemma Compress_spec xs out :
  Forall is_u64 xs → zlen xs ≤ 2 ^ 30 → words out →
  CalculateMaxExpectedSize (zlen xs) ≤ zlen out < 2 ^ 32 →
  ∃ buf, Compress xs out = Ret (buf, used_words xs) ∧ compressed xs buf ∧ zlen buf = zlen out.
Proof.
  intros Hxs Hn Hw Hout. pose proof (zlen_nonneg xs) as Hn0.
  pose proof (used_words_bounds xs Hn) as (Hu1 & Hu2 & Hu3).
  pose proof (data_start_bounds (zlen xs) ltac:(lia)) as (Hd1 & Hd2 & Hd3).
  pose proof (data_bits_bounds xs 0) as Hdb.
  set (D := data_start (zlen xs)) in *. set (pd := D + data_bits 0 xs) in *.
  pose proof (ceil32_bounds pd) as Hcp. assert (Hpd : pd = D + data_bits 0 xs) by done.
  unfold Compress. rewrite wr_in, bind_ret by lia. rewrite (u32_small (zlen xs))
    by (unfold is_u32; lia).
  set (out0 := put out 0 (zlen xs)). cbv beta zeta.
  assert (W0 : words out0) by (apply words_put; [done|unfold is_u32; lia]).
  assert (L0 : zlen out0 = zlen out) by apply zlen_put.
  change (AdvanceBytes BitIterator_begin 1) with (iter_at 32).
  rewrite Advance_begin by (unfold D, data_start in Hd3; unfold is_u32;
    pose proof (CalculateControlBlockSize_eq (zlen xs) ltac:(lia)); Z.div_mod_to_equations; lia).
  change (32 * (1 + CalculateControlBlockSize (zlen xs))) with D.
  destruct (Compress_loop_spec xs out0 32 D 0) as (buf1 & -> & SA & W1 & L1 & F1);
    try done; try lia.
  rewrite bind_ret; cbv beta iota. change (D + data_bits 0 xs) with pd.
  destruct (ClearUnusedBits_spec buf1 pd) as (buf2 & -> & W2 & L2 & B2); try done; try lia.
  rewrite bind_ret.
  destruct (ClearUnusedBits_spec buf2 (32 + 4 * zlen xs)) as (buf3 & -> & W3 & L3 & B3);
    try done; try lia.
  rewrite bind_ret. exists buf3. split; [|split; [split|lia]]; try done.
  - cbn [iter_at bitIndex valuePos]. pose proof (Z.mod_pos_bound pd 32 ltac:(lia)).
    unfold used_words. fold D pd. destruct (Z.eqb_spec (pd mod 32) 0).
    + do 2 f_equal. Z.div_mod_to_equations; lia.
    + rewrite u32_small by (unfold is_u32; Z.div_mod_to_equations; lia).
      do 2 f_equal. Z.div_mod_to_equations; lia.
  - lia.
  - rewrite (get_bits out0 buf3 0) by (done || lia || (intros k Hk;
      rewrite B3, B2, F1 by lia; destruct (bit out0 k); zcases; done)).
    apply get_put_eq. lia.
  - apply (stored_all_agree xs buf1); try done; try lia; intros k Hk;
      rewrite B3, B2 by lia; destruct (bit buf1 k); zcases; done.
  - intros k Hk. rewrite B3 by lia. fold D in Hk. rewrite <- Hd2.
    destruct (bit buf2 k); zcases; done.
  - intros k Hk. fold D pd in Hk. rewrite B3, B2 by lia.
    destruct (bit buf1 k); zcases; done.
Qed.

Lemma Decompress_spec xs buf :
  Forall is_u64 xs → zlen xs ≤ 2 ^ 30 → zlen buf < 2 ^ 32 → compressed xs buf →
  Decompress buf = Ret xs.
Proof.
  intros Hxs Hn Hl [W Fi T S _ _]. pose proof (zlen_nonneg xs) as Hn0.
  pose proof (used_words_bounds xs Hn) as (Hu1 & Hu2 & Hu3).
  pose proof (data_start_bounds (zlen xs) ltac:(lia)) as (Hd1 & Hd2 & Hd3).
  pose proof (ceil32_bounds (data_start (zlen xs) + data_bits 0 xs)).
  unfold Decompress. rewrite rd_in, bind_ret, T by lia.
  change (AdvanceBytes BitIterator_begin 1) with (iter_at 32).
  cbv beta zeta. rewrite Advance_begin by (unfold data_start in Hd3; unfold is_u32;
    pose proof (CalculateControlBlockSize_eq (zlen xs) ltac:(lia)); Z.div_mod_to_equations; lia).
  change (32 * (1 + CalculateControlBlockSize (zlen xs))) with (data_start (zlen xs)).
  unfold zlen at 1. rewrite Nat2Z.id. apply Decompress_loop_spec; try done; lia.
Qed.

Lemma bit_take buf n k :
  0 ≤ n ≤ zlen buf → 0 ≤ k < 32 * n → bit (take (Z.to_nat n) buf) k = bit buf k.
Proof.
  intros Hn Hk. unfold bit, get. rewrite lookup_total_take_lt; [done|].
  Z.div_mod_to_equations; lia.
Qed.

Lemma compressed_take xs buf :
  zlen xs ≤ 2 ^ 30 → compressed xs buf →
  compressed xs (take (Z.to_nat (used_words xs)) buf).
Proof.
  intros Hn [W Fi T S P1 P2]. pose proof (zlen_nonneg xs) as Hn0.
  pose proof (used_words_bounds xs Hn) as (Hu1 & Hu2 & Hu3).
  pose proof (data_start_bounds (zlen xs) ltac:(lia)) as (Hd1 & Hd2 & Hd3).
  pose proof (ceil32_bounds (data_start (zlen xs) + data_bits 0 xs)) as Hc.
  pose proof (data_bits_bounds xs 0).
  split.
  - by apply Forall_take.
  - unfold zlen in *. rewrite length_take. lia.
  - rewrite <- T. unfold get. apply lookup_total_take_lt. lia.
  - apply (stored_all_agree xs buf); try done; try lia; intros k Hk;
      apply bit_take; lia.
  - intros k Hk. rewrite bit_take by lia. by apply P1.
  - intros k Hk. rewrite bit_take by lia. by apply P2.
Qed.

Lemma Compress_vec_spec xs :
  Forall is_u64 xs → zlen xs ≤ 2 ^ 30 →
  ∃ out, Compress_vec xs = Ret out ∧ compressed xs out ∧ zlen out = used_words xs.
Proof.
  intros Hxs Hn. pose proof (zlen_nonneg xs).
  pose proof (used_words_bounds xs Hn) as (Hu1 & Hu2 & Hu3).
  unfold Compress_vec.
  set (z := replicate _ 0).
  assert (zlen z = CalculateMaxExpectedSize (zlen xs)) as Hz
    by (unfold z; rewrite zlen_replicate; lia).
  destruct (Compress_spec xs z) as (buf & -> & C & L); try done; try lia;
    [apply words_replicate|].
  rewrite bind_ret. cbv beta iota.
  assert (Z.to_nat (used_words xs) ≤ length buf)%nat by (unfold zlen in *; lia).
  rewrite resize_le by done. eexists. split; [done|]. split; [by apply compressed_take|].
  unfold zlen. rewrite length_take. lia.
Qed.

Lemma stored_all_bits xs : ∀ b1 b2 c d prev,
  stored_all b1 c d prev xs → stored_all b2 c d prev xs →
  (∀ k, c ≤ k < c + 4 * zlen xs → bit b1 k = bit b2 k) ∧
  (∀ k, d ≤ k < d + data_bits prev xs → bit b1 k = bit b2 k).
Proof.
  induction xs as [|x xs IH]; intros b1 b2 c d prev H1 H2.
  { split; intros k Hk; exfalso; cbn [data_bits] in *; [change (zlen []) with 0 in *|]; lia. }
  cbn [stored_all data_bits] in *. rewrite zlen_cons in *.
  set (lo := diff_low prev x) in *. set (hi := diff_high prev x) in *.
  destruct H1 as ([A1 A2] & [B1 B2] & H1), H2 as ([C1 C2] & [D1 D2] & H2).
  destruct (IH _ _ _ _ _ H1 H2) as [I1 I2]. split; intros k Hk.
  - destruct (Z.ltb_spec k (c + 2)).
    { replace k with (c + (k - c)) by lia. rewrite A1, C1 by lia. done. }
    destruct (Z.ltb_spec k (c + 4)); [|apply I1; lia].
    replace k with (c + 2 + (k - c - 2)) by lia. rewrite B1, D1 by lia. done.
  - destruct (Z.ltb_spec k (d + width lo)).
    { replace k with (d + (k - d)) by lia. rewrite A2, C2 by lia. done. }
    destruct (Z.ltb_spec k (d + width lo + width hi)); [|apply I2; lia].
    replace k with (d + width lo + (k - d - width lo)) by lia. rewrite B2, D2 by lia. done.
Qed.

(** The used words are the same whatever the buffer held before. *)
Lemma compressed_unique xs b1 b2 :
  zlen xs ≤ 2 ^ 30 → compressed xs b1 → compressed xs b2 →
  take (Z.to_nat (used_words xs)) b1 = take (Z.to_nat (used_words xs)) b2.
Proof.
  intros Hn C1 C2. pose proof (zlen_nonneg xs) as Hn0.
  pose proof (used_words_bounds xs Hn) as (Hu1 & Hu2 & Hu3).
  pose proof (data_start_bounds (zlen xs) ltac:(lia)) as (Hd1 & Hd2 & Hd3).
  pose proof (ceil32_bounds (data_start (zlen xs) + data_bits 0 xs)) as Hc.
  destruct C1 as [W1 F1 T1 S1 P1 Q1], C2 as [W2 F2 T2 S2 P2 Q2].
  destruct (stored_all_bits xs _ _ _ _ _ S1 S2) as [A1 A2].
  assert (Hl : ∀ b : list Z, used_words xs ≤ zlen b →
    zlen (take (Z.to_nat (used_words xs)) b) = used_words xs)
    by (intros b Hb; unfold zlen in *; rewrite length_take; lia).
  apply words_ext; [by apply Forall_take|by apply Forall_take|by rewrite !Hl|].
  rewrite Hl by done. intros k Hk. rewrite !bit_take by lia.
  destruct (Z.ltb_spec k 32).
  { unfold bit. replace (k / 32) with 0 by (Z.div_mod_to_equations; lia). by rewrite T1, T2. }
  destruct (Z.ltb_spec k (32 + 4 * zlen xs)); [apply A1; lia|].
  destruct (Z.ltb_spec k (data_start (zlen xs))); [rewrite P1, P2 by lia; done|].
  destruct (Z.ltb_spec k (data_start (zlen xs) + data_bits 0 xs)); [apply A2; lia|].
  rewrite Q1, Q2 by lia. done.
Qed.

Lemma Compress_vec_inj xs ys out :
  Forall is_u64 xs → Forall is_u64 ys → zlen xs ≤ 2 ^ 30 → zlen ys ≤ 2 ^ 30 →
  Compress_vec xs = Ret out → Compress_vec ys = Ret out → xs = ys.
Proof.
  intros Hx Hy Nx Ny Ex Ey.
  destruct (Compress_vec_spec xs) as (o1 & E1 & C1 & L1); try done.
  destruct (Compress_vec_spec ys) as (o2 & E2 & C2 & L2); try done.
  pose proof (used_words_bounds xs Nx). pose proof (used_words_bounds ys Ny).
  assert (o1 = out) as -> by congruence. assert (o2 = out) as -> by congruence.
  pose proof (Decompress_spec xs out Hx Nx ltac:(lia) C1).
  pose proof (Decompress_spec ys out Hy Ny ltac:(lia) C2). congruence.
Qed.

(** ** Properties *)

(** C10: [Compress] into a vector always completes without touching memory outside
    the vector sized by [CalculateMaxExpectedSize], and [Decompress] of its
    result gives back exactly the values that were compressed, for every list of
    up to 2^30 64-bit values.  The words do not depend on what the output held before: into two
    buffers with any contents the same words are written.  The trackers compare compressed
    traces word by word, so equal traces always compare equal. *)
Theorem compress_decompress (xs : list Z) :
  Forall is_u64 xs → zlen xs ≤ 2 ^ 30 →
  (∃ out, Compress_vec xs = Ret out ∧ zlen out ≤ CalculateMaxExpectedSize (zlen xs) ∧ Decompress out = Ret xs) ∧
  ∀ out1 out2, words out1 → words out2 →
    CalculateMaxExpectedSize (zlen xs) ≤ zlen out1 < 2 ^ 32 → CalculateMaxExpectedSize (zlen xs) ≤ zlen out2 < 2 ^ 32 →
    ∃ b1 b2 size, Compress xs out1 = Ret (b1, size) ∧ Compress xs out2 = Ret (b2, size)
      ∧ take (Z.to_nat size) b1 = take (Z.to_nat size) b2.
Proof.
  intros Hxs Hn. split.
  - destruct (Compress_vec_spec xs) as (out & -> & C & L); try done.
    pose proof (used_words_bounds xs Hn). exists out. split; [done|]. split; [lia|].
    apply Decompress_spec; done || lia.
  - intros out1 out2 W1 W2 L1 L2.
    destruct (Compress_spec xs out1) as (b1 & E1 & C1 & _); try done.
    destruct (Compress_spec xs out2) as (b2 & E2 & C2 & _); try done.
    exists b1, b2, (used_words xs). split; [done|]. split; [done|].
    by apply compressed_unique.
Qed.

Lemma compress_decompress_witness :
  (∃ out, Compress_vec [140737488355327; 140737488350000; 0; 18446744073709551615] = Ret out
          ∧ zlen out ≤ CalculateMaxExpectedSize 4
          ∧ Decompress out = Ret [140737488355327; 140737488350000; 0; 18446744073709551615])
  ∧ ∃ b1 b2 size, Compress [7; 9] [0; 0; 0; 0; 0; 0] = Ret (b1, size)
    ∧ Compress [7; 9] [1; 4294967295; 3; 4; 4294967295; 6] = Ret (b2, size)
    ∧ take (Z.to_nat size) b1 = take (Z.to_nat size) b2.
Proof.
  split.
  - apply (compress_decompress [140737488355327; 140737488350000; 0; 18446744073709551615]).
    + repeat constructor; lia.
    + vm_compute. discriminate.
  - apply (compress_decompress [7; 9]); try (repeat constructor; lia); vm_compute; try done; split; done.
Defined.
