(* ===== verification/Algo.v ===== *)
(** * Collapsing recursion in stack traces ([impl/algo.h], [impl/algo.cpp])

    The span of return addresses is a [list Z] that the three routines change in
    place; each returns the new length.  [CollapseRecursionOpt] and
    [CollapseRecursionAvx] precompute, for every position, the longest block that
    repeats the block before it; [CollapseRecursionNaive] searches the shortest
    repeated suffix of what it kept so far. *)

From Stdlib Require Import ZArith Lia.
From stdpp Require Import base numbers list.
From S2P Require Import Prelude.

Definition MaxUnwindDepth : Z := 64.
Definition MaxCollapseDepth : Z := 8.

(** ** CollapseRecursionOpt *)

(** The [while (shifted < end)] loop for one [shift]: fills [maxDp]. *)
Fixpoint opt_inner (fuel : nat) (data : list Z) (end_ shift cur shifted prevValue dp : Z)
    (maxDp : list Z) : outcome (list Z) :=
  match fuel with
  | O => NoFuel
  | S fuel =>
    if shifted <? end_ then
      nextValue ← rd data shifted;
      '(dp, maxDp) ←
        (if negb (prevValue =? nextValue) then Ret (0, maxDp)
         else
           let dp := u8 (dp + 1) in
           if shift <=? dp then m ← wr maxDp cur (u8 shift); Ret (dp, m)
           else Ret (dp, maxDp));
      prevValue ← rd data cur;
      opt_inner fuel data end_ shift (u32 (cur + 1)) (u32 (shifted + 1)) prevValue dp maxDp
    else Ret maxDp
  end.

(** [for (uint32_t shift = 1; shift <= depth; shift++)]. *)
Fixpoint opt_shifts (fuel : nat) (data : list Z) (depth end_ shift : Z) (maxDp : list Z)
    : outcome (list Z) :=
  match fuel with
  | O => NoFuel
  | S fuel =>
    if shift <=? depth then
      prevValue ← rd data 0;
      maxDp ← opt_inner (S (length data)) data end_ shift 1 (u32 (1 + shift - 1)) prevValue 0 maxDp;
      opt_shifts fuel data depth end_ (u32 (shift + 1)) maxDp
    else Ret maxDp
  end.

(** The final loop: moves the kept elements to the front. *)
Fixpoint opt_compact (fuel : nat) (data maxDp : list Z) (end_ cur left : Z)
    : outcome (list Z * Z) :=
  match fuel with
  | O => NoFuel
  | S fuel =>
    if cur <? end_ then
      m ← rd maxDp cur;
      if m =? 0 then
        let left := u32 (left + 1) in
        x ← rd data cur;
        data ← wr data left x;
        opt_compact fuel data maxDp end_ (u32 (cur + 1)) left
      else opt_compact fuel data maxDp end_ (u32 (cur + m)) left
    else Ret (data, left)
  end.

Definition CollapseRecursionOpt_fuel (fuel : nat) (data : list Z) (depth : Z)
    : outcome (list Z * Z) :=
  if (depth =? 0) || (zlen data <? 2) then Ret (data, zlen data)
  else
    let maxDp := replicate (Z.to_nat MaxUnwindDepth) 0 in
    let end_ := u32 (zlen data) in
    d0 ← rd data 0;
    d1 ← rd data 1;
    maxDp ← wr maxDp 0 (if d0 =? d1 then 1 else 0);
    maxDp ← opt_shifts fuel data depth end_ 1 maxDp;
    '(data, left_) ← opt_compact (S (length data)) data maxDp end_ 1 0;
    Ret (data, u32 (left_ + 1)).

(** [depth + 1] turns finish the loop over [shift] whenever [depth + 1] fits the
    32-bit counter. *)
Definition CollapseRecursionOpt (data : list Z) (depth : Z) : outcome (list Z * Z) :=
  CollapseRecursionOpt_fuel (S (Z.to_nat depth)) data depth.

(** ** CollapseRecursionAvx *)

Definition simdStride : Z := 8.

(** [_mm512_loadu_epi64]: eight consecutive words. *)
Definition loadu (data : list Z) (i : Z) : outcome (list Z) :=
  if (0 <=? i) && (i + 8 <=? zlen data) then Ret (take 8 (drop (Z.to_nat i) data)) else Undef.

(** [_mm512_cmpeq_epi64_mask]: bit [j] says whether lanes [j] are equal. *)
Fixpoint cmpeq_mask (a b : list Z) : Z :=
  match a, b with
  | x :: a, y :: b => (if x =? y then 1 else 0) + 2 * cmpeq_mask a b
  | _, _ => 0
  end.

(** The unrolled loop over the eight bits of a mask; [n] bits are left. *)
Fixpoint avx_bits (n : nat) (shift i j mask lastDp : Z) (maxDp : list Z)
    : outcome (Z * list Z) :=
  match n with
  | O => Ret (lastDp, maxDp)
  | S n =>
    if Z.land mask 1 =? 0 then avx_bits n shift i (j + 1) (Z.shiftr mask 1) 0 maxDp
    else
      let lastDp := u8 (lastDp + 1) in
      maxDp ← (if shift <=? lastDp then wr maxDp (u32 (i + j + 1)) (u8 shift) else Ret maxDp);
      avx_bits n shift i (j + 1) (Z.shiftr mask 1) lastDp maxDp
  end.

Fixpoint avx_blocks (fuel : nat) (data : list Z) (maxIndex shift i lastDp : Z)
    (maxDp : list Z) : outcome (Z * Z * list Z) :=
  match fuel with
  | O => NoFuel
  | S fuel =>
    if u32 (i + simdStride) <=? maxIndex then
      current ← loadu data i;
      shifted_elements ← loadu data (i + shift);
      let mask := u8 (cmpeq_mask current shifted_elements) in
      '(lastDp, maxDp) ← avx_bits 8 shift i 0 mask lastDp maxDp;
      avx_blocks fuel data maxIndex shift (u32 (i + simdStride)) lastDp maxDp
    else Ret (i, lastDp, maxDp)
  end.

(** "Handle remaining elements". *)
Fixpoint avx_tail (fuel : nat) (data : list Z) (maxIndex shift i lastDp : Z)
    (maxDp : list Z) : outcome (list Z) :=
  match fuel with
  | O => NoFuel
  | S fuel =>
    if i <? maxIndex then
      x ← rd data i;
      y ← rd data (u32 (i + shift));
      if negb (x =? y) then avx_tail fuel data maxIndex shift (u32 (i + 1)) 0 maxDp
      else
        let lastDp := u8 (lastDp + 1) in
        maxDp ← (if shift <=? lastDp then wr maxDp (u32 (i + 1)) (u8 shift) else Ret maxDp);
        avx_tail fuel data maxIndex shift (u32 (i + 1)) lastDp maxDp
    else Ret maxDp
  end.

Fixpoint avx_shifts (fuel : nat) (data : list Z) (depth size shift : Z) (maxDp : list Z)
    : outcome (list Z) :=
  match fuel with
  | O => NoFuel
  | S fuel =>
    if shift <=? depth then
      let maxIndex := u32 (size - shift) in
      if maxIndex =? 0 then Ret maxDp
      else
        '(i, lastDp, maxDp) ← avx_blocks (S (length data)) data maxIndex shift 0 0 maxDp;
        maxDp ← avx_tail (S (length data)) data maxIndex shift i lastDp maxDp;
        avx_shifts fuel data depth size (u32 (shift + 1)) maxDp
    else Ret maxDp
  end.

Fixpoint avx_compact (fuel : nat) (data maxDp : list Z) (size cur left : Z)
    : outcome (list Z * Z) :=
  match fuel with
  | O => NoFuel
  | S fuel =>
    if cur <? size then
      m ← rd maxDp cur;
      if m =? 0 then
        let left := u32 (left + 1) in
        x ← rd data cur;
        data ← wr data left x;
        avx_compact fuel data maxDp size (u32 (cur + 1)) left
      else avx_compact fuel data maxDp size (u32 (cur + m)) left
    else Ret (data, left)
  end.

(** The loop over [shift] ends at [shift = size] at the latest. *)
Definition CollapseRecursionAvx (data : list Z) (depth : Z) : outcome (list Z * Z) :=
  let size := zlen data in
  if (depth =? 0) || (size <? 2) then Ret (data, size)
  else
    let maxDp := replicate (Z.to_nat MaxUnwindDepth) 0 in
    maxDp ← avx_shifts (S (length data)) data depth size 1 maxDp;
    '(data, left_) ← avx_compact (S (length data)) data maxDp size 1 0;
    Ret (data, u32 (left_ + 1)).

(** [CollapseRecursion] dispatches on [COMPILER_SUPPORTS_AVX512]. *)
Definition CollapseRecursion (avx512 : bool) (data : list Z) (depth : Z) : outcome (list Z * Z) :=
  if avx512 then CollapseRecursionAvx data depth else CollapseRecursionOpt data depth.

(** ** CollapseRecursionNaive *)

Fixpoint naive_match (fuel : nat) (data : list Z) (cur left spanSize p : Z) : outcome bool :=
  match fuel with
  | O => NoFuel
  | S fuel =>
    if p <? spanSize then
      x ← rd data (u64 (cur + p));
      y ← rd data (u64 (left - spanSize + p + 1));
      if negb (x =? y) then Ret false
      else naive_match fuel data cur left spanSize (u64 (p + 1))
    else Ret true
  end.

(** The loop over [spanSize]; the result is [cycleSize]. *)
Fixpoint naive_span (fuel : nat) (data : list Z) (depth cur left end_ spanSize : Z) : outcome Z :=
  match fuel with
  | O => NoFuel
  | S fuel =>
    if (spanSize <=? depth) && (u64 (cur + spanSize) <=? end_) then
      if u64 (left + 1) <? spanSize then Ret 0
      else
        matched ← naive_match (S (length data)) data cur left spanSize 0;
        if matched : bool then Ret spanSize
        else naive_span fuel data depth cur left end_ (u64 (spanSize + 1))
    else Ret 0
  end.

Fixpoint naive_loop (fuel : nat) (data : list Z) (depth end_ cur left : Z)
    : outcome (list Z * Z) :=
  match fuel with
  | O => NoFuel
  | S fuel =>
    if cur <? end_ then
      cycleSize ← naive_span (S (length data)) data depth cur left end_ 1;
      if 0 <? cycleSize then naive_loop fuel data depth end_ (u64 (cur + cycleSize)) left
      else
        let left := u64 (left + 1) in
        x ← rd data cur;
        data ← wr data left x;
        naive_loop fuel data depth end_ (u64 (cur + 1)) left
    else Ret (data, left)
  end.

Definition CollapseRecursionNaive (data : list Z) (depth : Z) : outcome (list Z * Z) :=
  '(data, left_) ← naive_loop (S (length data)) data depth (zlen data) 1 0;
  Ret (data, u64 (left_ + 1)).

(** ** Specification

    [square data c s]: the block of length [s] at [c] repeats the block before it. *)

Definition square (data : list Z) (c s : Z) : bool :=
  (1 <=? s) && (s <=? c) && (c + s <=? zlen data)
  && forallb (fun i => get data (c - s + Z.of_nat i) =? get data (c + Z.of_nat i))
       (seq 0 (Z.to_nat s)).

(** The longest repetition of length at most [depth] at [c], or 0. *)
Fixpoint longest (data : list Z) (c : Z) (depth : nat) : Z :=
  match depth with
  | O => 0
  | S d => if square data c (Z.of_nat (S d)) then Z.of_nat (S d) else longest data c d
  end.

(** Keep an element where nothing repeats, else jump over the repetition. *)
Fixpoint collapse_from (fuel : nat) (data : list Z) (skip : Z → Z) (c : Z) : list Z :=
  match fuel with
  | O => []
  | S fuel =>
    if c <? zlen data then
      if skip c =? 0 then get data c :: collapse_from fuel data skip (c + 1)
      else collapse_from fuel data skip (c + skip c)
    else []
  end.

Definition collapse (data : list Z) (depth : Z) : list Z :=
  take 1 data ++
  collapse_from (length data) data (fun c => longest data c (Z.to_nat depth)) 1.

Lemma square_spec data c s :
  square data c s = true ↔
  1 ≤ s ≤ c ∧ c + s ≤ zlen data ∧ ∀ i, 0 ≤ i < s → get data (c - s + i) = get data (c + i).
Proof.
  unfold square. rewrite !andb_true_iff, forallb_forall, !Z.leb_le. split.
  - intros [[[Hl1 Hl2] Hl3] H]. split_and!; try lia. intros i Hi.
    specialize (H (Z.to_nat i)). rewrite in_seq, Z2Nat.id, Z.eqb_eq in H by lia. apply H. lia.
  - intros ((Hl1 & Hl2) & Hl3 & H). split; [lia|]. intros i Hi%in_seq. apply Z.eqb_eq, H. lia.
Qed.

(** Length of the run of positions [j < m] with [data[j] = data[j+s]] that ends at [m]. *)
Fixpoint run (data : list Z) (s : Z) (m : nat) : Z :=
  match m with
  | O => 0
  | S m => if get data (Z.of_nat m) =? get data (Z.of_nat m + s) then run data s m + 1 else 0
  end.

Lemma run_bounds data s m : 0 ≤ run data s m ≤ Z.of_nat m.
Proof. induction m; cbn [run]; [lia|]. case_match; lia. Qed.

Lemma run_ge data s m k :
  0 ≤ k →
  k ≤ run data s m ↔
  k ≤ Z.of_nat m ∧ ∀ i, Z.of_nat m - k ≤ i < Z.of_nat m → get data i = get data (i + s).
Proof.
  revert k. induction m as [|m IH]; intros k Hk.
  { cbn [run]. split; [intros; split; [lia|intros; lia] | lia]. }
  cbn [run]. destruct (Z.eqb_spec (get data (Z.of_nat m)) (get data (Z.of_nat m + s))) as [E|E].
  - destruct (Z.eq_dec k 0) as [->|]; [pose proof (run_bounds data s m); split;
      [intros; split; [lia|intros; lia] | lia]|].
    transitivity (k - 1 ≤ run data s m); [lia|]. rewrite IH by lia. split.
    + intros [Hle H]. split; [lia|]. intros i Hi.
      destruct (Z.eq_dec i (Z.of_nat m)) as [->|]; [done|]. apply H. lia.
    + intros [Hle H]. split; [lia|]. intros i Hi. apply H. lia.
  - split.
    + intros. assert (k = 0) as -> by lia. split; [lia|intros; lia].
    + intros [Hle H]. destruct (Z.eq_dec k 0); [lia|]. exfalso. apply E, H. lia.
Qed.

(** A run as long as the shift is a repetition. *)
Lemma run_square data s c :
  1 ≤ s → 0 ≤ c → c + s ≤ zlen data → (s <=? run data s (Z.to_nat c)) = square data c s.
Proof.
  intros Hs Hc Hn. apply eq_true_iff_eq. rewrite Z.leb_le, square_spec, run_ge by lia.
  rewrite Z2Nat.id by lia. split.
  - intros [Hle H]. split_and!; try lia. intros i Hi.
    rewrite H by lia. f_equal. lia.
  - intros (Hle & _ & H). split; [lia|]. intros i Hi. specialize (H (i - (c - s))).
    replace (c - s + (i - (c - s))) with i in H by lia.
    replace (c + (i - (c - s))) with (i + s) in H by lia. apply H. lia.
Qed.

(** The table after the shifts up to [s]. *)
Definition table_ok (data maxDp : list Z) (s : nat) : Prop :=
  zlen maxDp = 64 ∧ ∀ c, 1 ≤ c < zlen data → get maxDp c = longest data c s.

Lemma longest_bounds data c d : 0 ≤ longest data c d ≤ Z.of_nat d.
Proof. induction d; cbn [longest]; [lia|]. case_match; lia. Qed.

Lemma square_false data c s : zlen data < c + s → square data c s = false.
Proof. intros. apply not_true_is_false. rewrite square_spec. lia. Qed.

Lemma longest_square data c d :
  longest data c d ≠ 0 → square data c (longest data c d) = true.
Proof. induction d; cbn [longest]; [done|]. case_match; done. Qed.

(** Above the size of the span no shift adds anything. *)
Lemma longest_stable data c d d' :
  1 ≤ c → zlen data ≤ Z.of_nat d + 1 → (d ≤ d')%nat → longest data c d' = longest data c d.
Proof.
  intros Hc Hn Hd. induction Hd as [|d' Hd IH]; [done|].
  cbn [longest]. rewrite square_false by lia. done.
Qed.

(** ** The table of [CollapseRecursionOpt] *)

Lemma run_step data s c :
  1 ≤ c →
  run data s (Z.to_nat c)
  = if get data (c - 1) =? get data (c - 1 + s) then run data s (Z.to_nat (c - 1)) + 1 else 0.
Proof.
  intros. replace (Z.to_nat c) with (S (Z.to_nat (c - 1))) by lia. cbn [run].
  by rewrite Z2Nat.id by lia.
Qed.

(** The effect of one shift on the table from position [cur] on. *)
Definition shift_effect (data : list Z) (shift cur : Z) (m m' : list Z) : Prop :=
  zlen m' = 64 ∧
  ∀ c, 0 ≤ c → get m' c = if (cur <=? c) && square data c shift then shift else get m c.

(** One position of the inner loops of both variants. *)
Lemma shift_effect_step data shift c m m1 m' :
  zlen data ≤ 64 → 1 ≤ shift → 1 ≤ c → c + shift ≤ zlen data → zlen m = 64 →
  m1 = (if square data c shift then put m c shift else m) →
  shift_effect data shift (c + 1) m1 m' → shift_effect data shift c m m'.
Proof.
  intros Hn Hs Hc Hcs Hm -> [L E]. split; [done|]. intros k Hk. rewrite E by done.
  destruct (Z.leb_spec (c + 1) k), (Z.leb_spec c k); cbn; try lia.
  - destruct (square data k shift); [done|].
    destruct (square data c shift); [|done]. rewrite get_put_ne by lia. done.
  - assert (k = c) as -> by lia. destruct (square data c shift); [|done].
    apply get_put_eq. lia.
  - destruct (square data c shift); [|done]. apply get_put_ne; lia.
Qed.

Lemma shift_effect_end data shift cur m :
  zlen m = 64 → zlen data < cur + shift → shift_effect data shift cur m m.
Proof.
  intros. split; [done|]. intros c Hc. destruct (Z.leb_spec cur c); [|done].
  by rewrite square_false by lia.
Qed.

Lemma opt_inner_spec data shift :
  zlen data ≤ 64 → 1 ≤ shift < 2 ^ 32 → ∀ fuel cur m,
  1 ≤ cur ≤ zlen data → Z.max 0 (zlen data - (cur + shift - 1)) < Z.of_nat fuel →
  zlen m = 64 →
  ∃ m', opt_inner fuel data (zlen data) shift cur (cur + shift - 1) (get data (cur - 1))
          (run data shift (Z.to_nat (cur - 1))) m = Ret m'
        ∧ shift_effect data shift cur m m'.
Proof.
  intros Hn Hs. induction fuel as [|fuel IH]; intros cur m Hcur Hf Hm; [lia|].
  cbn [opt_inner]. destruct (Z.ltb_spec (cur + shift - 1) (zlen data)).
  2: { exists m. split; [done|]. apply shift_effect_end; done || lia. }
  step_rd.
  pose proof (run_step data shift cur ltac:(lia)) as Hr.
  replace (cur - 1 + shift) with (cur + shift - 1) in Hr by lia.
  pose proof (run_bounds data shift (Z.to_nat (cur - 1))) as Hb.
  assert (Hsq := run_square data shift cur ltac:(lia) ltac:(lia) ltac:(lia)).
  set (m1 := if square data cur shift then put m cur shift else m).
  assert (Hm1 : zlen m1 = 64)
    by (unfold m1; destruct (square data cur shift); [by rewrite zlen_put|done]).
  destruct (IH (cur + 1) m1) as (m' & E & S); [lia|lia|done|].
  exists m'. split; [|by eapply shift_effect_step with (m1 := m1); try lia].
  replace (cur + 1 - 1) with cur in E by lia.
  replace (cur + 1 + shift - 1) with (cur + shift - 1 + 1) in E by lia.
  rewrite (u32_small (cur + 1)), (u32_small (cur + shift - 1 + 1)) by (unfold is_u32; lia).
  destruct (Z.eqb_spec (get data (cur - 1)) (get data (cur + shift - 1))); cbn [negb].
  - rewrite u8_small by (unfold is_u8; lia). rewrite <- Hr, Hsq.
    unfold m1 in E. destruct (square data cur shift) eqn:Esq.
    + apply square_spec in Esq as ?. rewrite u8_small by (unfold is_u8; lia).
      step_wr. step_ret. step_rd. done.
    + step_ret. step_rd. done.
  - step_ret. step_rd.
    rewrite Hr in E. unfold m1 in E. rewrite <- Hsq, Hr in E.
    destruct (Z.leb_spec shift 0); [lia|]. done.
Qed.

Lemma longest_step data m m' s :
  shift_effect data (Z.of_nat (S s)) 1 m m' → table_ok data m s → table_ok data m' (S s).
Proof.
  intros [L E] [_ T]. split; [done|]. intros c Hc. rewrite E by lia. cbn [longest].
  destruct (Z.leb_spec 1 c); [|lia]. cbn [andb]. case_match; [done|]. apply T. lia.
Qed.

Lemma opt_shifts_spec data depth :
  2 ≤ zlen data ≤ 64 → 0 ≤ depth < 2 ^ 32 - 1 → ∀ fuel s m,
  (S s ≤ S (Z.to_nat depth))%nat → (Z.to_nat depth < s + fuel)%nat → table_ok data m s →
  ∃ m', opt_shifts fuel data depth (zlen data) (Z.of_nat (S s)) m = Ret m'
        ∧ table_ok data m' (Z.to_nat depth).
Proof.
  intros Hn Hd. induction fuel as [|fuel IH]; intros s m Hs Hf Hm; [lia|].
  cbn [opt_shifts]. destruct (Z.leb_spec (Z.of_nat (S s)) depth).
  2: { exists m. split; [done|]. by replace (Z.to_nat depth) with s by lia. }
  step_rd.
  destruct (opt_inner_spec data (Z.of_nat (S s)) ltac:(lia) ltac:(lia) (S (length data)) 1 m)
    as (m1 & E1 & S1); [lia|unfold zlen in *; lia|apply Hm|].
  change (run data (Z.of_nat (S s)) (Z.to_nat (1 - 1))) with 0 in E1.
  rewrite (u32_small (1 + Z.of_nat (S s) - 1)) by (unfold is_u32; lia).
  change (1 - 1) with 0 in E1. rewrite E1, bind_ret.
  rewrite u32_small by (unfold is_u32; lia).
  replace (Z.of_nat (S s) + 1) with (Z.of_nat (S (S s))) by lia.
  apply IH; [lia|lia|]. by eapply longest_step.
Qed.

(** ** Compaction *)

Lemma take_put_next (data : list Z) l x :
  0 ≤ l → l + 1 < zlen data →
  take (Z.to_nat (l + 1 + 1)) (put data (l + 1) x) = take (Z.to_nat (l + 1)) data ++ [x].
Proof.
  intros. unfold put, zlen in *.
  replace (Z.to_nat (l + 1 + 1)) with (S (Z.to_nat (l + 1))) by lia.
  rewrite (take_S_r _ _ x) by (apply list_lookup_insert_eq; lia).
  by rewrite take_insert_ge by lia.
Qed.

(** [skip] describes the table on the positions of the span. *)
Definition skips (n : Z) (maxDp : list Z) (skip : Z → Z) : Prop :=
  zlen maxDp = 64 ∧
  ∀ c, 1 ≤ c < n → get maxDp c = skip c ∧ 0 ≤ skip c ∧ c + skip c ≤ n.

Lemma opt_compact_spec data0 maxDp skip :
  zlen data0 ≤ 64 → skips (zlen data0) maxDp skip → ∀ fuel data cur left_,
  zlen data = zlen data0 → 0 ≤ left_ < cur → cur ≤ zlen data0 →
  (∀ i, cur ≤ i → get data i = get data0 i) → zlen data0 - cur ≤ Z.of_nat fuel →
  ∃ data' left', opt_compact (S fuel) data maxDp (zlen data0) cur left_ = Ret (data', left')
    ∧ zlen data' = zlen data0 ∧ 0 ≤ left' < zlen data0
    ∧ take (Z.to_nat (left' + 1)) data'
      = take (Z.to_nat (left_ + 1)) data ++ collapse_from fuel data0 skip cur.
Proof.
  intros Hn [HL HT]. induction fuel as [|fuel IH]; intros data cur left_ HLd Hlc Hcn Hag Hf.
  { exists data, left_. cbn [opt_compact collapse_from].
    destruct (Z.ltb_spec cur (zlen data0)); [lia|].
    split_and!; try done; try lia. by rewrite app_nil_r. }
  cbn [opt_compact]. cbn [collapse_from].
  destruct (Z.ltb_spec cur (zlen data0)).
  2: { exists data, left_. split_and!; try done; try lia. by rewrite app_nil_r. }
  destruct (HT cur) as (E & Hs & Hcs); [lia|]. step_rd. rewrite E.
  destruct (Z.eqb_spec (skip cur) 0).
  - rewrite (u32_small (left_ + 1)), (u32_small (cur + 1)) by (unfold is_u32; lia).
    step_rd. step_wr. rewrite Hag by lia.
    destruct (IH (put data (left_ + 1) (get data0 cur)) (cur + 1) (left_ + 1))
      as (data' & left' & E' & L' & B' & T'); try lia.
    + by rewrite zlen_put.
    + intros i Hi. rewrite get_put_ne by lia. apply Hag. lia.
    + exists data', left'. split_and!; try done; try lia.
      rewrite T', take_put_next by lia. by rewrite <- app_assoc.
  - rewrite u32_small by (unfold is_u32; lia).
    destruct (IH data (cur + skip cur) left_) as (data' & left' & E' & L' & B' & T');
      try done; try lia.
    + intros i Hi. apply Hag. lia.
    + exists data', left'. done.
Qed.

Lemma avx_compact_eq fuel : ∀ data maxDp n cur left_,
  avx_compact fuel data maxDp n cur left_ = opt_compact fuel data maxDp n cur left_.
Proof.
  induction fuel as [|fuel IH]; intros; [done|]. cbn [avx_compact opt_compact].
  case_match; [|done]. destruct (rd maxDp cur) as [m| |]; [|done|done]. cbn.
  destruct (m =? 0); [|apply IH]. destruct (rd data cur); [|done|done]. cbn.
  destruct (wr data _ _); [|done|done]. cbn. apply IH.
Qed.

Lemma longest_skips data depth maxDp :
  table_ok data maxDp depth → skips (zlen data) maxDp (fun c => longest data c depth).
Proof.
  intros [L T]. split; [done|]. intros c Hc. rewrite T by done.
  pose proof (longest_bounds data c depth). split; [done|]. split; [lia|].
  destruct (decide (longest data c depth = 0)) as [->|Hne]; [lia|].
  apply longest_square, square_spec in Hne. lia.
Qed.

(** From a correct table the final loop of either variant computes [collapse]. *)
Lemma compact_collapse data depth maxDp :
  2 ≤ zlen data ≤ 64 → table_ok data maxDp (Z.to_nat depth) →
  ∃ data' left', opt_compact (S (length data)) data maxDp (zlen data) 1 0 = Ret (data', left')
    ∧ zlen data' = zlen data ∧ 0 ≤ left' < zlen data
    ∧ take (Z.to_nat (left' + 1)) data' = collapse data depth.
Proof.
  intros Hn HT. apply longest_skips in HT.
  destruct (opt_compact_spec data maxDp _ ltac:(lia) HT (length data) data 1 0)
    as (data' & left' & E & L & B & T); try done; try lia; [unfold zlen; lia|].
  exists data', left'. split_and!; done || lia.
Qed.

Lemma init_table data x :
  table_ok data (replicate (Z.to_nat MaxUnwindDepth) 0) 0 →
  table_ok data (put (replicate (Z.to_nat MaxUnwindDepth) 0) 0 x) 0.
Proof.
  intros [L T]. split; [by rewrite zlen_put|]. intros c Hc.
  rewrite get_put_ne by lia. by apply T.
Qed.

Lemma zero_table data : zlen data ≤ 64 → table_ok data (replicate (Z.to_nat MaxUnwindDepth) 0) 0.
Proof.
  intros Hn. split; [by rewrite zlen_replicate|]. intros c Hc. apply get_replicate.
  unfold MaxUnwindDepth. lia.
Qed.

Lemma collapse_from_keep data skip : (∀ c, 1 ≤ c → skip c = 0) → ∀ fuel c,
  1 ≤ c → zlen data - c ≤ Z.of_nat fuel →
  collapse_from fuel data skip c = drop (Z.to_nat c) data.
Proof.
  intros Hs. induction fuel as [|fuel IH]; intros c Hc Hf.
  { cbn. by rewrite drop_ge by (unfold zlen in *; lia). }
  cbn [collapse_from]. destruct (Z.ltb_spec c (zlen data)).
  - rewrite Hs by done. cbn. rewrite IH by lia. unfold get, zlen in *.
    rewrite (drop_S data (data !!! Z.to_nat c) (Z.to_nat c))
      by (apply list_lookup_lookup_total_lt; lia).
    by replace (S (Z.to_nat c)) with (Z.to_nat (c + 1)) by lia.
  - by rewrite drop_ge by (unfold zlen in *; lia).
Qed.

(** Depth 0 and spans of fewer than two elements stay as they are. *)
Lemma collapse_trivial data depth :
  0 ≤ depth → depth = 0 ∨ zlen data < 2 → collapse data depth = data.
Proof.
  intros Hd0 H. unfold collapse. rewrite collapse_from_keep; [|..].
  - change (Z.to_nat 1) with 1%nat. apply take_drop.
  - intros c Hc. destruct H as [->|H]; [done|].
    destruct (decide (longest data c (Z.to_nat depth) = 0)) as [|Hne]; [done|].
    apply longest_square, square_spec in Hne. lia.
  - lia.
  - unfold zlen. lia.
Qed.

Lemma CollapseRecursionOpt_spec data depth :
  zlen data ≤ 64 → 0 ≤ depth < 2 ^ 32 - 1 →
  ∃ data' n, CollapseRecursionOpt data depth = Ret (data', n)
    ∧ zlen data' = zlen data ∧ 0 ≤ n ≤ zlen data
    ∧ take (Z.to_nat n) data' = collapse data depth.
Proof.
  intros Hn Hd. pose proof (zlen_nonneg data).
  unfold CollapseRecursionOpt, CollapseRecursionOpt_fuel.
  destruct (Z.eqb_spec depth 0) as [E0|E0], (Z.ltb_spec (zlen data) 2) as [E2|E2]; cbn [orb].
  1-3: exists data, (zlen data); split_and!; try done; try lia;
    rewrite collapse_trivial by lia; unfold zlen; rewrite Nat2Z.id; by rewrite firstn_all.
  step_rd. step_rd. rewrite (u32_small (zlen data)) by (unfold is_u32; lia).
  rewrite wr_in by (rewrite zlen_replicate; unfold MaxUnwindDepth; lia). step_ret.
  destruct (opt_shifts_spec data depth ltac:(lia) ltac:(lia) (S (Z.to_nat depth)) 0
    (put (replicate (Z.to_nat MaxUnwindDepth) 0) 0 (if get data 0 =? get data 1 then 1 else 0)))
    as (m & E & T); [lia|lia|by apply init_table, zero_table|].
  change (Z.of_nat 1) with 1 in E. rewrite E. step_ret.
  destruct (compact_collapse data depth m) as (data' & left' & -> & L & B & C); try done; try lia.
  step_ret. rewrite u32_small by (unfold is_u32; lia).
  exists data', (left' + 1). split_and!; try done; lia.
Qed.

(** ** The table of [CollapseRecursionAvx] *)

(** The effect of one shift on the positions [lo, hi). *)
Definition seg (data : list Z) (shift lo hi : Z) (m m' : list Z) : Prop :=
  zlen m' = 64 ∧
  ∀ c, 0 ≤ c →
    get m' c = if (lo <=? c) && (c <? hi) && square data c shift then shift else get m c.

Lemma seg_nil data shift lo m : zlen m = 64 → seg data shift lo lo m m.
Proof. intros. split; [done|]. intros c Hc. by zcases. Qed.

Lemma seg_trans data shift lo mid hi m m1 m2 :
  lo ≤ mid ≤ hi → seg data shift lo mid m m1 → seg data shift mid hi m1 m2 →
  seg data shift lo hi m m2.
Proof.
  intros Hb [_ E1] [L2 E2]. split; [done|]. intros c Hc. rewrite E2, E1 by done.
  zcases; cbn; try done; by destruct (square data c shift).
Qed.

Lemma seg_one data shift c m :
  zlen m = 64 → 0 ≤ c < 64 →
  seg data shift c (c + 1) m (if square data c shift then put m c shift else m).
Proof.
  intros Hm Hc. split; [destruct (square data c shift); by rewrite ?zlen_put|].
  intros k Hk. destruct (decide (k = c)) as [->|Hne].
  - destruct (square data c shift); [rewrite get_put_eq by lia|]; by zcases.
  - destruct (square data c shift); [rewrite get_put_ne by lia|]; by zcases.
Qed.

Lemma seg_shift_effect data shift lo hi m m' :
  zlen data < hi + shift → seg data shift lo hi m m' → shift_effect data shift lo m m'.
Proof.
  intros Hhi [L E]. split; [done|]. intros c Hc. rewrite E by done.
  destruct (Z.ltb_spec c hi); [by rewrite andb_true_r|].
  rewrite (square_false data c shift) by lia. by rewrite !andb_false_r.
Qed.

(** The update both inner loops of the variant make for index [i]. *)
Lemma avx_update data shift i m :
  zlen data ≤ 64 → zlen m = 64 → 1 ≤ shift → 0 ≤ i → i + 1 + shift ≤ zlen data →
  get data i = get data (i + shift) →
  u8 (run data shift (Z.to_nat i) + 1) = run data shift (Z.to_nat (i + 1)) ∧
  (if shift <=? run data shift (Z.to_nat (i + 1)) then wr m (u32 (i + 1)) (u8 shift) else Ret m)
  = Ret (if square data (i + 1) shift then put m (i + 1) shift else m).
Proof.
  intros Hn Hm Hs Hi Hin He. pose proof (run_bounds data shift (Z.to_nat i)).
  pose proof (run_step data shift (i + 1) ltac:(lia)) as Hr.
  replace (i + 1 - 1) with i in Hr by lia. rewrite He, Z.eqb_refl in Hr.
  rewrite u8_small by (unfold is_u8; lia). split; [done|].
  rewrite run_square by lia. destruct (square data (i + 1) shift); [|done].
  rewrite u32_small, u8_small, wr_in by (unfold is_u32, is_u8; lia). done.
Qed.

Lemma avx_skip data shift i :
  1 ≤ shift → 0 ≤ i → i + 1 + shift ≤ zlen data → get data i ≠ get data (i + shift) →
  run data shift (Z.to_nat (i + 1)) = 0 ∧ square data (i + 1) shift = false.
Proof.
  intros Hs Hi Hin He. pose proof (run_step data shift (i + 1) ltac:(lia)) as Hr.
  replace (i + 1 - 1) with i in Hr by lia.
  destruct (Z.eqb_spec (get data i) (get data (i + shift))); [done|]. split; [done|].
  rewrite <- run_square, Hr by lia. by zcases.
Qed.

Lemma avx_bits_spec data shift i :
  zlen data ≤ 64 → 1 ≤ shift → 0 ≤ i → i + 8 + shift ≤ zlen data → ∀ n j mask m,
  zlen m = 64 → 0 ≤ j → j + Z.of_nat n ≤ 8 →
  (∀ t, 0 ≤ t < Z.of_nat n →
     Z.testbit mask t = (get data (i + j + t) =? get data (i + j + t + shift))) →
  ∃ m', avx_bits n shift i j mask (run data shift (Z.to_nat (i + j))) m
          = Ret (run data shift (Z.to_nat (i + j + Z.of_nat n)), m')
        ∧ seg data shift (i + j + 1) (i + j + 1 + Z.of_nat n) m m'.
Proof.
  intros Hn Hs Hi Hin. induction n as [|n IH]; intros j mask m Hm Hj Hjn Hmask.
  { exists m. cbn [avx_bits]. rewrite !Z.add_0_r. split; [done|by apply seg_nil]. }
  cbn [avx_bits]. change 1 with (Z.ones 1) at 1. rewrite Z.land_ones by lia.
  change (2 ^ 1) with 2. rewrite <- Z.bit0_mod.
  rewrite (Hmask 0), Z.add_0_r by lia.
  set (m1 := if square data (i + j + 1) shift then put m (i + j + 1) shift else m).
  assert (Hm1 : zlen m1 = 64)
    by (unfold m1; destruct (square data (i + j + 1) shift); by rewrite ?zlen_put).
  destruct (IH (j + 1) (Z.shiftr mask 1) m1) as (m' & E & Sg); try done; try lia.
  { intros t Ht. rewrite Z.shiftr_spec, Hmask by lia.
    by replace (i + j + (t + 1)) with (i + (j + 1) + t) by lia. }
  exists m'. split.
  2: { replace (i + j + 1 + Z.of_nat (S n)) with (i + (j + 1) + 1 + Z.of_nat n) by lia.
       eapply seg_trans; [|apply (seg_one data shift (i + j + 1) m); lia|
         by replace (i + j + 1 + 1) with (i + (j + 1) + 1) by lia]. lia. }
  replace (i + j + Z.of_nat (S n)) with (i + (j + 1) + Z.of_nat n) by lia.
  replace (i + (j + 1)) with (i + j + 1) in E |- * by lia.
  destruct (Z.eqb_spec (get data (i + j)) (get data (i + j + shift))) as [Eq|Ne]; cbn [Z.b2z Z.eqb].
  - destruct (avx_update data shift (i + j) m) as [-> ->]; try done; try lia.
  - destruct (avx_skip data shift (i + j)) as [R Q]; try done; try lia.
    rewrite R in E. unfold m1 in E. rewrite Q in E. done.
Qed.

Lemma cmpeq_mask_testbit a : ∀ b t,
  0 ≤ t < zlen a → zlen a = zlen b → Z.testbit (cmpeq_mask a b) t = (get a t =? get b t).
Proof.
  induction a as [|x a IH]; intros b t Ht Hl; [by change (@zlen Z []) with 0 in *; lia|].
  pose proof (zlen_nonneg a). destruct b as [|y b]; rewrite ?zlen_cons in *;
    [change (@zlen Z []) with 0 in *; lia|].
  cbn [cmpeq_mask]. destruct (Z.eq_dec t 0) as [->|].
  - rewrite !get_cons_0. rewrite Z.add_comm. destruct (x =? y).
    + by rewrite Z.testbit_odd_0.
    + by rewrite Z.add_0_r, Z.testbit_even_0.
  - rewrite !get_cons_S by lia. rewrite <- IH by lia.
    replace t with (Z.succ (t - 1)) at 1 by lia. rewrite Z.add_comm. destruct (x =? y).
    + by rewrite Z.testbit_odd_succ by lia.
    + by rewrite Z.add_0_r, Z.testbit_even_succ by lia.
Qed.

Lemma cmpeq_mask_bound a : ∀ b, 0 ≤ cmpeq_mask a b < 2 ^ zlen a.
Proof.
  induction a as [|x a IH]; intros b; [destruct b; done|].
  pose proof (zlen_nonneg a). destruct b as [|y b]; rewrite zlen_cons; cbn [cmpeq_mask].
  - pose proof (Z.pow_pos_nonneg 2 (zlen a + 1) ltac:(lia) ltac:(lia)). lia.
  - specialize (IH b). rewrite Z.pow_add_r by lia. case_match; lia.
Qed.

Lemma loadu_spec data i :
  0 ≤ i → i + 8 ≤ zlen data →
  ∃ v, loadu data i = Ret v ∧ zlen v = 8 ∧ ∀ t, 0 ≤ t < 8 → get v t = get data (i + t).
Proof.
  intros Hi Hn. unfold loadu. zcases. cbn [andb]. eexists. split; [done|].
  unfold zlen, get in *. split; [rewrite length_take, length_drop; lia|].
  intros t Ht. rewrite lookup_total_take_lt by lia. rewrite lookup_total_drop.
  f_equal. lia.
Qed.

Lemma avx_blocks_spec data shift maxIndex :
  zlen data ≤ 64 → 1 ≤ shift → maxIndex = zlen data - shift → ∀ fuel i m,
  zlen m = 64 → 0 ≤ i ≤ maxIndex → maxIndex - i < Z.of_nat fuel →
  ∃ i' m', avx_blocks fuel data maxIndex shift i (run data shift (Z.to_nat i)) m
             = Ret (i', run data shift (Z.to_nat i'), m')
           ∧ i ≤ i' ≤ maxIndex ∧ seg data shift (i + 1) (i' + 1) m m'.
Proof.
  intros Hn Hs HM. induction fuel as [|fuel IH]; intros i m Hm Hi Hf; [lia|].
  cbn [avx_blocks]. unfold simdStride. rewrite u32_small by (unfold is_u32; lia).
  destruct (Z.leb_spec (i + 8) maxIndex).
  2: { exists i, m. split; [done|]. split; [lia|by apply seg_nil]. }
  destruct (loadu_spec data i) as (a & -> & La & Ga); try lia. step_ret.
  destruct (loadu_spec data (i + shift)) as (b & -> & Lb & Gb); try lia. step_ret.
  pose proof (cmpeq_mask_bound a b) as Hmb. rewrite La in Hmb.
  rewrite u8_small by (unfold is_u8; lia).
  destruct (avx_bits_spec data shift i ltac:(lia) ltac:(lia) ltac:(lia) ltac:(lia)
    8 0 (cmpeq_mask a b) m) as (m1 & E1 & S1); try done; try lia.
  { intros t Ht. rewrite cmpeq_mask_testbit, Ga, Gb by lia.
    replace (i + 0 + t) with (i + t) by lia. by replace (i + shift + t) with (i + t + shift) by lia. }
  rewrite Z.add_0_r in *. change (Z.of_nat 8) with 8 in *. rewrite E1. step_ret.
  destruct (IH (i + 8) m1) as (i' & m' & E' & B' & S'); [apply S1|lia|lia|].
  exists i', m'. split; [done|]. split; [lia|].
  apply (seg_trans data shift _ (i + 1 + 8) _ m m1 m'); [lia|done|].
  by replace (i + 1 + 8) with (i + 8 + 1) by lia.
Qed.

Lemma avx_tail_spec data shift maxIndex :
  zlen data ≤ 64 → 1 ≤ shift → maxIndex = zlen data - shift → ∀ fuel i m,
  zlen m = 64 → 0 ≤ i ≤ maxIndex → maxIndex - i < Z.of_nat fuel →
  ∃ m', avx_tail fuel data maxIndex shift i (run data shift (Z.to_nat i)) m = Ret m'
        ∧ seg data shift (i + 1) (maxIndex + 1) m m'.
Proof.
  intros Hn Hs HM. induction fuel as [|fuel IH]; intros i m Hm Hi Hf; [lia|].
  cbn [avx_tail]. destruct (Z.ltb_spec i maxIndex).
  2: { exists m. split; [done|]. replace (i + 1) with (maxIndex + 1) by lia.
       by apply seg_nil. }
  rewrite (u32_small (i + shift)), (u32_small (i + 1)) by (unfold is_u32; lia).
  step_rd. step_rd.
  set (m1 := if square data (i + 1) shift then put m (i + 1) shift else m).
  destruct (IH (i + 1) m1) as (m' & E & S'); try lia.
  { unfold m1. destruct (square data (i + 1) shift); by rewrite ?zlen_put. }
  exists m'. split.
  2: { eapply seg_trans; [|apply (seg_one data shift (i + 1) m); lia|done]. lia. }
  destruct (Z.eqb_spec (get data i) (get data (i + shift))); cbn [negb].
  - destruct (avx_update data shift i m) as [-> R]; try done; try lia.
    rewrite u32_small in R by (unfold is_u32; lia). by rewrite R.
  - destruct (avx_skip data shift i) as [R Q]; try done; try lia.
    rewrite R in E. unfold m1 in E. by rewrite Q in E.
Qed.

Lemma avx_shifts_spec data depth :
  2 ≤ zlen data ≤ 64 → 0 ≤ depth → ∀ fuel s m,
  (s ≤ Z.to_nat depth)%nat → (S s ≤ length data)%nat → (length data < S s + fuel)%nat →
  table_ok data m s →
  ∃ m', avx_shifts fuel data depth (zlen data) (Z.of_nat (S s)) m = Ret m'
        ∧ table_ok data m' (Z.to_nat depth).
Proof.
  intros Hn Hd. induction fuel as [|fuel IH]; intros s m Hs Hsn Hf Hm; [lia|].
  cbn [avx_shifts]. destruct (Z.leb_spec (Z.of_nat (S s)) depth).
  2: { exists m. split; [done|]. by replace (Z.to_nat depth) with s by lia. }
  rewrite (u32_small (zlen data - Z.of_nat (S s))) by (unfold is_u32, zlen in *; lia).
  destruct (Z.eqb_spec (zlen data - Z.of_nat (S s)) 0).
  { exists m. split; [done|]. destruct Hm as [L T]. split; [done|]. intros c Hc.
    rewrite T by done. symmetry. apply longest_stable; unfold zlen in *; lia. }
  destruct (avx_blocks_spec data (Z.of_nat (S s)) (zlen data - Z.of_nat (S s)) ltac:(lia)
    ltac:(lia) ltac:(lia) (S (length data)) 0 m) as (i' & m1 & E1 & B1 & S1);
    [apply Hm|unfold zlen in *; lia|unfold zlen in *; lia|].
  change (run data (Z.of_nat (S s)) (Z.to_nat 0)) with 0 in E1. rewrite E1. step_ret.
  destruct (avx_tail_spec data (Z.of_nat (S s)) (zlen data - Z.of_nat (S s)) ltac:(lia)
    ltac:(lia) ltac:(lia) (S (length data)) i' m1) as (m2 & -> & S2);
    [apply S1|lia|unfold zlen in *; lia|]. step_ret.
  rewrite u32_small by (unfold is_u32, zlen in *; lia).
  replace (Z.of_nat (S s) + 1) with (Z.of_nat (S (S s))) by lia.
  apply IH; [lia|unfold zlen in *; lia|lia|].
  eapply longest_step; [|done].
  apply (seg_shift_effect data _ 1 (zlen data - Z.of_nat (S s) + 1)); [lia|].
  eapply seg_trans; [|exact S1|exact S2]. lia.
Qed.


(** The final loop reads the table at positions [1, n) only. *)
Lemma opt_compact_table m1 m2 n :
  zlen m1 = 64 → zlen m2 = 64 → n ≤ 64 →
  (∀ c, 1 ≤ c < n → get m1 c = get m2 c ∧ 0 ≤ get m2 c ∧ c + get m2 c ≤ n) →
  ∀ fuel data cur left_, 1 ≤ cur →
  opt_compact fuel data m1 n cur left_ = opt_compact fuel data m2 n cur left_.
Proof.
  intros H1 H2 Hn HE. induction fuel as [|fuel IH]; intros data cur left_ Hc; [done|].
  cbn [opt_compact]. destruct (Z.ltb_spec cur n); [|done].
  destruct (HE cur) as (E & E0 & En); [lia|].
  rewrite (rd_in m1), (rd_in m2), !bind_ret by lia. rewrite E.
  destruct (get m2 cur =? 0).
  - destruct (rd data cur); [|done|done]. rewrite !bind_ret.
    match goal with |- context [wr ?a ?b ?c] => destruct (wr a b c) as [d'| |] end; [|done|done].
    rewrite !bind_ret. apply IH. rewrite u32_small by (unfold is_u32; lia). lia.
  - apply IH. rewrite u32_small by (unfold is_u32; lia). lia.
Qed.

Lemma CollapseRecursionAvx_Opt data depth :
  zlen data ≤ 64 → 0 ≤ depth < 2 ^ 32 - 1 →
  CollapseRecursionAvx data depth = CollapseRecursionOpt data depth.
Proof.
  intros Hn Hd. unfold CollapseRecursionAvx, CollapseRecursionOpt, CollapseRecursionOpt_fuel.
  destruct ((depth =? 0) || (zlen data <? 2)) eqn:Etriv; [done|].
  apply orb_false_iff in Etriv as [Hd0%Z.eqb_neq H2%Z.ltb_ge].
  rewrite (rd_in data 0), (rd_in data 1) by lia. step_ret. step_ret.
  rewrite (u32_small (zlen data)) by (unfold is_u32; lia).
  rewrite wr_in by (rewrite zlen_replicate; unfold MaxUnwindDepth; lia).
  match goal with |- context [mbind _ (Ret (put ?a ?b ?c))] => set (m0 := put a b c) end.
  rewrite (bind_ret m0).
  destruct (opt_shifts_spec data depth ltac:(lia) ltac:(lia) (S (Z.to_nat depth)) 0 m0)
    as (m1 & E1 & T1); [lia|lia|by apply init_table, zero_table|].
  destruct (avx_shifts_spec data depth ltac:(lia) ltac:(lia) (S (length data)) 0
    (replicate (Z.to_nat MaxUnwindDepth) 0)) as (m2 & E2 & T2);
    [lia|unfold zlen in *; lia|lia|by apply zero_table|].
  change (Z.of_nat 1) with 1 in E1, E2. rewrite E1, E2, !bind_ret, avx_compact_eq.
  rewrite (opt_compact_table m2 m1 (zlen data)); [done|apply T2|apply T1|lia| |lia].
  intros c Hc. destruct (longest_skips _ _ _ T1) as [_ S1].
  destruct (S1 c Hc) as (-> & ? & ?). destruct T2 as [_ T2]. by rewrite T2.
Qed.

(** ** What collapsing preserves *)

(** No two neighbours of [x :: l] are equal. *)
Fixpoint no_repeat (x : Z) (l : list Z) : Prop :=
  match l with
  | [] => True
  | y :: l => x ≠ y ∧ no_repeat y l
  end.

(** A jump lands behind the same element it started from. *)
Lemma longest_jump data c d :
  longest data c d ≠ 0 → get data (c + longest data c d - 1) = get data (c - 1).
Proof.
  intros H. apply longest_square, square_spec in H as (H1 & H2 & H3).
  specialize (H3 (longest data c d - 1)).
  replace (c - longest data c d + (longest data c d - 1)) with (c - 1) in H3 by lia.
  replace (c + (longest data c d - 1)) with (c + longest data c d - 1) in H3 by lia.
  symmetry. apply H3. lia.
Qed.

Lemma longest_le data c d : 1 ≤ c ≤ zlen data → 0 ≤ longest data c d ∧ c + longest data c d ≤ zlen data.
Proof.
  intros Hc. pose proof (longest_bounds data c d). split; [lia|].
  destruct (decide (longest data c d = 0)) as [->|Hne]; [lia|].
  apply longest_square, square_spec in Hne. lia.
Qed.

Lemma longest_pos data c d :
  1 ≤ c → c < zlen data → (1 ≤ d)%nat → get data (c - 1) = get data c → longest data c d ≠ 0.
Proof.
  intros Hc Hn Hd He. induction d as [|d IH]; [lia|]. cbn [longest].
  case_match eqn:E; [lia|]. destruct d; [|apply IH; lia].
  exfalso. apply not_true_iff_false in E. apply E, square_spec.
  split_and!; try lia. intros i Hi. replace i with 0 by lia. by rewrite !Z.add_0_r.
Qed.

Section collapse_from_facts.
Context (data : list Z) (d : nat).
Let skip c := longest data c d.

Lemma collapse_from_sublist fuel : ∀ c, 1 ≤ c ≤ zlen data →
  sublist (collapse_from fuel data skip c) (drop (Z.to_nat c) data).
Proof.
  induction fuel as [|fuel IH]; intros c Hc; cbn [collapse_from]; [apply sublist_nil_l|].
  destruct (Z.ltb_spec c (zlen data)); [|apply sublist_nil_l].
  destruct (longest_le data c d Hc). fold (skip c) in *. destruct (Z.eqb_spec (skip c) 0).
  - rewrite (drop_S data (get data c) (Z.to_nat c))
      by (apply list_lookup_lookup_total_lt; unfold zlen in *; lia).
    apply sublist_skip. replace (S (Z.to_nat c)) with (Z.to_nat (c + 1)) by lia.
    apply IH. lia.
  - etransitivity; [apply IH; lia|].
    replace (Z.to_nat (c + skip c)) with (Z.to_nat c + Z.to_nat (skip c))%nat by lia.
    rewrite <- drop_drop. apply sublist_drop.
Qed.

Lemma collapse_from_no_repeat fuel : (1 ≤ d)%nat → ∀ c, 1 ≤ c ≤ zlen data →
  no_repeat (get data (c - 1)) (collapse_from fuel data skip c).
Proof.
  intros Hd. induction fuel as [|fuel IH]; intros c Hc; cbn [collapse_from]; [done|].
  destruct (Z.ltb_spec c (zlen data)); [|done].
  destruct (longest_le data c d Hc). fold (skip c) in *. destruct (Z.eqb_spec (skip c) 0) as [E|E].
  - cbn [no_repeat]. split.
    + intros Heq. by apply (longest_pos data c d) in Heq; try lia.
    + specialize (IH (c + 1)). replace (c + 1 - 1) with c in IH by lia. apply IH. lia.
  - rewrite <- (longest_jump data c d) by done. fold (skip c). apply IH. lia.
Qed.

Lemma collapse_from_last fuel : ∀ c, 1 ≤ c ≤ zlen data → zlen data - c ≤ Z.of_nat fuel →
  last (get data (c - 1) :: collapse_from fuel data skip c) = Some (get data (zlen data - 1)).
Proof.
  induction fuel as [|fuel IH]; intros c Hc Hf; cbn [collapse_from].
  { cbn. do 2 f_equal. lia. }
  destruct (Z.ltb_spec c (zlen data)).
  2: { cbn. do 2 f_equal. lia. }
  destruct (longest_le data c d Hc). fold (skip c) in *. destruct (Z.eqb_spec (skip c) 0) as [E|E].
  - specialize (IH (c + 1)). replace (c + 1 - 1) with c in IH by lia.
    rewrite last_cons_cons. apply IH; lia.
  - rewrite <- (longest_jump data c d) by done. fold (skip c). apply IH; lia.
Qed.
End collapse_from_facts.

Lemma no_repeat_lookup x l i y :
  no_repeat x l → (x :: l) !! i = Some y → (x :: l) !! S i ≠ Some y.
Proof.
  revert x i. induction l as [|z l IH]; intros x i H Hi; [by destruct i|].
  destruct H as [Hne H]. destruct i as [|i]; cbn in *; [congruence|].
  by apply (IH z i).
Qed.

Lemma nil_or_pos (data : list Z) : data = [] ∨ 1 ≤ zlen data.
Proof.
  destruct data; [by left|right]. rewrite zlen_cons. pose proof (zlen_nonneg data). lia.
Qed.

Lemma take_one (data : list Z) : 1 ≤ zlen data → take 1 data = [get data 0].
Proof. destruct data as [|x data]; [by cbn|done]. Qed.

Lemma last_get (data : list Z) : 1 ≤ zlen data → last data = Some (get data (zlen data - 1)).
Proof.
  intros H. rewrite last_lookup. unfold get, zlen in *.
  rewrite list_lookup_lookup_total_lt by lia. do 2 f_equal. lia.
Qed.

(** ** CollapseRecursionNaive *)

(** The block at [cur] repeats the last [s] elements kept so far. *)
Definition repeats (data : list Z) (cur left_ s : Z) : Prop :=
  ∀ p, 0 ≤ p < s → get data (cur + p) = get data (left_ - s + p + 1).

Lemma naive_match_spec data cur left_ s :
  zlen data < 2 ^ 32 → 0 ≤ left_ < cur → 1 ≤ s ≤ left_ + 1 → cur + s ≤ zlen data →
  ∀ fuel p, 0 ≤ p ≤ s → s - p < Z.of_nat fuel →
  (∀ i, 0 ≤ i < p → get data (cur + i) = get data (left_ - s + i + 1)) →
  ∃ b : bool, naive_match fuel data cur left_ s p = Ret b
    ∧ if b then repeats data cur left_ s else ¬ repeats data cur left_ s.
Proof.
  intros Hn Hl Hs Hcs. induction fuel as [|fuel IH]; intros p Hp Hf Hpre; [lia|].
  cbn [naive_match]. destruct (Z.ltb_spec p s).
  2: { exists true. split; [done|]. intros i Hi. apply Hpre. lia. }
  rewrite !u64_small by (unfold is_u64; lia). step_rd. step_rd.
  destruct (Z.eqb_spec (get data (cur + p)) (get data (left_ - s + p + 1))) as [E|E]; cbn [negb].
  - apply IH; [lia|lia|]. intros i Hi. destruct (Z.eq_dec i p) as [->|]; [done|].
    apply Hpre. lia.
  - exists false. split; [done|]. intros H'. apply E, H'. lia.
Qed.

(** The search over [spanSize] finds a repetition of at most [depth] elements,
    and misses none of length 1. *)
Lemma naive_span_spec data depth cur left_ :
  zlen data < 2 ^ 32 → 0 ≤ depth < 2 ^ 64 → 0 ≤ left_ < cur → cur < zlen data →
  ∀ fuel s, 1 ≤ s → s ≤ left_ + 2 → left_ + 2 - s < Z.of_nat fuel →
  (1 < s → ¬ repeats data cur left_ 1) →
  ∃ r, naive_span fuel data depth cur left_ (zlen data) s = Ret r
    ∧ (r = 0 ∧ (1 ≤ depth → ¬ repeats data cur left_ 1)
       ∨ 1 ≤ r ≤ depth ∧ r ≤ left_ + 1 ∧ cur + r ≤ zlen data ∧ repeats data cur left_ r).
Proof.
  intros Hn Hd Hl Hc. induction fuel as [|fuel IH]; intros s Hs Hsl Hf H1; [lia|].
  cbn [naive_span]. rewrite !(u64_small (_ + _)) by (unfold is_u64; lia).
  destruct (Z.leb_spec s depth), (Z.leb_spec (cur + s) (zlen data)); cbn [andb].
  - destruct (Z.ltb_spec (left_ + 1) s).
    { exists 0. split; [done|]. left. split; [done|]. intros _. apply H1. lia. }
    destruct (naive_match_spec data cur left_ s ltac:(lia) ltac:(lia) ltac:(lia) ltac:(lia)
      (S (length data)) 0) as (b & -> & Hb); [lia|unfold zlen in *; lia|lia|].
    step_ret. destruct b.
    + exists s. split; [done|]. right. split_and!; done || lia.
    + apply IH; try lia. intros _. destruct (Z.eq_dec s 1) as [->|]; [done|]. apply H1. lia.
  - exists 0. split; [done|]. left. split; [done|]. intros _. apply H1. lia.
  - exists 0. split; [done|]. left. split; [done|]. intros ?. apply H1. lia.
  - exists 0. split; [done|]. left. split; [done|]. intros ?. apply H1. lia.
Qed.

(** With [depth = 1] the loop keeps what [collapse] keeps. *)
Lemma naive_loop_one data0 : zlen data0 < 2 ^ 32 → ∀ fuel data cur left_,
  zlen data = zlen data0 → 0 ≤ left_ < cur → cur ≤ zlen data0 →
  (∀ i, cur ≤ i → get data i = get data0 i) → get data left_ = get data0 (cur - 1) →
  zlen data0 - cur ≤ Z.of_nat fuel →
  ∃ data' left', naive_loop (S fuel) data 1 (zlen data0) cur left_ = Ret (data', left')
    ∧ zlen data' = zlen data0 ∧ 0 ≤ left' < zlen data0
    ∧ take (Z.to_nat (left' + 1)) data'
      = take (Z.to_nat (left_ + 1)) data
        ++ collapse_from fuel data0 (fun c => longest data0 c 1) cur.
Proof.
  intros Hn. induction fuel as [|fuel IH]; intros data cur left_ HLd Hlc Hcn Hag Hlast Hf.
  { exists data, left_. cbn [naive_loop collapse_from].
    destruct (Z.ltb_spec cur (zlen data0)); [lia|].
    split_and!; try done; try lia. by rewrite app_nil_r. }
  cbn [naive_loop]. cbn [collapse_from].
  destruct (Z.ltb_spec cur (zlen data0)).
  2: { exists data, left_. split_and!; try done; try lia. by rewrite app_nil_r. }
  destruct (naive_span_spec data 1 cur left_ ltac:(lia) ltac:(lia) ltac:(lia) ltac:(lia)
    (S (length data)) 1) as (r & Er & Hr); [lia|lia|unfold zlen in *; lia|lia|].
  rewrite HLd in Er. rewrite Er. step_ret.
  assert (Hone : repeats data cur left_ 1 ↔ get data0 cur = get data0 (cur - 1)).
  { rewrite <- Hlast, <- (Hag cur) by lia. split.
    - intros H1. specialize (H1 0 ltac:(lia)). rewrite Z.add_0_r in H1. rewrite H1. f_equal. lia.
    - intros H1 p Hp. replace p with 0 by lia. rewrite Z.add_0_r, H1. f_equal. lia. }
  destruct Hr as [[-> Hno]|(Hr1 & _ & _ & Hrep)].
  - cbn [Z.ltb Z.compare]. rewrite (u64_small (left_ + 1)), (u64_small (cur + 1)) by (unfold is_u64; lia).
    step_rd. step_wr. rewrite Hag by lia.
    assert (longest data0 cur 1 = 0) as E0.
    { destruct (decide (longest data0 cur 1 = 0)) as [|Hne]; [done|].
      pose proof (longest_jump data0 cur 1 Hne) as Hj. pose proof (longest_bounds data0 cur 1).
      replace (longest data0 cur 1) with 1 in Hj by lia. exfalso. apply Hno; [lia|].
      apply Hone. rewrite <- Hj. f_equal. lia. }
    rewrite E0. cbn [Z.eqb].
    destruct (IH (put data (left_ + 1) (get data0 cur)) (cur + 1) (left_ + 1))
      as (data' & left' & E' & L' & B' & T'); try lia.
    + by rewrite zlen_put.
    + intros i Hi. rewrite get_put_ne by lia. apply Hag. lia.
    + rewrite get_put_eq by lia. f_equal. lia.
    + exists data', left'. split_and!; try done; try lia.
      rewrite T', take_put_next by lia. by rewrite <- app_assoc.
  - assert (r = 1) as -> by lia. cbn [Z.ltb Z.compare].
    rewrite (u64_small (cur + 1)) by (unfold is_u64; lia).
    apply Hone in Hrep as Heq.
    assert (longest data0 cur 1 = 1) as E1.
    { pose proof (longest_bounds data0 cur 1).
      pose proof (longest_pos data0 cur 1 ltac:(lia) ltac:(lia) ltac:(lia) ltac:(done)). lia. }
    rewrite E1. cbn [Z.eqb].
    destruct (IH data (cur + 1) left_) as (data' & left' & E' & L' & B' & T'); try done; try lia.
    + intros i Hi. apply Hag. lia.
    + rewrite Hlast. rewrite <- Heq. f_equal. lia.
    + exists data', left'. done.
Qed.

Lemma collapse_sublist data depth : sublist (collapse data depth) data.
Proof.
  destruct (nil_or_pos data) as [->|Hp]; [done|].
  rewrite <- (take_drop 1 data) at 2. unfold collapse. apply sublist_app; [done|].
  apply (collapse_from_sublist data (Z.to_nat depth) (length data) 1). lia.
Qed.

(** The dispatching routine, whichever variant it is built with. *)
Lemma CollapseRecursion_spec avx data depth :
  zlen data ≤ 64 → 0 ≤ depth < 2 ^ 32 - 1 →
  ∃ data' n, CollapseRecursion avx data depth = Ret (data', n)
    ∧ zlen data' = zlen data ∧ 0 ≤ n ≤ zlen data
    ∧ take (Z.to_nat n) data' = collapse data depth.
Proof.
  intros Hn Hd. unfold CollapseRecursion.
  destruct avx; rewrite ?CollapseRecursionAvx_Opt by done; by apply CollapseRecursionOpt_spec.
Qed.

(** ** Properties *)

(** What collapsing keeps. *)
Lemma collapse_keeps data depth : 0 ≤ depth →
  sublist (collapse data depth) data ∧ head (collapse data depth) = head data ∧ last (collapse data depth) = last data
  ∧ (1 ≤ depth → ∀ i x, collapse data depth !! i = Some x → collapse data depth !! S i ≠ Some x).
Proof.
  intros Hd. destruct (nil_or_pos data) as [->|Hp]; [by split_and!|]. split_and!.
  - apply collapse_sublist.
  - unfold collapse. rewrite take_one by lia. destruct data; done.
  - unfold collapse. rewrite take_one, (last_get data) by lia.
    apply (collapse_from_last data (Z.to_nat depth) (length data) 1); [lia|unfold zlen; lia].
  - intros H1 i x. unfold collapse. rewrite take_one by lia. apply no_repeat_lookup.
    apply (collapse_from_no_repeat data (Z.to_nat depth) (length data) ltac:(lia) 1). lia.
Qed.

(** C11: for spans of at most [MaxUnwindDepth] addresses the scalar variant and the AVX-512 variant
    both finish without any access outside the span or their 64-byte tables, with the same
    array and the same length [n], so that [CollapseRecursion] does not depend on the instruction
    set it is built for; and the first [n] slots hold exactly what the specification [collapse]
    keeps: every position where no block of length at most [depth] repeats the block
    before it, jumping over the longest repetition otherwise.  That is a subsequence of the trace with
    the same innermost and the same outermost frame, and with [depth >= 1] no two neighbouring
    frames of it are equal. *)
Theorem variants_collapse data depth :
  zlen data ≤ MaxUnwindDepth → 0 ≤ depth < 2 ^ 32 - 1 →
  ∃ data' n out, CollapseRecursionOpt data depth = Ret (data', n) ∧ CollapseRecursionAvx data depth = Ret (data', n)
    ∧ (∀ avx, CollapseRecursion avx data depth = Ret (data', n))
    ∧ zlen data' = zlen data ∧ 0 ≤ n ≤ zlen data
    ∧ out = take (Z.to_nat n) data' ∧ out = collapse data depth
    ∧ sublist out data ∧ head out = head data ∧ last out = last data
    ∧ (1 ≤ depth → ∀ i x, out !! i = Some x → out !! S i ≠ Some x).
Proof.
  intros Hn Hd. destruct (CollapseRecursionOpt_spec data depth Hn Hd) as (data' & n & E & Hl & Hb & T).
  pose proof (CollapseRecursionAvx_Opt data depth Hn Hd) as Ea. rewrite E in Ea.
  exists data', n, (collapse data depth). split; [done|]. split; [done|]. split; [by intros []|]. split; [done|]. split; [done|].
  split; [done|]. split; [done|]. apply collapse_keeps. lia.
Qed.

Lemma variants_collapse_witness :
  ∃ data' n out, CollapseRecursionOpt [3; 1; 2; 1; 2; 1; 2; 4; 4] 8 = Ret (data', n)
    ∧ CollapseRecursionAvx [3; 1; 2; 1; 2; 1; 2; 4; 4] 8 = Ret (data', n)
    ∧ (∀ avx, CollapseRecursion avx [3; 1; 2; 1; 2; 1; 2; 4; 4] 8 = Ret (data', n))
    ∧ zlen data' = 9 ∧ 0 ≤ n ≤ 9 ∧ out = take (Z.to_nat n) data' ∧ out = [3; 1; 2; 4]
    ∧ sublist out [3; 1; 2; 1; 2; 1; 2; 4; 4] ∧ head out = Some 3 ∧ last out = Some 4
    ∧ (1 ≤ 8 → ∀ i x, out !! i = Some x → out !! S i ≠ Some x).
Proof. apply (variants_collapse [3; 1; 2; 1; 2; 1; 2; 4; 4] 8); ground. Defined.

(** With [depth = 1] the reference routine [CollapseRecursionNaive] and the
    optimised routine agree: on every non-empty span both finish and keep the
    same addresses. *)
Theorem naive_equals_opt_depth1 data :
  1 ≤ zlen data ≤ MaxUnwindDepth →
  ∃ d1 d2 n, CollapseRecursionNaive data 1 = Ret (d1, n)
    ∧ CollapseRecursionOpt data 1 = Ret (d2, n)
    ∧ take (Z.to_nat n) d1 = take (Z.to_nat n) d2.
Proof.
  unfold MaxUnwindDepth. intros Hn.
  destruct (CollapseRecursionOpt_spec data 1) as (d2 & n2 & -> & L2 & B2 & T2); try lia.
  unfold CollapseRecursionNaive.
  destruct (naive_loop_one data ltac:(lia) (length data) data 1 0)
    as (d1 & l1 & -> & L1 & B1 & T1); try done; try lia; [unfold zlen; lia|].
  step_ret. rewrite u64_small by (unfold is_u64; lia).
  assert (take (Z.to_nat (l1 + 1)) d1 = take (Z.to_nat n2) d2) as E by by rewrite T1, T2.
  assert (n2 = l1 + 1) as ->.
  { apply (f_equal length) in E. rewrite !length_take in E. unfold zlen in *. lia. }
  by exists d1, d2, (l1 + 1).
Qed.

Lemma naive_equals_opt_depth1_witness :
  ∃ d1 d2 n, CollapseRecursionNaive [1; 1; 2; 2; 2; 1] 1 = Ret (d1, n)
    ∧ CollapseRecursionOpt [1; 1; 2; 2; 2; 1] 1 = Ret (d2, n)
    ∧ take (Z.to_nat n) d1 = take (Z.to_nat n) d2.
Proof. apply naive_equals_opt_depth1. ground. Defined.

(** For larger depths the two are different functions: on [a a b a a b] the optimised
    routine sees that the second half repeats the first, the naive one compares with
    what it already collapsed. *)
Example naive_differs_depth3 :
  CollapseRecursionOpt [1; 1; 2; 1; 1; 2] 3 = Ret ([1; 2; 2; 1; 1; 2], 2) ∧
  CollapseRecursionNaive [1; 1; 2; 1; 1; 2] 3 = Ret ([1; 2; 1; 2; 1; 2], 4).
Proof. split; reflexivity. Qed.

(** On the empty span the naive routine reports one kept element, the optimised one none. *)
Example naive_empty :
  CollapseRecursionNaive [] 8 = Ret ([], 1) ∧ CollapseRecursionOpt [] 8 = Ret ([], 0).
Proof. split; reflexivity. Qed.
