(* ===== verification/AllocInfo.v ===== *)
(** * Allocation records and their sums ([impl/alloc_info.h])

    [AllocSummary] keeps three signed and two unsigned 64-bit counters.  The
    operations are modelled at that width: unsigned fields wrap modulo 2^64 and
    signed fields take the two's complement result (C++ leaves signed overflow
    undefined; [wrap_exact] says when no wrap happens).  [exact] sums over [Z] are the
    specification the counters are compared with. *)

From Stdlib Require Import ZArith Lia.
From stdpp Require Import base numbers list.
From S2P Require Import Prelude.

Record AllocInfo := mkAllocInfo {
  info_size : Z;      (* uint64_t size *)
  info_offset : Z;    (* uint32_t offset *)
  info_traceId : Z;   (* uint32_t traceId *)
}.

(** The constructor [AllocInfo(uint64_t, uint32_t)]. *)
Definition AllocInfo_ctor (ctrSize ctrOffset : Z) : AllocInfo := mkAllocInfo ctrSize ctrOffset 0.

Definition set_traceId (info : AllocInfo) (id : Z) : AllocInfo :=
  mkAllocInfo (info_size info) (info_offset info) id.

Record AllocSummary := mkAllocSummary {
  sum_size : Z;        (* int64_t size *)
  sum_overhead : Z;    (* int64_t overhead *)
  sum_active : Z;      (* int64_t active *)
  sum_totalCount : Z;  (* uint64_t totalCount *)
  sum_totalBytes : Z;  (* uint64_t totalBytes *)
}.

#[export] Instance AllocInfo_eq_dec : EqDecision AllocInfo.
Proof. solve_decision. Defined.
#[export] Instance AllocSummary_eq_dec : EqDecision AllocSummary.
Proof. solve_decision. Defined.

Definition AllocSummary_zero : AllocSummary := mkAllocSummary 0 0 0 0 0.
#[export] Instance AllocSummary_inhabited : Inhabited AllocSummary := populate AllocSummary_zero.

(** [operator+=(const AllocSummary&)]. *)
Definition summary_add (s rhs : AllocSummary) : AllocSummary :=
  mkAllocSummary
    (i64 (sum_size s + sum_size rhs))
    (i64 (sum_overhead s + sum_overhead rhs))
    (i64 (sum_active s + sum_active rhs))
    (u64 (sum_totalCount s + sum_totalCount rhs))
    (u64 (sum_totalBytes s + sum_totalBytes rhs)).

(** [operator+=(const AllocInfo&)]. *)
Definition summary_add_info (s : AllocSummary) (rhs : AllocInfo) : AllocSummary :=
  mkAllocSummary
    (i64 (sum_size s + i64 (info_size rhs)))
    (i64 (sum_overhead s + i64 (info_offset rhs)))
    (i64 (sum_active s + 1))
    (u64 (sum_totalCount s + 1))
    (u64 (sum_totalBytes s + info_size rhs)).

(** [operator-=(const AllocInfo&)]: the totals stay. *)
Definition summary_sub_info (s : AllocSummary) (rhs : AllocInfo) : AllocSummary :=
  mkAllocSummary
    (i64 (sum_size s - i64 (info_size rhs)))
    (i64 (sum_overhead s - i64 (info_offset rhs)))
    (i64 (sum_active s - 1))
    (sum_totalCount s)
    (sum_totalBytes s).

(** ** Exact sums *)

Definition exact_add (a b : AllocSummary) : AllocSummary :=
  mkAllocSummary (sum_size a + sum_size b) (sum_overhead a + sum_overhead b)
    (sum_active a + sum_active b) (sum_totalCount a + sum_totalCount b)
    (sum_totalBytes a + sum_totalBytes b).

Definition exact_alloc (i : AllocInfo) : AllocSummary :=
  mkAllocSummary (info_size i) (info_offset i) 1 1 (info_size i).

Definition exact_free (i : AllocInfo) : AllocSummary :=
  mkAllocSummary (- info_size i) (- info_offset i) (-1) 0 0.

(** The machine representation of exact counters. *)
Definition wrap (s : AllocSummary) : AllocSummary :=
  mkAllocSummary (i64 (sum_size s)) (i64 (sum_overhead s)) (i64 (sum_active s))
    (u64 (sum_totalCount s)) (u64 (sum_totalBytes s)).

Definition in_range (s : AllocSummary) : Prop :=
  is_i64 (sum_size s) ∧ is_i64 (sum_overhead s) ∧ is_i64 (sum_active s) ∧
  is_u64 (sum_totalCount s) ∧ is_u64 (sum_totalBytes s).

Lemma AllocSummary_ext a b :
  sum_size a = sum_size b → sum_overhead a = sum_overhead b → sum_active a = sum_active b →
  sum_totalCount a = sum_totalCount b → sum_totalBytes a = sum_totalBytes b → a = b.
Proof. destruct a, b; cbn; congruence. Qed.

Ltac summary_ext := apply AllocSummary_ext; cbn.

#[export] Instance exact_add_assoc : Assoc (=) exact_add.
Proof. intros a b c. summary_ext; lia. Qed.
#[export] Instance exact_add_comm : Comm (=) exact_add.
Proof. intros a b. summary_ext; lia. Qed.
#[export] Instance exact_add_left_id : LeftId (=) AllocSummary_zero exact_add.
Proof. intros a. summary_ext; lia. Qed.
#[export] Instance exact_add_right_id : RightId (=) AllocSummary_zero exact_add.
Proof. intros a. summary_ext; lia. Qed.

(** ** The counters represent the exact sums *)

Lemma wrap_add a b : summary_add (wrap a) (wrap b) = wrap (exact_add a b).
Proof. summary_ext; autorewrite with word; done. Qed.

Lemma wrap_add_info a i : summary_add_info (wrap a) i = wrap (exact_add a (exact_alloc i)).
Proof. summary_ext; autorewrite with word; done. Qed.

Lemma wrap_sub_info a i : summary_sub_info (wrap a) i = wrap (exact_add a (exact_free i)).
Proof. summary_ext; autorewrite with word; rewrite ?Z.add_0_r; done. Qed.

Lemma wrap_exact s : in_range s → wrap s = s.
Proof.
  intros (H1 & H2 & H3 & H4 & H5). summary_ext; auto using i64_small, u64_small.
Qed.

Lemma wrap_in_range s : in_range (wrap s).
Proof. unfold in_range, wrap; cbn. auto using i64_range, u64_range. Qed.

Lemma wrap_wrap s : wrap (wrap s) = wrap s.
Proof. apply wrap_exact, wrap_in_range. Qed.

Lemma wrap_zero : wrap AllocSummary_zero = AllocSummary_zero.
Proof. reflexivity. Qed.

Lemma summary_add_zero s : summary_add AllocSummary_zero (wrap s) = wrap s.
Proof. summary_ext; autorewrite with word; done. Qed.

Lemma summary_add_range a b : in_range (summary_add a b).
Proof. unfold in_range, summary_add; cbn. auto using i64_range, u64_range. Qed.

Lemma summary_add_0_l s : in_range s → summary_add AllocSummary_zero s = s.
Proof. intros H. rewrite <- (wrap_exact s H). apply summary_add_zero. Qed.

Lemma summary_add_0_r s : in_range s → summary_add s AllocSummary_zero = s.
Proof.
  intros H. rewrite <- (wrap_exact s H) at 1. rewrite <- wrap_zero, wrap_add.
  rewrite (right_id AllocSummary_zero exact_add). by apply wrap_exact.
Qed.

(** ** Allocation events *)

Inductive event := EvAlloc (i : AllocInfo) | EvFree (i : AllocInfo).

#[export] Instance event_eq_dec : EqDecision event.
Proof. solve_decision. Defined.

Definition event_info (e : event) : AllocInfo := match e with EvAlloc i | EvFree i => i end.
Definition event_trace (e : event) : Z := info_traceId (event_info e).
Definition event_delta (e : event) : AllocSummary :=
  match e with EvAlloc i => exact_alloc i | EvFree i => exact_free i end.

(** The exact sum of a list of events. *)
Fixpoint exact_sum (es : list event) : AllocSummary :=
  match es with [] => AllocSummary_zero | e :: es => exact_add (event_delta e) (exact_sum es) end.

(** The events of one trace. *)
Definition of_trace (t : Z) (es : list event) : list event :=
  filter (fun e => event_trace e = t) es.

Lemma exact_sum_app es fs : exact_sum (es ++ fs) = exact_add (exact_sum es) (exact_sum fs).
Proof.
  induction es as [|e es IH]; cbn.
  - by rewrite (left_id AllocSummary_zero exact_add).
  - by rewrite IH, (assoc exact_add).
Qed.

Lemma exact_sum_snoc es e : exact_sum (es ++ [e]) = exact_add (exact_sum es) (event_delta e).
Proof. rewrite exact_sum_app. cbn. by rewrite (right_id AllocSummary_zero exact_add). Qed.

Lemma exact_sum_perm es fs : es ≡ₚ fs → exact_sum es = exact_sum fs.
Proof.
  induction 1 as [|e es fs _ IH|e f es|]; cbn; [done|by rewrite IH| |congruence].
  by rewrite !(assoc exact_add), (comm exact_add (event_delta f)).
Qed.

Lemma of_trace_app t es fs : of_trace t (es ++ fs) = of_trace t es ++ of_trace t fs.
Proof. apply filter_app. Qed.

Lemma of_trace_snoc_eq es e : of_trace (event_trace e) (es ++ [e]) = of_trace (event_trace e) es ++ [e].
Proof.
  rewrite of_trace_app. f_equal. unfold of_trace. by rewrite filter_cons_True, filter_nil.
Qed.

Lemma of_trace_snoc_ne t es e : event_trace e ≠ t → of_trace t (es ++ [e]) = of_trace t es.
Proof.
  intros H. rewrite of_trace_app. unfold of_trace at 2.
  rewrite filter_cons_False by done. by rewrite filter_nil, app_nil_r.
Qed.

(** The code's update for an event. *)
Definition apply_event (s : AllocSummary) (e : event) : AllocSummary :=
  match e with EvAlloc i => summary_add_info s i | EvFree i => summary_sub_info s i end.

Lemma apply_event_wrap s e : apply_event (wrap s) e = wrap (exact_add s (event_delta e)).
Proof. destruct e; [apply wrap_add_info | apply wrap_sub_info]. Qed.
