(* ===== verification/LruCache.v ===== *)
(** * The LRU cache ([impl/lru_cache.h])

    The cache keeps its entries in a [boost::multi_index_container] with a unique
    hashed index on the key and a sequenced index.  The container is not part of the
    repository: the class [SequencedHash] gives its operations as the cache uses
    them, [SequencedHashLaws] their documented behaviour, and the cache is defined and
    verified against that interface.  Lists of pairs are an instance. *)

From Stdlib Require Import ZArith Lia.
From stdpp Require Import base numbers list.
From S2P Require Import Prelude.

(** ** The container *)

Class SequencedHash (I K V : Type) := {
  (** the empty container *)
  sh_empty : I;
  (** the elements in the order of the sequenced view, [begin()] first *)
  sh_order : I → list (K * V);
  sh_size : I → nat;
  (** [find] in the hashed view *)
  sh_find : I → K → option V;
  (** [relocate(end(), it)] of the element with this key *)
  sh_relocate_end : I → K → I;
  (** [insert] through the hashed view: nothing happens when the key is present *)
  sh_insert : I → K → V → I;
  (** [modify] of [begin()] to a new key and value; the old pair comes back. When
      another element has the new key the element is erased; [None] when empty. *)
  sh_modify_begin : I → K → V → option (K * V * I);
  (** [erase] by key: number of erased elements *)
  sh_erase : I → K → nat * I;
}.

(** The laws of [find] and [relocate] are stated for containers with unique keys,
    which every operation preserves. *)
Class SequencedHashLaws (I K V : Type) `{EqDecision K} `{SequencedHash I K V} : Prop := {
  sh_order_empty : sh_order sh_empty = [];
  sh_size_order i : sh_size i = length (sh_order i);
  sh_find_order i k v : NoDup (sh_order i).*1 →
    sh_find i k = Some v ↔ (k, v) ∈ sh_order i;
  sh_relocate_order i k v : NoDup (sh_order i).*1 → (k, v) ∈ sh_order i →
    sh_order (sh_relocate_end i k) = filter (fun p => p.1 ≠ k) (sh_order i) ++ [(k, v)];
  sh_insert_fresh i k v : k ∉ (sh_order i).*1 →
    sh_order (sh_insert i k v) = sh_order i ++ [(k, v)];
  sh_insert_present i k v : k ∈ (sh_order i).*1 → sh_order (sh_insert i k v) = sh_order i;
  sh_modify_empty i k v : sh_order i = [] → sh_modify_begin i k v = None;
  sh_modify_fresh i k v k0 v0 l : sh_order i = (k0, v0) :: l → k ∉ l.*1 →
    ∃ i', sh_modify_begin i k v = Some (k0, v0, i') ∧ sh_order i' = (k, v) :: l;
  sh_modify_clash i k v k0 v0 l : sh_order i = (k0, v0) :: l → k ∈ l.*1 →
    ∃ i', sh_modify_begin i k v = Some (k0, v0, i') ∧ sh_order i' = l;
  sh_erase_order i k :
    (sh_erase i k).1 = length (filter (fun p => p.1 = k) (sh_order i)) ∧
    sh_order (sh_erase i k).2 = filter (fun p => p.1 ≠ k) (sh_order i);
}.

(** ** The cache *)

Section LruCache.
Context {I K V : Type} `{EqDecision K} `{SequencedHash I K V}.

Record LruCache := mkLruCache {
  m_index : I;
  m_capacity : Z;
}.

Definition LruCache_ctor (capacity : Z) : LruCache := mkLruCache sh_empty capacity.

Definition Relocate (c : LruCache) (k : K) : LruCache :=
  mkLruCache (sh_relocate_end (m_index c) k) (m_capacity c).

(** The evicted key, if any, and the new cache.  With an empty index and capacity
    0 the code modifies through [end()]; when the new key is already present the
    modification erases the element that is relocated next: both are [Undef]. *)
Definition Insert (c : LruCache) (key : K) (val : V) : outcome (option K * LruCache) :=
  if m_capacity c <=? Z.of_nat (sh_size (m_index c)) then
    match sh_modify_begin (m_index c) key val with
    | None => Undef
    | Some (old, _, i') =>
      match sh_find i' key with
      | Some _ =>
        if bool_decide (sh_size i' = sh_size (m_index c))
        then Ret (Some old, Relocate (mkLruCache i' (m_capacity c)) key)
        else Undef
      | None => Undef
      end
    end
  else
    let i' := sh_insert (m_index c) key val in
    Ret (None, Relocate (mkLruCache i' (m_capacity c)) key).

Definition Touch (c : LruCache) (key : K) : option V * LruCache :=
  match sh_find (m_index c) key with
  | Some v => (Some v, Relocate c key)
  | None => (None, c)
  end.

Definition Erase (c : LruCache) (key : K) : bool * LruCache :=
  let '(n, i') := sh_erase (m_index c) key in
  (bool_decide (0 < n)%nat, mkLruCache i' (m_capacity c)).

Definition Size (c : LruCache) : Z := Z.of_nat (sh_size (m_index c)).

(** The entries, least recently used first. *)
Definition entries (c : LruCache) : list (K * V) := sh_order (m_index c).

(** The cache never holds more than its capacity. *)
Definition lru_ok (c : LruCache) : Prop := 0 < m_capacity c ∧ Size c ≤ m_capacity c.
End LruCache.
Arguments LruCache : clear implicits.

(** ** Lists as the container *)

Section list_instance.
Context {K V : Type} `{EqDecision K}.

Fixpoint assoc_find (l : list (K * V)) (k : K) : option V :=
  match l with
  | [] => None
  | (k', v) :: l => if decide (k' = k) then Some v else assoc_find l k
  end.

#[export] Instance list_SequencedHash : SequencedHash (list (K * V)) K V := {
  sh_empty := [];
  sh_order l := l;
  sh_size l := length l;
  sh_find l k := assoc_find l k;
  sh_relocate_end l k :=
    match assoc_find l k with
    | Some v => filter (fun p => p.1 ≠ k) l ++ [(k, v)]
    | None => l
    end;
  sh_insert l k v := if decide (k ∈ l.*1) then l else l ++ [(k, v)];
  sh_modify_begin l k v :=
    match l with
    | [] => None
    | (k0, v0) :: l => Some (k0, v0, if decide (k ∈ l.*1) then l else (k, v) :: l)
    end;
  sh_erase l k := (length (filter (fun p => p.1 = k) l), filter (fun p => p.1 ≠ k) l);
}.

Lemma assoc_find_elem (l : list (K * V)) k v :
  NoDup l.*1 → assoc_find l k = Some v ↔ (k, v) ∈ l.
Proof.
  induction l as [|[k' v'] l IH]; cbn; intros Hnd.
  { split; [done|]. by intros ?%not_elem_of_nil. }
  apply NoDup_cons in Hnd as [Hk Hnd]. rewrite elem_of_cons. case_decide as E.
  - subst. split; [intros; simplify_eq; by left|].
    intros [?|Hin]; [by simplify_eq|]. exfalso. apply Hk.
    apply list_elem_of_fmap. by exists (k, v).
  - rewrite IH by done. split; [by right|]. intros [?|?]; [by simplify_eq|done].
Qed.

#[export] Instance list_SequencedHashLaws : SequencedHashLaws (list (K * V)) K V.
Proof.
  split; cbn; try done.
  - apply assoc_find_elem.
  - intros l k v Hnd Hin. apply assoc_find_elem in Hin; [|done]. by rewrite Hin.
  - intros l k v Hk. by rewrite decide_False.
  - intros l k v Hk. by rewrite decide_True.
  - intros l k v ->. done.
  - intros l k v k0 v0 l' -> Hk. rewrite decide_False by done. eauto.
  - intros l k v k0 v0 l' -> Hk. rewrite decide_True by done. eauto.
Qed.
End list_instance.

(** ** Behaviour of each operation *)

Section facts.
Context {I K V : Type} `{EqDecision K} `{!SequencedHash I K V} `{!SequencedHashLaws I K V}.
Implicit Types (c : LruCache I) (k : K) (v : V).

Definition keys c : list K := (entries (K := K) (V := V) c).*1.
Definition unique c : Prop := NoDup (keys c).

Lemma filter_keys_absent (l : list (K * V)) k :
  k ∉ l.*1 → filter (fun p => p.1 ≠ k) l = l.
Proof.
  intros Hk. apply filter_all. intros p Hp <-.
  apply Hk, list_elem_of_fmap. by exists p.
Qed.

Lemma filter_keys_fmap (l : list (K * V)) k :
  (filter (fun p => p.1 ≠ k) l).*1 = filter (fun k' => k' ≠ k) l.*1.
Proof.
  induction l as [|[k' v'] l IH]; [done|]. rewrite fmap_cons, !filter_cons. cbn [fst].
  case_decide; rewrite ?fmap_cons, IH; done.
Qed.

Lemma size_entries c : Size c = zlen (entries c).
Proof. unfold Size, entries, zlen. by rewrite sh_size_order. Qed.

Lemma elem_keys c k : k ∈ keys c ↔ ∃ v, (k, v) ∈ entries c.
Proof.
  unfold keys. rewrite list_elem_of_fmap. split.
  - intros ([k' v] & -> & ?). by exists v.
  - intros [v ?]. by exists (k, v).
Qed.

Lemma Touch_hit c k v :
  unique c → (k, v) ∈ entries c →
  ∃ c', Touch c k = (Some v, c') ∧ m_capacity c' = m_capacity c
        ∧ entries c' = filter (fun p => p.1 ≠ k) (entries c) ++ [(k, v)].
Proof.
  intros Hu Hin. unfold Touch. pose proof Hin as Hf. apply sh_find_order in Hf; [|done].
  rewrite Hf. eexists. split; [done|]. split; [done|]. by apply sh_relocate_order.
Qed.

Lemma Touch_miss c k : unique c → k ∉ keys c → Touch c k = (None, c).
Proof.
  intros Hu Hk. unfold Touch. destruct (sh_find (m_index c) k) as [v|] eqn:E; [|done].
  apply sh_find_order in E; [|done]. exfalso. apply Hk, elem_keys. by exists v.
Qed.

Lemma nodup_snoc (l : list (K * V)) k v : NoDup l.*1 → k ∉ l.*1 → NoDup (l ++ [(k, v)]).*1.
Proof.
  intros Hu Hk. rewrite fmap_app. apply NoDup_app. split; [done|]. split.
  - intros x Hx ->%list_elem_of_singleton. done.
  - apply NoDup_singleton.
Qed.

Lemma relocate_last i k v (l : list (K * V)) :
  sh_order i = l ++ [(k, v)] → NoDup l.*1 → k ∉ l.*1 →
  sh_order (sh_relocate_end i k) = l ++ [(k, v)].
Proof.
  intros E Hu Hk. rewrite (sh_relocate_order i k v).
  - rewrite E, filter_app, filter_cons_False, filter_nil, app_nil_r by naive_solver.
    by rewrite filter_keys_absent.
  - rewrite E. by apply nodup_snoc.
  - rewrite E. apply elem_of_app. right. by apply list_elem_of_singleton.
Qed.

Lemma Insert_room c k v :
  unique c → k ∉ keys c → Size c < m_capacity c →
  ∃ c', Insert c k v = Ret (None, c') ∧ m_capacity c' = m_capacity c
        ∧ entries c' = entries c ++ [(k, v)].
Proof.
  intros Hu Hk Hs. unfold Insert. fold (Size c). zcases.
  eexists. split; [done|]. split; [done|]. unfold entries. cbn.
  apply relocate_last; [by apply sh_insert_fresh|done|done].
Qed.

Lemma Insert_full c k v k0 v0 l :
  unique c → k ∉ keys c → m_capacity c ≤ Size c → entries c = (k0, v0) :: l →
  ∃ c', Insert c k v = Ret (Some k0, c') ∧ m_capacity c' = m_capacity c
        ∧ entries c' = l ++ [(k, v)].
Proof.
  intros Hu Hk Hs E. unfold Insert. fold (Size c). zcases.
  unfold unique, keys in *. rewrite E in Hu, Hk. cbn in Hu, Hk.
  apply NoDup_cons in Hu as [Hk0 Hu]. apply not_elem_of_cons in Hk as [Hne Hk].
  destruct (sh_modify_fresh (m_index c) k v k0 v0 l E Hk) as (i' & -> & Ei').
  assert (Hnd : NoDup (sh_order i').*1)
    by (rewrite Ei'; apply NoDup_cons; split; done).
  assert (Hin : (k, v) ∈ sh_order i') by (rewrite Ei'; left).
  pose proof Hin as Hf. apply sh_find_order in Hf; [|done]. rewrite Hf.
  rewrite bool_decide_true.
  2: { rewrite !sh_size_order, Ei'. unfold entries in E. by rewrite E. }
  eexists. split; [done|]. split; [done|]. unfold entries; cbn.
  rewrite (sh_relocate_order i' k v) by done. rewrite Ei', filter_cons_False by naive_solver.
  by rewrite filter_keys_absent.
Qed.

(** Inserting a new key: the oldest entry makes room when the cache is full. *)
Lemma Insert_new c k v (full := m_capacity c <=? Size c) :
  unique c → lru_ok c → k ∉ keys c →
  ∃ c', Insert c k v = Ret (if full then head (keys c) else None, c')
    ∧ entries c' = (if full then tail (entries c) else entries c) ++ [(k, v)]
    ∧ unique c' ∧ lru_ok c'.
Proof.
  intros Hu [Hcap Hs] Hk. subst full.
  assert (Hfin : ∀ c' l, entries c' = l ++ [(k, v)] → NoDup l.*1 → k ∉ l.*1 →
     m_capacity c' = m_capacity c → zlen l < m_capacity c → unique c' ∧ lru_ok c').
  { intros c' l El Hnd Hkl Hc' Hzl. split; [unfold unique, keys; rewrite El; by apply nodup_snoc|].
    split; [lia|]. rewrite size_entries, El, zlen_app. change (zlen [(k, v)]) with 1. lia. }
  destruct (Z.leb_spec (m_capacity c) (Size c)).
  - destruct (entries c) as [|[k0 v0] l] eqn:E.
    { rewrite size_entries, E in H. change (zlen []) with 0 in H. lia. }
    destruct (Insert_full c k v k0 v0 l) as (c' & Ei & Hc' & El); try done.
    exists c'. unfold unique, keys in Hu, Hk. rewrite E in Hu, Hk. cbn in Hu, Hk.
    apply NoDup_cons in Hu as [Hk0 Hu]. apply not_elem_of_cons in Hk as [Hne Hkl].
    split; [unfold keys; by rewrite E|]. split; [done|]. apply (Hfin c' l); try done.
    rewrite size_entries, E, zlen_cons in Hs. lia.
  - destruct (Insert_room c k v) as (c' & Ei & Hc' & El); try done.
    exists c'. split; [done|]. split; [done|]. apply (Hfin c' (entries c)); try done.
    by rewrite <- size_entries.
Qed.

(** A cache without capacity cannot be inserted into. *)
Lemma Insert_no_capacity c k v : m_capacity c ≤ 0 → entries c = [] → Insert c k v = Undef.
Proof.
  intros Hc E. unfold Insert. rewrite sh_size_order. unfold entries in E. rewrite E.
  cbn. zcases. by rewrite sh_modify_empty.
Qed.

(** Inserting a key a second time into a full cache invalidates the element it relocates,
    unless that key is the least recently used one. *)
Lemma Insert_clash c k v k0 v0 l :
  unique c → m_capacity c ≤ Size c → entries c = (k0, v0) :: l → k ∈ l.*1 →
  Insert c k v = Undef.
Proof.
  intros Hu Hs E Hk. unfold Insert. fold (Size c). zcases.
  destruct (sh_modify_clash (m_index c) k v k0 v0 l E Hk) as (i' & -> & Ei').
  destruct (sh_find i' k); [|done]. rewrite bool_decide_false; [done|].
  rewrite !sh_size_order, Ei'. unfold entries in E. rewrite E. cbn. lia.
Qed.

Lemma Erase_spec c k :
  unique c →
  ∃ c', Erase c k = (bool_decide (k ∈ keys c), c') ∧ m_capacity c' = m_capacity c
        ∧ entries c' = filter (fun p => p.1 ≠ k) (entries c).
Proof.
  intros Hu. unfold Erase. destruct (sh_erase_order (m_index c) k) as [E1 E2].
  destruct (sh_erase (m_index c) k) as [n i']. cbn in E1, E2.
  exists (mkLruCache i' (m_capacity c)).
  split; [|split; [done|exact E2]]. f_equal. apply bool_decide_ext. subst n.
  rewrite elem_keys. unfold entries. split.
  - intros Hl.
    destruct (filter (fun p : K * V => p.1 = k) (sh_order (m_index c)))
      as [|[k' v'] l'] eqn:Ef; [cbn in Hl; lia|].
    assert ((k', v') ∈ filter (fun p => p.1 = k) (sh_order (m_index c))) as Hin
      by (rewrite Ef; left).
    apply list_elem_of_filter in Hin as [Hk Hin]. cbn in Hk. subst. by exists v'.
  - intros [v Hin]. assert ((k, v) ∈ filter (fun p => p.1 = k) (sh_order (m_index c))) as Hin'
      by (apply list_elem_of_filter; done).
    destruct (filter (fun p : K * V => p.1 = k) (sh_order (m_index c)));
      [by apply not_elem_of_nil in Hin'|cbn; lia].
Qed.
End facts.

(** ** The cache holds the most recently used keys

    The client uses a key by touching it and inserting it on a miss, as
    [ThreadTracker::SaveTraceId] does. *)

Section history.
Context {I K V : Type} `{EqDecision K} `{!SequencedHash I K V} `{!SequencedHashLaws I K V}.
Implicit Types (c : LruCache I) (k : K) (v : V).

Definition lru_use c (kv : K * V) : outcome (LruCache I) :=
  match Touch (V := V) c kv.1 with
  | (Some _, c') => Ret c'
  | (None, c') => '(_, c'') ← Insert c' kv.1 kv.2; Ret c''
  end.

Fixpoint lru_run c (h : list (K * V)) : outcome (LruCache I) :=
  match h with
  | [] => Ret c
  | kv :: h => c' ← lru_use c kv; lru_run c' h
  end.

(** The distinct keys of a history, ordered by their last use. *)
Definition recency (h : list K) : list K :=
  foldl (fun acc k => filter (fun k' => k' ≠ k) acc ++ [k]) [] h.

Lemma recency_snoc h k : recency (h ++ [k]) = filter (fun k' => k' ≠ k) (recency h) ++ [k].
Proof. unfold recency. by rewrite foldl_app. Qed.

Lemma recency_nodup h : NoDup (recency h).
Proof.
  induction h as [|k h IH] using rev_ind; [constructor|]. rewrite recency_snoc.
  apply NoDup_app. split; [by apply NoDup_filter|]. split; [|apply NoDup_singleton].
  intros x [Hx _]%list_elem_of_filter ->%list_elem_of_singleton. done.
Qed.

Lemma filter_absent (l : list K) k : k ∉ l → filter (fun k' => k' ≠ k) l = l.
Proof. intros Hk. apply filter_all. by intros x Hx ->. Qed.

Lemma filter_length_present (l : list K) k :
  NoDup l → k ∈ l → S (length (filter (fun k' => k' ≠ k) l)) = length l.
Proof.
  induction l as [|x l IH]; intros Hnd Hin; [by apply not_elem_of_nil in Hin|].
  apply NoDup_cons in Hnd as [Hx Hnd]. destruct (decide (x = k)) as [->|Hne].
  - rewrite filter_cons_False by naive_solver. by rewrite filter_absent.
  - rewrite filter_cons_True by done. cbn. f_equal. apply IH; [done|].
    apply elem_of_cons in Hin as [->|]; done.
Qed.

(** How the window of the last [n] keys moves when [k] is used. *)
Lemma lastn_use n (r : list K) k :
  NoDup r → k ∈ lastn n r →
  lastn n (filter (fun k' => k' ≠ k) r ++ [k])
  = filter (fun k' => k' ≠ k) (lastn n r) ++ [k].
Proof.
  destruct (lastn_split n r) as (a & Er & Hl). revert Er Hl.
  generalize (lastn n r) as b. intros b -> Hl Hnd Hk.
  apply NoDup_app in Hnd as (Ha & Hab & Hb).
  rewrite filter_app, (filter_absent a) by (intros ?; by apply (Hab k)).
  pose proof (filter_length_present b k Hb Hk) as Hlen. rewrite <- app_assoc.
  destruct Hl as [[-> Hl]|Hl].
  - rewrite app_nil_l, lastn_all; [done|]. rewrite length_app. cbn. lia.
  - replace n with (length (filter (fun k' => k' ≠ k) b ++ [k]))
      by (rewrite length_app; cbn; lia).
    apply lastn_app.
Qed.

Lemma lastn_new n (r : list K) k :
  (0 < n)%nat → NoDup r → k ∉ lastn n r → length (lastn n r) = n →
  lastn n (filter (fun k' => k' ≠ k) r ++ [k]) = tail (lastn n r) ++ [k].
Proof.
  intros Hn. destruct (lastn_split n r) as (a & Er & _). revert Er.
  generalize (lastn n r) as b. intros b -> Hnd Hk Hl.
  rewrite filter_app, (filter_absent b) by done.
  destruct b as [|x b]; [cbn in Hl; lia|]. cbn [tail].
  replace n with (length (b ++ [k])) by (rewrite length_app; cbn in *; lia).
  rewrite <- app_assoc. change ((x :: b) ++ [k]) with ([x] ++ (b ++ [k])).
  rewrite app_assoc. apply lastn_app.
Qed.

Lemma lastn_room n (r : list K) k :
  k ∉ lastn n r → (length (lastn n r) < n)%nat →
  lastn n (filter (fun k' => k' ≠ k) r ++ [k]) = lastn n r ++ [k].
Proof.
  intros Hk Hl. destruct (lastn_split n r) as (a & Er & [[-> _]|?]); [|lia].
  cbn in Er. rewrite <- Er in Hk, Hl |- *. rewrite filter_absent by done.
  apply lastn_all. rewrite length_app. cbn. lia.
Qed.

Definition holds_recent (cap : nat) c (h : list K) : Prop :=
  m_capacity c = Z.of_nat cap ∧ keys (V := V) c = lastn cap (recency h).

Lemma holds_unique cap c h : holds_recent cap c h → unique (V := V) c.
Proof.
  intros [_ E]. unfold unique. rewrite E. unfold lastn.
  eapply sublist_NoDup; [apply recency_nodup|]. apply sublist_drop.
Qed.

Lemma lru_use_recent cap c h kv :
  (0 < cap)%nat → holds_recent cap c h →
  ∃ c', lru_use c kv = Ret c' ∧ holds_recent cap c' (h ++ [kv.1]).
Proof.
  intros Hcap Hh. pose proof (holds_unique _ _ _ Hh) as Hu. destruct Hh as [Hc E].
  destruct kv as [k v]. unfold lru_use, holds_recent. cbn [fst snd]. rewrite recency_snoc.
  pose proof (recency_nodup h) as Hr.
  assert (Hsz : Size c = Z.of_nat (length (lastn cap (recency h)))).
  { rewrite size_entries. unfold zlen. f_equal. rewrite <- E. unfold keys.
    by rewrite length_fmap. }
  destruct (decide (k ∈ keys (V := V) c)) as [Hk|Hk].
  - apply elem_keys in Hk as [v' Hin].
    destruct (Touch_hit c k v' Hu Hin) as (c' & -> & Hc' & Ee). exists c'. split; [done|].
    split; [congruence|]. unfold keys. rewrite Ee, fmap_app, filter_keys_fmap.
    fold (keys (V := V) c). rewrite E. symmetry. apply lastn_use; [done|].
    rewrite <- E. apply elem_keys. by exists v'.
  - rewrite Touch_miss by done. rewrite E in Hk.
    destruct (decide (length (lastn cap (recency h)) < cap)%nat) as [Hlt|Hge].
    + destruct (Insert_room c k v Hu) as (c' & -> & Hc' & Ee); [by rewrite E|lia|].
      exists c'. split; [done|]. split; [congruence|].
      unfold keys. rewrite Ee, fmap_app. fold (keys (V := V) c). rewrite E. symmetry.
      by apply lastn_room.
    + destruct (lastn_split cap (recency h)) as (a & _ & Hle).
      destruct (entries (V := V) c) as [|[k0 v0] l] eqn:Een.
      { exfalso. unfold keys in E. rewrite Een in E. rewrite <- E in Hge. cbn in Hge. lia. }
      destruct (Insert_full c k v k0 v0 l Hu) as (c' & -> & Hc' & Ee); [by rewrite E|lia|done|].
      exists c'. split; [done|]. split; [congruence|].
      rewrite lastn_new by (done || lia). rewrite <- E. unfold keys.
      by rewrite Ee, Een, fmap_app.
Qed.

Lemma lru_run_recent cap h : (0 < cap)%nat → ∀ c h0,
  holds_recent cap c h0 → ∃ c', lru_run c h = Ret c' ∧ holds_recent cap c' (h0 ++ h.*1).
Proof.
  intros Hcap. induction h as [|kv h IH]; intros c h0 Hc; cbn [lru_run].
  { exists c. split; [done|]. by rewrite app_nil_r. }
  destruct (lru_use_recent cap c h0 kv Hcap Hc) as (c1 & -> & H1). step_ret.
  destruct (IH c1 _ H1) as (c2 & -> & H2). exists c2. split; [done|].
  rewrite <- app_assoc in H2. exact H2.
Qed.
End history.

(** ** Properties *)

(** C12: a cache of capacity [cap > 0] used through touch-then-insert never fails and
    after any history of uses holds exactly the [cap] most recently used distinct
    keys, in the order of their last use; eviction is therefore strictly least
    recently used.  This holds for every container that satisfies the documented
    laws of the multi-index container. *)
Theorem lru_most_recent {I K V} `{EqDecision K} `{!SequencedHash I K V}
    `{!SequencedHashLaws I K V} (cap : nat) (h : list (K * V)) :
  (0 < cap)%nat →
  ∃ c, lru_run (LruCache_ctor (Z.of_nat cap)) h = Ret c
       ∧ keys (V := V) c = lastn cap (recency h.*1).
Proof.
  intros Hcap.
  destruct (lru_run_recent (V := V) cap h Hcap (LruCache_ctor (Z.of_nat cap)) [])
    as (c & -> & _ & E).
  { split; [done|]. unfold keys, entries. cbn. by rewrite sh_order_empty. }
  by exists c.
Qed.

Lemma lru_most_recent_witness :
  ∃ c, lru_run (I := list (Z * Z)) (LruCache_ctor 2) [(1, 10); (2, 20); (1, 10); (3, 30)] = Ret c
       ∧ keys (V := Z) c = [1; 3].
Proof.
  destruct (lru_most_recent (I := list (Z * Z)) 2 [(1, 10); (2, 20); (1, 10); (3, 30)])
    as (c & Hrun & Hkeys); [lia|].
  exists c. split; [exact Hrun|]. rewrite Hkeys. reflexivity.
Defined.

(** What a lookup returns: a key that was just inserted is found with its value, a
    lookup of an absent key changes nothing, and an insertion of a new key removes at
    most one other entry, the least recently used one, whose key it returns. *)
Theorem lru_insert_lookup {I K V} `{EqDecision K} `{!SequencedHash I K V}
    `{!SequencedHashLaws I K V} (c : LruCache I) (k : K) (v : V) :
  unique (V := V) c → lru_ok (K := K) (V := V) c → k ∉ keys (V := V) c →
  Touch (V := V) c k = (None, c) ∧
  ∃ ev c', Insert c k v = Ret (ev, c')
    ∧ unique (V := V) c' ∧ lru_ok (K := K) (V := V) c'
    ∧ (∃ c'', Touch c' k = (Some v, c''))
    ∧ ev = (if m_capacity c <=? Size (K := K) (V := V) c
            then head (keys (V := V) c) else None)
    ∧ ∀ k' v', k' ≠ k → (k', v') ∈ entries c' ↔ (k', v') ∈ entries c ∧ Some k' ≠ ev.
Proof.
  intros Hu Hok Hk. split; [by apply Touch_miss|].
  destruct (Insert_new c k v Hu Hok Hk) as (c' & -> & El & Hu' & Hok').
  eexists _, c'. split; [done|]. split; [done|]. split; [done|]. split; [|split; [done|]].
  { destruct (Touch_hit c' k v) as (c'' & -> & _); [done| |by exists c''].
    rewrite El. apply elem_of_app. right. by apply list_elem_of_singleton. }
  intros k' v' Hne. rewrite El, elem_of_app, list_elem_of_singleton.
  assert ((k', v') ≠ (k, v)) by congruence. destruct (_ <=? _) eqn:Efull.
  2: { split; [intros [?|?]; [|done]|intros [? _]; by left]. by split. }
  unfold unique, keys in *. destruct (entries c) as [|[k0 v0] l].
  { cbn. split; [intros [?|?]; [by split|done]|intros [? _]; by left]. }
  cbn in *. apply NoDup_cons in Hu as [Hk0 _]. rewrite elem_of_cons. split.
  - intros [Hin|?]; [|done]. split; [by right|]. intros ?; simplify_eq.
    apply Hk0, list_elem_of_fmap. by exists (k0, v').
  - intros [[?|?] Hne']; [by simplify_eq|by left].
Qed.

Lemma lru_insert_lookup_witness :
  let c := mkLruCache [(1, 10); (2, 20)] 2 in
  ∃ ev c', Insert c 3 30 = Ret (ev, c')
    ∧ (∃ c'', Touch c' 3 = (Some 30, c''))
    ∧ ev = Some 1
    ∧ ∀ k' v', k' ≠ 3 → (k', v') ∈ entries c' ↔ (k', v') ∈ entries c ∧ Some k' ≠ ev.
Proof.
  destruct (lru_insert_lookup (mkLruCache [(1, 10); (2, 20)] 2) 3 30)
    as (_ & ev & c' & Hi & _ & _ & Ht & Hev & Hin).
  - refine (bool_decide_unpack _ _). vm_compute. exact I.
  - ground.
  - refine (bool_decide_unpack _ _). vm_compute. exact I.
  - exists ev, c'. split_and!; [exact Hi|exact Ht|exact Hev|exact Hin].
Defined.
