(* ===== verification/Stacktrace.v ===== *)
(** * Stack traces ([impl/stacktrace.h], [impl/stacktrace.cpp], [impl/recursion_guard.h])

    A [Stacktrace] owns an array of [MaxUnwindDepth] addresses of which the part
    between [m_skip] and [m_size] is visible.  The unwinders (libunwind and abseil),
    the lookup of function starts and the XXH3 hash are not part of the repository and
    are parameters.  The array is not initialised by the constructors, so its first
    contents are an argument.  The method [Describe], which turns a trace into text,
    is in the file [Describe]. *)

From Stdlib Require Import ZArith Lia.
From stdpp Require Import base numbers list.
From S2P Require Import Prelude Algo.

(** ** The class *)

Record Stacktrace := mkStacktrace {
  st_size : Z;        (* size_t m_size *)
  st_skip : Z;        (* size_t m_skip *)
  st_data : list Z;   (* void* m_data[MaxUnwindDepth] *)
}.

#[export] Instance Stacktrace_eq_dec : EqDecision Stacktrace.
Proof. solve_decision. Defined.

Definition Stacktrace_default (uninit : list Z) : Stacktrace := mkStacktrace 0 0 uninit.

(** [Stacktrace(void* const* data, size_t size)]; the copy reads [size] words of [data]. *)
Definition Stacktrace_copy (uninit data : list Z) (size : Z) : outcome Stacktrace :=
  let n := Z.min MaxUnwindDepth size in
  if zlen data <? n then Undef
  else Ret (mkStacktrace n 0 (take (Z.to_nat n) data ++ drop (Z.to_nat n) uninit)).

(** [GetTrace]: the visible frames, innermost first. *)
Definition GetTrace (st : Stacktrace) : list Z :=
  take (Z.to_nat (u64 (st_size st - st_skip st))) (drop (Z.to_nat (st_skip st)) (st_data st)).

(** Writes a span of the same length as [GetTrace] back through the pointer it holds. *)
Definition write_trace (st : Stacktrace) (span : list Z) : Stacktrace :=
  let k := Z.to_nat (st_skip st) in
  mkStacktrace (st_size st) (st_skip st)
    (take k (st_data st) ++ span ++ drop (k + length span) (st_data st)).

Definition ShrinkBySize (st : Stacktrace) (size : Z) : Stacktrace :=
  if st_size st <=? u64 (st_skip st + size) then st
  else mkStacktrace (u64 (st_skip st + size)) (st_skip st) (st_data st).

Definition Skip (st : Stacktrace) (size : Z) : Stacktrace :=
  let m_skip := u64 (st_skip st + size) in
  mkStacktrace (st_size st) (if st_size st <? m_skip then st_size st else m_skip) (st_data st).

(** The loop of [ShrinkByPtr] from index [i] of the span. *)
Fixpoint ShrinkByPtr_loop (st : Stacktrace) (ptr : Z) (span : list Z) (i : Z) : Stacktrace :=
  match span with
  | [] => st
  | x :: span => if x =? ptr then ShrinkBySize st i else ShrinkByPtr_loop st ptr span (i + 1)
  end.

Definition ShrinkByPtr (st : Stacktrace) (ptr : Z) : Stacktrace :=
  ShrinkByPtr_loop st ptr (drop 2 (GetTrace st)) 2.

(** The method [CollapseRecursion]; [avx] is the instruction set it is built for. *)
Definition Stacktrace_CollapseRecursion (avx : bool) (st : Stacktrace) (depth : Z)
  : outcome Stacktrace :=
  '(span, newSize) ← CollapseRecursion avx (GetTrace st) depth;
  Ret (ShrinkBySize (write_trace st span) newSize).

(** [unw_get_proc_info_by_ip] is the parameter. *)
Definition CoarseToFunctionsStart (start_ip : Z → Z) (st : Stacktrace) : Stacktrace :=
  write_trace st (start_ip <$> GetTrace st).

Definition Stacktrace_eqb (a b : Stacktrace) : bool := bool_decide (GetTrace a = GetTrace b).

(** ** Unwinding

    An unwinder fills the array and returns how many frames it found. *)

Class Unwinder := {
  (** [absl::GetStackTrace] (true) or [unw_backtrace] (false), capacity, old array *)
  backtrace : bool → Z → list Z → list Z * Z;
}.

Class UnwinderLaws `{Unwinder} : Prop := {
  (** it writes into the array it was given, *)
  backtrace_length absl n a : zlen (backtrace absl n a).1 = zlen a;
  (** and never reports more frames than fit *)
  backtrace_bound absl n a : (backtrace absl n a).2 ≤ n;
  (** the array holds machine words *)
  backtrace_words absl n a : Forall is_u64 a → Forall is_u64 (backtrace absl n a).1;
}.

(** Drops trailing null frames. *)
Fixpoint trim_nulls (fuel : nat) (data : list Z) (resultSize : Z) : outcome Z :=
  if 0 <? resultSize then
    v ← rd data (resultSize - 1);
    if v =? 0 then
      match fuel with
      | O => NoFuel
      | S fuel => trim_nulls fuel data (resultSize - 1)
      end
    else Ret resultSize
  else Ret resultSize.

Definition UnwindStacktrace `{Unwinder} (st : Stacktrace) (capacity : Z) (useAbsl : bool)
    (skip : Z) : outcome Stacktrace :=
  let size := Z.min capacity MaxUnwindDepth in
  let '(data, found) := backtrace useAbsl size (st_data st) in
  resultSize ← trim_nulls (length data) data found;
  if resultSize <? skip then Ret (mkStacktrace (st_size st) (st_skip st) data)
  else Ret (mkStacktrace resultSize skip data).

Definition Unwind `{Unwinder} (uninit : list Z) (capacity : Z) (useAbsl : bool) (skip : Z)
  : outcome Stacktrace :=
  UnwindStacktrace (Stacktrace_default uninit) capacity useAbsl skip.

(** ** [CompressedStacktrace]: the cache key *)

Record CompressedStacktrace := mkCompressedStacktrace {
  cs_data : list Z;
  cs_hash : Z;
}.

#[export] Instance CompressedStacktrace_eq_dec : EqDecision CompressedStacktrace.
Proof. solve_decision. Defined.

Definition CompressedStacktrace_eqb (a b : CompressedStacktrace) : bool :=
  if negb (cs_hash a =? cs_hash b) then false else bool_decide (cs_data a = cs_data b).

(** [std::vector]'s lexicographic [operator<]. *)
Fixpoint vector_ltb (a b : list Z) : bool :=
  match a, b with
  | _, [] => false
  | [], _ :: _ => true
  | x :: a, y :: b => if x <? y then true else if y <? x then false else vector_ltb a b
  end.

Definition CompressedStacktrace_ltb (a b : CompressedStacktrace) : bool :=
  if cs_hash a =? cs_hash b then vector_ltb (cs_data a) (cs_data b)
  else cs_hash a <? cs_hash b.

Section hashing.
Context (XXH3_64bits : list Z → Z).

Definition RecalculateHash (c : CompressedStacktrace) : CompressedStacktrace :=
  mkCompressedStacktrace (cs_data c) (XXH3_64bits (cs_data c)).

(** The method [Compress]: [result] is overwritten. *)
Definition Stacktrace_Compress (st : Stacktrace) (result : CompressedStacktrace)
  : CompressedStacktrace :=
  RecalculateHash (mkCompressedStacktrace (GetTrace st) (cs_hash result)).
End hashing.

(** ** The recursion guard and [RecursiveStacktrace]

    Thread-local state: the nesting level and, when built for self profiling, the
    return addresses recorded per level. *)

Record GuardState := mkGuardState {
  level : Z;
  m_retPtrs : list Z;
}.

Definition GuardState_init : GuardState := mkGuardState 0 (replicate 8 0).

Definition RecursionGuard_ctor (g : GuardState) : GuardState :=
  mkGuardState (u32 (level g + 1)) (m_retPtrs g).
Definition RecursionGuard_dtor (g : GuardState) : GuardState :=
  mkGuardState (u32 (level g - 1)) (m_retPtrs g).
Definition IsFirst (g : GuardState) : bool := level g =? 1.

(** The lambda [unwindStacktrace] of the constructor. *)
Definition unwind_and_record `{Unwinder} (g : GuardState) (trace : Stacktrace)
    (capacity : Z) (useAbsl : bool) : outcome (GuardState * Stacktrace) :=
  trace ← UnwindStacktrace trace capacity useAbsl 1;
  match GetTrace trace !! 1%nat with
  | Some p => ptrs ← wr (m_retPtrs g) (level g) p; Ret (mkGuardState (level g) ptrs, trace)
  | None => Ret (g, trace)
  end.

(** The constructor: the member [guard] is constructed first. *)
Definition RecursiveStacktrace_ctor `{Unwinder} (self_profiling : bool) (uninit : list Z)
    (g : GuardState) (capacity : Z) (useAbsl : bool) : outcome (GuardState * Stacktrace) :=
  let g := RecursionGuard_ctor g in
  let trace := Stacktrace_default uninit in
  if self_profiling then
    '(g, trace) ← unwind_and_record g trace capacity useAbsl;
    if IsFirst g then Ret (g, trace)
    else
      p ← rd (m_retPtrs g) (u32 (level g - 1));
      let trace := ShrinkByPtr trace p in
      if (1 <? level g) && negb (bool_decide (GetTrace trace = []))
      then Ret (g, ShrinkBySize trace (u64 (zlen (GetTrace trace) - 1)))
      else Ret (g, trace)
  else
    if IsFirst g then
      trace ← UnwindStacktrace trace capacity useAbsl 1; Ret (g, trace)
    else Ret (g, trace).

(** The destructor: its body runs before the member [guard] is destroyed. *)
Definition RecursiveStacktrace_dtor (self_profiling : bool) (g : GuardState) : outcome GuardState :=
  if self_profiling then
    ptrs ← wr (m_retPtrs g) (level g) 0;
    Ret (RecursionGuard_dtor (mkGuardState (level g) ptrs))
  else Ret (RecursionGuard_dtor g).

Definition IsExternal (g : GuardState) : bool := IsFirst g.

(** ** Well-formedness and the visible trace *)

Record st_ok (st : Stacktrace) : Prop := {
  ok_skip : 0 ≤ st_skip st ≤ st_size st;
  ok_size : st_size st ≤ MaxUnwindDepth;
  ok_data : zlen (st_data st) = MaxUnwindDepth;
}.

Create HintDb stacktrace.
#[export] Hint Resolve ok_skip ok_size ok_data : stacktrace.

(** Brings the bounds of a well-formed stacktrace into the context for [lia]. *)
Ltac st_bounds :=
  repeat match goal with
  | H : st_ok ?st |- _ =>
      lazymatch goal with
      | _ : 0 ≤ st_skip st ≤ st_size st |- _ => fail
      | _ => pose proof (ok_skip st H); pose proof (ok_size st H); pose proof (ok_data st H)
      end
  end; unfold MaxUnwindDepth, is_u64 in *.

Lemma GetTrace_eq st : st_ok st →
  GetTrace st = take (Z.to_nat (st_size st - st_skip st)) (drop (Z.to_nat (st_skip st)) (st_data st)).
Proof. intros H. st_bounds. unfold GetTrace. by rewrite u64_small by (unfold is_u64; lia). Qed.

Lemma zlen_GetTrace st : st_ok st → zlen (GetTrace st) = st_size st - st_skip st.
Proof.
  intros H. rewrite GetTrace_eq by done. st_bounds. unfold zlen in *.
  rewrite length_take, length_drop. lia.
Qed.

Lemma GetTrace_bound st : st_ok st → zlen (GetTrace st) ≤ MaxUnwindDepth.
Proof. intros H. rewrite zlen_GetTrace by done. st_bounds. lia. Qed.

Lemma Stacktrace_default_ok uninit : zlen uninit = MaxUnwindDepth → st_ok (Stacktrace_default uninit).
Proof. intros H. split; cbn; unfold MaxUnwindDepth in *; lia. Qed.

Lemma Stacktrace_copy_spec uninit data size :
  zlen uninit = MaxUnwindDepth → 0 ≤ size → Z.min MaxUnwindDepth size ≤ zlen data →
  ∃ st, Stacktrace_copy uninit data size = Ret st ∧ st_ok st
        ∧ GetTrace st = take (Z.to_nat (Z.min MaxUnwindDepth size)) data.
Proof.
  intros Hu Hs Hd. unfold Stacktrace_copy, MaxUnwindDepth in *. zcases. eexists.
  assert (st_ok (mkStacktrace (Z.min 64 size) 0
     (take (Z.to_nat (Z.min 64 size)) data ++ drop (Z.to_nat (Z.min 64 size)) uninit))) as Hok.
  { split; cbn [st_skip st_size st_data]; unfold MaxUnwindDepth; try lia.
    rewrite zlen_app. unfold zlen in *. rewrite length_take, length_drop. lia. }
  split; [done|]. split; [done|]. rewrite GetTrace_eq by done.
  cbn [st_skip st_size st_data]. rewrite drop_0, Z.sub_0_r.
  rewrite take_app_le by (rewrite length_take; unfold zlen in *; lia).
  rewrite take_take. f_equal. lia.
Qed.

Lemma ShrinkBySize_spec st n : st_ok st → 0 ≤ n → is_u64 (st_skip st + n) →
  st_ok (ShrinkBySize st n) ∧ GetTrace (ShrinkBySize st n) = take (Z.to_nat n) (GetTrace st).
Proof.
  intros H Hn Hu. unfold ShrinkBySize. rewrite u64_small by done. st_bounds. zcases.
  - split; [done|]. symmetry. apply take_ge. pose proof (zlen_GetTrace st H). unfold zlen in *. lia.
  - assert (st_ok (mkStacktrace (st_skip st + n) (st_skip st) (st_data st))) as Hok
      by (split; cbn; unfold MaxUnwindDepth; lia).
    split; [done|]. rewrite !GetTrace_eq by done. cbn [st_skip st_size st_data].
    rewrite take_take. f_equal. lia.
Qed.

Lemma Skip_spec st n : st_ok st → 0 ≤ n → is_u64 (st_skip st + n) →
  st_ok (Skip st n) ∧ GetTrace (Skip st n) = drop (Z.to_nat n) (GetTrace st).
Proof.
  intros H Hn Hu. unfold Skip. rewrite u64_small by done. cbv zeta. st_bounds.
  set (k := if st_size st <? st_skip st + n then st_size st else st_skip st + n).
  assert (st_ok (mkStacktrace (st_size st) k (st_data st))) as Hok
    by (subst k; split; cbn; unfold MaxUnwindDepth; zcases; lia).
  split; [done|]. rewrite !GetTrace_eq by done. cbn [st_skip st_size st_data]. subst k. zcases.
  - rewrite Z.sub_diag, take_0, drop_ge; [done|].
    rewrite length_take, length_drop. unfold zlen in *. lia.
  - replace (Z.to_nat (st_size st - st_skip st))
      with (Z.to_nat n + Z.to_nat (st_size st - (st_skip st + n)))%nat by lia.
    rewrite <- take_drop_commute, drop_drop. do 2 f_equal. lia.
Qed.

Lemma write_trace_spec st span : st_ok st → zlen span = zlen (GetTrace st) →
  st_ok (write_trace st span) ∧ GetTrace (write_trace st span) = span.
Proof.
  intros H Hl. rewrite zlen_GetTrace in Hl by done. st_bounds.
  assert (st_ok (write_trace st span)) as Hok.
  { split; cbn; unfold MaxUnwindDepth; try lia. rewrite !zlen_app. unfold zlen in *.
    rewrite length_take, length_drop. lia. }
  split; [done|]. rewrite GetTrace_eq by done. cbn [st_skip st_size st_data write_trace].
  unfold zlen in *. rewrite drop_app_ge by (rewrite length_take; lia).
  rewrite length_take. replace (_ - _)%nat with 0%nat by lia. rewrite drop_0.
  rewrite take_app_le by lia. apply take_ge. lia.
Qed.

(** Writing the span back leaves the skipped frames alone. *)
Lemma write_trace_skipped st span : st_ok st →
  take (Z.to_nat (st_skip st)) (st_data (write_trace st span)) = take (Z.to_nat (st_skip st)) (st_data st).
Proof.
  intros H. st_bounds. cbn. unfold zlen in *. rewrite take_app_le by (rewrite length_take; lia). rewrite take_take. f_equal. lia.
Qed.

Lemma CoarseToFunctionsStart_spec start_ip st : st_ok st →
  st_ok (CoarseToFunctionsStart start_ip st) ∧ GetTrace (CoarseToFunctionsStart start_ip st) = start_ip <$> GetTrace st.
Proof. intros H. apply write_trace_spec; [done|]. unfold zlen. by rewrite length_fmap. Qed.

(** The first index from [i] on at which [ptr] occurs. *)
Lemma ShrinkByPtr_loop_spec st ptr span i :
  ShrinkByPtr_loop st ptr span i = st ∧ ptr ∉ span ∨
  ∃ j, ShrinkByPtr_loop st ptr span i = ShrinkBySize st (i + Z.of_nat j)
       ∧ span !! j = Some ptr ∧ ptr ∉ take j span.
Proof.
  revert i. induction span as [|x span IH]; intros i; cbn [ShrinkByPtr_loop].
  { left. split; [done|]. apply not_elem_of_nil. }
  destruct (Z.eqb_spec x ptr) as [->|Hne].
  { right. exists 0%nat. rewrite Z.add_0_r, take_0. split_and!; try done. apply not_elem_of_nil. }
  destruct (IH (i + 1)) as [[-> Hn]|(j & -> & Hj & Hn)].
  - left. split; [done|]. apply not_elem_of_cons. by split.
  - right. exists (S j). split; [f_equal; lia|]. split; [done|]. cbn.
    apply not_elem_of_cons. by split.
Qed.

(** The trace [ShrinkByPtr] leaves: cut at the first match at index 2 or later. *)
Definition cut_at (ptr : Z) (t : list Z) : list Z :=
  take 2 t ++ match list_find (fun x => x = ptr) (drop 2 t) with
              | Some (j, _) => take j (drop 2 t)
              | None => drop 2 t
              end.

Lemma ShrinkByPtr_spec st ptr : st_ok st →
  st_ok (ShrinkByPtr st ptr) ∧ GetTrace (ShrinkByPtr st ptr) = cut_at ptr (GetTrace st).
Proof.
  intros H. unfold ShrinkByPtr, cut_at. pose proof (GetTrace_bound st H) as Hb.
  destruct (ShrinkByPtr_loop_spec st ptr (drop 2 (GetTrace st)) 2)
    as [[-> Hn]|(j & -> & Hj & Hn)].
  - split; [done|]. replace (list_find _ _) with (@None (nat * Z)); [by rewrite take_drop|].
    symmetry. apply list_find_None, Forall_forall. intros x Hx ->. done.
  - assert (list_find (fun x => x = ptr) (drop 2 (GetTrace st)) = Some (j, ptr)) as ->.
    { apply list_find_Some. split; [done|]. split; [done|]. intros k y Hk Hkj ->.
      apply Hn. apply list_elem_of_lookup. exists k. by rewrite lookup_take_lt. }
    apply lookup_lt_Some in Hj as Hlt. rewrite length_drop in Hlt.
    pose proof (ok_skip st H). pose proof (ok_size st H). unfold zlen, MaxUnwindDepth in *.
    destruct (ShrinkBySize_spec st (2 + Z.of_nat j)) as [Hok ->]; [done|lia|unfold is_u64; lia|].
    split; [done|]. replace (Z.to_nat (2 + Z.of_nat j)) with (2 + j)%nat by lia.
    symmetry. apply take_take_drop.
Qed.

Lemma CollapseRecursion_trace avx st depth : st_ok st → 0 ≤ depth < 2 ^ 32 - 1 →
  ∃ st', Stacktrace_CollapseRecursion avx st depth = Ret st' ∧ st_ok st'
         ∧ GetTrace st' = collapse (GetTrace st) depth.
Proof.
  intros H Hd. unfold Stacktrace_CollapseRecursion. pose proof (GetTrace_bound st H) as Hb.
  destruct (CollapseRecursion_spec avx (GetTrace st) depth Hb Hd)
    as (span & n & -> & Hl & Hn & E). step_ret.
  destruct (write_trace_spec st span H Hl) as [Hok Ht]. pose proof (ok_skip st H).
  pose proof (ok_size st H). unfold MaxUnwindDepth in *.
  destruct (ShrinkBySize_spec (write_trace st span) n Hok) as [Hok' Ht'];
    [lia|unfold is_u64; cbn; lia|].
  eexists. split; [done|]. split; [done|]. by rewrite Ht', Ht.
Qed.

(** ** Unwinding *)

(** [r] frames remain of [found] when trailing nulls are dropped. *)
Definition trimmed (data : list Z) (found r : Z) : Prop :=
  r ≤ found ∧ (0 ≤ found → 0 ≤ r) ∧ (0 < r → get data (r - 1) ≠ 0)
  ∧ ∀ i, 0 ≤ i → r ≤ i < found → get data i = 0.

Lemma trim_nulls_spec data fuel : ∀ found,
  found ≤ Z.of_nat fuel → found ≤ zlen data →
  ∃ r, trim_nulls fuel data found = Ret r ∧ trimmed data found r.
Proof.
  induction fuel as [|fuel IH]; intros found Hf Hl; cbn [trim_nulls].
  { zcases. exists found. split; [done|]. unfold trimmed. split_and!; intros; lia. }
  zcases; [|exists found; split; [done|]; unfold trimmed; split_and!; intros; lia].
  step_rd. destruct (Z.eqb_spec (get data (found - 1)) 0) as [E|E].
  - destruct (IH (found - 1)) as (r & -> & H1 & H2 & H3 & H4); try lia.
    exists r. split; [done|]. unfold trimmed. split_and!; try lia. intros i Hi Hr.
    destruct (decide (i = found - 1)) as [->|]; [done|]. apply H4; lia.
  - exists found. split; [done|]. unfold trimmed. split_and!; intros; (done || lia).
Qed.

Section unwinding.
Context `{UnwinderLaws}.

Lemma UnwindStacktrace_spec uninit capacity absl skip :
  zlen uninit = MaxUnwindDepth → 0 ≤ capacity → 0 ≤ skip →
  let '(data, found) := backtrace absl (Z.min capacity MaxUnwindDepth) uninit in
  ∃ st r, UnwindStacktrace (Stacktrace_default uninit) capacity absl skip = Ret st ∧ st_ok st
    ∧ trimmed data found r ∧ GetTrace st = drop (Z.to_nat skip) (take (Z.to_nat r) data).
Proof.
  intros Hu Hc Hs. unfold UnwindStacktrace. cbn [st_data Stacktrace_default].
  pose proof (backtrace_length absl (Z.min capacity MaxUnwindDepth) uninit) as Hl.
  pose proof (backtrace_bound absl (Z.min capacity MaxUnwindDepth) uninit) as Hb.
  destruct (backtrace absl (Z.min capacity MaxUnwindDepth) uninit) as [data found].
  cbn [fst snd] in *. rewrite Hu in Hl. unfold MaxUnwindDepth in *.
  destruct (trim_nulls_spec data (length data) found) as (r & -> & Hr);
    [unfold zlen in *; lia|lia|]. step_ret. destruct (Hr) as (H1 & H2 & H3 & H4).
  assert (Hlen : length data = 64%nat) by (unfold zlen in *; lia).
  zcases; eexists _, r; (split; [done|]).
  - split; [apply Stacktrace_default_ok; done|]. split; [done|]. cbn.
    rewrite drop_ge; [done|]. rewrite length_take. lia.
  - assert (st_ok (mkStacktrace r skip data)) as Hok
      by (split; cbn; unfold MaxUnwindDepth; lia).
    split; [done|]. split; [done|]. rewrite GetTrace_eq by done. cbn [st_skip st_size st_data].
    rewrite take_drop_commute. do 2 f_equal. lia.
Qed.
(** The guard's level is [k] and its array has its 8 slots. *)
Definition guard_at (k : Z) (g : GuardState) : Prop := level g = k ∧ zlen (m_retPtrs g) = 8.

(** A well-formed trace of machine words. *)
Definition words_ok (st : Stacktrace) : Prop := st_ok st ∧ Forall is_u64 (GetTrace st).

Lemma Unwind_words uninit capacity absl skip :
  zlen uninit = MaxUnwindDepth → Forall is_u64 uninit → 0 ≤ capacity → 0 ≤ skip →
  ∃ st, UnwindStacktrace (Stacktrace_default uninit) capacity absl skip = Ret st ∧ words_ok st.
Proof.
  intros Hu Hw Hc Hs. pose proof (UnwindStacktrace_spec uninit capacity absl skip Hu Hc Hs) as Hsp.
  pose proof (backtrace_words absl (Z.min capacity MaxUnwindDepth) uninit Hw) as Hd.
  destruct (backtrace absl (Z.min capacity MaxUnwindDepth) uninit) as [data found].
  destruct Hsp as (st & r & E & Hok & _ & Ht). exists st. split; [done|]. split; [done|].
  rewrite Ht. by apply Forall_drop, Forall_take.
Qed.

Lemma ShrinkByPtr_words st p : words_ok st → words_ok (ShrinkByPtr st p).
Proof.
  intros [Hok Hw]. destruct (ShrinkByPtr_spec st p Hok) as [Hok' E]. split; [done|].
  rewrite E. unfold cut_at. apply Forall_app. split; [by apply Forall_take|].
  destruct (list_find _ _) as [[j x]|]; [apply Forall_take|]; by apply Forall_drop.
Qed.

Lemma ShrinkBySize_words st n : words_ok st → 0 ≤ n ≤ MaxUnwindDepth → words_ok (ShrinkBySize st n).
Proof.
  intros [Hok Hw] Hn. destruct (ShrinkBySize_spec st n Hok) as [Hok' E]; [lia|st_bounds; lia|].
  split; [done|]. rewrite E. by apply Forall_take.
Qed.

Lemma unwind_and_record_spec uninit g capacity absl k :
  zlen uninit = MaxUnwindDepth → Forall is_u64 uninit → 0 ≤ capacity → guard_at k g → 0 ≤ k < 8 →
  ∃ g' st, unwind_and_record g (Stacktrace_default uninit) capacity absl = Ret (g', st)
    ∧ guard_at k g' ∧ words_ok st.
Proof.
  intros Hu Hw Hc [Hl Hz] Hk. unfold unwind_and_record.
  destruct (Unwind_words uninit capacity absl 1) as (st & -> & Hst); [done..|lia|]. step_ret.
  destruct (GetTrace st !! 1%nat); [|by eexists _, _].
  rewrite wr_in by lia. step_ret. eexists _, _. split; [done|]. split; [|done].
  split; [done|]. cbn. by rewrite zlen_put.
Qed.

Lemma RecursiveStacktrace_ctor_spec sp uninit g capacity absl k :
  zlen uninit = MaxUnwindDepth → Forall is_u64 uninit → 0 ≤ capacity → guard_at k g → 0 ≤ k < 7 →
  ∃ g' st, RecursiveStacktrace_ctor sp uninit g capacity absl = Ret (g', st)
    ∧ guard_at (k + 1) g' ∧ words_ok st.
Proof.
  intros Hu Hw Hc [Hl Hz] Hk. unfold RecursiveStacktrace_ctor.
  assert (Hg : guard_at (k + 1) (RecursionGuard_ctor g)).
  { split; cbn; [|done]. rewrite Hl, u32_small; [done|]. unfold is_u32; lia. }
  destruct sp.
  - destruct (unwind_and_record_spec uninit (RecursionGuard_ctor g) capacity absl (k + 1))
      as (g' & st & -> & [Hl' Hz'] & Hst); [done..|lia|]. step_ret.
    destruct (IsFirst g') eqn:Ef; [by eexists _, _|].
    rewrite rd_in by (rewrite u32_small; unfold is_u32; lia). step_ret.
    set (p := get _ _). pose proof (ShrinkByPtr_words st p Hst) as Hs.
    destruct (_ && _) eqn:Eb; [|by eexists _, _]. eexists _, _. split; [done|]. split; [done|].
    apply ShrinkBySize_words; [done|]. pose proof (GetTrace_bound _ (proj1 Hs)).
    apply andb_true_iff in Eb as [_ Eb]. apply negb_true_iff, bool_decide_eq_false in Eb.
    assert (0 < zlen (GetTrace (ShrinkByPtr st p))).
    { unfold zlen. destruct (GetTrace (ShrinkByPtr st p)); [done|cbn; lia]. }
    rewrite u64_small; unfold is_u64, MaxUnwindDepth in *; lia.
  - destruct (IsFirst _).
    + destruct (Unwind_words uninit capacity absl 1) as (st & -> & Hst); [done..|lia|]. by eexists _, _.
    + eexists _, _. split; [done|]. split; [done|].
      split; [by apply Stacktrace_default_ok|]. constructor.
Qed.

Lemma RecursiveStacktrace_dtor_spec sp g k : guard_at (k + 1) g → 0 ≤ k < 7 →
  ∃ g', RecursiveStacktrace_dtor sp g = Ret g' ∧ guard_at k g'.
Proof.
  intros [Hl Hz] Hk. unfold RecursiveStacktrace_dtor.
  assert (u32 (level g - 1) = k) as E by (rewrite u32_small; unfold is_u32; lia).
  destruct sp; [rewrite wr_in by lia|]; eexists; (split; [reflexivity|]); split; cbn; try done.
  by rewrite zlen_put.
Qed.
End unwinding.

(** ** The order of the cache keys *)

Lemma vector_ltb_trichotomy a b :
  (vector_ltb a b = true ∧ a ≠ b ∧ vector_ltb b a = false) ∨
  (vector_ltb a b = false ∧ a = b ∧ vector_ltb b a = false) ∨
  (vector_ltb a b = false ∧ a ≠ b ∧ vector_ltb b a = true).
Proof.
  revert b. induction a as [|x a IH]; intros [|y b]; cbn; [by auto..|].
  destruct (Z.ltb_spec x y), (Z.ltb_spec y x); try lia.
  - left. split_and!; [done| |done]. intros ?; simplify_eq; lia.
  - right; right. split_and!; [done| |done]. intros ?; simplify_eq; lia.
  - assert (x = y) as -> by lia.
    destruct (IH b) as [(-> & ? & ->)|[(-> & -> & ->)|(-> & ? & ->)]]; [left|right; left|right; right];
      split_and!; try done; intros ?; simplify_eq.
Qed.

Lemma vector_ltb_trans a b c :
  vector_ltb a b = true → vector_ltb b c = true → vector_ltb a c = true.
Proof.
  revert b c. induction a as [|x a IH]; intros [|y b] [|z c]; cbn; try done.
  intros H1 H2.
  destruct (Z.ltb_spec x y), (Z.ltb_spec y x), (Z.ltb_spec y z), (Z.ltb_spec z y);
    try lia; try done; destruct (Z.ltb_spec x z), (Z.ltb_spec z x); try lia; try done.
  by apply (IH b).
Qed.

(** ** Properties *)

(** An unwinder that finds three frames and two nulls. *)
#[export] Instance sample_unwinder : Unwinder := {
  backtrace _ n a := (take (length a) ([8; 5; 6; 0; 0] ++ drop 5 a), Z.min n 5);
}.

Lemma sample_unwinder_laws : UnwinderLaws.
Proof.
  split; intros; cbn -[take drop app].
  - unfold zlen. rewrite length_take, length_app, length_drop. cbn. lia.
  - lia.
  - apply Forall_take, Forall_app. split; [|by apply Forall_drop].
    repeat (constructor; [unfold is_u64; lia|]). constructor.
Qed.

(** C14: the bounds [m_skip <= m_size <= MaxUnwindDepth] are an invariant, and every
    operation acts on the visible frames as the list operation it stands for: the copy of an array
    of [size] frames has its first [MaxUnwindDepth], [Skip] drops a prefix, [ShrinkBySize] takes
    one (both as long as [m_skip] plus the argument fits in 64 bits), [ShrinkByPtr] cuts before the
    first match behind the two innermost frames, [CoarseToFunctionsStart] replaces each frame by the
    start of its function, [CollapseRecursion] collapses in place, for a depth below 2^32 - 1; neither
    of the last two touches skipped frames.  Unwinding always
    finishes and never reads or writes outside the 64 slots; its visible trace is what the unwinder
    found, less trailing null frames (all of them and only null ones) and the [skip]
    innermost frames, and empty when fewer than [skip] frames were found. *)
Theorem stacktrace_operations `{UnwinderLaws} avx st n ptr depth uninit capacity absl skip data size start_ip :
  st_ok st → 0 ≤ n → st_skip st + n < 2 ^ 64 → 0 ≤ depth < 2 ^ 32 - 1 →
  zlen uninit = MaxUnwindDepth → 0 ≤ capacity → 0 ≤ skip → 0 ≤ size ≤ zlen data →
  (∃ st', Stacktrace_copy uninit data size = Ret st' ∧ st_ok st'
          ∧ GetTrace st' = take (Z.to_nat MaxUnwindDepth) (take (Z.to_nat size) data)) ∧
  (st_ok (Skip st n) ∧ GetTrace (Skip st n) = drop (Z.to_nat n) (GetTrace st)) ∧
  (st_ok (ShrinkBySize st n) ∧ GetTrace (ShrinkBySize st n) = take (Z.to_nat n) (GetTrace st)) ∧
  (st_ok (ShrinkByPtr st ptr) ∧ GetTrace (ShrinkByPtr st ptr) = cut_at ptr (GetTrace st)) ∧
  (st_ok (CoarseToFunctionsStart start_ip st)
   ∧ GetTrace (CoarseToFunctionsStart start_ip st) = start_ip <$> GetTrace st
   ∧ take (Z.to_nat (st_skip st)) (st_data (CoarseToFunctionsStart start_ip st)) = take (Z.to_nat (st_skip st)) (st_data st)) ∧
  (∃ st', Stacktrace_CollapseRecursion avx st depth = Ret st' ∧ st_ok st'
          ∧ GetTrace st' = collapse (GetTrace st) depth
          ∧ take (Z.to_nat (st_skip st)) (st_data st') = take (Z.to_nat (st_skip st)) (st_data st)) ∧
  let '(data, found) := backtrace absl (Z.min capacity MaxUnwindDepth) uninit in
  ∃ st' r, Unwind uninit capacity absl skip = Ret st' ∧ st_ok st'
    ∧ trimmed data found r ∧ GetTrace st' = drop (Z.to_nat skip) (take (Z.to_nat r) data).
Proof.
  intros Hst Hn Hu Hd Hz Hc Hs Hsz. assert (is_u64 (st_skip st + n)) by (st_bounds; lia).
  split_and!; try (apply Skip_spec || apply ShrinkBySize_spec || apply ShrinkByPtr_spec || apply CoarseToFunctionsStart_spec
    || apply write_trace_skipped); try done; [| |by apply UnwindStacktrace_spec].
  { destruct (Stacktrace_copy_spec uninit data size Hz) as (st' & E & Hok & Ht); [lia..|]. exists st'. split; [done|]. split; [done|].
    rewrite Ht, take_take. f_equal. unfold MaxUnwindDepth. lia. }
  destruct (CollapseRecursion_trace avx st depth Hst Hd) as (st' & E & Hok & Ht).
  exists st'. split_and!; try done. unfold Stacktrace_CollapseRecursion in E.
  inv_ret. destruct r as [span n']. inv_ret. rewrite <- (write_trace_skipped st span Hst).
  unfold ShrinkBySize. by destruct (_ <=? _).
Qed.

Lemma stacktrace_operations_witness :
  let st := mkStacktrace 6 1 ([9; 1; 2; 2; 3; 4] ++ replicate 58 7) in
  GetTrace (Skip st 2) = [2; 3; 4] ∧ GetTrace (ShrinkBySize st 2) = [1; 2]
  ∧ GetTrace (ShrinkByPtr st 3) = [1; 2; 2]
  ∧ GetTrace (CoarseToFunctionsStart (fun ip => ip * 16) st) = [16; 32; 32; 48; 64]
  ∧ (∃ st', Stacktrace_copy (replicate 64 7) (replicate 100 3) 70 = Ret st' ∧ GetTrace st' = replicate 64 3)
  ∧ (∃ st', Stacktrace_CollapseRecursion true st 2 = Ret st' ∧ GetTrace st' = [1; 2; 3; 4])
  ∧ ∃ st' r, Unwind (replicate 64 7) 32 false 1 = Ret st' ∧ st_ok st'
      ∧ trimmed ([8; 5; 6; 0; 0] ++ replicate 59 7) 5 r
      ∧ GetTrace st' = drop 1 (take (Z.to_nat r) ([8; 5; 6; 0; 0] ++ replicate 59 7)).
Proof.
  destruct (stacktrace_operations (H0 := sample_unwinder_laws) true
    (mkStacktrace 6 1 ([9; 1; 2; 2; 3; 4] ++ replicate 58 7)) 2 3 2 (replicate 64 7) 32 false 1
    (replicate 100 3) 70 (fun ip => ip * 16))
    as ((st0 & E0 & _ & E0') & [_ E1] & [_ E2] & [_ E3] & (_ & E7 & _) & (st' & E4 & _ & E5 & _) & E6).
  - split; ground.
  - lia.
  - ground.
  - ground.
  - done.
  - lia.
  - lia.
  - ground.
  - cbv zeta. split_and!; [rewrite E1|rewrite E2|rewrite E3|rewrite E7|exists st0; split; [exact E0|rewrite E0']|exists st'; split;
      [exact E4|rewrite E5]|exact E6]; reflexivity.
Defined.

(** C15: cache keys identify traces whatever the hash function: the keys of two traces are
    equal exactly when their visible frames are, and [operator<] is a strict total
    order that is consistent with [operator==]. *)
Theorem compressed_keys (xxh : list Z → Z) (s1 s2 : Stacktrace) (r : CompressedStacktrace) :
  let k1 := Stacktrace_Compress xxh s1 r in
  let k2 := Stacktrace_Compress xxh s2 r in
  (CompressedStacktrace_eqb k1 k2 = Stacktrace_eqb s1 s2) ∧
  (CompressedStacktrace_ltb k1 k2 = true ∧ CompressedStacktrace_eqb k1 k2 = false
     ∧ CompressedStacktrace_ltb k2 k1 = false ∨
   CompressedStacktrace_ltb k1 k2 = false ∧ CompressedStacktrace_eqb k1 k2 = true
     ∧ CompressedStacktrace_ltb k2 k1 = false ∨
   CompressedStacktrace_ltb k1 k2 = false ∧ CompressedStacktrace_eqb k1 k2 = false
     ∧ CompressedStacktrace_ltb k2 k1 = true) ∧
  ∀ k3, CompressedStacktrace_ltb k1 k2 = true → CompressedStacktrace_ltb k2 k3 = true →
        CompressedStacktrace_ltb k1 k3 = true.
Proof.
  intros k1 k2.
  assert (E : CompressedStacktrace_eqb k1 k2 = bool_decide (GetTrace s1 = GetTrace s2)).
  { unfold CompressedStacktrace_eqb, k1, k2. cbn.
    destruct (Z.eqb_spec (xxh (GetTrace s1)) (xxh (GetTrace s2))) as [|Hne]; cbn; [done|].
    symmetry. apply bool_decide_false. congruence. }
  rewrite E. split; [done|]. unfold CompressedStacktrace_ltb, k1, k2. cbn. split.
  - rewrite (Z.eqb_sym (xxh (GetTrace s2))).
    destruct (Z.eqb_spec (xxh (GetTrace s1)) (xxh (GetTrace s2))) as [Hh|Hh].
    + destruct (vector_ltb_trichotomy (GetTrace s1) (GetTrace s2))
        as [(-> & ? & ->)|[(-> & ? & ->)|(-> & ? & ->)]];
        [left|right; left|right; right]; rewrite ?bool_decide_true, ?bool_decide_false by done; done.
    + rewrite bool_decide_false by congruence. zcases; auto.
  - intros [d h]. cbn. zcases; intros; try done. by eapply vector_ltb_trans.
Qed.
