(* ===== verification/StacktraceTree.v ===== *)
(** * The prefix tree of stack traces ([impl/stacktrace_tree.h])

    Traces are stored as paths from the outermost frame: an edge from a node, labelled by
    the id of a return address, leads to the node of the longer path.  The abseil and
    standard maps are [gmap]s; node and pointer ids are [uint32_t] and wrap.  The
    callback [onNewNode] threads the state of the client that owns the tree. *)

From Stdlib Require Import ZArith Lia.
From stdpp Require Import base numbers list gmap.
From S2P Require Import Prelude Stacktrace.

Record StacktraceTree := mkStacktraceTree {
  m_nodesCounter : Z;
  m_edges : gmap (Z * Z) Z;
  m_ptrMap : gmap Z Z;
  m_revPtrMap : gmap Z Z;
}.

Definition StacktraceTree_init : StacktraceTree := mkStacktraceTree 1 ∅ ∅ ∅.

(** [insert] of the C++ maps keeps an entry that is already there. *)
Definition map_emplace (m : gmap Z Z) (k v : Z) : gmap Z Z :=
  match m !! k with Some _ => m | None => <[k := v]> m end.

Definition GetPtrId (t : StacktraceTree) (ptrValue : Z) : Z * StacktraceTree :=
  match m_ptrMap t !! ptrValue with
  | Some id => (id, t)
  | None =>
    let ptrId := u32 (Z.of_nat (size (m_ptrMap t))) in
    (ptrId, mkStacktraceTree (m_nodesCounter t) (m_edges t)
              (<[ptrValue := ptrId]> (m_ptrMap t))
              (map_emplace (m_revPtrMap t) ptrId ptrValue))
  end.

(** [at] throws out of range: undefined here. *)
Definition GetPtrValue (t : StacktraceTree) (ptrId : Z) : outcome Z :=
  match m_revPtrMap t !! ptrId with Some p => Ret p | None => Undef end.

Definition GetEdgesCount (t : StacktraceTree) : Z := Z.of_nat (size (m_edges t)).
Definition GetPtrMapSize (t : StacktraceTree) : Z := Z.of_nat (size (m_ptrMap t)).

Section index.
Context {S : Type} (onNewNode : Z → Z → Z → S → S).

(** One iteration of the loop of [index]. *)
Definition index_step (acc : Z * StacktraceTree * S) (ptr : Z) : Z * StacktraceTree * S :=
  let '(nodeId, t, s) := acc in
  if ptr =? 0 then acc
  else
    let '(ptrValueId, t) := GetPtrId t ptr in
    match m_edges t !! (nodeId, ptrValueId) with
    | Some next => (next, t, s)
    | None =>
      let s := onNewNode ptr ptrValueId nodeId s in
      let next := m_nodesCounter t in
      (next, mkStacktraceTree (u32 (m_nodesCounter t + 1))
               (<[(nodeId, ptrValueId) := next]> (m_edges t)) (m_ptrMap t) (m_revPtrMap t), s)
    end.

Definition index (t : StacktraceTree) (s : S) (stacktrace : Stacktrace) : Z * StacktraceTree * S :=
  foldl index_step (0, t, s) (reverse (GetTrace stacktrace)).
End index.

(** ** Representation

    [paths] lists, for every node id, the non-null frames on the way from the root. *)

Record tree_repr_upto (k : Z) (t : StacktraceTree) (paths : list (list Z)) : Prop := {
  tr_counter : m_nodesCounter t = zlen paths;
  tr_root : paths !! 0%nat = Some [];
  tr_nodup : NoDup paths;
  (** pointer ids and pointer values are in bijection *)
  tr_ptr p i : m_ptrMap t !! p = Some i ↔ m_revPtrMap t !! i = Some p;
  tr_ptr_range i p : m_revPtrMap t !! i = Some p → 0 ≤ i < Z.of_nat (size (m_ptrMap t));
  tr_ptr_size : Z.of_nat (size (m_ptrMap t)) ≤ zlen paths + k;
  (** an edge leads from the node of a path to the node of its extension *)
  tr_edges n i m : m_edges t !! (n, i) = Some m ↔
    ∃ path p, 0 ≤ n ∧ 0 ≤ m ∧ paths !! Z.to_nat n = Some path ∧ m_revPtrMap t !! i = Some p
              ∧ paths !! Z.to_nat m = Some (path ++ [p]);
  (** every node but the root extends an older one by a known, non-null address *)
  tr_closed m path p : paths !! m = Some (path ++ [p]) →
    p ≠ 0 ∧ ∃ n i, (n < m)%nat ∧ paths !! n = Some path ∧ m_revPtrMap t !! i = Some p;
}.

Abbreviation tree_repr := (tree_repr_upto 0).

(** Equal paths have equal node ids. *)
Lemma tree_repr_inj k t paths n m path :
  tree_repr_upto k t paths → 0 ≤ n → 0 ≤ m → paths !! Z.to_nat n = Some path →
  paths !! Z.to_nat m = Some path → n = m.
Proof.
  intros Ht Hn Hm H1 H2. pose proof (NoDup_lookup _ _ _ _ (tr_nodup _ _ _ Ht) H1 H2). lia.
Qed.

Lemma tree_repr_init : tree_repr StacktraceTree_init [[]].
Proof.
  split; cbn; try done.
  - apply NoDup_singleton.
  - intros n i m. rewrite lookup_empty. split; [done|].
    intros (path & p & Hn & Hm & _ & Hp & _). by rewrite lookup_empty in Hp.
  - intros m path p H%list_lookup_singleton_Some. destruct H as [_ H]. by destruct path.
Qed.

(** Extending both pointer maps by a fresh pair. *)
Definition add_ptr (t : StacktraceTree) (ptr i : Z) : StacktraceTree :=
  mkStacktraceTree (m_nodesCounter t) (m_edges t)
    (<[ptr := i]> (m_ptrMap t)) (<[i := ptr]> (m_revPtrMap t)).

Lemma add_ptr_repr t paths ptr (i := Z.of_nat (size (m_ptrMap t))) :
  tree_repr t paths → m_ptrMap t !! ptr = None → m_revPtrMap t !! i = None →
  tree_repr_upto 1 (add_ptr t ptr i) paths ∧ ∀ n, m_edges t !! (n, i) = None.
Proof.
  intros Ht Hp Hi. assert (Hs : size (<[ptr := i]> (m_ptrMap t)) = S (size (m_ptrMap t)))
    by by apply map_size_insert_None.
  assert (Hsub : ∀ j p, m_revPtrMap t !! j = Some p → <[i := ptr]> (m_revPtrMap t) !! j = Some p).
  { intros j p Hj. apply lookup_insert_Some. right. split; [congruence|done]. }
  split; [|intros n; apply eq_None_not_Some; intros [m Hm];
    apply (tr_edges _ _ _ Ht) in Hm as (? & ? & _ & _ & _ & ? & _); congruence].
  split; cbn; try apply Ht.
  - intros p j. rewrite !lookup_insert_Some, (tr_ptr _ _ _ Ht). split.
    + intros [[-> ->]|[Hne Hj]]; [by left|right]. split; [congruence|done].
    + intros [[-> ->]|[Hne Hj]]; [by left|right]. split; [|done]. intros <-.
      apply (tr_ptr _ _ _ Ht) in Hj. congruence.
  - intros j p. rewrite Hs, lookup_insert_Some. intros [[<- _]|[_ H]]; [lia|].
    apply (tr_ptr_range _ _ _ Ht) in H. lia.
  - rewrite Hs. pose proof (tr_ptr_size _ _ _ Ht). lia.
  - intros n j m. rewrite (tr_edges _ _ _ Ht). split.
    + intros (path & p & ? & ? & ? & ? & ?). exists path, p. by split_and!; auto.
    + intros (path & p & ? & ? & ? & Hj & Hm). exists path, p. split_and!; try done.
      apply lookup_insert_Some in Hj as [[<- <-]|[_ Hj]]; [|done].
      apply (tr_closed _ _ _ Ht) in Hm as (_ & _ & j & _ & _ & Hj).
      apply (tr_ptr _ _ _ Ht) in Hj. congruence.
  - intros m path p Hm. apply (tr_closed _ _ _ Ht) in Hm as (Hp0 & n & j & ? & ? & ?).
    split; [done|]. exists n, j. by split_and!; auto.
Qed.

(** [GetPtrId] returns an id that stands for the pointer and keeps the meaning of the
    others; for a pointer seen for the first time no edge carries the new id. *)
Lemma GetPtrId_spec t paths ptr : tree_repr t paths → zlen paths < 2 ^ 32 →
  ∃ i t1, GetPtrId t ptr = (i, t1) ∧ m_revPtrMap t1 !! i = Some ptr
    ∧ m_revPtrMap t ⊆ m_revPtrMap t1
    ∧ (tree_repr t1 paths ∨ tree_repr_upto 1 t1 paths ∧ ∀ n, m_edges t1 !! (n, i) = None).
Proof.
  intros Ht Hb. pose proof (tr_ptr_size _ _ _ Ht). unfold GetPtrId.
  destruct (m_ptrMap t !! ptr) as [i|] eqn:E.
  { exists i, t. split; [done|]. apply (tr_ptr _ _ _ Ht) in E. auto. }
  set (i := Z.of_nat (size (m_ptrMap t))).
  assert (Hi : m_revPtrMap t !! i = None).
  { apply eq_None_not_Some. intros [p Hp]. apply (tr_ptr_range _ _ _ Ht) in Hp. lia. }
  rewrite u32_small by (unfold is_u32; lia). unfold map_emplace. fold i. rewrite Hi.
  exists i, (add_ptr t ptr i). split; [done|]. cbn. split; [apply lookup_insert_eq|].
  split; [by apply insert_subseteq|right]. by apply add_ptr_repr.
Qed.

Definition add_edge (t : StacktraceTree) (n i : Z) : StacktraceTree :=
  mkStacktraceTree (u32 (m_nodesCounter t + 1)) (<[(n, i) := m_nodesCounter t]> (m_edges t))
    (m_ptrMap t) (m_revPtrMap t).

Lemma lookup_snoc_Some {A} (l : list A) x i y :
  (l ++ [x]) !! i = Some y ↔ l !! i = Some y ∨ i = length l ∧ x = y.
Proof.
  rewrite lookup_app_Some, list_lookup_singleton_Some. split; [|].
  - intros [?|(? & ? & ->)]; [by left|right]. split; [lia|done].
  - intros [?|[-> ->]]; [by left|right]. split; [lia|]. split; [lia|done].
Qed.

Lemma add_edge_repr t paths n path i ptr :
  tree_repr_upto 1 t paths → zlen paths + 1 < 2 ^ 32 → 0 ≤ n → ptr ≠ 0 →
  paths !! Z.to_nat n = Some path → m_revPtrMap t !! i = Some ptr → m_edges t !! (n, i) = None →
  tree_repr (add_edge t n i) (paths ++ [path ++ [ptr]]).
Proof.
  intros Ht Hb Hn Hp0 Hpath Hi He. pose proof (tr_counter _ _ _ Ht) as Hc.
  assert (Hnew : path ++ [ptr] ∉ paths).
  { intros [m Hm]%list_elem_of_lookup.
    assert (m_edges t !! (n, i) = Some (Z.of_nat m)); [|congruence].
    apply (tr_edges _ _ _ Ht). exists path, ptr. rewrite Nat2Z.id. split_and!; (done || lia). }
  assert (Hlen : ∀ m, 0 ≤ m → Z.to_nat m = length paths ↔ m = zlen paths)
    by (intros; unfold zlen; lia).
  pose proof (lookup_lt_Some _ _ _ Hpath) as Hnlt.
  split; cbn; try apply Ht.
  - rewrite Hc, zlen_app, zlen_cons. change (zlen []) with 0. rewrite u32_small; [lia|].
    unfold is_u32. pose proof (zlen_nonneg paths). lia.
  - apply lookup_app_l_Some, Ht.
  - apply NoDup_app. split; [apply Ht|]. split; [|apply NoDup_singleton].
    intros x Hx ->%list_elem_of_singleton. done.
  - pose proof (tr_ptr_size _ _ _ Ht). rewrite zlen_app, zlen_cons. change (zlen []) with 0. lia.
  - intros n' i' m. rewrite lookup_insert_Some, (tr_edges _ _ _ Ht). split.
    + intros [[E <-]|[_ (path' & p & ? & ? & ? & ? & ?)]].
      * simplify_eq. exists path, ptr. rewrite Hc. pose proof (zlen_nonneg paths).
        rewrite !lookup_snoc_Some. split_and!; auto. right. split; [by apply Hlen|done].
      * exists path', p. rewrite !lookup_snoc_Some. by split_and!; auto.
    + intros (path' & p & Hn' & Hm & Hpa & Hi' & Hma).
      rewrite lookup_snoc_Some in Hma. destruct Hma as [Hma|[E Hma]].
      * destruct (tr_closed _ _ _ Ht _ _ _ Hma) as (_ & k & _ & _ & Hk & _).
        rewrite lookup_snoc_Some in Hpa. destruct Hpa as [Hpa|[_ <-]].
        2: { exfalso. apply Hnew. apply list_elem_of_lookup. by exists k. }
        right. split; [|by exists path', p]. intros ?; simplify_eq. apply Hnew.
        apply list_elem_of_lookup. eauto.
      * apply app_inj_tail in Hma as [<- <-]. rewrite lookup_snoc_Some in Hpa. left.
        destruct Hpa as [Hpa|[_ Hpa]]; [|by apply (f_equal length) in Hpa;
          rewrite length_app in Hpa; cbn in Hpa; lia].
        rewrite (tree_repr_inj _ _ _ n' n path Ht Hn' Hn Hpa Hpath).
        apply (tr_ptr _ _ _ Ht) in Hi, Hi'. assert (i = i') by congruence. subst.
        split; [done|]. apply Hlen in E; [|done]. lia.
  - intros m path' p. rewrite lookup_snoc_Some. intros [Hm|[-> E]].
    + destruct (tr_closed _ _ _ Ht _ _ _ Hm) as (? & k & j & Hk & Hk' & ?).
      split; [done|]. exists k, j. rewrite lookup_snoc_Some. auto.
    + apply app_inj_tail in E as [<- <-]. split; [done|]. exists (Z.to_nat n), i.
      rewrite lookup_snoc_Some. auto.
Qed.

(** ** [index]

    [Inv] is what the client keeps about its own state as nodes are added. *)

Section index_spec.
Context {S : Type} (onNewNode : Z → Z → Z → S → S).
Context (Inv : gmap Z Z → list (list Z) → S → Prop).
Hypothesis Inv_mono : ∀ rev rev' paths s, rev ⊆ rev' → Inv rev paths s → Inv rev' paths s.
Hypothesis Inv_new : ∀ rev paths s n i path ptr,
  Inv rev paths s → 0 ≤ n → paths !! Z.to_nat n = Some path → rev !! i = Some ptr →
  Inv rev (paths ++ [path ++ [ptr]]) (onNewNode ptr i n s).

(** What holds of the tree, the client and the current node within the loop. *)
Record index_ok (paths0 : list (list Z)) (t : StacktraceTree) (s : S) (n : Z)
    (path : list Z) (paths : list (list Z)) : Prop := {
  ix_repr : tree_repr t paths;
  ix_node : 0 ≤ n ∧ paths !! Z.to_nat n = Some path;
  ix_inv : Inv (m_revPtrMap t) paths s;
  ix_old : paths0 `prefix_of` paths;
  ix_count : zlen paths ≤ zlen paths0 + zlen path;
  ix_depth q : q ∈ paths → q ∈ paths0 ∨ q `prefix_of` path;
}.

Lemma index_step_spec paths0 t s n path paths ptr :
  index_ok paths0 t s n path paths → ptr ≠ 0 → zlen paths + 1 < 2 ^ 32 →
  ∃ m t' s' paths', index_step onNewNode (n, t, s) ptr = (m, t', s')
    ∧ index_ok paths0 t' s' m (path ++ [ptr]) paths'.
Proof.
  intros [Ht [Hn Hpath] Hinv Hold Hcount Hdepth] Hp Hb. unfold index_step.
  destruct (Z.eqb_spec ptr 0); [done|].
  destruct (GetPtrId_spec t paths ptr Ht ltac:(lia)) as (i & t1 & -> & Hi & Hsub & Hr).
  apply (Inv_mono _ _ _ _ Hsub) in Hinv.
  assert (Hl : zlen (path ++ [ptr]) = zlen path + 1) by (rewrite zlen_app; done).
  assert (Hd : ∀ q, q ∈ paths → q ∈ paths0 ∨ q `prefix_of` path ++ [ptr]).
  { intros q Hq. destruct (Hdepth q Hq); [by left|right; by apply prefix_app_r]. }
  destruct (m_edges t1 !! (n, i)) as [m|] eqn:Ee.
  - exists m, t1, s, paths. split; [done|].
    destruct Hr as [Hr|[_ Hr]]; [|by rewrite Hr in Ee].
    apply (tr_edges _ _ _ Hr) in Ee as (path' & p & _ & Hm & Hpa & Hi' & Hma).
    simplify_eq. split; try done. lia.
  - exists (m_nodesCounter t1), (add_edge t1 n i), (onNewNode ptr i n s), (paths ++ [path ++ [ptr]]).
    split; [done|].
    assert (Hr1 : tree_repr_upto 1 t1 paths).
    { destruct Hr as [Hr|[Hr _]]; [|done]. pose proof (tr_ptr_size _ _ _ Hr).
      destruct Hr. split; try done. lia. }
    pose proof (tr_counter _ _ _ Hr1) as Hc. pose proof (zlen_nonneg paths).
    split; cbn.
    + by apply add_edge_repr with (path := path) (ptr := ptr).
    + rewrite Hc. split; [done|]. apply lookup_snoc_Some. right. unfold zlen. split; [lia|done].
    + by apply Inv_new.
    + by apply prefix_app_r.
    + rewrite zlen_app, Hl. change (zlen [path ++ [ptr]]) with 1. lia.
    + intros q Hq. apply elem_of_app in Hq as [Hq|Hq]; [by apply Hd|right].
      apply list_elem_of_singleton in Hq as ->. done.
Qed.

Lemma index_fold_spec paths0 l : ∀ t s n path paths,
  index_ok paths0 t s n path paths →
  zlen paths0 + zlen path + zlen l < 2 ^ 32 →
  ∃ m t' s' paths', foldl (index_step onNewNode) (n, t, s) l = (m, t', s')
    ∧ index_ok paths0 t' s' m (path ++ filter (fun p => p ≠ 0) l) paths'.
Proof.
  induction l as [|ptr l IH]; intros t s n path paths Hok Hb; cbn [foldl].
  { exists n, t, s, paths. split; [done|]. by rewrite filter_nil, app_nil_r. }
  rewrite zlen_cons in Hb. pose proof (zlen_nonneg l). pose proof (ix_count _ _ _ _ _ _ Hok).
  rewrite filter_cons. case_decide as Hp.
  - destruct (index_step_spec paths0 t s n path paths ptr Hok Hp ltac:(lia))
      as (m & t1 & s1 & paths1 & -> & H1).
    destruct (IH _ _ _ _ _ H1) as (m' & t' & s' & paths' & -> & H2).
    { rewrite zlen_app. change (zlen [ptr]) with 1. lia. }
    exists m', t', s', paths'. split; [done|]. by rewrite <- app_assoc in H2.
  - subst ptr. destruct (IH _ _ _ _ _ Hok ltac:(lia)) as (m & t' & s' & paths' & E & H2).
    exists m, t', s', paths'. split; [|done]. rewrite <- E. done.
Qed.

(** The frames a node stands for, outermost first. *)
Definition frames (st : Stacktrace) : list Z := filter (fun p => p ≠ 0) (reverse (GetTrace st)).

Lemma index_spec t s paths st :
  tree_repr t paths → Inv (m_revPtrMap t) paths s →
  zlen paths + zlen (GetTrace st) < 2 ^ 32 →
  ∃ m t' s' paths', index onNewNode t s st = (m, t', s') ∧ index_ok paths t' s' m (frames st) paths'.
Proof.
  intros Ht Hinv Hb. unfold index, frames.
  apply (index_fold_spec paths (reverse (GetTrace st)) t s 0 [] paths).
  - split; try done.
    + split; [done|apply (tr_root _ _ _ Ht)].
    + pose proof (zlen_nonneg paths). change (zlen []) with 0. lia.
    + auto.
  - assert (zlen (reverse (GetTrace st)) = zlen (GetTrace st)) as ->
      by (unfold zlen; by rewrite length_reverse). change (zlen []) with 0. lia.
Qed.
End index_spec.

(** The tree determines the paths of its nodes. *)
Lemma tree_repr_unique k l t P Q : tree_repr_upto k t P → tree_repr_upto l t Q → P = Q.
Proof.
  intros HP HQ. assert (Hlen : length P = length Q).
  { pose proof (tr_counter _ _ _ HP). pose proof (tr_counter _ _ _ HQ). unfold zlen in *. lia. }
  assert (Hall : ∀ m path, P !! m = Some path → Q !! m = Some path).
  { induction m as [m IH] using lt_wf_ind. intros path Hm.
    destruct path as [|p path _] using rev_ind.
    - rewrite (NoDup_lookup _ _ _ _ (tr_nodup _ _ _ HP) Hm (tr_root _ _ _ HP)). apply HQ.
    - destruct (tr_closed _ _ _ HP _ _ _ Hm) as (_ & n & i & Hn & Hpath & Hi).
      assert (m_edges t !! (Z.of_nat n, i) = Some (Z.of_nat m)) as He.
      { apply (tr_edges _ _ _ HP). exists path, p. rewrite !Nat2Z.id. split_and!; (done || lia). }
      apply (tr_edges _ _ _ HQ) in He as (path' & p' & _ & _ & Hpath' & Hi' & Hm').
      rewrite !Nat2Z.id in *. rewrite (IH n Hn _ Hpath) in Hpath'. simplify_eq. done. }
  apply list_eq_same_length with (length P); [done..|]. intros i x y Hi Hx Hy.
  apply Hall in Hx. congruence.
Qed.
