(* ===== verification/IStacktraceTracker.v ===== *)
(** * The interface of the stacktrace trackers ([impl/i_stacktrace_tracker.h])

    A tracker maps traces to 32-bit ids and back.  The class [IStacktraceTracker] has
    the virtual functions, [TrackerSpec] is the contract that both implementations
    meet and on which the thread tracker and the writers rely: an id keeps its trace for
    ever, different traces have different ids, and a lookup of a known id returns its
    trace.  A tracker may be full; it then answers with its [unknown] id. *)

From Stdlib Require Import ZArith Lia.
From stdpp Require Import base numbers list.
From S2P Require Import Prelude Algo Stacktrace.

Definition InvalidTraceId : Z := 2 ^ 32 - 1.

Class IStacktraceTracker (T : Type) := {
  InsertStacktrace : T → Stacktrace → outcome (Z * T);
  (** the first argument is the uninitialised array of the object that is returned *)
  GetStacktraceFromId : list Z → T → Z → outcome (option Stacktrace * T);
  StacktracesCount : T → outcome Z;
}.

(** Traces made of machine addresses. *)
Definition addresses (st : Stacktrace) : Prop := Forall is_u64 (GetTrace st).

Class TrackerSpec (T : Type) `{IStacktraceTracker T} := {
  tracker_ok : T → Prop;
  (** there is room for so many more traces *)
  tracker_room : nat → T → Prop;
  (** an id and the trace it stands for *)
  knows : T → Z → list Z → Prop;
  (** the part of a trace the tracker keeps *)
  canon : list Z → list Z;
  unknown : option Z;

  tracker_insert n t st :
    tracker_ok t → tracker_room (S n) t → st_ok st → addresses st →
    ∃ id t', InsertStacktrace t st = Ret (id, t')
      ∧ tracker_ok t' ∧ tracker_room n t' ∧ is_u32 id ∧ id ≠ InvalidTraceId
      ∧ (∀ i tr, knows t i tr → knows t' i tr)
      ∧ (knows t' id (canon (GetTrace st)) ∨ unknown = Some id);
  tracker_room_le n t : tracker_room (S n) t → tracker_room n t;
  tracker_get uninit t id tr :
    tracker_ok t → zlen uninit = MaxUnwindDepth → knows t id tr →
    ∃ st t', GetStacktraceFromId uninit t id = Ret (Some st, t')
      ∧ st_ok st ∧ GetTrace st = tr ∧ tracker_ok t'
      ∧ (∀ n, tracker_room n t → tracker_room n t') ∧ (∀ i tr', knows t' i tr' ↔ knows t i tr');
  tracker_get_none uninit t id :
    tracker_ok t → is_u32 id → (∀ tr, ¬ knows t id tr) →
    GetStacktraceFromId uninit t id = Ret (None, t);
  knows_inj t i j tr : tracker_ok t → knows t i tr → knows t j tr → i = j;
  knows_fun t i tr tr' : tracker_ok t → knows t i tr → knows t i tr' → tr = tr';
  unknown_not_known t id tr : tracker_ok t → unknown = Some id → ¬ knows t id tr;
}.

(** ** A sequence of insertions *)

Section client.
Context {T : Type} `{TrackerSpec T}.

Fixpoint insert_all (t : T) (sts : list Stacktrace) : outcome (list Z * T) :=
  match sts with
  | [] => Ret ([], t)
  | st :: sts =>
    '(id, t) ← InsertStacktrace t st;
    '(ids, t) ← insert_all t sts;
    Ret (id :: ids, t)
  end.

Definition keeps (t t' : T) : Prop := ∀ i tr, knows t i tr → knows t' i tr.

#[export] Instance keeps_preorder : PreOrder keeps.
Proof. split; [by intros ???|]. intros t1 t2 t3 H1 H2 i tr Hk. by apply H2, H1. Qed.

Lemma insert_all_spec sts : ∀ t,
  tracker_ok t → tracker_room (length sts) t → Forall (fun st => st_ok st ∧ addresses st) sts →
  ∃ ids t', insert_all t sts = Ret (ids, t') ∧ tracker_ok t' ∧ keeps t t'
    ∧ Forall2 (fun st id => is_u32 id ∧ id ≠ InvalidTraceId
                 ∧ (knows t' id (canon (GetTrace st)) ∨ unknown = Some id)) sts ids.
Proof.
  induction sts as [|st sts IH]; intros t Hok Hroom Hst; cbn [insert_all].
  { exists [], t. by split_and!. }
  apply Forall_cons in Hst as [[Hs Ha] Hsts].
  destruct (tracker_insert (length sts) t st Hok Hroom Hs Ha)
    as (id & t1 & -> & Hok1 & Hroom1 & Hid & Hinv & Hk1 & Hid1). step_ret.
  destruct (IH t1 Hok1 Hroom1 Hsts) as (ids & t2 & -> & Hok2 & Hk2 & Hids). step_ret.
  exists (id :: ids), t2. split_and!; [done..|by transitivity t1|].
  constructor; [|done]. split; [done|]. split; [done|].
  destruct Hid1; [left|right]; auto.
Qed.

(** The contract in one statement: after any insertions every id that was handed out,
    other than the unknown one, leads back to the canonical form of its trace, and two
    traces share an id exactly when they have the same canonical form. *)
Lemma tracker_round_trip t sts :
  tracker_ok t → tracker_room (length sts) t → Forall (fun st => st_ok st ∧ addresses st) sts →
  ∃ ids t', insert_all t sts = Ret (ids, t') ∧ tracker_ok t' ∧ length ids = length sts ∧
    (∀ k st id, sts !! k = Some st → ids !! k = Some id → unknown ≠ Some id →
       ∀ uninit, zlen uninit = MaxUnwindDepth →
       ∃ st' t'', GetStacktraceFromId uninit t' id = Ret (Some st', t'')
                  ∧ GetTrace st' = canon (GetTrace st)) ∧
    (∀ k l st st' id id', sts !! k = Some st → sts !! l = Some st' →
       ids !! k = Some id → ids !! l = Some id' → unknown ≠ Some id → unknown ≠ Some id' →
       id = id' ↔ canon (GetTrace st) = canon (GetTrace st')).
Proof.
  intros Hok Hroom Hst.
  destruct (insert_all_spec sts t Hok Hroom Hst) as (ids & t' & E & Hok' & _ & Hf).
  assert (Hk : ∀ k st id, sts !! k = Some st → ids !! k = Some id → unknown ≠ Some id →
                knows t' id (canon (GetTrace st))).
  { intros k st id Hs Hi Hu. pose proof (Forall2_lookup_lr _ _ _ _ _ _ Hf Hs Hi) as (_ & _ & [?|?]);
    done. }
  exists ids, t'. split_and!; [done..|symmetry; by eapply Forall2_length| |].
  - intros k st id Hs Hi Hu uninit Hl.
    destruct (tracker_get uninit t' id _ Hok' Hl (Hk _ _ _ Hs Hi Hu)) as (st' & t'' & -> & _ & Ht & _).
    by exists st', t''.
  - intros k l st st' id id' Hs Hs' Hi Hi' Hu Hu'.
    pose proof (Hk _ _ _ Hs Hi Hu) as K1. pose proof (Hk _ _ _ Hs' Hi' Hu') as K2. split.
    + intros <-. by eapply knows_fun.
    + intros Hc. rewrite Hc in K1. by eapply knows_inj.
Qed.
End client.
