(* ===== verification/StacktraceTracker.v ===== *)
(** * The tracker of external traces ([impl/trackers/stacktrace_tracker.h], [.cpp])

    The tracker owns the prefix tree and a deque with the label and the parent of every
    node; the id of a trace is the id of its node.  All operations run under the spin
    lock [m_mt], so each is one step.  The destructor, which dumps the traces to a file,
    is in [Describe], the method [Describe], which logs sizes, in [Shutdown]. *)

From Stdlib Require Import ZArith Lia.
From stdpp Require Import base numbers list gmap.
From S2P Require Import Prelude Algo Stacktrace StacktraceTree IStacktraceTracker.

Record TraceNode := mkTraceNode {
  node_id : Z;       (* StacktraceTree::PtrId id *)
  node_parent : Z;   (* uint32_t parent *)
}.

Record Storage := mkStorage {
  nodes : list TraceNode;
  tree : StacktraceTree;
  leafsId : gset Z;
}.

(** [m_storage] is null until [PostponedConstruct]. *)
Record StacktraceTracker := mkStacktraceTracker { m_storage : option Storage }.

Definition StacktraceTracker_ctor : StacktraceTracker := mkStacktraceTracker None.

Definition PostponedConstruct (t : StacktraceTracker) : StacktraceTracker :=
  let '(id, tree) := GetPtrId StacktraceTree_init 0 in
  mkStacktraceTracker (Some (mkStorage [mkTraceNode id 0] tree ∅)).

Definition deref (t : StacktraceTracker) : outcome Storage :=
  match m_storage t with Some s => Ret s | None => Undef end.

Definition Tracker_StacktracesCount (t : StacktraceTracker) : outcome Z :=
  s ← deref t; Ret (Z.of_nat (size (leafsId s))).

(** The lambda passed to [index]. *)
Definition push_node (_ptrValue ptrId parent : Z) (nodes : list TraceNode) : list TraceNode :=
  nodes ++ [mkTraceNode ptrId parent].

Definition Tracker_InsertStacktrace (t : StacktraceTracker) (trace : Stacktrace)
  : outcome (Z * StacktraceTracker) :=
  s ← deref t;
  let '(nodeId, tree', nodes') := index push_node (tree s) (nodes s) trace in
  Ret (nodeId, mkStacktraceTracker (Some (mkStorage nodes' tree' ({[nodeId]} ∪ leafsId s)))).

(** The walk to the root.  The array has [MaxUnwindDepth] slots: one more step than that
    is a write outside it, so the fuel of [GetStacktrace] is never exhausted first. *)
Fixpoint GetStacktrace_loop (fuel : nat) (s : Storage) (nodeId : Z) (trace : list Z) (traceIt : Z)
  : outcome (list Z * Z) :=
  if nodeId =? 0 then Ret (trace, traceIt)
  else
    match fuel with
    | O => NoFuel
    | S fuel =>
      node ← rd (nodes s) nodeId;
      ptrValue ← GetPtrValue (tree s) (node_id node);
      trace ← wr trace traceIt ptrValue;
      GetStacktrace_loop fuel s (node_parent node) trace (u64 (traceIt + 1))
    end.

Definition GetStacktrace (uninit : list Z) (s : Storage) (traceId : Z) : outcome Stacktrace :=
  '(trace, traceIt) ← GetStacktrace_loop 65 s traceId (replicate 64 0) 0;
  Stacktrace_copy uninit trace traceIt.

Definition Tracker_GetStacktraceFromId (uninit : list Z) (t : StacktraceTracker) (traceId : Z)
  : outcome (option Stacktrace * StacktraceTracker) :=
  s ← deref t;
  if zlen (nodes s) <=? traceId then Ret (None, t)
  else if negb (bool_decide (traceId ∈ leafsId s)) then Ret (None, t)
  else st ← GetStacktrace uninit s traceId; Ret (Some st, t).

#[export] Instance StacktraceTracker_ops : IStacktraceTracker StacktraceTracker := {
  InsertStacktrace := Tracker_InsertStacktrace;
  GetStacktraceFromId := Tracker_GetStacktraceFromId;
  StacktracesCount := Tracker_StacktracesCount;
}.

(** ** Invariant *)

(** The deque describes the paths: the label and the parent of every node. *)
Definition nodes_ok (rev : gmap Z Z) (paths : list (list Z)) (ns : list TraceNode) : Prop :=
  length ns = length paths ∧
  ∀ m path p, paths !! m = Some (path ++ [p]) →
    ∃ node, ns !! m = Some node ∧ rev !! node_id node = Some p
      ∧ 0 ≤ node_parent node ∧ paths !! Z.to_nat (node_parent node) = Some path.

Lemma nodes_ok_mono rev rev' paths ns : rev ⊆ rev' → nodes_ok rev paths ns → nodes_ok rev' paths ns.
Proof.
  intros Hsub [Hl H]. split; [done|]. intros m path p Hm.
  destruct (H m path p Hm) as (node & ? & Hi & ? & ?). exists node. split_and!; try done.
  by apply (lookup_weaken _ _ _ _ Hi).
Qed.

Lemma nodes_ok_new rev paths ns n i path ptr :
  nodes_ok rev paths ns → 0 ≤ n → paths !! Z.to_nat n = Some path → rev !! i = Some ptr →
  nodes_ok rev (paths ++ [path ++ [ptr]]) (push_node ptr i n ns).
Proof.
  intros [Hl H] Hn Hpath Hi. unfold push_node. split; [rewrite !length_app; cbn; lia|].
  intros m path' p Hm. apply lookup_snoc_Some in Hm as [Hm|[-> E]].
  - destruct (H m path' p Hm) as (node & ? & ? & ? & ?). exists node.
    rewrite !lookup_snoc_Some. auto.
  - apply app_inj_tail in E as [<- <-]. exists (mkTraceNode i n). cbn.
    rewrite !lookup_snoc_Some. auto.
Qed.

Record storage_ok (s : Storage) (paths : list (list Z)) : Prop := {
  so_tree : tree_repr (tree s) paths;
  so_nodes : nodes_ok (m_revPtrMap (tree s)) paths (nodes s);
  so_depth path : path ∈ paths → (length path ≤ 64)%nat;
  so_leafs id : id ∈ leafsId s → 0 ≤ id < zlen paths;
}.

Lemma storage_init : ∃ s, m_storage (PostponedConstruct StacktraceTracker_ctor) = Some s
  ∧ storage_ok s [[]].
Proof.
  eexists. split; [reflexivity|].
  destruct (add_ptr_repr StacktraceTree_init [[]] 0 tree_repr_init) as [[] _]; [done..|].
  split; cbn.
  - split; done.
  - split; [done|]. intros m path p Hm%list_lookup_singleton_Some.
    destruct Hm as [_ Hm]. by destruct path.
  - intros path ->%list_elem_of_singleton. cbn. lia.
  - intros id. by rewrite elem_of_empty.
Qed.

(** ** The walk to the root *)

Lemma root_id s paths id :
  storage_ok s paths → 0 ≤ id → paths !! Z.to_nat id = Some [] ↔ id = 0.
Proof.
  intros Hs Hid. split; [|intros ->; apply (tr_root _ _ _ (so_tree _ _ Hs))]. intros H.
  eapply tree_repr_inj; [apply (so_tree _ _ Hs)|lia..|exact H|].
  apply (tr_root _ _ _ (so_tree _ _ Hs)).
Qed.

Lemma take_put_snoc (a : list Z) k x :
  0 ≤ k < zlen a → take (Z.to_nat (k + 1)) (put a k x) = take (Z.to_nat k) a ++ [x].
Proof.
  unfold zlen, put. intros Hk. replace (Z.to_nat (k + 1)) with (S (Z.to_nat k)) by lia.
  rewrite (take_S_r _ _ x) by (apply list_lookup_insert_eq; lia).
  by rewrite take_insert_ge by lia.
Qed.

Lemma GetStacktrace_loop_spec s paths : storage_ok s paths →
  ∀ path fuel id trace k,
  0 ≤ id → paths !! Z.to_nat id = Some path → (length path ≤ fuel)%nat →
  zlen trace = 64 → 0 ≤ k → k + zlen path ≤ 64 →
  ∃ trace', GetStacktrace_loop fuel s id trace k = Ret (trace', k + zlen path)
    ∧ zlen trace' = 64
    ∧ take (Z.to_nat (k + zlen path)) trace' = take (Z.to_nat k) trace ++ reverse path.
Proof.
  intros Hs. destruct (so_nodes _ _ Hs) as [Hlen Hnodes].
  induction path as [|p path IH] using rev_ind; intros fuel id trace k Hid Hpath Hf Ht Hk Hb.
  { apply (root_id s) in Hpath as ->; [|done..]. exists trace. change (zlen []) with 0.
    rewrite Z.add_0_r, reverse_nil, app_nil_r. by destruct fuel. }
  rewrite length_app in Hf. rewrite zlen_app in Hb |- *. change (zlen [p]) with 1 in *.
  destruct fuel as [|fuel]; [cbn in Hf; lia|]. cbn [GetStacktrace_loop].
  destruct (Z.eqb_spec id 0) as [->|Hid0].
  { assert (paths !! Z.to_nat 0 = Some []) by by apply (root_id s). destruct path; simplify_eq. }
  destruct (Hnodes _ _ _ Hpath) as (node & Hn & Hr & Hpar & Hpp).
  rewrite (rd_some _ _ node) by (done || lia). step_ret. unfold GetPtrValue. rewrite Hr. step_ret.
  pose proof (zlen_nonneg path). rewrite wr_in by lia. step_ret.
  rewrite u64_small by (unfold is_u64; lia).
  destruct (IH fuel (node_parent node) (put trace k p) (k + 1)) as (trace' & -> & Hl & Htk);
    try done; [cbn in Hf; lia|by rewrite zlen_put|lia|lia|].
  exists trace'. replace (k + 1 + zlen path) with (k + (zlen path + 1)) in * by lia.
  split_and!; try done. rewrite Htk, take_put_snoc by lia. by rewrite reverse_app, <- app_assoc.
Qed.

Lemma GetStacktrace_spec uninit s paths id path :
  storage_ok s paths → zlen uninit = MaxUnwindDepth → 0 ≤ id → paths !! Z.to_nat id = Some path →
  ∃ st, GetStacktrace uninit s id = Ret st ∧ st_ok st ∧ GetTrace st = reverse path.
Proof.
  intros Hs Hu Hid Hpath. unfold GetStacktrace.
  assert (Hd : (length path ≤ 64)%nat)
    by (apply (so_depth _ _ Hs); apply list_elem_of_lookup; eauto).
  destruct (GetStacktrace_loop_spec s paths Hs path 65 id (replicate 64 0) 0)
    as (trace & -> & Hl & Ht); try done; [lia|unfold zlen; lia|]. step_ret.
  rewrite Z.add_0_l in *. pose proof (zlen_nonneg path).
  destruct (Stacktrace_copy_spec uninit trace (zlen path)) as (st & -> & Hok & E);
    [done|done|unfold MaxUnwindDepth; unfold zlen in *; lia|].
  exists st. split_and!; try done. rewrite E. unfold MaxUnwindDepth.
  rewrite Z.min_r by (unfold zlen; lia). by rewrite Ht.
Qed.

(** ** The contract *)

Definition dyn_ok (t : StacktraceTracker) : Prop :=
  ∃ s paths, m_storage t = Some s ∧ storage_ok s paths.

(** The ids stay below [2^31], where the ids of the static tracker start. *)
Definition dyn_room (n : nat) (t : StacktraceTracker) : Prop :=
  ∃ s, m_storage t = Some s ∧ zlen (nodes s) + 64 * Z.of_nat n < 2 ^ 31.

Definition dyn_knows (t : StacktraceTracker) (id : Z) (tr : list Z) : Prop :=
  ∃ s paths, m_storage t = Some s ∧ storage_ok s paths ∧ id ∈ leafsId s
             ∧ paths !! Z.to_nat id = Some (reverse tr).

Definition dyn_canon (tr : list Z) : list Z := filter (fun p => p ≠ 0) tr.

Lemma filter_reverse (l : list Z) :
  filter (fun p => p ≠ 0) (reverse l) = reverse (filter (fun p => p ≠ 0) l).
Proof.
  induction l as [|x l IH]; [done|]. rewrite reverse_cons, filter_app, IH, !filter_cons.
  case_decide; rewrite filter_nil; [by rewrite reverse_cons|by rewrite app_nil_r].
Qed.

Lemma frames_canon st : frames st = reverse (dyn_canon (GetTrace st)).
Proof. apply filter_reverse. Qed.

Lemma storage_paths s P Q : storage_ok s P → storage_ok s Q → P = Q.
Proof. intros HP HQ. eapply tree_repr_unique; apply so_tree; done. Qed.

Lemma frames_length st : (length (frames st) ≤ length (GetTrace st))%nat.
Proof. unfold frames. rewrite <- (length_reverse (GetTrace st)). apply length_filter. Qed.

Lemma dyn_insert n t st : dyn_ok t → dyn_room (S n) t → st_ok st →
  ∃ id t', Tracker_InsertStacktrace t st = Ret (id, t') ∧ dyn_ok t' ∧ dyn_room n t'
    ∧ 0 ≤ id < 2 ^ 31 ∧ (∀ i tr, dyn_knows t i tr → dyn_knows t' i tr)
    ∧ dyn_knows t' id (dyn_canon (GetTrace st)).
Proof.
  intros (s & paths & Es & Hs) (s' & Es' & Hroom) Hst. simplify_eq.
  unfold Tracker_InsertStacktrace, deref. rewrite Es. step_ret.
  pose proof (GetTrace_bound st Hst) as Hb. unfold MaxUnwindDepth in Hb.
  destruct (so_nodes _ _ Hs) as [Hlen _].
  assert (Hz : zlen (nodes s) = zlen paths) by (unfold zlen; lia).
  destruct (index_spec push_node nodes_ok nodes_ok_mono nodes_ok_new (tree s) (nodes s) paths st)
    as (id & tree' & nodes' & paths' & -> & [Hr [Hid Hp] Hinv Hold Hcount Hdepth]);
    [apply (so_tree _ _ Hs)|apply (so_nodes _ _ Hs)|lia|].
  set (s2 := mkStorage nodes' tree' ({[id]} ∪ leafsId s)).
  pose proof (frames_length st) as Hfl.
  assert (Hlt : id < zlen paths') by (apply lookup_lt_Some in Hp; unfold zlen; lia).
  assert (Hle : zlen paths ≤ zlen paths') by (apply prefix_length in Hold; unfold zlen; lia).
  assert (Hs2 : storage_ok s2 paths').
  { split; try done.
    - intros q Hq. destruct (Hdepth q Hq) as [Hq'|Hq'%prefix_length]; [by apply (so_depth _ _ Hs)|].
      unfold zlen in Hb. lia.
    - intros i [Hi|Hi]%elem_of_union.
      + apply elem_of_singleton in Hi as ->. lia.
      + apply (so_leafs _ _ Hs) in Hi. lia. }
  assert (Hz' : zlen nodes' = zlen paths')
    by (destruct Hinv as [Hl' _]; unfold zlen; lia).
  assert (Hfz : zlen (frames st) ≤ 64) by (unfold zlen in *; lia).
  eexists id, _. split; [done|]. split_and!; try lia.
  - exists s2, paths'. done.
  - exists s2. split; [done|]. subst s2. cbn [nodes]. lia.
  - intros i tr (s3 & P & E3 & HP & Hi & Htr). simplify_eq.
    rewrite (storage_paths s P paths HP Hs) in Htr.
    exists s2, paths'. split_and!; try done; [|by eapply prefix_lookup_Some].
    apply elem_of_union. by right.
  - exists s2, paths'. split_and!; try done; [|by rewrite Hp, frames_canon].
    apply elem_of_union. left. by apply elem_of_singleton.
Qed.

Lemma dyn_get uninit t id tr : zlen uninit = MaxUnwindDepth → dyn_knows t id tr →
  ∃ st, Tracker_GetStacktraceFromId uninit t id = Ret (Some st, t) ∧ st_ok st ∧ GetTrace st = tr.
Proof.
  intros Hu (s & paths & Es & Hs & Hid & Hp). apply (so_leafs _ _ Hs) in Hid as Hb.
  unfold Tracker_GetStacktraceFromId, deref. rewrite Es. step_ret.
  destruct (so_nodes _ _ Hs) as [Hlen _]. assert (zlen (nodes s) = zlen paths) by (unfold zlen; lia).
  zcases. rewrite bool_decide_true by done. cbn [negb].
  destruct (GetStacktrace_spec uninit s paths id _ Hs Hu ltac:(lia) Hp) as (st & -> & Hok & E).
  step_ret. exists st. split_and!; try done. by rewrite E, reverse_involutive.
Qed.

Lemma dyn_get_none uninit t id : dyn_ok t → (∀ tr, ¬ dyn_knows t id tr) →
  Tracker_GetStacktraceFromId uninit t id = Ret (None, t).
Proof.
  intros (s & paths & Es & Hs) Hn. unfold Tracker_GetStacktraceFromId, deref. rewrite Es.
  step_ret. destruct (zlen (nodes s) <=? id); [done|].
  rewrite bool_decide_false; [done|]. intros Hid.
  apply (so_leafs _ _ Hs) in Hid as Hb.
  destruct (lookup_lt_is_Some_2 paths (Z.to_nat id)) as [path Hp]; [unfold zlen in Hb; lia|].
  apply (Hn (reverse path)). exists s, paths. by rewrite reverse_involutive.
Qed.

Lemma dyn_knows_inj t i j tr : dyn_knows t i tr → dyn_knows t j tr → i = j.
Proof.
  intros (s & P & Es & HP & Hi & Hpi) (s' & Q & Es' & HQ & Hj & Hpj). simplify_eq.
  rewrite (storage_paths s Q P HQ HP) in Hpj. apply (so_leafs _ _ HP) in Hi, Hj.
  eapply tree_repr_inj; [apply (so_tree _ _ HP)|lia|lia|done|done].
Qed.

Lemma dyn_knows_fun t i tr tr' : dyn_knows t i tr → dyn_knows t i tr' → tr = tr'.
Proof.
  intros (s & P & Es & HP & Hi & Hpi) (s' & Q & Es' & HQ & Hj & Hpj). simplify_eq.
  rewrite (storage_paths s Q P HQ HP) in Hpj. rewrite Hpi in Hpj.
  apply (f_equal (fmap reverse)) in Hpj. cbn in Hpj. rewrite !reverse_involutive in Hpj. congruence.
Qed.

#[export] Instance StacktraceTracker_spec : TrackerSpec StacktraceTracker.
Proof.
  refine {| tracker_ok := dyn_ok; tracker_room := dyn_room; knows := dyn_knows;
            canon := dyn_canon; unknown := None |}.
  - intros n t st Hok Hroom Hst _.
    destruct (dyn_insert n t st Hok Hroom Hst) as (id & t' & E & ? & ? & ? & ? & ?).
    exists id, t'. cbn. split; [exact E|].
    repeat (split; [done || (unfold is_u32, InvalidTraceId; lia)|]). by left.
  - intros n t (s & Es & Hr). exists s. split; [done|]. lia.
  - intros uninit t id tr Hok Hu Hk. destruct (dyn_get uninit t id tr Hu Hk) as (st & E & ? & ?).
    exists st, t. cbn. split; [exact E|]. split_and!; done.
  - intros uninit t id Hok _. by apply dyn_get_none.
  - intros t i j tr _. apply dyn_knows_inj.
  - intros t i tr tr' _. apply dyn_knows_fun.
  - done.
Defined.

Lemma dyn_init_ok : dyn_ok (PostponedConstruct StacktraceTracker_ctor).
Proof. destruct storage_init as (s & E & H). by exists s, [[]]. Qed.

Lemma dyn_init_room n : 1 + 64 * Z.of_nat n < 2 ^ 31 →
  dyn_room n (PostponedConstruct StacktraceTracker_ctor).
Proof. intros H. eexists. split; [reflexivity|]. cbn [nodes]. change (zlen [_]) with 1. lia. Qed.

(** ** Properties *)

(** C16: the tracker is a faithful store of traces: starting empty, after inserting any
    list of traces (while fewer than 2^31 nodes are used) every returned id leads back
    to the non-null frames of its trace, two traces get the same id exactly when they
    have the same non-null frames, and every walk to the root ends within the 64 slots
    of its buffer. *)
Theorem tracker_insert_get sts :
  Forall (fun st => st_ok st ∧ addresses st) sts → 1 + 64 * zlen sts < 2 ^ 31 →
  ∃ ids t, insert_all (PostponedConstruct StacktraceTracker_ctor) sts = Ret (ids, t)
    ∧ length ids = length sts ∧
    (∀ k st id, sts !! k = Some st → ids !! k = Some id →
       ∀ uninit, zlen uninit = MaxUnwindDepth →
       ∃ st' t', Tracker_GetStacktraceFromId uninit t id = Ret (Some st', t')
                 ∧ GetTrace st' = filter (fun p => p ≠ 0) (GetTrace st)) ∧
    (∀ k l st st' id id', sts !! k = Some st → sts !! l = Some st' →
       ids !! k = Some id → ids !! l = Some id' →
       id = id' ↔ filter (fun p => p ≠ 0) (GetTrace st) = filter (fun p => p ≠ 0) (GetTrace st')).
Proof.
  intros Hst Hb.
  destruct (tracker_round_trip (PostponedConstruct StacktraceTracker_ctor) sts)
    as (ids & t & E & _ & Hl & Hget & Heq); [apply dyn_init_ok|by apply dyn_init_room|done|].
  exists ids, t. split_and!; try done.
  - intros k st id Hs Hi. by apply (Hget k).
  - intros k l st st' id id' Hs Hs' Hi Hi'. by apply (Heq k l).
Qed.

Lemma tracker_insert_get_witness :
  let st l := mkStacktrace (zlen l) 0 (l ++ replicate (64 - length l) 7) in
  let sts := [st [1; 2; 3]; st [5; 2; 3]; st [1; 0; 2; 3]] in
  ∃ ids t, insert_all (PostponedConstruct StacktraceTracker_ctor) sts = Ret (ids, t)
    ∧ length ids = 3%nat ∧
    (∀ k st id, sts !! k = Some st → ids !! k = Some id →
       ∀ uninit, zlen uninit = MaxUnwindDepth →
       ∃ st' t', Tracker_GetStacktraceFromId uninit t id = Ret (Some st', t')
                 ∧ GetTrace st' = filter (fun p => p ≠ 0) (GetTrace st)) ∧
    (∀ k l st st' id id', sts !! k = Some st → sts !! l = Some st' →
       ids !! k = Some id → ids !! l = Some id' →
       id = id' ↔ filter (fun p => p ≠ 0) (GetTrace st) = filter (fun p => p ≠ 0) (GetTrace st')).
Proof.
  intros st sts. apply (tracker_insert_get sts); [|ground].
  repeat constructor; try done; vm_compute; repeat constructor; congruence.
Defined.
