(* ===== verification/StaticTracker.v ===== *)
(** * The tracker of MemHawk's own traces
    ([impl/trackers/stacktrace_tracker_static.h], [.cpp])

    It may not allocate: traces are cut to six frames, packed with [Compress] and
    appended to a fixed array; an element remembers the XXH3 hash (a parameter) and the
    part of the array that holds its trace.  Ids carry the flag in bit 31.  The
    destructor, which dumps the traces to a file, is in [Describe]. *)

From Stdlib Require Import ZArith Lia.
From stdpp Require Import base numbers list.
From S2P Require Import Prelude Compression Algo Stacktrace IStacktraceTracker.

Definition MaxStacktraceLength : Z := 6.
Definition ElementsCount : Z := 512.
Definition StorageSize : Z := ElementsCount * MaxStacktraceLength * 2.
Definition FixedTrackerIdFlag : Z := Z.shiftl 1 31.
Definition UnknownTraceId : Z := Z.lxor (ElementsCount + 1) FixedTrackerIdFlag.

Definition IsFixedTrackerId (traceId : Z) : bool := negb (Z.land traceId FixedTrackerIdFlag =? 0).

(** [trace] is a span into [m_storage], by offset and length. *)
Record TraceElement := mkTraceElement {
  te_hash : Z;
  te_off : Z;
  te_len : Z;
}.

Record StaticTracker := mkStaticTracker {
  st_storage : list Z;              (* std::array<uint32_t, StorageSize> *)
  st_elements : list TraceElement;  (* std::array<TraceElement, ElementsCount> *)
  st_compressed : list Z;           (* std::array<uint32_t, MaxStacktraceLength * 8> *)
  st_decompressed : list Z;         (* std::array<uint64_t, MaxStacktraceLength * 4> *)
  st_count : Z;                     (* uint32_t m_size *)
  st_used : Z;                      (* uint32_t m_storageSize *)
}.

Definition StaticTracker_ctor : StaticTracker :=
  mkStaticTracker (replicate (Z.to_nat StorageSize) 0)
    (replicate (Z.to_nat ElementsCount) (mkTraceElement 0 0 0))
    (replicate (Z.to_nat (MaxStacktraceLength * 8)) 0)
    (replicate (Z.to_nat (MaxStacktraceLength * 4)) 0) 0 0.

(** The words a span of an array refers to. *)
Definition span (a : list Z) (off len : Z) : list Z := take (Z.to_nat len) (drop (Z.to_nat off) a).

Definition element_trace (t : StaticTracker) (e : TraceElement) : list Z :=
  span (st_storage t) (te_off e) (te_len e).

(** [memcpy] of [src] to offset [off]. *)
Definition copy_at (a : list Z) (off : Z) (src : list Z) : outcome (list Z) :=
  if (0 <=? off) && (off + zlen src <=? zlen a)
  then Ret (take (Z.to_nat off) a ++ src ++ drop (Z.to_nat off + length src) a)
  else Undef.

(** [boost::range::find] over the first [m_size] elements: [TraceElement::operator==]
    compares the hash, then the words.  Returns the distance of the iterator. *)
Fixpoint find_element (t : StaticTracker) (hash : Z) (trace : list Z) (es : list TraceElement)
    (i : Z) : Z :=
  match es with
  | [] => i
  | e :: es =>
    if (te_hash e =? hash) && bool_decide (element_trace t e = trace) then i
    else find_element t hash trace es (i + 1)
  end.

Section operations.
Context (XXH3_64bits : list Z → Z).

Definition InsertStacktraceUnlocked (t : StaticTracker) (uspan : list Z)
  : outcome (Z * StaticTracker) :=
  '(buf, compressedSize) ← Compress uspan (replicate (Z.to_nat (MaxStacktraceLength * 8)) 0);
  let t := mkStaticTracker (st_storage t) (st_elements t) buf (st_decompressed t)
             (st_count t) (st_used t) in
  let compressedSpan := take (Z.to_nat compressedSize) buf in
  let hash := XXH3_64bits compressedSpan in
  let cur := find_element t hash compressedSpan (take (Z.to_nat (st_count t)) (st_elements t)) 0 in
  if cur =? st_count t then
    if (u32 (st_used t + compressedSize) <? StorageSize) && (u32 (st_count t + 1) <? ElementsCount)
    then
      elements ← wr (st_elements t) (st_count t) (mkTraceElement hash (st_used t) compressedSize);
      storage ← copy_at (st_storage t) (st_used t) compressedSpan;
      Ret (cur, mkStaticTracker storage elements buf (st_decompressed t)
                  (u32 (st_count t + 1)) (u32 (st_used t + compressedSize)))
    else Ret (Z.lxor UnknownTraceId FixedTrackerIdFlag, t)
  else Ret (cur, t).

Definition Static_InsertStacktrace (t : StaticTracker) (trace : Stacktrace)
  : outcome (Z * StaticTracker) :=
  let sp := GetTrace trace in
  let sp := if MaxStacktraceLength <? zlen sp then take (Z.to_nat MaxStacktraceLength) sp else sp in
  '(traceId, t) ← InsertStacktraceUnlocked t sp;
  Ret (Z.lxor traceId FixedTrackerIdFlag, t).
End operations.

Definition Static_GetStacktrace (uninit : list Z) (t : StaticTracker) (traceId : Z)
  : outcome (Stacktrace * StaticTracker) :=
  e ← rd (st_elements t) traceId;
  out ← Decompress (element_trace t e);
  buf ← copy_at (replicate (Z.to_nat (MaxStacktraceLength * 4)) 0) 0 out;
  st ← Stacktrace_copy uninit buf (zlen out);
  Ret (st, mkStaticTracker (st_storage t) (st_elements t) (st_compressed t) buf
             (st_count t) (st_used t)).

Definition Static_GetStacktraceFromId (uninit : list Z) (t : StaticTracker) (traceId : Z)
  : outcome (option Stacktrace * StaticTracker) :=
  if negb (IsFixedTrackerId traceId) then Ret (None, t)
  else
    let traceId := Z.lxor traceId FixedTrackerIdFlag in
    if st_count t <=? traceId then Ret (None, t)
    else '(st, t) ← Static_GetStacktrace uninit t traceId; Ret (Some st, t).

Definition Static_StacktracesCount (t : StaticTracker) : outcome Z := Ret (st_count t).
Definition GetStorageSize (t : StaticTracker) : Z := st_used t.

Definition StaticTracker_ops (xxh : list Z → Z) : IStacktraceTracker StaticTracker := {|
  InsertStacktrace := Static_InsertStacktrace xxh;
  GetStacktraceFromId := Static_GetStacktraceFromId;
  StacktracesCount := Static_StacktracesCount;
|}.

(** ** Packed traces *)

(** [w] is the packed form of [tr]. *)
Definition packed (tr w : list Z) : Prop :=
  Forall is_u64 tr ∧ zlen tr ≤ MaxStacktraceLength ∧ compressed tr w ∧ zlen w = used_words tr.

(** Six frames take at most 14 words. *)
Lemma max_size_6 n : 0 ≤ n ≤ MaxStacktraceLength → CalculateMaxExpectedSize n ≤ 14.
Proof.
  unfold MaxStacktraceLength. intros Hn. unfold CalculateMaxExpectedSize.
  rewrite CalculateControlBlockSize_eq by lia. rewrite u32_small; unfold is_u32;
    Z.div_mod_to_equations; lia.
Qed.

Lemma packed_size tr w : packed tr w → 1 ≤ zlen w ≤ 14.
Proof.
  intros (_ & Hn & _ & ->). pose proof (zlen_nonneg tr). pose proof (max_size_6 (zlen tr)).
  unfold MaxStacktraceLength in *. pose proof (used_words_bounds tr ltac:(lia)) as (H1 & _). lia.
Qed.

Lemma packed_unique tr w w' : packed tr w → packed tr w' → w = w'.
Proof.
  intros (_ & Hn & C & L) (_ & _ & C' & L'). unfold MaxStacktraceLength in Hn.
  pose proof (compressed_unique tr w w' ltac:(lia) C C') as E.
  rewrite !take_ge in E by (unfold zlen in *; lia). done.
Qed.

Lemma packed_decompress tr w : packed tr w → Decompress w = Ret tr.
Proof.
  intros Hp. pose proof (packed_size tr w Hp). destruct Hp as (Ha & Hn & C & L).
  unfold MaxStacktraceLength in Hn. apply Decompress_spec; (done || lia).
Qed.

Lemma packed_inj tr tr' w : packed tr w → packed tr' w → tr = tr'.
Proof. intros H%packed_decompress H'%packed_decompress. congruence. Qed.

Lemma Compress_packed tr : Forall is_u64 tr → zlen tr ≤ MaxStacktraceLength →
  ∃ buf n, Compress tr (replicate (Z.to_nat (MaxStacktraceLength * 8)) 0) = Ret (buf, n)
    ∧ 0 ≤ n ∧ packed tr (take (Z.to_nat n) buf) ∧ zlen (take (Z.to_nat n) buf) = n.
Proof.
  intros Ha Hn. pose proof (zlen_nonneg tr). pose proof (max_size_6 (zlen tr)).
  unfold MaxStacktraceLength in *. pose proof (used_words_bounds tr ltac:(lia)) as (Hu & Hm & _).
  destruct (Compress_spec tr (replicate 48 0)) as (buf & E & C & L);
    [done|lia|apply words_replicate|rewrite zlen_replicate; lia|].
  exists buf, (used_words tr). split; [done|]. split; [lia|].
  assert (zlen (take (Z.to_nat (used_words tr)) buf) = used_words tr) as Hl.
  { pose proof (comp_fits _ _ C). unfold zlen in *. rewrite length_take. lia. }
  split; [|done]. split_and!; try done. apply compressed_take; [lia|done].
Qed.

(** ** Copying into an array *)

Lemma copy_at_spec a off src : 0 ≤ off → off + zlen src ≤ zlen a →
  ∃ b, copy_at a off src = Ret b ∧ zlen b = zlen a ∧ span b off (zlen src) = src
    ∧ ∀ o l, 0 ≤ o → 0 ≤ l → o + l ≤ off → span b o l = span a o l.
Proof.
  intros Ho Hl. unfold copy_at. destruct (Z.leb_spec 0 off); [|lia].
  destruct (Z.leb_spec (off + zlen src) (zlen a)); [|lia]. cbn [andb].
  assert (Ht : length (take (Z.to_nat off) a) = Z.to_nat off)
    by (rewrite length_take; unfold zlen in *; lia).
  eexists. split; [done|]. split_and!.
  - rewrite !zlen_app. unfold zlen in *. rewrite length_take, length_drop. lia.
  - unfold span. rewrite drop_app_ge, Ht by lia. rewrite Nat.sub_diag, drop_0.
    rewrite take_app_le by (unfold zlen; lia). apply take_ge. unfold zlen. lia.
  - intros o l Ho' Hl' Hol. unfold span. rewrite !take_drop_commute, take_app_le by (rewrite Ht; lia).
    rewrite take_take. do 2 f_equal. lia.
Qed.

(** ** What the tracker promises

    A reference that knows nothing of packed words and hashes: the distinct cut traces, in the
    order in which they came.  A new one is kept while there are fewer than 511 of them and while
    all packed forms take less than [StorageSize] words. *)

Definition stored_words (traces : list (list Z)) : Z := foldr (fun tr n => used_words tr + n) 0 traces.

Definition fits (traces : list (list Z)) (tr : list Z) : bool :=
  (stored_words traces + used_words tr <? StorageSize) && (zlen traces + 1 <? ElementsCount).

(** The id that is answered and what is stored afterwards. *)
Definition store_insert (traces : list (list Z)) (tr : list Z) : Z * list (list Z) :=
  match list_find (eq tr) traces with
  | Some (k, _) => (2 ^ 31 + Z.of_nat k, traces)
  | None => if fits traces tr then (2 ^ 31 + zlen traces, traces ++ [tr]) else (UnknownTraceId, traces)
  end.

(** The answers to a sequence of traces. *)
Fixpoint store_all (traces trs : list (list Z)) : list Z * list (list Z) :=
  match trs with
  | [] => ([], traces)
  | tr :: trs =>
    let '(id, traces) := store_insert traces tr in
    let '(ids, traces) := store_all traces trs in (id :: ids, traces)
  end.

Lemma stored_words_app a b : stored_words (a ++ b) = stored_words a + stored_words b.
Proof. unfold stored_words. induction a as [|x a IH]; cbn [app foldr]; [lia|]. rewrite IH. lia. Qed.

Lemma find_known (tr : list Z) traces k : NoDup traces → traces !! k = Some tr → list_find (eq tr) traces = Some (k, tr).
Proof.
  intros Hnd Hk. apply list_find_Some. split; [done|]. split; [done|]. intros j y Hj Hlt ->.
  pose proof (NoDup_lookup _ _ _ _ Hnd Hk Hj). lia.
Qed.

Lemma find_unknown (tr : list Z) traces : tr ∉ traces → list_find (eq tr) traces = None.
Proof. intros Hn. apply list_find_None, Forall_forall. by intros x Hx ->. Qed.

(** ** Invariant: element [k] holds the packed form of trace [k] *)

Section spec.
Context (xxh : list Z → Z).

Record elem_ok (t : StaticTracker) (tr : list Z) (e : TraceElement) : Prop := {
  eo_span : 0 ≤ te_off e ∧ 0 ≤ te_len e ∧ te_off e + te_len e ≤ st_used t;
  eo_packed : packed tr (element_trace t e);
  eo_hash : te_hash e = xxh (element_trace t e);
}.

Record static_ok (t : StaticTracker) (traces : list (list Z)) : Prop := {
  sk_count : st_count t = zlen traces;
  sk_bound : zlen traces < ElementsCount;
  sk_storage : zlen (st_storage t) = StorageSize;
  sk_elements : zlen (st_elements t) = ElementsCount;
  sk_used : 0 ≤ st_used t ≤ StorageSize;
  sk_words : st_used t = stored_words traces;
  sk_nodup : NoDup traces;
  sk_elems : Forall2 (elem_ok t) traces (take (Z.to_nat (st_count t)) (st_elements t));
}.

Lemma find_element_spec t tr w traces es : packed tr w → Forall2 (elem_ok t) traces es → ∀ i,
  (∃ k, traces !! k = Some tr ∧ find_element t (xxh w) w es i = i + Z.of_nat k) ∨
  ((tr ∉ traces) ∧ find_element t (xxh w) w es i = i + zlen traces).
Proof.
  intros Hw. induction 1 as [|tr' e traces es [_ Hp Hh] _ IH]; intros i; cbn [find_element].
  { right. split; [apply not_elem_of_nil|]. change (zlen []) with 0. lia. }
  destruct (decide (tr' = tr)) as [->|Hne].
  - rewrite (packed_unique tr _ _ Hp Hw) in Hh |- *. left. exists 0%nat. split; [done|].
    rewrite Hh, Z.eqb_refl, bool_decide_true by done. cbn. lia.
  - rewrite (bool_decide_false (element_trace t e = w)).
    2: { intros E. rewrite E in Hp. by apply Hne, (packed_inj tr' tr w). }
    rewrite andb_false_r, zlen_cons. destruct (IH (i + 1)) as [(k & Hk & ->)|[Hn ->]].
    + left. exists (S k). split; [done|]. lia.
    + right. rewrite not_elem_of_cons. split; [done|]. lia.
Qed.

Lemma static_init : static_ok StaticTracker_ctor [].
Proof.
  split; try done. apply NoDup_nil_2.
Qed.

Lemma take_put_end {A} (a : list A) k x : 0 ≤ k < zlen a →
  take (Z.to_nat (k + 1)) (put a k x) = take (Z.to_nat k) a ++ [x].
Proof.
  unfold zlen, put. intros Hk. replace (Z.to_nat (k + 1)) with (S (Z.to_nat k)) by lia.
  rewrite (take_S_r _ _ x) by (apply list_lookup_insert_eq; lia).
  by rewrite take_insert_ge by lia.
Qed.

(** Either the trace is known, or it is appended, or the tracker is full. *)
Lemma insert_unlocked_spec t traces tr :
  static_ok t traces → Forall is_u64 tr → zlen tr ≤ MaxStacktraceLength →
  ∃ id t' traces', InsertStacktraceUnlocked xxh t tr = Ret (id, t') ∧ static_ok t' traces' ∧
    (traces' = traces ∧ (∃ k, id = Z.of_nat k ∧ traces !! k = Some tr) ∨
     traces' = traces ++ [tr] ∧ id = zlen traces ∧ (tr ∉ traces) ∧ fits traces tr = true ∨
     traces' = traces ∧ id = ElementsCount + 1 ∧ (tr ∉ traces) ∧ fits traces tr = false).
Proof.
  intros [Hc Hb Hs He Hu Hw Hnd Hel] Ha Hn. unfold InsertStacktraceUnlocked.
  destruct (Compress_packed tr Ha Hn) as (buf & n & -> & Hn0 & Hp & Hl). step_ret. cbv zeta.
  set (w := take (Z.to_nat n) buf) in *. cbn [st_storage st_elements st_count st_used st_decompressed].
  set (t1 := mkStaticTracker (st_storage t) (st_elements t) buf (st_decompressed t) (st_count t) (st_used t)).
  assert (Hok1 : static_ok t1 traces) by (split; try done; eapply Forall2_impl; [exact Hel|];
    intros ?? []; split; done).
  pose proof (packed_size tr w Hp) as Hsz. assert (Hlen : n = used_words tr) by (destruct Hp as (_ & _ & _ & <-); done).
  unfold fits. rewrite <- Hw, <- Hlen. unfold StorageSize, ElementsCount, MaxStacktraceLength in *.
  pose proof (zlen_nonneg traces).
  assert (Hel1 : Forall2 (elem_ok t1) traces (take (Z.to_nat (st_count t)) (st_elements t)))
    by apply (sk_elems _ _ Hok1).
  destruct (find_element_spec t1 tr w traces _ Hp Hel1 0) as [(k & Hk & ->)|[Hnew ->]].
  { apply lookup_lt_Some in Hk as Hlt. destruct (Z.eqb_spec (0 + Z.of_nat k) (st_count t)) as [E|_].
    { unfold zlen in Hc. lia. }
    exists (Z.of_nat k), t1, traces. split; [done|]. split; [done|]. left. eauto. }
  rewrite Z.add_0_l, Hc, Z.eqb_refl. rewrite !u32_small by (unfold is_u32; lia).
  destruct (_ && _) eqn:Efull; [|exists 513, t1, traces; split; [reflexivity|by auto 10]].
  apply andb_true_iff in Efull as [E1%Z.ltb_lt E2%Z.ltb_lt].
  rewrite wr_in by lia. step_ret.
  destruct (copy_at_spec (st_storage t) (st_used t) w) as (st' & -> & Hl' & Hw' & Hold); [lia|lia|].
  step_ret. eexists _, _, (traces ++ [tr]). split; [done|]. split; [|by auto 10].
  set (t2 := mkStaticTracker _ _ _ _ _ _).
  assert (Hz1 : zlen (traces ++ [tr]) = zlen traces + 1) by (rewrite zlen_app; done).
  split; cbn [t2 st_storage st_elements st_count st_used]; try (unfold StorageSize, ElementsCount, MaxStacktraceLength; lia).
  - by rewrite zlen_put.
  - rewrite stored_words_app. unfold stored_words at 2. cbn [foldr]. lia.
  - apply NoDup_app. split; [done|]. split; [|apply NoDup_singleton].
    intros x Hx ->%list_elem_of_singleton. done.
  - rewrite take_put_end by lia. apply Forall2_app.
    + rewrite <- Hc. eapply Forall2_impl; [exact Hel1|]. intros tr' e [(H1 & H2 & H3) Hp' Hh'].
      cbn in H3. assert (element_trace t2 e = element_trace t1 e) as Et
        by (apply Hold; [done|done|cbn; lia]).
      split; cbn [t2 st_used]; rewrite ?Et; [lia|done|done].
    + constructor; [|constructor]. rewrite <- Hl.
      split; cbn [t2 te_off te_len te_hash st_used]; unfold element_trace; cbn; [lia|by rewrite Hw'..].
Qed.
End spec.

(** ** Ids with the flag *)

Lemma flag_disjoint k : 0 ≤ k < 2 ^ 31 → Z.land k FixedTrackerIdFlag = 0.
Proof.
  intros Hk. change FixedTrackerIdFlag with (2 ^ 31). apply Z.bits_inj'. intros n Hn.
  rewrite Z.land_spec, Z.pow2_bits_eqb, Z.bits_0 by lia.
  destruct (Z.eqb_spec 31 n) as [<-|]; [|apply andb_false_r].
  rewrite andb_true_r. apply Z.testbit_false; [lia|]. by rewrite Z.div_small.
Qed.

Lemma flag_set k : 0 ≤ k < 2 ^ 31 → Z.lxor k FixedTrackerIdFlag = k + 2 ^ 31.
Proof. intros Hk. symmetry. apply Z.add_nocarry_lxor. by apply flag_disjoint. Qed.

Lemma flag_clear k : Z.lxor (Z.lxor k FixedTrackerIdFlag) FixedTrackerIdFlag = k.
Proof. by rewrite Z.lxor_assoc, Z.lxor_nilpotent, Z.lxor_0_r. Qed.

Lemma IsFixedTrackerId_spec id : is_u32 id → IsFixedTrackerId id = (2 ^ 31 <=? id).
Proof.
  intros Hid. unfold IsFixedTrackerId, is_u32 in *.
  destruct (Z.leb_spec (2 ^ 31) id).
  - replace id with (Z.lxor (id - 2 ^ 31) FixedTrackerIdFlag) by (rewrite flag_set; lia).
    assert (Z.land (id - 2 ^ 31) FixedTrackerIdFlag = 0) as E by (apply flag_disjoint; lia).
    rewrite Z.lxor_lor, Z.land_lor_distr_l, Z.land_diag, E by done. reflexivity.
  - by rewrite flag_disjoint by lia.
Qed.

(** ** The contract *)

Section contract.
Context (xxh : list Z → Z).

Definition static_knows (t : StaticTracker) (id : Z) (tr : list Z) : Prop :=
  ∃ traces k, static_ok xxh t traces ∧ id = Z.lxor (Z.of_nat k) FixedTrackerIdFlag
              ∧ traces !! k = Some tr.

Lemma static_traces t P Q : static_ok xxh t P → static_ok xxh t Q → P = Q.
Proof.
  intros HP HQ. apply sk_elems in HP as FP. apply sk_elems in HQ as FQ.
  revert FP FQ. generalize (take (Z.to_nat (st_count t)) (st_elements t)). intros es FP.
  clear HP HQ. revert Q. induction FP as [|tr e P es [_ Hp _] _ IH]; intros Q FQ.
  - by inversion FQ.
  - inversion FQ as [|tr' e' Q' es' [_ Hp' _] FQ']; subst. f_equal; [|by apply IH].
    by apply (packed_inj _ _ _ Hp Hp').
Qed.

(** What a trace is cut to. *)
Definition static_canon (tr : list Z) : list Z := take (Z.to_nat MaxStacktraceLength) tr.

(** An insertion answers and stores what the reference does. *)
Lemma static_insert_exact t traces st : static_ok xxh t traces → addresses st →
  let r := store_insert traces (static_canon (GetTrace st)) in
  ∃ t', Static_InsertStacktrace xxh t st = Ret (r.1, t') ∧ static_ok xxh t' r.2.
Proof.
  intros Hok Ha. unfold Static_InsertStacktrace.
  assert ((if MaxStacktraceLength <? zlen (GetTrace st)
           then take (Z.to_nat MaxStacktraceLength) (GetTrace st) else GetTrace st)
          = static_canon (GetTrace st)) as ->.
  { unfold static_canon, MaxStacktraceLength, zlen. zcases; [done|]. rewrite take_ge; [done|lia]. }
  assert (Hl : zlen (static_canon (GetTrace st)) ≤ MaxStacktraceLength)
    by (unfold static_canon, zlen; rewrite length_take; unfold MaxStacktraceLength; lia).
  destruct (insert_unlocked_spec xxh t traces (static_canon (GetTrace st)) Hok) as
    (k & t' & traces' & -> & Hok' & Hcase); [by apply Forall_take|done|]. step_ret.
  pose proof (sk_bound _ _ _ Hok') as Hb'. pose proof (zlen_nonneg traces). unfold ElementsCount in *.
  exists t'. unfold store_insert.
  destruct Hcase as [(-> & j & -> & Hj)|[(-> & -> & Hn & Hf)|(-> & -> & Hn & Hf)]].
  - rewrite (find_known _ traces j) by (done || apply Hok). apply lookup_lt_Some in Hj as Hlt. unfold zlen in Hb'.
    rewrite flag_set by lia. by rewrite Z.add_comm.
  - rewrite (find_unknown _ traces Hn), Hf. rewrite zlen_app in Hb'. change (zlen [_]) with 1 in Hb'.
    rewrite flag_set by lia. by rewrite Z.add_comm.
  - by rewrite (find_unknown _ traces Hn), Hf.
Qed.

(** What the reference answers is known afterwards, or nothing is. *)
Lemma store_insert_cases traces tr : let r := store_insert traces tr in
  traces `prefix_of` r.2 ∧
  ((∃ k, r.2 !! k = Some tr ∧ r.1 = 2 ^ 31 + Z.of_nat k) ∧ (tr ∈ traces ∨ fits traces tr = true)
   ∨ r.1 = UnknownTraceId ∧ (tr ∉ traces) ∧ fits traces tr = false).
Proof.
  unfold store_insert. destruct (list_find (eq tr) traces) as [[k x]|] eqn:E.
  - apply list_find_Some in E as (Hk & -> & _). split; [done|]. left. split; [by exists k|].
    left. by eapply list_elem_of_lookup_2.
  - apply list_find_None in E. destruct (fits traces tr) eqn:Ef.
    + split; [by apply prefix_app_r|]. left. split; [|by right]. exists (length traces).
      split; [by apply list_lookup_middle|done].
    + split; [done|]. right. split; [done|]. split; [|done]. intros Hin. rewrite Forall_forall in E. by apply (E tr Hin).
Qed.

Lemma static_insert t traces st : static_ok xxh t traces → addresses st →
  ∃ id t' traces', Static_InsertStacktrace xxh t st = Ret (id, t') ∧ static_ok xxh t' traces'
    ∧ 2 ^ 31 ≤ id < 2 ^ 31 + 514 ∧ traces `prefix_of` traces'
    ∧ (static_knows t' id (static_canon (GetTrace st)) ∨ id = UnknownTraceId).
Proof.
  intros Hok Ha. destruct (static_insert_exact t traces st Hok Ha) as (t' & E & Hok').
  destruct (store_insert_cases traces (static_canon (GetTrace st))) as [Hp Hc].
  eexists _, t', _. split; [done|]. split; [done|].
  destruct Hc as [[(k & Hk & E1) _]|[E1 _]].
  - apply lookup_lt_Some in Hk as Hlt. pose proof (sk_bound _ _ _ Hok'). unfold ElementsCount, zlen in *.
    split; [lia|]. split; [done|]. left. eexists _, k. split; [done|]. split; [|done].
    rewrite flag_set by lia. lia.
  - split; [rewrite E1; vm_compute; split; [discriminate|reflexivity]|]. split; [done|]. by right.
Qed.

Lemma static_element uninit t traces k tr : zlen uninit = MaxUnwindDepth → static_ok xxh t traces → traces !! k = Some tr →
  ∃ st t', Static_GetStacktrace uninit t (Z.of_nat k) = Ret (st, t')
    ∧ st_ok st ∧ GetTrace st = tr ∧ ∀ traces, static_ok xxh t traces → static_ok xxh t' traces.
Proof.
  intros Hu Hok Hk. pose proof Hok as [Hc Hb _ He _ _ _ Hel].
  apply lookup_lt_Some in Hk as Hlt. unfold ElementsCount, zlen in *. unfold Static_GetStacktrace.
  destruct (Forall2_lookup_l _ _ _ _ _ Hel Hk) as (e & Hek & [_ Hp _]).
  apply lookup_take_Some in Hek as [Hek _].
  rewrite (rd_some _ _ e) by (rewrite ?Nat2Z.id; done || lia). step_ret.
  rewrite (packed_decompress tr _ Hp). step_ret. destruct Hp as (_ & Hl6 & _).
  unfold MaxStacktraceLength in Hl6. pose proof (zlen_nonneg tr).
  destruct (copy_at_spec (replicate (Z.to_nat (MaxStacktraceLength * 4)) 0) 0 tr)
    as (buf & -> & Hbl & Hbs & _); [lia|rewrite zlen_replicate; unfold MaxStacktraceLength; lia|].
  rewrite zlen_replicate in Hbl. change (Z.of_nat (Z.to_nat (MaxStacktraceLength * 4))) with 24 in Hbl.
  step_ret.
  destruct (Stacktrace_copy_spec uninit buf (zlen tr)) as (st & -> & Hst & Ht);
    [done|done|unfold MaxUnwindDepth; lia|]. step_ret.
  eexists st, _. split; [done|]. split; [done|]. split.
  - rewrite Ht. unfold MaxUnwindDepth. rewrite Z.min_r by lia.
    unfold span in Hbs. by rewrite drop_0 in Hbs.
  - intros tr' [? ? ? ? ? ? ? Hf]. split; try done. eapply Forall2_impl; [exact Hf|].
    intros ?? []; by split.
Qed.

Lemma static_get uninit t id tr : zlen uninit = MaxUnwindDepth → static_knows t id tr →
  ∃ st t', Static_GetStacktraceFromId uninit t id = Ret (Some st, t')
    ∧ st_ok st ∧ GetTrace st = tr ∧ ∀ traces, static_ok xxh t traces → static_ok xxh t' traces.
Proof.
  intros Hu (traces & k & Hok & -> & Hk). pose proof Hok as [Hc Hb _ _ _ _ _ _].
  apply lookup_lt_Some in Hk as Hlt. unfold ElementsCount, zlen in *.
  unfold Static_GetStacktraceFromId.
  rewrite IsFixedTrackerId_spec, flag_set by (rewrite ?flag_set; unfold is_u32; lia).
  rewrite <- (flag_set (Z.of_nat k)), flag_clear by lia.
  destruct (Z.leb_spec (2 ^ 31) (Z.lxor (Z.of_nat k) FixedTrackerIdFlag)) as [_|Hn];
    [|rewrite flag_set in Hn; lia]. cbn [negb].
  zcases. destruct (static_element uninit t traces k tr Hu Hok Hk) as (st & t' & -> & Hst). step_ret. by exists st, t'.
Qed.

Lemma static_get_none uninit t traces id : static_ok xxh t traces → is_u32 id →
  (∀ tr, ¬ static_knows t id tr) → Static_GetStacktraceFromId uninit t id = Ret (None, t).
Proof.
  intros Hok Hid Hn. unfold Static_GetStacktraceFromId. rewrite IsFixedTrackerId_spec by done.
  destruct (Z.leb_spec (2 ^ 31) id); cbn [negb]; [|done].
  destruct (Z.leb_spec (st_count t) (Z.lxor id FixedTrackerIdFlag)) as [|Hlt];
    [done|]. exfalso. set (k := Z.lxor id FixedTrackerIdFlag) in *.
  assert (Hk : k = id - 2 ^ 31).
  { unfold k. replace id with (Z.lxor (id - 2 ^ 31) FixedTrackerIdFlag) at 1
      by (rewrite flag_set; unfold is_u32 in *; lia). apply flag_clear. }
  rewrite (sk_count _ _ _ Hok) in Hlt. unfold zlen in Hlt.
  destruct (lookup_lt_is_Some_2 traces (Z.to_nat k)) as [tr Htr]; [lia|].
  apply (Hn tr). exists traces, (Z.to_nat k). split; [done|]. split; [|done].
  rewrite Z2Nat.id by lia. unfold k. by rewrite flag_clear.
Qed.
End contract.

Lemma static_unknown xxh t tr : ¬ static_knows xxh t UnknownTraceId tr.
Proof.
  intros (P & k & HP & E & Hk).
  apply (f_equal (fun x => Z.lxor x FixedTrackerIdFlag)) in E. rewrite flag_clear in E.
  unfold UnknownTraceId in E. rewrite flag_clear in E. apply lookup_lt_Some in Hk.
  pose proof (sk_bound _ _ _ HP). unfold zlen, ElementsCount in *. lia.
Qed.

#[export] Instance StaticTracker_spec (xxh : list Z → Z) :
  TrackerSpec StaticTracker (H := StaticTracker_ops xxh).
Proof.
  refine {| tracker_ok t := ∃ traces, static_ok xxh t traces; tracker_room _ _ := True;
            knows := static_knows xxh; canon := static_canon; unknown := Some UnknownTraceId |}.
  - intros n t st [traces Hok] _ Hst Ha.
    destruct (static_insert xxh t traces st Hok Ha) as (id & t' & tr' & E & Hok' & Hid & Hpre & Hk).
    exists id, t'. cbn. split; [exact E|]. split; [eauto|]. split; [done|].
    split; [unfold is_u32; lia|]. split; [unfold InvalidTraceId; lia|]. split.
    + intros i tr (P & k & HP & -> & Hk'). rewrite (static_traces xxh t P traces HP Hok) in Hk'.
      exists tr', k. split; [done|]. split; [done|]. by eapply prefix_lookup_Some.
    + destruct Hk as [Hk| ->]; auto.
  - done.
  - intros uninit t id tr [traces Hok] Hu Hk.
    destruct (static_get xxh uninit t id tr Hu Hk) as (st & t' & E & Hst & Ht & Hok').
    exists st, t'. cbn. split; [exact E|]. split_and!; [done..|by exists traces; auto|done|].
    intros i tr'. split; intros (P & k & HP & -> & Hk').
    + rewrite (static_traces xxh t' P traces HP (Hok' _ Hok)) in Hk'. by exists traces, k.
    + exists P, k. auto.
  - intros uninit t id [traces Hok]. by apply (static_get_none xxh _ _ traces).
  - intros t i j tr [traces Hok] (P & k & HP & -> & Hk) (Q & l & HQ & -> & Hl).
    rewrite (static_traces xxh t P Q HP HQ) in Hk.
    by rewrite (NoDup_lookup _ _ _ _ (sk_nodup _ _ _ HQ) Hk Hl).
  - intros t i tr tr' [traces Hok] (P & k & HP & -> & Hk) (Q & l & HQ & E & Hl).
    rewrite (static_traces xxh t P Q HP HQ) in Hk.
    apply (f_equal (fun x => Z.lxor x FixedTrackerIdFlag)) in E. rewrite !flag_clear in E.
    assert (k = l) as -> by lia. congruence.
  - intros t id tr _ Hid. injection Hid as <-. apply static_unknown.
Defined.

(** ** Properties *)

(** A trace that does not fit will not fit later either. *)
Lemma fits_grows traces x tr : zlen x ≤ MaxStacktraceLength → fits traces tr = false → fits (traces ++ [x]) tr = false.
Proof.
  intros Hx. unfold fits. rewrite stored_words_app, zlen_app. change (zlen [x]) with 1.
  unfold stored_words at 3. cbn [foldr]. pose proof (zlen_nonneg x). unfold MaxStacktraceLength in *.
  pose proof (used_words_bounds x ltac:(lia)) as (Hw & _).
  intros [Hf%Z.ltb_ge|Hf%Z.ltb_ge]%andb_false_iff; apply andb_false_iff; [left|right]; apply Z.ltb_ge; lia.
Qed.

Lemma store_all_kept trs : ∀ traces, Forall (fun tr => zlen tr ≤ MaxStacktraceLength) trs →
  let '(ids, kept) := store_all traces trs in
  traces `prefix_of` kept ∧ (∀ tr, tr ∉ traces → fits traces tr = false → tr ∉ kept) ∧
  ∀ k tr id, trs !! k = Some tr → ids !! k = Some id →
    (id = UnknownTraceId ∧ tr ∉ kept) ∨ ∃ j, id = 2 ^ 31 + Z.of_nat j ∧ kept !! j = Some tr.
Proof.
  induction trs as [|x trs IH]; intros traces Hl; cbn [store_all]; [done|].
  apply Forall_cons in Hl as [Hx Hl].
  destruct (store_insert_cases traces x) as [Hp Hc].
  assert (Hnew : ∀ tr, tr ∉ traces → fits traces tr = false →
    (tr ∉ (store_insert traces x).2) ∧ fits (store_insert traces x).2 tr = false).
  { intros tr Hn Hf. unfold store_insert. destruct (list_find _ _) as [[k y]|]; [done|].
    destruct (fits traces x) eqn:Ex; [|done]. cbn [snd]. split; [|by apply fits_grows].
    intros [Hin|Hin]%elem_of_app; [done|]. apply list_elem_of_singleton in Hin. congruence. }
  destruct (store_insert traces x) as [id traces1]. cbn [fst snd] in *. specialize (IH traces1 Hl).
  destruct (store_all traces1 trs) as [ids kept]. destruct IH as (H1 & H2 & H3).
  split; [by transitivity traces1|]. split; [intros tr Hn Hf; apply H2; by apply Hnew|].
  intros [|k] tr i Hk Hi; [|by apply (H3 k)]. cbn in Hk, Hi. injection Hk as ->. injection Hi as ->.
  destruct Hc as [[(j & Hj & E) _]|(E & Hn & Hf)].
  - right. exists j. split; [done|]. by eapply prefix_lookup_Some.
  - left. split; [done|]. apply H2; by apply Hnew.
Qed.

(** The reference over a sequence of insertions. *)
Lemma insert_all_exact xxh sts : ∀ t traces, static_ok xxh t traces → Forall (fun st => st_ok st ∧ addresses st) sts →
  let r := store_all traces ((fun st => static_canon (GetTrace st)) <$> sts) in
  ∃ t', insert_all (H := StaticTracker_ops xxh) t sts = Ret (r.1, t') ∧ static_ok xxh t' r.2.
Proof.
  induction sts as [|st sts IH]; intros t traces Hok Hst; cbn [insert_all fmap list_fmap store_all].
  { by exists t. }
  apply Forall_cons in Hst as [[Hs Ha] Hsts].
  destruct (static_insert_exact xxh t traces st Hok Ha) as (t1 & E1 & Hok1). cbn in E1 |- *. rewrite E1. step_ret.
  destruct (store_insert traces (static_canon (GetTrace st))) as [id traces1]. cbn in Hok1 |- *.
  destruct (IH t1 traces1 Hok1 Hsts) as (t2 & -> & Hok2). step_ret.
  destruct (store_all traces1 _) as [ids traces2]. by exists t2.
Qed.

(** C17: the static tracker is a faithful store of at most 511 traces: whatever is inserted, it
    never writes outside its arrays, and it answers as the reference does, which keeps the
    distinct traces, cut to their six innermost frames, in the order in which they came: the
    flagged position of a trace that is kept, the next position for a new one while fewer than
    511 are kept and the packed forms of all take less than [StorageSize] words, and
    [UnknownTraceId] exactly for a new one otherwise.  A lookup of a position that was answered
    returns these frames, a lookup of [UnknownTraceId] or of any other 32-bit number finds nothing.  This
    holds for every hash function, collisions included. *)
Theorem static_insert_get (xxh : list Z → Z) sts :
  Forall (fun st => st_ok st ∧ addresses st) sts →
  let '(ids, kept) := store_all [] ((fun st => take 6 (GetTrace st)) <$> sts) in
  ∃ t, insert_all (H := StaticTracker_ops xxh) StaticTracker_ctor sts = Ret (ids, t) ∧
    (∀ uninit id, zlen uninit = MaxUnwindDepth → is_u32 id →
       match (if 2 ^ 31 <=? id then kept !! Z.to_nat (id - 2 ^ 31) else None) with
       | Some tr => ∃ st' t', Static_GetStacktraceFromId uninit t id = Ret (Some st', t') ∧ GetTrace st' = tr
       | None => Static_GetStacktraceFromId uninit t id = Ret (None, t)
       end) ∧
    (∀ k st id, sts !! k = Some st → ids !! k = Some id →
       if id =? UnknownTraceId then take 6 (GetTrace st) ∉ kept
       else 2 ^ 31 ≤ id ∧ kept !! Z.to_nat (id - 2 ^ 31) = Some (take 6 (GetTrace st))) ∧
    NoDup kept.
Proof.
  intros Hst. destruct (insert_all_exact xxh sts StaticTracker_ctor [] (static_init xxh) Hst) as (t & E & Hok).
  change ((λ st, take 6 (GetTrace st)) <$> sts) with ((λ st, static_canon (GetTrace st)) <$> sts).
  pose proof (store_all_kept ((λ st, static_canon (GetTrace st)) <$> sts) []) as Hkept.
  destruct (store_all [] _) as [ids kept]. cbn in E, Hok. destruct Hkept as (_ & _ & Hkept).
  { apply Forall_fmap, Forall_true. intros st. unfold static_canon, zlen. cbn. rewrite length_take. unfold MaxStacktraceLength. lia. }
  exists t. split; [exact E|].
  assert (Hknows : ∀ i tr, 0 ≤ i < 2 ^ 31 → kept !! Z.to_nat i = Some tr ↔ static_knows xxh t (i + 2 ^ 31) tr).
  { intros i tr Hi. split.
    - intros Hk. exists kept, (Z.to_nat i). split; [done|]. split; [|done]. rewrite Z2Nat.id, flag_set by lia. done.
    - intros (P & k & HP & Ek & Hk). rewrite (static_traces xxh t P kept HP Hok) in Hk.
      apply lookup_lt_Some in Hk as Hlt. pose proof (sk_bound _ _ _ Hok). unfold zlen, ElementsCount in *.
      rewrite flag_set in Ek by lia. by replace (Z.to_nat i) with k by lia. }
  split_and!; [| |apply Hok].
  - intros uninit id Hu Hid. destruct (Z.leb_spec (2 ^ 31) id) as [Hge|Hlt].
    + specialize (Hknows (id - 2 ^ 31)). rewrite Z.sub_add in Hknows. unfold is_u32 in Hid.
      destruct (kept !! Z.to_nat (id - 2 ^ 31)) as [tr|] eqn:Ek.
      * destruct (static_get xxh uninit t id tr Hu) as (st & t' & -> & _ & Ht & _);
          [by apply Hknows; [lia|]|by exists st, t'].
      * apply (static_get_none xxh uninit t kept id Hok Hid). intros tr Hk. apply Hknows in Hk; [congruence|lia].
    + apply (static_get_none xxh uninit t kept id Hok Hid). intros tr (P & k & HP & -> & Hk).
      apply lookup_lt_Some in Hk. pose proof (sk_bound _ _ _ HP). unfold zlen, ElementsCount in *.
      rewrite flag_set in Hlt by lia. lia.
  - intros k st id Hs Hi.
    destruct (Hkept k (static_canon (GetTrace st)) id) as [[-> Hn]|(j & -> & Hj)];
      [by rewrite list_lookup_fmap, Hs|done|by rewrite Z.eqb_refl|].
    apply lookup_lt_Some in Hj as Hlt. pose proof (sk_bound _ _ _ Hok). unfold zlen, ElementsCount in *.
    assert (EU : UnknownTraceId = 2 ^ 31 + 513) by reflexivity.
    destruct (Z.eqb_spec (2 ^ 31 + Z.of_nat j) UnknownTraceId); [lia|]. split; [lia|].
    by replace (Z.to_nat (2 ^ 31 + Z.of_nat j - 2 ^ 31)) with j by lia.
Qed.

Lemma static_insert_get_witness :
  let st l := mkStacktrace (zlen l) 0 (l ++ replicate (64 - length l) 7) in
  let sts := [st [1; 2; 3]; st [5; 2; 3; 4; 5; 6; 7]; st [5; 2; 3; 4; 5; 6; 8]; st [4]] in
  ∃ t, insert_all (H := StaticTracker_ops (fun _ => 0)) StaticTracker_ctor sts
         = Ret ([2 ^ 31; 2 ^ 31 + 1; 2 ^ 31 + 1; 2 ^ 31 + 2], t)
    ∧ ∃ st' t', Static_GetStacktraceFromId (replicate 64 0) t (2 ^ 31 + 1) = Ret (Some st', t')
                ∧ GetTrace st' = [5; 2; 3; 4; 5; 6].
Proof.
  intros st sts. pose proof (static_insert_get (fun _ => 0) sts) as Hs.
  assert (Hr : store_all [] ((fun st => take 6 (GetTrace st)) <$> sts)
    = ([2 ^ 31; 2 ^ 31 + 1; 2 ^ 31 + 1; 2 ^ 31 + 2], [[1; 2; 3]; [5; 2; 3; 4; 5; 6]; [4]])) by (vm_compute; reflexivity).
  rewrite Hr in Hs. destruct Hs as (t & E & Hg & _).
  - repeat constructor; try done; vm_compute; repeat constructor; congruence.
  - exists t. split; [exact E|]. exact (Hg (replicate 64 0) (2 ^ 31 + 1) eq_refl ltac:(ground)).
Defined.

(** A full tracker refuses new traces and still answers for those it has. *)
Example refused_when_full :
  let kept := (fun k => [Z.of_nat k * 2 ^ 50]) <$> seq 1 511 in
  store_insert kept [3] = (UnknownTraceId, kept) ∧ store_insert kept [7 * 2 ^ 50] = (2 ^ 31 + 6, kept).
Proof. vm_compute. split; reflexivity. Qed.
