(* ===== verification/ThreadTracker.v ===== *)
(** * Per-thread accounting ([impl/thread_tracker.h], [impl/thread_tracker.cpp])

    A [ThreadTracker] maps traces to ids through its LRU cache in front of a shared
    stacktrace tracker and keeps, per trace id, the balance of allocations and
    deallocations since the worker last consumed it.  The methods of [LockedTracker]
    hold the tracker's spin lock from construction to destruction, so each is one step;
    the shared stacktrace tracker is threaded as state.  [PrintTracker], which only
    logs, is in [Shutdown]. *)

From Stdlib Require Import ZArith Lia.
From stdpp Require Import base numbers list gmap.
From S2P Require Import Prelude Algo AllocInfo Stacktrace LruCache IStacktraceTracker StacktraceTracker.

Abbreviation SummariesMap := (gmap Z AllocSummary).

Section ThreadTracker.
Context {I T : Type} `{!SequencedHash I CompressedStacktrace Z} `{!IStacktraceTracker T}.
Context (avx : bool) (XXH3_64bits : list Z → Z).

Record ThreadTracker := mkThreadTracker {
  tt_trackerId : Z;
  tt_collapseDepth : Z;
  tt_totalAllocs : Z;
  tt_totalDeallocs : Z;
  tt_cacheMisses : Z;
  tt_cacheUsages : Z;
  tt_total : AllocSummary;
  tt_lru : LruCache I;
  tt_local : CompressedStacktrace;
  tt_summaries : SummariesMap;
}.

Definition ThreadTracker_ctor (id capacity collapseDepth : Z) : ThreadTracker :=
  mkThreadTracker id collapseDepth 0 0 0 0 AllocSummary_zero (LruCache_ctor capacity)
    (mkCompressedStacktrace [] 0) ∅.

Definition GetTrackerId (t : ThreadTracker) : Z := tt_trackerId t.

(** Replaces what [SaveTraceId] changes. *)
Definition set_cache (t : ThreadTracker) (misses usages : Z) (lru : LruCache I)
    (local : CompressedStacktrace) : ThreadTracker :=
  mkThreadTracker (tt_trackerId t) (tt_collapseDepth t) (tt_totalAllocs t) (tt_totalDeallocs t)
    misses usages (tt_total t) lru local (tt_summaries t).

Definition SaveTraceId (t : ThreadTracker) (bt : T) (info : AllocInfo) (trace : Stacktrace)
  : outcome (AllocInfo * Stacktrace * ThreadTracker * T) :=
  let usages := u64 (tt_cacheUsages t + 1) in
  let local := Stacktrace_Compress XXH3_64bits trace (tt_local t) in
  match Touch (V := Z) (tt_lru t) local with
  | (Some traceId, lru) =>
      Ret (set_traceId info traceId, trace, set_cache t (tt_cacheMisses t) usages lru local, bt)
  | (None, lru) =>
      trace ← Stacktrace_CollapseRecursion avx trace (tt_collapseDepth t);
      let misses := u64 (tt_cacheMisses t + 1) in
      '(traceId, bt) ← InsertStacktrace bt trace;
      '(evicted, lru) ← Insert lru local traceId;
      let local := match evicted with Some e => e | None => mkCompressedStacktrace [] 0 end in
      Ret (set_traceId info traceId, trace, set_cache t misses usages lru local, bt)
  end.

(** [find], and [insert] of a zero summary when there is none. *)
Definition summary_slot (m : SummariesMap) (traceId : Z) : AllocSummary :=
  match m !! traceId with Some s => s | None => AllocSummary_zero end.

Definition Locked_TrackAlloc (t : ThreadTracker) (info : AllocInfo) : ThreadTracker :=
  let stats := summary_slot (tt_summaries t) (info_traceId info) in
  mkThreadTracker (tt_trackerId t) (tt_collapseDepth t) (u64 (tt_totalAllocs t + 1))
    (tt_totalDeallocs t) (tt_cacheMisses t) (tt_cacheUsages t)
    (summary_add_info (tt_total t) info) (tt_lru t) (tt_local t)
    (<[info_traceId info := summary_add_info stats info]> (tt_summaries t)).

Definition Locked_TrackDealloc (t : ThreadTracker) (info : AllocInfo) : ThreadTracker :=
  let stats := summary_slot (tt_summaries t) (info_traceId info) in
  mkThreadTracker (tt_trackerId t) (tt_collapseDepth t) (tt_totalAllocs t)
    (u64 (tt_totalDeallocs t + 1)) (tt_cacheMisses t) (tt_cacheUsages t)
    (summary_sub_info (tt_total t) info) (tt_lru t) (tt_local t)
    (<[info_traceId info := summary_sub_info stats info]> (tt_summaries t)).

(** The map passed in is swapped with the tracker's and what it held is erased; the
    result is the new tracker, the map and the total of the caller. *)
Definition ConsumeDiff (t : ThreadTracker) (summaries : SummariesMap) (total : AllocSummary)
  : ThreadTracker * SummariesMap * AllocSummary :=
  (mkThreadTracker (tt_trackerId t) (tt_collapseDepth t) (tt_totalAllocs t) (tt_totalDeallocs t)
     (tt_cacheMisses t) (tt_cacheUsages t) AllocSummary_zero (tt_lru t) (tt_local t) ∅,
   tt_summaries t,
   summary_add total (tt_total t)).

(** ** The balance a tracker holds *)

(** [es] are the events since the last [ConsumeDiff]. *)
Definition holds (t : ThreadTracker) (es : list event) : Prop :=
  (∀ id, tt_summaries t !! id =
     if bool_decide (of_trace id es = []) then None else Some (wrap (exact_sum (of_trace id es)))) ∧
  tt_total t = wrap (exact_sum es).

Definition track (t : ThreadTracker) (e : event) : ThreadTracker :=
  match e with EvAlloc i => Locked_TrackAlloc t i | EvFree i => Locked_TrackDealloc t i end.

Lemma track_summaries t e :
  tt_summaries (track t e) =
    <[event_trace e := apply_event (summary_slot (tt_summaries t) (event_trace e)) e]> (tt_summaries t).
Proof. by destruct e. Qed.

Lemma track_total t e : tt_total (track t e) = apply_event (tt_total t) e.
Proof. by destruct e. Qed.

Lemma holds_slot t es id : holds t es →
  summary_slot (tt_summaries t) id = wrap (exact_sum (of_trace id es)).
Proof.
  intros [H _]. unfold summary_slot. rewrite H. case_bool_decide as E; [|done].
  by rewrite E.
Qed.

Lemma holds_track t es e : holds t es → holds (track t e) (es ++ [e]).
Proof.
  intros Ht. split.
  - intros id. rewrite track_summaries. destruct (decide (event_trace e = id)) as [<-|Hne].
    + rewrite lookup_insert_eq, (holds_slot t es), of_trace_snoc_eq, apply_event_wrap, exact_sum_snoc
        by done.
      rewrite bool_decide_false; [done|]. by destruct (of_trace _ es).
    + rewrite lookup_insert_ne, of_trace_snoc_ne by done. apply Ht.
  - rewrite track_total, (proj2 Ht), apply_event_wrap. by rewrite exact_sum_snoc.
Qed.

Lemma holds_nil t : tt_summaries t = ∅ → tt_total t = AllocSummary_zero → holds t [].
Proof. intros E1 E2. split; [|done]. intros id. by rewrite E1. Qed.

Lemma holds_ctor id cap depth : holds (ThreadTracker_ctor id cap depth) [].
Proof. by apply holds_nil. Qed.

(** [SaveTraceId] does not touch the balance. *)
Lemma holds_save t bt info trace info' trace' t' bt' es :
  SaveTraceId t bt info trace = Ret (info', trace', t', bt') → holds t es → holds t' es.
Proof.
  unfold SaveTraceId. destruct (Touch _ _) as [[id|] lru]; intros E Ht.
  - simplify_eq. done.
  - inv_ret. destruct r0 as [? ?]. inv_ret. destruct r0 as [? ?]. inv_ret. simplify_eq. done.
Qed.
End ThreadTracker.
Arguments ThreadTracker : clear implicits.

(** ** The cache is transparent *)

Section cache.
Context {I T : Type} `{!SequencedHash I CompressedStacktrace Z}
        `{!SequencedHashLaws I CompressedStacktrace Z}
        `{!IStacktraceTracker T} `{!TrackerSpec T}.
Context (avx : bool) (xxh : list Z → Z).

(** What the id of a trace stands for. *)
Definition denotes (bt : T) (depth : Z) (tr : list Z) (id : Z) : Prop :=
  knows bt id (canon (collapse tr depth)) ∨ unknown = Some id.

Record cache_ok (t : ThreadTracker I) (bt : T) : Prop := {
  co_depth : 0 ≤ tt_collapseDepth t < 2 ^ 32 - 1;
  co_unique : unique (V := Z) (tt_lru t);
  co_lru : lru_ok (K := CompressedStacktrace) (V := Z) (tt_lru t);
  co_entries k id : (k, id) ∈ entries (K := CompressedStacktrace) (V := Z) (tt_lru t) →
    denotes bt (tt_collapseDepth t) (cs_data k) id;
}.

Lemma cache_ok_keeps t bt bt' : keeps bt bt' → cache_ok t bt → cache_ok t bt'.
Proof.
  intros Hk [? ? ? He]. split; try done. intros k id Hin. destruct (He k id Hin); [left|right]; auto.
Qed.

Lemma cache_ok_ctor id cap depth bt : 0 < cap → 0 ≤ depth < 2 ^ 32 - 1 →
  cache_ok (ThreadTracker_ctor id cap depth) bt.
Proof.
  intros Hc Hd. split; cbn; try done.
  - unfold unique, keys, entries. cbn. rewrite sh_order_empty. apply NoDup_nil_2.
  - split; [done|]. cbn. unfold Size. rewrite sh_size_order. cbn. rewrite sh_order_empty. cbn. lia.
  - intros k i. unfold entries. cbn. rewrite sh_order_empty. by intros ?%not_elem_of_nil.
Qed.

(** What [SaveTraceId] guarantees. *)
Record saved (t : ThreadTracker I) (bt : T) (n : nat) (tr : list Z)
    (id : Z) (t' : ThreadTracker I) (bt' : T) : Prop := {
  sv_denotes : denotes bt' (tt_collapseDepth t) tr id;
  sv_cache : cache_ok t' bt';
  sv_tracker : tracker_ok bt';
  sv_room : tracker_room n bt';
  sv_keeps : keeps bt bt';
  sv_depth : tt_collapseDepth t' = tt_collapseDepth t;
}.

Lemma lru_ok_touch (c c' : LruCache I) :
  m_capacity c' = m_capacity c → zlen (entries (V := Z) c') = zlen (entries (V := Z) c) →
  lru_ok (K := CompressedStacktrace) (V := Z) c → lru_ok (K := CompressedStacktrace) (V := Z) c'.
Proof. intros E1 E2 [H1 H2]. split; [lia|]. rewrite size_entries in *. lia. Qed.

Lemma perm_move (l : list (CompressedStacktrace * Z)) k v : NoDup l.*1 → (k, v) ∈ l →
  filter (fun p => p.1 ≠ k) l ++ [(k, v)] ≡ₚ l.
Proof.
  induction l as [|[k' v'] l IH]; intros Hnd Hin; [by apply not_elem_of_nil in Hin|].
  cbn in Hnd. apply NoDup_cons in Hnd as [Hk Hnd]. apply elem_of_cons in Hin as [E|Hin].
  - simplify_eq. rewrite filter_cons_False by (cbn; naive_solver).
    rewrite filter_keys_absent by done. by rewrite Permutation_app_comm.
  - assert (k' ≠ k) by (intros ->; apply Hk, list_elem_of_fmap; by exists (k, v)).
    rewrite filter_cons_True by done. cbn. by rewrite IH.
Qed.

Lemma save_hit t bt n info trace id :
  let k := Stacktrace_Compress xxh trace (tt_local t) in
  cache_ok t bt → tracker_ok bt → tracker_room (S n) bt →
  (k, id) ∈ entries (V := Z) (tt_lru t) →
  ∃ t', SaveTraceId avx xxh t bt info trace = Ret (set_traceId info id, trace, t', bt)
    ∧ saved t bt n (GetTrace trace) id t' bt.
Proof.
  intros k Hc Hok Hroom Hin. pose proof Hc as [Hd Hu Hl He].
  destruct (Touch_hit _ k id Hu Hin) as (lru & Et & Hcap & Een). unfold SaveTraceId. fold k.
  rewrite Et. eexists. split; [done|].
  pose proof (perm_move _ k id Hu Hin) as Hperm. rewrite <- Een in Hperm.
  split; cbn; try done.
  - by apply (He k).
  - split; cbn; try done.
    + unfold unique, keys. by rewrite Hperm.
    + eapply lru_ok_touch; [done| |done]. unfold zlen. by rewrite Hperm.
    + intros k' i Hin'. apply He. by rewrite <- Hperm.
  - by apply tracker_room_le.
Qed.

Lemma save_miss t bt n info trace :
  let k := Stacktrace_Compress xxh trace (tt_local t) in
  cache_ok t bt → tracker_ok bt → tracker_room (S n) bt → st_ok trace → addresses trace →
  k ∉ keys (V := Z) (tt_lru t) →
  ∃ id trace' t' bt',
    SaveTraceId avx xxh t bt info trace = Ret (set_traceId info id, trace', t', bt')
    ∧ saved t bt n (GetTrace trace) id t' bt'.
Proof.
  intros k Hc Hok Hroom Hst Ha Hk. pose proof Hc as [Hd Hu Hl He]. unfold SaveTraceId. fold k.
  rewrite Touch_miss by done.
  destruct (CollapseRecursion_trace avx trace (tt_collapseDepth t) Hst Hd) as (tr' & -> & Hst' & Etr).
  step_ret. assert (Ha' : addresses tr').
  { unfold addresses in *. rewrite Etr. eapply Forall_sublist; [apply collapse_sublist|done]. }
  destruct (tracker_insert n bt tr' Hok Hroom Hst' Ha')
    as (id & bt' & -> & Hok' & Hroom' & _ & _ & Hkeep & Hkn). step_ret. rewrite Etr in Hkn.
  destruct (Insert_new (tt_lru t) k id Hu Hl Hk) as (lru & -> & Een & Hu' & Hl'). step_ret.
  eexists id, tr', _, bt'. split; [done|]. split; cbn; try done.
  split; cbn; try done. intros k' i. rewrite Een, elem_of_app. intros [Hin|Hin].
  - apply (cache_ok_keeps t bt bt' Hkeep) in Hc. apply (co_entries _ _ Hc).
    destruct (_ <=? _); [|done]. destruct (entries (tt_lru t)); [done|by right].
  - apply list_elem_of_singleton in Hin. simplify_eq. done.
Qed.

Lemma SaveTraceId_spec t bt n info trace :
  cache_ok t bt → tracker_ok bt → tracker_room (S n) bt → st_ok trace → addresses trace →
  ∃ id trace' t' bt',
    SaveTraceId avx xxh t bt info trace = Ret (set_traceId info id, trace', t', bt')
    ∧ saved t bt n (GetTrace trace) id t' bt'.
Proof.
  intros Hc Hok Hroom Hst Ha.
  destruct (decide (Stacktrace_Compress xxh trace (tt_local t) ∈ keys (V := Z) (tt_lru t)))
    as [[id Hin]%elem_keys|Hk].
  - destruct (save_hit t bt n info trace id Hc Hok Hroom Hin) as (t' & E & Hs). by exists id, trace, t', bt.
  - by apply save_miss.
Qed.

(** Saving a sequence of traces. *)
Fixpoint save_all (t : ThreadTracker I) (bt : T) (traces : list Stacktrace)
  : outcome (list Z * ThreadTracker I * T) :=
  match traces with
  | [] => Ret ([], t, bt)
  | trace :: traces =>
    '(info, _, t, bt) ← SaveTraceId avx xxh t bt (AllocInfo_ctor 0 0) trace;
    '(ids, t, bt) ← save_all t bt traces;
    Ret (info_traceId info :: ids, t, bt)
  end.

Lemma denotes_keeps bt bt' depth tr id : keeps bt bt' → denotes bt depth tr id → denotes bt' depth tr id.
Proof. intros Hk [?|?]; [left|right]; auto. Qed.

Lemma save_all_spec traces : ∀ t bt,
  cache_ok t bt → tracker_ok bt → tracker_room (length traces) bt →
  Forall (fun st => st_ok st ∧ addresses st) traces →
  ∃ ids t' bt', save_all t bt traces = Ret (ids, t', bt')
    ∧ cache_ok t' bt' ∧ tracker_ok bt' ∧ keeps bt bt'
    ∧ Forall2 (fun st id => denotes bt' (tt_collapseDepth t) (GetTrace st) id) traces ids.
Proof.
  induction traces as [|trace traces IH]; intros t bt Hc Hok Hroom Hst; cbn [save_all].
  { exists [], t, bt. by split_and!. }
  apply Forall_cons in Hst as [[Hs Ha] Hst].
  destruct (SaveTraceId_spec t bt (length traces) (AllocInfo_ctor 0 0) trace Hc Hok Hroom Hs Ha)
    as (id & tr' & t1 & bt1 & -> & [Hd Hc1 Hok1 Hroom1 Hk1 Hdep]). step_ret.
  destruct (IH t1 bt1 Hc1 Hok1 Hroom1 Hst) as (ids & t2 & bt2 & -> & Hc2 & Hok2 & Hk2 & Hf). step_ret.
  exists (id :: ids), t2, bt2. split; [done|]. split; [done|]. split; [done|].
  split; [by transitivity bt1|]. rewrite Hdep in Hf. constructor; [|done]. by eapply denotes_keeps.
Qed.
End cache.

(** ** Accounting over time *)

Section accounting.
Context {I : Type}.

Inductive tracker_op := TrackOp (e : event) | ConsumeOp.

Definition op_event (o : tracker_op) : list event :=
  match o with TrackOp e => [e] | ConsumeOp => [] end.

(** The tracker and the list of what was consumed, each into an empty map and a zero total as
    the worker does. *)
Definition run_op (s : ThreadTracker I * list (SummariesMap * AllocSummary)) (o : tracker_op)
  : ThreadTracker I * list (SummariesMap * AllocSummary) :=
  let '(t, cs) := s in
  match o with
  | TrackOp e => (track t e, cs)
  | ConsumeOp => let '(t, m, total) := ConsumeDiff t ∅ AllocSummary_zero in (t, cs ++ [(m, total)])
  end.

(** What the consumer adds up for one trace, and in total. *)
Definition consumed_of (id : Z) (cs : list (SummariesMap * AllocSummary)) : AllocSummary :=
  foldl (fun acc c => summary_add acc (summary_slot c.1 id)) AllocSummary_zero cs.
Definition consumed_total (cs : list (SummariesMap * AllocSummary)) : AllocSummary :=
  foldl (fun acc c => summary_add acc c.2) AllocSummary_zero cs.

(** [es] has been consumed, [fs] is still in the tracker. *)
Record balanced (t : ThreadTracker I) (cs : list (SummariesMap * AllocSummary))
    (es fs : list event) : Prop := {
  ba_holds : holds t fs;
  ba_trace id : consumed_of id cs = wrap (exact_sum (of_trace id es));
  ba_total : consumed_total cs = wrap (exact_sum es);
}.

Lemma balanced_step t cs es fs o : balanced t cs es fs →
  ∃ es' fs', balanced (run_op (t, cs) o).1 (run_op (t, cs) o).2 es' fs'
             ∧ es' ++ fs' = es ++ fs ++ op_event o.
Proof.
  intros [Hh Ht Htot]. destruct o as [e|]; cbn.
  - exists es, (fs ++ [e]). split; [|done]. split; [by apply holds_track|done|done].
  - exists (es ++ fs), []. split; [|by rewrite !app_nil_r]. split.
    + by apply holds_nil.
    + intros id. unfold consumed_of in *. rewrite foldl_app. cbn. rewrite Ht.
      rewrite (holds_slot t fs id Hh), wrap_add, of_trace_app. by rewrite exact_sum_app.
    + unfold consumed_total in *. rewrite foldl_app. cbn. rewrite Htot, (proj2 Hh).
      rewrite summary_add_zero, wrap_add. by rewrite exact_sum_app.
Qed.

Lemma balanced_run ops : ∀ t cs es fs, balanced t cs es fs →
  ∃ es' fs', balanced (foldl run_op (t, cs) ops).1 (foldl run_op (t, cs) ops).2 es' fs'
             ∧ es' ++ fs' = es ++ fs ++ (ops ≫= op_event).
Proof.
  induction ops as [|o ops IH]; intros t cs es fs Hb; cbn [foldl].
  { exists es, fs. split; [done|]. by rewrite app_nil_r. }
  destruct (balanced_step t cs es fs o Hb) as (es1 & fs1 & Hb1 & E1).
  destruct (run_op (t, cs) o) as [t1 cs1]. destruct (IH t1 cs1 es1 fs1 Hb1) as (es2 & fs2 & Hb2 & E2).
  exists es2, fs2. split; [done|]. rewrite E2. cbn. rewrite !app_assoc in *. by rewrite E1.
Qed.
End accounting.

(** ** Properties *)

(** C18: the LRU cache is transparent.  Whatever sequence of traces is saved through a
    tracker with capacity [cap > 0], hit or miss, no call fails, and the id recorded for
    a trace stands for its recursion-collapsed form in the stacktrace tracker: looking
    the id up later returns exactly that trace (or the id is the tracker's unknown id).
    Holds for every container, hash function, instruction set and stacktrace tracker
    that meets its interface. *)
Theorem save_trace_ids {I T} `{!SequencedHash I CompressedStacktrace Z}
    `{!SequencedHashLaws I CompressedStacktrace Z} `{!IStacktraceTracker T} `{!TrackerSpec T}
    (avx : bool) (xxh : list Z → Z) (id cap depth : Z) (bt : T) (traces : list Stacktrace) :
  0 < cap → 0 ≤ depth < 2 ^ 32 - 1 → tracker_ok bt → tracker_room (length traces) bt →
  Forall (fun st => st_ok st ∧ addresses st) traces →
  ∃ ids t' bt',
    save_all avx xxh (ThreadTracker_ctor (I := I) id cap depth) bt traces = Ret (ids, t', bt')
    ∧ length ids = length traces
    ∧ ∀ k trace i, traces !! k = Some trace → ids !! k = Some i →
        unknown = Some i ∨
        ∀ uninit, zlen uninit = MaxUnwindDepth →
        ∃ st bt'', GetStacktraceFromId uninit bt' i = Ret (Some st, bt'')
                   ∧ GetTrace st = canon (collapse (GetTrace trace) depth).
Proof.
  intros Hc Hd Hok Hroom Hst.
  destruct (save_all_spec (I := I) avx xxh traces (ThreadTracker_ctor id cap depth) bt)
    as (ids & t' & bt' & E & _ & Hok' & _ & Hf); [by apply cache_ok_ctor|done..|].
  exists ids, t', bt'. split; [done|]. split; [symmetry; by eapply Forall2_length|].
  intros k trace i Hk Hi. destruct (Forall2_lookup_lr _ _ _ _ _ _ Hf Hk Hi) as [Hkn|Hu]; [right|by left].
  intros uninit Hu. destruct (tracker_get uninit bt' i _ Hok' Hu Hkn) as (st & bt'' & ? & _ & ? & _).
  by exists st, bt''.
Qed.

Lemma save_trace_ids_witness :
  let st l := mkStacktrace (zlen l) 0 (l ++ replicate (64 - length l) 7) in
  let traces := [st [1; 2; 2; 3]; st [4; 3]; st [1; 2; 2; 3]] in
  ∃ ids t' bt',
    save_all false (fun _ => 0) (ThreadTracker_ctor (I := list (CompressedStacktrace * Z)) 0 1 2)
      (PostponedConstruct StacktraceTracker_ctor) traces = Ret (ids, t', bt')
    ∧ length ids = 3%nat
    ∧ ∀ k trace i, traces !! k = Some trace → ids !! k = Some i →
        unknown = Some i ∨
        ∀ uninit, zlen uninit = MaxUnwindDepth →
        ∃ st bt'', GetStacktraceFromId uninit bt' i = Ret (Some st, bt'')
                   ∧ GetTrace st = canon (collapse (GetTrace trace) 2).
Proof.
  intros st traces.
  apply (save_trace_ids (I := list (CompressedStacktrace * Z)) false (fun _ => 0) 0 1 2
           (PostponedConstruct StacktraceTracker_ctor) traces).
  - lia.
  - lia.
  - apply dyn_init_ok.
  - apply dyn_init_room. ground.
  - repeat constructor; try done; vm_compute; repeat constructor; congruence.
Defined.

(** C19: accounting loses nothing and invents nothing.  For any interleaving of tracked
    allocations and deallocations with [ConsumeDiff] by the worker, what has been
    consumed plus what the tracker still holds is, for every trace and in total, the
    exact balance of the events represented in 64 bits; it is the exact balance itself
    when that fits the counters. *)
Theorem consume_diff_exact {I} `{!SequencedHash I CompressedStacktrace Z}
    (tid cap depth : Z) (ops : list tracker_op) (id : Z) :
  let '(t, cs) := foldl run_op (ThreadTracker_ctor (I := I) tid cap depth, []) ops in
  let events := ops ≫= op_event in
  let per_trace := summary_add (consumed_of id cs) (summary_slot (tt_summaries t) id) in
  let total := summary_add (consumed_total cs) (tt_total t) in
  per_trace = wrap (exact_sum (of_trace id events)) ∧
  total = wrap (exact_sum events) ∧
  (in_range (exact_sum (of_trace id events)) → per_trace = exact_sum (of_trace id events)) ∧
  (in_range (exact_sum events) → total = exact_sum events).
Proof.
  destruct (balanced_run ops (ThreadTracker_ctor (I := I) tid cap depth) [] [] [])
    as (es & fs & [Hh Ht Htot] & E).
  { split; [apply holds_ctor|done|done]. }
  destruct (foldl run_op _ ops) as [t cs]. cbn [fst snd] in *. cbv zeta.
  rewrite Ht, Htot, (holds_slot t fs id Hh), (proj2 Hh), !wrap_add, <- !exact_sum_app, <- of_trace_app.
  cbn in E. rewrite E. split_and!; auto using wrap_exact.
Qed.

Example consume_example :
  let a := AllocInfo_ctor 100 16 in
  let '(t, cs) := foldl run_op (ThreadTracker_ctor (I := list (CompressedStacktrace * Z)) 0 4 1, [])
     [TrackOp (EvAlloc a); ConsumeOp; TrackOp (EvFree a); TrackOp (EvAlloc a)] in
  summary_add (consumed_total cs) (tt_total t) = mkAllocSummary 100 16 1 2 200.
Proof. vm_compute. reflexivity. Qed.
