(* ===== verification/OwnedGuards.v ===== *)
(** * Spin lock and owned guards ([impl/spinlock.h], [impl/owned_guards.h])

    Both are used by several threads at once, so they are modelled as transition systems
    whose transitions are the atomic actions of the code: an atomic read-modify-write, or
    a section protected by the lock.  [action]s are performed by any thread in any
    order; a run is a list of actions. *)

From Stdlib Require Import ZArith Lia.
From stdpp Require Import base numbers list gmap.
From S2P Require Import Prelude.

(** ** SpinLock *)

Module Spin.

(** Where a thread is: outside, in the loop of [lock], between [lock] and [unlock]. *)
Inductive pc := Idle | Spinning | Critical.

#[export] Instance pc_eq_dec : EqDecision pc.
Proof. solve_decision. Defined.

Record SpinLock := mkSpinLock {
  m_lock : bool;              (* std::atomic_flag *)
  threads : gmap nat pc;      (* absent threads are [Idle] *)
}.

Definition pc_of (s : SpinLock) (i : nat) : pc := default Idle (threads s !! i).

Inductive action := Call (i : nat) | TestAndSet (i : nat) | Unlock (i : nat).

(** [None]: the action is not possible at this point of the thread's program. *)
Definition step (s : SpinLock) (a : action) : option SpinLock :=
  match a with
  | Call i =>
    match pc_of s i with
    | Idle => Some (mkSpinLock (m_lock s) (<[i := Spinning]> (threads s)))
    | _ => None
    end
  | TestAndSet i =>
    match pc_of s i with
    | Spinning =>
      (* the flag was set: pause and try again; else it is set now and [lock] returns *)
      if m_lock s then Some s else Some (mkSpinLock true (<[i := Critical]> (threads s)))
    | _ => None
    end
  | Unlock i =>
    match pc_of s i with
    | Critical => Some (mkSpinLock false (<[i := Idle]> (threads s)))
    | _ => None
    end
  end.

Definition init : SpinLock := mkSpinLock false ∅.

Definition run (s : SpinLock) (l : list action) : option SpinLock :=
  foldl (fun s a => s ≫= fun s => step s a) (Some s) l.

Lemma spin_run_snoc s l a : run s (l ++ [a]) = run s l ≫= fun s => step s a.
Proof. unfold run. by rewrite foldl_app. Qed.

(** The flag is set exactly while one thread is in its critical section. *)
Definition inv (s : SpinLock) : Prop :=
  (∀ i j, pc_of s i = Critical → pc_of s j = Critical → i = j) ∧
  (m_lock s = true ↔ ∃ i, pc_of s i = Critical).

Lemma pc_of_insert s b i p j :
  pc_of (mkSpinLock b (<[i := p]> (threads s))) j = if decide (i = j) then p else pc_of s j.
Proof.
  unfold pc_of. cbn. case_decide as E; [subst; by rewrite lookup_insert_eq|by rewrite lookup_insert_ne].
Qed.

Lemma spin_step_inv s a s' : inv s → step s a = Some s' → inv s'.
Proof.
  intros [Hu Hf]. destruct a as [i|i|i]; cbn; destruct (pc_of s i) eqn:Ep; intros E; simplify_eq.
  - split.
    + intros j k. rewrite !pc_of_insert. repeat case_decide; subst; try done. auto.
    + cbn. rewrite Hf. split; intros [j Hj]; exists j; rewrite pc_of_insert in *; case_decide; congruence.
  - destruct (m_lock s) eqn:El; simplify_eq; [split; [done|by rewrite El]|]. split.
    + intros j k. rewrite !pc_of_insert. repeat case_decide; subst; try done;
        intros; exfalso; (enough (false = true) by done); apply Hf; eauto.
    + split; [|done]. intros _. exists i. rewrite pc_of_insert. by rewrite decide_True.
  - split.
    + intros j k. rewrite !pc_of_insert. repeat case_decide; subst; try done. auto.
    + cbn. split; [done|]. intros [j Hj]. rewrite pc_of_insert in Hj. case_decide; [done|].
      exfalso. eauto.
Qed.

Lemma spin_init_inv : inv init.
Proof.
  split; [done|]. split; [done|]. intros [i Hi]. unfold pc_of in Hi. cbn in Hi.
  by rewrite lookup_empty in Hi.
Qed.

Lemma spin_run_inv l : ∀ s, run init l = Some s → inv s.
Proof.
  induction l as [|a l IH] using rev_ind; intros s E; [injection E as <-; apply spin_init_inv|].
  rewrite spin_run_snoc in E. destruct (run init l) as [s1|]; [|done].
  apply (spin_step_inv s1 a); [by apply IH|done].
Qed.

(** When nobody is in the critical section, any waiting thread can take the lock. *)
Lemma acquire_free s i : inv s → (∀ j, pc_of s j ≠ Critical) → pc_of s i = Spinning →
  ∃ s', step s (TestAndSet i) = Some s' ∧ pc_of s' i = Critical.
Proof.
  intros [_ Hf] Hn Hi. cbn. rewrite Hi. destruct (m_lock s) eqn:E.
  - exfalso. destruct Hf as [Hf _]. destruct (Hf eq_refl) as [j Hj]. by apply (Hn j).
  - eexists. split; [done|]. rewrite pc_of_insert. by rewrite decide_True.
Qed.

(** C20: the spin lock excludes: in every state that any interleaving of calls of [lock] and
    [unlock] reaches, at most one thread is between them, and while none is, every
    waiting thread obtains the lock with its next attempt. *)
Theorem mutual_exclusion l s :
  run init l = Some s →
  (∀ i j, pc_of s i = Critical → pc_of s j = Critical → i = j) ∧
  (∀ i, (∀ j, pc_of s j ≠ Critical) → pc_of s i = Spinning →
     ∃ s', step s (TestAndSet i) = Some s' ∧ pc_of s' i = Critical).
Proof.
  intros E. apply spin_run_inv in E as Hi. split; [apply Hi|]. intros i. by apply acquire_free.
Qed.

Lemma mutual_exclusion_witness :
  let s := mkSpinLock false
    (<[1%nat := Idle]> (<[1%nat := Critical]> (<[1%nat := Spinning]> {[0%nat := Spinning]}))) in
  (∀ i j, pc_of s i = Critical → pc_of s j = Critical → i = j) ∧
  ∃ s', step s (TestAndSet 0) = Some s' ∧ pc_of s' 0 = Critical.
Proof.
  intros s.
  destruct (mutual_exclusion [Call 0; Call 1; TestAndSet 1; TestAndSet 0; Unlock 1] s eq_refl)
    as [H1 H2].
  split; [exact H1|]. apply H2; [|reflexivity]. intros j.
  change s with (mkSpinLock false (<[1%nat := Idle]> (threads (mkSpinLock false
    (<[1%nat := Critical]> (threads (mkSpinLock false (<[1%nat := Spinning]> (threads (mkSpinLock false
    (<[0%nat := Spinning]> (threads init)))))))))))).
  rewrite !pc_of_insert. repeat (destruct (decide _); [discriminate|]). discriminate.
Defined.
End Spin.

(** ** OwnedGuards *)

Module Guards.

(** A callback state is known by its number.  [inflight] holds, for every call that has
    left its locked section, the callbacks it still has to execute: the rest of the local
    list of a [Drain], or the one callback of a guard under destruction. *)
Record State := mkState {
  mt : bool;                      (* the spin lock, held across transitions by [UnsafeLock] only *)
  callbacks : list nat;           (* std::list of shared callback states *)
  guards : gset nat;              (* live CallbackGuards *)
  m_executed : gset nat;          (* callback states whose [m_executed] is set *)
  inflight : list (list nat);
  log : list nat;                 (* invocations of [m_callback], in order *)
  fresh : nat;                    (* next callback state to be made *)
}.

Definition OwnedGuards_ctor : State := mkState false [] ∅ ∅ [] [] 0.

(** [Register]: the callback state is appended under the lock; the guard it returns
    is the caller's. *)
Definition Register (s : State) : option (nat * State) :=
  if mt s then None
  else Some (fresh s, mkState (mt s) (callbacks s ++ [fresh s]) ({[fresh s]} ∪ guards s)
                        (m_executed s) (inflight s) (log s) (S (fresh s))).

(** The locked part of [Drain], also called by the destructor of [OwnedGuards]. *)
Definition Drain_swap (s : State) : option State :=
  if mt s then None
  else Some (mkState (mt s) [] (guards s) (m_executed s) (inflight s ++ [callbacks s])
               (log s) (fresh s)).

(** The locked part of [~CallbackGuard]. *)
Definition CallbackGuard_remove (s : State) (n : nat) : option State :=
  if mt s then None
  else if bool_decide (n ∈ guards s) then
    Some (mkState (mt s) (filter (fun m => m ≠ n) (callbacks s)) (guards s ∖ {[n]})
            (m_executed s) (inflight s ++ [[n]]) (log s) (fresh s))
  else None.

(** [CallbackState::execute]: the callback runs when the exchanged flag was clear. *)
Definition execute (s : State) (n : nat) : State :=
  if bool_decide (n ∈ m_executed s) then s
  else mkState (mt s) (callbacks s) (guards s) ({[n]} ∪ m_executed s) (inflight s)
         (log s ++ [n]) (fresh s).

(** The call number [j] executes the next of its callbacks. *)
Definition Execute_next (s : State) (j : nat) : option State :=
  match inflight s !! j with
  | Some (n :: rest) =>
    Some (execute (mkState (mt s) (callbacks s) (guards s) (m_executed s)
                     (<[j := rest]> (inflight s)) (log s) (fresh s)) n)
  | _ => None
  end.

Definition UnsafeLock (s : State) : option State :=
  if mt s then None
  else Some (mkState true (callbacks s) (guards s) (m_executed s) (inflight s) (log s) (fresh s)).

Definition UnsafeUnlock (s : State) : option State :=
  Some (mkState false (callbacks s) (guards s) (m_executed s) (inflight s) (log s) (fresh s)).

Inductive action :=
| ARegister | ADrain | ADestroy (n : nat) | AExecute (j : nat) | ALock | AUnlock.

Definition step (s : State) (a : action) : option State :=
  match a with
  | ARegister => snd <$> Register s
  | ADrain => Drain_swap s
  | ADestroy n => CallbackGuard_remove s n
  | AExecute j => Execute_next s j
  | ALock => UnsafeLock s
  | AUnlock => UnsafeUnlock s
  end.

Definition run (s : State) (l : list action) : option State :=
  foldl (fun s a => s ≫= fun s => step s a) (Some s) l.

Lemma guards_run_snoc s l a : run s (l ++ [a]) = run s l ≫= fun s => step s a.
Proof. unfold run. by rewrite foldl_app. Qed.

(** *** Invariant *)

Definition todo (s : State) : list nat := concat (inflight s).

Record inv (s : State) : Prop := {
  (** the log has exactly the callbacks whose flag is set, each once *)
  inv_log n : n ∈ log s ↔ n ∈ m_executed s;
  inv_once : NoDup (log s);
  (** every registered callback is still listed, about to be executed, or executed *)
  inv_kept n : (n < fresh s)%nat → n ∈ callbacks s ∨ n ∈ todo s ∨ n ∈ log s;
  (** and nothing else is *)
  inv_known n : n ∈ callbacks s ∨ n ∈ todo s ∨ n ∈ log s → (n < fresh s)%nat;
  (** a listed callback has a live guard *)
  inv_guards n : n ∈ callbacks s → n ∈ guards s;
  inv_guards_known n : n ∈ guards s → (n < fresh s)%nat;
}.

Lemma guards_init_inv : inv OwnedGuards_ctor.
Proof.
  split; cbn; try done; try (intros; lia).
  - intros n. split; [by intros ?%not_elem_of_nil|by rewrite elem_of_empty].
  - apply NoDup_nil_2.
  - intros n [H|[H|H]]; by apply not_elem_of_nil in H.
  - by intros n ?%not_elem_of_nil.
Qed.

Lemma elem_todo s n : n ∈ todo s ↔ ∃ l, l ∈ inflight s ∧ n ∈ l.
Proof. unfold todo. rewrite list_elem_of_In, in_concat. split; intros (l & H1 & H2); exists l;
  rewrite !list_elem_of_In in *; done. Qed.

Lemma todo_snoc s b cs gs ex l lg fr n :
  n ∈ todo (mkState b cs gs ex (inflight s ++ [l]) lg fr) ↔ n ∈ todo s ∨ n ∈ l.
Proof. unfold todo. cbn. rewrite concat_app, elem_of_app. cbn. by rewrite app_nil_r. Qed.

(** Executing the head of one call: the others keep their work. *)
Lemma todo_next s j n rest b cs gs ex lg fr m : inflight s !! j = Some (n :: rest) →
  (m ∈ todo s ↔ m = n ∨ m ∈ todo (mkState b cs gs ex (<[j := rest]> (inflight s)) lg fr)).
Proof.
  intros Hj. unfold todo. cbn. rewrite insert_take_drop by (by eapply lookup_lt_Some).
  rewrite <- (take_drop_middle _ _ _ Hj) at 1. rewrite !concat_app. cbn.
  rewrite !elem_of_app. cbn. rewrite elem_of_cons, !elem_of_app. tauto.
Qed.

(** [execute] moves one callback to the log, unless it is there. *)
Lemma execute_fields s n :
  callbacks (execute s n) = callbacks s ∧ guards (execute s n) = guards s ∧
  inflight (execute s n) = inflight s ∧ fresh (execute s n) = fresh s.
Proof. unfold execute. by case_bool_decide. Qed.

Lemma execute_log s n m : (∀ k, k ∈ log s ↔ k ∈ m_executed s) →
  m ∈ log (execute s n) ↔ m = n ∨ m ∈ log s.
Proof.
  intros Hl. unfold execute. case_bool_decide as E; cbn.
  - rewrite <- Hl in E. split; [by right|]. by intros [->|].
  - rewrite elem_of_app, list_elem_of_singleton. tauto.
Qed.

Lemma execute_inv_log s n : (∀ k, k ∈ log s ↔ k ∈ m_executed s) → NoDup (log s) →
  (∀ k, k ∈ log (execute s n) ↔ k ∈ m_executed (execute s n)) ∧ NoDup (log (execute s n)).
Proof.
  intros Hl Hn. unfold execute. case_bool_decide as E; cbn; [done|]. split.
  - intros k. rewrite elem_of_app, list_elem_of_singleton, elem_of_union, elem_of_singleton, Hl. tauto.
  - apply NoDup_app. split; [done|]. split; [|apply NoDup_singleton].
    intros k Hk ->%list_elem_of_singleton. by apply E, Hl.
Qed.

Lemma guards_step_inv s a s' : inv s → step s a = Some s' → inv s'.
Proof.
  intros [Hl Ho Hk Hn Hg Hgk]. destruct a as [| |n|j| |]; cbn.
  - unfold Register. destruct (mt s); [done|]. intros E; simplify_eq/=. split; cbn; try done.
    + intros n Hn'. rewrite elem_of_app, list_elem_of_singleton. unfold todo in *. cbn.
      destruct (decide (n = fresh s)); [by auto|]. destruct (Hk n) as [?|?]; [lia|auto|auto].
    + intros n. rewrite elem_of_app, list_elem_of_singleton. unfold todo in *. cbn.
      intros [[H| ->]|H]; [|lia|]; apply PeanoNat.Nat.lt_lt_succ_r, Hn; auto.
    + intros n. rewrite elem_of_app, list_elem_of_singleton, elem_of_union, elem_of_singleton.
      intros [?|?]; auto.
    + intros n. rewrite elem_of_union, elem_of_singleton. intros [->|H%Hgk]; lia.
  - unfold Drain_swap. destruct (mt s); [done|]. intros E; simplify_eq. split; try done.
    + intros n Hn'. rewrite todo_snoc. cbn. destruct (Hk n Hn') as [?|[?|?]]; auto.
    + intros n. rewrite todo_snoc. cbn. intros [?%not_elem_of_nil|[[?|?]|?]]; [done|apply Hn; auto..].
    + cbn. by intros n ?%not_elem_of_nil.
  - unfold CallbackGuard_remove. destruct (mt s); [done|]. case_bool_decide as Hgn; [|done].
    intros E; simplify_eq. split; try done.
    + intros m Hm. rewrite todo_snoc. cbn. rewrite list_elem_of_filter, list_elem_of_singleton.
      destruct (decide (m = n)); [by auto|]. destruct (Hk m Hm) as [?|[?|?]]; auto.
    + intros m. rewrite todo_snoc. cbn. rewrite list_elem_of_filter, list_elem_of_singleton.
      intros [[_ ?]|[[?| ->]|?]]; [apply Hn; auto..|by apply Hgk|apply Hn; auto].
    + cbn. intros m. rewrite list_elem_of_filter, elem_of_difference, elem_of_singleton.
      intros [? ?]. auto.
    + cbn. intros m. rewrite elem_of_difference. intros [? _]. auto.
  - unfold Execute_next. destruct (inflight s !! j) as [[|n rest]|] eqn:Ej; try done.
    intros E; simplify_eq. set (s1 := mkState _ _ _ _ _ _ _).
    destruct (execute_fields s1 n) as (Ec & Eg & Ei & Ef).
    destruct (execute_inv_log s1 n Hl Ho) as [Hl' Ho'].
    assert (Ht : ∀ m, m ∈ todo s ↔ m = n ∨ m ∈ todo (execute s1 n)).
    { intros m. unfold todo at 2. rewrite Ei. by apply (todo_next s j n rest). }
    split; rewrite ?Ec, ?Eg, ?Ef; try done.
    + intros m Hm. rewrite (execute_log s1 n m Hl). destruct (Hk m Hm) as [?|[H|?]]; auto.
      apply Ht in H as [->|?]; auto.
    + intros m. rewrite (execute_log s1 n m Hl). cbn. intros [?|[?|[->|?]]]; apply Hn; auto.
      * right; left. apply Ht. auto.
      * right; left. apply Ht. auto.
  - unfold UnsafeLock. destruct (mt s); [done|]. intros E; simplify_eq. by split.
  - unfold UnsafeUnlock. intros E; simplify_eq. by split.
Qed.

Lemma guards_run_inv l : ∀ s, run OwnedGuards_ctor l = Some s → inv s.
Proof.
  induction l as [|a l IH] using rev_ind; intros s E; [injection E as <-; apply guards_init_inv|].
  rewrite guards_run_snoc in E. destruct (run OwnedGuards_ctor l) as [s1|]; [|done].
  apply (guards_step_inv s1 a); [by apply IH|done].
Qed.

(** *** Completion *)

Lemma execute_enabled s : todo s ≠ [] → ∃ j n rest, inflight s !! j = Some (n :: rest).
Proof.
  unfold todo. induction (inflight s) as [|[|n l] ls IH]; cbn; intros Hne; [done| |].
  - destruct (IH Hne) as (j & n & rest & Hj). by exists (S j), n, rest.
  - by exists 0%nat, n, l.
Qed.

Lemma todo_length s j n rest s' : inflight s !! j = Some (n :: rest) →
  Execute_next s j = Some s' → S (length (todo s')) = length (todo s).
Proof.
  intros Hj. unfold Execute_next. rewrite Hj. intros E; simplify_eq.
  unfold todo. destruct (execute_fields (mkState (mt s) (callbacks s) (guards s) (m_executed s)
    (<[j := rest]> (inflight s)) (log s) (fresh s)) n) as (_ & _ & -> & _). cbn.
  rewrite insert_take_drop by (by eapply lookup_lt_Some).
  rewrite <- (take_drop_middle _ _ _ Hj) at 3. rewrite !concat_app, !length_app. cbn.
  rewrite !length_app. cbn. lia.
Qed.

Lemma run_app s l l' : run s (l ++ l') = run s l ≫= fun s => run s l'.
Proof.
  induction l' as [|a l' IH] using rev_ind; [rewrite app_nil_r; by destruct (run s l)|].
  rewrite app_assoc, guards_run_snoc, IH. destruct (run s l); cbn; [by rewrite guards_run_snoc|done].
Qed.

(** The calls that are under way can always be finished, whatever else is blocked. *)
Lemma drain_completes m : ∀ s, length (todo s) = m →
  ∃ js s', run s (AExecute <$> js) = Some s' ∧ todo s' = [] ∧ callbacks s' = callbacks s
           ∧ guards s' = guards s ∧ fresh s' = fresh s ∧ length js = m.
Proof.
  induction m as [|m IH]; intros s Hm.
  { exists [], s. apply nil_length_inv in Hm. done. }
  destruct (execute_enabled s) as (j & n & rest & Hj); [by intros E; rewrite E in Hm|].
  destruct (Execute_next s j) as [s1|] eqn:E1; [|unfold Execute_next in E1; by rewrite Hj in E1].
  pose proof (todo_length s j n rest s1 Hj E1) as Hl.
  assert (callbacks s1 = callbacks s ∧ guards s1 = guards s ∧ fresh s1 = fresh s) as (F1 & F2 & F3).
  { unfold Execute_next in E1. rewrite Hj in E1. simplify_eq.
    by destruct (execute_fields (mkState (mt s) (callbacks s) (guards s) (m_executed s)
      (<[j := rest]> (inflight s)) (log s) (fresh s)) n) as (-> & -> & _ & ->). }
  destruct (IH s1 ltac:(lia)) as (js & s2 & Er & Ht & G1 & G2 & G3 & G4).
  exists (j :: js), s2. split; [|split_and!; try congruence; cbn; lia].
  change (AExecute <$> j :: js) with ([AExecute j] ++ (AExecute <$> js)).
  rewrite run_app. cbn. by rewrite E1.
Qed.

(** *** Properties *)

(** C21: every registered callback runs at most once, whatever the interleaving of
    registrations, drains, guard destructions and fork locking; the calls under way
    can always be finished in as many steps as they have callbacks left; and when they
    are, every callback that was drained or whose guard was destroyed has run exactly
    once, while a callback with a live guard that was not drained has not been lost. *)
Theorem callbacks_exactly_once l s :
  run OwnedGuards_ctor l = Some s →
  NoDup (log s) ∧
  ∃ js s', run s (AExecute <$> js) = Some s' ∧ length js = length (todo s) ∧ todo s' = [] ∧
    NoDup (log s') ∧
    ∀ n, (n < fresh s)%nat →
      (n ∉ guards s → n ∈ log s') ∧ (n ∈ log s' ∨ n ∈ callbacks s' ∧ n ∈ guards s').
Proof.
  intros E. apply guards_run_inv in E as Hi. split; [apply Hi|].
  destruct (drain_completes (length (todo s)) s eq_refl) as (js & s' & Er & Ht & Hc & Hg & Hf & Hl).
  assert (Hi' : inv s') by (apply (guards_run_inv (l ++ (AExecute <$> js))); rewrite run_app, E; exact Er).
  exists js, s'. split_and!; try done; [apply Hi'|]. intros n Hn. rewrite <- Hf in Hn.
  pose proof (inv_kept _ Hi' n Hn) as Hk. rewrite Ht in Hk. split.
  - intros Hng. destruct Hk as [H|[H|H]]; [|by apply not_elem_of_nil in H|done].
    apply (inv_guards _ Hi') in H. by rewrite Hg in H.
  - destruct Hk as [H|[H|H]]; [right; split; [done|by apply (inv_guards _ Hi')]
      |by apply not_elem_of_nil in H|by left].
Qed.

Lemma callbacks_exactly_once_witness :
  ∃ s, run OwnedGuards_ctor [ARegister; ARegister; ADrain; ADestroy 1; AExecute 0] = Some s ∧
  NoDup (log s) ∧
  ∃ js s', run s (AExecute <$> js) = Some s' ∧ length js = length (todo s) ∧ todo s' = [] ∧
    NoDup (log s') ∧
    ∀ n, (n < fresh s)%nat →
      (n ∉ guards s → n ∈ log s') ∧ (n ∈ log s' ∨ n ∈ callbacks s' ∧ n ∈ guards s').
Proof.
  eexists. split; [vm_compute; reflexivity|].
  exact (callbacks_exactly_once [ARegister; ARegister; ADrain; ADestroy 1; AExecute 0] _ eq_refl).
Defined.
End Guards.
