(* ===== verification/Locks.v ===== *)
(** * Locks and fork ([impl/memhawk.cpp], [impl/thread_tracker.cpp], [impl/owned_guards.h])

    The handlers as sequences of lock operations.  A handler allocates while it holds locks,
    and these allocations are handlers again, at a higher level of the recursion guards; the
    predicates below describe the sequences that the nested calls of a handler can
    produce.  Threads run such sequences interleaved, a thread waits for a lock that is held.

    The theorems: no interleaving blocks, because locks are taken in a fixed order; and what
    a child process finds after a fork. *)

From Stdlib Require Import ZArith Lia.
From stdpp Require Import base numbers list relations.
From S2P Require Import Prelude.

(** [m_mt], [m_thTrackersMt], [m_trackerGuards], the spin lock of a thread tracker, of
    [m_exitingThreadsTracker], of [m_btTracker], of [m_innerTracker], of [m_innerBtTracker], and
    [m_postponedMt]. *)
Inductive lockid :=
| Mt | ThTrackersMt | TrackerGuardsMt | TrackerMt (i : nat) | ExitingMt | BtMt | InnerTrackerMt | InnerBtMt | PostponedMt.

#[export] Instance lockid_eq_dec : EqDecision lockid.
Proof. solve_decision. Defined.

Inductive act := Lk (l : lockid) | Ul (l : lockid).
Abbreviation trace := (list act).

(** A lock guard around a sequence. *)
Definition holding (l : lockid) (t : trace) : trace := Lk l :: t ++ [Ul l].
Definition critical (l : lockid) : trace := holding l [].

Inductive many (P : trace → Prop) : trace → Prop :=
| many_nil : many P []
| many_cons t u : P t → many P u → many P (t ++ u).

(** ** Handlers *)

(** Internal operations at the second level of [InnerAllocTag]: they are postponed. *)
Inductive nested_op : trace → Prop :=
| nested_alloc : nested_op (critical InnerBtMt ++ critical PostponedMt)
| nested_dealloc : nested_op (critical PostponedMt)
| nested_realloc : nested_op (critical InnerBtMt ++ critical PostponedMt ++ critical PostponedMt).

Inductive ProcessPostponed_locks : trace → Prop :=
| pp_empty : ProcessPostponed_locks (critical PostponedMt)
| pp_next t u : many nested_op t → ProcessPostponed_locks u →
    ProcessPostponed_locks (critical PostponedMt ++ holding InnerTrackerMt t ++ u).

(** Internal operations at the first level: allocation and reallocation, deallocation. *)
Inductive inner_op : trace → Prop :=
| inner_alloc p t : ProcessPostponed_locks p → many nested_op t →
    inner_op (critical InnerBtMt ++ p ++ holding InnerTrackerMt t)
| inner_dealloc p t : ProcessPostponed_locks p → many nested_op t → inner_op (p ++ holding InnerTrackerMt t).

(** [RegisterThread]; [OwnedGuards::Register] takes the lock of the guards. *)
Inductive RegisterThread_locks : trace → Prop :=
| register a b c : many inner_op a → many inner_op b → many inner_op c →
    RegisterThread_locks (holding ThTrackersMt (a ++ holding TrackerGuardsMt b ++ c)).

(** [SaveTraceId]: a trace that is not in the cache is inserted into [m_btTracker]. *)
Inductive SaveTraceId_locks : trace → Prop :=
| save_hit a : many inner_op a → SaveTraceId_locks a
| save_miss a b c : many inner_op a → many inner_op b → many inner_op c →
    SaveTraceId_locks (a ++ holding BtMt b ++ c).

(** External operations of a thread with the tracker behind [l]. *)
Inductive external_op (l : lockid) : trace → Prop :=
| external_alloc s t : SaveTraceId_locks s → many inner_op t → external_op l (holding l (s ++ t))
| external_dealloc t : many inner_op t → external_op l (holding l t).

(** [~CallbackGuard] at the end of a thread: the list of guards, then [ReclaimTracker], whose own
    allocations go to the tracker of exiting threads. *)
Inductive ThreadExit_locks (i : nat) : trace → Prop :=
| thread_exit a b : many (external_op (TrackerMt i)) a → many (external_op ExitingMt) b →
    ThreadExit_locks i (holding TrackerGuardsMt a ++ holding ThTrackersMt b).

(** One tracker in [WorkerUpdateData], then what the writer does with its snapshot. *)
Inductive account_locks : trace → Prop :=
| account l a : (l = ExitingMt ∨ l = InnerTrackerMt ∨ ∃ i, l = TrackerMt i) → many inner_op a →
    account_locks (critical l ++ a).

(** Steps of [FlushData]: own allocations, and the finder. *)
Inductive flush_locks : trace → Prop :=
| flush_inner t : inner_op t → flush_locks t
| flush_bt t : many inner_op t → flush_locks (holding BtMt t)
| flush_inner_bt : flush_locks (critical InnerBtMt).

(** One round of [TrackingWorker]: [wait_until] gives the mutex up and takes it again, any
    number of times. *)
Inductive TrackingWorker_locks : trace → Prop :=
| worker w a b c : many (eq (critical Mt)) w → many account_locks a → many inner_op b → many flush_locks c →
    TrackingWorker_locks (w ++ holding Mt (holding ThTrackersMt (a ++ b) ++ c)).

Definition PreFork : trace := [Lk Mt; Lk ThTrackersMt; Lk TrackerGuardsMt; Lk PostponedMt].
Definition ParentPostFork : trace := [Ul PostponedMt; Ul TrackerGuardsMt; Ul ThTrackersMt; Ul Mt].

(** Everything a thread of the process can be made to do. *)
Inductive handler : trace → Prop :=
| handle_register t : RegisterThread_locks t → handler t
| handle_external l t : (l = ExitingMt ∨ ∃ i, l = TrackerMt i) → external_op l t → handler t
| handle_inner t : inner_op t → handler t
| handle_exit i t : ThreadExit_locks i t → handler t
| handle_worker t : TrackingWorker_locks t → handler t
| handle_fork : handler (PreFork ++ ParentPostFork).

(** ** Threads *)

(** A thread: the locks it holds, latest first, and what is left to do. *)
Abbreviation thread := (list lockid * trace)%type.

Definition free (s : list thread) (l : lockid) : Prop := Forall (fun th => l ∉ th.1) s.

Inductive lstep : list thread → list thread → Prop :=
| step_lock s i held l t : s !! i = Some (held, Lk l :: t) → free s l → lstep s (<[i := (l :: held, t)]> s)
| step_unlock s i held l t : s !! i = Some (l :: held, Ul l :: t) → lstep s (<[i := (held, t)]> s).

Definition start (ts : list trace) : list thread := (fun t => ([], t)) <$> ts.

(** ** The order of locks *)

Definition rank (l : lockid) : Z :=
  match l with
  | Mt => 0 | ThTrackersMt => 1 | TrackerGuardsMt => 2 | TrackerMt _ | ExitingMt => 3 | BtMt => 4
  | InnerTrackerMt => 5 | InnerBtMt => 6 | PostponedMt => 7
  end.

(** A rest of a sequence that takes locks above those held and gives back the latest. *)
Fixpoint ordered (held : list lockid) (t : trace) : Prop :=
  match t with
  | [] => held = []
  | Lk l :: t => Forall (fun h => rank h < rank l) held ∧ ordered (l :: held) t
  | Ul l :: t => match held with h :: held => h = l ∧ ordered held t | [] => False end
  end.

(** Sequences that only take locks above a rank and give all of them back. *)
Definition above (r : Z) (t : trace) : Prop :=
  ∀ held rest, Forall (fun h => rank h ≤ r) held → ordered held rest → ordered held (t ++ rest).

Lemma above_app r t u : above r t → above r u → above r (t ++ u).
Proof. intros Ht Hu held rest Hh Hr. rewrite <- app_assoc. auto. Qed.

Lemma above_mono r r' t : r ≤ r' → above r' t → above r t.
Proof. intros Hr Ht held rest Hh. apply Ht. apply (Forall_impl _ _ _ Hh). cbn. lia. Qed.

Lemma above_holding r l t : r < rank l → above (rank l) t → above r (holding l t).
Proof.
  intros Hl Ht held rest Hh Hr. unfold holding. cbn [app ordered]. split; [apply (Forall_impl _ _ _ Hh); cbn; lia|].
  rewrite <- app_assoc. apply Ht; [|cbn; done]. constructor; [lia|]. apply (Forall_impl _ _ _ Hh). cbn. lia.
Qed.

Lemma above_nil r : above r [].
Proof. by intros held rest _. Qed.

Lemma above_many r (P : trace → Prop) t : (∀ u, P u → above r u) → many P t → above r t.
Proof. intros HP. induction 1 as [|t u Ht _ IH]; [apply above_nil|]. apply above_app; auto. Qed.

Create HintDb locks.
#[local] Hint Resolve above_app above_nil : locks.
#[local] Hint Extern 1 (above _ (holding _ _)) => apply above_holding; [cbn; lia|cbn [rank]] : locks.
#[local] Hint Extern 1 (above _ (critical _)) => apply above_holding; [cbn; lia|cbn [rank]] : locks.

Lemma nested_above t : nested_op t → above 5 t.
Proof. intros []; auto 10 with locks. Qed.

Lemma nested_many t : many nested_op t → above 5 t.
Proof. apply above_many, nested_above. Qed.
#[local] Hint Resolve nested_many : locks.

Lemma postponed_above t : ProcessPostponed_locks t → above 4 t.
Proof. induction 1; auto 10 with locks. Qed.
#[local] Hint Resolve postponed_above : locks.

Lemma inner_above t : inner_op t → above 4 t.
Proof. intros []; auto 10 with locks. Qed.

Lemma inner_many r t : r ≤ 4 → many inner_op t → above r t.
Proof. intros Hr Ht. apply (above_mono _ 4); [done|]. by apply (above_many _ inner_op); [apply inner_above|]. Qed.
#[local] Hint Extern 2 (above _ _) => solve [apply inner_many; [cbn; lia|assumption]] : locks.

Lemma save_above r t : r ≤ 3 → SaveTraceId_locks t → above r t.
Proof. intros Hr Ht. apply (above_mono _ 3); [done|]. destruct Ht; auto 10 with locks. Qed.

Lemma external_above l t : rank l = 3 → external_op l t → above 2 t.
Proof.
  intros Hl [s u Hs Hu|u Hu]; (apply above_holding; [lia|rewrite Hl]); [|auto with locks].
  apply above_app; [by apply save_above|auto with locks].
Qed.

Lemma external_many r l t : r ≤ 2 → rank l = 3 → many (external_op l) t → above r t.
Proof.
  intros Hr Hl Ht. apply (above_mono _ 2); [done|]. apply (above_many _ (external_op l)); [|done].
  intros u. by apply external_above.
Qed.

Lemma worker_above t : TrackingWorker_locks t → above (-1) t.
Proof.
  intros [w a b c Hw Ha Hb Hc]. apply above_app.
  { apply (above_many _ (eq (critical Mt))); [|done]. intros u <-. auto with locks. }
  apply above_holding; [cbn; lia|]. cbn [rank].
  apply above_app; [apply above_holding; [cbn; lia|]; cbn [rank]; apply above_app; [|auto with locks]|].
  - apply (above_many _ account_locks); [|done]. intros u [l x Hl Hx]. apply above_app; [|auto with locks].
    apply above_holding; [|apply above_nil]. destruct Hl as [->|[->|[i ->]]]; cbn; lia.
  - apply (above_many _ flush_locks); [|done]. intros u [x Hx|x Hx|]; [|auto with locks..].
    apply (above_mono _ 4); [lia|]. by apply inner_above.
Qed.

Lemma handler_above t : handler t → above (-1) t.
Proof.
  intros [u [a b c Ha Hb Hc]|l u Hl Hu|u Hu|i u [a b Ha Hb]|u Hu|].
  - auto 10 with locks.
  - apply (above_mono _ 2); [lia|]. apply (external_above l); [|done]. by destruct Hl as [->|[i ->]].
  - apply (above_mono _ 4); [lia|]. by apply inner_above.
  - apply above_app; (apply above_holding; [cbn; lia|]; cbn [rank]).
    + by apply (external_many _ (TrackerMt i)).
    + by apply (external_many _ ExitingMt).
  - by apply worker_above.
  - intros held rest Hh Hr. assert (held = []) as ->.
    { destruct held as [|h held]; [done|]. apply Forall_cons in Hh as [Hh _]. destruct h; cbn in Hh; lia. }
    cbn. split_and!; try done; repeat constructor.
Qed.

(** ** Progress *)

(** Every thread has an ordered rest, and a lock has one holder. *)
Record sys_ok (s : list thread) : Prop := {
  so_ordered i th : s !! i = Some th → ordered th.1 th.2;
  so_nodup i th : s !! i = Some th → NoDup th.1;
  so_excl i j th th' l : s !! i = Some th → s !! j = Some th' → l ∈ th.1 → l ∈ th'.1 → i = j;
}.

Lemma sys_ok_step s s' : sys_ok s → lstep s s' → sys_ok s'.
Proof.
  intros [Ho Hn He] Hs.
  assert (Hupd : ∀ i th0 th, s !! i = Some th0 → ordered th.1 th.2 → NoDup th.1 →
    (∀ j th' l, s !! j = Some th' → j ≠ i → l ∈ th.1 → l ∉ th'.1) → sys_ok (<[i := th]> s)).
  { intros i th0 th Hi H1 H2 H3.
    assert (Hlk : ∀ j x, <[i := th]> s !! j = Some x → (j = i ∧ x = th) ∨ (j ≠ i ∧ s !! j = Some x)).
    { intros j x. destruct (decide (j = i)) as [->|Hne].
      - rewrite list_lookup_insert_eq by by eapply lookup_lt_Some. intros [= <-]. by left.
      - rewrite list_lookup_insert_ne by done. by right. }
    split.
    - intros j x [[-> ->]|[_ Hj]]%Hlk; [done|by apply (Ho j)].
    - intros j x [[-> ->]|[_ Hj]]%Hlk; [done|by apply (Hn j)].
    - intros j k x y l [[-> ->]|[Hj Hx]]%Hlk [[-> ->]|[Hk Hy]]%Hlk Hl Hl'; [done| | |by apply (He j k x y l)].
      + by destruct (H3 k y l).
      + by destruct (H3 j x l). }
  destruct Hs as [s i held l t Hi Hfree|s i held l t Hi].
  - destruct (Ho _ _ Hi) as [_ Hord]. apply (Hupd _ _ _ Hi); [done| |].
    + constructor; [|by apply (Hn _ _ Hi)]. unfold free in Hfree. rewrite Forall_lookup in Hfree. exact (Hfree i _ Hi).
    + intros j th' x Hj Hne [->|Hx]%elem_of_cons Hx'.
      * unfold free in Hfree. rewrite Forall_lookup in Hfree. by apply (Hfree j th').
      * apply Hne. symmetry. by apply (He i j (held, Lk l :: t) th' x).
  - destruct (Ho _ _ Hi) as [_ Hord]. pose proof (Hn _ _ Hi) as Hnd. apply NoDup_cons in Hnd as [_ Hnd].
    apply (Hupd _ _ _ Hi); [done..|]. intros j th' x Hj Hne Hx Hx'. apply Hne. symmetry.
    apply (He i j (l :: held, Ul l :: t) th' x); try done. by right.
Qed.

(** The holder of a lock that is waited for can go on, or waits for a lock further up. *)
Lemma sys_progress s : sys_ok s → ∀ n i held l t, (Z.to_nat (7 - rank l) < n)%nat →
  s !! i = Some (held, Lk l :: t) → ∃ s', lstep s s'.
Proof.
  intros Hok. induction n as [|n IH]; [lia|]. intros i held l t Hn Hi.
  destruct (decide (Exists (fun th => l ∈ th.1) s)) as [Hex|Hfree].
  2: { eexists. eapply step_lock; [done|]. unfold free. by apply Forall_Exists_neg. }
  apply Exists_exists in Hex as ([held' t'] & Hin & Hl). apply list_elem_of_lookup in Hin as [j Hj]. cbn in Hl.
  pose proof (so_ordered s Hok j _ Hj) as Hord. destruct t' as [|[l'|l'] t']; cbn in Hord.
  - subst held'. by apply elem_of_nil in Hl.
  - destruct Hord as [Hr _]. rewrite Forall_forall in Hr. specialize (Hr l Hl). cbn in Hr.
    apply (IH j held' l' t'); [|done]. destruct l'; cbn [rank] in *; lia.
  - destruct held' as [|h held']; [done|]. destruct Hord as [-> _]. eexists. by eapply step_unlock.
Qed.

Definition finished (s : list thread) : Prop := Forall (fun th => th = ([], [])) s.

Lemma sys_live s : sys_ok s → (∃ s', lstep s s') ∨ finished s.
Proof.
  intros Hok. destruct (decide (Exists (fun th => th.2 ≠ []) s)) as [Hex|Hno].
  - left. apply Exists_exists in Hex as ([held t] & [i Hi]%list_elem_of_lookup & Ht). cbn in Ht.
    pose proof (so_ordered s Hok i _ Hi) as Hord. destruct t as [|[l|l] t]; [done| |]; cbn in Hord.
    + by apply (sys_progress s Hok (S (Z.to_nat (7 - rank l))) i held l t); [lia|].
    + destruct held as [|h held]; [done|]. destruct Hord as [-> _]. eexists. by eapply step_unlock.
  - right. apply Forall_lookup. intros i [held t] Hi. rewrite <- Forall_Exists_neg, Forall_lookup in Hno.
    specialize (Hno i _ Hi). cbn in Hno. apply dec_stable in Hno. subst t.
    pose proof (so_ordered s Hok i _ Hi) as Hord. cbn in Hord. by subst held.
Qed.

Definition work (s : list thread) : nat := foldr (fun th n => length th.2 + n)%nat 0%nat s.

Lemma work_insert s i (th th' : thread) : s !! i = Some th →
  (work (<[i := th']> s) + length th.2 = work s + length th'.2)%nat.
Proof.
  unfold work. revert i. induction s as [|x s IH]; intros [|i] Hi; [done|done| |].
  - injection Hi as ->. cbn. lia.
  - change (<[S i := th']> (x :: s)) with (x :: <[i := th']> s). cbn [foldr]. specialize (IH i Hi). lia.
Qed.

Lemma work_step s s' : lstep s s' → work s = S (work s').
Proof.
  intros [s0 i held l t Hi _|s0 i held l t Hi].
  - pose proof (work_insert s0 i _ (l :: held, t) Hi) as H. cbn in H. lia.
  - pose proof (work_insert s0 i _ (held, t) Hi) as H. cbn in H. lia.
Qed.

Lemma many_above t : many handler t → above (-1) t.
Proof. apply above_many, handler_above. Qed.

Lemma start_ok ts : Forall (many handler) ts → sys_ok (start ts).
Proof.
  intros Hts. unfold start. rewrite Forall_lookup in Hts.
  assert (Hlk : ∀ i th, ((fun t => ([], t)) <$> ts : list thread) !! i = Some th → ∃ t, ts !! i = Some t ∧ th = ([], t)).
  { intros i th. rewrite list_lookup_fmap. intros (t & Ht & ->)%fmap_Some. by exists t. }
  split.
  - intros i th (t & Ht & ->)%Hlk. pose proof (many_above t (Hts i t Ht) [] []) as H. rewrite app_nil_r in H. by apply H.
  - intros i th (t & Ht & ->)%Hlk. constructor.
  - intros i j th th' l (t & Ht & ->)%Hlk _ Hl. by apply elem_of_nil in Hl.
Qed.

Lemma run_ok ts s n : Forall (many handler) ts → nsteps lstep n (start ts) s → sys_ok s ∧ work (start ts) = (n + work s)%nat.
Proof.
  intros Hts%start_ok. revert Hts. generalize (start ts). intros s0 Hs0 H. induction H as [s0|n s0 s1 s Hstep _ IH]; [done|].
  destruct (IH (sys_ok_step _ _ Hs0 Hstep)) as [Hok Hw]. split; [done|]. apply work_step in Hstep. lia.
Qed.

(** ** Fork *)

(** The locks that are set in the memory a child inherits. *)
Definition locked (s : list thread) (l : lockid) : bool := bool_decide (Exists (fun th => l ∈ th.1) s).

Definition clear (flags : lockid → bool) (l : lockid) : lockid → bool := fun l' => if decide (l' = l) then false else flags l'.

(** [ChildPostFork] with [n] trackers: every tracker is unlocked, whoever held it, then what
    [PreFork] locked. *)
Definition ChildPostFork (n : nat) (flags : lockid → bool) : lockid → bool :=
  foldl clear flags ([InnerTrackerMt; ExitingMt] ++ (TrackerMt <$> seq 0 n) ++ [PostponedMt; TrackerGuardsMt; ThTrackersMt; Mt]).

Lemma clear_all ls : ∀ flags l, foldl clear flags ls l = if decide (l ∈ ls) then false else flags l.
Proof.
  induction ls as [|x ls IH]; intros flags l; cbn [foldl].
  - rewrite decide_False; [done|]. by intros ?%elem_of_nil.
  - rewrite IH. unfold clear. destruct (decide (l ∈ ls)); [by rewrite decide_True by by right|].
    destruct (decide (l = x)) as [->|Hne]; [by rewrite decide_True by by left|].
    rewrite decide_False; [done|]. intros [?|?]%elem_of_cons; done.
Qed.

(** ** Properties *)

(** C7: whatever the threads do, registering, allocating, exiting, flushing and forking, with
    any nested allocations, they never block each other: as long as a thread has something
    left to do some thread can go on, so that every run ends after as many steps as there are
    lock operations, with all work done and no lock held. *)
Theorem lock_progress ts s n : Forall (many handler) ts → nsteps lstep n (start ts) s →
  ((∃ s', lstep s s') ∨ finished s) ∧ (n ≤ work (start ts))%nat ∧ (n = work (start ts) → finished s).
Proof.
  intros Hts Hn. destruct (run_ok ts s n Hts Hn) as [Hok Hw]. split; [by apply sys_live|]. split; [lia|].
  intros ->. destruct (sys_live s Hok) as [[s' Hs]|?]; [|done]. apply work_step in Hs. lia.
Qed.

(** C13: when a thread has locked for a fork, in any state the process can reach, the child
    process finds after [ChildPostFork] every lock of the profiler free but for those of the two
    stack trace trackers, which stay locked for good when another thread was inserting or
    looking up a trace at the time of the fork. *)
Theorem fork_child ts s n i t trackers : Forall (many handler) ts → nsteps lstep n (start ts) s →
  s !! i = Some (reverse [Mt; ThTrackersMt; TrackerGuardsMt; PostponedMt], t) →
  (∀ j, locked s (TrackerMt j) = true → (j < trackers)%nat) →
  ∀ l, ChildPostFork trackers (locked s) l = true ↔
    (l = BtMt ∨ l = InnerBtMt) ∧ ∃ j held rest, j ≠ i ∧ s !! j = Some (held, rest) ∧ l ∈ held.
Proof.
  intros Hts Hn Hi Htr l. destruct (run_ok ts s n Hts Hn) as [Hok _]. unfold ChildPostFork. rewrite clear_all.
  assert (Hlocked : locked s l = true ↔ ∃ j held rest, s !! j = Some (held, rest) ∧ l ∈ held).
  { unfold locked. rewrite bool_decide_eq_true, Exists_exists. split.
    - intros ([held rest] & [j Hj]%list_elem_of_lookup & Hl). by exists j, held, rest.
    - intros (j & held & rest & Hj & Hl). exists (held, rest). split; [by eapply list_elem_of_lookup_2|done]. }
  assert (Hin : l ∈ [InnerTrackerMt; ExitingMt] ++ (TrackerMt <$> seq 0 trackers) ++ [PostponedMt; TrackerGuardsMt; ThTrackersMt; Mt]
    ↔ l = InnerTrackerMt ∨ l = ExitingMt ∨ (∃ j, l = TrackerMt j ∧ (j < trackers)%nat)
      ∨ l = PostponedMt ∨ l = TrackerGuardsMt ∨ l = ThTrackersMt ∨ l = Mt).
  { rewrite !elem_of_app, list_elem_of_fmap, !elem_of_cons, !elem_of_nil. setoid_rewrite elem_of_seq.
    split; [intros [?|[(j & -> & ?)|?]]; [tauto| |tauto]; right; right; left; exists j; split; [done|lia]|].
    intros [?|[?|[(j & -> & ?)|?]]]; [tauto..| |tauto]. right. left. exists j. split; [done|lia]. }
  destruct (decide (l ∈ _)) as [Hl|Hl].
  - split; [done|]. intros [Hb _]. apply Hin in Hl. destruct Hb as [->| ->];
      destruct Hl as [?|[?|[(j & ? & _)|[?|[?|[?|?]]]]]]; done.
  - rewrite Hin in Hl. rewrite Hlocked. split.
    + intros Hh. assert (Hb : l = BtMt ∨ l = InnerBtMt).
      { destruct l as [| | |j| | | | |]; try tauto. exfalso. apply Hl. right. right. left. exists j.
        split; [done|]. by apply Htr, Hlocked. }
      split; [done|]. destruct Hh as (j & held & rest & Hj & Hx). exists j, held, rest. split; [|done].
      intros ->. rewrite Hi in Hj. injection Hj as <- _. cbn in Hx.
      destruct Hb as [->| ->]; repeat (apply elem_of_cons in Hx as [?|Hx]; [done|]); by apply elem_of_nil in Hx.
    + intros [_ (j & held & rest & _ & Hj & Hx)]. by exists j, held, rest.
Qed.

(** A fork while another thread inserts a trace. *)
Definition example_alloc : trace := holding (TrackerMt 0) (holding BtMt [] ++ []).
Definition example_threads : list trace := [PreFork ++ ParentPostFork; example_alloc].
Definition example_fork : list thread :=
  [([PostponedMt; TrackerGuardsMt; ThTrackersMt; Mt], ParentPostFork); ([BtMt; TrackerMt 0], [Ul BtMt; Ul (TrackerMt 0)])].

Lemma example_handlers : Forall (many handler) example_threads.
Proof.
  apply List.Forall_cons; [|apply List.Forall_cons; [|apply List.Forall_nil]].
  - rewrite <- (app_nil_r (PreFork ++ ParentPostFork)). apply many_cons; [apply handle_fork|apply many_nil].
  - rewrite <- (app_nil_r example_alloc). apply many_cons; [|apply many_nil].
    apply (handle_external (TrackerMt 0)); [right; by exists 0%nat|]. apply external_alloc; [|apply many_nil].
    apply (save_miss [] [] []); apply many_nil.
Qed.

Lemma example_run : nsteps lstep 6 (start example_threads) example_fork.
Proof.
  assert (Hfree : ∀ (s : list thread) l, locked s l = false → free s l).
  { intros s l Hl. unfold locked in Hl. apply bool_decide_eq_false in Hl. by apply Forall_Exists_neg. }
  eapply nsteps_l; [by eapply (step_lock _ 1); [|apply Hfree]|].
  eapply nsteps_l; [by eapply (step_lock _ 1); [|apply Hfree]|].
  do 4 (eapply nsteps_l; [by eapply (step_lock _ 0); [|apply Hfree]|]).
  apply nsteps_O.
Qed.

Lemma lock_progress_witness : ((∃ s', lstep example_fork s') ∨ finished example_fork) ∧ (6 ≤ work (start example_threads))%nat.
Proof. destruct (lock_progress example_threads example_fork 6 example_handlers example_run) as (H1 & H2 & _). done. Defined.

Lemma fork_child_witness : ChildPostFork 1 (locked example_fork) BtMt = true ∧ ChildPostFork 1 (locked example_fork) (TrackerMt 0) = false.
Proof.
  assert (H : ∀ l, ChildPostFork 1 (locked example_fork) l = true ↔
    (l = BtMt ∨ l = InnerBtMt) ∧ ∃ j held rest, j ≠ 0%nat ∧ example_fork !! j = Some (held, rest) ∧ l ∈ held).
  { apply (fork_child example_threads example_fork 6 0 ParentPostFork 1 example_handlers example_run); [done|].
    intros [|j]; [lia|]. intros Hj. exfalso. unfold locked in Hj. apply bool_decide_eq_true in Hj.
    repeat (apply Exists_cons in Hj as [Hj|Hj]; [cbn in Hj; repeat (apply elem_of_cons in Hj as [?|Hj]; [done|]); by apply elem_of_nil in Hj|]).
    by apply Exists_nil in Hj. }
  split.
  - apply H. split; [by left|]. exists 1%nat, [BtMt; TrackerMt 0], [Ul BtMt; Ul (TrackerMt 0)]. split; [done|]. split; [done|by left].
  - apply not_true_iff_false. intros [[?|?] _]%H; done.
Defined.
