(* ===== verification/Worker.v ===== *)
(** * The worker thread and its end ([MemHawk::TrackingWorker], [MemHawk::Stop])

    The loop of the worker and the thread that stops it, step by step between the operations on
    the mutex [m_mt], the condition variable [m_cv] and the flag [m_stopped].  Waiting on the
    condition variable gives the mutex up and sleeps in one step; it ends with a notification, the
    time limit or for no reason, and takes the mutex again.  A round of the loop, [WorkerUpdateData]
    and [WorkerPrintData], is the function [WorkerIteration] of [MemHawk]; here it is one step.  The end of the
    file has the time points of the rounds. *)

From Stdlib Require Import ZArith Lia Arith.
From stdpp Require Import base numbers list relations.
From S2P Require Import Prelude.

(** Where the worker is: at the condition of the loop, taking the mutex, at the condition of
    [wait_until], asleep, woken by the time limit or otherwise, in a round, giving the mutex
    back, at its end, or in a process that a fork made, where it does not exist. *)
Inductive wpc := WTest | WLock | WPred | WWait | WTimeout | WNotified | WRound | WUnlock | WDone | WGone.

(** Where [Stop] is: not called, setting the flag, notifying, giving the mutex back, joining, or
    returned from [join]. *)
Inductive spc := SLock | SSet | SNotify | SUnlock | SJoin | SDone.

#[export] Instance wpc_eq_dec : EqDecision wpc.
Proof. solve_decision. Defined.
#[export] Instance spc_eq_dec : EqDecision spc.
Proof. solve_decision. Defined.

Inductive owner := Nobody | Worker | Stopper | Forker.

Record state := mkState {
  st_worker : wpc;
  st_stop : spc;
  st_mt : owner;
  m_stopped : bool;
  (** [m_worker.joinable()] *)
  joinable : bool;
  (** rounds before and after the flag was set, and where the worker was at that moment *)
  rounds : nat;
  late : nat;
  was_at : option wpc;
}.

Definition start : state := mkState WTest SLock Nobody false true 0 0 None.

Definition with_worker s pc mt : state :=
  mkState pc (st_stop s) mt (m_stopped s) (joinable s) (rounds s) (late s) (was_at s).
Definition with_stop s pc mt : state :=
  mkState (st_worker s) pc mt (m_stopped s) (joinable s) (rounds s) (late s) (was_at s).

(** The next step of the worker; [timeout] tells why it wakes up when it sleeps. *)
Definition TrackingWorker_step (timeout : bool) (s : state) : option state :=
  match st_worker s with
  | WTest => Some (with_worker s (if m_stopped s then WDone else WLock) (st_mt s))
  | WLock => match st_mt s with Nobody => Some (with_worker s WPred Worker) | _ => None end
  | WPred => if m_stopped s then Some (with_worker s WRound Worker) else Some (with_worker s WWait Nobody)
  | WWait => Some (with_worker s (if timeout then WTimeout else WNotified) (st_mt s))
  | WTimeout => match st_mt s with Nobody => Some (with_worker s WRound Worker) | _ => None end
  | WNotified => match st_mt s with Nobody => Some (with_worker s WPred Worker) | _ => None end
  | WRound =>
    Some (mkState WUnlock (st_stop s) (st_mt s) (m_stopped s) (joinable s)
            (if m_stopped s then rounds s else S (rounds s)) (if m_stopped s then S (late s) else late s) (was_at s))
  | WUnlock => Some (with_worker s WTest Nobody)
  | WDone | WGone => None
  end.

(** The next step of [Stop]. *)
Definition Stop_step (s : state) : option state :=
  match st_stop s with
  | SLock => match st_mt s with Nobody => Some (with_stop s SSet Stopper) | _ => None end
  | SSet => Some (mkState (st_worker s) SNotify (st_mt s) true (joinable s) (rounds s) (late s) (Some (st_worker s)))
  | SNotify =>
    Some (mkState (if bool_decide (st_worker s = WWait) then WNotified else st_worker s) SUnlock (st_mt s)
            (m_stopped s) (joinable s) (rounds s) (late s) (was_at s))
  | SUnlock => Some (with_stop s SJoin Nobody)
  | SJoin =>
    if joinable s then
      if bool_decide (st_worker s = WDone)
      then Some (mkState (st_worker s) SDone (st_mt s) (m_stopped s) false (rounds s) (late s) (was_at s)) else None
    else Some (with_stop s SDone (st_mt s))
  | SDone => None
  end.

Inductive step : state → state → Prop :=
| step_worker timeout s s' : TrackingWorker_step timeout s = Some s' → step s s'
| step_stop s s' : Stop_step s = Some s' → step s s'.

Definition reachable (s : state) : Prop := rtc step start s.

(** ** The invariant *)

Definition worker_holds (pc : wpc) : bool := match pc with WPred | WRound | WUnlock => true | _ => false end.
Definition stop_holds (pc : spc) : bool := match pc with SSet | SNotify | SUnlock => true | _ => false end.
Definition owner_of (pc : wpc) (sp : spc) : owner :=
  if worker_holds pc then Worker else if stop_holds sp then Stopper else Nobody.
Definition flag_of (sp : spc) : bool := match sp with SLock | SSet => false | _ => true end.

(** The positions the two threads can be in together: they do not both hold the mutex, nobody
    sleeps after the notification, the worker ends only when it is told to. *)
Definition together (pc : wpc) (sp : spc) : bool :=
  negb (worker_holds pc && stop_holds sp) &&
  match pc, sp with
  | WGone, _ => false
  | WWait, (SUnlock | SJoin | SDone) => false
  | WDone, (SLock | SSet) => false
  | WDone, _ => true
  | _, SDone => false
  | _, _ => true
  end.

(** Rounds the worker still has to do once the flag is set. *)
Definition due (pc : wpc) : nat := match pc with WTest | WUnlock | WDone | WGone => 0 | _ => 1 end.

Record inv (s : state) : Prop := {
  iv_together : together (st_worker s) (st_stop s) = true;
  iv_mt : st_mt s = owner_of (st_worker s) (st_stop s);
  iv_flag : m_stopped s = flag_of (st_stop s);
  iv_join : joinable s = negb (bool_decide (st_stop s = SDone));
  iv_early : m_stopped s = false → late s = 0%nat ∧ was_at s = None;
  iv_late : m_stopped s = true → ∃ pc, was_at s = Some pc ∧ (late s + due (st_worker s) = due pc)%nat
    ∧ worker_holds pc = false ∧ pc ≠ WDone ∧ pc ≠ WGone;
}.

Lemma inv_start : inv start.
Proof. by split. Qed.

(** The fields about rounds after a step. *)
Ltac round_cases H4 H5 :=
  split; cbn; [reflexivity|reflexivity|reflexivity|reflexivity|intros; try discriminate; by apply H4|intros; try discriminate];
  first
  [ destruct (H5 eq_refl) as (pc & -> & Hl & Hp & Hd); exists pc; split; [done|]; split; [cbn in *; lia|]; done
  | destruct (H4 eq_refl) as [-> _]; eexists; split; [done|]; split; [done|]; done ].

Lemma inv_step s s' : inv s → step s s' → inv s'.
Proof.
  intros [H1 H2 H3 Hj H4 H5] Hs. destruct Hs as [timeout [pc sp mt fl jn r l wa] s2 E|[pc sp mt fl jn r l wa] s2 E]; cbn in *; subst mt fl jn.
  - unfold TrackingWorker_step in E. destruct pc, sp, timeout; cbn in *; try discriminate; injection E as <-; round_cases H4 H5.
  - unfold Stop_step in E. destruct sp, pc; cbn in *; try discriminate; injection E as <-; round_cases H4 H5.
Qed.

Lemma worker_inv s : reachable s → inv s.
Proof.
  unfold reachable. intros H. revert s H. apply rtc_ind_r; [apply inv_start|]. intros y z _ Hyz Hy. by eapply inv_step.
Qed.

(** ** Termination *)

(** Steps that are left once the flag is set. *)
Definition worker_left (pc : wpc) : nat :=
  match pc with
  | WDone | WGone => 0 | WTest => 1 | WUnlock => 2 | WRound => 3 | WPred => 4 | WLock => 5 | WTimeout => 5 | WNotified => 5 | WWait => 6
  end.
Definition stop_left (sp : spc) : nat :=
  match sp with SLock => 5 | SSet => 4 | SNotify => 3 | SUnlock => 2 | SJoin => 1 | SDone => 0 end.
Definition left (s : state) : nat := worker_left (st_worker s) + stop_left (st_stop s).

Lemma left_step s s' : inv s → m_stopped s = true → step s s' → (left s' < left s)%nat ∧ m_stopped s' = true.
Proof.
  intros [H1 H2 H3 Hj _ _] Hs Hst. destruct Hst as [timeout [pc sp mt fl jn r l wa] s2 E|[pc sp mt fl jn r l wa] s2 E]; cbn in *; subst mt fl jn.
  - unfold TrackingWorker_step in E. destruct pc, sp, timeout; cbn in *; try discriminate; injection E as <-;
      unfold left; cbn; (split; [lia|done]).
  - unfold Stop_step in E. destruct sp, pc; cbn in *; try discriminate; injection E as <-; unfold left; cbn; (split; [lia|done]).
Qed.

(** Once the flag is set some thread can go on until [Stop] has returned. *)
Lemma stop_live s : inv s → m_stopped s = true → (∃ s', step s s') ∨ st_worker s = WDone ∧ st_stop s = SDone.
Proof.
  intros [H1 H2 H3 Hj _ _] Hs. destruct s as [pc sp mt fl jn r l wa]. cbn in *. subst mt fl jn.
  destruct sp, pc; cbn in *; try discriminate; try (by right); left;
    first [eexists; apply (step_worker true); unfold TrackingWorker_step; cbn; reflexivity
          |eexists; apply step_stop; unfold Stop_step; cbn; reflexivity].
Qed.

Lemma left_run s s' n : inv s → m_stopped s = true → nsteps step n s s' →
  inv s' ∧ m_stopped s' = true ∧ (n + left s' ≤ left s)%nat.
Proof.
  intros Hi Hs H. induction H as [s|n s s1 s2 Hst _ IH]; [split; [done|split; [done|lia]]|].
  destruct (left_step s s1 Hi Hs Hst) as [Hl Hs1]. destruct (IH (inv_step _ _ Hi Hst) Hs1) as (H1 & H2 & H3). split; [done|]. split; [done|lia].
Qed.

(** ** Processes without a worker *)

(** A thread that forks: [PreFork] takes the mutex when it is free; the parent gives it back; the
    child has a copy of the memory and none of the other threads, and [ChildPostFork] gives the
    mutex back and makes [m_cv] and [m_worker] anew.  [Stop] is still to be called there. *)
Definition with_mutex (s : state) (mt : owner) : state :=
  mkState (st_worker s) (st_stop s) mt (m_stopped s) (joinable s) (rounds s) (late s) (was_at s).
Definition PreFork_worker (s : state) : option state :=
  match st_mt s with Nobody => Some (with_mutex s Forker) | _ => None end.
Definition ParentPostFork_worker (s : state) : state := with_mutex s Nobody.
Definition fork_copy (s : state) : state :=
  mkState WGone SLock (st_mt s) (m_stopped s) (joinable s) (rounds s) (late s) (was_at s).
Definition ChildPostFork_worker (s : state) : state :=
  mkState (st_worker s) (st_stop s) Nobody (m_stopped s) false (rounds s) (late s) (was_at s).

(** No worker and nothing to join. *)
Definition alone (s : state) : Prop :=
  st_worker s = WGone ∧ joinable s = false ∧ st_mt s = (if stop_holds (st_stop s) then Stopper else Nobody)
  ∧ (flag_of (st_stop s) = true → m_stopped s = true).

Lemma alone_step s s' : alone s → step s s' →
  alone s' ∧ S (stop_left (st_stop s')) = stop_left (st_stop s) ∧ rounds s' = rounds s ∧ late s' = late s.
Proof.
  intros (H1 & H2 & H3 & H4) Hs. destruct Hs as [timeout [pc sp mt fl jn r l wa] s2 E|[pc sp mt fl jn r l wa] s2 E]; cbn in *; subst pc jn mt.
  - discriminate E.
  - unfold Stop_step in E. destruct sp; cbn in E; try discriminate; injection E as <-; (split; [|done]); by split.
Qed.

Lemma alone_live s : alone s → (∃ s', step s s') ∨ st_stop s = SDone.
Proof.
  intros (H1 & H2 & H3 & _). destruct s as [pc sp mt fl jn r l wa]. cbn in *. subst pc jn mt.
  destruct sp; [left..|by right]; eexists; apply step_stop; unfold Stop_step; cbn; reflexivity.
Qed.

Lemma alone_run s s' n : alone s → nsteps step n s s' →
  alone s' ∧ (n + stop_left (st_stop s') = stop_left (st_stop s))%nat ∧ rounds s' = rounds s ∧ late s' = late s.
Proof.
  intros Ha H. induction H as [s|n s s1 s2 Hst _ IH]; [by split_and!|]. destruct (alone_step s s1 Ha Hst) as (Ha1 & E & Er & El).
  destruct (IH Ha1) as (? & ? & ? & ?). split; [done|]. split; [lia|]. split; congruence.
Qed.

Lemma fork_alone s s1 : PreFork_worker s = Some s1 → alone (ChildPostFork_worker (fork_copy s1)).
Proof. intros _. by split_and!. Qed.

(** Who has the mutex can go on. *)
Lemma owner_live s : inv s → PreFork_worker s = None → ∃ s', step s s'.
Proof.
  intros [H1 H2 H3 _ _ _] Hf. destruct s as [pc sp mt fl jn r l wa]. cbn in *. subst mt fl.
  unfold PreFork_worker in Hf. cbn in Hf. destruct pc, sp; cbn in *; try discriminate;
    first [eexists; apply (step_worker true); unfold TrackingWorker_step; cbn; reflexivity
          |eexists; apply step_stop; unfold Stop_step; cbn; reflexivity].
Qed.

(** Without a new [m_worker] the child would wait for a thread that does not exist. *)
Lemma child_stuck fl : ¬ ∃ s, step (mkState WGone SJoin Nobody fl true 0 0 None) s.
Proof. intros [s Hs]. inversion Hs as [timeout ? s2 E|? s2 E]; subst; discriminate E. Qed.

(** ** Properties *)

(** C8: [Stop] ends the worker, from every state the two threads can reach and in every
    interleaving: the notification is never missed, so that without waiting for the time limit,
    after at most nine steps of the two threads together, nothing is left but the worker at its
    end and [Stop] back from [join]; as long as this is not so one of them can go on.  When the flag was set while
    the worker was asleep or about to wait, one more round reports everything tracked until then;
    when the worker was at the condition of its loop it ends without another round.  A fork, at any
    reachable state and whether the parent is stopping or not, waits for the mutex only while
    the thread that has it can go on, and leaves the parent as it was; in the child, [Stop] goes through its
    five steps without waiting for anything, sets the flag, and no round is made. *)
Theorem worker_stops s : reachable s →
  (m_stopped s = true → ∀ n s', nsteps step n s s' →
    (n ≤ 9)%nat ∧ ((∃ s2, step s' s2) ∨ st_worker s' = WDone ∧ st_stop s' = SDone)
    ∧ (st_worker s' = WDone → ∃ pc, was_at s' = Some pc ∧ late s' = due pc
        ∧ (pc = WTest ∨ pc = WLock ∨ pc = WWait ∨ pc = WTimeout ∨ pc = WNotified)))
  ∧ (PreFork_worker s = None → ∃ s', step s s')
  ∧ (∀ s1, PreFork_worker s = Some s1 → ParentPostFork_worker s1 = s
      ∧ ∀ n c, nsteps step n (ChildPostFork_worker (fork_copy s1)) c →
          (n ≤ 5)%nat ∧ rounds c = rounds s ∧ late c = late s
          ∧ ((∃ c2, step c c2) ∨ n = 5%nat ∧ st_stop c = SDone ∧ m_stopped c = true)).
Proof.
  intros Hr%worker_inv. split; [|split; [by apply owner_live|]].
  - intros Hs n s' Hn. destruct (left_run s s' n Hr Hs Hn) as (Hi & Hs' & Hl). split; [|split; [by apply stop_live|]].
    + assert (left s ≤ 9)%nat; [|lia]. destruct Hr as [H1 _ H3 _ _ _]. unfold left. rewrite Hs in H3.
      destruct (st_worker s), (st_stop s); cbn in *; try discriminate; lia.
    + intros Hd. destruct (iv_late s' Hi Hs') as (pc & Ew & El & Hh & Hne). exists pc. split; [done|].
      rewrite Hd in El. cbn in El. split; [lia|]. destruct pc; cbn in Hh; try discriminate; tauto.
  - intros s1 Hf. assert (s1 = with_mutex s Forker ∧ st_mt s = Nobody) as [-> Hmt].
    { unfold PreFork_worker in Hf. destruct (st_mt s); try discriminate Hf. by injection Hf as <-. }
    split; [destruct s; cbn in Hmt; by subst|]. intros n c Hn.
    apply alone_run in Hn as (Ha & E & Er & El); [|by eapply fork_alone]. cbn in E. split; [lia|]. split; [done|]. split; [done|].
    destruct (alone_live c Ha) as [?|Ed]; [by left|right]. rewrite Ed in E. cbn in E. split; [lia|]. split; [done|].
    apply Ha. by rewrite Ed.
Qed.

(** Runs by a schedule: [None] is a step of [Stop]. *)
Definition move (s : state) (who : option bool) : option state :=
  match who with Some timeout => TrackingWorker_step timeout s | None => Stop_step s end.
Definition run (s : state) (sched : list (option bool)) : option state := foldl (fun o who => o ≫= fun s => move s who) (Some s) sched.

Lemma run_steps sched : ∀ s s', run s sched = Some s' → nsteps step (length sched) s s'.
Proof.
  induction sched as [|who sched IH]; intros s s' H; cbn in H; [injection H as <-; apply nsteps_O|].
  destruct (move s who) as [s1|] eqn:E.
  - eapply nsteps_l; [|by apply IH]. destruct who; [by eapply step_worker|by eapply step_stop].
  - exfalso. clear -H. induction sched as [|x sched IH]; cbn in H; [done|auto].
Qed.

Definition asleep : state := mkState WWait SNotify Stopper true true 0 0 (Some WWait).
Definition stopped : state := mkState WDone SDone Nobody true false 0 1 (Some WWait).

Lemma worker_stops_witness :
  ((∃ s, step stopped s) ∨ st_worker stopped = WDone ∧ st_stop stopped = SDone)
  ∧ (∃ pc, was_at stopped = Some pc ∧ late stopped = due pc)
  ∧ ∃ c, run (ChildPostFork_worker (fork_copy (with_mutex start Forker))) [None; None; None; None; None] = Some c
      ∧ st_stop c = SDone ∧ m_stopped c = true.
Proof.
  destruct (worker_stops asleep) as (Hs & _ & _).
  { apply rtc_nsteps_2 with (n := 5%nat). apply (run_steps [Some true; Some true; Some true; None; None]). reflexivity. }
  destruct (Hs eq_refl 8%nat stopped) as (_ & H & Hl).
  { apply (run_steps [None; None; Some true; Some true; Some true; Some true; Some true; None]). reflexivity. }
  split; [exact H|]. split; [destruct (Hl eq_refl) as (pc & E1 & E2 & _); by exists pc|].
  destruct (run _ _) as [c|] eqn:E; [|discriminate E]. exists c. split; [reflexivity|].
  destruct (worker_stops start) as (_ & _ & Hf); [apply rtc_refl|].
  destruct (Hf _ eq_refl) as [_ Hc]. destruct (Hc 5%nat c (run_steps _ _ _ E)) as (_ & _ & _ & [[c2 Hc2]|(_ & H1 & H2)]); [|by split].
  exfalso. vm_compute in E. injection E as <-. inversion Hc2 as [timeout ? s2 E2|? s2 E2]; subst; discriminate E2.
Defined.

(** The flag is set between two rounds: what was tracked since the last one is not reported. *)
Lemma stops_without_round : ∃ s, reachable s ∧ st_stop s = SDone ∧ rounds s = 1%nat ∧ late s = 0%nat.
Proof.
  exists (mkState WDone SDone Nobody true false 1 0 (Some WTest)). split; [|done].
  apply rtc_nsteps_2 with (n := 13%nat). apply (run_steps
    [Some true; Some true; Some true; Some true; Some true; Some true; Some true; None; None; None; None; Some true; None]). reflexivity.
Qed.

(** ** When the rounds are due

    The time points of the loop, in nanoseconds of the steady clock: how long a round takes and how
    late the thread is woken are inputs. *)

Open Scope Z_scope.

(** [std::chrono::milliseconds] from the value of the option, in nanoseconds. *)
Definition waitingDelay (TrackerDumpingPeriodMs : Z) : Z := i64 (i64 TrackerDumpingPeriodMs * 1000000).

(** The flag is set by the time [now]; [stop] is when [Stop] sets it, if ever. *)
Definition stopped_by (stop : option Z) (now : Z) : bool :=
  match stop with Some t => t <=? now | None => false end.

(** When [wait_until] returns: the predicate holds from [stop] on, the notification comes with it. *)
Definition wait_until (stop : option Z) (now timepoint : Z) : Z :=
  match stop with Some t => Z.min (Z.max now timepoint) (Z.max now t) | None => Z.max now timepoint end.

(** The rounds: each one begins when its time point has come or the worker is told to stop; [late]
    and [takes] are the delay of the wake-up, with taking the mutex, and the duration of a round.  The
    result lists when rounds begin. *)
Fixpoint worker_clock (delay nextTimepoint now : Z) (stop : option Z) (rounds : list (Z * Z)) : list Z :=
  match rounds with
  | [] => []
  | (late, takes) :: rounds =>
    if stopped_by stop now then []
    else
      let begin := wait_until stop now nextTimepoint + late in
      begin :: worker_clock delay (i64 (nextTimepoint + delay)) (begin + takes) stop rounds
  end.

Definition TrackingWorker_clock (TrackerDumpingPeriodMs now : Z) (stop : option Z) (rounds : list (Z * Z)) : list Z :=
  let delay := waitingDelay TrackerDumpingPeriodMs in
  worker_clock delay (i64 (now + delay)) now stop rounds.

Lemma waitingDelay_exact ms : 0 ≤ ms < 2 ^ 43 → waitingDelay ms = ms * 1000000.
Proof. intros H. unfold waitingDelay. rewrite (i64_small ms) by (unfold is_i64; lia). apply i64_small. unfold is_i64. lia. Qed.

(** The result is about round [k + i] when [k] rounds were before. *)
Record round_ok (d t0 : Z) (stop : option Z) (rounds : list (Z * Z)) (all : list Z) (k i : nat) (begin : Z) : Prop := {
  ro_early : t0 + Z.of_nat (k + i) * d ≤ begin ∨ ∃ t, stop = Some t ∧ t ≤ begin;
  ro_last t : stop = Some t → t ≤ begin → length all = S i;
  ro_prompt t late takes : stop = Some t → rounds !! i = Some (late, takes) → begin ≤ t + late;
}.

Lemma clock_rounds d t0 stop rounds : 0 ≤ d → 0 ≤ t0 → ∀ k now, t0 + (Z.of_nat k + zlen rounds) * d < 2 ^ 63 →
  Forall (fun r => 0 ≤ r.1 ∧ 0 ≤ r.2) rounds →
  let all := worker_clock d (t0 + Z.of_nat k * d) now stop rounds in
  ∀ i begin, all !! i = Some begin →
    round_ok d t0 stop rounds all k i begin
    ∧ (Forall (fun r => r.1 + r.2 ≤ d) rounds → now ≤ t0 + Z.of_nat k * d → begin ≤ t0 + Z.of_nat (k + i + 1) * d).
Proof.
  intros Hd Ht. induction rounds as [|[late takes] rounds IH]; intros k now Hb Hr all; subst all; cbn [worker_clock]; intros i begin; [done|].
  apply Forall_cons in Hr as [[Hl Hk] Hr]. cbn in Hl, Hk. destruct (stopped_by stop now) eqn:Est; [done|].
  rewrite zlen_cons in Hb. pose proof (zlen_nonneg rounds).
  assert (Hn : i64 (t0 + Z.of_nat k * d + d) = t0 + Z.of_nat (S k) * d) by (rewrite i64_small; unfold is_i64; nia).
  rewrite Hn. set (b0 := wait_until stop now (t0 + Z.of_nat k * d) + late).
  assert (Hle : b0 ≤ Z.max now (t0 + Z.of_nat k * d) + late) by (subst b0; unfold wait_until; destruct stop; lia).
  destruct i as [|i]; cbn [lookup list_lookup].
  - intros [= <-]. rewrite Nat.add_0_r. split; [split|].
    + subst b0. unfold wait_until, stopped_by in *. destruct stop as [t|]; [|left; lia].
      destruct (Z.leb_spec t now); [done|]. destruct (Z.le_gt_cases t (t0 + Z.of_nat k * d)); [right; exists t; split; [done|lia]|left; lia].
    + intros t -> Htb. destruct rounds as [|[l2 t2] rounds]; [done|]. cbn [worker_clock]. unfold stopped_by.
      by rewrite (proj2 (Z.leb_le t (b0 + takes))) by lia.
    + intros t l t' -> [= <- <-]. subst b0. unfold wait_until, stopped_by in *. destruct (Z.leb_spec t now); [done|]. lia.
    + intros Hs Hnow. apply Forall_cons in Hs as [Hs _]. cbn in Hs. nia.
  - intros Hi. apply (IH (S k) (b0 + takes)) in Hi as [[H1 H2 H3] H4]; [|nia|done]. replace (S k + i)%nat with (k + S i)%nat in * by lia.
    split; [split; [done| |done]|].
    + intros t Hst Htb. cbn [length]. f_equal. by eapply H2.
    + intros Hs Hnow. apply Forall_cons in Hs as [Hs1 Hs]. cbn in Hs1. apply H4; [done|]. nia.
Qed.

(** C22: rounds are periodic.  Round [i] of the worker never begins before [i + 1] periods have passed
    since the worker started, unless [Stop] was called before it: then it is the last one, and in any
    case no round begins later after the call of [Stop] than its own wake-up takes.  When for every round
    the delay of the wake-up and the duration together are at most a period, round [i] begins at most
    one period after its time: delays do not add up.  The period is below 2^43 milliseconds and the time
    points fit in 64 bits. *)
Theorem rounds_periodic ms now stop rounds i begin :
  0 ≤ ms < 2 ^ 43 → 0 ≤ now → now + (1 + zlen rounds) * (ms * 1000000) < 2 ^ 63 →
  Forall (fun r => 0 ≤ r.1 ∧ 0 ≤ r.2) rounds → TrackingWorker_clock ms now stop rounds !! i = Some begin →
  (now + (Z.of_nat i + 1) * (ms * 1000000) ≤ begin ∨ ∃ t, stop = Some t ∧ t ≤ begin)
  ∧ (∀ t, stop = Some t → t ≤ begin → length (TrackingWorker_clock ms now stop rounds) = S i)
  ∧ (∀ t late takes, stop = Some t → rounds !! i = Some (late, takes) → begin ≤ t + late)
  ∧ (Forall (fun r => r.1 + r.2 ≤ ms * 1000000) rounds → begin ≤ now + (Z.of_nat i + 2) * (ms * 1000000)).
Proof.
  intros Hms Hnow Hb Hr. unfold TrackingWorker_clock. rewrite (waitingDelay_exact ms Hms). set (d := ms * 1000000) in *.
  pose proof (zlen_nonneg rounds). rewrite i64_small by (unfold is_i64; nia).
  replace (now + d) with (now + Z.of_nat 1 * d) by lia. intros Hi.
  apply (clock_rounds d now stop rounds ltac:(lia) Hnow 1 now ltac:(lia) Hr) in Hi as [[H1 H2 H3] H4].
  split; [|split; [done|split; [done|]]].
  - destruct H1 as [H1|H1]; [left; nia|by right].
  - intros Hs. specialize (H4 Hs). nia.
Qed.

(** The greatest value of the option asks for a period of -1 milliseconds: the worker never waits. *)
Lemma period_wraps : waitingDelay (2 ^ 64 - 1) = - 1000000.
Proof. reflexivity. Qed.

(** The third round is brought forward by [Stop] and is the last. *)
Lemma rounds_periodic_witness :
  let rounds := [(0, 10); (3, 20); (1, 5); (0, 10)] in let stop := Some 2500000000 in
  TrackingWorker_clock 1000 5 stop rounds = [1000000005; 2000000008; 2500000001]
  ∧ 5 + 2 * (1000 * 1000000) ≤ 2000000008 ≤ 5 + 3 * (1000 * 1000000)
  ∧ length (TrackingWorker_clock 1000 5 stop rounds) = 3%nat.
Proof.
  intros rounds stop. split; [reflexivity|].
  destruct (rounds_periodic 1000 5 stop rounds 1 2000000008) as (H1 & _ & _ & H2);
    [lia|lia|vm_compute; reflexivity|repeat constructor; cbn; lia|reflexivity|].
  destruct (rounds_periodic 1000 5 stop rounds 2 2500000001) as (_ & H3 & _);
    [lia|lia|vm_compute; reflexivity|repeat constructor; cbn; lia|reflexivity|].
  split; [|apply (H3 2500000000); [reflexivity|lia]].
  split; [destruct H1 as [H1|(t & [= <-] & ?)]; [exact H1|lia]|apply H2; repeat constructor; cbn; lia].
Defined.
