(* ===== verification/SignalMask.v ===== *)
(** * Signals and the worker thread ([impl/scoped_sigmask.h], the frame of [MemHawk::TrackingWorker])

    The worker runs with all signals masked, so that a handler of the application never runs on
    a thread the application does not know.  Threads have masks and pending signals, the process
    has pending signals of its own; a signal is delivered to a thread that does not mask it.
    The worker goes through the statements of [TrackingWorker] in order, guards and destructors
    included; the rounds of its loop are in [Worker]. *)

From Stdlib Require Import ZArith Lia.
From stdpp Require Import base numbers list gmap functions relations strings.
From S2P Require Import Prelude.

(** ** Masks *)

Abbreviation sigset := (gset Z).

Inductive How := SIG_BLOCK | SIG_UNBLOCK | SIG_SETMASK.

Definition SIGKILL : Z := 9.
Definition SIGSTOP : Z := 19.

(** Signals that cannot be masked: two of POSIX, and those the C library keeps for itself. *)
Definition unmaskable : sigset := {[SIGKILL; SIGSTOP; 32; 33]}.

(** [sigfillset]: every signal but those of the C library. *)
Definition sigfillset : sigset := list_to_set (seqZ 1 64) ∖ {[32; 33]}.

(** The new mask of the calling thread and the one it had. *)
Definition pthread_sigmask (how : How) (set : sigset) (mask : sigset) : sigset * sigset :=
  (match how with SIG_BLOCK => mask ∪ set | SIG_UNBLOCK => mask ∖ set | SIG_SETMASK => set end ∖ unmaskable, mask).

(** ** [ScopedSignalBlocker] *)

Definition Setmask (how : How) (set mask : sigset) : sigset * sigset := pthread_sigmask how set mask.

(** The mask of the thread and [m_oldMask]. *)
Definition ScopedSignalBlocker_ctor (mask : sigset) : sigset * sigset := Setmask SIG_SETMASK sigfillset mask.

Definition ScopedSignalBlocker_dtor (m_oldMask mask : sigset) : sigset := (Setmask SIG_SETMASK m_oldMask mask).1.

(** ** The worker *)

(** The statement that comes next: the guard, the name of the thread, the blocker, the first log
    line, the loop, the last log line, the destructors of the blocker and of the guard. *)
Inductive frame_pc := FGuard | FName | FBlock | FStarted | FLoop | FFinished | FUnblock | FUnguard | FEnd.

#[export] Instance frame_pc_eq_dec : EqDecision frame_pc.
Proof. solve_decision. Defined.

Record worker := mkWorker {
  wk_pc : frame_pc;
  wk_mask : sigset;
  wk_oldMask : sigset;
  (** [RecursionGuard<AllocTag>::level] of the thread *)
  wk_level : Z;
  (** the log lines it wrote *)
  wk_log : list string;
}.

(** A thread starts with the mask of the one that made it. *)
Definition worker_start (mask : sigset) : worker := mkWorker FGuard mask ∅ 0 [].

(** [stopped]: what the condition of the loop reads. *)
Definition TrackingWorker_frame (stopped : bool) (w : worker) : option worker :=
  let goto pc := mkWorker pc (wk_mask w) (wk_oldMask w) (wk_level w) (wk_log w) in
  match wk_pc w with
  | FGuard => Some (mkWorker FName (wk_mask w) (wk_oldMask w) (u32 (wk_level w + 1)) (wk_log w))
  | FName => Some (goto FBlock)
  | FBlock => let '(mask, old) := ScopedSignalBlocker_ctor (wk_mask w) in Some (mkWorker FStarted mask old (wk_level w) (wk_log w))
  | FStarted => Some (mkWorker FLoop (wk_mask w) (wk_oldMask w) (wk_level w) (wk_log w ++ ["Tracking worker started"%string]))
  | FLoop => Some (goto (if stopped then FFinished else FLoop))
  | FFinished => Some (mkWorker FUnblock (wk_mask w) (wk_oldMask w) (wk_level w) (wk_log w ++ ["Tracking worker finished"%string]))
  | FUnblock => Some (mkWorker FUnguard (ScopedSignalBlocker_dtor (wk_oldMask w) (wk_mask w)) (wk_oldMask w) (wk_level w) (wk_log w))
  | FUnguard => Some (mkWorker FEnd (wk_mask w) (wk_oldMask w) (u32 (wk_level w - 1)) (wk_log w))
  | FEnd => None
  end.

(** ** The process *)

(** The worker, the masks of the other threads, the signals that are pending for the worker, for another
    thread and for the process, and those that were handled: on the worker with the place where
    it was and its guard, on others with the thread. *)
Record process := mkSignals {
  sg_worker : worker;
  sg_masks : nat → sigset;
  sg_for_worker : sigset;
  sg_for : nat → sigset;
  sg_process : sigset;
  sg_on_worker : list (Z * frame_pc * Z);
  sg_on_other : list (Z * nat);
}.

Inductive sig_step : process → process → Prop :=
| sg_run stopped p w : TrackingWorker_frame stopped (sg_worker p) = Some w →
    sig_step p (mkSignals w (sg_masks p) (sg_for_worker p) (sg_for p) (sg_process p) (sg_on_worker p) (sg_on_other p))
| sg_mask p i how set :
    sig_step p (mkSignals (sg_worker p) (<[i := (pthread_sigmask how set (sg_masks p i)).1]> (sg_masks p)) (sg_for_worker p) (sg_for p)
                  (sg_process p) (sg_on_worker p) (sg_on_other p))
| sg_kill p sig : 1 ≤ sig ≤ 64 →
    sig_step p (mkSignals (sg_worker p) (sg_masks p) (sg_for_worker p) (sg_for p) ({[sig]} ∪ sg_process p) (sg_on_worker p) (sg_on_other p))
| sg_kill_worker p sig : 1 ≤ sig ≤ 64 →
    sig_step p (mkSignals (sg_worker p) (sg_masks p) ({[sig]} ∪ sg_for_worker p) (sg_for p) (sg_process p) (sg_on_worker p) (sg_on_other p))
| sg_kill_other p i sig : 1 ≤ sig ≤ 64 →
    sig_step p (mkSignals (sg_worker p) (sg_masks p) (sg_for_worker p) (<[i := {[sig]} ∪ sg_for p i]> (sg_for p)) (sg_process p)
                  (sg_on_worker p) (sg_on_other p))
| sg_deliver_worker p sig : sig ∈ sg_for_worker p ∪ sg_process p → sig ∉ wk_mask (sg_worker p) → wk_pc (sg_worker p) ≠ FEnd →
    sig_step p (mkSignals (sg_worker p) (sg_masks p) (sg_for_worker p ∖ {[sig]}) (sg_for p)
                  (if bool_decide (sig ∈ sg_for_worker p) then sg_process p else sg_process p ∖ {[sig]})
                  (sg_on_worker p ++ [(sig, wk_pc (sg_worker p), wk_level (sg_worker p))]) (sg_on_other p))
| sg_deliver_other p i sig : sig ∈ sg_for p i ∪ sg_process p → sig ∉ sg_masks p i →
    sig_step p (mkSignals (sg_worker p) (sg_masks p) (sg_for_worker p) (<[i := sg_for p i ∖ {[sig]}]> (sg_for p))
                  (if bool_decide (sig ∈ sg_for p i) then sg_process p else sg_process p ∖ {[sig]})
                  (sg_on_worker p) (sg_on_other p ++ [(sig, i)])).

Definition sig_start (mask : sigset) (masks : nat → sigset) : process :=
  mkSignals (worker_start mask) masks ∅ (fun _ => ∅) ∅ [] [].

(** ** Invariants *)

(** The places between construction and destruction of the blocker, and of the guard. *)
Definition in_scope (pc : frame_pc) : bool := match pc with FStarted | FLoop | FFinished | FUnblock => true | _ => false end.
Definition guarded (pc : frame_pc) : bool := match pc with FGuard | FEnd => false | _ => true end.

Lemma fill_masked sig : 1 ≤ sig ≤ 64 → sig ∉ unmaskable → sig ∈ sigfillset ∖ unmaskable.
Proof.
  intros Hs Hu. apply elem_of_difference. split; [|done]. unfold sigfillset, unmaskable in *. apply elem_of_difference. split;
    [|intros Hin; apply Hu; rewrite !elem_of_union, !elem_of_singleton in *; tauto].
  apply elem_of_list_to_set, elem_of_seqZ. lia.
Qed.

(** A scope leaves the mask as it was. *)
Lemma blocker_restores mask : mask ## unmaskable → let '(inside, old) := ScopedSignalBlocker_ctor mask in
  ScopedSignalBlocker_dtor old inside = mask ∧ inside = sigfillset ∖ unmaskable ∧ inside ## unmaskable.
Proof.
  intros Hm. unfold ScopedSignalBlocker_ctor, ScopedSignalBlocker_dtor, Setmask, pthread_sigmask. cbn [fst snd].
  split; [apply difference_disjoint_L, Hm|]. split; [done|]. apply elem_of_disjoint. by intros x [_ ?]%elem_of_difference.
Qed.

(** Scopes within scopes. *)
Fixpoint nested (n : nat) (mask : sigset) : sigset :=
  match n with
  | O => mask
  | S n => let '(inside, old) := ScopedSignalBlocker_ctor mask in ScopedSignalBlocker_dtor old (nested n inside)
  end.

Lemma nested_restores n : ∀ mask, mask ## unmaskable → nested n mask = mask.
Proof.
  induction n as [|n IH]; intros mask Hm; [done|]. cbn [nested]. pose proof (blocker_restores mask Hm) as H.
  destruct (ScopedSignalBlocker_ctor mask) as [inside old]. destruct H as (H & _ & Hi). by rewrite IH.
Qed.

Definition log_at (pc : frame_pc) : list string :=
  match pc with
  | FGuard | FName | FBlock | FStarted => []
  | FLoop | FFinished => ["Tracking worker started"%string]
  | _ => ["Tracking worker started"%string; "Tracking worker finished"%string]
  end.

Record worker_ok (mask : sigset) (w : worker) : Prop := {
  wo_mask : wk_mask w = if in_scope (wk_pc w) then sigfillset ∖ unmaskable else mask;
  wo_old : in_scope (wk_pc w) = true → wk_oldMask w = mask;
  wo_level : wk_level w = if guarded (wk_pc w) then 1 else 0;
  wo_log : wk_log w = log_at (wk_pc w);
}.

Lemma worker_ok_step mask stopped w w' : mask ## unmaskable → worker_ok mask w → TrackingWorker_frame stopped w = Some w' → worker_ok mask w'.
Proof.
  intros Hm [H1 H2 H3 H4] E. destruct w as [pc m old level log]. cbn [wk_pc wk_mask wk_oldMask wk_level wk_log] in *.
  destruct pc; cbn in *; try discriminate; injection E as <-; subst; split; cbn; try done.
  all: try by destruct stopped.
  rewrite (H2 eq_refl). by apply difference_disjoint_L.
Qed.

(** What a handler on the worker saw. *)
Definition handled_ok (h : Z * frame_pc * Z) : Prop :=
  (in_scope h.1.2 = true → h.1.1 ∈ unmaskable) ∧ h.2 = (if guarded h.1.2 then 1 else 0).

Record signals_ok (mask : sigset) (p : process) : Prop := {
  so_worker : worker_ok mask (sg_worker p);
  so_range1 sig : sig ∈ sg_for_worker p → 1 ≤ sig ≤ 64;
  so_range2 sig : sig ∈ sg_process p → 1 ≤ sig ≤ 64;
  so_handled : Forall handled_ok (sg_on_worker p);
}.

Lemma taken (b : bool) (x sig : Z) (X : sigset) : x ∈ (if b then X else X ∖ {[sig]}) → x ∈ X.
Proof. destruct b; [done|]. by intros [? _]%elem_of_difference. Qed.

Lemma signals_ok_step mask p p' : mask ## unmaskable → signals_ok mask p → sig_step p p' → signals_ok mask p'.
Proof.
  intros Hm [Hw H1 H2 Hh] Hs. destruct Hs as [stopped p w E|p i how set|p sig Hs|p sig Hs|p i sig Hs|p sig Hin Hno _|p i sig Hin Hno];
    (split; cbn; [|intros x Hx|intros x Hx|]); auto.
  - by eapply worker_ok_step.
  - apply elem_of_union in Hx as [->%elem_of_singleton|Hx]; auto.
  - apply elem_of_union in Hx as [->%elem_of_singleton|Hx]; auto.
  - apply elem_of_difference in Hx as [Hx _]; auto.
  - apply taken in Hx; auto.
  - apply Forall_app. split; [done|]. apply Forall_singleton. split; cbn; [|apply (wo_level _ _ Hw)]. intros Hsc.
    rewrite (wo_mask _ _ Hw), Hsc in Hno. destruct (decide (sig ∈ unmaskable)) as [|Hu]; [done|]. exfalso. apply Hno, fill_masked; [|done].
    apply elem_of_union in Hin as [?|?]; auto.
  - apply taken in Hx; auto.
Qed.

Lemma signals_ok_start mask masks : signals_ok mask (sig_start mask masks).
Proof. split; cbn; [by split|by intros sig ?%elem_of_empty..|constructor]. Qed.

Lemma signals_run mask masks p : mask ## unmaskable → rtc sig_step (sig_start mask masks) p → signals_ok mask p.
Proof.
  intros Hm. apply (rtc_ind_r (signals_ok mask)); [apply signals_ok_start|]. intros p1 p2 _ Hs H. by eapply signals_ok_step.
Qed.

(** A signal for the process stays until a thread handles it; while the worker is in its scope that
    is another thread. *)
Lemma signal_kept mask p p' sig : signals_ok mask p → in_scope (wk_pc (sg_worker p)) = true → sig ∉ unmaskable → sig ∈ sg_process p →
  sig_step p p' → sig ∈ sg_process p' ∨ ∃ i, last (sg_on_other p') = Some (sig, i).
Proof.
  intros [Hw _ Hr _] Hsc Hu Hin Hs. destruct Hs as [stopped p w E|p i how set|p x Hs|p x Hs|p i x Hs|p x Hx Hno _|p i x Hx Hno]; cbn; auto.
  - left. apply elem_of_union. by right.
  - left. case_bool_decide; [done|]. apply elem_of_difference. split; [done|]. intros ->%elem_of_singleton. apply Hno.
    rewrite (wo_mask _ _ Hw), Hsc. apply fill_masked; [|done]. by apply Hr.
  - destruct (decide (sig = x)) as [->|Hne]; [right; exists i; by rewrite last_snoc|]. left. case_bool_decide; [done|]. apply elem_of_difference. split; [done|]. by intros ?%elem_of_singleton.
Qed.

(** ** Property *)

(** C24: whatever signals are sent to the process or to its threads and whatever the other threads
    do with their masks: a handler that runs on the worker between the construction of the
    blocker and its destruction is one for a signal that cannot be masked, and one that runs while
    the guard of the worker exists runs with the level 1, as part of MemHawk; a signal for
    the process is meanwhile kept until another thread handles it; and at its end the worker has the mask and
    the level it started with and has logged its start and its end. *)
Theorem worker_signals mask masks p : mask ## unmaskable → rtc sig_step (sig_start mask masks) p →
  (∀ sig pc level, (sig, pc, level) ∈ sg_on_worker p → (in_scope pc = true → sig ∈ unmaskable) ∧ (guarded pc = true → level = 1))
  ∧ (∀ sig p', in_scope (wk_pc (sg_worker p)) = true → sig ∉ unmaskable → sig ∈ sg_process p → sig_step p p' →
       sig ∈ sg_process p' ∨ ∃ i, last (sg_on_other p') = Some (sig, i))
  ∧ (wk_pc (sg_worker p) = FEnd → wk_mask (sg_worker p) = mask ∧ wk_level (sg_worker p) = 0
       ∧ wk_log (sg_worker p) = ["Tracking worker started"; "Tracking worker finished"]%string).
Proof.
  intros Hm Hp. pose proof (signals_run mask masks p Hm Hp) as Hok. pose proof Hok as [[H1 _ H3 H4] _ _ Hh]. split_and!.
  - intros sig pc level Hin. rewrite Forall_forall in Hh. destruct (Hh _ Hin) as [A B]. cbn in A, B. split; [done|]. intros Hg. by rewrite Hg in B.
  - intros sig p' Hsc Hu Hin Hs. by eapply signal_kept.
  - intros Hpc. rewrite Hpc in *. done.
Qed.

(** Several steps of the worker. *)
Definition frame_run (stops : list bool) (w : worker) : option worker :=
  foldl (fun w stopped => w ← w; TrackingWorker_frame stopped w) (Some w) stops.

Lemma frame_run_steps stops : ∀ w w' masks a b c d e, frame_run stops w = Some w' →
  rtc sig_step (mkSignals w masks a b c d e) (mkSignals w' masks a b c d e).
Proof.
  induction stops as [|stopped stops IH]; intros w w' masks a b c d e E; [injection E as <-; apply rtc_refl|].
  unfold frame_run in E. cbn [foldl mbind option_bind] in E. destruct (TrackingWorker_frame stopped w) as [w1|] eqn:E1.
  - eapply rtc_l; [by apply (sg_run stopped (mkSignals w masks a b c d e) w1)|]. by apply IH.
  - exfalso. clear -E. induction stops; [done|auto].
Qed.

(** A signal arrives while the worker is in its loop; thread 0 handles it, then the worker ends. *)
Lemma worker_signals_witness : ∃ p, rtc sig_step (sig_start {[10]} (fun _ => ∅)) p
  ∧ sg_on_other p = [(15, 0%nat)] ∧ sg_on_worker p = [] ∧ wk_mask (sg_worker p) = {[10]} ∧ wk_level (sg_worker p) = 0.
Proof.
  destruct (frame_run (replicate 5 false) (worker_start {[10]})) as [w1|] eqn:E1; [|by vm_compute in E1].
  destruct (frame_run (replicate 4 true) w1) as [w2|] eqn:E2; [|vm_compute in E1; injection E1 as <-; by vm_compute in E2].
  assert (Hend : wk_pc w2 = FEnd) by (vm_compute in E1; injection E1 as <-; vm_compute in E2; by injection E2 as <-).
  set (p1 := mkSignals w1 (fun _ => ∅) ∅ (fun _ => ∅) ({[15]} ∪ ∅) [] []).
  assert (H1 : rtc sig_step (sig_start {[10]} (fun _ => ∅)) p1).
  { etrans; [by eapply frame_run_steps|]. apply rtc_once, (sg_kill (mkSignals w1 _ _ _ _ _ _) 15). lia. }
  assert (H2 : sig_step p1 (mkSignals w1 (fun _ => ∅) ∅ (<[0%nat := ∅ ∖ {[15]}]> (fun _ => ∅)) (({[15]} ∪ ∅) ∖ {[15]}) [] [(15, 0%nat)])).
  { apply (sg_deliver_other p1 0 15); apply (bool_decide_unpack _); vm_compute; done. }
  assert (Hr : rtc sig_step (sig_start {[10]} (fun _ => ∅))
                 (mkSignals w2 (fun _ => ∅) ∅ (<[0%nat := ∅ ∖ {[15]}]> (fun _ => ∅)) (({[15]} ∪ ∅) ∖ {[15]}) [] [(15, 0%nat)])).
  { etrans; [exact H1|]. eapply rtc_l; [exact H2|]. by eapply frame_run_steps. }
  eexists. split; [exact Hr|].
  destruct (worker_signals {[10]} (fun _ => ∅) _ ltac:(apply (bool_decide_unpack _); vm_compute; done) Hr) as (_ & _ & He).
  split; [done|]. split; [done|]. destruct (He Hend) as (A & B & _). split; [exact A|exact B].
Defined.
