(* ===== verification/MemHawk.v ===== *)
(** * The profiler ([impl/memhawk.h], [impl/memhawk.cpp])

    [MemHawk] owns the thread trackers, both stacktrace trackers, the queue of
    postponed operations and the worker's storage.  The handlers are state passing
    functions of the object and of the thread-local variables of the calling thread.
    Every access to shared data lies in a section protected by a lock ([m_thTrackersMt], a
    tracker's lock, [m_postponedMt]), and what runs while a lock is held, nested calls
    of the handlers for MemHawk's own allocations included, only reaches data behind
    other locks; a handler is therefore one step of the system, and a nested call is a
    call at a higher level of the guard [InnerAllocTag] ([CEnterInner], [CLeaveInner]).

    The writers are behind the class [IWriterStrategy].  Log lines are left out.  The body of the
    worker's loop is [WorkerIteration]; the loop itself and [Stop] are in [Worker], what [Stop] logs in
    [Shutdown], construction step by step in [Construct]. *)

From Stdlib Require Import ZArith Lia.
From stdpp Require Import base numbers list gmap.
From S2P Require Import Prelude Algo AllocInfo Stacktrace LruCache IStacktraceTracker StacktraceTracker StaticTracker ThreadTracker.

Definition ExitingThreadsTrackerId : Z := Z.shiftl 1 30.
Definition InnerTrackerId : Z := Z.shiftl 1 31.

(** [writers/i_writer.h]; the finder the writers are constructed with is
    passed to the one function that uses it. *)
Class IWriterStrategy (W : Type) := {
  UpdateModules : W → outcome W;
  AccountSnapshot : W → SummariesMap → AllocSummary → outcome W;
  FlushData : (Z → outcome (option Stacktrace)) → W → outcome W;
}.

(** The value of [gtl_tracker]. *)
Inductive tracker_ptr := PNull | PThread (i : Z) | PExiting.

#[export] Instance tracker_ptr_eq_dec : EqDecision tracker_ptr.
Proof. solve_decision. Defined.

(** Thread-local variables: [gtl_tracker], the tracker that [gtl_trackerFinalizer]
    reclaims, and the level of [RecursionGuard<InnerAllocTag>]. *)
Record Tls := mkTls {
  gtl_tracker : tracker_ptr;
  gtl_trackerFinalizer : option Z;
  inner_level : Z;
}.

Definition Tls_init : Tls := mkTls PNull None 0.

Inductive Operation := Alloc | Free.
Record Postponed := mkPostponed { po_info : AllocInfo; po_op : Operation }.

(** The values of the configuration the code below reads. *)
Record MemHawkConfig := mkMemHawkConfig {
  cfg_TrackingWorker : bool;
  cfg_MaxPostponed : Z;
  cfg_LruStackSize : Z;
  cfg_CollapseRecursionDepth : Z;
}.

Section MemHawk.
Context {I W : Type} `{!SequencedHash I CompressedStacktrace Z} `{!IWriterStrategy W}.
Context (avx : bool) (XXH3_64bits : list Z → Z) (uninit : list Z).

Record WorkerStorage := mkWorkerStorage {
  ws_writer : W;
  ws_localSummaries : SummariesMap;
  ws_summary : AllocSummary;
}.

Record MemHawk := mkMemHawk {
  m_cfg : MemHawkConfig;
  m_modulesCacheInvalidated : bool;
  m_workerStorage : option WorkerStorage;
  m_thTrackers : list (ThreadTracker I);
  m_finishedTrackers : list Z;
  m_exitingThreadsTracker : option (ThreadTracker I);
  m_btTracker : StacktraceTracker;
  m_maxPostponedSize : Z;
  m_postponed : list Postponed;
  m_innerTracker : option (ThreadTracker I);
  m_innerBtTracker : StaticTracker;
  tls : gmap nat Tls;
}.

Definition MemHawk_ctor (cfg : MemHawkConfig) : MemHawk :=
  mkMemHawk cfg true None [] [] None StacktraceTracker_ctor 0 [] None StaticTracker_ctor ∅.

(** *** Field updates *)

Definition with_trackers (s : MemHawk) th fin ex bt : MemHawk :=
  mkMemHawk (m_cfg s) (m_modulesCacheInvalidated s) (m_workerStorage s) th fin ex bt
    (m_maxPostponedSize s) (m_postponed s) (m_innerTracker s) (m_innerBtTracker s) (tls s).
Definition with_inner (s : MemHawk) mx po inn ibt : MemHawk :=
  mkMemHawk (m_cfg s) (m_modulesCacheInvalidated s) (m_workerStorage s) (m_thTrackers s)
    (m_finishedTrackers s) (m_exitingThreadsTracker s) (m_btTracker s) mx po inn ibt (tls s).
Definition with_worker (s : MemHawk) inval ws : MemHawk :=
  mkMemHawk (m_cfg s) inval ws (m_thTrackers s) (m_finishedTrackers s)
    (m_exitingThreadsTracker s) (m_btTracker s) (m_maxPostponedSize s) (m_postponed s)
    (m_innerTracker s) (m_innerBtTracker s) (tls s).
Definition with_tls (s : MemHawk) (th : nat) (t : Tls) : MemHawk :=
  mkMemHawk (m_cfg s) (m_modulesCacheInvalidated s) (m_workerStorage s) (m_thTrackers s)
    (m_finishedTrackers s) (m_exitingThreadsTracker s) (m_btTracker s) (m_maxPostponedSize s)
    (m_postponed s) (m_innerTracker s) (m_innerBtTracker s) (<[th := t]> (tls s)).

Definition tls_of (s : MemHawk) (th : nat) : Tls := default Tls_init (tls s !! th).

Definition the {A} (o : option A) : outcome A :=
  match o with Some a => Ret a | None => Undef end.

(** *** Construction *)

Definition MemHawk_PostponedConstruct (writer : W) (s : MemHawk) : MemHawk :=
  let lru := u32 (cfg_LruStackSize (m_cfg s)) in
  let depth := u32 (cfg_CollapseRecursionDepth (m_cfg s)) in
  mkMemHawk (m_cfg s) (m_modulesCacheInvalidated s)
    (if cfg_TrackingWorker (m_cfg s) then Some (mkWorkerStorage writer ∅ AllocSummary_zero)
     else m_workerStorage s)
    (m_thTrackers s) (m_finishedTrackers s)
    (Some (ThreadTracker_ctor ExitingThreadsTrackerId lru depth))
    (PostponedConstruct (m_btTracker s)) (m_maxPostponedSize s) (m_postponed s)
    (Some (ThreadTracker_ctor InnerTrackerId lru depth)) (m_innerBtTracker s) (tls s).

(** *** Threads *)

Definition SetUpThreadTracker (s : MemHawk) (th : nat) (i : Z) : MemHawk :=
  with_tls s th (mkTls (PThread i) (Some i) (inner_level (tls_of s th))).

(** A registered thread is an error that is logged. *)
Definition RegisterThread (s : MemHawk) (th : nat) : outcome MemHawk :=
  match gtl_tracker (tls_of s th) with
  | PNull =>
    match last (m_finishedTrackers s) with
    | Some trackerId =>
      let fin := take (length (m_finishedTrackers s) - 1) (m_finishedTrackers s) in
      _ ← rd (m_thTrackers s) trackerId;
      Ret (SetUpThreadTracker
             (with_trackers s (m_thTrackers s) fin (m_exitingThreadsTracker s) (m_btTracker s))
             th trackerId)
    | None =>
      let trackerId := zlen (m_thTrackers s) in
      let t := ThreadTracker_ctor (u32 trackerId) (u32 (cfg_LruStackSize (m_cfg s)))
                 (u32 (cfg_CollapseRecursionDepth (m_cfg s))) in
      Ret (SetUpThreadTracker
             (with_trackers s (m_thTrackers s ++ [t]) (m_finishedTrackers s)
                (m_exitingThreadsTracker s) (m_btTracker s)) th trackerId)
    end
  | _ => Ret s
  end.

(** The callback of the finalizer, run by thread [th] when it exits. *)
Definition ReclaimTracker (s : MemHawk) (th : nat) (i : Z) : outcome MemHawk :=
  let l := tls_of s th in
  let s := with_tls s th (mkTls PExiting (gtl_trackerFinalizer l) (inner_level l)) in
  t ← rd (m_thTrackers s) i;
  Ret (with_trackers s (m_thTrackers s) (m_finishedTrackers s ++ [GetTrackerId t])
         (m_exitingThreadsTracker s) (m_btTracker s)).

(** Destruction of [gtl_trackerFinalizer]: its callback runs once. *)
Definition ThreadExit (s : MemHawk) (th : nat) : outcome MemHawk :=
  let l := tls_of s th in
  match gtl_trackerFinalizer l with
  | Some i => ReclaimTracker (with_tls s th (mkTls (gtl_tracker l) None (inner_level l))) th i
  | None => Ret s
  end.

(** The tracker behind [gtl_tracker]; a null pointer must not be dereferenced. *)
Definition current_tracker (s : MemHawk) (th : nat) : outcome (ThreadTracker I) :=
  match gtl_tracker (tls_of s th) with
  | PNull => Undef
  | PThread i => rd (m_thTrackers s) i
  | PExiting => the (m_exitingThreadsTracker s)
  end.

Definition store_tracker (s : MemHawk) (th : nat) (t : ThreadTracker I) (bt : StacktraceTracker)
  : outcome MemHawk :=
  match gtl_tracker (tls_of s th) with
  | PNull => Undef
  | PThread i =>
    l ← wr (m_thTrackers s) i t;
    Ret (with_trackers s l (m_finishedTrackers s) (m_exitingThreadsTracker s) bt)
  | PExiting => Ret (with_trackers s (m_thTrackers s) (m_finishedTrackers s) (Some t) bt)
  end.

(** *** Postponed operations *)

Definition po_event (p : Postponed) : event :=
  match po_op p with Alloc => EvAlloc (po_info p) | Free => EvFree (po_info p) end.

(** The loop of [ProcessPostponed]: one iteration per queued operation. *)
Fixpoint ProcessPostponed_loop (po : list Postponed) (t : ThreadTracker I) : ThreadTracker I :=
  match po with
  | [] => t
  | delayed :: po =>
    ProcessPostponed_loop po
      match po_op delayed with
      | Alloc => Locked_TrackAlloc t (po_info delayed)
      | Free => Locked_TrackDealloc t (po_info delayed)
      end
  end.

Definition ProcessPostponed (s : MemHawk) : outcome MemHawk :=
  match m_postponed s with
  | [] => Ret s
  | po =>
    t ← the (m_innerTracker s);
    Ret (with_inner s (m_maxPostponedSize s) [] (Some (ProcessPostponed_loop po t)) (m_innerBtTracker s))
  end.

Definition Postpone (op : Operation) (s : MemHawk) (info : AllocInfo) : MemHawk :=
  if cfg_MaxPostponed (m_cfg s) <=? zlen (m_postponed s) then s
  else
    let po := m_postponed s ++ [mkPostponed info op] in
    with_inner s (Z.max (m_maxPostponedSize s) (zlen po)) po (m_innerTracker s) (m_innerBtTracker s).

Definition PostponeAlloc : MemHawk → AllocInfo → MemHawk := Postpone Alloc.
Definition PostponeDealloc : MemHawk → AllocInfo → MemHawk := Postpone Free.

(** Applies [f] to the inner tracker under its lock. *)
Definition with_inner_tracker (s : MemHawk) (f : ThreadTracker I → ThreadTracker I)
  : outcome MemHawk :=
  t ← the (m_innerTracker s);
  Ret (with_inner s (m_maxPostponedSize s) (m_postponed s) (Some (f t)) (m_innerBtTracker s)).

(** [RegisterThread] when [gtl_tracker] is null. *)
Definition ensure_registered (s : MemHawk) (th : nat) : outcome MemHawk :=
  if bool_decide (gtl_tracker (tls_of s th) = PNull) then RegisterThread s th else Ret s.

(** [innerGuard]: true when the level was 0 before the guard was constructed. *)
Definition inner_first (s : MemHawk) (th : nat) : bool := u32 (inner_level (tls_of s th) + 1) =? 1.

(** *** Handlers *)

Definition TrackAlloc (s : MemHawk) (th : nat) (info : AllocInfo) (trace : Stacktrace)
    (isExternal : bool) : outcome (AllocInfo * Stacktrace * MemHawk) :=
  if isExternal then
    s ← ensure_registered s th;
    t ← current_tracker s th;
    '(info, trace, t, bt) ← SaveTraceId avx XXH3_64bits t (m_btTracker s) info trace;
    s ← store_tracker s th (Locked_TrackAlloc t info) bt;
    Ret (info, trace, s)
  else
    '(id, ibt) ← Static_InsertStacktrace XXH3_64bits (m_innerBtTracker s) trace;
    let info := set_traceId info id in
    let s := with_inner s (m_maxPostponedSize s) (m_postponed s) (m_innerTracker s) ibt in
    if inner_first s th then
      s ← ProcessPostponed s;
      s ← with_inner_tracker s (fun t => Locked_TrackAlloc t info);
      Ret (info, trace, s)
    else Ret (info, trace, PostponeAlloc s info).

Definition TrackDealloc (s : MemHawk) (th : nat) (info : AllocInfo) (isExternal : bool)
  : outcome MemHawk :=
  if isExternal then
    s ← ensure_registered s th;
    t ← current_tracker s th;
    store_tracker s th (Locked_TrackDealloc t info) (m_btTracker s)
  else
    if inner_first s th then
      s ← ProcessPostponed s;
      with_inner_tracker s (fun t => Locked_TrackDealloc t info)
    else Ret (PostponeDealloc s info).

Definition TrackRealloc (s : MemHawk) (th : nat) (prev info : AllocInfo) (trace : Stacktrace)
    (isExternal : bool) : outcome (AllocInfo * Stacktrace * MemHawk) :=
  if isExternal then
    s ← ensure_registered s th;
    t ← current_tracker s th;
    '(info, trace, t, bt) ← SaveTraceId avx XXH3_64bits t (m_btTracker s) info trace;
    s ← store_tracker s th (Locked_TrackAlloc (Locked_TrackDealloc t prev) info) bt;
    Ret (info, trace, s)
  else
    '(id, ibt) ← Static_InsertStacktrace XXH3_64bits (m_innerBtTracker s) trace;
    let info := set_traceId info id in
    let s := with_inner s (m_maxPostponedSize s) (m_postponed s) (m_innerTracker s) ibt in
    if inner_first s th then
      s ← ProcessPostponed s;
      s ← with_inner_tracker s (fun t => Locked_TrackAlloc (Locked_TrackDealloc t prev) info);
      Ret (info, trace, s)
    else Ret (info, trace, PostponeAlloc (PostponeDealloc s prev) info).

Definition InvalidateModulesCache (s : MemHawk) : MemHawk := with_worker s true (m_workerStorage s).

(** *** The finder handed to the writers *)

Definition InnerStacktraceFinder_GetStacktraceFromId (s : MemHawk) (traceId : Z)
  : outcome (option Stacktrace) :=
  '(trace, _) ← Tracker_GetStacktraceFromId uninit (m_btTracker s) traceId;
  match trace with
  | Some st => Ret (Some st)
  | None => '(trace, _) ← Static_GetStacktraceFromId uninit (m_innerBtTracker s) traceId; Ret trace
  end.

(** *** The worker *)

(** [WorkerAccountThreadTracker]; returns the emptied tracker. *)
Definition WorkerAccountThreadTracker (s : MemHawk) (t : ThreadTracker I)
  : outcome (ThreadTracker I * MemHawk) :=
  ws ← the (m_workerStorage s);
  let '(t, m, total) := ConsumeDiff t (ws_localSummaries ws) (ws_summary ws) in
  w ← AccountSnapshot (ws_writer ws) m total;
  Ret (t, with_worker s (m_modulesCacheInvalidated s) (Some (mkWorkerStorage w ∅ AllocSummary_zero))).

(** The loop over [m_thTrackers] of [WorkerUpdateData]. *)
Fixpoint WorkerUpdateData_loop (s : MemHawk) (todo done : list (ThreadTracker I)) : outcome MemHawk :=
  match todo with
  | [] => Ret (with_trackers s done (m_finishedTrackers s) (m_exitingThreadsTracker s) (m_btTracker s))
  | t :: todo =>
    '(t, s) ← WorkerAccountThreadTracker s t;
    WorkerUpdateData_loop s todo (done ++ [t])
  end.

Definition WorkerUpdateData (s : MemHawk) : outcome MemHawk :=
  s ← WorkerUpdateData_loop s (m_thTrackers s) [];
  inn ← the (m_innerTracker s);
  '(inn, s) ← WorkerAccountThreadTracker s inn;
  let s := with_inner s (m_maxPostponedSize s) (m_postponed s) (Some inn) (m_innerBtTracker s) in
  ex ← the (m_exitingThreadsTracker s);
  '(ex, s) ← WorkerAccountThreadTracker s ex;
  let s := with_trackers s (m_thTrackers s) (m_finishedTrackers s) (Some ex) (m_btTracker s) in
  if m_modulesCacheInvalidated s then
    ws ← the (m_workerStorage s);
    w ← UpdateModules (ws_writer ws);
    Ret (with_worker s false (Some (mkWorkerStorage w (ws_localSummaries ws) (ws_summary ws))))
  else Ret s.

Definition WorkerPrintData (s : MemHawk) : outcome MemHawk :=
  ws ← the (m_workerStorage s);
  w ← FlushData (InnerStacktraceFinder_GetStacktraceFromId s) (ws_writer ws);
  Ret (with_worker s (m_modulesCacheInvalidated s)
         (Some (mkWorkerStorage w (ws_localSummaries ws) (ws_summary ws)))).

(** One iteration of [TrackingWorker]. *)
Definition WorkerIteration (s : MemHawk) : outcome MemHawk :=
  s ← WorkerUpdateData s; WorkerPrintData s.
End MemHawk.
Arguments MemHawk : clear implicits.
Arguments WorkerStorage : clear implicits.

(** ** What the queue promises

    A reference for the operations that nested own allocations postpone, which knows the calls
    and the events only: a thread's level counts its live guards; an own operation at level 0 is
    tracked at once and everything that waits is tracked with it; a deeper one waits, and when
    [max] events wait already it is lost. *)

Record Waiting := mkWaiting {
  q_level : nat → Z;
  q_waiting : list event;
  q_lost : list event;
}.

Definition nobody_waits : Waiting := mkWaiting (fun _ => 0) [] [].

Definition queue_op (max : Z) (q : Waiting) (th : nat) (isExternal : bool) (new : list event) : Waiting :=
  if isExternal then q
  else if q_level q th =? 0 then mkWaiting (q_level q) [] (q_lost q)
  else
    let free := Z.to_nat (max - zlen (q_waiting q)) in
    mkWaiting (q_level q) (q_waiting q ++ take free new) (q_lost q ++ drop free new).

Definition queue_level (q : Waiting) (th : nat) (f : Z → Z) : Waiting :=
  mkWaiting (fun th' => if decide (th' = th) then u32 (f (q_level q th)) else q_level q th')
    (q_waiting q) (q_lost q).

Lemma queue_op_split max q th a b : q_level q th ≠ 0 →
  queue_op max (queue_op max q th false [a]) th false [b] = queue_op max q th false [a; b].
Proof.
  intros Hl. unfold queue_op. rewrite (proj2 (Z.eqb_neq _ _) Hl). cbn [q_level q_waiting q_lost].
  rewrite (proj2 (Z.eqb_neq _ _) Hl). rewrite zlen_app.
  destruct (Z.to_nat (max - zlen (q_waiting q))) as [|k] eqn:Ek; cbn [take drop].
  - rewrite app_nil_r. change (zlen []) with 0. rewrite Z.add_0_r, Ek. cbn [take drop].
    by rewrite app_nil_r, <- app_assoc.
  - rewrite take_nil, drop_nil. change (zlen [a]) with 1.
    replace (Z.to_nat (max - (zlen (q_waiting q) + 1))) with k by lia.
    by rewrite app_nil_r, <- app_assoc.
Qed.

Section queue.
Context {I W : Type} `{!SequencedHash I CompressedStacktrace Z} `{!IWriterStrategy W}.
Context (avx : bool) (xxh : list Z → Z) (uninit : list Z).
Implicit Types (s : MemHawk I W) (th : nat) (q : Waiting).

(** The object's queue and levels are those of the reference. *)
Definition queue_ok s q : Prop :=
  (∀ th, inner_level (tls_of s th) = q_level q th ∧ is_u32 (q_level q th))
  ∧ po_event <$> m_postponed s = q_waiting q.

Definition same_queue s s' : Prop :=
  (∀ th, inner_level (tls_of s' th) = inner_level (tls_of s th)) ∧ m_postponed s' = m_postponed s
  ∧ m_innerBtTracker s' = m_innerBtTracker s.

Lemma queue_same s s' q : same_queue s s' → queue_ok s q → queue_ok s' q.
Proof. intros (H1 & H2 & _) [K1 K2]. split; [|by rewrite H2]. intros th. by rewrite H1. Qed.

#[export] Instance same_queue_preorder : PreOrder same_queue.
Proof.
  split; [done|]. intros s1 s2 s3 (H1 & H2 & H3) (K1 & K2 & K3). split_and!; [intros th; by rewrite K1|congruence..].
Qed.

Lemma queue_register s th s' : RegisterThread s th = Ret s' → same_queue s s'.
Proof.
  assert (Hset : ∀ (s0 : MemHawk I W) i, same_queue s0 (SetUpThreadTracker s0 th i)).
  { intros s0 i. split; [|done]. intros th'. unfold SetUpThreadTracker, tls_of. cbn.
    destruct (decide (th = th')) as [->|Hne]; [by rewrite lookup_insert_eq|by rewrite lookup_insert_ne]. }
  unfold RegisterThread. destruct (gtl_tracker (tls_of s th)); [|by intros [= <-]..].
  destruct (last (m_finishedTrackers s)); intros E; inv_ret; (etransitivity; [|apply Hset]); done.
Qed.

Lemma queue_ensure s th s' : ensure_registered s th = Ret s' → same_queue s s'.
Proof. unfold ensure_registered. destruct (bool_decide _); [apply queue_register|by intros [= <-]]. Qed.

Lemma queue_store s th t bt s' : store_tracker s th t bt = Ret s' → same_queue s s'.
Proof. unfold store_tracker. destruct (gtl_tracker (tls_of s th)); [done| |]; intros E; inv_ret; done. Qed.

Lemma queue_first s th q : queue_ok s q → inner_first s th = (q_level q th =? 0).
Proof.
  intros [H _]. unfold inner_first. destruct (H th) as [-> Hu].
  unfold is_u32 in Hu. destruct (Z.eqb_spec (q_level q th) 0) as [->|Hne]; [done|].
  apply Z.eqb_neq. unfold u32. destruct (decide (q_level q th + 1 = 2 ^ 32)) as [->|]; [done|].
  rewrite Z.mod_small; lia.
Qed.

(** At the first level the queue is emptied. *)
Lemma queue_process s s1 s2 f q th new : queue_ok s q → inner_first s th = true →
  ProcessPostponed s = Ret s1 → with_inner_tracker s1 f = Ret s2 →
  queue_ok s2 (queue_op (cfg_MaxPostponed (m_cfg s)) q th false new).
Proof.
  intros Hq Hf E1 E2. rewrite (queue_first s th q Hq) in Hf. unfold queue_op. rewrite Hf.
  assert (same_queue s1 s2) as Hs by (unfold with_inner_tracker in E2; by inv_ret).
  eapply queue_same; [exact Hs|]. destruct Hq as [H1 _]. unfold ProcessPostponed in E1.
  destruct (m_postponed s) eqn:Ep; inv_ret; split; cbn; try done. by rewrite Ep.
Qed.

(** Deeper, the operation waits or is lost. *)
Lemma queue_postpone s q th op info : queue_ok s q → q_level q th ≠ 0 →
  queue_ok (Postpone op s info)
    (queue_op (cfg_MaxPostponed (m_cfg s)) q th false [po_event (mkPostponed info op)]).
Proof.
  intros [H1 H2] Hl. unfold queue_op, Postpone. rewrite (proj2 (Z.eqb_neq _ _) Hl).
  assert (Hz : zlen (m_postponed s) = zlen (q_waiting q)) by (rewrite <- H2; unfold zlen; by rewrite length_fmap).
  rewrite Hz. destruct (Z.leb_spec (cfg_MaxPostponed (m_cfg s)) (zlen (q_waiting q))).
  - replace (Z.to_nat _) with 0%nat by lia. split; cbn; [done|]. by rewrite app_nil_r.
  - destruct (Z.to_nat _) as [|k] eqn:Ek; [lia|]. split; cbn; [done|]. by rewrite fmap_app, H2, take_nil.
Qed.

Lemma postpone_cfg op s info : m_cfg (Postpone op s info) = m_cfg s.
Proof. unfold Postpone. by destruct (_ <=? _). Qed.

(** Both operations of a reallocation. *)
Lemma queue_postpone2 s q th prev info : queue_ok s q → inner_first s th = false →
  queue_ok (PostponeAlloc (PostponeDealloc s prev) info)
    (queue_op (cfg_MaxPostponed (m_cfg s)) q th false [EvFree prev; EvAlloc info]).
Proof.
  intros Hq Hf. rewrite (queue_first s th q Hq) in Hf. apply Z.eqb_neq in Hf.
  pose proof (queue_postpone s q th Free prev Hq Hf) as H1.
  assert (Hf' : q_level (queue_op (cfg_MaxPostponed (m_cfg s)) q th false [po_event (mkPostponed prev Free)]) th ≠ 0)
    by (unfold queue_op; by rewrite (proj2 (Z.eqb_neq _ _) Hf)).
  pose proof (queue_postpone _ _ th Alloc info H1 Hf') as H2.
  rewrite postpone_cfg in H2. by rewrite (queue_op_split _ q th) in H2.
Qed.
End queue.

(** What a call does to the queue, by the reference. *)
Abbreviation queued s q th ext new := (queue_op (cfg_MaxPostponed (m_cfg s)) q th ext new).

(** ** A writer that records the snapshots it is given *)

Definition Recorder : Type := list (SummariesMap * AllocSummary).

#[export] Instance Recorder_writer : IWriterStrategy Recorder := {
  UpdateModules w := Ret w;
  AccountSnapshot w m total := Ret (w ++ [(m, total)]);
  FlushData _ w := Ret w;
}.

(** ** Runs of the system *)

Section runs.
Context {I : Type} `{!SequencedHash I CompressedStacktrace Z}
        `{!SequencedHashLaws I CompressedStacktrace Z}.
Context (avx : bool) (xxh : list Z → Z) (uninit : list Z).
Local Abbreviation state := (MemHawk I Recorder).
Implicit Types (s : state) (th : nat).

Inductive call :=
| CAlloc th (info : AllocInfo) (trace : Stacktrace) (isExternal : bool)
| CDealloc th (info : AllocInfo) (isExternal : bool)
| CRealloc th (prev info : AllocInfo) (trace : Stacktrace) (isExternal : bool)
| CThreadExit th
| CEnterInner th
| CLeaveInner th
| CInvalidate
| CWorker.

Definition set_level s th (f : Z → Z) : state :=
  let l := tls_of s th in
  with_tls s th (mkTls (gtl_tracker l) (gtl_trackerFinalizer l) (u32 (f (inner_level l)))).

(** Performs a call; also returns the events it stands for, with the trace ids the
    handler chose. *)
Definition exec s (c : call) : outcome (state * list event) :=
  match c with
  | CAlloc th info trace ext =>
      '(info, _, s) ← TrackAlloc avx xxh s th info trace ext; Ret (s, [EvAlloc info])
  | CDealloc th info ext => s ← TrackDealloc s th info ext; Ret (s, [EvFree info])
  | CRealloc th prev info trace ext =>
      '(info, _, s) ← TrackRealloc avx xxh s th prev info trace ext;
      Ret (s, [EvFree prev; EvAlloc info])
  | CThreadExit th => s ← ThreadExit s th; Ret (s, [])
  | CEnterInner th => Ret (set_level s th (fun l => l + 1), [])
  | CLeaveInner th => Ret (set_level s th (fun l => l - 1), [])
  | CInvalidate => Ret (InvalidateModulesCache s, [])
  | CWorker => s ← WorkerIteration uninit s; Ret (s, [])
  end.

Fixpoint exec_all s (cs : list call) : outcome (state * list event) :=
  match cs with
  | [] => Ret (s, [])
  | c :: cs =>
    '(s, es) ← exec s c;
    '(s, fs) ← exec_all s cs;
    Ret (s, es ++ fs)
  end.

(** The reference queue sees the calls, with the events they stand for. *)
Definition queue_step (max : Z) (q : Waiting) (c : call) (new : list event) : Waiting :=
  match c with
  | CAlloc th _ _ ext | CDealloc th _ ext | CRealloc th _ _ _ ext => queue_op max q th ext new
  | CEnterInner th => queue_level q th (fun l => l + 1)
  | CLeaveInner th => queue_level q th (fun l => l - 1)
  | _ => q
  end.

Definition events_of (c : call) : nat :=
  match c with CAlloc _ _ _ _ | CDealloc _ _ _ => 1 | CRealloc _ _ _ _ _ => 2 | _ => 0 end.

Fixpoint queue_run (max : Z) (q : Waiting) (cs : list call) (es : list event) : Waiting :=
  match cs with
  | [] => q
  | c :: cs => queue_run max (queue_step max q c (take (events_of c) es)) cs (drop (events_of c) es)
  end.

(** The trace of an own allocation, as the static tracker keeps it, and the traces that are kept
    after some calls. *)
Definition own_trace (c : call) : list (list Z) :=
  match c with
  | CAlloc _ _ trace false | CRealloc _ _ _ trace false => [take 6 (GetTrace trace)]
  | _ => []
  end.

Definition kept_after (kept : list (list Z)) (cs : list call) : list (list Z) :=
  (store_all kept (cs ≫= own_trace)).2.

Definition call_ok (c : call) : Prop :=
  match c with
  | CAlloc _ _ trace _ | CRealloc _ _ _ trace _ => st_ok trace ∧ addresses trace
  | _ => True
  end.

(** *** Threads and their trackers *)

Definition owns s th (i : Z) : Prop := gtl_tracker (tls_of s th) = PThread i.

Record threads_ok s : Prop := {
  to_valid th i : owns s th i → 0 ≤ i < zlen (m_thTrackers s);
  to_final th i : owns s th i ↔ gtl_trackerFinalizer (tls_of s th) = Some i;
  (** no two threads share a tracker *)
  to_excl th th' i : owns s th i → owns s th' i → th = th';
  (** a finished tracker is listed once and is in nobody's use *)
  to_nodup : NoDup (m_finishedTrackers s);
  to_finished i : i ∈ m_finishedTrackers s → 0 ≤ i < zlen (m_thTrackers s) ∧ ∀ th, ¬ owns s th i;
  (** every tracker is used or finished *)
  to_all i : 0 ≤ i < zlen (m_thTrackers s) → i ∈ m_finishedTrackers s ∨ ∃ th, owns s th i;
  to_ids i t : m_thTrackers s !! i = Some t → GetTrackerId t = Z.of_nat i;
}.

(** *** Caches and stacktrace trackers *)

Definition fine (cfg : MemHawkConfig) (bt : StacktraceTracker) (t : ThreadTracker I) : Prop :=
  cache_ok t bt ∧ tt_collapseDepth t = u32 (cfg_CollapseRecursionDepth cfg).

(** There is room for [n] more traces and [m] more threads. *)
Record caches_ok (n m : nat) s : Prop := {
  ch_cfg : 0 < u32 (cfg_LruStackSize (m_cfg s))
           ∧ u32 (cfg_CollapseRecursionDepth (m_cfg s)) < 2 ^ 32 - 1;
  ch_bt : dyn_ok (m_btTracker s);
  ch_room : dyn_room n (m_btTracker s);
  ch_threads : zlen (m_thTrackers s) + Z.of_nat m < 2 ^ 32;
  ch_th : Forall (fine (m_cfg s) (m_btTracker s)) (m_thTrackers s);
  ch_ex : ∃ t, m_exitingThreadsTracker s = Some t ∧ fine (m_cfg s) (m_btTracker s) t;
  ch_ibt : ∃ traces, static_ok xxh (m_innerBtTracker s) traces;
}.

Definition same_store s s' : Prop :=
  m_btTracker s' = m_btTracker s ∧ m_innerBtTracker s' = m_innerBtTracker s ∧ m_cfg s' = m_cfg s.

(** Trace ids keep their meaning. *)
Record later s s' : Prop := {
  lt_dyn : keeps (m_btTracker s) (m_btTracker s');
  lt_static i tr : static_knows xxh (m_innerBtTracker s) i tr → static_knows xxh (m_innerBtTracker s') i tr;
  lt_cfg : m_cfg s' = m_cfg s;
}.

#[export] Instance later_preorder : PreOrder later.
Proof.
  split; [by intros s; split|]. intros s1 s2 s3 [H1 H2 H3] [K1 K2 K3].
  split; [by transitivity (m_btTracker s2)|auto|congruence].
Qed.

Lemma same_store_later s s' : same_store s s' → later s s'.
Proof. intros (E1 & E2 & E3). split; rewrite ?E1, ?E2; done. Qed.

(** What the id of a tracked allocation stands for: the collapsed trace without null
    frames, or, for MemHawk's own allocations, the six innermost frames. *)
Definition id_means s (id : Z) (tr : list Z) (isExternal : bool) : Prop :=
  if isExternal
  then dyn_knows (m_btTracker s) id
         (dyn_canon (collapse tr (u32 (cfg_CollapseRecursionDepth (m_cfg s)))))
  else static_knows xxh (m_innerBtTracker s) id (static_canon tr) ∨ id = UnknownTraceId.

Lemma id_means_later s s' id tr ext : later s s' → id_means s id tr ext → id_means s' id tr ext.
Proof.
  intros [H1 H2 H3]. unfold id_means. rewrite H3. destruct ext; [apply H1|].
  intros [?|?]; auto.
Qed.

(** *** Where the events are *)

Record Books := mkBooks {
  b_th : list (list event);
  b_inner : list event;
  b_exit : list event;
  b_consumed : list event;
}.

Definition b_all s (q : Waiting) (b : Books) : list event :=
  b_consumed b ++ concat (b_th b) ++ b_inner b ++ b_exit b ++ (po_event <$> m_postponed s)
  ++ q_lost q.

(** Every event was consumed, is held by one tracker, is queued or was lost by the reference. *)
Record books_ok s (q : Waiting) (b : Books) (es : list event) : Prop := {
  bk_th : Forall2 holds (m_thTrackers s) (b_th b);
  bk_inner : ∃ t, m_innerTracker s = Some t ∧ holds t (b_inner b);
  bk_exit : ∃ t, m_exitingThreadsTracker s = Some t ∧ holds t (b_exit b);
  bk_worker : ∃ w, m_workerStorage s = Some (mkWorkerStorage w ∅ AllocSummary_zero)
    ∧ (∀ id, consumed_of id w = wrap (exact_sum (of_trace id (b_consumed b))))
    ∧ consumed_total w = wrap (exact_sum (b_consumed b));
  bk_all : b_all s q b ≡ₚ es;
}.

Record mh_inv (n : nat) s (q : Waiting) (es : list event) : Prop := {
  mi_threads : threads_ok s;
  mi_caches : caches_ok n n s;
  mi_books : ∃ b, books_ok s q b es;
  mi_queue : queue_ok s q;
}.

(** *** Thread-local bookkeeping *)

Lemma tls_of_with s th l th' :
  tls_of (with_tls s th l) th' = if decide (th = th') then l else tls_of s th'.
Proof.
  unfold tls_of. cbn. case_decide as E; [subst; by rewrite lookup_insert_eq|by rewrite lookup_insert_ne].
Qed.

Lemma tls_of_trackers s l fin ex bt th : tls_of (with_trackers s l fin ex bt) th = tls_of s th.
Proof. reflexivity. Qed.

Lemma set_level_ptr s th f th' :
  gtl_tracker (tls_of (set_level s th f) th') = gtl_tracker (tls_of s th') ∧
  gtl_trackerFinalizer (tls_of (set_level s th f) th') = gtl_trackerFinalizer (tls_of s th').
Proof. unfold set_level. rewrite tls_of_with. case_decide; subst; done. Qed.

(** [threads_ok] looks at the pointers, the number and ids of the trackers and the
    finished list only. *)
Lemma threads_ok_ext s s' :
  (∀ th, gtl_tracker (tls_of s' th) = gtl_tracker (tls_of s th) ∧
         gtl_trackerFinalizer (tls_of s' th) = gtl_trackerFinalizer (tls_of s th)) →
  m_finishedTrackers s' = m_finishedTrackers s →
  GetTrackerId <$> m_thTrackers s' = GetTrackerId <$> m_thTrackers s →
  threads_ok s → threads_ok s'.
Proof.
  intros Ht Hf Hi [H1 H2 H3 H4 H5 H6 H7].
  assert (Hl : zlen (m_thTrackers s') = zlen (m_thTrackers s))
    by (apply (f_equal length) in Hi; rewrite !length_fmap in Hi; unfold zlen; lia).
  assert (Ho : ∀ th i, owns s' th i ↔ owns s th i)
    by (intros th i; unfold owns; by rewrite (proj1 (Ht th))).
  split; rewrite ?Hl, ?Hf.
  - intros th i. rewrite Ho. apply H1.
  - intros th i. rewrite Ho, (proj2 (Ht th)). apply H2.
  - intros th th' i. rewrite !Ho. apply H3.
  - done.
  - intros i Hin. destruct (H5 i Hin) as [? Hn]. split; [done|]. intros th. rewrite Ho. apply Hn.
  - intros i Hin. destruct (H6 i Hin) as [?|[th ?]]; [by left|right]. exists th. by apply Ho.
  - intros i t Hit. assert ((GetTrackerId <$> m_thTrackers s') !! i = Some (GetTrackerId t)) as E
      by by rewrite list_lookup_fmap, Hit.
    rewrite Hi, list_lookup_fmap in E. destruct (m_thTrackers s !! i) as [t0|] eqn:E0; [|done].
    cbn in E. injection E as E. rewrite <- E. by apply H7.
Qed.

(** Thread [th], which has no tracker yet, is given tracker [i], which is in nobody's use. *)
Lemma threads_ok_assign s s' th i lvl :
  threads_ok s → gtl_tracker (tls_of s th) = PNull → (∀ th', ¬ owns s th' i) →
  (∀ th', tls_of s' th' = if decide (th = th') then mkTls (PThread i) (Some i) lvl else tls_of s th') →
  zlen (m_thTrackers s) ≤ zlen (m_thTrackers s') →
  0 ≤ i < zlen (m_thTrackers s') →
  NoDup (m_finishedTrackers s') → i ∉ m_finishedTrackers s' →
  (∀ j, j ∈ m_finishedTrackers s' → j ∈ m_finishedTrackers s) →
  (∀ j, 0 ≤ j < zlen (m_thTrackers s') → j ≠ i →
        0 ≤ j < zlen (m_thTrackers s) ∧ (j ∈ m_finishedTrackers s → j ∈ m_finishedTrackers s')) →
  (∀ j t, m_thTrackers s' !! j = Some t → GetTrackerId t = Z.of_nat j) →
  threads_ok s'.
Proof.
  intros [H1 H2 H3 H4 H5 H6 H7] Hnull Hfree Ht Hlen Hi Hnd Hni Hsub Hback Hids.
  assert (Ho : ∀ th' j, owns s' th' j ↔ if decide (th = th') then j = i else owns s th' j).
  { intros th' j. unfold owns. rewrite Ht. case_decide; [|done]. cbn. split; congruence. }
  split; try done.
  - intros th' j. rewrite Ho. case_decide; [by intros ->|]. intros Hj. apply H1 in Hj. lia.
  - intros th' j. rewrite Ho, Ht. case_decide; [cbn; split; congruence|apply H2].
  - intros t1 t2 j. rewrite !Ho. repeat case_decide; subst; try done.
    + intros -> Hj. exfalso. by apply (Hfree t2).
    + intros Hj ->. exfalso. by apply (Hfree t1).
    + apply H3.
  - intros j Hj. destruct (H5 j (Hsub j Hj)) as [Hb Hn]. split; [lia|]. intros th'. rewrite Ho.
    case_decide; [by intros ->|apply Hn].
  - intros j Hj. destruct (decide (j = i)) as [->|Hne].
    { right. exists th. apply Ho. by rewrite decide_True. }
    destruct (Hback j Hj Hne) as [Hb Hin]. destruct (H6 j Hb) as [?|[th' Hth]]; [left; auto|right].
    exists th'. apply Ho. rewrite decide_False; [done|]. intros <-. unfold owns in Hth. congruence.
Qed.

Lemma last_take {A} (l : list A) x : last l = Some x → l = take (length l - 1) l ++ [x].
Proof.
  intros H. apply last_Some in H as [l' ->]. rewrite length_app. cbn.
  replace (length l' + 1 - 1)%nat with (length l') by lia. by rewrite take_app_length.
Qed.

(** What [RegisterThread] does to a thread without tracker. *)
Lemma RegisterThread_spec n s q th es :
  mh_inv (S n) s q es → gtl_tracker (tls_of s th) = PNull →
  ∃ s', RegisterThread s th = Ret s' ∧ threads_ok s' ∧ caches_ok (S n) n s'
        ∧ (∃ b, books_ok s' q b es) ∧ (∃ i, owns s' th i) ∧ same_store s s'.
Proof.
  intros [Hth Hca [b Hb] _] Hnull. unfold RegisterThread. rewrite Hnull.
  pose proof Hth as [H1 H2 H3 H4 H5 H6 H7]. pose proof Hca as [Hcfg Hbt Hroom Hlen Hch Hex Hibt].
  destruct (last (m_finishedTrackers s)) as [i|] eqn:El.
  - apply last_take in El. set (fin := take _ _) in *.
    assert (Hi : i ∈ m_finishedTrackers s) by (rewrite El; apply elem_of_app; right; by left).
    destruct (H5 i Hi) as [Hb' Hfree]. rewrite El in H4. apply NoDup_app in H4 as (Hn1 & Hn2 & _).
    destruct (lookup_lt_is_Some_2 (m_thTrackers s) (Z.to_nat i)) as [t Ht]; [unfold zlen in Hb'; lia|].
    rewrite (rd_some _ _ t) by (done || lia). step_ret. eexists. split; [done|].
    split_and!.
    + eapply (threads_ok_assign s _ th i (inner_level (tls_of s th)) Hth Hnull Hfree); cbn; try done.
      * intros th'. unfold SetUpThreadTracker. rewrite tls_of_with. by case_decide.
      * intros Hin. apply (Hn2 i Hin). by left.
      * intros j Hj. rewrite El. apply elem_of_app. by left.
      * intros j Hj Hne. split; [done|]. rewrite El. intros [?|?]%elem_of_app; [done|].
        by apply list_elem_of_singleton in H.
    + split; try done. cbn. lia.
    + exists b. by destruct Hb.
    + exists i. unfold owns, SetUpThreadTracker. rewrite tls_of_with. by rewrite decide_True.
    + done.
  - apply last_None in El. pose proof (zlen_nonneg (m_thTrackers s)).
    set (t := ThreadTracker_ctor _ _ _). eexists. split; [done|]. rewrite El.
    assert (Hz : zlen (m_thTrackers s ++ [t]) = zlen (m_thTrackers s) + 1) by (rewrite zlen_app; done).
    split_and!.
    + eapply (threads_ok_assign s _ th (zlen (m_thTrackers s)) (inner_level (tls_of s th)) Hth Hnull);
        cbn; rewrite ?Hz; try done; try lia.
      * intros th' Hj. apply H1 in Hj. lia.
      * intros th'. unfold SetUpThreadTracker. rewrite tls_of_with. by case_decide.
      * apply NoDup_nil_2.
      * by intros ?%not_elem_of_nil.
      * intros j. by rewrite El.
      * intros j Hj Hne. split; [lia|]. by rewrite El.
      * intros j t' Hj. apply lookup_app_Some in Hj as [Hj|[Hge Hj]]; [by apply H7|].
        apply list_lookup_singleton_Some in Hj as [Hj <-]. cbn.
        rewrite u32_small by (unfold is_u32; lia). unfold zlen. lia.
    + split; cbn; try done; [lia|]. apply Forall_app. split; [done|]. constructor; [|done].
      split; [|done]. apply cache_ok_ctor; [apply Hcfg|]. pose proof (u32_range (cfg_CollapseRecursionDepth (m_cfg s))).
      unfold is_u32 in *. lia.
    + destruct Hb as [K1 K2 K3 K4 K5].
      exists (mkBooks (b_th b ++ [[]]) (b_inner b) (b_exit b) (b_consumed b)).
      split; try done.
      * cbn. apply Forall2_app; [done|]. constructor; [apply holds_ctor|done].
      * unfold b_all in *. cbn. rewrite concat_app. cbn. by rewrite app_nil_r.
    + exists (zlen (m_thTrackers s)). unfold owns, SetUpThreadTracker. rewrite tls_of_with.
      by rewrite decide_True.
    + done.
Qed.

(** *** External handlers: register, look at the tracker, store it back *)

Record ready (n : nat) s (q : Waiting) th (es : list event) : Prop := {
  rd_threads : threads_ok s;
  rd_caches : caches_ok (S n) n s;
  rd_books : ∃ b, books_ok s q b es;
  rd_queue : queue_ok s q;
  rd_ptr : gtl_tracker (tls_of s th) ≠ PNull;
}.

Lemma ensure_registered_spec n s q th es : mh_inv (S n) s q es →
  ∃ s', ensure_registered s th = Ret s' ∧ ready n s' q th es ∧ same_store s s'.
Proof.
  intros Hi. unfold ensure_registered. case_bool_decide as Hp.
  - destruct (RegisterThread_spec n s q th es Hi Hp) as (s' & E & ? & ? & ? & (i & Ho) & ?).
    exists s'. split; [done|]. split; [|done]. split; try done; [|by rewrite Ho].
    eapply queue_same; [by eapply queue_register|apply Hi].
  - exists s. split; [done|]. split; [|done]. destruct Hi as [? [] ? ?]. split; try done. split; try done. lia.
Qed.

Lemma concat_insert_perm {A} (ls : list (list A)) i l new : ls !! i = Some l →
  concat (<[i := l ++ new]> ls) ≡ₚ concat ls ++ new.
Proof.
  intros Hi. rewrite insert_take_drop by (by eapply lookup_lt_Some).
  rewrite <- (take_drop_middle _ _ _ Hi) at 3. rewrite !concat_app. cbn.
  rewrite <- !app_assoc. do 2 apply Permutation_app_head. by rewrite Permutation_app_comm.
Qed.

Lemma fmap_insert_id {A B} (f : A → B) (l : list A) i x y :
  l !! i = Some y → f x = f y → f <$> <[i := x]> l = f <$> l.
Proof.
  intros Hi E. rewrite list_fmap_insert, E. apply list_insert_id. by rewrite list_lookup_fmap, Hi.
Qed.

(** What a handler must show of the tracker it stores back. *)
Record updates (t t' : ThreadTracker I) (bt bt' : StacktraceTracker) (n : nat) (new : list event)
    : Prop := {
  up_id : GetTrackerId t' = GetTrackerId t;
  up_holds fs : holds t fs → holds t' (fs ++ new);
  up_keeps : keeps bt bt';
  up_cache : cache_ok t' bt';
  up_depth : tt_collapseDepth t' = tt_collapseDepth t;
  up_bt : dyn_ok bt';
  up_room : dyn_room n bt';
}.

Lemma caches_store n s t t' bt' new l ex :
  caches_ok (S n) n s → fine (m_cfg s) (m_btTracker s) t →
  updates t t' (m_btTracker s) bt' n new →
  zlen l = zlen (m_thTrackers s) →
  (∀ u, u ∈ l → u = t' ∨ u ∈ m_thTrackers s) →
  (ex = Some t' ∨ ex = m_exitingThreadsTracker s) →
  caches_ok n n (with_trackers s l (m_finishedTrackers s) ex bt').
Proof.
  intros [Hcfg _ _ Hlen Hch (te & He & Hce & Hde) Hibt] [_ Hdt] [_ _ Hk Hca Hdep Hbt Hr] Hz Hth Hex.
  split; cbn; try done; [lia| |].
  - apply Forall_forall. intros u Hu. destruct (Hth u Hu) as [->|Hu']; [split; congruence|].
    rewrite Forall_forall in Hch. destruct (Hch u Hu') as [Hcu Hdu].
    split; [by apply (cache_ok_keeps _ _ _ Hk)|done].
  - destruct Hex as [-> | ->]; [exists t'; split; [done|]; split; congruence|].
    exists te. split; [done|]. split; [by apply (cache_ok_keeps _ _ _ Hk)|done].
Qed.

Lemma store_spec n s q th es : ready n s q th es →
  ∃ t, current_tracker s th = Ret t ∧ fine (m_cfg s) (m_btTracker s) t ∧
  ∀ t' bt' new, updates t t' (m_btTracker s) bt' n new →
    ∃ s', store_tracker s th t' bt' = Ret s' ∧ mh_inv n s' q (es ++ new)
      ∧ m_btTracker s' = bt' ∧ m_innerBtTracker s' = m_innerBtTracker s ∧ m_cfg s' = m_cfg s.
Proof.
  intros [Hth Hca [b Hb] Hq Hp]. unfold current_tracker, store_tracker.
  pose proof Hca as [Hcfg Hbt Hroom Hlen Hch (te & He & Hce) Hibt].
  destruct Hb as [K1 K2 (te' & He' & K3) K4 K5].
  destruct (gtl_tracker (tls_of s th)) as [|i|] eqn:Ep; [done| |].
  - destruct (to_valid _ Hth th i Ep) as [Hi0 Hi1].
    destruct (lookup_lt_is_Some_2 (m_thTrackers s) (Z.to_nat i)) as [t Ht]; [unfold zlen in Hi1; lia|].
    exists t. rewrite (rd_some _ _ t) by done. split; [done|].
    assert (Hft : fine (m_cfg s) (m_btTracker s) t)
      by (rewrite Forall_forall in Hch; apply Hch, list_elem_of_lookup; eauto).
    split; [done|].
    intros t' bt' new Hup. rewrite wr_in by lia. step_ret. eexists. split; [done|].
    split; [|done].
    destruct (Forall2_lookup_l _ _ _ _ _ K1 Ht) as (fs & Hfs & Hh).
    split.
    + eapply threads_ok_ext; [..|exact Hth]; cbn; try done. unfold put.
      apply (fmap_insert_id _ _ _ _ t Ht), Hup.
    + apply (caches_store n s t t' bt' new); try done; [by rewrite zlen_put| |by right].
      intros u Hu. unfold put in Hu. apply list_elem_of_lookup in Hu as [k Hk].
      destruct (decide (k = Z.to_nat i)) as [->|Hne].
      * rewrite list_lookup_insert_eq in Hk by (unfold zlen in Hi1; lia). left. congruence.
      * rewrite list_lookup_insert_ne in Hk by done. right. apply list_elem_of_lookup. eauto.
    + exists (mkBooks (<[Z.to_nat i := fs ++ new]> (b_th b)) (b_inner b) (b_exit b) (b_consumed b)).
      split; cbn; try done; [|by exists te'|].
      * unfold put. apply Forall2_insert; [done|]. by apply Hup.
      * unfold b_all in *. cbn. pose proof (concat_insert_perm _ _ _ new Hfs). perm_solve.
    + done.
  - exists te. rewrite He. split; [done|]. split; [done|].
    intros t' bt' new Hup. eexists. split; [done|]. split; [|done]. split.
    + by eapply threads_ok_ext; [..|exact Hth].
    + apply (caches_store n s te t' bt' new); try done; [by auto|by left].
    + exists (mkBooks (b_th b) (b_inner b) (b_exit b ++ new) (b_consumed b)).
      assert (te' = te) as -> by congruence.
      split; cbn; try done.
      * exists t'. split; [done|]. by apply Hup.
      * unfold b_all in *. cbn. perm_solve.
    + done.
Qed.

Lemma SaveTraceId_id t bt info trace info' trace' t' bt' :
  SaveTraceId (T := StacktraceTracker) avx xxh t bt info trace = Ret (info', trace', t', bt') →
  GetTrackerId (I := I) t' = GetTrackerId t.
Proof.
  unfold SaveTraceId. destruct (Touch _ _) as [[id|] lru]; intros E.
  - by simplify_eq.
  - inv_ret. destruct r0 as [? ?]. inv_ret. destruct r0 as [? ?]. inv_ret. by simplify_eq.
Qed.

Lemma cache_ok_track (t : ThreadTracker I) e (bt : StacktraceTracker) :
  cache_ok t bt → cache_ok (track t e) bt.
Proof. intros []. by destruct e; split. Qed.

Lemma track_id (t : ThreadTracker I) e : GetTrackerId (track t e) = GetTrackerId t.
Proof. by destruct e. Qed.

(** Saving the trace id, then tracking [news]. *)
Lemma save_updates n (t t1 : ThreadTracker I) bt bt' info trace info' trace' tr id news :
  SaveTraceId avx xxh t bt info trace = Ret (info', trace', t1, bt') →
  saved (T := StacktraceTracker) t bt n tr id t1 bt' →
  updates t (foldl track t1 news) bt bt' n news.
Proof.
  intros E [_ Hc Ht Hr Hk Hdep].
  assert (Hf : ∀ l (u : ThreadTracker I), cache_ok u bt' →
    cache_ok (foldl track u l) bt' ∧
    (GetTrackerId (foldl track u l) = GetTrackerId u ∧
     tt_collapseDepth (foldl track u l) = tt_collapseDepth u) ∧
    ∀ fs, holds u fs → holds (foldl track u l) (fs ++ l)).
  { induction l as [|e l IH]; intros u Hu; cbn [foldl].
    { split_and!; [done..|]. intros fs. by rewrite app_nil_r. }
    destruct (IH (track u e) (cache_ok_track u e bt' Hu)) as (G1 & G2 & G3).
    split; [done|]. split; [destruct G2 as [-> ->]; by destruct e|]. intros fs Hfs.
    specialize (G3 _ (holds_track u fs e Hfs)). by rewrite <- app_assoc in G3. }
  destruct (Hf news t1 Hc) as (G1 & [G2 G4] & G3). split; try done; [| |by rewrite G4].
  - rewrite G2. by apply (SaveTraceId_id _ _ _ _ _ _ _ _ E).
  - intros fs Hfs. apply G3. by apply (holds_save _ _ _ _ _ _ _ _ _ _ _ E).
Qed.

(** *** Internal handlers: the queue of postponed operations *)

Lemma mh_inv_le n s q es : mh_inv (S n) s q es → mh_inv n s q es.
Proof.
  intros [? [? ? Hr ? ? ? ?] ? ?]. split; try done. split; try done; [|lia].
  destruct Hr as (s0 & E & Hr). exists s0. split; [done|]. lia.
Qed.

Lemma set_ibt_inv n s q es ibt traces : mh_inv n s q es → static_ok xxh ibt traces →
  mh_inv n (with_inner s (m_maxPostponedSize s) (m_postponed s) (m_innerTracker s) ibt) q es.
Proof.
  intros [Hth [] [b []] Hq] Hs. split.
  - by eapply threads_ok_ext; [..|exact Hth].
  - split; try done. by exists traces.
  - exists b. by split.
  - done.
Qed.

Lemma ProcessPostponed_loop_holds po : ∀ (t : ThreadTracker I) fs,
  holds t fs → holds (ProcessPostponed_loop po t) (fs ++ (po_event <$> po)).
Proof.
  induction po as [|[info op] po IH]; intros t fs Ht; cbn [ProcessPostponed_loop].
  { by rewrite app_nil_r. }
  rewrite fmap_cons, cons_middle, app_assoc. apply IH.
  destruct op; [by apply (holds_track t fs (EvAlloc info))|by apply (holds_track t fs (EvFree info))].
Qed.

(** Replacing the inner tracker and the queue: the events move, those lost are the reference's. *)
Lemma inner_books n s q q' es po inn fs b mx new :
  mh_inv n s q es → books_ok s q b es → holds inn fs →
  b_inner b ++ (po_event <$> m_postponed s) ++ q_lost q ++ new ≡ₚ fs ++ (po_event <$> po) ++ q_lost q' →
  queue_ok (with_inner s mx po (Some inn) (m_innerBtTracker s)) q' →
  mh_inv n (with_inner s mx po (Some inn) (m_innerBtTracker s)) q' (es ++ new).
Proof.
  intros [Hth [] _ _] [K1 K2 K3 K4 K5] Hh Hp Hq. split; [| | |done].
  - by eapply threads_ok_ext; [..|exact Hth].
  - by split.
  - exists (mkBooks (b_th b) fs (b_exit b) (b_consumed b)).
    split; cbn; try done; [by exists inn|].
    unfold b_all in *. cbn. perm_solve.
Qed.

(** First level: the queue is emptied into the inner tracker, then [f] tracks [new]. *)
Lemma inner_track_spec n s q es th f new :
  mh_inv n s q es → inner_first s th = true →
  (∀ (t : ThreadTracker I) fs, holds t fs → holds (f t) (fs ++ new)) →
  ∃ s1 s2, ProcessPostponed s = Ret s1 ∧ with_inner_tracker s1 f = Ret s2
           ∧ mh_inv n s2 (queue_op (cfg_MaxPostponed (m_cfg s)) q th false new) (es ++ new).
Proof.
  intros Hi Hfirst Hf. pose proof (mi_books _ _ _ _ Hi) as [b Hb].
  destruct (bk_inner _ _ _ _ Hb) as (t & Et & Ht).
  assert (El : q_lost (queue_op (cfg_MaxPostponed (m_cfg s)) q th false new) = q_lost q).
  { unfold queue_op. rewrite <- (queue_first s th q (mi_queue _ _ _ _ Hi)). by rewrite Hfirst. }
  set (s1 := with_inner s (m_maxPostponedSize s) [] (Some (ProcessPostponed_loop (m_postponed s) t)) (m_innerBtTracker s)).
  set (s2 := with_inner s (m_maxPostponedSize s) [] (Some (f (ProcessPostponed_loop (m_postponed s) t))) (m_innerBtTracker s)).
  assert (E1 : ProcessPostponed s = Ret s1).
  { unfold ProcessPostponed, s1. destruct (m_postponed s) eqn:Ep; rewrite ?Et; [|done].
    f_equal. destruct s; cbn in *. by subst. }
  assert (E2 : with_inner_tracker s1 f = Ret s2) by done.
  exists s1, s2. split; [done|]. split; [done|].
  pose proof (queue_process s s1 s2 f q th new (mi_queue _ _ _ _ Hi) Hfirst E1 E2) as Hq.
  pose proof (ProcessPostponed_loop_holds (m_postponed s) t (b_inner b) Ht) as Hl.
  apply (inner_books n s q _ es [] _ ((b_inner b ++ (po_event <$> m_postponed s)) ++ new) b); try done; [by apply Hf|].
  rewrite El. cbn. perm_solve.
Qed.

(** Deeper levels: the operation is queued, or lost when the queue is full. *)
Lemma Postpone_spec n s q es th op info : mh_inv n s q es → inner_first s th = false →
  mh_inv n (Postpone op s info)
    (queue_op (cfg_MaxPostponed (m_cfg s)) q th false [po_event (mkPostponed info op)])
    (es ++ [po_event (mkPostponed info op)]).
Proof.
  intros Hi Hf. pose proof (mi_books _ _ _ _ Hi) as [b Hb]. pose proof (mi_queue _ _ _ _ Hi) as Hq.
  rewrite (queue_first s th q Hq) in Hf. apply Z.eqb_neq in Hf.
  pose proof (queue_postpone s q th op info Hq Hf) as Hq'. revert Hq'. unfold queue_op, Postpone.
  rewrite (proj2 (Z.eqb_neq _ _) Hf).
  assert (Hz : zlen (m_postponed s) = zlen (q_waiting q))
    by (destruct Hq as [_ <-]; unfold zlen; by rewrite length_fmap).
  rewrite Hz. destruct (Z.leb_spec (cfg_MaxPostponed (m_cfg s)) (zlen (q_waiting q))).
  - replace (Z.to_nat _) with 0%nat by lia. intros Hq'. destruct Hi as [Hth Hca _ _].
    split; [done..| |done]. destruct Hb as [K1 K2 K3 K4 K5].
    exists b. split; try done. unfold b_all in *. cbn. perm_solve.
  - destruct (Z.to_nat _) as [|k] eqn:Ek; [lia|]. intros Hq'.
    destruct (bk_inner _ _ _ _ Hb) as (t & Et & Ht). rewrite Et in *.
    apply (inner_books n s q _ es _ t (b_inner b) b); try done.
    cbn. rewrite fmap_app, drop_nil. cbn. perm_solve.
Qed.

Lemma first_postponed op s info th : inner_first (Postpone op s info) th = inner_first s th.
Proof. unfold Postpone. by destruct (_ <=? _). Qed.

(** Both operations of a reallocation. *)
Lemma Postpone2_spec n s q es th prev info : mh_inv n s q es → inner_first s th = false →
  mh_inv n (PostponeAlloc (PostponeDealloc s prev) info)
    (queue_op (cfg_MaxPostponed (m_cfg s)) q th false [EvFree prev; EvAlloc info])
    (es ++ [EvFree prev; EvAlloc info]).
Proof.
  intros Hi Hf. pose proof (Postpone_spec n s q es th Free prev Hi Hf) as G1.
  pose proof (Postpone_spec n _ _ _ th Alloc info G1 ltac:(by rewrite first_postponed)) as G2.
  rewrite <- app_assoc, postpone_cfg, queue_op_split in G2; [exact G2|].
  apply Z.eqb_neq. by rewrite <- (queue_first s th q (mi_queue _ _ _ _ Hi)).
Qed.

(** *** Every call succeeds and keeps the invariant *)

(** External: the thread's tracker saves the trace id and tracks [news id]. *)
Lemma external_spec n s q es th info trace (news : Z → list event) :
  mh_inv (S n) s q es → st_ok trace → addresses trace →
  ∃ s1 t id trace' t1 bt s2,
    ensure_registered s th = Ret s1 ∧ current_tracker s1 th = Ret t ∧
    SaveTraceId avx xxh t (m_btTracker s1) info trace = Ret (set_traceId info id, trace', t1, bt) ∧
    store_tracker s1 th (foldl track t1 (news id)) bt = Ret s2 ∧
    mh_inv n s2 q (es ++ news id) ∧ later s s2 ∧ id_means s2 id (GetTrace trace) true.
Proof.
  intros Hi Hst Ha.
  destruct (ensure_registered_spec n s q th es Hi) as (s1 & E1 & Hr & Hss).
  destruct (store_spec n s1 q th es Hr) as (t & Et & [Hc Hd] & Hstore).
  destruct (rd_caches _ _ _ _ _ Hr) as [_ Hbt Hroom _ _ _ _].
  destruct (SaveTraceId_spec avx xxh t (m_btTracker s1) n info trace Hc Hbt Hroom Hst Ha)
    as (id & tr' & t1 & bt & E & Hs).
  destruct (Hstore _ bt (news id) (save_updates _ _ _ _ _ _ _ _ _ _ _ (news id) E Hs))
    as (s2 & E2 & Hi2 & Eb & Eib & Ec).
  exists s1, t, id, tr', t1, bt, s2. split_and!; try done.
  - transitivity s1; [by apply same_store_later|].
    split; rewrite ?Eb, ?Eib, ?Ec; [apply Hs|done|done].
  - unfold id_means. rewrite Eb, Ec, <- Hd. by destruct (sv_denotes _ _ _ _ _ _ _ Hs).
Qed.

(** Internal: the trace is inserted into the static tracker. *)
Lemma internal_spec n s q es trace : mh_inv (S n) s q es → addresses trace →
  ∃ id ibt, Static_InsertStacktrace xxh (m_innerBtTracker s) trace = Ret (id, ibt) ∧
    let s1 := with_inner s (m_maxPostponedSize s) (m_postponed s) (m_innerTracker s) ibt in
    mh_inv n s1 q es ∧ later s s1 ∧ id_means s1 id (GetTrace trace) false.
Proof.
  intros Hi Ha. destruct (ch_ibt _ _ _ (mi_caches _ _ _ _ Hi)) as [traces Hok].
  destruct (static_insert xxh (m_innerBtTracker s) traces trace Hok Ha)
    as (id & ibt & traces' & E & Hok' & _ & Hpre & Hk).
  exists id, ibt. split; [done|]. apply mh_inv_le in Hi. split; [by apply (set_ibt_inv _ _ _ _ _ traces')|].
  split; [|exact Hk]. split; [done| |done]. cbn. intros i tr (P & k & HP & -> & HPk).
  rewrite (static_traces xxh _ P traces HP Hok) in HPk. exists traces', k.
  split; [done|]. split; [done|]. by eapply prefix_lookup_Some.
Qed.

(** The inner tracker and the queue do not hold trace ids. *)
Lemma inner_later s s1 s2 f :
  ProcessPostponed s = Ret s1 → with_inner_tracker s1 f = Ret s2 → same_store s s2.
Proof.
  unfold ProcessPostponed, with_inner_tracker. destruct (m_postponed s).
  - intros [= <-] E. inv_ret. by simplify_eq.
  - intros E1 E2. inv_ret. by simplify_eq.
Qed.

Lemma Postpone_store s op info : same_store s (Postpone op s info).
Proof. unfold Postpone. by destruct (_ <=? _). Qed.

Lemma TrackAlloc_spec n s q es th info trace ext :
  mh_inv (S n) s q es → st_ok trace → addresses trace →
  ∃ info' trace' s', TrackAlloc avx xxh s th info trace ext = Ret (info', trace', s')
    ∧ mh_inv n s' (queued s q th ext [EvAlloc info']) (es ++ [EvAlloc info']) ∧ later s s'
    ∧ id_means s' (info_traceId info') (GetTrace trace) ext.
Proof.
  intros Hi Hst Ha. unfold TrackAlloc. destruct ext.
  - destruct (external_spec n s q es th info trace (fun id => [EvAlloc (set_traceId info id)]) Hi Hst Ha)
      as (s1 & t & id & tr' & t1 & bt & s2 & -> & E1 & E2 & E3 & H1 & H2 & H3).
    step_ret. rewrite E1. step_ret. rewrite E2. step_ret. cbn [foldl track] in E3. rewrite E3. step_ret.
    by eexists _, _, _.
  - destruct (internal_spec n s q es trace Hi Ha) as (id & ibt & -> & H1 & H2 & H3). step_ret. cbv zeta.
    destruct (inner_first _ th) eqn:Ef.
    + destruct (inner_track_spec n _ q es th (fun t => Locked_TrackAlloc t (set_traceId info id))
        [EvAlloc (set_traceId info id)] H1 Ef) as (s1 & s2 & E1 & E2 & Hi2).
      { intros t fs. apply (holds_track t fs (EvAlloc _)). }
      pose proof (same_store_later _ _ (inner_later _ _ _ _ E1 E2)) as Hl.
      rewrite E1. step_ret. rewrite E2. step_ret. eexists _, _, _. split; [done|]. split; [done|].
      split; [by etransitivity|]. by eapply id_means_later.
    + eexists _, _, _. split; [done|]. split; [exact (Postpone_spec n _ q es th Alloc (set_traceId info id) H1 Ef)|].
      set (s1 := with_inner _ _ _ _ _) in *.
      pose proof (same_store_later _ _ (Postpone_store s1 Alloc (set_traceId info id))) as Hl.
      split; [by transitivity s1|]. by apply (id_means_later s1).
Qed.

Lemma TrackDealloc_spec n s q es th info ext : mh_inv (S n) s q es →
  ∃ s', TrackDealloc s th info ext = Ret s'
    ∧ mh_inv n s' (queued s q th ext [EvFree info]) (es ++ [EvFree info]) ∧ later s s'.
Proof.
  intros Hi. unfold TrackDealloc. destruct ext.
  - destruct (ensure_registered_spec n s q th es Hi) as (s1 & -> & Hr & Hss). step_ret.
    destruct (store_spec n s1 q th es Hr) as (t & -> & [Hc Hd] & Hstore). step_ret.
    destruct (rd_caches _ _ _ _ _ Hr) as [_ Hbt (s0 & E0 & Hroom) _ _ _ _].
    destruct (Hstore (Locked_TrackDealloc t info) (m_btTracker s1) [EvFree info])
      as (s2 & E2 & Hi2 & Hss2).
    { split; try done.
      - intros fs. apply (holds_track t fs (EvFree info)).
      - by apply (cache_ok_track t (EvFree info)).
      - exists s0. split; [done|]. lia. }
    exists s2. split; [done|]. split; [done|].
    transitivity s1; by apply same_store_later.
  - apply mh_inv_le in Hi. destruct (inner_first s th) eqn:Ef.
    + destruct (inner_track_spec n _ q es th (fun t => Locked_TrackDealloc t info) [EvFree info] Hi Ef)
        as (s1 & s2 & E1 & E2 & Hi2).
      { intros t fs. apply (holds_track t fs (EvFree _)). }
      rewrite E1. step_ret. exists s2. split; [done|]. split; [done|].
      by eapply same_store_later, inner_later.
    + eexists. split; [done|]. split; [exact (Postpone_spec n _ q es th Free info Hi Ef)|].
      apply same_store_later, Postpone_store.
Qed.

Lemma TrackRealloc_spec n s q es th prev info trace ext :
  mh_inv (S n) s q es → st_ok trace → addresses trace →
  ∃ info' trace' s', TrackRealloc avx xxh s th prev info trace ext = Ret (info', trace', s')
    ∧ mh_inv n s' (queued s q th ext [EvFree prev; EvAlloc info']) (es ++ [EvFree prev; EvAlloc info']) ∧ later s s'
    ∧ id_means s' (info_traceId info') (GetTrace trace) ext.
Proof.
  intros Hi Hst Ha. unfold TrackRealloc. destruct ext.
  - destruct (external_spec n s q es th info trace
      (fun id => [EvFree prev; EvAlloc (set_traceId info id)]) Hi Hst Ha)
      as (s1 & t & id & tr' & t1 & bt & s2 & -> & E1 & E2 & E3 & H1 & H2 & H3).
    step_ret. rewrite E1. step_ret. rewrite E2. step_ret. cbn [foldl track] in E3. rewrite E3. step_ret.
    by eexists _, _, _.
  - destruct (internal_spec n s q es trace Hi Ha) as (id & ibt & -> & H1 & H2 & H3). step_ret. cbv zeta.
    destruct (inner_first _ th) eqn:Ef.
    + destruct (inner_track_spec n _ q es th
        (fun t => Locked_TrackAlloc (Locked_TrackDealloc t prev) (set_traceId info id))
        [EvFree prev; EvAlloc (set_traceId info id)] H1 Ef) as (s1 & s2 & E1 & E2 & Hi2).
      { intros t fs Hh. pose proof (holds_track t fs (EvFree prev) Hh) as G1.
        pose proof (holds_track _ _ (EvAlloc (set_traceId info id)) G1) as G2.
        by rewrite <- app_assoc in G2. }
      pose proof (same_store_later _ _ (inner_later _ _ _ _ E1 E2)) as Hl.
      rewrite E1. step_ret. rewrite E2. step_ret. eexists _, _, _. split; [done|]. split; [done|].
      split; [by etransitivity|]. by eapply id_means_later.
    + eexists _, _, _. split; [done|].
      split; [exact (Postpone2_spec n _ q es th prev (set_traceId info id) H1 Ef)|].
      set (s1 := with_inner _ _ _ _ _) in *.
      assert (Hl : later s1 (PostponeAlloc (PostponeDealloc s1 prev) (set_traceId info id))).
      { transitivity (PostponeDealloc s1 prev); apply same_store_later, Postpone_store. }
      split; [by transitivity s1|]. by apply (id_means_later s1).
Qed.

(** *** Thread exit *)

Lemma ThreadExit_spec n s q es th : mh_inv n s q es →
  ∃ s', ThreadExit s th = Ret s' ∧ mh_inv n s' q es ∧ later s s'.
Proof.
  intros Hi. pose proof Hi as [[H1 H2 H3 H4 H5 H6 H7] Hca [b Hb] Hq]. unfold ThreadExit.
  destruct (gtl_trackerFinalizer (tls_of s th)) as [i|] eqn:Ef; [|by exists s].
  (* the finalizer's tracker *)
  assert (Ho : owns s th i) by by apply H2. pose proof (H1 th i Ho) as Hb1.
  destruct (lookup_lt_is_Some_2 (m_thTrackers s) (Z.to_nat i)) as [t Ht]; [unfold zlen in Hb1; lia|].
  unfold ReclaimTracker. rewrite (rd_some _ _ t) by (done || lia). step_ret.
  rewrite (H7 _ _ Ht), Z2Nat.id by lia. eexists. split; [done|].
  split; [|by apply same_store_later].
  assert (Hni : i ∉ m_finishedTrackers s) by (intros Hin; by apply (proj2 (H5 i Hin) th)).
  set (s' := with_trackers _ _ _ _ _).
  assert (Htls : ∀ th', tls_of s' th' = if decide (th = th')
            then mkTls PExiting None (inner_level (tls_of s th)) else tls_of s th').
  { intros th'. unfold s'. rewrite tls_of_trackers, tls_of_with. case_decide as E.
    - by rewrite tls_of_with, decide_True.
    - by rewrite tls_of_with, decide_False. }
  assert (Ho' : ∀ th' j, owns s' th' j ↔ th ≠ th' ∧ owns s th' j).
  { intros th' j. unfold owns. rewrite Htls. case_decide; cbn; [split; [done|by intros [? _]]|tauto]. }
  assert (Hf' : ∀ th', gtl_trackerFinalizer (tls_of s' th') =
    if decide (th = th') then None else gtl_trackerFinalizer (tls_of s th'))
    by (intros th'; rewrite Htls; by case_decide).
  split.
  - split; cbn [s' with_trackers m_thTrackers m_finishedTrackers with_tls]; try done.
    + intros th' j [_ Hj]%Ho'. by apply (H1 th').
    + intros th' j. rewrite Ho', Hf'. case_decide; [split; [by intros [? _]|done]|].
      rewrite H2. split; [by intros [_ ?]|by split].
    + intros t1 t2 j [_ Hj1]%Ho' [_ Hj2]%Ho'. by apply (H3 t1 t2 j).
    + apply NoDup_app. split; [done|]. split; [|apply NoDup_singleton].
      intros x Hx ->%list_elem_of_singleton. done.
    + intros j Hj. apply elem_of_app in Hj as [Hj|Hj].
      * destruct (H5 j Hj) as [? Hn]. split; [done|]. intros th' [_ Hj']%Ho'. by apply (Hn th').
      * apply list_elem_of_singleton in Hj as ->. split; [done|]. intros th' [Hne Hj']%Ho'.
        by apply Hne, (H3 th th' i).
    + intros j Hj. destruct (decide (j = i)) as [->|Hne].
      { left. apply elem_of_app. right. by apply list_elem_of_singleton. }
      destruct (H6 j Hj) as [?|[th' Hj']]; [left; apply elem_of_app; by left|right].
      exists th'. apply Ho'. split; [|done]. intros <-. unfold owns in *. congruence.
  - by destruct Hca.
  - exists b. by destruct Hb.
  - eapply queue_same; [|exact Hq]. split; [|done]. intros th'. rewrite Htls. by case_decide; subst.
Qed.

(** *** The worker *)

Definition recorded (w : Recorder) (es : list event) : Prop :=
  (∀ id, consumed_of id w = wrap (exact_sum (of_trace id es))) ∧
  consumed_total w = wrap (exact_sum es).

Lemma recorded_snoc w es (t : ThreadTracker I) fs : recorded w es → holds t fs →
  recorded (w ++ [(tt_summaries t, summary_add AllocSummary_zero (tt_total t))]) (es ++ fs).
Proof.
  intros [H1 H2] Hh. unfold recorded, consumed_of, consumed_total in *. split.
  - intros id. rewrite foldl_app. cbn. rewrite H1, (holds_slot t fs id Hh), wrap_add, of_trace_app.
    by rewrite exact_sum_app.
  - rewrite foldl_app. cbn. rewrite H2, (proj2 Hh), summary_add_zero, wrap_add. by rewrite exact_sum_app.
Qed.

Definition set_writer s (w : Recorder) : state :=
  with_worker s (m_modulesCacheInvalidated s) (Some (mkWorkerStorage w ∅ AllocSummary_zero)).

(** A tracker after its balance was taken. *)
Definition emptied (bt : StacktraceTracker) (t t' : ThreadTracker I) : Prop :=
  GetTrackerId t' = GetTrackerId t ∧ (∀ cfg, fine cfg bt t → fine cfg bt t') ∧ holds t' [].

Lemma account_spec s t w es fs bt :
  m_workerStorage s = Some (mkWorkerStorage w ∅ AllocSummary_zero) → recorded w es → holds t fs →
  ∃ t' w', WorkerAccountThreadTracker s t = Ret (t', set_writer s w')
    ∧ recorded w' (es ++ fs) ∧ emptied bt t t'.
Proof.
  intros Ew Hr Hh. unfold WorkerAccountThreadTracker. rewrite Ew. cbn [the]. step_ret.
  eexists _, _. split; [reflexivity|]. split; [by apply recorded_snoc|].
  split; [done|]. split; [|by apply holds_nil].
  intros cfg [[] ?]. by split; [split|].
Qed.

Lemma update_loop_spec bt todo : ∀ s done w es fss,
  m_workerStorage s = Some (mkWorkerStorage w ∅ AllocSummary_zero) → recorded w es →
  Forall2 holds todo fss →
  ∃ w' todo', WorkerUpdateData_loop s todo done
      = Ret (with_trackers (set_writer s w') (done ++ todo') (m_finishedTrackers s)
               (m_exitingThreadsTracker s) (m_btTracker s))
    ∧ recorded w' (es ++ concat fss) ∧ Forall2 (emptied bt) todo todo'.
Proof.
  induction todo as [|t todo IH]; intros s done w es fss Ew Hr Hf; cbn [WorkerUpdateData_loop].
  { inversion Hf; subst. exists w, []. rewrite !app_nil_r. split_and!; [|done|done].
    unfold set_writer. destruct s; cbn in *. by subst. }
  inversion Hf as [|? fs ? fss' Hh Hf']; subst.
  destruct (account_spec s t w es fs bt Ew Hr Hh) as (t' & w1 & -> & Hr1 & He). step_ret.
  destruct (IH (set_writer s w1) (done ++ [t']) w1 (es ++ fs) fss') as (w2 & todo' & -> & Hr2 & He2);
    [done..|].
  exists w2, (t' :: todo'). rewrite <- !app_assoc in *. split_and!; [done|done|by constructor].
Qed.

(** The state after an iteration: empty trackers, all earlier events recorded. *)
Lemma worker_done n s s' q es b l' inn' ex' w :
  mh_inv n s q es → books_ok s q b es →
  m_cfg s' = m_cfg s → tls s' = tls s → m_finishedTrackers s' = m_finishedTrackers s →
  m_btTracker s' = m_btTracker s → m_innerBtTracker s' = m_innerBtTracker s →
  m_postponed s' = m_postponed s → m_thTrackers s' = l' →
  m_innerTracker s' = Some inn' → m_exitingThreadsTracker s' = Some ex' →
  m_workerStorage s' = Some (mkWorkerStorage w ∅ AllocSummary_zero) →
  Forall2 (emptied (m_btTracker s)) (m_thTrackers s) l' → holds inn' [] →
  (∀ t, m_exitingThreadsTracker s = Some t → emptied (m_btTracker s) t ex') →
  recorded w (((b_consumed b ++ concat (b_th b)) ++ b_inner b) ++ b_exit b) →
  mh_inv n s' q es ∧ later s s'
  ∧ ∃ b', books_ok s' q b' es ∧ concat (b_th b') ++ b_inner b' ++ b_exit b' = [].
Proof.
  intros [Hth Hca _ Hq] [K1 _ _ _ K5] Ec Et Ef Eb Eib Ep Eth Ei Ee Ew He Hi Hx Hr.
  pose proof Hca as [Hcfg Hbt Hroom Hlen Hch (ex & Ex & Hce) Hibt].
  destruct (Hx ex Ex) as (_ & Hcx & Hhx).
  assert (Hz : zlen l' = zlen (m_thTrackers s))
    by (unfold zlen; by rewrite (Forall2_length _ _ _ He)).
  assert (Hc0 : concat (replicate (length l') []) = ([] : list event)) by (induction (length l'); done).
  assert (Hbooks : books_ok s' q (mkBooks (replicate (length l') []) [] []
    (((b_consumed b ++ concat (b_th b)) ++ b_inner b) ++ b_exit b)) es).
  { split; cbn; rewrite ?Ec; try done.
    - rewrite Eth. clear -He. induction He as [|?? ?? (_ & _ & Hh) _ IH]; [done|]. by constructor.
    - by exists inn'.
    - by exists ex'.
    - by exists w.
    - unfold b_all in *. cbn. rewrite Ep, Hc0. perm_solve. }
  split; [|split; [by apply same_store_later|]].
  - split; [| |eauto|].
    3: { eapply queue_same; [|exact Hq]. split; [intros th; unfold tls_of; by rewrite Et|done]. }
    + eapply threads_ok_ext; [..|exact Hth]; [intros t; unfold tls_of; by rewrite Et|done|].
      rewrite Eth. clear -He. induction He as [|?? ?? (E & _) _ IH]; [done|]. cbn. by rewrite E, IH.
    + split; rewrite ?Ec, ?Eb, ?Eib, ?Eth; try done; [lia| |].
      * clear -He Hch. induction He as [|?? ?? (_ & Hc & _) _ IH]; [done|].
        apply Forall_cons in Hch as [? ?]. constructor; auto.
      * exists ex'. auto.
  - eexists. split; [exact Hbooks|]. cbn. by rewrite Hc0.
Qed.

Lemma WorkerIteration_spec n s q es : mh_inv n s q es →
  ∃ s', WorkerIteration uninit s = Ret s' ∧ mh_inv n s' q es ∧ later s s'
        ∧ (∃ b, books_ok s' q b es ∧ concat (b_th b) ++ b_inner b ++ b_exit b = []).
Proof.
  intros Hinv. pose proof Hinv as [Hth Hca [b Hb] Hq].
  pose proof Hb as [K1 (inn & Ei & K2) (ex & Ee & K3) (w & Ew & Hr) K5].
  unfold WorkerIteration, WorkerUpdateData.
  destruct (update_loop_spec (m_btTracker s) (m_thTrackers s) s [] w _ (b_th b) Ew Hr K1)
    as (w1 & th' & -> & Hr1 & He1). step_ret. cbn [with_trackers set_writer with_worker m_innerTracker].
  rewrite Ei. cbn [the]. step_ret.
  set (s1 := with_trackers _ _ _ _ _).
  destruct (account_spec s1 inn w1 _ (b_inner b) (m_btTracker s) eq_refl Hr1 K2)
    as (inn' & w2 & -> & Hr2 & He2). step_ret.
  cbn [s1 with_inner with_trackers set_writer with_worker m_exitingThreadsTracker]. rewrite Ee.
  cbn [the]. step_ret.
  set (s2 := with_inner _ _ _ _ _).
  destruct (account_spec s2 ex w2 _ (b_exit b) (m_btTracker s) eq_refl Hr2 K3)
    as (ex1 & w3 & -> & Hr3 & He3). step_ret.
  destruct (m_modulesCacheInvalidated _); cbn [the]; repeat step_ret;
    (eexists; split; [reflexivity|]);
    (apply (worker_done n s _ q es b th' inn' ex1 w3); try done; [apply He2|congruence]).
Qed.

(** *** Runs *)

Lemma set_level_inv n s q es th f : mh_inv n s q es → mh_inv n (set_level s th f) (queue_level q th f) es.
Proof.
  intros [Hth [] [b []] [Hq Hw]].
  split; [by eapply threads_ok_ext; [apply set_level_ptr|..|exact Hth]|by split|exists b; by split|].
  split; [|done]. intros th'. unfold set_level. rewrite tls_of_with. cbn [queue_level q_level].
  destruct (decide (th = th')) as [<-|Hne].
  - rewrite decide_True by done. cbn. destruct (Hq th) as [-> _]. split; [done|apply u32_range].
  - rewrite decide_False by done. apply Hq.
Qed.

Lemma exec_spec n s q es c : mh_inv (S n) s q es → call_ok c →
  ∃ s' new, exec s c = Ret (s', new) ∧ length new = events_of c
    ∧ mh_inv n s' (queue_step (cfg_MaxPostponed (m_cfg s)) q c new) (es ++ new) ∧ later s s'.
Proof.
  intros Hi Hc. destruct c as [th info tr ext|th info ext|th prev info tr ext|th|th|th| |]; cbn in *.
  - destruct (TrackAlloc_spec n s q es th info tr ext Hi (proj1 Hc) (proj2 Hc))
      as (info' & tr' & s' & -> & H1 & H2 & _). by eexists _, _.
  - destruct (TrackDealloc_spec n s q es th info ext Hi) as (s' & -> & H1 & H2). by eexists _, _.
  - destruct (TrackRealloc_spec n s q es th prev info tr ext Hi (proj1 Hc) (proj2 Hc))
      as (info' & tr' & s' & -> & H1 & H2 & _). by eexists _, _.
  - apply mh_inv_le in Hi. destruct (ThreadExit_spec n s q es th Hi) as (s' & -> & H1 & H2).
    eexists _, []. by rewrite app_nil_r.
  - apply mh_inv_le in Hi. eexists _, []. rewrite app_nil_r. split; [done|]. split; [done|].
    split; [by apply set_level_inv|by apply same_store_later].
  - apply mh_inv_le in Hi. eexists _, []. rewrite app_nil_r. split; [done|]. split; [done|].
    split; [by apply set_level_inv|by apply same_store_later].
  - apply mh_inv_le in Hi. eexists _, []. rewrite app_nil_r. split; [done|]. split; [done|].
    split; [|by apply same_store_later]. destruct Hi as [Hth [] [b []] Hq].
    split; [by eapply threads_ok_ext; [..|exact Hth]|by split|exists b; by split|done].
  - apply mh_inv_le in Hi. destruct (WorkerIteration_spec n s q es Hi) as (s' & -> & H1 & H2 & _).
    eexists _, []. by rewrite app_nil_r.
Qed.

Lemma exec_all_spec cs : ∀ n s q es,
  mh_inv (length cs + n) s q es → Forall call_ok cs →
  ∃ s' new, exec_all s cs = Ret (s', new)
    ∧ mh_inv n s' (queue_run (cfg_MaxPostponed (m_cfg s)) q cs new) (es ++ new) ∧ later s s'.
Proof.
  induction cs as [|c cs IH]; intros n s q es Hi Hc; cbn [exec_all].
  { exists s, []. by rewrite app_nil_r. }
  apply Forall_cons in Hc as [Hc Hcs].
  destruct (exec_spec (length cs + n) s q es c Hi Hc) as (s1 & new1 & -> & Hl & H1 & L1). step_ret.
  destruct (IH n s1 _ _ H1 Hcs) as (s2 & new2 & -> & H2 & L2). step_ret.
  exists s2, (new1 ++ new2). rewrite app_assoc. split; [done|]. split; [|by transitivity s1].
  cbn [queue_run]. rewrite <- Hl, take_app_length, drop_app_length.
  by rewrite (lt_cfg _ _ L1) in H2.
Qed.

(** A configuration with which the profiler runs. *)
Definition cfg_ok (cfg : MemHawkConfig) : Prop :=
  cfg_TrackingWorker cfg = true ∧ 0 < u32 (cfg_LruStackSize cfg)
  ∧ u32 (cfg_CollapseRecursionDepth cfg) < 2 ^ 32 - 1.

Definition start (cfg : MemHawkConfig) : state := MemHawk_PostponedConstruct [] (MemHawk_ctor cfg).

Lemma start_inv n cfg : cfg_ok cfg → 1 + 64 * Z.of_nat n < 2 ^ 31 → mh_inv n (start cfg) nobody_waits [].
Proof.
  intros (Ht & Hl & Hd) Hn. pose proof (u32_range (cfg_CollapseRecursionDepth cfg)) as Hr.
  unfold is_u32 in Hr.
  split.
  - split; cbn; try done.
    + apply NoDup_nil_2.
    + by intros i ?%not_elem_of_nil.
    + change (zlen []) with 0. intros. lia.
  - split; cbn; try done.
    + apply dyn_init_ok.
    + by apply dyn_init_room.
    + change (zlen []) with 0. lia.
    + eexists. split; [done|]. split; [|done]. apply cache_ok_ctor; lia.
    + exists []. apply static_init.
  - exists (mkBooks [] [] [] []). split; cbn; try done.
    + eexists. split; [done|]. apply holds_ctor.
    + eexists. split; [done|]. apply holds_ctor.
    + rewrite Ht. by exists [].
  - done.
Qed.

Lemma run_from_start cfg cs n : cfg_ok cfg → Forall call_ok cs →
  1 + 64 * Z.of_nat (length cs + n) < 2 ^ 31 →
  ∃ s es, exec_all (start cfg) cs = Ret (s, es)
    ∧ mh_inv n s (queue_run (cfg_MaxPostponed cfg) nobody_waits cs es) es ∧ later (start cfg) s.
Proof.
  intros Hcfg Hcs Hn. destruct (exec_all_spec cs n (start cfg) nobody_waits []) as (s & es & E & H1 & H2);
    [by apply start_inv|done|]. by exists s, es.
Qed.

(** *** What the trackers hold *)

Definition all_trackers s : list (ThreadTracker I) :=
  m_thTrackers s ++ option_list (m_innerTracker s) ++ option_list (m_exitingThreadsTracker s).

Definition held s (id : Z) : AllocSummary :=
  foldr (fun t acc => summary_add (summary_slot (tt_summaries t) id) acc) AllocSummary_zero (all_trackers s).

Definition snapshots s : Recorder :=
  match m_workerStorage s with Some ws => ws_writer ws | None => [] end.

Lemma held_sum (ts : list (ThreadTracker I)) fss id : Forall2 holds ts fss →
  foldr (fun t acc => summary_add (summary_slot (tt_summaries t) id) acc) AllocSummary_zero ts
  = wrap (exact_sum (of_trace id (concat fss))).
Proof.
  induction 1 as [|t fs ts fss Hh _ IH]; [done|]. cbn [foldr concat].
  rewrite IH, (holds_slot t fs id Hh), wrap_add, of_trace_app. by rewrite exact_sum_app.
Qed.

Lemma of_trace_perm id es fs : es ≡ₚ fs → of_trace id es ≡ₚ of_trace id fs.
Proof. intros H. unfold of_trace. by rewrite H. Qed.

Lemma books_sum s q b es id : books_ok s q b es →
  summary_add (consumed_of id (snapshots s))
    (summary_add (held s id)
       (wrap (exact_sum (of_trace id ((po_event <$> m_postponed s) ++ q_lost q)))))
  = wrap (exact_sum (of_trace id es)).
Proof.
  intros [K1 (inn & Ei & K2) (ex & Ee & K3) (w & Ew & K4 & _) K5].
  unfold held, all_trackers, snapshots. rewrite Ew, Ei, Ee. cbn [option_list ws_writer].
  rewrite (held_sum _ (b_th b ++ [b_inner b; b_exit b]) id).
  2: { apply Forall2_app; [done|]. constructor; [done|]. by constructor. }
  rewrite K4, !wrap_add, <- !exact_sum_app, <- !of_trace_app. f_equal. apply exact_sum_perm, of_trace_perm.
  unfold b_all in K5. rewrite concat_app. cbn. perm_solve.
Qed.

(** When the books of all trackers are empty, so are the trackers. *)
Lemma books_idle s q b es id : books_ok s q b es → concat (b_th b) ++ b_inner b ++ b_exit b = [] →
  held s id = AllocSummary_zero.
Proof.
  intros [K1 (inn & Ei & K2) (ex & Ee & K3) _ _] He.
  apply app_eq_nil in He as [He1 He2]. apply app_eq_nil in He2 as [He2 He3].
  unfold held, all_trackers. rewrite Ei, Ee. cbn [option_list].
  rewrite (held_sum _ (b_th b ++ [b_inner b; b_exit b]) id)
    by (apply Forall2_app; [done|]; constructor; [done|]; by constructor).
  rewrite concat_app, He1. cbn. by rewrite He2, He3.
Qed.

(** *** The finder *)

(** The answer to a question about an id: its frames, or nothing when the static tracker was
    full. *)
Definition right_answer s (id : Z) (tr : list Z) (isExternal : bool) (r : option Stacktrace) : Prop :=
  if isExternal
  then ∃ st, r = Some st
         ∧ GetTrace st = dyn_canon (collapse tr (u32 (cfg_CollapseRecursionDepth (m_cfg s))))
  else if decide (id = UnknownTraceId) then r = None else ∃ st, r = Some st ∧ GetTrace st = static_canon tr.

Lemma id_means_range n s q es id tr (ext : bool) : mh_inv n s q es → id_means s id tr ext →
  if ext then 0 ≤ id < 2 ^ 31 else 2 ^ 31 ≤ id < 2 ^ 31 + 514.
Proof.
  intros [_ [_ _ (s0 & E0 & Hroom) _ _ _ _] _ _] Hm. destruct ext; cbn in Hm.
  - destruct Hm as (s1 & paths & E1 & Hs & Hl & _). simplify_eq.
    apply (so_leafs _ _ Hs) in Hl. destruct (so_nodes _ _ Hs) as [Hlen _]. unfold zlen in *. lia.
  - destruct Hm as [(P & k & HP & -> & Hk)| ->]; [|vm_compute; split; congruence].
    apply lookup_lt_Some in Hk. pose proof (sk_bound _ _ _ HP). unfold zlen, ElementsCount in *.
    rewrite flag_set; lia.
Qed.

Lemma finder_own n s q es id : mh_inv n s q es → 2 ^ 31 ≤ id < 2 ^ 32 →
  InnerStacktraceFinder_GetStacktraceFromId uninit s id =
  ('(trace, _) ← Static_GetStacktraceFromId uninit (m_innerBtTracker s) id; Ret trace).
Proof.
  intros [_ [_ _ (s0 & E0 & Hroom) _ _ _ _] _ _] Hb. unfold InnerStacktraceFinder_GetStacktraceFromId.
  assert (Tracker_GetStacktraceFromId uninit (m_btTracker s) id = Ret (None, m_btTracker s)) as ->; [|done].
  unfold Tracker_GetStacktraceFromId, deref. rewrite E0. step_ret. by zcases.
Qed.

Lemma finder_unknown n s q es : mh_inv n s q es →
  InnerStacktraceFinder_GetStacktraceFromId uninit s UnknownTraceId = Ret None.
Proof.
  intros Hi. rewrite (finder_own n s q es) by (done || ground). destruct Hi as [_ [_ _ _ _ _ _ [traces Hibt]] _ _].
  by rewrite (static_get_none xxh uninit _ traces UnknownTraceId Hibt); [|ground|intros tr'; apply static_unknown].
Qed.

Lemma finder_right n s q es id tr ext : mh_inv n s q es → zlen uninit = MaxUnwindDepth →
  id_means s id tr ext →
  ∃ r, InnerStacktraceFinder_GetStacktraceFromId uninit s id = Ret r ∧ right_answer s id tr ext r
    ∧ ∀ st, r = Some st → st_ok st.
Proof.
  intros Hi Hu Hm. pose proof (id_means_range _ _ _ _ _ _ _ Hi Hm) as Hb.
  destruct ext; cbn in Hm.
  - unfold InnerStacktraceFinder_GetStacktraceFromId. destruct (dyn_get uninit _ id _ Hu Hm) as (st & -> & Hst & Ht). step_ret. eexists. split; [done|].
    split; [by exists st|]. by intros ? [= <-].
  - destruct Hm as [Hk| ->].
    + rewrite (finder_own n s q es) by (done || lia).
      destruct (static_get xxh uninit _ id _ Hu Hk) as (st & t' & -> & Hst & Ht & _). step_ret.
      eexists. split; [done|]. split; [|by intros ? [= <-]]. unfold right_answer.
      rewrite decide_False; [by exists st|]. intros ->. by apply static_unknown in Hk.
    + rewrite (finder_unknown n s q es Hi). eexists. split; [done|]. split; [|done]. unfold right_answer. by rewrite decide_True.
Qed.

Lemma finder_spec n s q es id tr ext : mh_inv n s q es → zlen uninit = MaxUnwindDepth →
  id_means s id tr ext →
  if ext then ∃ st, InnerStacktraceFinder_GetStacktraceFromId uninit s id = Ret (Some st)
                ∧ GetTrace st = dyn_canon (collapse tr (u32 (cfg_CollapseRecursionDepth (m_cfg s))))
  else (∃ st, InnerStacktraceFinder_GetStacktraceFromId uninit s id = Ret (Some st)
              ∧ GetTrace st = static_canon tr) ∨
       id = UnknownTraceId ∧ InnerStacktraceFinder_GetStacktraceFromId uninit s id = Ret None.
Proof.
  intros Hi Hu Hm. destruct (finder_right _ _ _ _ _ _ _ Hi Hu Hm) as (r & -> & Hr & _).
  unfold right_answer in Hr. destruct ext; [destruct Hr as (st & -> & ?); by exists st|].
  case_decide as Hid; [rewrite Hr; by right|]. destruct Hr as (st & -> & ?). left. by exists st.
Qed.

(** The worker leaves the queue and the own traces alone. *)
Lemma account_postponed s t t' s' :
  WorkerAccountThreadTracker s t = Ret (t', s') → same_queue s s' ∧ m_innerTracker s' = m_innerTracker s.
Proof.
  unfold WorkerAccountThreadTracker. destruct (m_workerStorage s) as [ws|]; [|done]. cbn.
  intros E. by simplify_eq.
Qed.

Lemma update_loop_postponed todo : ∀ s done s',
  WorkerUpdateData_loop s todo done = Ret s' → same_queue s s'.
Proof.
  induction todo as [|t todo IH]; intros s done s' E; cbn in E; [by simplify_eq|].
  inv_ret. destruct r as [t1 s1]. apply account_postponed in Hr as [Ep _]. apply IH in E. by transitivity s1.
Qed.

Lemma worker_postponed s s' : WorkerIteration uninit s = Ret s' → same_queue s s'.
Proof.
  unfold WorkerIteration. intros E. apply bind_ret_inv in E as (s4 & E & Ep).
  transitivity s4; [|unfold WorkerPrintData in Ep; destruct (m_workerStorage s4); [|done]; cbn in Ep; by simplify_eq].
  clear Ep. unfold WorkerUpdateData in E. apply bind_ret_inv in E as (s1 & E1 & E).
  apply update_loop_postponed in E1. transitivity s1; [done|].
  apply bind_ret_inv in E as (inn & _ & E). apply bind_ret_inv in E as ([inn' s2] & E2 & E).
  apply account_postponed in E2 as [E2 _]. transitivity s2; [done|].
  apply bind_ret_inv in E as (ex & _ & E). apply bind_ret_inv in E as ([ex' s3] & E3 & E).
  apply account_postponed in E3 as [E3 _]. transitivity s3; [exact E3|].
  destruct (m_modulesCacheInvalidated _); [apply bind_ret_inv in E as (ws & _ & E); cbn in E|];
    by simplify_eq.
Qed.

(** *** The own traces *)

Lemma Postpone_ibt op s info : m_innerBtTracker (Postpone op s info) = m_innerBtTracker s.
Proof. unfold Postpone. by destruct (_ <=? _). Qed.

Lemma first_ibt s s1 s2 f : ProcessPostponed s = Ret s1 → with_inner_tracker s1 f = Ret s2 →
  m_innerBtTracker s2 = m_innerBtTracker s.
Proof. intros E1 E2. by destruct (inner_later _ _ _ _ E1 E2) as (_ & ? & _). Qed.

Lemma TrackAlloc_own s th info trace ext info' trace' s' :
  TrackAlloc avx xxh s th info trace ext = Ret (info', trace', s') →
  if ext then m_innerBtTracker s' = m_innerBtTracker s
  else ∃ ibt, Static_InsertStacktrace xxh (m_innerBtTracker s) trace = Ret (info_traceId info', ibt)
         ∧ m_innerBtTracker s' = ibt.
Proof.
  unfold TrackAlloc. destruct ext; intros E.
  - apply bind_ret_inv in E as (s1 & E1 & E). apply queue_ensure in E1 as (_ & _ & E1).
    apply bind_ret_inv in E as (t & _ & E). apply bind_ret_inv in E as ([[[i tr] t'] bt] & _ & E).
    apply bind_ret_inv in E as (s2 & E2 & E). apply queue_store in E2 as (_ & _ & E2). simplify_eq. congruence.
  - apply bind_ret_inv in E as ([id ibt] & -> & E). exists ibt. set (s1 := with_inner _ _ _ _ _) in E.
    destruct (inner_first s1 th).
    + apply bind_ret_inv in E as (s2 & E2 & E). apply bind_ret_inv in E as (s3 & E3 & E). simplify_eq.
      by rewrite (first_ibt _ _ _ _ E2 E3).
    + simplify_eq. unfold PostponeAlloc. by rewrite Postpone_ibt.
Qed.

Lemma TrackRealloc_own s th prev info trace ext info' trace' s' :
  TrackRealloc avx xxh s th prev info trace ext = Ret (info', trace', s') →
  if ext then m_innerBtTracker s' = m_innerBtTracker s
  else ∃ ibt, Static_InsertStacktrace xxh (m_innerBtTracker s) trace = Ret (info_traceId info', ibt)
         ∧ m_innerBtTracker s' = ibt.
Proof.
  unfold TrackRealloc. destruct ext; intros E.
  - apply bind_ret_inv in E as (s1 & E1 & E). apply queue_ensure in E1 as (_ & _ & E1).
    apply bind_ret_inv in E as (t & _ & E). apply bind_ret_inv in E as ([[[i tr] t'] bt] & _ & E).
    apply bind_ret_inv in E as (s2 & E2 & E). apply queue_store in E2 as (_ & _ & E2). simplify_eq. congruence.
  - apply bind_ret_inv in E as ([id ibt] & -> & E). exists ibt. set (s1 := with_inner _ _ _ _ _) in E.
    destruct (inner_first s1 th).
    + apply bind_ret_inv in E as (s2 & E2 & E). apply bind_ret_inv in E as (s3 & E3 & E). simplify_eq.
      by rewrite (first_ibt _ _ _ _ E2 E3).
    + simplify_eq. unfold PostponeAlloc, PostponeDealloc. by rewrite !Postpone_ibt.
Qed.

Lemma TrackDealloc_own s th info ext s' : TrackDealloc s th info ext = Ret s' → m_innerBtTracker s' = m_innerBtTracker s.
Proof.
  unfold TrackDealloc. destruct ext; intros E.
  - apply bind_ret_inv in E as (s1 & E1 & E). apply queue_ensure in E1 as (_ & _ & E1).
    apply bind_ret_inv in E as (t & _ & E). apply queue_store in E as (_ & _ & E2). congruence.
  - destruct (inner_first s th).
    + apply bind_ret_inv in E as (s2 & E2 & E). by rewrite (first_ibt _ _ _ _ E2 E).
    + simplify_eq. unfold PostponeDealloc. by rewrite Postpone_ibt.
Qed.

Lemma ThreadExit_own s th s' : ThreadExit s th = Ret s' → m_innerBtTracker s' = m_innerBtTracker s.
Proof.
  unfold ThreadExit, ReclaimTracker. destruct (gtl_trackerFinalizer _); [|by intros [= <-]].
  intros E. inv_ret. by simplify_eq.
Qed.

(** An insertion keeps what the reference keeps. *)
Lemma insert_kept ibt trace id ibt' kept : addresses trace → static_ok xxh ibt kept →
  Static_InsertStacktrace xxh ibt trace = Ret (id, ibt') →
  id = (store_insert kept (take 6 (GetTrace trace))).1
  ∧ static_ok xxh ibt' (store_all kept [take 6 (GetTrace trace)]).2.
Proof.
  intros Ha Hk E. destruct (static_insert_exact xxh ibt kept trace Hk Ha) as (t' & E' & Hk').
  change (static_canon (GetTrace trace)) with (take 6 (GetTrace trace)) in *. rewrite E in E'. injection E' as -> ->.
  split; [done|]. cbn [store_all]. by destruct (store_insert kept _).
Qed.

Lemma exec_kept s c s' new kept : call_ok c → static_ok xxh (m_innerBtTracker s) kept → exec s c = Ret (s', new) →
  static_ok xxh (m_innerBtTracker s') (store_all kept (own_trace c)).2.
Proof.
  intros Hc Hk E. destruct c as [th info tr ext|th info ext|th prev info tr ext|th|th|th| |]; cbn in E.
  - apply bind_ret_inv in E as ([[i t] s1] & E1 & E). simplify_eq. apply TrackAlloc_own in E1.
    destruct ext; [by rewrite E1|]. destruct E1 as (ibt & E1 & ->). by eapply insert_kept; [apply Hc|..].
  - apply bind_ret_inv in E as (s1 & E1 & E). simplify_eq. by rewrite (TrackDealloc_own _ _ _ _ _ E1).
  - apply bind_ret_inv in E as ([[i t] s1] & E1 & E). simplify_eq. apply TrackRealloc_own in E1.
    destruct ext; [by rewrite E1|]. destruct E1 as (ibt & E1 & ->). by eapply insert_kept; [apply Hc|..].
  - apply bind_ret_inv in E as (s1 & E1 & E). simplify_eq. by rewrite (ThreadExit_own _ _ _ E1).
  - by simplify_eq.
  - by simplify_eq.
  - by simplify_eq.
  - apply bind_ret_inv in E as (s1 & E1 & E). simplify_eq. apply worker_postponed in E1 as (_ & _ & E1). by rewrite E1.
Qed.

Lemma store_all_app a xs ys : (store_all a (xs ++ ys)).2 = (store_all (store_all a xs).2 ys).2.
Proof.
  revert a. induction xs as [|x xs IH]; intros a; [done|]. cbn [app store_all].
  destruct (store_insert a x) as [id a1]. specialize (IH a1).
  destruct (store_all a1 (xs ++ ys)) as [? ?], (store_all a1 xs) as [? ?]. exact IH.
Qed.

Lemma exec_all_kept cs : ∀ s s' es kept, Forall call_ok cs → static_ok xxh (m_innerBtTracker s) kept →
  exec_all s cs = Ret (s', es) → static_ok xxh (m_innerBtTracker s') (kept_after kept cs).
Proof.
  induction cs as [|c cs IH]; intros s s' es kept Hc Hk E; cbn [exec_all] in E; [by simplify_eq|].
  apply Forall_cons in Hc as [Hc Hcs]. apply bind_ret_inv in E as ([s1 e1] & E1 & E).
  apply bind_ret_inv in E as ([s2 e2] & E2 & E). simplify_eq.
  unfold kept_after. cbn [mbind list_bind]. rewrite store_all_app.
  by eapply IH; [|eapply exec_kept|].
Qed.
End runs.


(** ** Properties *)

(** No event is lost or counted twice, but for those the reference queue loses. *)
Lemma no_event_lost {I} `{!SequencedHash I CompressedStacktrace Z}
    `{!SequencedHashLaws I CompressedStacktrace Z} (avx : bool) (xxh : list Z → Z)
    (uninit : list Z) (cfg : MemHawkConfig) (cs : list call) :
  cfg_ok cfg → Forall call_ok cs → 1 + 64 * zlen cs < 2 ^ 31 →
  ∃ s es, exec_all (I := I) avx xxh uninit (start cfg) cs = Ret (s, es)
    ∧ let q := queue_run (cfg_MaxPostponed cfg) nobody_waits cs es in
      po_event <$> m_postponed s = q_waiting q
      ∧ ∀ id, summary_add (consumed_of id (snapshots s))
                (summary_add (held s id) (wrap (exact_sum (of_trace id (q_waiting q ++ q_lost q)))))
              = wrap (exact_sum (of_trace id es)).
Proof.
  intros Hcfg Hcs Hn.
  destruct (run_from_start (I := I) avx xxh uninit cfg cs 0 Hcfg Hcs) as (s & es & E & [_ _ [b Hb] [_ Hq]] & Hl).
  { unfold zlen in Hn. by rewrite Nat.add_0_r. }
  exists s, es. split; [done|]. cbv zeta. split; [done|]. intros id. rewrite <- Hq. by eapply books_sum.
Qed.

(** C25: thread trackers are exclusive: whatever threads register, exit and are reborn, no
    two threads share a thread tracker, a tracker is offered for reuse only after its
    thread has exited and at most once, and every tracker is in use or offered. *)
Theorem trackers_exclusive {I} `{!SequencedHash I CompressedStacktrace Z}
    `{!SequencedHashLaws I CompressedStacktrace Z} (avx : bool) (xxh : list Z → Z)
    (uninit : list Z) (cfg : MemHawkConfig) (cs : list call) :
  cfg_ok cfg → Forall call_ok cs → 1 + 64 * zlen cs < 2 ^ 31 →
  ∃ s es, exec_all (I := I) avx xxh uninit (start cfg) cs = Ret (s, es)
    ∧ (∀ th th' i, gtl_tracker (tls_of s th) = PThread i →
         gtl_tracker (tls_of s th') = PThread i → th = th')
    ∧ NoDup (m_finishedTrackers s)
    ∧ ∀ i, 0 ≤ i < zlen (m_thTrackers s) →
        (i ∈ m_finishedTrackers s ∧ ∀ th, gtl_tracker (tls_of s th) ≠ PThread i) ∨
        ((i ∉ m_finishedTrackers s) ∧ ∃ th, gtl_tracker (tls_of s th) = PThread i).
Proof.
  intros Hcfg Hcs Hn.
  destruct (run_from_start (I := I) avx xxh uninit cfg cs 0 Hcfg Hcs) as (s & es & E & [Ht _ _ _] & _).
  { unfold zlen in Hn. by rewrite Nat.add_0_r. }
  exists s, es. split; [done|]. destruct Ht as [_ _ H3 H4 H5 H6 _]. split; [apply H3|].
  split; [done|]. intros i Hi. destruct (decide (i ∈ m_finishedTrackers s)) as [Hin|Hin].
  - left. split; [done|]. by apply H5.
  - right. split; [done|]. by destruct (H6 i Hi).
Qed.

Lemma trackers_exclusive_witness :
  let cs := [CDealloc 0 (AllocInfo_ctor 1 16) true; CDealloc 1 (AllocInfo_ctor 1 16) true;
             CThreadExit 0; CDealloc 2 (AllocInfo_ctor 1 16) true] in
  ∃ s es, exec_all (I := list (CompressedStacktrace * Z)) true (fun _ => 0) []
      (start (mkMemHawkConfig true 512 256 8)) cs = Ret (s, es)
    ∧ (∀ th th' i, gtl_tracker (tls_of s th) = PThread i →
         gtl_tracker (tls_of s th') = PThread i → th = th').
Proof.
  intros cs.
  destruct (trackers_exclusive (I := list (CompressedStacktrace * Z)) true (fun _ => 0) []
              (mkMemHawkConfig true 512 256 8) cs) as (s & es & E & Hx & _).
  - ground.
  - repeat constructor.
  - ground.
  - exists s, es. split; [exact E|exact Hx].
Defined.

(** C6: the id stored in an allocation's header can be resolved for ever: whatever happened
    before an allocation and happens after it, the finder that the writers use returns for
    the id the allocation was given the collapsed trace without null frames when the
    allocation was external; for MemHawk's own allocations it returns the six innermost
    frames, provided that the static tracker had these frames already or room for them when the
    allocation came, and otherwise the id is [UnknownTraceId] and nothing is found.  What the
    static tracker has is determined by the own allocations and reallocations before.  The flag of an
    id says which tracker it belongs to, so that the ids of the two never collide.  Runs have fewer than
    2^25 calls, so that the 32-bit ids suffice. *)
Theorem trace_id_resolves {I} `{!SequencedHash I CompressedStacktrace Z}
    `{!SequencedHashLaws I CompressedStacktrace Z} (avx : bool) (xxh : list Z → Z)
    (uninit : list Z) (cfg : MemHawkConfig) (before after : list call)
    (th : nat) (info : AllocInfo) (trace : Stacktrace) (ext : bool) :
  cfg_ok cfg → Forall call_ok before → Forall call_ok after → st_ok trace → addresses trace →
  zlen uninit = MaxUnwindDepth → 1 + 64 * (zlen before + zlen after + 1) < 2 ^ 31 →
  ∃ s1 es1 info' trace' s2 s3 es3,
    exec_all (I := I) avx xxh uninit (start cfg) before = Ret (s1, es1)
    ∧ TrackAlloc avx xxh s1 th info trace ext = Ret (info', trace', s2)
    ∧ exec_all avx xxh uninit s2 after = Ret (s3, es3)
    ∧ IsFixedTrackerId (info_traceId info') = negb ext
    ∧ let found := InnerStacktraceFinder_GetStacktraceFromId uninit s3 (info_traceId info') in
      if ext
      then ∃ st, found = Ret (Some st) ∧ GetTrace st =
             filter (fun p => p ≠ 0) (collapse (GetTrace trace) (u32 (cfg_CollapseRecursionDepth cfg)))
      else
        let frames := take 6 (GetTrace trace) in
        let kept := kept_after [] before in
        if bool_decide (frames ∈ kept) || fits kept frames
        then ∃ st, found = Ret (Some st) ∧ GetTrace st = frames
        else info_traceId info' = UnknownTraceId ∧ found = Ret None.
Proof.
  intros Hcfg Hb Ha Hst Had Hu Hn. unfold zlen in Hn.
  destruct (run_from_start (I := I) avx xxh uninit cfg before (S (length after)) Hcfg Hb)
    as (s1 & es1 & E1 & Hi1 & Hl1); [lia|].
  destruct (TrackAlloc_spec avx xxh (length after) s1 _ es1 th info trace ext Hi1 Hst Had)
    as (info' & trace' & s2 & E2 & Hi2 & Hl2 & Hm).
  destruct (exec_all_spec avx xxh uninit after 0 s2 _ _ ltac:(rewrite Nat.add_0_r; exact Hi2) Ha)
    as (s3 & es3 & E3 & Hi3 & Hl3).
  exists s1, es1, info', trace', s2, s3, es3. split; [done|]. split; [done|]. split; [done|].
  pose proof (id_means_range xxh _ _ _ _ _ _ _ Hi2 Hm) as Hr.
  split.
  { rewrite IsFixedTrackerId_spec by (unfold is_u32; destruct ext; lia).
    destruct ext; cbn [negb]; [apply Z.leb_gt|apply Z.leb_le]; lia. }
  apply (id_means_later xxh s2 s3) in Hm; [|done].
  pose proof (finder_spec xxh uninit 0 s3 _ _ _ _ ext Hi3 Hu Hm) as Hf.
  rewrite (lt_cfg _ _ _ Hl3), (lt_cfg _ _ _ Hl2), (lt_cfg _ _ _ Hl1) in Hf.
  destruct ext; [exact Hf|]. cbv zeta.
  pose proof (exec_all_kept avx xxh uninit before (start cfg) s1 es1 [] Hb (static_init xxh) E1) as Hk.
  apply TrackAlloc_own in E2 as (ibt & E2 & _).
  destruct (insert_kept xxh _ _ _ _ _ Had Hk E2) as [Eid Hk2].
  destruct (store_insert_cases (kept_after [] before) (take 6 (GetTrace trace))) as [_ Hcase]. rewrite <- Eid in Hcase.
  destruct Hcase as [[(k & Hlk & Ek) Hroom]|(Eu & Hnin & Hfull)].
  - assert (info_traceId info' ≠ UnknownTraceId) as Hne.
    { cbn [store_all] in Hk2. destruct (store_insert _ _) as [id kept2] eqn:Es. cbn [snd fst] in *.
      pose proof (sk_bound _ _ _ Hk2). apply lookup_lt_Some in Hlk. unfold zlen, ElementsCount in *.
      assert (UnknownTraceId = 2 ^ 31 + 513) by reflexivity. lia. }
    assert (bool_decide (take 6 (GetTrace trace) ∈ kept_after [] before) || fits (kept_after [] before) (take 6 (GetTrace trace)) = true) as ->.
    { destruct Hroom as [Hin| ->]; [by rewrite bool_decide_true|apply orb_true_r]. }
    destruct Hf as [?|[? _]]; done.
  - rewrite bool_decide_false, Hfull by done. cbn [orb]. split; [done|].
    rewrite Eu. by apply (finder_unknown xxh uninit 0 s3 _ _ Hi3).
Qed.

Lemma trace_id_resolves_witness :
  let st l := mkStacktrace (zlen l) 0 (l ++ replicate (64 - length l) 7) in
  ∃ s1 es1 info' trace' s2 s3 es3,
    exec_all (I := list (CompressedStacktrace * Z)) true (fun _ => 0) (replicate 64 0)
      (start (mkMemHawkConfig true 512 256 8))
      [CAlloc 0 (AllocInfo_ctor 8 16) (st [4; 5]) true] = Ret (s1, es1)
    ∧ TrackAlloc true (fun _ => 0) s1 0 (AllocInfo_ctor 8 16) (st [1; 2; 1; 2; 0; 3]) true
      = Ret (info', trace', s2)
    ∧ exec_all true (fun _ => 0) (replicate 64 0) s2 [CWorker] = Ret (s3, es3)
    ∧ ∃ st, InnerStacktraceFinder_GetStacktraceFromId (replicate 64 0) s3 (info_traceId info')
              = Ret (Some st) ∧ GetTrace st = [1; 2; 3].
Proof.
  intros st.
  destruct (trace_id_resolves (I := list (CompressedStacktrace * Z)) true (fun _ => 0) (replicate 64 0)
    (mkMemHawkConfig true 512 256 8) [CAlloc 0 (AllocInfo_ctor 8 16) (st [4; 5]) true] [CWorker]
    0 (AllocInfo_ctor 8 16) (st [1; 2; 1; 2; 0; 3]) true)
    as (s1 & es1 & info' & trace' & s2 & s3 & es3 & E1 & E2 & E3 & _ & st' & E4 & E5).
  - ground.
  - repeat constructor; try done; vm_compute; repeat constructor; congruence.
  - repeat constructor.
  - split; ground.
  - repeat constructor; done.
  - reflexivity.
  - ground.
  - exists s1, es1, info', trace', s2, s3, es3. split; [exact E1|]. split; [exact E2|].
    split; [exact E3|]. exists st'. split; [exact E4|]. rewrite E5. vm_compute. reflexivity.
Defined.
