(* ===== verification/Counters.v ===== *)
(** * The counters of the thread trackers over a run of the profiler

    Every thread tracker counts the allocations and deallocations it tracked and how often its
    cache was used and missed; the counters are never reset and are printed when the process
    ends ([Shutdown]).  Over any sequence of calls of the handlers: misses are uses, and the
    counters of all trackers add up to the calls, but for operations that wait in the queue or did
    not fit into it. *)

From Stdlib Require Import ZArith Lia.
From stdpp Require Import base numbers list gmap.
From S2P Require Import Prelude Algo AllocInfo Stacktrace LruCache IStacktraceTracker StacktraceTracker StaticTracker ThreadTracker MemHawk.

(** The allocations ([true]) or the deallocations of some events. *)
Definition is_kind (b : bool) (e : event) : bool := match e with EvAlloc _ => b | EvFree _ => negb b end.
Fixpoint count (b : bool) (es : list event) : Z :=
  match es with [] => 0 | e :: es => (if is_kind b e then 1 else 0) + count b es end.

Lemma count_app b es fs : count b (es ++ fs) = count b es + count b fs.
Proof. induction es as [|e es IH]; [done|]. cbn. rewrite IH. lia. Qed.

Lemma count_bound b es : 0 ≤ count b es ≤ zlen es.
Proof. induction es as [|e es IH]; [done|]. rewrite zlen_cons. cbn [count]. destruct (is_kind b e); lia. Qed.

Lemma count_both es : count true es + count false es = zlen es.
Proof. induction es as [|e es IH]; [done|]. rewrite zlen_cons. cbn [count]. destruct e; cbn [is_kind negb]; lia. Qed.

Section Counters.
Context {I : Type} `{!SequencedHash I CompressedStacktrace Z} `{!SequencedHashLaws I CompressedStacktrace Z}.
Context (avx : bool) (xxh : list Z → Z) (uninit : list Z).
Local Abbreviation tracker := (ThreadTracker I).
Local Abbreviation state := (MemHawk I Recorder).
Implicit Types (t : tracker) (s : state) (ts : list tracker).

Definition counter (b : bool) t : Z := if b then tt_totalAllocs t else tt_totalDeallocs t.

(** No more than [k] traces were looked up. *)
Record counted (k : Z) t : Prop := {
  cn_cache : 0 ≤ tt_cacheMisses t ≤ tt_cacheUsages t;
  cn_usages : tt_cacheUsages t ≤ k;
  cn_id : is_u32 (tt_trackerId t);
  cn_counter b : is_u64 (counter b t);
}.

Lemma counted_ctor k id cap depth : 0 ≤ k → is_u32 id → counted k (ThreadTracker_ctor id cap depth).
Proof. intros Hk Hid. split; cbn; unfold is_u64; try lia; try done. by destruct b. Qed.

Lemma counted_mono k k' t : k ≤ k' → counted k t → counted k' t.
Proof. intros Hk [? ? ? ?]. split; try done. lia. Qed.

Lemma counted_track k t e : counted k t → counted k (track t e).
Proof. intros [? ? ? Hc]. destruct e; split; cbn; try done; intros [|]; cbn; first [apply u64_range|apply (Hc true)|apply (Hc false)]. Qed.

Lemma counted_tracks k es : ∀ t, counted k t → counted k (foldl track t es).
Proof. induction es as [|e es IH]; intros t Ht; [done|]. cbn. by apply IH, counted_track. Qed.

Lemma counter_tracks b es : ∀ t, is_u64 (counter b t) → counter b t + zlen es < 2 ^ 64 → counter b (foldl track t es) = counter b t + count b es.
Proof.
  induction es as [|e es IH]; intros t Ht Hb; [cbn; lia|]. rewrite zlen_cons in Hb. pose proof (zlen_nonneg es).
  assert (E : counter b (track t e) = counter b t + if is_kind b e then 1 else 0).
  { destruct b, e; cbn in *; unfold is_u64 in *; rewrite ?u64_small by (unfold is_u64; lia); lia. }
  cbn [foldl count]. rewrite IH, E; unfold is_u64 in *; destruct (is_kind b e); lia.
Qed.

(** [SaveTraceId] counts a use, and a miss with it. *)
Lemma save_counted k t bt info trace info' trace' t' bt' : counted k t → k + 1 < 2 ^ 64 →
  SaveTraceId (T := StacktraceTracker) avx xxh t bt info trace = Ret (info', trace', t', bt') →
  counted (k + 1) t' ∧ ∀ b, counter b t' = counter b t.
Proof.
  intros [H1 H2 H3 H4] Hk. unfold SaveTraceId. rewrite (u64_small (tt_cacheUsages t + 1)) by (unfold is_u64; lia).
  rewrite (u64_small (tt_cacheMisses t + 1)) by (unfold is_u64; lia). destruct (Touch _ _) as [[id|] lru]; intros E.
  - injection E as <- <- <- <-. split; [|done]. split; cbn; try done; lia.
  - inv_ret. destruct r0 as [id bt1]. inv_ret. destruct r0 as [ev lru']. inv_ret. split; [|done]. split; cbn; try done; lia.
Qed.

(** ** All trackers *)

Fixpoint total (b : bool) ts : Z := match ts with [] => 0 | t :: ts => counter b t + total b ts end.

#[export] Instance total_perm b : Proper ((≡ₚ) ==> (=)) (total b).
Proof. intros ts ts' H. induction H as [|t ts ts' _ IH|t u ts|ts1 ts2 ts3 _ IH1 _ IH2]; cbn; lia. Qed.

(** The trackers of [s], the queue and what did not fit into it account for the events [es]. *)
Record tally (k : Z) s (es : list event) : Prop := {
  ta_counted : Forall (counted k) (all_trackers s);
  ta_total : ∃ lost, (∀ b, total b (all_trackers s) + count b (po_event <$> m_postponed s) + count b lost = count b es)
    ∧ (lost ≠ [] → cfg_MaxPostponed (m_cfg s) < zlen es);
}.

(** One tracker is replaced. *)
Definition swap t t' s s' : Prop := ∃ rest, all_trackers s ≡ₚ t :: rest ∧ all_trackers s' ≡ₚ t' :: rest.

Lemma total_nonneg k b ts : Forall (counted k) ts → 0 ≤ total b ts.
Proof. induction 1 as [|t ts [_ _ _ Hc] _ IH]; cbn; [done|]. specialize (Hc b). unfold is_u64 in Hc. lia. Qed.

(** A step on one tracker: perhaps a trace was looked up, then [done] were tracked; what is new are
    the events [news]. *)
Lemma tally_swap k k' t t1 s s' es news done :
  tally k s es → swap t (foldl track t1 done) s s' → m_cfg s' = m_cfg s →
  k ≤ k' → counted k' t1 → (∀ b, counter b t1 = counter b t) → zlen es + zlen done < 2 ^ 64 →
  (∀ b, count b (po_event <$> m_postponed s') + count b done = count b (po_event <$> m_postponed s) + count b news) →
  tally k' s' (es ++ news).
Proof.
  intros [Hc (lost & Ht & Hl)] (rest & P1 & P2) Hcfg Hk Ht1 Hcnt Hb Hq. rewrite P1 in Hc. apply Forall_cons in Hc as [Hct Hrest]. split.
  - rewrite P2. constructor; [by apply counted_tracks|]. eapply Forall_impl; [exact Hrest|]. intros u. by apply counted_mono.
  - exists lost. rewrite Hcfg. split.
    + intros b. specialize (Ht b). specialize (Hq b). rewrite P1 in Ht. rewrite P2. cbn [total] in *. pose proof (total_nonneg k b rest Hrest). pose proof (count_bound b es). pose proof (count_bound b lost).
      pose proof (count_bound b (po_event <$> m_postponed s)).
      rewrite counter_tracks, Hcnt, count_app; rewrite ?Hcnt; [lia|apply Hct|lia].
    + intros Hne%Hl. rewrite zlen_app. pose proof (zlen_nonneg news). lia.
Qed.

Lemma tally_mono k k' s es : k ≤ k' → tally k s es → tally k' s es.
Proof. intros Hk [Hc Ht]. split; [|done]. eapply Forall_impl; [exact Hc|]. intros t. by apply counted_mono. Qed.

(** Steps that leave the trackers alone, but for new ones. *)
Lemma tally_same k s s' es ts : tally k s es → 0 ≤ k → all_trackers s' ≡ₚ all_trackers s ++ ts →
  Forall (fun t => ∃ id cap depth, is_u32 id ∧ t = ThreadTracker_ctor id cap depth) ts →
  m_postponed s' = m_postponed s → m_cfg s' = m_cfg s → tally k s' es.
Proof.
  intros [Hc (lost & Ht & Hl)] Hk Hp Hts Hq Hcfg. split.
  - rewrite Hp. apply Forall_app. split; [done|]. eapply Forall_impl; [exact Hts|]. intros t (id & cap & depth & Hid & ->). by apply counted_ctor.
  - exists lost. rewrite Hq, Hcfg. split; [|done]. intros b. rewrite <- Ht, Hp. do 2 f_equal.
    clear -Hts. induction (all_trackers s) as [|t l IH]; cbn; [|by rewrite IH].
    induction Hts as [|t ts (id & cap & depth & _ & ->) _ IH]; [done|]. cbn. rewrite IH. by destruct b.
Qed.

(** ** The handlers *)

Lemma perm_insert ts i t t' : ts !! i = Some t → ∃ rest, ts ≡ₚ t :: rest ∧ <[i := t']> ts ≡ₚ t' :: rest.
Proof.
  intros Hi. exists (take i ts ++ drop (S i) ts). apply lookup_lt_Some in Hi as Hl. split.
  - rewrite <- (take_drop_middle ts i t Hi) at 1. symmetry. apply Permutation_middle.
  - rewrite insert_take_drop by done. symmetry. apply Permutation_middle.
Qed.

Lemma store_swap s th t t' bt s' : current_tracker s th = Ret t → store_tracker s th t' bt = Ret s' →
  swap t t' s s' ∧ m_postponed s' = m_postponed s ∧ m_cfg s' = m_cfg s.
Proof.
  unfold current_tracker, store_tracker, swap, all_trackers. destruct (gtl_tracker (tls_of s th)) as [|i|]; [done| |]; intros E1 E2.
  - apply rd_inv in E1 as [Hi Hl]. inv_ret. apply wr_inv in Hr as [_ ->]. split; [|done]. cbn. unfold put.
    destruct (perm_insert _ _ _ t' Hl) as (rest & P1 & P2).
    exists (rest ++ option_list (m_innerTracker s) ++ option_list (m_exitingThreadsTracker s)).
    split; [by rewrite P1|by rewrite P2].
  - unfold the in E1. destruct (m_exitingThreadsTracker s); [|done]. inv_ret. split; [|done]. cbn.
    exists (m_thTrackers s ++ option_list (m_innerTracker s)). split; rewrite !app_assoc; by rewrite Permutation_app_comm.
Qed.

Lemma inner_swap s t t' mx po ibt : m_innerTracker s = Some t → swap t t' s (with_inner s mx po (Some t') ibt).
Proof.
  intros Hi. unfold swap, all_trackers. rewrite Hi. cbn. exists (m_thTrackers s ++ option_list (m_exitingThreadsTracker s)).
  split; by rewrite Permutation_middle.
Qed.

Lemma ensure_registered_tally k s th s' es : tally k s es → 0 ≤ k → ensure_registered s th = Ret s' → tally k s' es.
Proof.
  intros H Hk. unfold ensure_registered. case_bool_decide as Hn; [|by intros [= <-]]. unfold RegisterThread. rewrite Hn.
  destruct (last (m_finishedTrackers s)); intros E; inv_ret.
  - eapply (tally_same k s _ es []); [done|done|by rewrite app_nil_r|constructor|done|done].
  - eapply (tally_same k s _ es [_]); [done|done| |apply Forall_singleton; eexists _, _, _; split; [|done]; apply u32_range|done|done].
    unfold all_trackers. cbn. rewrite <- !app_assoc. apply Permutation_app_head. cbn [app].
    rewrite (app_assoc (option_list (m_innerTracker s))). apply Permutation_cons_append.
Qed.

(** Tracking with the tracker of a thread, after a trace was looked up or not. *)
Lemma tracked_tally k k' s th t t1 bt s' es news : tally k s es → current_tracker s th = Ret t → (∀ b, counter b t1 = counter b t) →
  k ≤ k' → (counted k t → counted k' t1) → zlen es + zlen news < 2 ^ 64 →
  store_tracker s th (foldl track t1 news) bt = Ret s' → tally k' s' (es ++ news).
Proof.
  intros H Ec Hcnt Hk Hct Hb Es. destruct (store_swap s th t _ bt s' Ec Es) as (Hsw & Hpo & Hcfg).
  eapply (tally_swap k k' t t1 s s' es news news); try done; [|by rewrite Hpo].
  apply Hct. destruct H as [Hc _]. destruct Hsw as (rest & P & _). rewrite P in Hc. by apply Forall_cons in Hc as [? _].
Qed.

Lemma counted_current k s th t es : tally k s es → current_tracker s th = Ret t → counted k t.
Proof.
  intros [Hc _]. unfold current_tracker, all_trackers in *. rewrite !Forall_app in Hc. destruct Hc as (H1 & _ & H3).
  destruct (gtl_tracker (tls_of s th)); [done| |].
  - intros [_ Hl]%rd_inv. rewrite Forall_lookup in H1. by eapply H1.
  - unfold the. destruct (m_exitingThreadsTracker s); [|done]. intros [= ->]. by apply Forall_cons in H3 as [? _].
Qed.

Lemma counted_inner k s t es : tally k s es → m_innerTracker s = Some t → counted k t.
Proof. intros [Hc _] Hi. unfold all_trackers in Hc. rewrite Hi, !Forall_app in Hc. destruct Hc as (_ & H2 & _). by apply Forall_cons in H2 as [? _]. Qed.

Lemma ProcessPostponed_tracks po : ∀ t, ProcessPostponed_loop po t = foldl track t (po_event <$> po).
Proof. induction po as [|p po IH]; intros t; [done|]. cbn. rewrite IH. unfold po_event. by destruct (po_op p). Qed.

Lemma ProcessPostponed_tally k s s' es : tally k s es → zlen es + zlen (m_postponed s) < 2 ^ 64 → ProcessPostponed s = Ret s' →
  tally k s' es ∧ m_postponed s' = [].
Proof.
  intros H Hb. unfold ProcessPostponed. destruct (m_postponed s) as [|p po] eqn:Ep; [by intros [= <-]|].
  unfold the. destruct (m_innerTracker s) as [t|] eqn:Et; [|done]. intros E. inv_ret. split; [|done]. rewrite <- (app_nil_r es).
  eapply (tally_swap k k r r s _ es [] (po_event <$> p :: po)); [done| |done|done|by eapply counted_inner|done| |].
  - rewrite <- (ProcessPostponed_tracks (p :: po) r). by apply inner_swap.
  - unfold zlen in *. rewrite length_fmap. cbn in *. lia.
  - intros b. rewrite Ep. cbn. lia.
Qed.

(** A queue has no more operations than were called. *)
Lemma tally_queue k s es : tally k s es → zlen (m_postponed s) ≤ zlen es.
Proof.
  intros [Hc (lost & Ht & _)]. pose proof (Ht true) as H1. pose proof (Ht false) as H2.
  pose proof (total_nonneg k true _ Hc). pose proof (total_nonneg k false _ Hc). pose proof (count_bound true lost). pose proof (count_bound false lost).
  rewrite <- (count_both es). assert (E : zlen (m_postponed s) = zlen (po_event <$> m_postponed s)) by (unfold zlen; by rewrite length_fmap).
  rewrite E, <- (count_both (po_event <$> m_postponed s)). lia.
Qed.

Lemma Postpone_tally k s es op i : tally k s es → tally k (Postpone op s i) (es ++ [match op with Alloc => EvAlloc i | Free => EvFree i end]).
Proof.
  intros H. pose proof (tally_queue k s es H) as Hq. destruct H as [Hc (lost & Ht & Hl)]. unfold Postpone.
  set (e := match op with Alloc => EvAlloc i | Free => EvFree i end).
  destruct (Z.leb_spec (cfg_MaxPostponed (m_cfg s)) (zlen (m_postponed s))).
  - split; [done|]. exists (lost ++ [e]). split; [|intros _; rewrite zlen_app; change (zlen [e]) with 1; lia].
    intros b. specialize (Ht b). rewrite !count_app. lia.
  - split; [done|]. exists lost. split; [|intros Hne%Hl; cbn [m_cfg with_inner]; rewrite zlen_app; change (zlen [e]) with 1; lia].
    intros b. specialize (Ht b). cbn. rewrite fmap_app, !count_app. change (po_event <$> [mkPostponed i op]) with [e].
    unfold all_trackers in *. cbn in *. lia.
Qed.

(** Tracking with the inner tracker. *)
Lemma inner_tally k s s' es news : tally k s es → zlen es + zlen news < 2 ^ 64 →
  with_inner_tracker s (fun t => foldl track t news) = Ret s' → tally k s' (es ++ news).
Proof.
  intros H Hb. unfold with_inner_tracker, the. destruct (m_innerTracker s) as [t|] eqn:Et; [|done]. intros E. inv_ret.
  eapply (tally_swap k k r r s _ es news news); [done|by apply inner_swap|done|done|by eapply counted_inner|done|done|done].
Qed.

Lemma set_ibt_tally k s es ibt : tally k s es → tally k (with_inner s (m_maxPostponedSize s) (m_postponed s) (m_innerTracker s) ibt) es.
Proof. intros [H1 H2]. by split. Qed.

(** The inner branch of a handler: the queue first, then [news]. *)
Lemma inner_branch k s s1 s' es news : tally k s es → 2 * zlen es + zlen news < 2 ^ 64 → ProcessPostponed s = Ret s1 →
  with_inner_tracker s1 (fun t => foldl track t news) = Ret s' → tally k s' (es ++ news).
Proof.
  intros H Hb E1 E2. pose proof (tally_queue k s es H). pose proof (zlen_nonneg news). pose proof (zlen_nonneg es).
  destruct (ProcessPostponed_tally k s s1 es H ltac:(lia) E1) as [Hp _]. by eapply inner_tally; [exact Hp|lia|].
Qed.

Lemma TrackAlloc_tally k s th i trace ext i' trace' s' es : tally k s es → 0 ≤ k → k + 1 < 2 ^ 64 → 2 * zlen es + 1 < 2 ^ 64 →
  TrackAlloc avx xxh s th i trace ext = Ret (i', trace', s') → tally (k + 1) s' (es ++ [EvAlloc i']).
Proof.
  intros H Hk Hk1 Hb. pose proof (zlen_nonneg es). unfold TrackAlloc. destruct ext; intros E.
  - inv_ret. apply (ensure_registered_tally k) with (es := es) in Hr; [|done|done]. destruct r1 as [[[i1 trace1] t1] bt]. inv_ret.
    destruct (save_counted k _ _ _ _ _ _ _ _ (counted_current k _ _ _ _ Hr Hr0) Hk1 Hr1) as [Hc1 Hcnt].
    eapply (tracked_tally k (k + 1) r th r0 t1 bt); [done|done|done|lia|done|change (zlen [_]) with 1; lia|done].
  - inv_ret. destruct r as [id ibt]. apply (set_ibt_tally k _ _ ibt) in H.
    destruct (inner_first _ _); inv_ret.
    + apply (tally_mono k); [lia|]. eapply (inner_branch k _ _ _ es [EvAlloc _]); [exact H|change (zlen [_]) with 1; lia|exact Hr0|exact Hr1].
    + apply (tally_mono k); [lia|]. by apply (Postpone_tally k _ es Alloc).
Qed.

Lemma TrackDealloc_tally k s th i ext s' es : tally k s es → 0 ≤ k → 2 * zlen es + 1 < 2 ^ 64 →
  TrackDealloc s th i ext = Ret s' → tally k s' (es ++ [EvFree i]).
Proof.
  intros H Hk Hb. pose proof (zlen_nonneg es). unfold TrackDealloc. destruct ext; intros E.
  - inv_ret. apply (ensure_registered_tally k) with (es := es) in Hr; [|done|done].
    eapply (tracked_tally k k r th r0 r0); [done|done|done|done|done|change (zlen [_]) with 1; lia|done].
  - destruct (inner_first _ _); inv_ret; [|by apply (Postpone_tally k _ es Free)].
    eapply (inner_branch k _ _ _ es [EvFree _]); [exact H|change (zlen [_]) with 1; lia|exact Hr|exact E].
Qed.

Lemma TrackRealloc_tally k s th prev i trace ext i' trace' s' es : tally k s es → 0 ≤ k → k + 1 < 2 ^ 64 → 2 * zlen es + 2 < 2 ^ 64 →
  TrackRealloc avx xxh s th prev i trace ext = Ret (i', trace', s') → tally (k + 1) s' (es ++ [EvFree prev; EvAlloc i']).
Proof.
  intros H Hk Hk1 Hb. pose proof (zlen_nonneg es). unfold TrackRealloc. destruct ext; intros E.
  - inv_ret. apply (ensure_registered_tally k) with (es := es) in Hr; [|done|done]. destruct r1 as [[[i1 trace1] t1] bt]. inv_ret.
    destruct (save_counted k _ _ _ _ _ _ _ _ (counted_current k _ _ _ _ Hr Hr0) Hk1 Hr1) as [Hc1 Hcnt].
    eapply (tracked_tally k (k + 1) r th r0 t1 bt _ es [EvFree prev; EvAlloc _]); [done|done|done|lia|done|change (zlen [_; _]) with 2; lia|done].
  - inv_ret. destruct r as [id ibt]. apply (set_ibt_tally k _ _ ibt) in H.
    destruct (inner_first _ _); inv_ret.
    + apply (tally_mono k); [lia|]. eapply (inner_branch k _ _ _ es [EvFree _; EvAlloc _]); [exact H|change (zlen [_; _]) with 2; lia|exact Hr0|exact Hr1].
    + apply (tally_mono k); [lia|]. change [EvFree prev; EvAlloc (set_traceId i id)] with ([EvFree prev] ++ [EvAlloc (set_traceId i id)]).
      rewrite app_assoc. by apply (Postpone_tally k _ _ Alloc), (Postpone_tally k _ _ Free).
Qed.

Lemma ThreadExit_tally k s th s' es : tally k s es → ThreadExit s th = Ret s' → tally k s' es.
Proof.
  intros [H1 H2]. unfold ThreadExit, ReclaimTracker. destruct (gtl_trackerFinalizer _); intros E; inv_ret; by split.
Qed.

(** The worker empties the trackers but leaves the counters. *)
Definition same_counts t t' : Prop :=
  tt_cacheMisses t' = tt_cacheMisses t ∧ tt_cacheUsages t' = tt_cacheUsages t ∧ tt_trackerId t' = tt_trackerId t ∧ ∀ b, counter b t' = counter b t.

Lemma account_counts s t t' s' : WorkerAccountThreadTracker s t = Ret (t', s') →
  same_counts t t' ∧ m_postponed s' = m_postponed s ∧ m_cfg s' = m_cfg s ∧ m_thTrackers s' = m_thTrackers s
  ∧ m_innerTracker s' = m_innerTracker s ∧ m_exitingThreadsTracker s' = m_exitingThreadsTracker s.
Proof.
  unfold WorkerAccountThreadTracker, ConsumeDiff. intros E. inv_ret. unfold the in Hr. destruct (m_workerStorage s); [|done]. inv_ret. unfold same_counts. by split_and!.
Qed.

Lemma update_loop_counts todo : ∀ s finished s', WorkerUpdateData_loop s todo finished = Ret s' →
  (∃ l, m_thTrackers s' = finished ++ l ∧ Forall2 same_counts todo l) ∧ m_postponed s' = m_postponed s ∧ m_cfg s' = m_cfg s
  ∧ m_innerTracker s' = m_innerTracker s ∧ m_exitingThreadsTracker s' = m_exitingThreadsTracker s.
Proof.
  induction todo as [|t todo IH]; intros s finished s' E; cbn [WorkerUpdateData_loop] in E.
  { inv_ret. split; [|done]. exists []. by rewrite app_nil_r. }
  inv_ret. destruct r as [t' s1]. apply account_counts in Hr as (Ht & E1 & E2 & _ & E3 & E4).
  destruct (IH s1 _ s' E) as ((l & El & Hl) & F1 & F2 & F3 & F4).
  split; [|by rewrite F1, F2, F3, F4]. exists (t' :: l). rewrite El, <- app_assoc. split; [done|]. by constructor.
Qed.

Lemma worker_counts s s' : WorkerIteration uninit s = Ret s' →
  Forall2 same_counts (all_trackers s) (all_trackers s') ∧ m_postponed s' = m_postponed s ∧ m_cfg s' = m_cfg s.
Proof.
  unfold WorkerIteration, WorkerUpdateData. intros (s4 & E & Ep)%bind_ret_inv. apply bind_ret_inv in E as (s1 & E1 & E).
  destruct (update_loop_counts _ _ _ _ E1) as ((l & El & Hl) & A1 & A2 & A3 & A4). cbn [app] in El.
  apply bind_ret_inv in E as (inn & Ei & E). rewrite A3 in Ei. apply bind_ret_inv in E as ([inn' s2] & E2 & E).
  apply account_counts in E2 as (Hinn & B1 & B2 & B3 & B4 & B5). apply bind_ret_inv in E as (ex & Ee & E). cbn in Ee. rewrite B5, A4 in Ee.
  apply bind_ret_inv in E as ([ex' s3] & E3 & E). apply account_counts in E3 as (Hex & C1 & C2 & C3 & C4 & _). cbn in C1, C2, C3, C4.
  assert (Hs4 : all_trackers s4 = m_thTrackers s3 ++ option_list (m_innerTracker s3) ++ [ex'] ∧ m_postponed s4 = m_postponed s3 ∧ m_cfg s4 = m_cfg s3).
  { cbn in E. destruct (m_modulesCacheInvalidated s3); inv_ret; by repeat split. }
  assert (Hs' : all_trackers s' = all_trackers s4 ∧ m_postponed s' = m_postponed s4 ∧ m_cfg s' = m_cfg s4).
  { unfold WorkerPrintData in Ep. by inv_ret. }
  destruct Hs' as (-> & D5 & D6), Hs4 as (-> & D2 & D3). split; [|by rewrite D5, D6, D2, D3, C1, C2, B1, B2].
  unfold the in Ei, Ee. unfold all_trackers. destruct (m_innerTracker s), (m_exitingThreadsTracker s); try done. inv_ret.
  rewrite C3, C4, B3. cbn. apply Forall2_app; [done|]. by repeat apply Forall2_cons_2.
Qed.

Lemma same_counts_counted k t t' : same_counts t t' → counted k t → counted k t'.
Proof. intros (E1 & E2 & E3 & E4) [H1 H2 H3 H4]. split; rewrite ?E1, ?E2, ?E3; try done. intros b. by rewrite E4. Qed.

Lemma worker_tally k s s' es : tally k s es → WorkerIteration uninit s = Ret s' → tally k s' es.
Proof.
  intros [Hc (lost & Ht & Hl)] E. apply worker_counts in E as (Hf & E1 & E2). split.
  - clear -Hf Hc. induction Hf as [|t t' ts ts' H _ IH]; [constructor|]. apply Forall_cons in Hc as [Hc Hcs].
    constructor; [by eapply same_counts_counted|auto].
  - exists lost. rewrite E1, E2. split; [|done]. intros b. rewrite <- (Ht b). do 2 f_equal. clear -Hf.
    induction Hf as [|t t' ts ts' (_ & _ & _ & H) _ IH]; [done|]. cbn. by rewrite H, IH.
Qed.

(** ** Runs *)

Lemma exec_tally k s c s' es news : tally k s es → 0 ≤ k → k + 1 < 2 ^ 64 → 2 * zlen es + 2 < 2 ^ 64 →
  exec avx xxh uninit s c = Ret (s', news) → tally (k + 1) s' (es ++ news) ∧ zlen news ≤ 2.
Proof.
  intros H Hk Hk1 Hb. destruct c as [th i trace ext|th i ext|th prev i trace ext|th|th|th| |]; cbn [exec]; intros E.
  - inv_ret. destruct r as [[i' trace'] s1]. inv_ret. split; [|done]. eapply TrackAlloc_tally; [done|done|done|lia|done].
  - inv_ret. split; [|done]. apply (tally_mono k); [lia|]. eapply TrackDealloc_tally; [done|done|lia|done].
  - inv_ret. destruct r as [[i' trace'] s1]. inv_ret. split; [|done]. eapply TrackRealloc_tally; [done|done|done|lia|done].
  - inv_ret. split; [|done]. rewrite app_nil_r. apply (tally_mono k); [lia|]. by eapply ThreadExit_tally.
  - inv_ret. split; [|done]. rewrite app_nil_r. apply (tally_mono k); [lia|]. destruct H. by split.
  - inv_ret. split; [|done]. rewrite app_nil_r. apply (tally_mono k); [lia|]. destruct H. by split.
  - inv_ret. split; [|done]. rewrite app_nil_r. apply (tally_mono k); [lia|]. destruct H. by split.
  - inv_ret. split; [|done]. rewrite app_nil_r. apply (tally_mono k); [lia|]. by eapply worker_tally.
Qed.

Lemma run_tally cs : ∀ k s s' es news, tally k s es → 0 ≤ k → k + zlen cs < 2 ^ 62 → zlen es + 2 * zlen cs < 2 ^ 62 →
  exec_all avx xxh uninit s cs = Ret (s', news) → tally (k + zlen cs) s' (es ++ news).
Proof.
  induction cs as [|c cs IH]; intros k s s' es news H Hk Hk1 Hb E; cbn [exec_all] in E.
  { inv_ret. by rewrite app_nil_r, Z.add_0_r. }
  rewrite zlen_cons in *. pose proof (zlen_nonneg cs). pose proof (zlen_nonneg es). inv_ret. destruct r as [s1 n1]. inv_ret. destruct r as [s2 n2]. inv_ret.
  destruct (exec_tally k s c s1 es n1 H Hk ltac:(lia) ltac:(lia) Hr) as [Hn Hl].
  specialize (IH (k + 1) s1 s' (es ++ n1) n2 Hn). rewrite zlen_app, <- app_assoc in IH.
  replace (k + (zlen cs + 1)) with (k + 1 + zlen cs) by lia. apply IH; [lia|lia|lia|done].
Qed.

Lemma start_tally cfg : tally 0 (start cfg) [].
Proof.
  split; cbn.
  - repeat constructor; cbn; try done; try lia; by destruct b.
  - exists []. split; [|done]. by intros [|].
Qed.
End Counters.
