(* ===== verification/Construct.v ===== *)
(** * Construction of the profiler step by step ([MemHawk::PostponedConstruct])

    While [PostponedConstruct] runs the allocation functions already call the profiler: every
    allocation of the constructors arrives as one of MemHawk's own.  Here the assignments of
    [PostponedConstruct] are separate steps with such calls between them.  Until the
    inner tracker exists the guard [InnerAllocTag] is held, so that the calls are queued. *)

From Stdlib Require Import ZArith Lia.
From stdpp Require Import base numbers list gmap.
From S2P Require Import Prelude Algo AllocInfo Stacktrace LruCache IStacktraceTracker StacktraceTracker StaticTracker ThreadTracker MemHawk.

Section Construct.
Context {I : Type} `{!SequencedHash I CompressedStacktrace Z} `{!SequencedHashLaws I CompressedStacktrace Z}.
Context (avx : bool) (xxh : list Z → Z) (uninit : list Z).
Local Abbreviation state := (MemHawk I Recorder).
Implicit Types (s : state) (th : nat) (cs : list call).

Local Abbreviation exec := (exec avx xxh uninit).
Local Abbreviation exec_all := (exec_all avx xxh uninit).

(** *** The assignments *)

Definition new_tracker s (id : Z) : ThreadTracker I :=
  ThreadTracker_ctor id (u32 (cfg_LruStackSize (m_cfg s))) (u32 (cfg_CollapseRecursionDepth (m_cfg s))).

Definition construct_inner s : state :=
  with_inner s (m_maxPostponedSize s) (m_postponed s) (Some (new_tracker s InnerTrackerId)) (m_innerBtTracker s).
Definition construct_tree s : state :=
  with_trackers s (m_thTrackers s) (m_finishedTrackers s) (m_exitingThreadsTracker s) (PostponedConstruct (m_btTracker s)).
Definition construct_exiting s : state :=
  with_trackers s (m_thTrackers s) (m_finishedTrackers s) (Some (new_tracker s ExitingThreadsTrackerId)) (m_btTracker s).
Definition construct_worker (writer : Recorder) s : state :=
  if cfg_TrackingWorker (m_cfg s)
  then with_worker s (m_modulesCacheInvalidated s) (Some (mkWorkerStorage writer ∅ AllocSummary_zero)) else s.

(** The calls of one constructor, before what it makes is assigned. *)
Record own_calls := mkOwn { oc_inner : list call; oc_tree : list call; oc_exiting : list call; oc_worker : list call; oc_thread : list call }.

Definition PostponedConstruct_run th (o : own_calls) s : outcome (state * list event) :=
  let s := set_level s th (fun l => l + 1) in
  '(s, e0) ← exec_all s (oc_inner o);
  let s := set_level (construct_inner s) th (fun l => l - 1) in
  '(s, e1) ← exec_all s (oc_tree o);
  '(s, e2) ← exec_all (construct_tree s) (oc_exiting o);
  '(s, e3) ← exec_all (construct_exiting s) (oc_worker o);
  '(s, e4) ← exec_all (construct_worker [] s) (oc_thread o);
  Ret (s, e0 ++ e1 ++ e2 ++ e3 ++ e4).

(** The same calls after the construction in one step. *)
Definition calls_of th (o : own_calls) : list call :=
  [CEnterInner th] ++ oc_inner o ++ [CLeaveInner th] ++ oc_tree o ++ oc_exiting o ++ oc_worker o ++ oc_thread o.

(** MemHawk's own allocations by the constructing thread. *)
Definition own_call th (c : call) : Prop :=
  match c with
  | CAlloc th' _ _ ext | CDealloc th' _ ext | CRealloc th' _ _ _ ext => th' = th ∧ ext = false
  | _ => False
  end.

Definition own_ok th (o : own_calls) : Prop :=
  Forall (own_call th) (oc_inner o) ∧ Forall (own_call th) (oc_tree o) ∧ Forall (own_call th) (oc_exiting o)
  ∧ Forall (own_call th) (oc_worker o) ∧ Forall (own_call th) (oc_thread o).

(** *** Own calls commute with the assignments *)

Definition lift (f : state → state) (r : outcome (state * list event)) : outcome (state * list event) :=
  '(s, es) ← r; Ret (f s, es).

Lemma exec_all_app cs cs' : ∀ s, exec_all s (cs ++ cs') = ('(s, es) ← exec_all s cs; '(s, es') ← exec_all s cs'; Ret (s, es ++ es')).
Proof.
  induction cs as [|c cs IH]; intros s; cbn [MemHawk.exec_all app].
  { step_ret. by destruct (exec_all s cs') as [[]| |]. }
  destruct (exec s c) as [[s1 e]| |]; [|reflexivity..]. repeat step_ret. rewrite IH. destruct (exec_all s1 cs) as [[s2 e2]| |]; [|reflexivity..].
  repeat step_ret. destruct (exec_all s2 cs') as [[s3 e3]| |]; [|reflexivity..]. repeat step_ret. by rewrite app_assoc.
Qed.

(** An assignment of something own calls neither see nor change. *)
Record blind (f : state → state) : Prop := {
  bl_with s mx po inn ibt : f (with_inner s mx po inn ibt) = with_inner (f s) mx po inn ibt;
  bl_cfg s : m_cfg (f s) = m_cfg s;
  bl_mx s : m_maxPostponedSize (f s) = m_maxPostponedSize s;
  bl_po s : m_postponed (f s) = m_postponed s;
  bl_inn s : m_innerTracker (f s) = m_innerTracker s;
  bl_ibt s : m_innerBtTracker (f s) = m_innerBtTracker s;
  bl_tls s : tls (f s) = tls s;
}.

Lemma blind_tree : blind construct_tree.
Proof. by split. Qed.
Lemma blind_exiting : blind construct_exiting.
Proof. by split. Qed.
Lemma blind_worker w : blind (construct_worker w).
Proof. split; intros; unfold construct_worker; cbn [m_cfg with_inner]; by destruct (cfg_TrackingWorker (m_cfg s)). Qed.

Section blind.
Context (f : state → state) (Hf : blind f).

Lemma blind_first s th : inner_first (f s) th = inner_first s th.
Proof. unfold inner_first, tls_of. by rewrite (bl_tls f Hf). Qed.

Lemma blind_process s : ProcessPostponed (f s) = (s ← ProcessPostponed s; Ret (f s)).
Proof.
  unfold ProcessPostponed. rewrite (bl_po f Hf), (bl_inn f Hf), (bl_mx f Hf), (bl_ibt f Hf).
  destruct (m_postponed s); [by step_ret|]. destruct (m_innerTracker s); [|reflexivity]. cbn [the]. repeat step_ret. by rewrite (bl_with f Hf).
Qed.

Lemma blind_inner s g : with_inner_tracker (f s) g = (s ← with_inner_tracker s g; Ret (f s)).
Proof.
  unfold with_inner_tracker. rewrite (bl_po f Hf), (bl_inn f Hf), (bl_mx f Hf), (bl_ibt f Hf).
  destruct (m_innerTracker s); [|reflexivity]. cbn [the]. repeat step_ret. by rewrite (bl_with f Hf).
Qed.

Lemma blind_postpone op s info : Postpone op (f s) info = f (Postpone op s info).
Proof.
  unfold Postpone. rewrite (bl_cfg f Hf), (bl_po f Hf), (bl_inn f Hf), (bl_mx f Hf), (bl_ibt f Hf).
  destruct (_ <=? _); [done|]. by rewrite (bl_with f Hf).
Qed.

(** The branches of a handler for MemHawk's own operations. *)
Ltac blind_branches s th :=
  rewrite blind_first; destruct (inner_first s th);
  [rewrite blind_process; destruct (ProcessPostponed s) as [?s| |]; [|reflexivity..]; repeat step_ret;
   rewrite blind_inner; match goal with |- context [with_inner_tracker ?s ?g] => destruct (with_inner_tracker s g) as [?s| |] end;
   [|reflexivity..]; repeat step_ret; reflexivity
  |repeat step_ret; unfold PostponeAlloc, PostponeDealloc; rewrite ?blind_postpone; reflexivity].

Lemma blind_call th c s : own_call th c → exec (f s) c = lift f (exec s c).
Proof.
  intros Hc. destruct c as [th' info trace ext|th' info ext|th' prev info trace ext|?|?|?| |]; try done; destruct Hc as [-> ->];
    unfold lift, MemHawk.exec, TrackAlloc, TrackDealloc, TrackRealloc; [|blind_branches s th|];
    rewrite (bl_ibt f Hf), (bl_mx f Hf), (bl_po f Hf), (bl_inn f Hf);
    (destruct (Static_InsertStacktrace xxh (m_innerBtTracker s) trace) as [[id ibt]| |]; [|reflexivity..]); repeat step_ret;
    rewrite <- (bl_with f Hf); set (s1 := with_inner s _ _ _ ibt); blind_branches s1 th.
Qed.

Lemma blind_calls th cs : Forall (own_call th) cs → ∀ s, exec_all (f s) cs = lift f (exec_all s cs).
Proof.
  unfold lift. induction 1 as [|c cs Hc _ IH]; intros s; cbn [MemHawk.exec_all]; [done|].
  rewrite (blind_call th c s Hc). unfold lift. destruct (exec s c) as [[s1 e]| |]; [|reflexivity..]. repeat step_ret.
  rewrite IH. destruct (exec_all s1 cs) as [[s2 e2]| |]; [|reflexivity..]. repeat step_ret. reflexivity.
Qed.
End blind.

(** *** Before the inner tracker exists *)

Lemma inner_postpone op s info : Postpone op (construct_inner s) info = construct_inner (Postpone op s info).
Proof. unfold Postpone. cbn [construct_inner with_inner m_cfg m_postponed]. by destruct (_ <=? _). Qed.

(** Own calls while the guard is held only reach the queue. *)
Lemma guarded_call th c s : own_call th c → inner_first s th = false →
  exec (construct_inner s) c = lift construct_inner (exec s c) ∧ ∀ s' es, exec s c = Ret (s', es) → inner_first s' th = false.
Proof.
  intros Hc Hg. destruct c as [th' info trace ext|th' info ext|th' prev info trace ext|?|?|?| |]; try done; destruct Hc as [-> ->];
    unfold lift, MemHawk.exec, TrackAlloc, TrackDealloc, TrackRealloc.
  2: { change (inner_first (construct_inner s) th) with (inner_first s th). rewrite Hg. repeat step_ret. unfold PostponeDealloc.
       rewrite inner_postpone. split; [done|]. intros s' es [= <- _]. by rewrite first_postponed. }
  all: change (m_innerBtTracker (construct_inner s)) with (m_innerBtTracker s);
    (destruct (Static_InsertStacktrace xxh (m_innerBtTracker s) trace) as [[id ibt]| |]; [|done..]); repeat step_ret;
    set (s1 := with_inner s _ _ _ ibt);
    change (with_inner (construct_inner s) _ _ _ ibt) with (construct_inner s1);
    change (inner_first (construct_inner s1) th) with (inner_first s th); change (inner_first s1 th) with (inner_first s th);
    rewrite Hg; repeat step_ret; unfold PostponeAlloc, PostponeDealloc; rewrite ?inner_postpone;
    (split; [done|]; intros s' es [= <- _]; rewrite ?first_postponed; exact Hg).
Qed.

Lemma guarded_calls th cs : Forall (own_call th) cs → ∀ s, inner_first s th = false →
  exec_all (construct_inner s) cs = lift construct_inner (exec_all s cs).
Proof.
  unfold lift. induction 1 as [|c cs Hc _ IH]; intros s Hg; cbn [MemHawk.exec_all]; [done|].
  destruct (guarded_call th c s Hc Hg) as [-> Hg']. unfold lift. destruct (exec s c) as [[s1 e]| |] eqn:E; [|reflexivity..].
  repeat step_ret. rewrite IH by (by eapply Hg'). destruct (exec_all s1 cs) as [[s2 e2]| |]; [|reflexivity..]. repeat step_ret. reflexivity.
Qed.

(** *** Construction in one step *)

Lemma one_step cfg w : MemHawk_PostponedConstruct w (MemHawk_ctor cfg)
  = construct_worker w (construct_exiting (construct_tree (construct_inner (MemHawk_ctor cfg)))).
Proof. unfold MemHawk_PostponedConstruct, construct_worker. cbn [m_cfg construct_exiting construct_tree construct_inner with_trackers with_inner MemHawk_ctor]. destruct (cfg_TrackingWorker cfg); reflexivity. Qed.

Lemma blind_compose f g : blind f → blind g → blind (fun s => g (f s)).
Proof.
  intros Hf Hg. split; intros; rewrite ?(bl_with f Hf), ?(bl_with g Hg), ?(bl_cfg g Hg), ?(bl_mx g Hg), ?(bl_po g Hg), ?(bl_inn g Hg),
    ?(bl_ibt g Hg), ?(bl_tls g Hg); [done|apply Hf..].
Qed.

Lemma level_tree s th g : set_level (construct_tree s) th g = construct_tree (set_level s th g).
Proof. done. Qed.
Lemma level_exiting s th g : set_level (construct_exiting s) th g = construct_exiting (set_level s th g).
Proof. done. Qed.
Lemma level_inner s th g : set_level (construct_inner s) th g = construct_inner (set_level s th g).
Proof. done. Qed.
Lemma level_worker w s th g : set_level (construct_worker w s) th g = construct_worker w (set_level s th g).
Proof. unfold construct_worker, set_level. cbn [m_cfg with_tls]. by destruct (cfg_TrackingWorker (m_cfg s)). Qed.

Lemma guard_held cfg th : inner_first (set_level (MemHawk_ctor cfg : state) th (fun l => l + 1)) th = false.
Proof. unfold inner_first, set_level, tls_of. cbn [with_tls tls MemHawk_ctor]. by rewrite lookup_insert_eq, lookup_empty. Qed.

(** The constructors' own calls may as well come after the construction. *)
Lemma construct_commutes cfg th (o : own_calls) : own_ok th o →
  PostponedConstruct_run th o (MemHawk_ctor cfg) = exec_all (start cfg) (calls_of th o).
Proof.
  intros (H0 & H1 & H2 & H3 & H4). unfold start, calls_of, PostponedConstruct_run. rewrite one_step. set (s0 := MemHawk_ctor cfg : state).
  pose proof (blind_compose _ _ blind_exiting (blind_worker [])) as B2. pose proof (blind_compose _ _ blind_tree B2) as B3. cbv beta in B2, B3.
  set (up := fun l => l + 1). set (down := fun l => l - 1).
  rewrite exec_all_app. change (exec_all ?s [CEnterInner th]) with (Ret (set_level s th up, @nil event)). step_ret.
  rewrite level_worker, level_exiting, level_tree, level_inner.
  rewrite exec_all_app, (blind_calls _ B3 th _ H0), (guarded_calls th _ H0) by apply guard_held. unfold lift.
  destruct (exec_all (set_level s0 th up) (oc_inner o)) as [[s1 e0]| |]; [|reflexivity..]. repeat step_ret.
  rewrite exec_all_app. change (exec_all ?s [CLeaveInner th]) with (Ret (set_level s th down, @nil event)). step_ret.
  rewrite level_worker, level_exiting, level_tree, (exec_all_app (oc_tree o)), (blind_calls _ B3 th _ H1). unfold lift.
  destruct (exec_all (set_level (construct_inner s1) th down) (oc_tree o)) as [[s2 e1]| |]; [|reflexivity..]. repeat step_ret.
  rewrite (exec_all_app (oc_exiting o)), (blind_calls _ B2 th _ H2). unfold lift.
  destruct (exec_all (construct_tree s2) (oc_exiting o)) as [[s3 e2]| |]; [|reflexivity..]. repeat step_ret.
  rewrite (exec_all_app (oc_worker o)), (blind_calls _ (blind_worker []) th _ H3). unfold lift.
  destruct (exec_all (construct_exiting s3) (oc_worker o)) as [[s4 e3]| |]; [|reflexivity..]. repeat step_ret.
  destruct (exec_all (construct_worker [] s4) (oc_thread o)) as [[s5 e4]| |]; [|reflexivity..]. repeat step_ret. done.
Qed.
End Construct.

(** ** Property *)

(** C4: no event is lost or counted twice, from the construction of the profiler on.  While
    [PostponedConstruct] runs, MemHawk's own allocations, deallocations and reallocations may
    arrive between any two of its assignments; afterwards any threads allocate, deallocate
    and reallocate, externally or for MemHawk at any level of nesting, exit, and the worker
    iterates.  In every such run no handler fails (no tracker is used before it exists), and for
    every trace the snapshots given to the writers, the balances still held by the trackers,
    the operations that wait in the queue and those that were lost add up, in 64-bit arithmetic,
    to the exact balance of all events.  Which operations wait and which are lost is said by the
    reference [queue_run], which sees the calls and their events only: an own operation of a thread
    that holds a guard waits until the next own operation of a thread that holds none, and is lost only
    when [max_postponed] events wait already.  The queue of the object holds those that wait.  Runs have
    fewer than 2^25 calls, so that the 32-bit ids suffice. *)
Theorem every_event_counted {I} `{!SequencedHash I CompressedStacktrace Z} `{!SequencedHashLaws I CompressedStacktrace Z}
    (avx : bool) (xxh : list Z → Z) (uninit : list Z) (cfg : MemHawkConfig) (th : nat) (o : own_calls) (cs : list call) :
  cfg_ok cfg → own_ok th o → Forall call_ok (calls_of th o ++ cs) → 1 + 64 * zlen (calls_of th o ++ cs) < 2 ^ 31 →
  ∃ s0 es0 s es,
    PostponedConstruct_run (I := I) avx xxh uninit th o (MemHawk_ctor cfg) = Ret (s0, es0)
    ∧ exec_all avx xxh uninit s0 cs = Ret (s, es)
    ∧ let q := queue_run (cfg_MaxPostponed cfg) nobody_waits (calls_of th o ++ cs) (es0 ++ es) in
      po_event <$> m_postponed s = q_waiting q
      ∧ ∀ id, summary_add (consumed_of id (snapshots s))
                (summary_add (held s id) (wrap (exact_sum (of_trace id (q_waiting q ++ q_lost q)))))
              = wrap (exact_sum (of_trace id (es0 ++ es))).
Proof.
  intros Hcfg Ho Hcs Hn. destruct (no_event_lost (I := I) avx xxh uninit cfg _ Hcfg Hcs Hn) as (s & es & E & Hsum).
  rewrite exec_all_app in E. rewrite (construct_commutes avx xxh uninit cfg th o Ho).
  apply bind_ret_inv in E as ([s0 es0] & E0 & E). apply bind_ret_inv in E as ([s1 es1] & E1 & E). injection E as <- <-.
  by exists s0, es0, s1, es1.
Qed.

(** The queue has room for one operation; of the two own ones at level 1 the second is lost, the first is
    tracked with the next one at level 0. *)
Lemma every_event_counted_witness :
  let st l := mkStacktrace (zlen l) 0 (l ++ replicate (64 - length l) 7) in
  let own n := CAlloc 3 (AllocInfo_ctor n 16) (st [9; n]) false in
  let o := mkOwn [own 8; own 9] [own 10] [own 11] [own 12; CDealloc 3 (AllocInfo_ctor 10 16) false] [own 13] in
  let cs := [CAlloc 0 (AllocInfo_ctor 100 16) (st [1; 2; 3]) true; CWorker; CThreadExit 0] in
  ∃ s0 es0 s es,
    PostponedConstruct_run (I := list (CompressedStacktrace * Z)) false (fun _ => 0) [] 3 o (MemHawk_ctor (mkMemHawkConfig true 1 256 8)) = Ret (s0, es0)
    ∧ exec_all false (fun _ => 0) [] s0 cs = Ret (s, es)
    ∧ m_postponed s = []
    ∧ q_lost (queue_run 1 nobody_waits (calls_of 3 o ++ cs) (es0 ++ es)) = [EvAlloc (mkAllocInfo 9 16 (2 ^ 31 + 1))]
    ∧ ∀ id, summary_add (consumed_of id (snapshots s))
              (summary_add (held s id) (wrap (exact_sum (of_trace id [EvAlloc (mkAllocInfo 9 16 (2 ^ 31 + 1))]))))
            = wrap (exact_sum (of_trace id (es0 ++ es))).
Proof.
  intros st own o cs.
  destruct (every_event_counted (I := list (CompressedStacktrace * Z)) false (fun _ => 0) [] (mkMemHawkConfig true 1 256 8) 3 o cs)
    as (s0 & es0 & s & es & E0 & E & Hw & Hsum).
  - ground.
  - unfold own_ok. cbn. split_and!; repeat constructor.
  - repeat constructor; try done; vm_compute; repeat constructor; congruence.
  - ground.
  - set (q := queue_run _ _ _ _) in *.
    assert (Hq : q_waiting q = [] ∧ q_lost q = [EvAlloc (mkAllocInfo 9 16 (2 ^ 31 + 1))]).
    { assert (Hr : match PostponedConstruct_run (I := list (CompressedStacktrace * Z)) false (fun _ => 0) [] 3 o (MemHawk_ctor (mkMemHawkConfig true 1 256 8)) with
        | Ret (s0, es0) => match exec_all false (fun _ => 0) [] s0 cs with
          | Ret (_, es) => let q := queue_run 1 nobody_waits (calls_of 3 o ++ cs) (es0 ++ es) in (q_waiting q, q_lost q) | _ => ([], []) end
        | _ => ([], []) end = ([], [EvAlloc (mkAllocInfo 9 16 (2 ^ 31 + 1))])) by (vm_compute; reflexivity).
      rewrite E0, E in Hr. cbv zeta in Hr. split; [exact (f_equal fst Hr)|exact (f_equal snd Hr)]. }
    destruct Hq as [Hq1 Hq2]. rewrite Hq1, Hq2 in Hsum. rewrite Hq1 in Hw. apply fmap_nil_inv in Hw.
    exists s0, es0, s, es. split; [exact E0|]. split; [exact E|]. split; [exact Hw|]. split; [exact Hq2|exact Hsum].
Defined.

(** The allocation functions are switched on before [PostponedConstruct] has run: an allocation of
    another thread that comes before the tree exists uses a null pointer. *)
Lemma external_too_early :
  let st := mkStacktrace 1 0 ([5] ++ replicate 63 0) in
  exec (I := list (CompressedStacktrace * Z)) false (fun _ => 0) []
    (construct_inner (MemHawk_ctor (mkMemHawkConfig true 512 256 8))) (CAlloc 1 (AllocInfo_ctor 8 16) st true) = Undef.
Proof. vm_compute. reflexivity. Qed.
