(* ===== verification/HawkMalloc.v ===== *)
(** * The allocation functions ([hawk_malloc.cpp])

    Every block is obtained from libc (or, before initialisation, from mmap) with room
    for an [AllocInfo] in front of the user's data; the header says how to get back to the
    start of the block.  libc and the kernel are the class [Libc], whose laws are their
    documented behaviour; the profiler is behind the class [Profiler].  Memory is a
    function from addresses to bytes for the user's data, and a map from addresses to
    headers; the live blocks are known to libc, and an access outside them is [Undef].

    [Undef] also stands for [abort()].  The constructor of the library is in
    [Startup], the exported operators of C++ in [Overrides], the symbols in [Symbols]. *)

From Stdlib Require Import ZArith Lia.
From stdpp Require Import base numbers list gmap.
From S2P Require Import Prelude Algo AllocInfo Stacktrace IStacktraceTracker.

(** ** The environment *)

Inductive origin := OLibc | OMmap.

#[export] Instance origin_eq_dec : EqDecision origin.
Proof. solve_decision. Defined.

(** Live blocks: start, where it comes from, length. *)
Abbreviation blocks := (gmap Z (origin * Z)).

Definition MAP_FAILED : Z := 2 ^ 64 - 1.
Definition MinUnwindDepth : Z := 3.

(** Null is 0.  The functions return a pointer and the new state; [posix_memalign] also its
    result code. *)
Class Libc (L : Type) := {
  live : L → blocks;
  libc_malloc : L → Z → Z * L;
  libc_calloc : L → Z → Z → Z * L;
  libc_aligned_alloc : L → Z → Z → Z * L;
  libc_posix_memalign : L → Z → Z → Z * Z * L;
  libc_realloc : L → Z → Z → Z * L;
  libc_free : L → Z → L;
  os_mmap : L → Z → Z * L;
  os_munmap : L → Z → Z → L;
  getpagesize : Z;
}.

(** A block that may be handed out: within the address space and apart from all others. *)
Definition fresh_block (bs : blocks) (p n : Z) : Prop :=
  0 < p ∧ p + n ≤ 2 ^ 64 ∧ bs !! p = None ∧
  ∀ q o m, bs !! q = Some (o, m) → p + n ≤ q ∨ q + m ≤ p.

(** The result of an allocation: failure, or a fresh block aligned to [al]. *)
Definition allocates (bs bs' : blocks) (al : Z) (o : origin) (n : Z) (fail p : Z) : Prop :=
  (p = fail ∧ bs' = bs) ∨
  (p ≠ fail ∧ fresh_block bs p n ∧ p mod al = 0 ∧ bs' = <[p := (o, n)]> bs).

Class LibcLaws (L : Type) `{Libc L} : Prop := {
  malloc_law l n : is_u64 n →
    let '(p, l') := libc_malloc l n in allocates (live l) (live l') 16 OLibc n 0 p;
  calloc_law l k n : is_u64 (k * n) →
    let '(p, l') := libc_calloc l k n in allocates (live l) (live l') 16 OLibc (k * n) 0 p;
  aligned_law l al n : 0 < al → is_u64 n →
    let '(p, l') := libc_aligned_alloc l al n in allocates (live l) (live l') al OLibc n 0 p;
  memalign_law l al n : 0 < al → is_u64 n →
    let '(res, p, l') := libc_posix_memalign l al n in
    (res ≠ 0 ∧ live l' = live l) ∨
    (res = 0 ∧ p ≠ 0 ∧ allocates (live l) (live l') al OLibc n 0 p);
  realloc_law l p m n : live l !! p = Some (OLibc, m) → is_u64 n → 0 < n →
    let '(q, l') := libc_realloc l p n in
    (q = 0 ∧ live l' = live l) ∨
    (q ≠ 0 ∧ allocates (delete p (live l)) (live l') 16 OLibc n 0 q);
  free_law l p m : live l !! p = Some (OLibc, m) → live (libc_free l p) = delete p (live l);
  mmap_law l n : is_u64 n →
    let '(p, l') := os_mmap l n in allocates (live l) (live l') 4096 OMmap n MAP_FAILED p;
  munmap_law l p n : live l !! p = Some (OMmap, n) → live (os_munmap l p n) = delete p (live l);
}.

(** The profiler as the allocation functions see it. *)
Class Profiler (M : Type) := {
  prof_TrackAlloc : M → nat → AllocInfo → Stacktrace → bool → outcome (AllocInfo * M);
  prof_TrackDealloc : M → nat → AllocInfo → bool → outcome M;
  prof_TrackRealloc : M → nat → AllocInfo → AllocInfo → Stacktrace → bool → outcome (AllocInfo * M);
  prof_InvalidateModulesCache : M → M;
  (** what happens in the profiler between the calls: its worker, threads that exit *)
  prof_action : Type;
  prof_act : M → prof_action → outcome M;
}.

(** [info'] is [info] with a trace id that does not mark a block of the time before
    initialisation. *)
Definition tagged (info info' : AllocInfo) : Prop :=
  info_size info' = info_size info ∧ info_offset info' = info_offset info ∧
  info_traceId info' ≠ InvalidTraceId.

Class ProfilerSpec (M : Type) `{Profiler M} := {
  (** [prof_inv n m es]: [es] has been tracked, [n] more calls are possible *)
  prof_inv : nat → M → list event → Prop;
  prof_le n m es : prof_inv (S n) m es → prof_inv n m es;
  prof_alloc n m es th info trace ext :
    prof_inv (S n) m es → st_ok trace → addresses trace →
    ∃ info' m', prof_TrackAlloc m th info trace ext = Ret (info', m')
      ∧ prof_inv n m' (es ++ [EvAlloc info']) ∧ tagged info info';
  prof_dealloc n m es th info ext :
    prof_inv (S n) m es → EvAlloc info ∈ es →
    ∃ m', prof_TrackDealloc m th info ext = Ret m' ∧ prof_inv n m' (es ++ [EvFree info]);
  prof_realloc n m es th prev info trace ext :
    prof_inv (S n) m es → EvAlloc prev ∈ es → st_ok trace → addresses trace →
    ∃ info' m', prof_TrackRealloc m th prev info trace ext = Ret (info', m')
      ∧ prof_inv n m' (es ++ [EvFree prev; EvAlloc info']) ∧ tagged info info';
  prof_invalidate n m es : prof_inv n m es → prof_inv n (prof_InvalidateModulesCache m) es;
  (** what an activity of the profiler needs to go well *)
  prof_can : M → prof_action → Prop;
  prof_act_spec n m es a : prof_inv n m es → prof_can m a → ∃ m', prof_act m a = Ret m' ∧ prof_inv n m' es;
}.

(** ** The functions *)

Section HawkMalloc.
Context {L M : Type} `{!Libc L} `{!Profiler M} `{!Unwinder}.
Context (self_profiling : bool) (uninit : list Z).

Record Hawk := mkHawk {
  hk_libc : L;
  hk_headers : gmap Z AllocInfo;
  hk_bytes : Z → Z;
  gl_initialised : bool;
  gl_dlInitialised : bool;
  gl_memhawkReady : bool;
  gl_memhawk : M;
  TrackDepth : Z;
  UseAbslStacktraces : bool;
  hk_guards : gmap nat GuardState;   (* RecursionGuard<AllocTag> of every thread *)
}.

Definition with_libc (s : Hawk) (l : L) : Hawk :=
  mkHawk l (hk_headers s) (hk_bytes s) (gl_initialised s) (gl_dlInitialised s) (gl_memhawkReady s)
    (gl_memhawk s) (TrackDepth s) (UseAbslStacktraces s) (hk_guards s).
Definition with_headers (s : Hawk) (h : gmap Z AllocInfo) : Hawk :=
  mkHawk (hk_libc s) h (hk_bytes s) (gl_initialised s) (gl_dlInitialised s) (gl_memhawkReady s)
    (gl_memhawk s) (TrackDepth s) (UseAbslStacktraces s) (hk_guards s).
Definition with_bytes (s : Hawk) (b : Z → Z) : Hawk :=
  mkHawk (hk_libc s) (hk_headers s) b (gl_initialised s) (gl_dlInitialised s) (gl_memhawkReady s)
    (gl_memhawk s) (TrackDepth s) (UseAbslStacktraces s) (hk_guards s).
Definition with_memhawk (s : Hawk) (m : M) : Hawk :=
  mkHawk (hk_libc s) (hk_headers s) (hk_bytes s) (gl_initialised s) (gl_dlInitialised s)
    (gl_memhawkReady s) m (TrackDepth s) (UseAbslStacktraces s) (hk_guards s).
Definition with_guard (s : Hawk) (th : nat) (g : GuardState) : Hawk :=
  mkHawk (hk_libc s) (hk_headers s) (hk_bytes s) (gl_initialised s) (gl_dlInitialised s)
    (gl_memhawkReady s) (gl_memhawk s) (TrackDepth s) (UseAbslStacktraces s) (<[th := g]> (hk_guards s)).

Definition guard_of (s : Hawk) (th : nat) : GuardState := default GuardState_init (hk_guards s !! th).

Definition GetMemHawk (s : Hawk) : option M := if gl_memhawkReady s then Some (gl_memhawk s) else None.
Definition CheckInitialized (s : Hawk) : bool := gl_initialised s.

(** [init_memhawk]; [profiler] is the new [MemHawk] when the program name matches, with
    the depth and the unwinder of the configuration. *)
Definition init_memhawk (s : Hawk) (profiler : option (M * Z * bool)) : Hawk :=
  match profiler with
  | Some (m, depth, absl) =>
    mkHawk (hk_libc s) (hk_headers s) (hk_bytes s) true true true m depth absl (hk_guards s)
  | None =>
    mkHawk (hk_libc s) (hk_headers s) (hk_bytes s) true true (gl_memhawkReady s) (gl_memhawk s)
      (TrackDepth s) (UseAbslStacktraces s) (hk_guards s)
  end.

(** [deinit_memhawk] up to [MemHawk::Stop]: nothing is tracked afterwards. *)
Definition deinit_memhawk (s : Hawk) : Hawk :=
  mkHawk (hk_libc s) (hk_headers s) (hk_bytes s) (gl_initialised s) (gl_dlInitialised s) false
    (gl_memhawk s) (TrackDepth s) (UseAbslStacktraces s) (hk_guards s).

Definition AdditionalSize : Z := 16.

(** Integer division by zero is undefined. *)
Definition align_ceil (value alignment : Z) : outcome Z :=
  if alignment =? 0 then Undef
  else Ret (u64 (u64 (value + alignment - 1) / alignment * alignment)).

(** *** Memory *)

(** Is [a, a + n) within a live block? *)
Definition within_block (bs : blocks) (a n : Z) : bool :=
  bool_decide (map_Exists (fun q b => q ≤ a ∧ a + n ≤ q + b.2) bs).

Definition write_header (s : Hawk) (a : Z) (info : AllocInfo) : outcome Hawk :=
  if within_block (live (hk_libc s)) a AdditionalSize
  then Ret (with_headers s (<[a := info]> (hk_headers s))) else Undef.

Definition read_header (s : Hawk) (a : Z) : outcome AllocInfo :=
  match hk_headers s !! a with
  | Some info => if within_block (live (hk_libc s)) a AdditionalSize then Ret info else Undef
  | None => Undef
  end.

Definition fill (b : Z → Z) (p n v : Z) : Z → Z :=
  fun a => if (p <=? a) && (a <? p + n) then v else b a.
Definition copy (b : Z → Z) (dst src n : Z) : Z → Z :=
  fun a => if (dst <=? a) && (a <? dst + n) then b (src + (a - dst)) else b a.

(** [memcpy] and [memset] must stay within blocks. *)
Definition memcpy (s : Hawk) (dst src n : Z) : outcome Hawk :=
  if within_block (live (hk_libc s)) dst n && within_block (live (hk_libc s)) src n
  then Ret (with_bytes s (copy (hk_bytes s) dst src n)) else Undef.

(** *** Calls into libc: freeing what is not a block is undefined *)

Definition call_free (s : Hawk) (p : Z) : outcome Hawk :=
  match live (hk_libc s) !! p with
  | Some (OLibc, _) => Ret (with_libc s (libc_free (hk_libc s) p))
  | _ => Undef
  end.

(** [munmap] of a whole mapping; unmapping anything else would destroy other data. *)
Definition call_munmap (s : Hawk) (p n : Z) : outcome Hawk :=
  match live (hk_libc s) !! p with
  | Some (OMmap, m) => if m =? n then Ret (with_libc s (os_munmap (hk_libc s) p n)) else Undef
  | _ => Undef
  end.

(** [realloc] moves the bytes that both blocks have. *)
Definition call_realloc (s : Hawk) (p n : Z) : outcome (Z * Hawk) :=
  match live (hk_libc s) !! p with
  | Some (OLibc, m) =>
    let '(q, l) := libc_realloc (hk_libc s) p n in
    if q =? 0 then Ret (q, with_libc s l)
    else Ret (q, with_bytes (with_libc s l) (copy (hk_bytes s) q p (Z.min m n)))
  | _ => Undef
  end.

(** *** Tracking *)

Definition TrackAllocation (s : Hawk) (th : nat) (userPtr userSize offset : Z) (trace : Stacktrace)
  : outcome Hawk :=
  let infoLocation := userPtr - AdditionalSize in
  s ← write_header s infoLocation (AllocInfo_ctor userSize offset);
  match GetMemHawk s with
  | Some memhawk =>
    '(info, m) ← prof_TrackAlloc memhawk th (AllocInfo_ctor userSize offset) trace
                   (IsExternal (guard_of s th));
    write_header (with_memhawk s m) infoLocation info
  | None => Ret s
  end.

Definition TrackReallocation (s : Hawk) (th : nat) (userPtr userSize offset : Z) (prev : AllocInfo)
    (trace : Stacktrace) : outcome Hawk :=
  let infoLocation := userPtr - AdditionalSize in
  s ← write_header s infoLocation (AllocInfo_ctor userSize offset);
  match GetMemHawk s with
  | Some memhawk =>
    '(info, m) ← prof_TrackRealloc memhawk th prev (AllocInfo_ctor userSize offset) trace
                   (IsExternal (guard_of s th));
    write_header (with_memhawk s m) infoLocation info
  | None => Ret s
  end.

(** Construction and destruction of a local [RecursiveStacktrace]. *)
Definition enter_stacktrace (s : Hawk) (th : nat) (depth : Z) : outcome (Stacktrace * Hawk) :=
  '(g, trace) ← RecursiveStacktrace_ctor self_profiling uninit (guard_of s th) depth
                  (UseAbslStacktraces s);
  Ret (trace, with_guard s th g).

Definition leave_stacktrace (s : Hawk) (th : nat) : outcome Hawk :=
  g ← RecursiveStacktrace_dtor self_profiling (guard_of s th); Ret (with_guard s th g).

(** *** Before initialisation *)

Definition mmap_malloc (s : Hawk) (size : Z) : outcome (Z * Hawk) :=
  let totalSize := u64 (size + AdditionalSize) in
  let '(ptr, l) := os_mmap (hk_libc s) totalSize in
  let s := with_libc s l in
  if ptr =? MAP_FAILED then Ret (0, s)
  else
    let s := with_bytes s (fill (hk_bytes s) ptr totalSize 0) in
    s ← write_header s ptr (mkAllocInfo size AdditionalSize InvalidTraceId);
    Ret (ptr + AdditionalSize, s).

Definition mmap_free (s : Hawk) (ptr : Z) (info : AllocInfo) : outcome Hawk :=
  call_munmap s ptr (u64 (info_size info + info_offset info)).

Definition mmap_realloc (s : Hawk) (ptr size : Z) : outcome (Z * Hawk) :=
  if ptr =? 0 then mmap_malloc s size
  else
    info ← read_header s (ptr - AdditionalSize);
    let origPtr := ptr - info_offset info in
    '(realloced, s) ← mmap_malloc s size;
    if realloced =? 0 then Ret (0, s)
    else
      s ← memcpy s realloced ptr (Z.min (info_size info) size);
      s ← mmap_free s origPtr info;
      Ret (realloced, s).

Definition mmap_alloc_aligned (s : Hawk) (size alignment : Z) : outcome (Z * Hawk) :=
  let totalSize := u64 (u64 (size + AdditionalSize) + alignment) in
  let '(ptr, l) := os_mmap (hk_libc s) totalSize in
  let s := with_libc s l in
  if ptr =? MAP_FAILED then Ret (0, s)
  else
    let s := with_bytes s (fill (hk_bytes s) ptr totalSize 0) in
    let shiftedPtr := ptr + AdditionalSize in
    alignedPtr ← align_ceil shiftedPtr alignment;
    let offset := u64 (alignedPtr - ptr) in
    s ← write_header s (alignedPtr - AdditionalSize)
          (mkAllocInfo (u64 (totalSize - offset)) (u32 offset) InvalidTraceId);
    Ret (alignedPtr, s).

(** *** Allocation *)

Definition hawk_malloc (s : Hawk) (th : nat) (size : Z) : outcome (Z * Hawk) :=
  if negb (CheckInitialized s) then mmap_malloc s size
  else
    let '(raw, l) := libc_malloc (hk_libc s) (u64 (size + AdditionalSize)) in
    let s := with_libc s l in
    if raw =? 0 then Ret (0, s)
    else
      let userPtr := raw + AdditionalSize in
      '(trace, s) ← enter_stacktrace s th (TrackDepth s);
      s ← TrackAllocation s th userPtr size AdditionalSize trace;
      s ← leave_stacktrace s th;
      Ret (userPtr, s).

Definition hawk_aligned_alloc (s : Hawk) (th : nat) (align size : Z) : outcome (Z * Hawk) :=
  if negb (CheckInitialized s) then mmap_alloc_aligned s size align
  else
    alignedSize ← align_ceil AdditionalSize align;
    let '(raw, l) := libc_aligned_alloc (hk_libc s) align (u64 (size + alignedSize)) in
    let s := with_libc s l in
    if raw =? 0 then Ret (0, s)
    else
      let userPtr := raw + alignedSize in
      '(trace, s) ← enter_stacktrace s th (TrackDepth s);
      s ← TrackAllocation s th userPtr size (u32 alignedSize) trace;
      s ← leave_stacktrace s th;
      Ret (userPtr, s).

(** Returns the result code and what is stored in [*memptr], if anything. *)
Definition hawk_posix_memalign (s : Hawk) (th : nat) (alignment size : Z)
  : outcome (Z * option Z * Hawk) :=
  if negb (CheckInitialized s) then
    '(p, s) ← mmap_alloc_aligned s size alignment; Ret (0, Some p, s)
  else
    alignedSize ← align_ceil AdditionalSize alignment;
    let '(res, p, l) := libc_posix_memalign (hk_libc s) alignment (u64 (size + alignedSize)) in
    let s := with_libc s l in
    if negb (res =? 0) then Ret (res, None, s)
    else
      let userPtr := p + alignedSize in
      '(trace, s) ← enter_stacktrace s th (TrackDepth s);
      s ← TrackAllocation s th userPtr size (u32 alignedSize) trace;
      s ← leave_stacktrace s th;
      Ret (res, Some userPtr, s).

Definition hawk_calloc (s : Hawk) (th : nat) (nm size : Z) : outcome (Z * Hawk) :=
  if 2 ^ 64 <=? nm * size then Ret (0, s)
  else if negb (CheckInitialized s) then mmap_malloc s (u64 (nm * size))
  else
    let bytes := u64 (u64 (nm * size) + AdditionalSize) in
    let '(raw, l) := libc_calloc (hk_libc s) 1 bytes in
    let s := with_libc s l in
    if raw =? 0 then Ret (0, s)
    else
      let s := with_bytes s (fill (hk_bytes s) raw bytes 0) in
      let userPtr := raw + AdditionalSize in
      '(trace, s) ← enter_stacktrace s th (TrackDepth s);
      s ← TrackAllocation s th userPtr (u64 (nm * size)) AdditionalSize trace;
      s ← leave_stacktrace s th;
      Ret (userPtr, s).

Definition hawk_realloc (s : Hawk) (th : nat) (ptr size : Z) : outcome (Z * Hawk) :=
  if negb (CheckInitialized s) then mmap_realloc s ptr size
  else if ptr =? 0 then hawk_malloc s th size
  else
    '(trace, s) ← enter_stacktrace s th (TrackDepth s);
    prev ← read_header s (ptr - AdditionalSize);
    let origPtr := ptr - info_offset prev in
    '(res, s) ←
      (if info_traceId prev =? InvalidTraceId then
         '(clearPtr, s) ← hawk_malloc s th size;
         if clearPtr =? 0 then Ret (0, s)
         else
           s ← memcpy s clearPtr ptr (Z.min (info_size prev) size);
           s ← mmap_free s origPtr prev;
           Ret (clearPtr, s)
       else
         '(realloced, s) ← call_realloc s origPtr (u64 (size + info_offset prev));
         if realloced =? 0 then Ret (0, s)
         else
           let userPtr := realloced + info_offset prev in
           s ← TrackReallocation s th userPtr size (info_offset prev) prev trace;
           Ret (userPtr, s));
    s ← leave_stacktrace s th;
    Ret (res, s).

Definition hawk_valloc (s : Hawk) (th : nat) (size : Z) : outcome (Z * Hawk) :=
  if negb (CheckInitialized s) then Undef
  else if getpagesize <=? 0 then Undef
  else hawk_aligned_alloc s th getpagesize size.

Definition hawk_pvalloc (s : Hawk) (th : nat) (size : Z) : outcome (Z * Hawk) :=
  if negb (CheckInitialized s) then Undef
  else if getpagesize <=? 0 then Undef
  else size ← align_ceil size getpagesize; hawk_aligned_alloc s th getpagesize size.

Definition hawk_free (s : Hawk) (th : nat) (ptr : Z) : outcome Hawk :=
  if ptr =? 0 then Ret s
  else
    info ← read_header s (ptr - AdditionalSize);
    let ptr := ptr - info_offset info in
    if info_traceId info =? InvalidTraceId then mmap_free s ptr info
    else if negb (CheckInitialized s) then Undef
    else
      '(trace, s) ← enter_stacktrace s th MinUnwindDepth;
      s ← match GetMemHawk s with
          | Some memhawk =>
            m ← prof_TrackDealloc memhawk th info (IsExternal (guard_of s th));
            Ret (with_memhawk s m)
          | None => Ret s
          end;
      s ← call_free s ptr;
      leave_stacktrace s th.

Definition hawk_malloc_usable_size (s : Hawk) (ptr : Z) : outcome Z :=
  info ← read_header s (ptr - AdditionalSize); Ret (info_size info).

(** [hawk_dlopen] and [hawk_dlclose] differ in the function they forward to. *)
Definition hawk_dl_hook (s : Hawk) : Hawk :=
  let s := mkHawk (hk_libc s) (hk_headers s) (hk_bytes s) (gl_initialised s) true
    (gl_memhawkReady s) (gl_memhawk s) (TrackDepth s) (UseAbslStacktraces s) (hk_guards s) in
  match GetMemHawk s with
  | Some m => with_memhawk s (prof_InvalidateModulesCache m)
  | None => s
  end.
End HawkMalloc.
Arguments Hawk : clear implicits.

(** ** Blocks *)

Definition disjoint_blocks (bs : blocks) : Prop :=
  ∀ p q o o' n m, bs !! p = Some (o, n) → bs !! q = Some (o', m) → p ≠ q → p + n ≤ q ∨ q + m ≤ p.

Lemma disjoint_insert bs p o n : disjoint_blocks bs → fresh_block bs p n →
  disjoint_blocks (<[p := (o, n)]> bs).
Proof.
  intros Hd (_ & _ & _ & Hf) a b oa ob na nb Ha Hb Hne.
  apply lookup_insert_Some in Ha as [[<- Ea]|[Hpa Ha]], Hb as [[<- Eb]|[Hpb Hb]]; simplify_eq.
  - apply (Hf b ob nb Hb).
  - destruct (Hf a oa na Ha); [by right|by left].
  - by apply (Hd a b oa ob).
Qed.

Lemma disjoint_delete bs p : disjoint_blocks bs → disjoint_blocks (delete p bs).
Proof.
  intros Hd a b oa ob na nb Ha Hb. apply lookup_delete_Some in Ha as [_ Ha], Hb as [_ Hb].
  by apply (Hd a b oa ob).
Qed.

Lemma within_block_in bs q o m a n : bs !! q = Some (o, m) → q ≤ a → a + n ≤ q + m →
  within_block bs a n = true.
Proof.
  intros Hq H1 H2. apply bool_decide_eq_true. exists q, (o, m). done.
Qed.
