(* ===== verification/Overrides.v ===== *)
(** * The exported operators ([hawk_malloc.cpp], overrides section)

    The C functions with a [hawk_] name forward to the functions of [HawkMalloc]; the operators
    of C++ are written in terms of them, and the throwing forms of [operator new] turn a null
    pointer into an exception. *)

From Stdlib Require Import ZArith.
From stdpp Require Import base numbers list gmap.
From S2P Require Import Prelude AllocInfo Stacktrace HawkMalloc.

(** What an [operator new] does: it returns a pointer or throws [std::bad_alloc]. *)
Inductive new_result := NewPtr (ptr : Z) | BadAlloc.

Section Overrides.
Context {L M : Type} `{!Libc L} `{!Profiler M} `{!Unwinder}.
Context (self_profiling : bool) (uninit : list Z).
Local Abbreviation hawk := (Hawk L M).
Implicit Types (s : hawk) (th : nat) (size alignment p : Z).

Definition hawk_free_sized s th p size : outcome hawk := hawk_free self_profiling uninit s th p.
Definition hawk_free_aligned_sized s th p alignment size : outcome hawk := hawk_free self_profiling uninit s th p.

Definition HawkInternalNew s th size : outcome (new_result * hawk) :=
  '(ptr, s) ← hawk_malloc self_profiling uninit s th size;
  if ptr =? 0 then Ret (BadAlloc, s) else Ret (NewPtr ptr, s).
Definition HawkInternalDelete s th p : outcome hawk := hawk_free self_profiling uninit s th p.
Definition HawkInternalDeleteSized s th p size : outcome hawk := hawk_free self_profiling uninit s th p.
Definition HawkInternalNewArray s th size : outcome (new_result * hawk) :=
  '(ptr, s) ← hawk_malloc self_profiling uninit s th size;
  if ptr =? 0 then Ret (BadAlloc, s) else Ret (NewPtr ptr, s).
Definition HawkInternalDeleteArray s th p : outcome hawk := hawk_free self_profiling uninit s th p.
Definition HawkInternalDeleteArraySized s th p size : outcome hawk := hawk_free self_profiling uninit s th p.

Definition HawkInternalNewNothrow s th size : outcome (Z * hawk) := hawk_malloc self_profiling uninit s th size.
Definition HawkInternalNewArrayNothrow s th size : outcome (Z * hawk) := hawk_malloc self_profiling uninit s th size.
Definition HawkInternalDeleteNothrow s th p : outcome hawk := hawk_free self_profiling uninit s th p.
Definition HawkInternalDeleteArrayNothrow s th p : outcome hawk := hawk_free self_profiling uninit s th p.

Definition HawkInternalNewAligned s th size alignment : outcome (new_result * hawk) :=
  '(ptr, s) ← hawk_aligned_alloc self_profiling uninit s th alignment size;
  if ptr =? 0 then Ret (BadAlloc, s) else Ret (NewPtr ptr, s).
Definition HawkInternalNewAlignedNothrow s th size alignment : outcome (Z * hawk) :=
  hawk_aligned_alloc self_profiling uninit s th alignment size.
Definition HawkInternalDeleteAligned s th p alignment : outcome hawk := hawk_free self_profiling uninit s th p.
Definition HawkInternalDeleteAlignedNothrow s th p alignment : outcome hawk := hawk_free self_profiling uninit s th p.
Definition HawkInternalDeleteSizedAligned s th p size alignment : outcome hawk := hawk_free self_profiling uninit s th p.
Definition HawkInternalNewArrayAligned s th size alignment : outcome (new_result * hawk) :=
  '(ptr, s) ← hawk_aligned_alloc self_profiling uninit s th alignment size;
  if ptr =? 0 then Ret (BadAlloc, s) else Ret (NewPtr ptr, s).
Definition HawkInternalNewArrayAlignedNothrow s th size alignment : outcome (Z * hawk) :=
  hawk_aligned_alloc self_profiling uninit s th alignment size.
Definition HawkInternalDeleteArrayAligned s th p alignment : outcome hawk := hawk_free self_profiling uninit s th p.
Definition HawkInternalDeleteArrayAlignedNothrow s th p alignment : outcome hawk := hawk_free self_profiling uninit s th p.
Definition HawkInternalDeleteArraySizedAligned s th p size alignment : outcome hawk := hawk_free self_profiling uninit s th p.

(** ** All forms of the operators *)

(** Array or not, [std::nothrow] or not, with an alignment or not. *)
Record new_form := mkNewForm { nf_array : bool; nf_nothrow : bool; nf_alignment : option Z }.

(** The result of a form that does not throw. *)
Definition as_new (r : outcome (Z * hawk)) : outcome (new_result * hawk) := '(p, s) ← r; Ret (NewPtr p, s).

Definition operator_new (f : new_form) s th size : outcome (new_result * hawk) :=
  match nf_array f, nf_nothrow f, nf_alignment f with
  | false, false, None => HawkInternalNew s th size
  | true, false, None => HawkInternalNewArray s th size
  | false, true, None => as_new (HawkInternalNewNothrow s th size)
  | true, true, None => as_new (HawkInternalNewArrayNothrow s th size)
  | false, false, Some al => HawkInternalNewAligned s th size al
  | true, false, Some al => HawkInternalNewArrayAligned s th size al
  | false, true, Some al => as_new (HawkInternalNewAlignedNothrow s th size al)
  | true, true, Some al => as_new (HawkInternalNewArrayAlignedNothrow s th size al)
  end.

(** The functions that give a block back, with the arguments they ignore. *)
Inductive free_form :=
| FreeSized (size : Z) | FreeAlignedSized (alignment size : Z)
| Delete | DeleteSized (size : Z) | DeleteArray | DeleteArraySized (size : Z)
| DeleteNothrow | DeleteArrayNothrow
| DeleteAligned (alignment : Z) | DeleteAlignedNothrow (alignment : Z) | DeleteSizedAligned (size alignment : Z)
| DeleteArrayAligned (alignment : Z) | DeleteArrayAlignedNothrow (alignment : Z)
| DeleteArraySizedAligned (size alignment : Z).

Definition release (f : free_form) s th p : outcome hawk :=
  match f with
  | FreeSized size => hawk_free_sized s th p size
  | FreeAlignedSized al size => hawk_free_aligned_sized s th p al size
  | Delete => HawkInternalDelete s th p
  | DeleteSized size => HawkInternalDeleteSized s th p size
  | DeleteArray => HawkInternalDeleteArray s th p
  | DeleteArraySized size => HawkInternalDeleteArraySized s th p size
  | DeleteNothrow => HawkInternalDeleteNothrow s th p
  | DeleteArrayNothrow => HawkInternalDeleteArrayNothrow s th p
  | DeleteAligned al => HawkInternalDeleteAligned s th p al
  | DeleteAlignedNothrow al => HawkInternalDeleteAlignedNothrow s th p al
  | DeleteSizedAligned size al => HawkInternalDeleteSizedAligned s th p size al
  | DeleteArrayAligned al => HawkInternalDeleteArrayAligned s th p al
  | DeleteArrayAlignedNothrow al => HawkInternalDeleteArrayAlignedNothrow s th p al
  | DeleteArraySizedAligned size al => HawkInternalDeleteArraySizedAligned s th p size al
  end.

Lemma release_free f s th p : release f s th p = hawk_free self_profiling uninit s th p.
Proof. by destruct f. Qed.

(** The pointer of a result, null for an exception. *)
Definition new_ptr (r : new_result) : Z := match r with NewPtr p => p | BadAlloc => 0 end.

(** The result of a form for the pointer the C function returned. *)
Definition new_outcome (f : new_form) p : new_result := if negb (nf_nothrow f) && (p =? 0) then BadAlloc else NewPtr p.

Lemma new_outcome_ptr f p : new_ptr (new_outcome f p) = p.
Proof. unfold new_outcome. destruct (nf_nothrow f), (Z.eqb_spec p 0); by subst. Qed.

Lemma operator_new_spec f s th size p s' :
  match nf_alignment f with
  | None => hawk_malloc self_profiling uninit s th size
  | Some al => hawk_aligned_alloc self_profiling uninit s th al size
  end = Ret (p, s') → operator_new f s th size = Ret (new_outcome f p, s').
Proof.
  unfold operator_new, as_new, new_outcome, HawkInternalNew, HawkInternalNewArray, HawkInternalNewNothrow, HawkInternalNewArrayNothrow,
    HawkInternalNewAligned, HawkInternalNewArrayAligned, HawkInternalNewAlignedNothrow, HawkInternalNewArrayAlignedNothrow.
  destruct (nf_alignment f) as [al|], (nf_array f), (nf_nothrow f); intros ->; step_ret; by destruct (p =? 0).
Qed.
End Overrides.
