(* ===== verification/HawkHeap.v ===== *)
(** * Correctness of the allocation functions

    The invariant of the heap, the specification of every function of [HawkMalloc], and
    runs of a client that uses the functions as the C standard allows, before, during and
    after profiling.  The theorems hold for every libc, profiler and unwinder that
    meet [LibcLaws], [ProfilerSpec] and [UnwinderLaws]. *)

From Stdlib Require Import ZArith Lia.
From stdpp Require Import base numbers list gmap.
From S2P Require Import Prelude Algo AllocInfo Stacktrace IStacktraceTracker HawkMalloc Overrides.

(** ** What a user pointer promises *)

(** The header in front of [p] leads to the start of a live block that holds the header,
    everything before it and [info_size] bytes for the user; it tells how to free it. *)
Record header_ok (bs : blocks) (p : Z) (info : AllocInfo) : Prop := {
  ho_offset : 16 ≤ info_offset info < 2 ^ 32;
  ho_size : 0 ≤ info_size info;
  ho_total : info_size info + info_offset info < 2 ^ 64;
  ho_block : ∃ o, bs !! (p - info_offset info) = Some (o, info_size info + info_offset info)
                  ∧ (o = OMmap ↔ info_traceId info = InvalidTraceId);
  ho_pos : 0 < p - info_offset info;
}.

(** [user]: the pointers handed out and not freed, with their headers. *)
Record heap_ok (bs : blocks) (hs user : gmap Z AllocInfo) : Prop := {
  hp_disjoint : disjoint_blocks bs;
  hp_user p info : user !! p = Some info → hs !! (p - 16) = Some info ∧ header_ok bs p info;
  hp_inj p p' info info' : user !! p = Some info → user !! p' = Some info' →
    p - info_offset info = p' - info_offset info' → p = p';
}.

Lemma header_within bs p info : header_ok bs p info → within_block bs (p - 16) 16 = true.
Proof.
  intros [Ho Hs _ (o & Hb & _) _]. eapply within_block_in; [exact Hb|lia|lia].
Qed.

(** The user's bytes, or a prefix of them, are within a block. *)
Lemma user_within bs p info n : header_ok bs p info → n ≤ info_size info → within_block bs p n = true.
Proof.
  intros [Ho Hs _ (o & Hb & _) _] Hn. eapply within_block_in; [exact Hb|lia|lia].
Qed.

(** A block is either that of a user pointer or apart from the user's bytes. *)
Lemma user_apart bs hs user p info q o m : heap_ok bs hs user → user !! p = Some info →
  bs !! q = Some (o, m) → q ≠ p - info_offset info →
  p + info_size info ≤ q ∨ q + m ≤ p - info_offset info.
Proof.
  intros Hh Hp Hq Hne. destruct (hp_user _ _ _ Hh p info Hp) as [_ [_ _ _ (o' & Hb & _) _]].
  destruct (hp_disjoint _ _ _ Hh _ _ _ _ _ _ Hb Hq) as [?|?]; [done|left; lia|by right].
Qed.

(** A fresh block is apart from every user block. *)
Lemma fresh_apart bs hs user p info base n : heap_ok bs hs user → user !! p = Some info →
  fresh_block bs base n → p + info_size info ≤ base ∨ base + n ≤ p - info_offset info.
Proof.
  intros Hh Hp (_ & _ & _ & Hf). destruct (hp_user _ _ _ Hh p info Hp) as [_ [_ _ _ (o' & Hb & _) _]].
  destruct (Hf _ _ _ Hb); [right; lia|left; lia].
Qed.

(** The user blocks never overlap. *)
Lemma users_apart bs hs user p q info info' : heap_ok bs hs user →
  user !! p = Some info → user !! q = Some info' → p ≠ q →
  p + info_size info ≤ q - info_offset info' ∨ q + info_size info' ≤ p - info_offset info.
Proof.
  intros Hh Hp Hq Hne. destruct (hp_user _ _ _ Hh q info' Hq) as [_ [_ _ _ (o' & Hb & _) _]].
  destruct (user_apart _ _ _ p info _ _ _ Hh Hp Hb) as [?|?]; [|by left|right; lia].
  intros E. by apply Hne, (hp_inj _ _ _ Hh p q info info').
Qed.

(** A new block with a header in it. *)
Lemma heap_add bs hs user base n p info o :
  heap_ok bs hs user → fresh_block bs base n →
  n = info_size info + info_offset info → p = base + info_offset info →
  16 ≤ info_offset info < 2 ^ 32 → 0 ≤ info_size info → n < 2 ^ 64 →
  (o = OMmap ↔ info_traceId info = InvalidTraceId) →
  heap_ok (<[base := (o, n)]> bs) (<[p - 16 := info]> hs) (<[p := info]> user) ∧ user !! p = None.
Proof.
  intros Hh Hf -> -> Ho Hs Hn Horig. set (p := base + _). set (n := _ + _).
  assert (Hapart : ∀ q i, user !! q = Some i →
    q - info_offset i ≠ base ∧ q - 16 ≠ p - 16 ∧ header_ok (<[base := (o, n)]> bs) q i).
  { intros q i Hq. pose proof (fresh_apart _ _ _ q i base n Hh Hq Hf).
    destruct (hp_user _ _ _ Hh q i Hq) as [_ [H1 H2 H3 (o' & Hb & Ho') H4]].
    assert (q - info_offset i ≠ base) by (destruct Hf as (_ & _ & F3 & _); congruence).
    split; [done|]. split; [lia|].
    split; try done. exists o'. split; [|done]. by rewrite lookup_insert_ne. }
  assert (Hnew : header_ok (<[base := (o, n)]> bs) p info).
  { split; try done.
    - exists o. split; [|done]. replace (p - _) with base by lia. apply lookup_insert_eq.
    - replace (p - _) with base by lia. apply Hf. }
  split.
  - split.
    + by apply disjoint_insert; [eapply hp_disjoint|].
    + intros q i Hq. apply lookup_insert_Some in Hq as [[<- <-]|[Hne Hq]].
      * by rewrite lookup_insert_eq.
      * destruct (Hapart q i Hq) as (_ & H16 & Hok). split; [|done].
        rewrite lookup_insert_ne by done. by eapply hp_user.
    + intros q q' i i' Hq Hq' E.
      apply lookup_insert_Some in Hq as [[<- <-]|[Hne Hq]], Hq' as [[<- <-]|[Hne' Hq']]; try done.
      * destruct (Hapart q' i' Hq') as (Hx & _). lia.
      * destruct (Hapart q i Hq) as (Hx & _). lia.
      * by apply (hp_inj _ _ _ Hh q q' i i').
  - destruct (user !! p) as [i|] eqn:Ep; [|done]. by destruct (Hapart p i Ep) as (_ & ? & _).
Qed.

(** Freeing the block of a user pointer. *)
Lemma heap_remove bs hs user p info :
  heap_ok bs hs user → user !! p = Some info →
  heap_ok (delete (p - info_offset info) bs) hs (delete p user).
Proof.
  intros Hh Hp. split.
  - by eapply disjoint_delete, hp_disjoint.
  - intros q i Hq. apply lookup_delete_Some in Hq as [Hne Hq].
    destruct (hp_user _ _ _ Hh q i Hq) as [Hhd [H1 H2 H3 (o & Hb & Ho) H4]]. split; [done|].
    split; try done. exists o. split; [|done]. rewrite lookup_delete_ne; [done|].
    intros E. by apply Hne, (hp_inj _ _ _ Hh p q info i).
  - intros q q' i i' Hq Hq'. apply lookup_delete_Some in Hq as [_ Hq], Hq' as [_ Hq'].
    by apply (hp_inj _ _ _ Hh).
Qed.

(** ** Balances *)

(** The live blocks, as the allocations that made them. *)
Definition live_events (user : gmap Z AllocInfo) : list event :=
  (fun pi => EvAlloc pi.2) <$> map_to_list user.

(** Equal in what is live: bytes, overhead and number of blocks. *)
Definition same_held (a b : AllocSummary) : Prop :=
  sum_size a = sum_size b ∧ sum_overhead a = sum_overhead b ∧ sum_active a = sum_active b.

(** Per trace, the tracked events leave exactly the live blocks; a block with a trace was
    tracked when it was made. *)
Record balanced (es : list event) (user : gmap Z AllocInfo) : Prop := {
  bl_held t : t ≠ InvalidTraceId →
    same_held (exact_sum (of_trace t es)) (exact_sum (of_trace t (live_events user)));
  bl_tracked p info : user !! p = Some info → info_traceId info ≠ InvalidTraceId → EvAlloc info ∈ es;
}.

Definition delta_at (t : Z) (e : event) : AllocSummary :=
  if decide (event_trace e = t) then event_delta e else AllocSummary_zero.

Lemma sum_cons t e es :
  exact_sum (of_trace t (e :: es)) = exact_add (delta_at t e) (exact_sum (of_trace t es)).
Proof.
  unfold of_trace, delta_at. rewrite filter_cons. case_decide; [done|].
  by rewrite (left_id AllocSummary_zero exact_add).
Qed.

Lemma sum_snoc t e es :
  exact_sum (of_trace t (es ++ [e])) = exact_add (exact_sum (of_trace t es)) (delta_at t e).
Proof.
  rewrite of_trace_app, exact_sum_app. f_equal. change ([e]) with (e :: []).
  rewrite sum_cons. cbn. by rewrite (right_id AllocSummary_zero exact_add).
Qed.

Lemma sum_perm t es fs : es ≡ₚ fs → exact_sum (of_trace t es) = exact_sum (of_trace t fs).
Proof. intros H. apply exact_sum_perm. unfold of_trace. by rewrite H. Qed.

Lemma live_insert t user p info : user !! p = None →
  exact_sum (of_trace t (live_events (<[p := info]> user))) =
  exact_add (delta_at t (EvAlloc info)) (exact_sum (of_trace t (live_events user))).
Proof.
  intros Hp. rewrite <- sum_cons. apply sum_perm. unfold live_events.
  rewrite map_to_list_insert by done. done.
Qed.

Lemma live_delete t user p info : user !! p = Some info →
  exact_sum (of_trace t (live_events user)) =
  exact_add (delta_at t (EvAlloc info)) (exact_sum (of_trace t (live_events (delete p user)))).
Proof.
  intros Hp. rewrite <- live_insert with (p := p) by apply lookup_delete_eq.
  by rewrite insert_delete_id.
Qed.

Lemma balanced_start user : (∀ p info, user !! p = Some info → info_traceId info = InvalidTraceId) →
  balanced [] user.
Proof.
  intros Hu. split; [|intros p info Hp Hid; by destruct (Hid (Hu p info Hp))].
  intros t Ht. assert (of_trace t (live_events user) = []) as ->; [|done].
  apply filter_none. intros e. unfold live_events. rewrite list_elem_of_fmap.
  intros ([p info] & -> & Hp%elem_of_map_to_list). cbn. unfold event_trace. cbn.
  rewrite (Hu p info Hp). congruence.
Qed.

Lemma balanced_alloc es user p info : user !! p = None → balanced es user →
  balanced (es ++ [EvAlloc info]) (<[p := info]> user).
Proof.
  intros Hp [Hb Htr]. split.
  - intros t Ht. destruct (Hb t Ht) as (H1 & H2 & H3). rewrite sum_snoc, live_insert by done.
    unfold same_held. cbn. lia.
  - intros q i [[<- <-]|[_ Hq]]%lookup_insert_Some Hi; apply elem_of_app; [right; by left|left; by apply (Htr q)].
Qed.

Lemma balanced_free es user p info : user !! p = Some info → balanced es user →
  balanced (es ++ [EvFree info]) (delete p user).
Proof.
  intros Hp [Hb Htr]. split.
  - intros t Ht. destruct (Hb t Ht) as (H1 & H2 & H3). rewrite sum_snoc.
    rewrite (live_delete t user p info Hp) in H1, H2, H3.
    unfold same_held, delta_at, event_trace in *. cbn in *. case_decide; cbn in *; lia.
  - intros q i [_ Hq]%lookup_delete_Some Hi. apply elem_of_app. left. by apply (Htr q).
Qed.

(** Blocks of the time before initialisation are not tracked. *)
Lemma balanced_untracked_alloc es user p info : user !! p = None → info_traceId info = InvalidTraceId →
  balanced es user → balanced es (<[p := info]> user).
Proof.
  intros Hp Hi [Hb Htr]. split.
  - intros t Ht. destruct (Hb t Ht) as (H1 & H2 & H3). rewrite live_insert by done.
    unfold same_held, delta_at, event_trace. cbn. rewrite decide_False by congruence. cbn. lia.
  - intros q i [[<- <-]|[_ Hq]]%lookup_insert_Some Hq'; [done|by apply (Htr q)].
Qed.

Lemma balanced_untracked_free es user p info : user !! p = Some info →
  info_traceId info = InvalidTraceId → balanced es user → balanced es (delete p user).
Proof.
  intros Hp Hi [Hb Htr]. split.
  - intros t Ht. destruct (Hb t Ht) as (H1 & H2 & H3).
    rewrite (live_delete t user p info Hp) in H1, H2, H3.
    unfold same_held, delta_at, event_trace in *. cbn in *. rewrite decide_False in * by congruence.
    cbn in *. lia.
  - intros q i [_ Hq]%lookup_delete_Some. by apply (Htr q).
Qed.

(** ** Alignment and bytes *)

(** The least multiple of [al] from [v] on. *)
Definition round_up (v al : Z) : Z := (v + al - 1) / al * al.

Lemma align_ceil_spec v al : 0 < al → 0 ≤ v → v + al - 1 < 2 ^ 64 →
  ∃ c, align_ceil v al = Ret c ∧ c = round_up v al ∧ v ≤ c < v + al ∧ c mod al = 0.
Proof.
  intros Hal Hv Hb. unfold align_ceil, round_up. destruct (Z.eqb_spec al 0); [lia|].
  set (w := v + al - 1). exists (w / al * al).
  pose proof (Z.div_mod w al ltac:(lia)). pose proof (Z.mod_pos_bound w al Hal).
  assert (0 ≤ w / al * al ≤ w) by (split; [apply Z.mul_nonneg_nonneg; [apply Z.div_pos|]|]; lia).
  rewrite (u64_small w) by (unfold is_u64; lia). rewrite u64_small by (unfold is_u64; lia).
  split; [done|]. split; [done|]. split; [lia|]. apply Z.mod_mul. lia.
Qed.

Lemma mod_add a b k : 0 < k → a mod k = 0 → b mod k = 0 → (a + b) mod k = 0.
Proof. intros Hk Ha Hb. rewrite Zplus_mod, Ha, Hb. apply Z.mod_0_l. lia. Qed.

Lemma mod_16 a : a mod 4096 = 0 → a mod 16 = 0.
Proof. intros H. apply Z.mod_divide in H as [c ->]; [|done]. apply Z.mod_divide; [done|]. exists (c * 256). lia. Qed.

Lemma fill_in b p n v a : p ≤ a < p + n → fill b p n v a = v.
Proof. intros H. unfold fill. destruct (Z.leb_spec p a), (Z.ltb_spec a (p + n)); cbn; done || lia. Qed.
Lemma fill_out b p n v a : ¬ (p ≤ a < p + n) → fill b p n v a = b a.
Proof. intros H. unfold fill. destruct (Z.leb_spec p a), (Z.ltb_spec a (p + n)); cbn; done || lia. Qed.
Lemma copy_in b dst src n a : dst ≤ a < dst + n → copy b dst src n a = b (src + (a - dst)).
Proof. intros H. unfold copy. destruct (Z.leb_spec dst a), (Z.ltb_spec a (dst + n)); cbn; done || lia. Qed.
Lemma copy_out b dst src n a : ¬ (dst ≤ a < dst + n) → copy b dst src n a = b a.
Proof. intros H. unfold copy. destruct (Z.leb_spec dst a), (Z.ltb_spec a (dst + n)); cbn; done || lia. Qed.

(** Bytes written into a fresh block are nobody's. *)
Lemma fresh_kept bs hs user base n q i a : heap_ok bs hs user → fresh_block bs base n →
  user !! q = Some i → q ≤ a < q + info_size i → ¬ (base ≤ a < base + n).
Proof.
  intros Hh Hf Hq Ha. destruct (fresh_apart _ _ _ q i base n Hh Hq Hf); [lia|].
  destruct (hp_user _ _ _ Hh q i Hq) as [_ [? _ _ _ _]]. lia.
Qed.

(** ** The invariant of the whole system *)

Section specs.
Context {L M : Type} `{!Libc L} `{!LibcLaws L} `{!Profiler M} `{!ProfilerSpec M}
        `{!Unwinder} `{!UnwinderLaws}.
Context (self_profiling : bool) (uninit : list Z).
Context (uninit_length : zlen uninit = MaxUnwindDepth) (uninit_words : Forall is_u64 uninit).
Local Abbreviation hawk := (Hawk L M).
Local Abbreviation users := (gmap Z AllocInfo).
Implicit Types (s : hawk) (p : Z) (info : AllocInfo) (user : gmap Z AllocInfo) (th : nat).

(** Nesting level of every thread's guard. *)
Definition guards_at (f : nat → Z) s : Prop := ∀ th, guard_at (f th) (guard_of s th).
Definition bump (f : nat → Z) th : nat → Z := fun th' => if decide (th' = th) then f th + 1 else f th'.

Record hawk_inv (n : nat) (f : nat → Z) s (es : list event) user : Prop := {
  hi_heap : heap_ok (live (hk_libc s)) (hk_headers s) user;
  hi_guards : guards_at f s;
  hi_depth : 0 ≤ TrackDepth s;
  hi_ready : gl_memhawkReady s = true → gl_initialised s = true;
  hi_prof : gl_memhawkReady s = true → prof_inv n (gl_memhawk s) es ∧ balanced es user;
  hi_before : gl_initialised s = false → ∀ p info, user !! p = Some info → info_traceId info = InvalidTraceId;
}.

(** The events a call adds: none unless the profiler is there. *)
Definition track_of s (es new : list event) : list event := if gl_memhawkReady s then es ++ new else es.

Lemma hawk_inv_le n f s es user : hawk_inv (S n) f s es user → hawk_inv n f s es user.
Proof.
  intros [H1 H2 H3 H4 H5 H6]. split; try done. intros Hr. destruct (H5 Hr). split; [by apply prof_le|done].
Qed.

(** Changes of libc's private data, of bytes and of the profiler that keep what matters. *)
Lemma hawk_inv_libc n f s es user l b : live l = live (hk_libc s) → hawk_inv n f s es user →
  hawk_inv n f (with_bytes (with_libc s l) b) es user.
Proof. intros E [H1 H2 H3 H4 H5 H6]. split; try done. cbn. by rewrite E. Qed.

Lemma with_bytes_id s : with_bytes s (hk_bytes s) = s.
Proof. by destruct s. Qed.

(** *** The guard *)

Lemma guard_of_with s th g th' :
  guard_of (with_guard s th g) th' = if decide (th' = th) then g else guard_of s th'.
Proof.
  unfold guard_of. cbn. case_decide as E; [subst; by rewrite lookup_insert_eq|by rewrite lookup_insert_ne].
Qed.

Lemma enter_spec f s th depth : guards_at f s → 0 ≤ f th < 7 → 0 ≤ depth →
  ∃ trace g, enter_stacktrace self_profiling uninit s th depth = Ret (trace, with_guard s th g)
    ∧ guards_at (bump f th) (with_guard s th g) ∧ words_ok trace.
Proof.
  intros Hg Hf Hd. unfold enter_stacktrace.
  destruct (RecursiveStacktrace_ctor_spec self_profiling uninit (guard_of s th) depth
    (UseAbslStacktraces s) (f th)) as (g & st & -> & Hg' & Hst); [done..|]. step_ret.
  exists st, g. split; [done|]. split; [|done]. intros th'. rewrite guard_of_with. unfold bump.
  case_decide; [done|apply Hg].
Qed.

Lemma leave_spec f s th : guards_at (bump f th) s → 0 ≤ f th < 7 →
  ∃ g, leave_stacktrace self_profiling s th = Ret (with_guard s th g) ∧ guards_at f (with_guard s th g).
Proof.
  intros Hg Hf. unfold leave_stacktrace. pose proof (Hg th) as Ht. unfold bump in Ht.
  rewrite decide_True in Ht by done.
  destruct (RecursiveStacktrace_dtor_spec self_profiling (guard_of s th) (f th) Ht Hf) as (g & -> & Hg').
  step_ret. exists g. split; [done|]. intros th'. rewrite guard_of_with. case_decide as E; [by subst|].
  specialize (Hg th'). unfold bump in Hg. by rewrite decide_False in Hg.
Qed.

Lemma hawk_inv_guard n f f' s es user th g : hawk_inv n f s es user →
  guards_at f' (with_guard s th g) → hawk_inv n f' (with_guard s th g) es user.
Proof. intros [H1 H2 H3 H4 H5 H6] Hg. by split. Qed.

(** *** Headers *)

Lemma read_header_spec n f s es user p info : hawk_inv n f s es user → user !! p = Some info →
  read_header s (p - AdditionalSize) = Ret info.
Proof.
  intros Hi Hp. destruct (hp_user _ _ _ (hi_heap _ _ _ _ _ Hi) p info Hp) as [E Hok].
  unfold read_header, AdditionalSize. rewrite E. by rewrite (header_within _ _ _ Hok).
Qed.

Lemma write_header_spec s p info : within_block (live (hk_libc s)) (p - 16) 16 = true →
  write_header s (p - AdditionalSize) info = Ret (with_headers s (<[p - 16 := info]> (hk_headers s))).
Proof. intros E. unfold write_header, AdditionalSize. by rewrite E. Qed.

Lemma AllocInfo_tagged size off info : tagged (AllocInfo_ctor size off) info →
  info_size info = size ∧ info_offset info = off ∧ info_traceId info ≠ InvalidTraceId.
Proof. done. Qed.

(** *** Tracking *)

(** The header of a block is written with the id the profiler chose. *)
Lemma TrackAllocation_spec n s es th p size off trace :
  (gl_memhawkReady s = true → prof_inv (S n) (gl_memhawk s) es) → words_ok trace →
  within_block (live (hk_libc s)) (p - 16) 16 = true →
  ∃ info m, TrackAllocation s th p size off trace =
      Ret (with_headers (with_memhawk s m) (<[p - 16 := info]> (hk_headers s)))
    ∧ tagged (AllocInfo_ctor size off) info
    ∧ (gl_memhawkReady s = true → prof_inv n m (es ++ [EvAlloc info])).
Proof.
  intros Hi [Hst Ha] Hw. unfold TrackAllocation. rewrite write_header_spec by done. step_ret.
  unfold GetMemHawk. cbn [gl_memhawkReady with_headers gl_memhawk].
  destruct (gl_memhawkReady s) eqn:Er.
  - set (ext := IsExternal _).
    destruct (prof_alloc n (gl_memhawk s) es th (AllocInfo_ctor size off) trace ext (Hi eq_refl) Hst Ha) as (info & m & -> & Hp' & Ht).
    step_ret. rewrite write_header_spec by done. exists info, m. split; [|done].
    unfold with_headers, with_memhawk. cbn. by rewrite insert_insert_eq.
  - exists (AllocInfo_ctor size off), (gl_memhawk s). split; [by destruct s|]. split; [|done].
    done.
Qed.

Lemma TrackReallocation_spec n s es th p size off prev trace :
  (gl_memhawkReady s = true → prof_inv (S n) (gl_memhawk s) es ∧ EvAlloc prev ∈ es) → words_ok trace →
  within_block (live (hk_libc s)) (p - 16) 16 = true →
  ∃ info m, TrackReallocation s th p size off prev trace =
      Ret (with_headers (with_memhawk s m) (<[p - 16 := info]> (hk_headers s)))
    ∧ tagged (AllocInfo_ctor size off) info
    ∧ (gl_memhawkReady s = true → prof_inv n m (es ++ [EvFree prev; EvAlloc info])).
Proof.
  intros Hi [Hst Ha] Hw. unfold TrackReallocation. rewrite write_header_spec by done. step_ret.
  unfold GetMemHawk. cbn [gl_memhawkReady with_headers gl_memhawk].
  destruct (gl_memhawkReady s) eqn:Er.
  - set (ext := IsExternal _).
    destruct (Hi eq_refl) as [Hi1 Hprev].
    destruct (prof_realloc n (gl_memhawk s) es th prev (AllocInfo_ctor size off) trace ext
      Hi1 Hprev Hst Ha) as (info & m & -> & Hp' & Ht).
    step_ret. rewrite write_header_spec by done. exists info, m. split; [|done].
    unfold with_headers, with_memhawk. cbn. by rewrite insert_insert_eq.
  - exists (AllocInfo_ctor size off), (gl_memhawk s). split; [by destruct s|]. split; [|done].
    done.
Qed.

(** *** Replies *)

(** Initialisation and configuration stay as they are. *)
Definition same_mode s s' : Prop :=
  gl_initialised s' = gl_initialised s ∧ gl_memhawkReady s' = gl_memhawkReady s ∧
  TrackDepth s' = TrackDepth s.

(** The user's data is untouched. *)
Definition contents_kept user s s' : Prop :=
  ∀ q i a, user !! q = Some i → q ≤ a < q + info_size i → hk_bytes s' a = hk_bytes s a.

(** A new pointer [p] with at least [size] bytes. *)
Definition granted n f s es user (size p : Z) s' : Prop :=
  ∃ info, user !! p = None ∧ 0 < p ∧ size ≤ info_size info ∧
    hawk_inv n f s' (track_of s es [EvAlloc info]) (<[p := info]> user).

(** The reply to a request for [size] bytes at a multiple of [al]. *)
Definition replies n f s es user (size al p : Z) s' : Prop :=
  same_mode s s' ∧ contents_kept user s s' ∧
  (p = 0 ∧ hawk_inv n f s' es user ∨ p mod al = 0 ∧ granted n f s es user size p s').

Lemma granted_inv n f s s' es user base n' o p info :
  hawk_inv (S n) f s es user → fresh_block (live (hk_libc s)) base n' →
  n' = info_size info + info_offset info → p = base + info_offset info →
  16 ≤ info_offset info < 2 ^ 32 → 0 ≤ info_size info → n' < 2 ^ 64 →
  (o = OMmap ↔ info_traceId info = InvalidTraceId) →
  live (hk_libc s') = <[base := (o, n')]> (live (hk_libc s)) →
  hk_headers s' = <[p - 16 := info]> (hk_headers s) →
  guards_at f s' → same_mode s s' → (o = OLibc ↔ gl_initialised s = true) →
  (gl_memhawkReady s = true → prof_inv n (gl_memhawk s') (es ++ [EvAlloc info])) →
  granted n f s es user (info_size info) p s'.
Proof.
  intros Hi Hf En Ep Ho Hs Hn Horig El Eh Hg (M1 & M2 & M3) Hoi Hp.
  destruct (heap_add _ _ user base n' p info o (hi_heap _ _ _ _ _ Hi) Hf) as [Hh Hnone]; [done..|].
  exists info. split; [done|]. split; [destruct Hf; lia|]. split; [lia|].
  split; rewrite ?El, ?Eh, ?M1, ?M2, ?M3; try done.
  - by apply Hi.
  - by apply Hi.
  - intros Hr. unfold track_of. rewrite Hr. split; [by apply Hp|].
    apply balanced_alloc; [done|]. by apply (hi_prof _ _ _ _ _ Hi).
  - intros Hr q i Hq. apply lookup_insert_Some in Hq as [[<- <-]|[_ Hq]].
    + apply Horig. destruct o; [|done]. rewrite (proj1 Hoi eq_refl) in Hr. done.
    + by apply (hi_before _ _ _ _ _ Hi Hr q).
Qed.

(** The end of every allocation function: the block is tracked under a fresh guard. *)
Lemma tail_spec n f s es user th base size off l b :
  hawk_inv (S n) f s es user → gl_initialised s = true → 0 ≤ f th < 7 →
  fresh_block (live (hk_libc s)) base (size + off) →
  live l = <[base := (OLibc, size + off)]> (live (hk_libc s)) →
  16 ≤ off < 2 ^ 32 → 0 ≤ size → size + off < 2 ^ 64 →
  let s1 := with_bytes (with_libc s l) b in
  ∃ trace s2 s3 s4,
    enter_stacktrace self_profiling uninit s1 th (TrackDepth s1) = Ret (trace, s2) ∧
    TrackAllocation s2 th (base + off) size off trace = Ret s3 ∧
    leave_stacktrace self_profiling s3 th = Ret s4 ∧
    same_mode s s4 ∧ hk_bytes s4 = b ∧ granted n f s es user size (base + off) s4.
Proof.
  intros Hi Hinit Hf Hfr El Ho Hs Ht s1.
  destruct (enter_spec f s1 th (TrackDepth s1)) as (trace & g & E1 & Hg & Hw);
    [apply Hi|done|apply Hi|].
  destruct (TrackAllocation_spec n (with_guard s1 th g) es th (base + off) size off trace)
    as (info & m & E2 & (T1 & T2 & T3) & Hp); [intros Hr; by apply Hi|done| |].
  { cbn. rewrite El. eapply within_block_in; [apply lookup_insert_eq|lia|lia]. }
  cbn in T1, T2.
  destruct (leave_spec f (with_headers (with_memhawk (with_guard s1 th g) m)
    (<[base + off - 16 := info]> (hk_headers s))) th) as (g' & E3 & Hg'); [exact Hg|done|].
  eexists trace, _, _, _. split; [exact E1|]. split; [exact E2|]. split; [exact E3|].
  split; [done|]. split; [done|]. rewrite <- T1.
  apply (granted_inv n f s _ es user base (size + off) OLibc (base + off) info); try done; try lia.
Qed.

(** *** Allocation *)

(** Zeroed memory at a new pointer. *)
Definition zeroed s' (p size : Z) : Prop := p = 0 ∨ ∀ a, p ≤ a < p + size → hk_bytes s' a = 0.

(** A refused request changes nothing. *)
Lemma refused n f s es user size al l : hawk_inv (S n) f s es user → live l = live (hk_libc s) →
  replies n f s es user size al 0 (with_libc s l).
Proof.
  intros Hi El. split; [done|]. split; [done|]. left. split; [done|].
  apply hawk_inv_le. change (with_libc s l) with (with_bytes (with_libc s l) (hk_bytes s)).
  by apply hawk_inv_libc.
Qed.

(** *** When there is no memory

    The call of libc or of the system that a function makes for the block and the header in front
    of it does not succeed. *)
Definition mmap_fails s (total : Z) : bool := (os_mmap (hk_libc s) total).1 =? MAP_FAILED.
Definition malloc_fails s (size : Z) : bool :=
  if gl_initialised s then (libc_malloc (hk_libc s) (size + 16)).1 =? 0 else mmap_fails s (size + 16).
Definition calloc_fails s (size : Z) : bool :=
  if gl_initialised s then (libc_calloc (hk_libc s) 1 (size + 16)).1 =? 0 else mmap_fails s (size + 16).
Definition aligned_fails s (al size : Z) : bool :=
  if gl_initialised s then (libc_aligned_alloc (hk_libc s) al (size + round_up 16 al)).1 =? 0
  else mmap_fails s (size + 16 + al).
Definition memalign_code s (al size : Z) : Z := (libc_posix_memalign (hk_libc s) al (size + round_up 16 al)).1.1.
Definition memalign_fails s (al size : Z) : bool :=
  if gl_initialised s then negb (memalign_code s al size =? 0) else mmap_fails s (size + 16 + al).
Definition realloc_fails s (p : Z) prev (size : Z) : bool :=
  if gl_initialised s && negb (info_traceId prev =? InvalidTraceId)
  then (libc_realloc (hk_libc s) (p - info_offset prev) (size + info_offset prev)).1 =? 0
  else malloc_fails s size.

(** A mapping with a header at [p - 16] and the id of untracked blocks. *)
Lemma mapped n f s es user base total p l b off :
  hawk_inv (S n) f s es user → gl_initialised s = false →
  fresh_block (live (hk_libc s)) base total → live l = <[base := (OMmap, total)]> (live (hk_libc s)) →
  off = p - base → 16 ≤ off < 2 ^ 32 → off ≤ total < 2 ^ 64 →
  ∃ s', write_header (with_bytes (with_libc s l) b) (p - AdditionalSize)
          (mkAllocInfo (total - off) off InvalidTraceId) = Ret s' ∧
    same_mode s s' ∧ hk_bytes s' = b ∧ granted n f s es user (total - off) p s'.
Proof.
  intros Hi Hinit Hf El -> Ho Ht. rewrite write_header_spec.
  2:{ cbn. rewrite El. eapply within_block_in; [apply lookup_insert_eq|lia|lia]. }
  eexists. split; [done|]. split; [done|]. split; [done|].
  change (total - (p - base)) with (info_size (mkAllocInfo (total - (p - base)) (p - base) InvalidTraceId)) at 1.
  apply (granted_inv n f s _ es user base total OMmap p); cbn; try done; try lia.
  - apply Hi.
  - split; [done|]. by rewrite Hinit.
  - intros Hr. apply (hi_ready _ _ _ _ _ Hi) in Hr. by rewrite Hinit in Hr.
Qed.

Lemma mmap_malloc_spec n f s es user size :
  hawk_inv (S n) f s es user → gl_initialised s = false → 0 ≤ size → size + 16 < 2 ^ 64 →
  ∃ p s', mmap_malloc s size = Ret (p, s') ∧ replies n f s es user size 16 p s' ∧ zeroed s' p size
    ∧ (p = 0 ↔ mmap_fails s (size + 16) = true).
Proof.
  intros Hi Hinit Hs Ht. unfold mmap_malloc, AdditionalSize, mmap_fails. rewrite u64_small by (unfold is_u64; lia).
  pose proof (mmap_law (hk_libc s) (size + 16) ltac:(unfold is_u64; lia)) as Hl.
  destruct (os_mmap _ _) as [base l]. destruct Hl as [[-> El]|(Hne & Hf & Hal & El)].
  { cbn [fst]. rewrite Z.eqb_refl. eexists _, _. split; [done|]. split; [by apply refused|]. split; [by left|done]. }
  cbn [fst]. destruct (Z.eqb_spec base MAP_FAILED); [done|]. cbv zeta.
  destruct (mapped n f s es user base (size + 16) (base + 16) l
    (fill (hk_bytes (with_libc s l)) base (size + 16) 0) 16)
    as (s' & E & Hm & Hb & Hg); [done..|lia|lia|lia|].
  unfold AdditionalSize in E. replace (base + 16 - 16) with base in E by lia.
  replace (size + 16 - 16) with size in * by lia. rewrite E. step_ret.
  eexists _, s'. split; [done|]. split.
  - split; [done|]. split.
    + intros q i a Hq Ha. rewrite Hb. apply fill_out. by eapply fresh_kept; [apply Hi|..].
    + right. split; [|done]. apply mod_add; [done|by apply mod_16|done].
  - split; [right; intros a Ha; rewrite Hb; apply fill_in; lia|]. split; [destruct Hf; lia|done].
Qed.

Lemma mmap_alloc_aligned_spec n f s es user size al :
  hawk_inv (S n) f s es user → gl_initialised s = false → 0 ≤ size → 0 < al < 2 ^ 31 →
  size + 16 + al < 2 ^ 64 →
  ∃ p s', mmap_alloc_aligned s size al = Ret (p, s') ∧ replies n f s es user size al p s'
    ∧ (p = 0 ↔ mmap_fails s (size + 16 + al) = true).
Proof.
  intros Hi Hinit Hs Hal Ht. unfold mmap_alloc_aligned, AdditionalSize, mmap_fails.
  rewrite u64_add_l, u64_small by (unfold is_u64; lia).
  pose proof (mmap_law (hk_libc s) (size + 16 + al) ltac:(unfold is_u64; lia)) as Hl.
  destruct (os_mmap _ _) as [base l]. destruct Hl as [[-> El]|(Hne & Hf & Hpg & El)].
  { cbn [fst]. rewrite Z.eqb_refl. eexists _, _. split; [done|]. split; [by apply refused|done]. }
  cbn [fst]. destruct (Z.eqb_spec base MAP_FAILED); [done|]. cbv zeta.
  destruct (Hf) as (Hpos & Hend & _).
  destruct (align_ceil_spec (base + 16) al) as (p & -> & _ & Hp & Hmod); [lia..|]. step_ret.
  rewrite (u64_small (p - base)), u32_small, u64_small by (unfold is_u32, is_u64; lia).
  destruct (mapped n f s es user base (size + 16 + al) p l
    (fill (hk_bytes (with_libc s l)) base (size + 16 + al) 0) (p - base))
    as (s' & E & Hm & Hb & (info & G1 & G2 & G3 & G4)); [done..|lia|lia|].
  unfold AdditionalSize in E. rewrite E. step_ret. eexists _, s'. split; [done|]. split; [|split; [lia|done]].
  split; [done|]. split; [|right; split; [done|]; exists info; split_and!; try done; lia].
  intros q i a Hq Ha. rewrite Hb. apply fill_out. by eapply fresh_kept; [apply Hi|..].
Qed.

(** The bytes a granted block was made with. *)
Lemma tail_kept n f s s' es user base n' : hawk_inv n f s es user →
  fresh_block (live (hk_libc s)) base n' →
  (∀ a, ¬ (base ≤ a < base + n') → hk_bytes s' a = hk_bytes s a) → contents_kept user s s'.
Proof.
  intros Hi Hf Hb q i a Hq Ha. apply Hb. by eapply fresh_kept; [apply Hi|..].
Qed.

Lemma hawk_malloc_spec n f s es user th size :
  hawk_inv (S n) f s es user → 0 ≤ f th < 7 → 0 ≤ size → size + 16 < 2 ^ 64 →
  ∃ p s', hawk_malloc self_profiling uninit s th size = Ret (p, s') ∧ replies n f s es user size 16 p s'
    ∧ (p = 0 ↔ malloc_fails s size = true).
Proof.
  intros Hi Hf Hs Ht. unfold hawk_malloc, CheckInitialized, malloc_fails.
  destruct (gl_initialised s) eqn:Hinit; cbn [negb].
  2:{ destruct (mmap_malloc_spec n f s es user size) as (p & s' & E & Hr & _ & Hz); [done..|].
      by exists p, s'. }
  unfold AdditionalSize. rewrite u64_small by (unfold is_u64; lia).
  pose proof (malloc_law (hk_libc s) (size + 16) ltac:(unfold is_u64; lia)) as Hl.
  destruct (libc_malloc _ _) as [base l]. destruct Hl as [[-> El]|(Hne & Hfr & Hal & El)].
  { eexists _, _. split; [done|]. split; [by apply refused|done]. }
  cbn [fst]. destruct (Z.eqb_spec base 0); [done|]. cbv zeta.
  destruct (tail_spec n f s es user th base size 16 l (hk_bytes s))
    as (trace & s2 & s3 & s4 & E1 & E2 & E3 & Hm & Hb & Hg); [done..|lia|lia|lia|].
  change (with_bytes (with_libc s l) (hk_bytes s)) with (with_libc s l) in E1.
  rewrite E1. step_ret. rewrite E2. step_ret. rewrite E3. step_ret.
  eexists _, s4. split; [done|]. split; [|split; [destruct Hfr; lia|done]]. split; [done|]. split.
  - by intros q i a _ _; rewrite Hb.
  - right. split; [|done]. by apply mod_add.
Qed.

Lemma hawk_aligned_alloc_spec n f s es user th al size :
  hawk_inv (S n) f s es user → 0 ≤ f th < 7 → 0 ≤ size → 0 < al < 2 ^ 31 →
  size + 16 + al < 2 ^ 64 →
  ∃ p s', hawk_aligned_alloc self_profiling uninit s th al size = Ret (p, s')
    ∧ replies n f s es user size al p s' ∧ (p = 0 ↔ aligned_fails s al size = true).
Proof.
  intros Hi Hf Hs Hal Ht. unfold hawk_aligned_alloc, CheckInitialized, aligned_fails.
  destruct (gl_initialised s) eqn:Hinit; cbn [negb]; [|by apply mmap_alloc_aligned_spec].
  destruct (align_ceil_spec AdditionalSize al) as (off & -> & Eoff & Hoff & Hmod);
    [unfold AdditionalSize; lia..|]. step_ret. unfold AdditionalSize in Hoff, Eoff. rewrite <- Eoff.
  rewrite u64_small by (unfold is_u64; lia). rewrite u32_small by (unfold is_u32; lia).
  pose proof (aligned_law (hk_libc s) al (size + off) ltac:(lia) ltac:(unfold is_u64; lia)) as Hl.
  destruct (libc_aligned_alloc _ _ _) as [base l]. destruct Hl as [[-> El]|(Hne & Hfr & Hbal & El)].
  { eexists _, _. split; [done|]. split; [by apply refused|done]. }
  cbn [fst]. destruct (Z.eqb_spec base 0); [done|]. cbv zeta.
  destruct (tail_spec n f s es user th base size off l (hk_bytes s))
    as (trace & s2 & s3 & s4 & E1 & E2 & E3 & Hm & Hb & Hg); [done..|lia|lia|lia|].
  change (with_bytes (with_libc s l) (hk_bytes s)) with (with_libc s l) in E1.
  rewrite E1. step_ret. rewrite E2. step_ret. rewrite E3. step_ret.
  eexists _, s4. split; [done|]. split; [|split; [destruct Hfr; lia|done]]. split; [done|]. split.
  - by intros q i a _ _; rewrite Hb.
  - right. split; [|done]. apply mod_add; [lia|done..].
Qed.

(** The result code is the one of libc, and something is stored exactly when it is zero; before
    initialisation it is always zero and a failure is a null pointer. *)
Lemma hawk_posix_memalign_spec n f s es user th al size :
  hawk_inv (S n) f s es user → 0 ≤ f th < 7 → 0 ≤ size → 0 < al < 2 ^ 31 →
  size + 16 + al < 2 ^ 64 →
  ∃ res mp s', hawk_posix_memalign self_profiling uninit s th al size = Ret (res, mp, s')
    ∧ replies n f s es user size al (default 0 mp) s'
    ∧ (default 0 mp = 0 ↔ memalign_fails s al size = true)
    ∧ res = (if gl_initialised s then memalign_code s al size else 0)
    ∧ (res = 0 ↔ is_Some mp).
Proof.
  intros Hi Hf Hs Hal Ht. unfold hawk_posix_memalign, CheckInitialized, memalign_fails, memalign_code.
  destruct (gl_initialised s) eqn:Hinit; cbn [negb].
  2:{ destruct (mmap_alloc_aligned_spec n f s es user size al) as (p & s' & -> & Hr & Hz); [done..|].
      step_ret. by exists 0, (Some p), s'. }
  destruct (align_ceil_spec AdditionalSize al) as (off & -> & Eoff & Hoff & Hmod);
    [unfold AdditionalSize; lia..|]. step_ret. unfold AdditionalSize in Hoff, Eoff. rewrite <- Eoff.
  rewrite u64_small by (unfold is_u64; lia). rewrite u32_small by (unfold is_u32; lia).
  pose proof (memalign_law (hk_libc s) al (size + off) ltac:(lia) ltac:(unfold is_u64; lia)) as Hl.
  destruct (libc_posix_memalign _ _ _) as [[res base] l].
  destruct Hl as [[Hres El]|(-> & Hne & [[-> _]|(_ & Hfr & Hbal & El)])]; [|done|].
  { cbn [fst]. destruct (Z.eqb_spec res 0); [done|]. cbn [negb]. exists res, None, (with_libc s l).
    split; [done|]. split; [by apply refused|]. split; [done|]. split; [done|]. split; [done|by intros [? ?]]. }
  cbn [fst negb Z.eqb]. cbv zeta.
  destruct (tail_spec n f s es user th base size off l (hk_bytes s))
    as (trace & s2 & s3 & s4 & E1 & E2 & E3 & Hm & Hb & Hg); [done..|lia|lia|lia|].
  change (with_bytes (with_libc s l) (hk_bytes s)) with (with_libc s l) in E1.
  rewrite E1. step_ret. rewrite E2. step_ret. rewrite E3. step_ret.
  eexists _, (Some (base + off)), s4. split; [done|]. split; [split; [done|]; split|].
  - by intros q i a _ _; rewrite Hb.
  - right. split; [|done]. apply mod_add; [lia|done..].
  - split; [|done]. cbn. split; [destruct Hfr; lia|done].
Qed.

Lemma hawk_calloc_spec n f s es user th nm size :
  hawk_inv (S n) f s es user → 0 ≤ f th < 7 → 0 ≤ nm → 0 ≤ size →
  (nm * size < 2 ^ 64 → nm * size + 16 < 2 ^ 64) →
  ∃ p s', hawk_calloc self_profiling uninit s th nm size = Ret (p, s')
    ∧ replies n f s es user (nm * size) 16 p s' ∧ zeroed s' p (nm * size)
    ∧ (p = 0 ↔ (2 ^ 64 <=? nm * size) || calloc_fails s (nm * size) = true).
Proof.
  intros Hi Hf Hnm Hs Ht. assert (Hpos : 0 ≤ nm * size) by (by apply Z.mul_nonneg_nonneg).
  unfold hawk_calloc, CheckInitialized, calloc_fails. destruct (Z.leb_spec (2 ^ 64) (nm * size)).
  { exists 0, s. split; [done|]. split; [|split; [by left|done]]. split; [done|]. split; [done|].
    left. split; [done|]. by apply hawk_inv_le. }
  specialize (Ht ltac:(lia)). rewrite (u64_small (nm * size)) by (unfold is_u64; lia).
  destruct (gl_initialised s) eqn:Hinit; cbn [negb].
  2:{ destruct (mmap_malloc_spec n f s es user (nm * size)) as (p & s' & E & Hr & Hz & Hno); [done..|].
      by exists p, s'. }
  unfold AdditionalSize. rewrite u64_small by (unfold is_u64; lia).
  pose proof (calloc_law (hk_libc s) 1 (nm * size + 16) ltac:(unfold is_u64; lia)) as Hl.
  destruct (libc_calloc _ _ _) as [base l]. rewrite Z.mul_1_l in Hl.
  destruct Hl as [[-> El]|(Hne & Hfr & Hal & El)].
  { eexists _, _. split; [done|]. split; [by apply refused|]. split; [by left|done]. }
  cbn [fst orb]. destruct (Z.eqb_spec base 0); [done|]. cbv zeta.
  destruct (tail_spec n f s es user th base (nm * size) 16 l
    (fill (hk_bytes (with_libc s l)) base (nm * size + 16) 0))
    as (trace & s2 & s3 & s4 & E1 & E2 & E3 & Hm & Hb & Hg); [done..|lia|lia|lia|].
  rewrite E1. step_ret. rewrite E2. step_ret. rewrite E3. step_ret.
  eexists _, s4. split; [done|]. split; [split; [done|]; split|split].
  - apply (tail_kept (S n) f s s4 es user base (nm * size + 16)); try done.
    intros a Ha. rewrite Hb. by apply fill_out.
  - right. split; [|done]. by apply mod_add.
  - right. intros a Ha. rewrite Hb. apply fill_in. lia.
  - split; [destruct Hfr; lia|done].
Qed.

(** *** Deallocation *)

Definition freed_events info : list event :=
  if decide (info_traceId info = InvalidTraceId) then [] else [EvFree info].

Lemma user_block n f s es user p info : hawk_inv n f s es user → user !! p = Some info →
  header_ok (live (hk_libc s)) p info.
Proof. intros Hi Hp. by apply (hp_user _ _ _ (hi_heap _ _ _ _ _ Hi)). Qed.

(** Unmapping the block of an untracked pointer. *)
Lemma mmap_free_spec n f s es user p info : hawk_inv n f s es user → user !! p = Some info →
  info_traceId info = InvalidTraceId →
  ∃ l, mmap_free s (p - info_offset info) info = Ret (with_libc s l)
    ∧ live l = delete (p - info_offset info) (live (hk_libc s))
    ∧ hawk_inv n f (with_libc s l) es (delete p user).
Proof.
  intros Hi Hp Hid. destruct (user_block _ _ _ _ _ _ _ Hi Hp) as [Ho Hs Ht (o & Hb & Horig) _].
  rewrite (proj2 Horig Hid) in Hb. unfold mmap_free, call_munmap. rewrite Hb, u64_small by (unfold is_u64; lia).
  rewrite Z.eqb_refl. pose proof (munmap_law _ _ _ Hb) as El. eexists. split; [done|]. split; [done|].
  destruct Hi as [H1 H2 H3 H4 H5 H6]. split; try done.
  - cbn. rewrite El. by apply heap_remove.
  - intros Hr. destruct (H5 Hr). split; [done|]. by eapply balanced_untracked_free.
  - intros Hr q i Hq. apply lookup_delete_Some in Hq as [_ Hq]. by apply (H6 Hr q).
Qed.

Lemma track_none s es : track_of s es [] = es.
Proof. unfold track_of. destruct (gl_memhawkReady s); [apply app_nil_r|done]. Qed.

Lemma hawk_free_spec n f s es user th p info :
  hawk_inv (S n) f s es user → 0 ≤ f th < 7 → user !! p = Some info →
  ∃ s', hawk_free self_profiling uninit s th p = Ret s' ∧ same_mode s s' ∧ hk_bytes s' = hk_bytes s
    ∧ live (hk_libc s') = delete (p - info_offset info) (live (hk_libc s))
    ∧ hawk_inv n f s' (track_of s es (freed_events info)) (delete p user).
Proof.
  intros Hi Hf Hp. destruct (user_block _ _ _ _ _ _ _ Hi Hp) as [Ho Hs Ht (o & Hb & Horig) Hpos].
  unfold hawk_free. destruct (Z.eqb_spec p 0); [lia|]. rewrite (read_header_spec _ _ _ _ _ _ _ Hi Hp).
  step_ret. unfold freed_events. destruct (Z.eqb_spec (info_traceId info) InvalidTraceId) as [Hid|Hid].
  { destruct (mmap_free_spec _ _ _ _ _ _ _ Hi Hp Hid) as (l & E & El & Hi'). eexists.
    split; [exact E|]. split_and!; try done. rewrite decide_True, track_none by done. by apply hawk_inv_le. }
  rewrite decide_False by done. unfold CheckInitialized.
  destruct (gl_initialised s) eqn:Hinit; cbn [negb]; [|by destruct (Hid (hi_before _ _ _ _ _ Hi Hinit p info Hp))].
  destruct o; [|by destruct (Hid (proj1 Horig eq_refl))].
  destruct (enter_spec f s th MinUnwindDepth) as (trace & g & -> & Hg & _); [apply Hi|done|done|]. step_ret.
  pose proof (free_law _ _ _ Hb) as El.
  assert (∃ m, (match GetMemHawk (with_guard s th g) with
     | Some memhawk => m ← prof_TrackDealloc memhawk th info (IsExternal (guard_of (with_guard s th g) th));
                       Ret (with_memhawk (with_guard s th g) m)
     | None => Ret (with_guard s th g) end) = Ret (with_memhawk (with_guard s th g) m)
     ∧ (gl_memhawkReady s = true → prof_inv n m (es ++ [EvFree info]))) as (m & -> & Hprof).
  { unfold GetMemHawk. cbn [gl_memhawkReady with_guard gl_memhawk].
    destruct (gl_memhawkReady s) eqn:Er; [|by exists (gl_memhawk s)].
    set (ext := IsExternal _). destruct (hi_prof _ _ _ _ _ Hi Er) as [Hpr [_ Htr]].
    destruct (prof_dealloc n (gl_memhawk s) es th info ext Hpr (Htr p info Hp Hid)) as (m & -> & Hm). by exists m. }
  step_ret. unfold call_free. cbn [hk_libc with_memhawk with_guard]. rewrite Hb. step_ret.
  destruct (leave_spec f (with_libc (with_memhawk (with_guard s th g) m)
    (libc_free (hk_libc s) (p - info_offset info))) th) as (g' & E & Hg'); [exact Hg|done|].
  eexists. split; [exact E|]. split; [done|]. split; [done|]. split; [done|].
  destruct Hi as [H1 H2 H3 H4 H5 H6]. split; try done.
  - cbn. rewrite El. by apply heap_remove.
  - cbn. intros Hr. unfold track_of. rewrite Hr. split; [by apply Hprof|].
    apply balanced_free; [done|]. by apply H5.
  - cbn. intros Hr. by rewrite Hinit in Hr.
Qed.

(** *** Reallocation *)

(** The first bytes of the old block are in the new one, nobody else's bytes changed. *)
Definition moved user s s' (p oldsize q size : Z) : Prop :=
  contents_kept (delete p user) s s' ∧
  ∀ i, 0 ≤ i < Z.min oldsize size → hk_bytes s' (q + i) = hk_bytes s (p + i).

(** [p] was replaced by [q] with at least [size] bytes. *)
Definition replaced n f s es user (p : Z) prev (size q : Z) s' : Prop :=
  ∃ info, 0 < q ∧ delete p user !! q = None ∧ size ≤ info_size info ∧
    (info_offset prev mod 16 = 0 → q mod 16 = 0) ∧
    hawk_inv n f s' (track_of s es (freed_events prev ++ [EvAlloc info])) (<[q := info]> (delete p user)) ∧
    moved user s s' p (info_size prev) q size.

(** A block of the time before initialisation is copied and unmapped. *)
Lemma move_spec n f s0 s es user p prev q size :
  user !! p = Some prev → info_traceId prev = InvalidTraceId →
  same_mode s0 s → contents_kept user s0 s → q mod 16 = 0 → 0 ≤ size →
  granted n f s0 es user size q s →
  ∃ s1 l, memcpy s q p (Z.min (info_size prev) size) = Ret s1 ∧
    mmap_free s1 (p - info_offset prev) prev = Ret (with_libc s1 l) ∧
    same_mode s0 (with_libc s1 l) ∧
    replaced n f s0 es user p prev size q (with_libc s1 l).
Proof.
  intros Hp Hid Hm Hk Hal Hsz (info & Hnone & Hq & Hsize & Hi).
  assert (Hpq : p ≠ q) by congruence.
  assert (Hp' : <[q := info]> user !! p = Some prev) by (by rewrite lookup_insert_ne).
  assert (Hq' : <[q := info]> user !! q = Some info) by apply lookup_insert_eq.
  pose proof (user_block _ _ _ _ _ _ _ Hi Hp') as Hbp. pose proof (user_block _ _ _ _ _ _ _ Hi Hq') as Hbq.
  unfold memcpy. rewrite (user_within _ q info) by (done || lia).
  rewrite (user_within _ p prev) by (done || lia). cbn [andb].
  set (b := copy _ _ _ _).
  assert (Hi1 : hawk_inv n f (with_bytes s b) (track_of s0 es [EvAlloc info]) (<[q := info]> user)).
  { destruct Hi as [H1 H2 H3 H4 H5 H6]. by split. }
  destruct (mmap_free_spec _ _ _ _ _ _ _ Hi1 Hp' Hid) as (l & E & El & Hi2).
  eexists _, l. split; [done|]. split; [exact E|]. split; [done|].
  exists info. split; [done|]. split; [by rewrite lookup_delete_ne|]. split; [done|]. split; [done|].
  rewrite delete_insert_ne in Hi2 by done. unfold freed_events. rewrite decide_True by done.
  split; [exact Hi2|]. split.
  - intros r i a [Hrp Hr]%lookup_delete_Some Ha. cbn. subst b.
    rewrite copy_out; [by apply (Hk r i)|].
    assert (r ≠ q) by congruence.
    destruct (users_apart _ _ _ r q i info (hi_heap _ _ _ _ _ Hi)) as [?|?];
      [by rewrite lookup_insert_ne|done|done| |];
      pose proof (ho_offset _ _ _ Hbq); [lia|].
    assert (Hr' : <[q := info]> user !! r = Some i) by (by rewrite lookup_insert_ne).
    pose proof (ho_offset _ _ _ (user_block _ _ _ _ _ _ _ Hi Hr')). lia.
  - intros i Hir. cbn. subst b. rewrite copy_in by lia.
    replace (p + (q + i - q)) with (p + i) by lia. apply (Hk p prev); [done|]. lia.
Qed.

(** The reply to a reallocation: nothing happened, or the block was replaced. *)
Definition realloc_replies n f s es user p prev (size q : Z) s' : Prop :=
  same_mode s s' ∧
  (q = 0 ∧ hawk_inv n f s' es user ∧ contents_kept user s s' ∨
   replaced n f s es user p prev size q s') ∧
  (q = 0 ↔ realloc_fails s p prev size = true).

Lemma mmap_realloc_spec n f s es user p prev size :
  hawk_inv (S n) f s es user → gl_initialised s = false → user !! p = Some prev →
  0 ≤ size → size + 16 < 2 ^ 64 →
  ∃ q s', mmap_realloc s p size = Ret (q, s') ∧ realloc_replies n f s es user p prev size q s'.
Proof.
  intros Hi Hinit Hp Hs Ht. pose proof (user_block _ _ _ _ _ _ _ Hi Hp) as [Ho _ _ _ Hpos].
  unfold mmap_realloc. destruct (Z.eqb_spec p 0); [lia|].
  rewrite (read_header_spec _ _ _ _ _ _ _ Hi Hp). step_ret.
  destruct (mmap_malloc_spec n f s es user size Hi Hinit Hs Ht) as (q & s' & -> & (Hm & Hk & Hr) & _ & Hno).
  assert (Hno' : q = 0 ↔ realloc_fails s p prev size = true) by (unfold realloc_fails, malloc_fails; by rewrite Hinit).
  step_ret. destruct Hr as [[-> Hi']|[Hal Hg]].
  { exists 0, s'. split; [done|]. split; [done|]. split; [by left|done]. }
  destruct (Z.eqb_spec q 0); [destruct Hg as (? & _ & ? & _); lia|].
  destruct (move_spec n f s s' es user p prev q size) as (s1 & l & -> & E2 & Hm' & Hrep); [done| |done..|].
  { by apply (hi_before _ _ _ _ _ Hi Hinit p). }
  step_ret. rewrite E2. step_ret. eexists q, _. split; [done|]. split; [done|]. split; [by right|done].
Qed.

(** The block is libc's: libc moves it and the profiler sees a free and an allocation. *)
Lemma libc_realloc_spec n f s es user th p prev size g trace :
  hawk_inv (S n) f s es user → user !! p = Some prev → info_traceId prev ≠ InvalidTraceId →
  gl_initialised s = true → 0 ≤ size → size + info_offset prev < 2 ^ 64 →
  guards_at (bump f th) (with_guard s th g) → words_ok trace → 0 ≤ f th < 7 →
  ∃ q s', ('(res, s) ←
        ('(realloced, s) ← call_realloc (with_guard s th g) (p - info_offset prev)
                             (u64 (size + info_offset prev));
         if realloced =? 0 then Ret (0, s)
         else
           s ← TrackReallocation s th (realloced + info_offset prev) size (info_offset prev) prev trace;
           Ret (realloced + info_offset prev, s));
        s ← leave_stacktrace self_profiling s th; Ret (res, s)) = Ret (q, s') ∧
    realloc_replies n f s es user p prev size q s'.
Proof.
  intros Hi Hp Hid Hinit Hs Ht Hg Hw Hf.
  destruct (user_block _ _ _ _ _ _ _ Hi Hp) as [Ho Hsz Htot (o & Hb & Horig) Hpos].
  destruct o; [|by destruct (Hid (proj1 Horig eq_refl))].
  unfold call_realloc. cbn [hk_libc with_guard]. rewrite Hb, u64_small by (unfold is_u64; lia).
  pose proof (realloc_law (hk_libc s) _ _ (size + info_offset prev) Hb ltac:(unfold is_u64; lia) ltac:(lia)) as Hl.
  unfold realloc_replies, realloc_fails. rewrite Hinit, (proj2 (Z.eqb_neq _ _) Hid). cbn [negb andb].
  destruct (libc_realloc _ _ _) as [base l]. cbn [fst].
  destruct Hl as [[-> El]|(Hne & [[-> _]|(_ & Hfr & Hal & El)])]; [|done|].
  { rewrite Z.eqb_refl. step_ret. rewrite Z.eqb_refl. step_ret.
    destruct (leave_spec f (with_libc (with_guard s th g) l) th) as (g' & -> & Hg'); [exact Hg|done|].
    step_ret. eexists 0, _. split; [done|]. split; [done|]. split; [|done]. left. split; [done|]. split; [|done].
    apply hawk_inv_le. destruct Hi as [H1 H2 H3 H4 H5 H6]. split; try done. cbn. by rewrite El. }
  rewrite (proj2 (Z.eqb_neq base 0) Hne). step_ret. rewrite (proj2 (Z.eqb_neq base 0) Hne).
  set (b := copy _ _ _ _).
  set (s3 := with_bytes _ b).
  destruct (TrackReallocation_spec n s3 es th (base + info_offset prev) size (info_offset prev) prev trace)
    as (info & m & -> & (T1 & T2 & T3) & Hprof); [|done| |].
  { intros Hr. destruct (hi_prof _ _ _ _ _ Hi Hr) as [Hpr [_ Htr]]. split; [done|by apply (Htr p)]. }
  { cbn. rewrite El. eapply within_block_in; [apply lookup_insert_eq|lia|lia]. }
  do 2 step_ret. cbn in T1, T2.
  destruct (leave_spec f (with_headers (with_memhawk s3 m)
    (<[base + info_offset prev - 16 := info]> (hk_headers s3))) th) as (g' & -> & Hg'); [exact Hg|done|].
  step_ret. eexists _, _. split; [done|]. split; [done|].
  split; [right; exists info|split; [destruct Hfr; lia|done]].
  pose proof (heap_remove _ _ _ _ _ (hi_heap _ _ _ _ _ Hi) Hp) as Hh.
  destruct (heap_add _ _ _ base (size + info_offset prev) (base + info_offset prev) info OLibc Hh Hfr)
    as [Hh' Hnone]; [lia..|done|].
  split; [destruct Hfr; lia|]. split; [done|]. split; [lia|].
  split; [intros ?; by apply mod_add|]. split; [|split].
  - destruct Hi as [H1 H2 H3 H4 H5 H6]. split; try done.
    + cbn. by rewrite El.
    + cbn. intros Hr. unfold track_of, freed_events. rewrite Hr, decide_False by done.
      split; [by apply Hprof|].
      rewrite (assoc (++)). apply balanced_alloc; [done|]. apply balanced_free; [done|]. by apply H5.
    + cbn. intros Hr. by rewrite Hinit in Hr.
  - intros q i a Hq Ha. cbn. subst b. apply copy_out.
    pose proof (fresh_kept _ _ _ _ _ q i a Hh Hfr Hq Ha). lia.
  - intros i Hir. cbn. subst b. rewrite copy_in by lia. f_equal. lia.
Qed.

Lemma hawk_realloc_spec n f s es user th p prev size :
  hawk_inv (S n) f s es user → 0 ≤ f th < 6 → user !! p = Some prev →
  0 ≤ size → size + info_offset prev < 2 ^ 64 →
  ∃ q s', hawk_realloc self_profiling uninit s th p size = Ret (q, s')
    ∧ realloc_replies n f s es user p prev size q s'.
Proof.
  intros Hi Hf Hp Hs Ht. pose proof (user_block _ _ _ _ _ _ _ Hi Hp) as [Ho _ _ _ Hpos].
  unfold hawk_realloc, CheckInitialized.
  destruct (gl_initialised s) eqn:Hinit; cbn [negb]; [|apply mmap_realloc_spec; done || lia].
  destruct (Z.eqb_spec p 0); [lia|].
  destruct (enter_spec f s th (TrackDepth s)) as (trace & g & -> & Hg & Hw); [apply Hi|lia|apply Hi|].
  step_ret. pose proof (hawk_inv_guard _ _ _ _ _ _ _ _ Hi Hg) as Hi1.
  rewrite (read_header_spec _ _ _ _ _ _ _ Hi1 Hp). step_ret.
  destruct (Z.eqb_spec (info_traceId prev) InvalidTraceId) as [Hid|Hid].
  2:{ apply (libc_realloc_spec n f s es user th p prev size g trace); done || lia. }
  destruct (hawk_malloc_spec n (bump f th) (with_guard s th g) es user th size Hi1)
    as (q & s2 & -> & Hrep & Hno); [unfold bump; rewrite decide_True by done; lia|lia|lia|].
  assert (Hno' : q = 0 ↔ realloc_fails s p prev size = true)
    by (unfold realloc_fails; by rewrite (proj2 (Z.eqb_eq _ _) Hid), andb_false_r).
  step_ret. destruct Hrep as (Hm & Hk & Hr). destruct Hr as [[-> Hi2]|[Hal Hgr]].
  { rewrite Z.eqb_refl. step_ret. destruct (leave_spec f s2 th) as (g' & -> & Hg'); [apply Hi2|lia|].
    step_ret. eexists 0, _. split; [done|]. split; [done|]. split; [left|done]. split; [done|].
    split; [|done]. by eapply hawk_inv_guard. }
  destruct (Z.eqb_spec q 0); [destruct Hgr as (? & _ & ? & _); lia|].
  destruct (move_spec n (bump f th) (with_guard s th g) s2 es user p prev q size)
    as (s3 & l & -> & E2 & Hm' & (info & R1 & R2 & R3 & R4 & Hi3 & R5)); [done..|].
  step_ret. rewrite E2. do 2 step_ret.
  destruct (leave_spec f (with_libc s3 l) th) as (g' & -> & Hg'); [apply Hi3|lia|]. step_ret.
  eexists q, _. split; [done|]. split; [done|]. split; [right|done]. exists info. split_and!; try done.
  by eapply hawk_inv_guard.
Qed.

(** *** Clients *)

(** The state of the system and the pointers the program holds. *)
Record Client := mkClient { cl_hawk : hawk; cl_user : gmap Z AllocInfo }.

Inductive request :=
| RMalloc th (size : Z)
| RCalloc th (nm size : Z)
| RAlignedAlloc th (al size : Z)
| RMemalign th (al size : Z)
| RValloc th (size : Z)
| RPvalloc th (size : Z)
| RRealloc th p (size : Z)
| RFree th p
| RNew (f : new_form) th (size : Z)
| RRelease (f : free_form) th p
| RDl                                 (* dlopen or dlclose *)
| RInit (profiler : option (M * Z * bool))
| RDeinit
| REnter th                           (* the profiler's own code starts on a thread *)
| RLeave th
| RBackground (a : prof_action).      (* the profiler's own activity *)

(** The program learns a pointer; its header is what is in front of it. *)
Definition hand s user p : users :=
  if p =? 0 then user
  else match hk_headers s !! (p - 16) with Some info => <[p := info]> user | None => user end.

(** What the caller sees: nothing, a pointer, or the result code of [posix_memalign] and what it
    stored in [*memptr], if anything. *)
Inductive reply := Nothing | Pointer (p : Z) | Code (res : Z) (stored : option Z).

Definition reply_ptr (v : reply) : Z :=
  match v with Pointer p => p | Code _ stored => default 0 stored | Nothing => 0 end.

Definition serve_alloc user (r : outcome (Z * hawk)) : outcome (reply * Client) :=
  '(p, s) ← r; Ret (Pointer p, mkClient s (hand s user p)).

(** Performs a request. *)
Definition serve (c : Client) (r : request) : outcome (reply * Client) :=
  let s := cl_hawk c in let user := cl_user c in
  match r with
  | RMalloc th size => serve_alloc user (hawk_malloc self_profiling uninit s th size)
  | RCalloc th nm size => serve_alloc user (hawk_calloc self_profiling uninit s th nm size)
  | RAlignedAlloc th al size => serve_alloc user (hawk_aligned_alloc self_profiling uninit s th al size)
  | RMemalign th al size =>
    '(res, mp, s) ← hawk_posix_memalign self_profiling uninit s th al size;
    Ret (Code res mp, mkClient s (hand s user (default 0 mp)))
  | RValloc th size => serve_alloc user (hawk_valloc self_profiling uninit s th size)
  | RPvalloc th size => serve_alloc user (hawk_pvalloc self_profiling uninit s th size)
  | RRealloc th p size =>
    '(q, s) ← hawk_realloc self_profiling uninit s th p size;
    Ret (Pointer q, mkClient s (hand s (if q =? 0 then user else delete p user) q))
  | RFree th p => s ← hawk_free self_profiling uninit s th p; Ret (Nothing, mkClient s (delete p user))
  | RNew f th size =>
    serve_alloc user ('(r, s) ← operator_new self_profiling uninit f s th size; Ret (new_ptr r, s))
  | RRelease f th p => s ← release self_profiling uninit f s th p; Ret (Nothing, mkClient s (delete p user))
  | RDl => Ret (Nothing, mkClient (hawk_dl_hook s) user)
  | RInit profiler => Ret (Nothing, mkClient (init_memhawk s profiler) user)
  | RDeinit => Ret (Nothing, mkClient (deinit_memhawk s) user)
  | REnter th => Ret (Nothing, mkClient (with_guard s th (RecursionGuard_ctor (guard_of s th))) user)
  | RLeave th => Ret (Nothing, mkClient (with_guard s th (RecursionGuard_dtor (guard_of s th))) user)
  | RBackground a => m ← prof_act (gl_memhawk s) a; Ret (Nothing, mkClient (with_memhawk s m) user)
  end.

(** The bounds of a request.  Sizes leave room for the header in 64 bits, alignments are not zero
    and below 2^31, [valloc] and [pvalloc] wait for the initialisation; a pointer that is given back
    is null or one the program holds; the library is initialised once, with a profiler that meets
    its contract; the code of the profiler is nested at most five deep on a thread. *)
Definition allowed (n : nat) (c : Client) (r : request) : Prop :=
  let s := cl_hawk c in
  match r with
  | RMalloc _ size => 0 ≤ size ∧ size + 16 < 2 ^ 64
  | RCalloc _ nm size => 0 ≤ nm ∧ 0 ≤ size ∧ (nm * size < 2 ^ 64 → nm * size + 16 < 2 ^ 64)
  | RAlignedAlloc _ al size | RMemalign _ al size =>
    0 ≤ size ∧ 0 < al < 2 ^ 31 ∧ size + 16 + al < 2 ^ 64
  | RValloc _ size | RPvalloc _ size =>
    gl_initialised s = true ∧ 0 ≤ size ∧ 0 < getpagesize < 2 ^ 31 ∧
    size + 16 + 2 * getpagesize < 2 ^ 64
  | RRealloc _ p size =>
    0 ≤ size ∧ (p = 0 ∧ size + 16 < 2 ^ 64 ∨
                ∃ info, cl_user c !! p = Some info ∧ size + info_offset info < 2 ^ 64)
  | RFree _ p | RRelease _ _ p => p = 0 ∨ is_Some (cl_user c !! p)
  | RNew f _ size =>
    0 ≤ size ∧ match nf_alignment f with
               | None => size + 16 < 2 ^ 64
               | Some al => 0 < al < 2 ^ 31 ∧ size + 16 + al < 2 ^ 64
               end
  | RDl | RDeinit => True
  | RInit None => gl_initialised s = false
  | RInit (Some (m, depth, _)) => gl_initialised s = false ∧ 0 ≤ depth ∧ prof_inv n m []
  | REnter th => level (guard_of s th) < 5
  | RLeave th => 0 < level (guard_of s th)
  | RBackground a => gl_memhawkReady s = true ∧ prof_can (gl_memhawk s) a
  end.

(** The answer to an allocation. *)
Definition alloc_answer (c : Client) (size al p : Z) (c' : Client) : Prop :=
  contents_kept (cl_user c) (cl_hawk c) (cl_hawk c') ∧
  (p = 0 ∧ cl_user c' = cl_user c ∨
   0 < p ∧ p mod al = 0 ∧ cl_user c !! p = None ∧
   ∃ info, size ≤ info_size info ∧ cl_user c' = <[p := info]> (cl_user c)).

Definition realloc_answer (c : Client) p (size q : Z) (c' : Client) : Prop :=
  (q = 0 ∧ cl_user c' = cl_user c ∧ contents_kept (cl_user c) (cl_hawk c) (cl_hawk c')) ∨
  ∃ prev info, cl_user c !! p = Some prev ∧ size ≤ info_size info ∧ 0 < q ∧
    delete p (cl_user c) !! q = None ∧ cl_user c' = <[q := info]> (delete p (cl_user c)) ∧
    (info_offset prev mod 16 = 0 → q mod 16 = 0) ∧
    moved (cl_user c) (cl_hawk c) (cl_hawk c') p (info_size prev) q size.

(** There is no memory for the request. *)
Definition fails (c : Client) (r : request) : bool :=
  let s := cl_hawk c in
  match r with
  | RMalloc _ size => malloc_fails s size
  | RCalloc _ nm size => (2 ^ 64 <=? nm * size) || calloc_fails s (nm * size)
  | RAlignedAlloc _ al size => aligned_fails s al size
  | RMemalign _ al size => memalign_fails s al size
  | RValloc _ size => aligned_fails s getpagesize size
  | RPvalloc _ size => aligned_fails s getpagesize (round_up size getpagesize)
  | RRealloc _ p size =>
    match cl_user c !! p with Some prev => realloc_fails s p prev size | None => malloc_fails s size end
  | RNew f _ size =>
    match nf_alignment f with Some al => aligned_fails s al size | None => malloc_fails s size end
  | _ => false
  end.

(** What kind of reply a request has. *)
Definition reply_form (c : Client) (r : request) (v : reply) : Prop :=
  match r with
  | RMalloc _ _ | RCalloc _ _ _ | RAlignedAlloc _ _ _ | RValloc _ _ | RPvalloc _ _ | RRealloc _ _ _ | RNew _ _ _ =>
    ∃ p, v = Pointer p
  | RMemalign _ al size =>
    ∃ res stored, v = Code res stored ∧ (res = 0 ↔ is_Some stored)
      ∧ res = (if gl_initialised (cl_hawk c) then memalign_code (cl_hawk c) al size else 0)
  | _ => v = Nothing
  end.

(** What every request does for the program with the pointer [p] of its reply. *)
Definition effect (c : Client) (r : request) (p : Z) (c' : Client) : Prop :=
  match r with
  | RMalloc _ size => alloc_answer c size 16 p c'
  | RCalloc _ nm size => alloc_answer c (nm * size) 16 p c' ∧ zeroed (cl_hawk c') p (nm * size)
  | RAlignedAlloc _ al size | RMemalign _ al size => alloc_answer c size al p c'
  | RValloc _ size | RPvalloc _ size => alloc_answer c size getpagesize p c'
  | RRealloc _ q size => if q =? 0 then alloc_answer c size 16 p c' else realloc_answer c q size p c'
  | RNew f th size =>
    alloc_answer c size (default 16 (nf_alignment f)) p c' ∧
    (** a null pointer is returned by the forms with [std::nothrow], the others throw *)
    operator_new self_profiling uninit f (cl_hawk c) th size = Ret (new_outcome f p, cl_hawk c')
  | RFree _ q | RRelease _ _ q =>
    cl_user c' = delete q (cl_user c) ∧ hk_bytes (cl_hawk c') = hk_bytes (cl_hawk c) ∧
    ∀ info, cl_user c !! q = Some info →
      live (hk_libc (cl_hawk c')) = delete (q - info_offset info) (live (hk_libc (cl_hawk c)))
  | _ => cl_user c' = cl_user c ∧ hk_bytes (cl_hawk c') = hk_bytes (cl_hawk c)
         ∧ live (hk_libc (cl_hawk c')) = live (hk_libc (cl_hawk c))
  end.

(** The requests that are answered by a pointer. *)
Definition allocating (r : request) : bool :=
  match r with
  | RMalloc _ _ | RCalloc _ _ _ | RAlignedAlloc _ _ _ | RMemalign _ _ _ | RValloc _ _ | RPvalloc _ _
  | RRealloc _ _ _ | RNew _ _ _ => true
  | _ => false
  end.

(** The answer: its form and its effect, and a pointer exactly when there is memory. *)
Definition answer (c : Client) (r : request) (v : reply) (c' : Client) : Prop :=
  reply_form c r v ∧ effect c r (reply_ptr v) c' ∧
  (allocating r = true → (reply_ptr v = 0 ↔ fails c r = true)).

Definition client_inv n (c : Client) : Prop :=
  ∃ f es, hawk_inv n f (cl_hawk c) es (cl_user c) ∧ ∀ th, 0 ≤ f th < 6.

Lemma hand_spec n f s es user p info : hawk_inv n f s es (<[p := info]> user) → 0 < p →
  hand s user p = <[p := info]> user.
Proof.
  intros Hi Hp. unfold hand. destruct (Z.eqb_spec p 0); [lia|].
  destruct (hp_user _ _ _ (hi_heap _ _ _ _ _ Hi) p info) as [-> _]; [apply lookup_insert_eq|done].
Qed.

Lemma serve_alloc_spec n f s es user size al r p s' :
  (∀ th, 0 ≤ f th < 6) → r = Ret (p, s') → replies n f s es user size al p s' →
  ∃ c', serve_alloc user r = Ret (Pointer p, c') ∧ cl_hawk c' = s' ∧ client_inv n c' ∧
        alloc_answer (mkClient s user) size al p c'.
Proof.
  intros Hf -> (Hm & Hk & Hr). unfold serve_alloc. step_ret. eexists. split; [done|]. split; [done|].
  destruct Hr as [[-> Hi]|[Hal (info & Hnone & Hp & Hs & Hi)]].
  - split; [by exists f, es|]. split; [done|]. by left.
  - rewrite (hand_spec _ _ _ _ _ _ _ Hi Hp). split; [by eexists f, _|]. split; [done|].
    right. split_and!; try done. by exists info.
Qed.

Lemma hawk_pages_spec n f s es user th size : hawk_inv (S n) f s es user → 0 ≤ f th < 7 →
  gl_initialised s = true → 0 ≤ size → 0 < getpagesize < 2 ^ 31 → size + 16 + 2 * getpagesize < 2 ^ 64 →
  (∃ p s', hawk_valloc self_profiling uninit s th size = Ret (p, s') ∧ replies n f s es user size getpagesize p s'
    ∧ (p = 0 ↔ aligned_fails s getpagesize size = true)) ∧
  (∃ p s', hawk_pvalloc self_profiling uninit s th size = Ret (p, s') ∧ replies n f s es user size getpagesize p s'
    ∧ (p = 0 ↔ aligned_fails s getpagesize (round_up size getpagesize) = true)).
Proof.
  intros Hi Hf Hinit Hs Hpg Ht. unfold hawk_valloc, hawk_pvalloc, CheckInitialized.
  rewrite Hinit. cbn [negb]. rewrite (proj2 (Z.leb_gt getpagesize 0)) by lia. split.
  - apply hawk_aligned_alloc_spec; done || lia.
  - destruct (align_ceil_spec size getpagesize) as (c & -> & <- & Hc & _); [lia..|]. step_ret.
    destruct (hawk_aligned_alloc_spec n f s es user th getpagesize c) as (p & s' & E & (Hm & Hk & Hr) & Hno);
      [done..|lia|lia|lia|].
    exists p, s'. split; [done|]. split; [|done]. split; [done|]. split; [done|].
    destruct Hr as [?|[? (info & ? & ? & ? & ?)]]; [by left|right].
    split; [done|]. exists info. split_and!; try done. lia.
Qed.

Lemma serve_realloc_spec n c th p prev size : client_inv (S n) c → cl_user c !! p = Some prev →
  0 ≤ size → size + info_offset prev < 2 ^ 64 →
  ∃ q c', serve c (RRealloc th p size) = Ret (Pointer q, c') ∧ client_inv n c' ∧ realloc_answer c p size q c'
    ∧ (q = 0 ↔ realloc_fails (cl_hawk c) p prev size = true).
Proof.
  intros (f & es & Hi & Hf) Hp Hs Ht. unfold serve.
  destruct (hawk_realloc_spec n f (cl_hawk c) es (cl_user c) th p prev size)
    as (q & s' & -> & Hm & Hr & Hno); [done..|]. step_ret. eexists _, _. split; [done|].
  destruct Hr as [(-> & Hi' & Hk)|(info & Hq & Hnone & Hsz & Hal & Hi' & Hmv)].
  - split; [by exists f, es|]. split; [|done]. left. done.
  - destruct (Z.eqb_spec q 0); [lia|]. rewrite (hand_spec _ _ _ _ _ _ _ Hi' Hq).
    split; [by eexists f, _|]. split; [|done]. right. exists prev, info. done.
Qed.

Lemma serve_free_spec n c th p : client_inv (S n) c → p = 0 ∨ is_Some (cl_user c !! p) →
  ∃ c', serve c (RFree th p) = Ret (Nothing, c') ∧ client_inv n c' ∧ effect c (RFree th p) 0 c'.
Proof.
  intros (f & es & Hi & Hf) Hp. unfold serve. destruct (cl_user c !! p) as [info|] eqn:Ep.
  - destruct (hawk_free_spec n f (cl_hawk c) es (cl_user c) th p info) as (s' & -> & Hm & Hb & El & Hi');
      [done|specialize (Hf th); lia|done|]. step_ret.
    eexists. split; [done|]. split; [by eexists f, _|]. split_and!; try done.
    intros info' E. by assert (info' = info) as -> by congruence.
  - destruct Hp as [->|[? ?]]; [|done]. cbn. eexists. split; [done|].
    rewrite delete_id by done. split; [exists f, es; split; [by apply hawk_inv_le|done]|].
    split_and!; try done. congruence.
Qed.

Lemma guards_set f s th g k : guards_at f s → guard_at k g →
  guards_at (fun th' => if decide (th' = th) then k else f th') (with_guard s th g).
Proof. intros Hf Hg th'. rewrite guard_of_with. by case_decide. Qed.

(** Requests that are not about blocks. *)
Lemma serve_other_spec n c r : client_inv (S n) c → allowed n c r →
  match r with RDl | RInit _ | RDeinit | REnter _ | RLeave _ | RBackground _ => True | _ => False end →
  ∃ c', serve c r = Ret (Nothing, c') ∧ client_inv n c' ∧ effect c r 0 c'.
Proof.
  intros (f & es & Hi & Hf) Ha Hk. apply hawk_inv_le in Hi. pose proof Hi as [H1 H2 H3 H4 H5 H6].
  destruct r as [| | | | | | | | | | |[[[m depth] absl]|]| |th|th|a]; try done; cbn in *.
  - eexists. split; [done|]. unfold hawk_dl_hook, GetMemHawk. cbn.
    destruct (gl_memhawkReady (cl_hawk c)) eqn:Er; (split; [|done]); exists f, es; (split; [|done]);
      split; cbn; rewrite ?Er; try done.
    intros _. destruct (H5 eq_refl). split; [by apply prof_invalidate|done].
  - destruct Ha as (Hinit & Hd & Hm). eexists. split; [done|]. split; [|done].
    exists f, []. split; [|done]. split; cbn; try done. intros _. split; [done|].
    apply balanced_start. by apply H6.
  - eexists. split; [done|]. split; [|done]. exists f, es. split; [|done]. split; cbn; try done.
  - eexists. split; [done|]. split; [|done]. exists f, es. split; [|done]. by split.
  - eexists. split; [done|]. split; [|done]. destruct (H2 th) as [Hl Hz]. specialize (Hf th) as Hft.
    exists (fun th' => if decide (th' = th) then f th + 1 else f th'), es. split.
    + apply (hawk_inv_guard n f); [done|]. apply guards_set; [done|]. split; [|done]. cbn.
      rewrite Hl, u32_small; [done|]. unfold is_u32. lia.
    + intros th'. case_decide; [lia|apply Hf].
  - eexists. split; [done|]. split; [|done]. destruct (H2 th) as [Hl Hz]. specialize (Hf th) as Hft.
    exists (fun th' => if decide (th' = th) then f th - 1 else f th'), es. split.
    + apply (hawk_inv_guard n f); [done|]. apply guards_set; [done|]. split; [|done]. cbn.
      rewrite Hl, u32_small; [done|]. unfold is_u32. lia.
    + intros th'. case_decide; [lia|apply Hf].
  - destruct Ha as [Ha Hcan]. destruct (H5 Ha) as [Hp Hb]. destruct (prof_act_spec n _ es a Hp Hcan) as (m & -> & Hp').
    eexists. split; [done|]. split; [|done]. exists f, es. split; [|done]. by split.
Qed.

Lemma serve_new_spec n f s es user fo th size : hawk_inv (S n) f s es user → (∀ th, 0 ≤ f th < 6) →
  allowed n (mkClient s user) (RNew fo th size) →
  ∃ v c', serve (mkClient s user) (RNew fo th size) = Ret (v, c') ∧ client_inv n c'
    ∧ answer (mkClient s user) (RNew fo th size) v c'.
Proof.
  intros Hi Hf [Hs Ha]. specialize (Hf th) as Hft.
  assert (∃ p s', match nf_alignment fo with
    | None => hawk_malloc self_profiling uninit s th size
    | Some al => hawk_aligned_alloc self_profiling uninit s th al size
    end = Ret (p, s') ∧ replies n f s es user size (default 16 (nf_alignment fo)) p s'
    ∧ (p = 0 ↔ fails (mkClient s user) (RNew fo th size) = true)) as (p & s' & E & Hr & Hno).
  { cbn [fails cl_hawk]. destruct (nf_alignment fo) as [al|].
    - destruct Ha. apply hawk_aligned_alloc_spec; done || lia.
    - apply hawk_malloc_spec; done || lia. }
  apply operator_new_spec in E.
  destruct (serve_alloc_spec n f s es user size (default 16 (nf_alignment fo)) ('(r, s) ← operator_new self_profiling uninit fo s th size; Ret (new_ptr r, s))
    p s' Hf) as (c' & Es & Eh & Hc & Hans); [rewrite E; step_ret; by rewrite new_outcome_ptr|done|].
  exists (Pointer p), c'. split; [exact Es|]. split; [done|]. split; [by exists p|]. split; [|done].
  split; [done|]. by rewrite Eh.
Qed.

(** [realloc] of a null pointer is [malloc]. *)
Lemma hawk_realloc_null s th size :
  hawk_realloc self_profiling uninit s th 0 size = hawk_malloc self_profiling uninit s th size.
Proof. unfold hawk_realloc, hawk_malloc, mmap_realloc. by destruct (CheckInitialized s). Qed.

Lemma null_unused n f s es user : hawk_inv n f s es user → delete 0 user = user.
Proof.
  intros Hi. apply delete_id. destruct (user !! 0) as [info|] eqn:E; [|done].
  destruct (user_block _ _ _ _ _ _ _ Hi E) as [? _ _ _ ?]. lia.
Qed.

(** An allocation that is answered as [replies] says. *)
Lemma serve_pointer n f s es user r size al o p s' :
  (∀ th, 0 ≤ f th < 6) → o = Ret (p, s') → replies n f s es user size al p s' →
  serve (mkClient s user) r = serve_alloc user o → reply_form (mkClient s user) r (Pointer p) →
  (p = 0 ↔ fails (mkClient s user) r = true) →
  (∀ c', cl_hawk c' = s' → alloc_answer (mkClient s user) size al p c' → effect (mkClient s user) r p c') →
  ∃ v c', serve (mkClient s user) r = Ret (v, c') ∧ client_inv n c' ∧ answer (mkClient s user) r v c'.
Proof.
  intros Hf E Hr Es Hform Hno Heff. destruct (serve_alloc_spec _ _ _ _ _ _ _ _ _ _ Hf E Hr) as (c' & E' & Eh & Hc & Ha).
  exists (Pointer p), c'. rewrite Es. split; [done|]. split; [done|]. split; [done|]. split; [by apply Heff|done].
Qed.

Lemma serve_spec n c r : client_inv (S n) c → allowed n c r →
  ∃ v c', serve c r = Ret (v, c') ∧ client_inv n c' ∧ answer c r v c'.
Proof.
  intros Hc Ha. pose proof Hc as (f & es & Hi & Hf).
  assert (Hf7 : ∀ th, 0 ≤ f th < 7) by (intros th; specialize (Hf th); lia).
  destruct c as [s user]. cbn [cl_hawk cl_user] in Hi.
  destruct r as [th size|th nm size|th al size|th al size|th size|th size|th p size|th p|fo th size|fo th p| |pr| |th|th|a];
    try (destruct (serve_other_spec n (mkClient s user) _ Hc Ha) as (c' & ? & ? & ?);
         [done|by exists Nothing, c']).
  - destruct Ha as [? ?]. destruct (hawk_malloc_spec n f s es user th size) as (p & s' & E & Hr & Hno); [done..|].
    eapply serve_pointer; eauto; by eexists.
  - destruct Ha as (? & ? & ?).
    destruct (hawk_calloc_spec n f s es user th nm size) as (p & s' & E & Hr & Hz & Hno); [done..|].
    eapply serve_pointer; eauto; [by eexists|]. intros c' Eh Hans. split; [done|]. by rewrite Eh.
  - destruct Ha as (? & ? & ?).
    destruct (hawk_aligned_alloc_spec n f s es user th al size) as (p & s' & E & Hr & Hno); [done..|].
    eapply serve_pointer; eauto; by eexists.
  - destruct Ha as (? & ? & ?).
    destruct (hawk_posix_memalign_spec n f s es user th al size) as (res & mp & s' & E & Hr & Hno & Hres & Hmp); [done..|].
    destruct (serve_alloc_spec n f s es user size al (Ret (default 0 mp, s')) (default 0 mp) s' Hf eq_refl Hr) as (c' & Es & _ & ? & ?).
    injection Es as <-. exists (Code res mp). eexists. split; [unfold serve; cbn [cl_hawk cl_user]; rewrite E; by step_ret|].
    split; [done|]. split; [by exists res, mp|]. done.
  - destruct Ha as (? & ? & ? & ?).
    destruct (hawk_pages_spec n f s es user th size) as [(p & s' & E & Hr & Hno) _]; [done..|].
    eapply serve_pointer; eauto; by eexists.
  - destruct Ha as (? & ? & ? & ?).
    destruct (hawk_pages_spec n f s es user th size) as [_ (p & s' & E & Hr & Hno)]; [done..|].
    eapply serve_pointer; eauto; by eexists.
  - destruct Ha as [Hs [[-> Ht]|(info & Hp & Ht)]].
    + destruct (hawk_malloc_spec n f s es user th size) as (p & s' & E & Hr & Hno); [done..|].
      pose proof (null_unused _ _ _ _ _ Hi) as Hnull.
      eapply serve_pointer; eauto.
      * unfold serve, serve_alloc. cbn [cl_hawk cl_user]. rewrite hawk_realloc_null, Hnull, E. step_ret. by destruct (p =? 0).
      * by eexists.
      * cbn [fails cl_user]. by rewrite <- Hnull, lookup_delete_eq.
    + destruct (serve_realloc_spec n (mkClient s user) th p info size) as (q & c' & ? & ? & ? & Hno); [done..|].
      exists (Pointer q), c'. split; [done|]. split; [done|]. split; [by exists q|]. split; cbn.
      * pose proof (user_block _ _ _ _ _ _ _ Hi Hp) as [? _ _ _ ?]. destruct (Z.eqb_spec p 0); [lia|done].
      * intros _. cbn in Hp. by rewrite Hp.
  - destruct (serve_free_spec n (mkClient s user) th p Hc Ha) as (c' & ? & ? & ?). by exists Nothing, c'.
  - destruct (serve_new_spec n f s es user fo th size) as (v & c' & ? & ? & ?); [done..|]. by exists v, c'.
  - destruct (serve_free_spec n (mkClient s user) th p Hc Ha) as (c' & E & ? & ?). exists Nothing, c'.
    split; [|done]. rewrite <- E. cbn. by rewrite release_free.
Qed.

(** *** Runs *)

(** Before anything was allocated: nothing of ours is live, nothing is initialised. *)
Definition unstarted (s : hawk) : Prop :=
  disjoint_blocks (live (hk_libc s)) ∧ gl_initialised s = false ∧ gl_memhawkReady s = false ∧
  0 ≤ TrackDepth s ∧ hk_guards s = ∅.

(** [n] requests may follow. *)
Inductive reachable : nat → Client → Prop :=
| reach_start n s : unstarted s → reachable n (mkClient s ∅)
| reach_step n c r v c' : reachable (S n) c → allowed n c r → serve c r = Ret (v, c') → reachable n c'.

Lemma reachable_inv n c : reachable n c → client_inv n c.
Proof.
  induction 1 as [n s (Hd & Hi & Hr & Hdep & Hg)|n c r v c' _ IH Ha E].
  - exists (fun _ => 0), []. split; [|intros; lia]. split; cbn; try done.
    + intros th. unfold guard_of. by rewrite Hg, lookup_empty.
    + congruence.
    + congruence.
  - destruct (serve_spec n c r IH Ha) as (v1 & c1 & E1 & Hc & _). congruence.
Qed.
End specs.

(** ** A libc and a profiler to run the functions with *)

Record Arena := mkArena { ar_next : Z; ar_live : blocks }.

Definition freshb (bs : blocks) (p n : Z) : bool :=
  bool_decide (0 < p ∧ p + n ≤ 2 ^ 64 ∧ bs !! p = None ∧
               map_Forall (fun q b => p + n ≤ q ∨ q + b.2 ≤ p) bs).

Lemma freshb_true bs p n : freshb bs p n = true → fresh_block bs p n.
Proof.
  intros (H1 & H2 & H3 & H4)%bool_decide_eq_true. split_and!; try done.
  intros q o m Hq. apply (H4 q (o, m) Hq).
Qed.

(** Takes a block when the next address happens to be fresh. *)
Definition take_block (a : Arena) (bs : blocks) (o : origin) (al n fail : Z) : Z * Arena :=
  let p := al * 2 ^ 16 * ar_next a in
  if freshb bs p n && negb (p =? fail) then (p, mkArena (ar_next a + 1) (<[p := (o, n)]> bs))
  else (fail, a).

Lemma take_block_spec a bs o al n fail : 0 < al →
  let '(p, a') := take_block a bs o al n fail in
  p = fail ∧ a' = a ∨ p ≠ fail ∧ fresh_block bs p n ∧ p mod al = 0 ∧ ar_live a' = <[p := (o, n)]> bs.
Proof.
  intros Hal. unfold take_block. destruct (freshb _ _ _) eqn:E; [|by left].
  destruct (Z.eqb_spec (al * 2 ^ 16 * ar_next a) fail); [by left|]. right. cbn [negb andb].
  split; [done|]. split; [by apply freshb_true|]. split; [|done].
  rewrite <- Z.mul_assoc, Z.mul_comm. apply Z.mod_mul. lia.
Qed.

#[export] Instance Arena_libc : Libc Arena := {
  live := ar_live;
  libc_malloc a n := take_block a (ar_live a) OLibc 16 n 0;
  libc_calloc a k n := take_block a (ar_live a) OLibc 16 (k * n) 0;
  libc_aligned_alloc a al n := take_block a (ar_live a) OLibc al n 0;
  libc_posix_memalign a al n :=
    let '(p, a') := take_block a (ar_live a) OLibc al n 0 in ((if p =? 0 then 12 else 0), p, a');
  libc_realloc a p n := take_block a (delete p (ar_live a)) OLibc 16 n 0;
  libc_free a p := mkArena (ar_next a) (delete p (ar_live a));
  os_mmap a n := take_block a (ar_live a) OMmap 4096 n MAP_FAILED;
  os_munmap a p n := mkArena (ar_next a) (delete p (ar_live a));
  getpagesize := 4096;
}.

#[export] Instance Arena_laws : LibcLaws Arena.
Proof.
  split; cbn -[take_block]; intros; try done.
  all: match goal with |- context [take_block ?a ?bs ?o ?al ?n ?fail] =>
    pose proof (take_block_spec a bs o al n fail ltac:(lia)) as Hs;
    destruct (take_block a bs o al n fail) as [p' a'] end.
  all: destruct Hs as [[-> ->]|(Hne & Hf & Hal & El)].
  all: try (by left); try (by right).
  - right. destruct (Z.eqb_spec p' 0); [done|]. split; [done|]. split; [done|]. by right.
  - right. split; [done|]. by right.
Qed.

(** A profiler that keeps the events. *)
Definition Ledger : Type := list event.

#[export] Instance Ledger_profiler : Profiler Ledger := {
  prof_TrackAlloc m _ info _ _ := Ret (set_traceId info 7, m ++ [EvAlloc (set_traceId info 7)]);
  prof_TrackDealloc m _ info _ := Ret (m ++ [EvFree info]);
  prof_TrackRealloc m _ prev info _ _ :=
    Ret (set_traceId info 7, m ++ [EvFree prev; EvAlloc (set_traceId info 7)]);
  prof_InvalidateModulesCache m := m;
  prof_action := unit;
  prof_act m _ := Ret m;
}.

#[export, refine] Instance Ledger_spec : ProfilerSpec Ledger := { prof_inv _ m es := m = es; prof_can _ _ := True }.
Proof. all: cbn; intros; subst; eauto; eexists _, _; (split; [done|]); done. Defined.

(** ** Properties *)

(** C2: whatever a program did before, with profiling not yet started, running or
    ended, and with the profiler's own code active on any thread, every request within the bounds
    of [allowed] is served without touching memory outside live blocks, freeing what is not a
    block or unmapping a part of one, and the answer is the one C promises: the pointer is null
    exactly when the call of libc or mmap for the block and its header failed, or the product of
    [calloc] does not fit in 64 bits, and then nothing changes; otherwise it is not in use, aligned
    as asked (to 16 for [malloc] and [calloc]), has the size asked for, zeroed by [calloc];
    [posix_memalign] returns the code of libc and stores a pointer exactly when it is 0 (before
    initialisation it always returns 0, and stores a null pointer when there is no memory);
    [realloc] keeps the common prefix; [operator new] throws exactly when there is no memory, unless
    it is a form with [std::nothrow]; [free] gives back exactly the block that was obtained; the bytes
    of all other blocks stay.  The bounds: size and header fit in 64 bits (malloc, calloc, new: a size
    below 2^64 - 16; aligned forms also with the alignment, page forms with two pages), an alignment
    is neither 0 nor 2^31 or more, valloc and pvalloc come after the initialisation, and what is
    freed or reallocated is null or a pointer the program holds. *)
Theorem requests_answered {L M} `{!Libc L} `{!LibcLaws L} `{!Profiler M} `{!ProfilerSpec M}
    `{!Unwinder} `{!UnwinderLaws} sp uninit n (c : Client) r :
  zlen uninit = MaxUnwindDepth → Forall is_u64 uninit →
  reachable (L := L) (M := M) sp uninit (S n) c → allowed n c r →
  ∃ v c', serve sp uninit c r = Ret (v, c') ∧ answer sp uninit c r v c'.
Proof.
  intros Hu Hw Hr%reachable_inv Ha; [|done..].
  destruct (serve_spec sp uninit Hu Hw n c r Hr Ha) as (v & c' & E & _ & Hans). by exists v, c'.
Qed.

(** A program that allocates before initialisation, starts the profiler and goes on. *)
Definition sample_words : list Z := replicate 64 0.
Definition sample_start : Hawk Arena Ledger :=
  mkHawk (mkArena 1 ∅) ∅ (fun _ => 85) false false false [] 0 false ∅.
Definition sample_serve (c : Client) (r : request) : outcome (reply * Client) :=
  serve (L := Arena) (M := Ledger) true sample_words c r.
Definition sample_next (c : Client) (r : request) : Client :=
  match sample_serve c r with Ret (_, c) => c | _ => c end.

(** 24 bytes before initialisation, then profiling with 100 bytes at a multiple of 64. *)
Definition sample_requests : list request :=
  [RMalloc 0%nat 24; RInit (Some ([], 16, false)); RAlignedAlloc 0%nat 64 100].
Definition sample_client : Client := foldl sample_next (mkClient sample_start ∅) sample_requests.

(** The program makes one more request. *)
Lemma sample_step n c r : reachable (L := Arena) (M := Ledger) true sample_words (S n) c →
  allowed n c r → match sample_serve c r with Ret _ => true | _ => false end = true →
  reachable (L := Arena) (M := Ledger) true sample_words n (sample_next c r).
Proof.
  intros Hc Ha Hs. unfold sample_next. destruct (sample_serve c r) as [[v c']| |] eqn:E; [|done..].
  by apply (reach_step _ _ n c r v).
Qed.

Lemma sample_reachable n : reachable (L := Arena) (M := Ledger) true sample_words n sample_client.
Proof.
  unfold sample_client, sample_requests. cbn [foldl].
  apply sample_step; [|cbn; lia|vm_compute; reflexivity].
  apply sample_step; [|split_and!; [vm_compute; reflexivity|lia|done]|vm_compute; reflexivity].
  apply sample_step; [|cbn; lia|vm_compute; reflexivity].
  apply reach_start. split_and!; done.
Qed.

Lemma requests_answered_witness :
  ∃ v c', sample_serve sample_client (RRealloc 0%nat (4096 * 2 ^ 16 + 16) 40) = Ret (v, c')
    ∧ answer true sample_words sample_client (RRealloc 0%nat (4096 * 2 ^ 16 + 16) 40) v c'.
Proof.
  apply (requests_answered (H0 := sample_unwinder_laws) true sample_words 0 sample_client).
  - reflexivity.
  - apply Forall_replicate. unfold is_u64; lia.
  - apply sample_reachable.
  - split; [lia|]. right. eexists. split; [vm_compute; reflexivity|]. cbn. lia.
Defined.

(** C5: at every moment each pointer the program holds has its header right in front of
    it, the header leads to a live block that contains the header and all the bytes
    [malloc_usable_size] reports, the origin of the block (libc or mmap) is the one the
    trace id stands for, and the blocks of two pointers, headers included, never overlap. *)
Theorem pointers_sound {L M} `{!Libc L} `{!LibcLaws L} `{!Profiler M} `{!ProfilerSpec M}
    `{!Unwinder} `{!UnwinderLaws} sp uninit n (c : Client) p info :
  zlen uninit = MaxUnwindDepth → Forall is_u64 uninit →
  reachable (L := L) (M := M) sp uninit n c → cl_user c !! p = Some info →
  hawk_malloc_usable_size (cl_hawk c) p = Ret (info_size info) ∧
  (16 ≤ info_offset info ∧
   ∃ o, live (hk_libc (cl_hawk c)) !! (p - info_offset info)
          = Some (o, info_size info + info_offset info)
        ∧ (o = OMmap ↔ info_traceId info = InvalidTraceId)) ∧
  ∀ q info', cl_user c !! q = Some info' → p ≠ q →
    p + info_size info ≤ q - info_offset info' ∨ q + info_size info' ≤ p - info_offset info.
Proof.
  intros Hu Hw (f & es & Hi & _)%reachable_inv Hp; [|done..].
  pose proof (user_block _ _ _ _ _ _ _ Hi Hp) as [Ho _ _ Hb _]. split_and!.
  - unfold hawk_malloc_usable_size. by rewrite (read_header_spec _ _ _ _ _ _ _ Hi Hp).
  - lia.
  - exact Hb.
  - intros q info' Hq Hne. by apply (users_apart _ _ _ _ _ _ _ (hi_heap _ _ _ _ _ Hi)).
Qed.

Lemma pointers_sound_witness :
  hawk_malloc_usable_size (cl_hawk sample_client) (64 * 2 ^ 16 * 2 + 64) = Ret 100.
Proof.
  apply (pointers_sound (H0 := sample_unwinder_laws) true sample_words 0 sample_client
           (64 * 2 ^ 16 * 2 + 64) (mkAllocInfo 100 64 7)).
  - reflexivity.
  - apply Forall_replicate. unfold is_u64; lia.
  - apply sample_reachable.
  - vm_compute. reflexivity.
Defined.

(** C3: while the profiler is active, the events it was given balance per trace to
    exactly the bytes, the overhead and the number of the blocks that are live under this
    trace: every block is accounted for once when it is made, and the very same amount
    under the very same trace when it is freed or replaced, whichever thread and whichever
    function does it; every live block with a trace is among the events; blocks of the time
    before initialisation are never accounted. *)
Theorem events_balance {L M} `{!Libc L} `{!LibcLaws L} `{!Profiler M} `{!ProfilerSpec M}
    `{!Unwinder} `{!UnwinderLaws} sp uninit n (c : Client) :
  zlen uninit = MaxUnwindDepth → Forall is_u64 uninit →
  reachable (L := L) (M := M) sp uninit n c → gl_memhawkReady (cl_hawk c) = true →
  ∃ es, prof_inv n (gl_memhawk (cl_hawk c)) es ∧ balanced es (cl_user c).
Proof.
  intros Hu Hw (f & es & Hi & _)%reachable_inv Hr; [|done..].
  exists es. by apply (hi_prof _ _ _ _ _ Hi).
Qed.

Lemma events_balance_witness :
  ∃ es : list event, gl_memhawk (cl_hawk sample_client) = es ∧ balanced es (cl_user sample_client).
Proof.
  destruct (events_balance (L := Arena) (M := Ledger) (H0 := sample_unwinder_laws) true sample_words 0
              sample_client) as (es & E & Hb).
  - reflexivity.
  - apply Forall_replicate. unfold is_u64; lia.
  - apply sample_reachable.
  - vm_compute. reflexivity.
  - exists es. split; [exact E|exact Hb].
Defined.

(** ** Requests outside the bounds of [allowed] *)

(** [size + AdditionalSize] wraps: a block of 8 bytes is obtained and the header is
    written outside of it. *)
Lemma malloc_size_wraps : sample_serve sample_client (RMalloc 0%nat (2 ^ 64 - 8)) = Undef.
Proof. vm_compute. reflexivity. Qed.

(** An alignment of zero divides by zero. *)
Lemma alignment_zero : sample_serve sample_client (RMemalign 0%nat 0 8) = Undef.
Proof. vm_compute. reflexivity. Qed.

(** The usable size of a null pointer is read from in front of it. *)
Lemma usable_size_null : hawk_malloc_usable_size (cl_hawk sample_client) 0 = Undef.
Proof. vm_compute. reflexivity. Qed.

(** [valloc] before the initialisation aborts. *)
Lemma valloc_early : sample_serve (mkClient sample_start ∅) (RValloc 0%nat 8) = Undef.
Proof. vm_compute. reflexivity. Qed.
