(* ===== verification/Symbols.v ===== *)
(** * The symbols the library exports ([overrides.h], [overrides-libc.h])

    The library binds the symbols of libc, libdl and the operators of C++ to its own functions by
    aliases: an alias says nothing about types, so that a wrong one would pass the arguments of a
    caller to a function that reads them differently.  Here are the prototypes of both sides, the
    table of aliases, and what an exported function does with its arguments, as a request of
    [HawkHeap]. *)

From Stdlib Require Import ZArith Lia.
From stdpp Require Import base numbers list gmap strings.
From S2P Require Import Prelude Algo AllocInfo Stacktrace HawkMalloc Overrides HawkHeap.

(** ** Prototypes *)

Inductive ctype := CVoid | CInt | CSize | CPtr | CPtrPtr | CStr | CAlign | CNothrow.
#[export] Instance ctype_eq_dec : EqDecision ctype.
Proof. solve_decision. Defined.

(** The result, the parameters, and whether the declaration lets the function throw: it does unless
    it says [noexcept], [__THROW] or [__THROWNL]. *)
Record proto := mkProto { pt_result : ctype; pt_params : list ctype; pt_throws : bool }.
#[export] Instance proto_eq_dec : EqDecision proto.
Proof. solve_decision. Defined.

(** The exported functions. *)
Inductive hawk_fn :=
| F_hawk_malloc | F_hawk_free | F_hawk_realloc | F_hawk_calloc | F_hawk_aligned_alloc | F_hawk_valloc | F_hawk_pvalloc
| F_hawk_posix_memalign | F_hawk_free_sized | F_hawk_free_aligned_sized | F_hawk_dlopen | F_hawk_dlclose | F_hawk_malloc_usable_size
| F_New | F_Delete | F_DeleteSized | F_NewArray | F_DeleteArray | F_DeleteArraySized
| F_NewNothrow | F_NewArrayNothrow | F_DeleteNothrow | F_DeleteArrayNothrow
| F_NewAligned | F_NewAlignedNothrow | F_DeleteAligned | F_DeleteAlignedNothrow | F_DeleteSizedAligned
| F_NewArrayAligned | F_NewArrayAlignedNothrow | F_DeleteArrayAligned | F_DeleteArrayAlignedNothrow | F_DeleteArraySizedAligned.
#[export] Instance hawk_fn_eq_dec : EqDecision hawk_fn.
Proof. solve_decision. Defined.



(** ** What an exported function does *)

Section forward.
Context {L M : Type} `{!Libc L} `{!Profiler M} `{!Unwinder}.

End forward.

(** ** Calls through the table *)





Section calls.
Context {L M : Type} `{!Libc L} `{!LibcLaws L} `{!Profiler M} `{!ProfilerSpec M} `{!Unwinder} `{!UnwinderLaws}.
Context (sp : bool) (uninit : list Z).
Implicit Types (c : Client (L := L) (M := M)) (r : request (M := M)).





End calls.

(** ** Property *)


