(* ===== verification/Profiling.v ===== *)
(** * The allocation functions with the profiler behind them

    [MemHawk] meets the contract [ProfilerSpec] the allocation functions were verified
    against, so their theorems hold of the assembled system.  What its files say is compared with
    the blocks the program really holds in [Files]. *)

From Stdlib Require Import ZArith Lia.
From stdpp Require Import base numbers list gmap.
From S2P Require Import Prelude Algo AllocInfo Stacktrace LruCache IStacktraceTracker StacktraceTracker StaticTracker ThreadTracker MemHawk HawkMalloc HawkHeap.

Section profiler.
Context {I : Type} `{!SequencedHash I CompressedStacktrace Z}
        `{!SequencedHashLaws I CompressedStacktrace Z}.
Context (avx : bool) (xxh : list Z → Z) (uninit : list Z).
Local Abbreviation state := (MemHawk I Recorder).
Implicit Types (s : state) (th : nat).

(** Activity of the profiler between the calls of the allocation functions. *)
Inductive background :=
| BThreadExit th
| BEnterInner th
| BLeaveInner th
| BWorker.

Definition background_call (a : background) : call :=
  match a with
  | BThreadExit th => CThreadExit th
  | BEnterInner th => CEnterInner th
  | BLeaveInner th => CLeaveInner th
  | BWorker => CWorker
  end.

#[local] Instance MemHawk_profiler : Profiler state := {
  prof_TrackAlloc s th info trace ext :=
    '(info, _, s) ← TrackAlloc avx xxh s th info trace ext; Ret (info, s);
  prof_TrackDealloc s th info ext := TrackDealloc s th info ext;
  prof_TrackRealloc s th prev info trace ext :=
    '(info, _, s) ← TrackRealloc avx xxh s th prev info trace ext; Ret (info, s);
  prof_InvalidateModulesCache := InvalidateModulesCache;
  prof_action := background;
  prof_act s a := '(s, _) ← exec avx xxh uninit s (background_call a); Ret s;
}.

(** The handlers only set the trace id. *)
Lemma SaveTraceId_info t bt info trace info' trace' t' bt' :
  SaveTraceId (I := I) (T := StacktraceTracker) avx xxh t bt info trace = Ret (info', trace', t', bt') →
  info' = set_traceId info (info_traceId info').
Proof.
  unfold SaveTraceId. destruct (Touch _ _) as [[id|] lru]; intros E.
  - by simplify_eq.
  - inv_ret. destruct r0 as [? ?]. inv_ret. destruct r0 as [? ?]. inv_ret. by simplify_eq.
Qed.

Lemma TrackAlloc_info s th info trace ext info' trace' s' :
  TrackAlloc avx xxh s th info trace ext = Ret (info', trace', s') →
  info' = set_traceId info (info_traceId info').
Proof.
  unfold TrackAlloc. destruct ext; intros E; apply bind_ret_inv in E as (r & E1 & E).
  - apply bind_ret_inv in E as (t & _ & E). apply bind_ret_inv in E as ([[[i tr] t'] bt] & Es & E).
    apply SaveTraceId_info in Es. apply bind_ret_inv in E as (s2 & _ & E). by simplify_eq.
  - destruct r as [id ibt]. destruct (inner_first _ th); [|by simplify_eq].
    apply bind_ret_inv in E as (s1 & _ & E). apply bind_ret_inv in E as (s2 & _ & E). by simplify_eq.
Qed.

Lemma TrackRealloc_info s th prev info trace ext info' trace' s' :
  TrackRealloc avx xxh s th prev info trace ext = Ret (info', trace', s') →
  info' = set_traceId info (info_traceId info').
Proof.
  unfold TrackRealloc. destruct ext; intros E; apply bind_ret_inv in E as (r & E1 & E).
  - apply bind_ret_inv in E as (t & _ & E). apply bind_ret_inv in E as ([[[i tr] t'] bt] & Es & E).
    apply SaveTraceId_info in Es. apply bind_ret_inv in E as (s2 & _ & E). by simplify_eq.
  - destruct r as [id ibt]. destruct (inner_first _ th); [|by simplify_eq].
    apply bind_ret_inv in E as (s1 & _ & E). apply bind_ret_inv in E as (s2 & _ & E). by simplify_eq.
Qed.

(** No id is the mark of the time before initialisation. *)
Lemma id_means_valid n s q es id tr ext : mh_inv xxh n s q es → id_means xxh s id tr ext → id ≠ InvalidTraceId.
Proof.
  intros Hi Hm. pose proof (id_means_range _ _ _ _ _ _ _ _ Hi Hm). unfold InvalidTraceId. destruct ext; lia.
Qed.

(** The queue the reference has after an activity. *)
Definition queue_act (q : Waiting) (a : background) : Waiting :=
  match a with
  | BEnterInner th => queue_level q th (fun l => l + 1)
  | BLeaveInner th => queue_level q th (fun l => l - 1)
  | _ => q
  end.

Lemma background_spec n s q es a : mh_inv xxh n s q es →
  ∃ s', prof_act s a = Ret s' ∧ mh_inv xxh n s' (queue_act q a) es.
Proof.
  intros Hi. destruct a as [th|th|th|]; cbn.
  - destruct (ThreadExit_spec xxh n s q es th Hi) as (s' & -> & Hi' & _). by exists s'.
  - eexists. split; [done|]. by apply set_level_inv.
  - eexists. split; [done|]. by apply set_level_inv.
  - destruct (WorkerIteration_spec xxh uninit n s q es Hi) as (s' & -> & Hi' & _). by exists s'.
Qed.

#[local, refine] Instance MemHawk_spec : ProfilerSpec state :=
  { prof_inv n s es := ∃ q, mh_inv xxh n s q es; prof_can _ _ := True }.
Proof.
  - intros n s es [q Hi]. exists q. by apply mh_inv_le.
  - intros n s es th info trace ext [q Hi] Hst Ha. cbn.
    destruct (TrackAlloc_spec avx xxh n s q es th info trace ext Hi Hst Ha)
      as (info' & tr' & s' & E & Hi' & _ & Hm). rewrite E. exists info', s'. split; [done|].
    split; [by eexists|]. rewrite (TrackAlloc_info _ _ _ _ _ _ _ _ E). split; [done|]. split; [done|].
    by eapply id_means_valid.
  - intros n s es th info ext [q Hi] _. cbn.
    destruct (TrackDealloc_spec xxh n s q es th info ext Hi) as (s' & E & Hi' & _). exists s'. split; [done|]. by eexists.
  - intros n s es th prev info trace ext [q Hi] _ Hst Ha. cbn.
    destruct (TrackRealloc_spec avx xxh n s q es th prev info trace ext Hi Hst Ha)
      as (info' & tr' & s' & E & Hi' & _ & Hm). rewrite E. exists info', s'. split; [done|].
    split; [by eexists|]. rewrite (TrackRealloc_info _ _ _ _ _ _ _ _ _ E). split; [done|]. split; [done|].
    by eapply id_means_valid.
  - intros n s es [q Hi]. exists q. cbn. destruct Hi as [Hth [] [b []] Hq].
    split; [by eapply threads_ok_ext; [..|exact Hth]|by split|exists b; by split|done].
  - intros n s es a [q Hi] _. destruct (background_spec n s q es a Hi) as (s' & E & Hi'). exists s'. split; [done|]. by eexists.
Defined.
End profiler.

Lemma same_held_wrap a b : same_held a b → same_held (wrap a) (wrap b).
Proof. intros (H1 & H2 & H3). unfold same_held, wrap. cbn. by rewrite H1, H2, H3. Qed.

(** ** A run *)

(** 24 bytes before initialisation, then 100 bytes that are tracked. *)
Definition demo_cfg : MemHawkConfig := mkMemHawkConfig true 512 256 8.
Definition demo_M : Type := MemHawk (list (CompressedStacktrace * Z)) Recorder.
#[local] Instance demo_profiler : Profiler demo_M := MemHawk_profiler true (fun _ => 0) sample_words.

Definition demo_serve (c : Client (L := Arena) (M := demo_M)) (r : request (M := demo_M)) :=
  serve false sample_words c r.
Definition demo_next (c : Client) (r : request) : Client :=
  match demo_serve c r with Ret (_, c) => c | _ => c end.
Definition demo_client : Client :=
  foldl demo_next
    (mkClient (mkHawk (mkArena 1 ∅) ∅ (fun _ => 85) false false false (MemHawk_ctor demo_cfg) 0 false ∅) ∅)
    [RMalloc 0%nat 24; RInit (Some (start demo_cfg, 16, false)); RMalloc 0%nat 100].

(** A pointer of the time before initialisation is reallocated under a live
    [RecursiveStacktrace]: the program's new block gets an id of the tracker of MemHawk's
    own allocations. *)
Lemma early_realloc_internal :
  let c := demo_next demo_client (RRealloc 0%nat (4096 * 2 ^ 16 + 16) 40) in
  ∃ p info, cl_user c !! p = Some info ∧ info_size info = 40 ∧ IsFixedTrackerId (info_traceId info) = true.
Proof. exists 3145744, (mkAllocInfo 40 16 2147483648). vm_compute. done. Qed.
