(* ===== verification/HeaptrackWriter.v ===== *)
(** * The heaptrack writer ([writers/heaptrack_writer.h], [writers/heaptrack_writer.cpp])

    The writer appends lines of text to a file: numbers in hexadecimal, frames as nodes of a
    tree ("t ip parent"), and for every trace whose balance changed the end of the old
    ("- id") and the start of a new allocation ("+ size node id").  Text is a list of
    character codes; the 16 characters of the buffer of [WriteHexValue] are an array, so
    that writing behind it is undefined.  A reader of the format is the specification; it is
    given the characters of the file and finds the lines itself, so that a newline in a name
    would be seen as the end of a line.

    The clock, the resident set and the list of modules are arguments of [FlushData]; the
    order in which an abseil hash set is traversed is the parameter [hash_order]. *)

From Stdlib Require Import ZArith Lia.
From stdpp Require Import base numbers list gmap.
From S2P Require Import Prelude Algo AllocInfo Stacktrace StacktraceTree ThreadTracker MemHawk.

Abbreviation text := (list Z).

(** ** Hexadecimal numbers *)

(** '0' to '9', 'a' to 'f'. *)
Definition hexChars : list Z := [48; 49; 50; 51; 52; 53; 54; 55; 56; 57; 97; 98; 99; 100; 101; 102].

(** The loop [while (value > 15)]; the position never gets further than the buffer. *)
Fixpoint WriteHexValue_loop (fuel : nat) (buf : list Z) (data value : Z) : outcome (list Z * Z * Z) :=
  if 15 <? value then
    match fuel with
    | O => NoFuel
    | S fuel =>
      c ← rd hexChars (value mod 16);
      buf ← wr buf data c;
      WriteHexValue_loop fuel buf (data + 1) (value / 16)
    end
  else Ret (buf, data, value).

(** The characters a C string shows. *)
Fixpoint c_string (buf : list Z) : text :=
  match buf with
  | [] => []
  | c :: buf => if c =? 0 then [] else c :: c_string buf
  end.

Definition WriteHexValue (value : Z) : outcome text :=
  '(buf, data, value) ← WriteHexValue_loop 17 (replicate 16 0) 0 value;
  c ← rd hexChars value;
  buf ← wr buf data c;
  let data := data + 1 in
  let buf := reverse (take (Z.to_nat data) buf) ++ drop (Z.to_nat data) buf in
  buf ← wr buf data 0;
  Ret (c_string buf).

(** Arguments of [WriteHexLine]: a string is written as it is. *)
Inductive token := TStr (s : text) | THex (v : Z).

Definition WriteToken (t : token) : outcome text :=
  match t with TStr s => Ret s | THex v => WriteHexValue v end.

Fixpoint WriteHexLine (args : list token) : outcome text :=
  match args with
  | [] => Ret []
  | [arg] => WriteToken arg
  | arg :: args => a ← WriteToken arg; rest ← WriteHexLine args; Ret (a ++ 32 :: rest)
  end.

(** ** The writer *)

Record TraceSummary := mkTraceSummary { ts_current : Z; ts_prev : Z }.

(** What [dl_iterate_phdr] reports: name, address, and type, address and size of segments. *)
Record dl_phdr_info := mkDlInfo {
  dlpi_name : text;
  dlpi_addr : Z;
  dlpi_phdr : list (Z * Z * Z);
}.
Definition PT_LOAD : Z := 1.

(** What a call of [FlushData] sees of the system. *)
Record FlushEnv := mkFlushEnv { env_elapsed : Z; env_maxrss : Z; env_modules : list dl_phdr_info }.

Section HeaptrackWriter.
Context (hash_order : gset Z → list Z).

Record HeaptrackWriter := mkHeaptrackWriter {
  ht_ofstream : list text;                 (* what was written, each part followed by a newline *)
  ht_summaries : gmap Z TraceSummary;
  ht_changedSummaries : gset Z;
  ht_writtenTraces : gmap Z Z;
  ht_updateModules : bool;
  ht_tree : StacktraceTree;
}.

Definition with_stream (w : HeaptrackWriter) (ls : list text) : HeaptrackWriter :=
  mkHeaptrackWriter ls (ht_summaries w) (ht_changedSummaries w) (ht_writtenTraces w)
    (ht_updateModules w) (ht_tree w).

(** [WriteHexLine(...) << "\n"]. *)
Definition write_line (ls : list text) (args : list token) : outcome (list text) :=
  l ← WriteHexLine args; Ret (ls ++ [l]).

Definition chr (c : Z) : token := TStr [c].

Definition WriteTimestamp (ls : list text) (elapsed : Z) := write_line ls [chr 99; THex elapsed].
Definition WriteRSS (ls : list text) (maxrss : Z) := write_line ls [chr 82; THex maxrss].
Definition WriteVersion (ls : list text) := write_line ls [chr 118; THex 0x10550; THex 3].
Definition WriteSystemInfo (ls : list text) (pageSize physPages : Z) :=
  write_line ls [chr 73; THex pageSize; THex physPages].

(** [readlink] result: the path, or a failure. *)
Definition WriteExe (ls : list text) (exe : option text) : outcome (list text) :=
  match exe with
  | Some path =>
    if (0 <? zlen path) && (zlen path <? 1023)
    then write_line ls [chr 120; THex (zlen path); TStr path] else Ret ls
  | None => Ret ls
  end.

(** The bytes read from [/proc/self/cmdline]: sections that end with a null. *)
Fixpoint cmdline_section (buf : text) : text * text :=
  match buf with
  | [] => ([], [])
  | c :: buf' => if c =? 0 then ([], buf) else let '(a, rest) := cmdline_section buf' in (c :: a, rest)
  end.

Fixpoint WriteCommandLine_loop (fuel : nat) (buf : text) : outcome text :=
  match buf with
  | [] => Ret []
  | _ =>
    match fuel with
    | O => NoFuel
    | S fuel =>
      let '(section, rest) := cmdline_section buf in
      out ← WriteCommandLine_loop fuel (drop 1 rest);
      Ret (section ++ out)
    end
  end.

Definition WriteCommandLine (ls : list text) (cmdline : text) : outcome (list text) :=
  out ← WriteCommandLine_loop (length cmdline) cmdline;
  Ret (ls ++ [[88; 32] ++ out]).

Definition HeaptrackWriter_ctor (exe : option text) (cmdline : text) (pageSize physPages : Z)
  : outcome HeaptrackWriter :=
  ls ← WriteVersion [];
  ls ← WriteExe ls exe;
  ls ← WriteCommandLine ls cmdline;
  ls ← WriteSystemInfo ls pageSize physPages;
  Ret (mkHeaptrackWriter ls ∅ ∅ ∅ true StacktraceTree_init).

Definition Heaptrack_UpdateModules (w : HeaptrackWriter) : HeaptrackWriter :=
  mkHeaptrackWriter (ht_ofstream w) (ht_summaries w) (ht_changedSummaries w) (ht_writtenTraces w)
    true (ht_tree w).

(** One entry of the snapshot. *)
Definition account_one (w : HeaptrackWriter) (e : Z * AllocSummary) : HeaptrackWriter :=
  let '(traceId, summary) := e in
  let t := match ht_summaries w !! traceId with
           | None => mkTraceSummary (sum_size summary) 0
           | Some t => mkTraceSummary (i64 (ts_current t + sum_size summary)) (ts_prev t)
           end in
  mkHeaptrackWriter (ht_ofstream w) (<[traceId := t]> (ht_summaries w))
    ({[traceId]} ∪ ht_changedSummaries w) (ht_writtenTraces w) (ht_updateModules w) (ht_tree w).

Definition Heaptrack_AccountSnapshot (w : HeaptrackWriter) (summaries : SummariesMap) : HeaptrackWriter :=
  foldl account_one w (map_to_list summaries).

(** The line of one module: the segments follow the module on the same line. *)
Fixpoint write_segments (phdrs : list (Z * Z * Z)) : outcome text :=
  match phdrs with
  | [] => Ret []
  | (ty, vaddr, memsz) :: phdrs =>
    a ← (if ty =? PT_LOAD then WriteHexLine [TStr []; THex vaddr; THex memsz] else Ret []);
    rest ← write_segments phdrs;
    Ret (a ++ rest)
  end.

Definition iterate_dl_headers (ls : list text) (info : dl_phdr_info) : outcome (list text) :=
  let fileName := match dlpi_name info with [] => [120] | n => n end in
  l ← WriteHexLine [chr 109; THex (zlen fileName); TStr fileName; THex (dlpi_addr info)];
  segs ← write_segments (dlpi_phdr info);
  Ret (ls ++ [l ++ segs]).

Fixpoint dl_iterate_phdr (ls : list text) (infos : list dl_phdr_info) : outcome (list text) :=
  match infos with
  | [] => Ret ls
  | info :: infos => ls ← iterate_dl_headers ls info; dl_iterate_phdr ls infos
  end.

(** The callback of [m_tree.index]: the line of a new node. *)
Definition on_new_node (ip _ptrId index : Z) (ls : outcome (list text)) : outcome (list text) :=
  ls ← ls; write_line ls [chr 116; THex (u64 (ip - 1)); THex index].

Definition WriteAllocation (ls : list text) (traceId size index : Z) :=
  write_line ls [chr 43; THex size; THex index; THex traceId].
Definition WriteDeallocation (ls : list text) (traceId : Z) :=
  write_line ls [chr 45; THex traceId].

(** The body of the loop of [FlushData] once the trace has a node; [m_summaries[traceId]]
    makes an entry when there is none. *)
Definition flush_summary (w : HeaptrackWriter) (traceId index : Z) : outcome HeaptrackWriter :=
  let t := default (mkTraceSummary 0 0) (ht_summaries w !! traceId) in
  ls ← (if negb (ts_prev t =? 0) then WriteDeallocation (ht_ofstream w) traceId else Ret (ht_ofstream w));
  ls ← (if 0 <? ts_current t then WriteAllocation ls traceId (ts_current t) index else Ret ls);
  Ret (mkHeaptrackWriter ls (<[traceId := mkTraceSummary (ts_current t) (ts_current t)]> (ht_summaries w))
         (ht_changedSummaries w) (ht_writtenTraces w) (ht_updateModules w) (ht_tree w)).

Definition flush_trace (finder : Z → outcome (option Stacktrace)) (w : HeaptrackWriter) (traceId : Z)
  : outcome HeaptrackWriter :=
  match ht_writtenTraces w !! traceId with
  | Some index => flush_summary w traceId index
  | None =>
    stacktrace ← finder traceId;
    match stacktrace with
    | None => Ret w
    | Some st =>
      let '(index, tree, ls) := index on_new_node (ht_tree w) (Ret (ht_ofstream w)) st in
      ls ← ls;
      flush_summary (mkHeaptrackWriter ls (ht_summaries w) (ht_changedSummaries w)
        (<[traceId := index]> (ht_writtenTraces w)) (ht_updateModules w) tree) traceId index
    end
  end.

Fixpoint flush_traces (finder : Z → outcome (option Stacktrace)) (w : HeaptrackWriter) (ids : list Z)
  : outcome HeaptrackWriter :=
  match ids with
  | [] => Ret w
  | traceId :: ids => w ← flush_trace finder w traceId; flush_traces finder w ids
  end.

Definition Heaptrack_FlushData (env : FlushEnv) (finder : Z → outcome (option Stacktrace))
    (w : HeaptrackWriter) : outcome HeaptrackWriter :=
  ls ← WriteTimestamp (ht_ofstream w) (env_elapsed env);
  ls ← WriteRSS ls (env_maxrss env);
  '(ls, upd) ← (if ht_updateModules w
                then ls ← dl_iterate_phdr (ls ++ [[109; 32; 49; 32; 45]]) (env_modules env); Ret (ls, false)
                else Ret (ls, ht_updateModules w));
  w ← flush_traces finder
        (mkHeaptrackWriter ls (ht_summaries w) (ht_changedSummaries w) (ht_writtenTraces w) upd (ht_tree w))
        (hash_order (ht_changedSummaries w));
  Ret (mkHeaptrackWriter (ht_ofstream w) (ht_summaries w) ∅ (ht_writtenTraces w) (ht_updateModules w)
         (ht_tree w)).
End HeaptrackWriter.

(** The characters of the file. *)
Definition file_text (ls : list text) : text := concat ((fun l => l ++ [10]) <$> ls).

(** ** Reading the format *)

(** The lines of a text; what follows the last newline is no line. *)
Fixpoint lines_from (cur t : text) : list text :=
  match t with
  | [] => []
  | c :: t => if c =? 10 then reverse cur :: lines_from [] t else lines_from (c :: cur) t
  end.

Definition hex_digit (c : Z) : option Z :=
  if (48 <=? c) && (c <=? 57) then Some (c - 48)
  else if (97 <=? c) && (c <=? 102) then Some (c - 87) else None.

Definition parse_hex (l : text) : option Z :=
  match l with
  | [] => None
  | _ => foldl (fun acc c => v ← acc; d ← hex_digit c; Some (16 * v + d)) (Some 0) l
  end.

(** Splits at spaces. *)
Fixpoint words (l : text) : list text :=
  match l with
  | [] => [[]]
  | c :: l =>
    if c =? 32 then [] :: words l
    else match words l with w :: ws => (c :: w) :: ws | [] => [[c]] end
  end.

(** The tree and the live allocations as a reader knows them: node [k] is the [k]-th "t"
    line; an allocation is known by its trace. *)
Record Reader := mkReader { rd_nodes : list (Z * Z); rd_live : gmap Z (Z * Z) }.
Definition Reader_init : Reader := mkReader [] ∅.

Definition read_line (r : Reader) (l : text) : Reader :=
  match words l with
  | [[116]; ip; parent] =>
    match parse_hex ip, parse_hex parent with
    | Some ip, Some parent => mkReader (rd_nodes r ++ [(ip, parent)]) (rd_live r)
    | _, _ => r
    end
  | [[43]; size; node; id] =>
    match parse_hex size, parse_hex node, parse_hex id with
    | Some size, Some node, Some id => mkReader (rd_nodes r) (<[id := (size, node)]> (rd_live r))
    | _, _, _ => r
    end
  | [[45]; id] =>
    match parse_hex id with
    | Some id => mkReader (rd_nodes r) (delete id (rd_live r))
    | None => r
    end
  | _ => r
  end.

Definition read_file (ls : list text) : Reader := foldl read_line Reader_init ls.
#[global] Arguments read_file : simpl never.

Definition read_text (t : text) : Reader := read_file (lines_from [] t).

(** ** Numbers *)

Definition hexc (d : Z) : Z := hexChars !!! Z.to_nat d.
Definition digit (d : Z) : Prop := 0 ≤ d < 16.

(** The value of digits, least significant first. *)
Definition le (ds : list Z) : Z := foldr (fun d acc => d + 16 * acc) 0 ds.

Lemma hexc_cases d : digit d → hex_digit (hexc d) = Some d ∧ hexc d ≠ 0 ∧ hexc d ≠ 32.
Proof.
  intros Hd. assert (H : Forall (fun d => hex_digit (hexc d) = Some d ∧ hexc d ≠ 0 ∧ hexc d ≠ 32) (seqZ 0 16)).
  { vm_compute. repeat (constructor; [done|]). constructor. }
  rewrite Forall_forall in H. apply H, elem_of_seqZ. unfold digit in Hd. lia.
Qed.

Lemma rd_hexChars d : digit d → rd hexChars d = Ret (hexc d).
Proof. intros Hd. apply rd_in. unfold digit in Hd. change (zlen hexChars) with 16. lia. Qed.

Lemma parse_digits ds : Forall digit ds → ds ≠ [] → parse_hex (hexc <$> reverse ds) = Some (le ds).
Proof.
  intros Hd Hne. unfold parse_hex.
  assert (E : foldl (fun acc c => v ← acc; d ← hex_digit c; Some (16 * v + d)) (Some 0)
                (hexc <$> reverse ds) = Some (le ds)).
  { clear Hne. induction Hd as [|d ds Hd _ IH]; [done|].
    rewrite reverse_cons, fmap_app, foldl_app, IH. cbn -[Z.mul Z.add le].
    rewrite (proj1 (hexc_cases d Hd)). cbn -[Z.mul Z.add le]. f_equal.
    change (le (d :: ds)) with (d + 16 * le ds). lia. }
  destruct (hexc <$> reverse ds) eqn:El; [|done]. apply fmap_nil_inv in El.
  apply (f_equal reverse) in El. rewrite reverse_involutive in El. done.
Qed.

(** [v] has [k + 1] hexadecimal digits. *)
Definition has_digits (k : nat) (v : Z) : Prop :=
  0 ≤ v < 16 ^ (Z.of_nat k + 1) ∧ (k = 0%nat ∨ 16 ^ Z.of_nat k ≤ v).

Lemma digits_exist n : ∀ v, 0 ≤ v < 16 ^ (Z.of_nat n + 1) → ∃ k, (k ≤ n)%nat ∧ has_digits k v.
Proof.
  induction n as [|n IH]; intros v Hv; [exists 0%nat; split; [lia|]; split; [done|by left]|].
  destruct (decide (v < 16 ^ (Z.of_nat n + 1))) as [Hlt|Hge].
  - destruct (IH v ltac:(lia)) as (k & Hk & H). exists k. split; [lia|done].
  - exists (S n). split; [lia|]. split; [done|right]. replace (Z.of_nat (S n)) with (Z.of_nat n + 1) by lia. lia.
Qed.

Lemma has_digits_S k v : has_digits (S k) v → has_digits k (v / 16) ∧ 15 < v.
Proof.
  unfold has_digits. intros [[H0 H1] [?|H2]]; [done|].
  pose proof (Z.pow_pos_nonneg 16 (Z.of_nat k) ltac:(lia) ltac:(lia)) as Hp.
  replace (Z.of_nat (S k)) with (Z.of_nat k + 1) in * by lia.
  rewrite (Z.pow_add_r 16 (Z.of_nat k + 1) 1) in H1 by lia.
  rewrite (Z.pow_add_r 16 (Z.of_nat k) 1) in * by lia. change (16 ^ 1) with 16 in *.
  split; [|lia]. split; [|right].
  - split; [apply Z.div_pos; lia|]. apply Z.div_lt_upper_bound; lia.
  - apply Z.div_le_lower_bound; lia.
Qed.

Lemma take_write (buf : list Z) data c : 0 ≤ data < zlen buf →
  take (Z.to_nat (data + 1)) (put buf data c) = take (Z.to_nat data) buf ++ [c].
Proof.
  intros H. unfold put, zlen in *. replace (Z.to_nat (data + 1)) with (S (Z.to_nat data)) by lia.
  erewrite take_S_r by (apply list_lookup_insert_eq; lia). by rewrite take_insert_ge by lia.
Qed.

Lemma WriteHexValue_loop_spec k : ∀ fuel buf data v,
  has_digits k v → (k ≤ fuel)%nat → 0 ≤ data → data + Z.of_nat k < zlen buf →
  ∃ buf' ds top, WriteHexValue_loop fuel buf data v = Ret (buf', data + Z.of_nat k, top)
    ∧ zlen buf' = zlen buf ∧ length ds = k ∧ Forall digit ds ∧ digit top ∧ v = le (ds ++ [top])
    ∧ take (Z.to_nat (data + Z.of_nat k)) buf' = take (Z.to_nat data) buf ++ (hexc <$> ds)
    ∧ drop (Z.to_nat (data + Z.of_nat k)) buf' = drop (Z.to_nat (data + Z.of_nat k)) buf.
Proof.
  induction k as [|k IH]; intros fuel buf data v Hv Hf Hd Hb.
  - destruct Hv as [Hv _]. change (16 ^ (Z.of_nat 0 + 1)) with 16 in Hv.
    exists buf, [], v. rewrite Z.add_0_r, app_nil_r. cbn.
    split_and!; try done; [|lia]. destruct fuel; cbn; by zcases.
  - apply has_digits_S in Hv as [Hv Hgt]. destruct fuel as [|fuel]; [lia|]. cbn [WriteHexValue_loop].
    destruct (Z.ltb_spec 15 v); [|lia].
    assert (Hm : digit (v mod 16)) by (apply Z.mod_pos_bound; lia).
    rewrite rd_hexChars by done. step_ret. rewrite wr_in by lia. step_ret.
    destruct (IH fuel (put buf data (hexc (v mod 16))) (data + 1) (v / 16))
      as (buf' & ds & top & -> & Hl & Hds & Fds & Ht & Ev & Et & Ed); [done|lia|lia|rewrite zlen_put; lia|].
    replace (data + 1 + Z.of_nat k) with (data + Z.of_nat (S k)) in * by lia.
    exists buf', (v mod 16 :: ds), top. rewrite zlen_put in Hl. split_and!; try done.
    + cbn. by rewrite Hds.
    + by constructor.
    + change (v = v mod 16 + 16 * le (ds ++ [top])). rewrite <- Ev. pose proof (Z.div_mod v 16). lia.
    + rewrite Et, take_write by lia. cbn. by rewrite <- app_assoc.
    + rewrite Ed. unfold put. apply drop_insert_lt. lia.
Qed.

Lemma c_string_app l r : Forall (fun c => c ≠ 0) l → c_string (l ++ 0 :: r) = l.
Proof.
  induction 1 as [|c l Hc _ IH]; [done|]. cbn. destruct (Z.eqb_spec c 0); [done|]. by rewrite IH.
Qed.

Lemma WriteHexValue_spec k v : has_digits k v → (k ≤ 14)%nat →
  ∃ ds, WriteHexValue v = Ret (hexc <$> reverse ds) ∧ Forall digit ds ∧ length ds = S k ∧ v = le ds.
Proof.
  intros Hv Hk. unfold WriteHexValue.
  destruct (WriteHexValue_loop_spec k 17 (replicate 16 0) 0 v Hv)
    as (buf & ds & top & -> & Hl & Hds & Fds & Ht & Ev & Et & Ed); [lia|lia|rewrite zlen_replicate; lia|].
  rewrite Z.add_0_l in *. step_ret. rewrite zlen_replicate in Hl. rewrite rd_hexChars by done. step_ret.
  rewrite wr_in by lia. step_ret. exists (ds ++ [top]).
  set (b1 := put buf (Z.of_nat k) (hexc top)).
  assert (E1 : take (Z.to_nat (Z.of_nat k + 1)) b1 = hexc <$> ds ++ [top]).
  { unfold b1. rewrite take_write, Et by lia. by rewrite fmap_app. }
  assert (E2 : drop (Z.to_nat (Z.of_nat k + 1)) b1 = replicate (15 - k) 0).
  { unfold b1, put. rewrite drop_insert_lt by lia. replace (Z.to_nat (Z.of_nat k + 1)) with (Z.to_nat (Z.of_nat k) + 1)%nat by lia.
    rewrite <- drop_drop, Ed, drop_drop, drop_replicate. f_equal. lia. }
  rewrite E1, E2. destruct (15 - k)%nat as [|m] eqn:Em; [lia|].
  assert (Hz : length (reverse (hexc <$> ds ++ [top])) = (k + 1)%nat)
    by (rewrite length_reverse, length_fmap, length_app; cbn; lia).
  rewrite wr_in.
  2: { rewrite zlen_app, zlen_replicate. unfold zlen. rewrite Hz. lia. }
  step_ret. unfold put. replace (Z.to_nat (Z.of_nat k + 1)) with (length (reverse (hexc <$> ds ++ [top])) + 0)%nat by lia.
  rewrite insert_app_r. change (<[0%nat := 0]> (replicate (S m) 0)) with (0 :: replicate m 0).
  rewrite c_string_app.
  - split; [by rewrite fmap_reverse|]. split; [apply Forall_app; split; [done|]; by apply Forall_singleton|].
    rewrite length_app. cbn. split; [lia|done].
  - apply Forall_reverse, Forall_fmap, Forall_app. split; [|apply Forall_singleton; by apply hexc_cases].
    eapply Forall_impl; [exact Fds|]. intros d Hd. by apply (hexc_cases d Hd).
Qed.

(** 16 digits: the terminating null is written behind the buffer. *)
Lemma WriteHexValue_long v : has_digits 15 v → WriteHexValue v = Undef.
Proof.
  intros Hv. unfold WriteHexValue.
  destruct (WriteHexValue_loop_spec 15 17 (replicate 16 0) 0 v Hv)
    as (buf & ds & top & -> & Hl & Hds & Fds & Ht & _); [lia|lia|rewrite zlen_replicate; lia|].
  rewrite zlen_replicate in Hl. step_ret. rewrite rd_hexChars by done. step_ret.
  rewrite wr_in by lia. step_ret. unfold wr at 1.
  set (b := reverse _ ++ _). assert (Hb : zlen b = 16).
  { unfold b, zlen. rewrite length_app, length_reverse, length_take, length_drop.
    unfold put. rewrite length_insert. unfold zlen in Hl. lia. }
  rewrite Hb. done.
Qed.

Lemma hex_text v : 0 ≤ v < 2 ^ 60 →
  ∃ t, WriteHexValue v = Ret t ∧ parse_hex t = Some v ∧ 32 ∉ t.
Proof.
  intros Hv. destruct (digits_exist 14 v) as (k & Hk & Hd); [exact Hv|].
  destruct (WriteHexValue_spec k v Hd Hk) as (ds & E & Fd & Hl & ->).
  exists (hexc <$> reverse ds). split; [done|]. split; [apply parse_digits; [done|by intros ->]|].
  rewrite list_elem_of_fmap. intros (d & E32 & Hin). rewrite elem_of_reverse in Hin.
  rewrite Forall_forall in Fd. destruct (hexc_cases d (Fd d Hin)) as (_ & _ & H). congruence.
Qed.

(** ** Lines *)

Lemma words_space a r : 32 ∉ a → words (a ++ 32 :: r) = a :: words r.
Proof.
  induction a as [|c a IH]; intros Ha; [done|]. apply not_elem_of_cons in Ha as [Hc Ha].
  cbn. destruct (Z.eqb_spec c 32); [congruence|]. by rewrite IH.
Qed.

Lemma words_single a : 32 ∉ a → words a = [a].
Proof.
  induction a as [|c a IH]; intros Ha; [done|]. apply not_elem_of_cons in Ha as [Hc Ha].
  cbn. destruct (Z.eqb_spec c 32); [congruence|]. by rewrite IH.
Qed.

(** A token is written as a word. *)
Definition word_of (a : token) (t : text) : Prop := WriteToken a = Ret t ∧ 32 ∉ t.

Lemma WriteHexLine_cons a b args : WriteHexLine (a :: b :: args) =
  (x ← WriteToken a; rest ← WriteHexLine (b :: args); Ret (x ++ 32 :: rest)).
Proof. reflexivity. Qed.

Lemma WriteHexLine_words args ts : Forall2 word_of args ts → args ≠ [] →
  ∃ l, WriteHexLine args = Ret l ∧ words l = ts.
Proof.
  induction 1 as [|a t args ts [Ht Hs] H IH]; [done|]. intros _. destruct H as [|a' t' args ts H' H].
  - exists t. split; [done|by apply words_single].
  - destruct IH as (l & El & Ew); [done|]. exists (t ++ 32 :: l).
    rewrite WriteHexLine_cons, Ht. step_ret. rewrite El. step_ret. split; [done|].
    rewrite words_space by done. by rewrite Ew.
Qed.

Lemma word_chr c : c ≠ 32 → word_of (chr c) [c].
Proof. intros H. split; [done|]. by intros ?%list_elem_of_singleton. Qed.

Lemma word_hex v : 0 ≤ v < 2 ^ 60 → ∃ t, word_of (THex v) t ∧ parse_hex t = Some v.
Proof. intros Hv. destruct (hex_text v Hv) as (t & E & Hp & Hs). by exists t. Qed.

(** [write_line] appends a line a reader understands as [f]. *)
Definition writes (ls : list text) (args : list token) (f : Reader → Reader) : Prop :=
  ∃ l, write_line ls args = Ret (ls ++ [l]) ∧ ∀ r, read_line r l = f r.

Lemma read_file_snoc ls l : read_file (ls ++ [l]) = read_line (read_file ls) l.
Proof. unfold read_file. by rewrite foldl_app. Qed.

Ltac line_words :=
  match goal with |- writes ?ls ?args _ =>
    unfold writes, write_line;
    let l := fresh "l" in let E := fresh "E" in let Ew := fresh "Ew" in
    edestruct (WriteHexLine_words args) as (l & E & Ew);
    [repeat (constructor; [first [eassumption|by apply word_chr]|]); constructor|done|];
    exists l; rewrite E; split; [done|]; intros ?; unfold read_line; rewrite Ew; cbn
  end.

Lemma writes_node ls ip parent : 0 ≤ ip < 2 ^ 60 → 0 ≤ parent < 2 ^ 60 →
  writes ls [chr 116; THex ip; THex parent] (fun r => mkReader (rd_nodes r ++ [(ip, parent)]) (rd_live r)).
Proof.
  intros (t1 & H1 & P1)%word_hex (t2 & H2 & P2)%word_hex. line_words. by rewrite P1, P2.
Qed.

Lemma writes_alloc ls size index id : 0 ≤ size < 2 ^ 60 → 0 ≤ index < 2 ^ 60 → 0 ≤ id < 2 ^ 60 →
  writes ls [chr 43; THex size; THex index; THex id]
    (fun r => mkReader (rd_nodes r) (<[id := (size, index)]> (rd_live r))).
Proof.
  intros (t1 & H1 & P1)%word_hex (t2 & H2 & P2)%word_hex (t3 & H3 & P3)%word_hex. line_words.
  by rewrite P1, P2, P3.
Qed.

Lemma writes_dealloc ls id : 0 ≤ id < 2 ^ 60 →
  writes ls [chr 45; THex id] (fun r => mkReader (rd_nodes r) (delete id (rd_live r))).
Proof. intros (t1 & H1 & P1)%word_hex. line_words. by rewrite P1. Qed.

(** Lines of another kind. *)
Definition other (c : Z) : Prop := c ≠ 116 ∧ c ≠ 43 ∧ c ≠ 45 ∧ c ≠ 32.

Lemma read_other r c rest : other c → read_line r (c :: 32 :: rest) = r.
Proof.
  intros (H1 & H2 & H3 & H4). unfold read_line. change (c :: 32 :: rest) with ([c] ++ 32 :: rest).
  rewrite words_space by (by intros ?%list_elem_of_singleton).
  destruct (decide (c = 116)), (decide (c = 43)), (decide (c = 45)); try done.
  destruct c as [|c|c]; [done| |done]. do 8 (destruct c; try done).
Qed.

(** [c] and then arguments: the line starts with [c] and a space. *)
Lemma writes_other ls c a args : other c → (∀ t, t ∈ a :: args → ∃ x, WriteToken t = Ret x) →
  writes ls (chr c :: a :: args) id.
Proof.
  intros Hc Ha. assert (∃ l, WriteHexLine (a :: args) = Ret l) as (l & El).
  { revert a Ha. induction args as [|b args IH]; intros a Ha.
    - destruct (Ha a) as [x E]; [by left|]. by exists x.
    - destruct (Ha a) as [x E]; [by left|]. destruct (IH b) as [l El]; [intros t Ht; apply Ha; by right|].
      exists (x ++ 32 :: l). rewrite WriteHexLine_cons, E. step_ret. by rewrite El. }
  exists ([c] ++ 32 :: l). unfold write_line. rewrite WriteHexLine_cons. cbn [WriteToken chr]. step_ret.
  rewrite El. do 2 step_ret. split; [done|]. intros r. by apply read_other.
Qed.

Lemma hex_writes v : 0 ≤ v < 2 ^ 60 → ∃ x, WriteToken (THex v) = Ret x.
Proof. intros (t & E & _)%hex_text. by exists t. Qed.

(** ** What a reader knows *)

(** The frames of a node, outermost first, as a reader collects them. *)
Fixpoint node_path (fuel : nat) (nodes : list (Z * Z)) (node : Z) : option (list Z) :=
  if node =? 0 then Some []
  else
    match fuel, nodes !! Z.to_nat (node - 1) with
    | S fuel, Some (ip, parent) => path ← node_path fuel nodes parent; Some (path ++ [ip])
    | _, _ => None
    end.

(** The nodes of the file describe the paths of the tree; addresses are written less one. *)
Definition nodes_describe (nodes : list (Z * Z)) (paths : list (list Z)) : Prop :=
  length paths = S (length nodes) ∧
  ∀ m path p, paths !! m = Some (path ++ [p]) →
    ∃ parent, nodes !! (m - 1)%nat = Some (p - 1, parent) ∧ (0 < m)%nat
      ∧ 0 ≤ parent ∧ paths !! Z.to_nat parent = Some path.

Lemma node_path_spec nodes paths t : tree_repr t paths → nodes_describe nodes paths →
  ∀ path fuel node, 0 ≤ node → paths !! Z.to_nat node = Some path → (length path ≤ fuel)%nat →
  node_path fuel nodes node = Some (Z.pred <$> path).
Proof.
  intros Ht [Hl Hn]. induction path as [|p path IH] using rev_ind; intros fuel node H0 Hp Hf.
  - assert (node = 0) as -> by (eapply tree_repr_inj; [exact Ht|done|done|exact Hp|apply Ht]).
    by destruct fuel.
  - destruct (Hn _ _ _ Hp) as (parent & E & Hm & Hpar & Hpp).
    rewrite length_app in Hf. cbn in Hf. destruct fuel as [|fuel]; [lia|]. cbn [node_path].
    destruct (Z.eqb_spec node 0); [lia|].
    replace (Z.to_nat (node - 1)) with (Z.to_nat node - 1)%nat by lia. rewrite E.
    rewrite (IH fuel parent Hpar Hpp) by lia. cbn. by rewrite fmap_app.
Qed.

(** What the index keeps about the file: frames small enough to be written are. *)
Definition file_tracks (live : gmap Z (Z * Z)) (_rev : gmap Z Z) (paths : list (list Z))
    (ls : outcome (list text)) : Prop :=
  (∀ path p, path ∈ paths → p ∈ path → 1 ≤ p ≤ 2 ^ 60) → zlen paths < 2 ^ 32 →
  ∃ l, ls = Ret l ∧ nodes_describe (rd_nodes (read_file l)) paths ∧ rd_live (read_file l) = live.

Lemma file_tracks_new live rev paths ls n i path ptr :
  file_tracks live rev paths ls → 0 ≤ n → paths !! Z.to_nat n = Some path → rev !! i = Some ptr →
  file_tracks live rev (paths ++ [path ++ [ptr]]) (on_new_node ptr i n ls).
Proof.
  intros Hf Hn Hpath _ Hb Hz. rewrite zlen_app in Hz. change (zlen [path ++ [ptr]]) with 1 in Hz.
  destruct Hf as (l & -> & [Hl Hd] & Hlive).
  { intros q p Hq. apply Hb. apply elem_of_app. by left. }
  { lia. }
  assert (1 ≤ ptr ≤ 2 ^ 60) as Hp.
  { apply (Hb (path ++ [ptr])); apply elem_of_app; right; by apply list_elem_of_singleton. }
  apply lookup_lt_Some in Hpath as Hlt. unfold on_new_node. step_ret.
  rewrite u64_small by (unfold is_u64; lia).
  destruct (writes_node l (ptr - 1) n) as (x & E & Hx); [lia|unfold zlen in *; lia|].
  exists (l ++ [x]). split; [done|]. rewrite read_file_snoc, Hx. cbn. split; [|done].
  split; [rewrite !length_app; cbn; lia|].
  intros m path' p Hm. apply lookup_snoc_Some in Hm as [Hm|[-> E']].
  - destruct (Hd m path' p Hm) as (parent & ? & ? & ? & ?). exists parent.
    rewrite !lookup_snoc_Some. auto.
  - apply app_inj_tail in E' as [<- <-]. exists n. rewrite !lookup_snoc_Some.
    split_and!; auto; [right; split; [lia|done]|lia].
Qed.

Lemma file_tracks_mono live rev rev' paths ls : rev ⊆ rev' →
  file_tracks live rev paths ls → file_tracks live rev' paths ls.
Proof. done. Qed.

(** ** The invariant

    [answers] are the traces as the finder tells them; it need not know all. *)

Section replay.
Context (hash_order : gset Z → list Z) (hash_order_perm : ∀ X, hash_order X ≡ₚ elements X).
Context (finder : Z → outcome (option Stacktrace)) (answers : Z → option Stacktrace).
Context (answers_ok : ∀ id st, answers id = Some st → st_ok st ∧ Forall (fun p => 0 ≤ p ≤ 2 ^ 60) (GetTrace st)).
Implicit Types (w : HeaptrackWriter).

Definition reader_of w : Reader := read_file (ht_ofstream w).

(** The allocation a reader should see under an id. *)
Definition shown w (id : Z) : option (Z * Z) :=
  match ht_summaries w !! id, ht_writtenTraces w !! id with
  | Some t, Some node => if 0 <? ts_prev t then Some (ts_prev t, node) else None
  | _, _ => None
  end.

Record hw_inv w : Prop := {
  hw_tree : ∃ paths, tree_repr (ht_tree w) paths ∧ nodes_describe (rd_nodes (reader_of w)) paths
    ∧ (∀ path p, path ∈ paths → p ∈ path → 1 ≤ p ≤ 2 ^ 60)
    ∧ zlen paths ≤ 1 + 64 * Z.of_nat (size (ht_writtenTraces w))
    ∧ ∀ id node, ht_writtenTraces w !! id = Some node →
        0 ≤ node ∧ ∃ st, answers id = Some st ∧ paths !! Z.to_nat node = Some (frames st);
  hw_live id : rd_live (reader_of w) !! id = shown w id;
  hw_written id : is_Some (ht_writtenTraces w !! id) → is_Some (ht_summaries w !! id);
  hw_prev id t : ht_summaries w !! id = Some t → ts_prev t ≠ 0 → is_Some (ht_writtenTraces w !! id);
  hw_ids id : is_Some (ht_summaries w !! id) → 0 ≤ id < 2 ^ 60;
  hw_current id t : ht_summaries w !! id = Some t → is_i64 (ts_current t);
}.

(** There are few enough traces for the ids of the nodes. *)
Definition few_nodes w : Prop := 1 + 64 * Z.of_nat (size (ht_summaries w)) < 2 ^ 32.

Lemma written_size w : hw_inv w → (size (ht_writtenTraces w) ≤ size (ht_summaries w))%nat.
Proof.
  intros Hw. rewrite <- (size_dom (D := gset Z) (ht_writtenTraces w)), <- (size_dom (D := gset Z) (ht_summaries w)).
  apply subseteq_size. intros id. rewrite !elem_of_dom. apply Hw.
Qed.

(** A trace that has no node yet leaves room for 64 more. *)
Lemma unwritten_size w id : hw_inv w → ht_writtenTraces w !! id = None → is_Some (ht_summaries w !! id) →
  (size (ht_writtenTraces w) < size (ht_summaries w))%nat.
Proof.
  intros Hw Hn Hs. rewrite <- (size_dom (D := gset Z) (ht_writtenTraces w)), <- (size_dom (D := gset Z) (ht_summaries w)).
  apply subset_size. split.
  - intros i. rewrite !elem_of_dom. apply Hw.
  - intros Hsub. specialize (Hsub id). rewrite !elem_of_dom, Hn in Hsub. destruct (Hsub Hs). done.
Qed.

(** Everything but the lines and one summary stays. *)
Definition flushed w w' (id cur : Z) : Prop :=
  ht_summaries w' = <[id := mkTraceSummary cur cur]> (ht_summaries w) ∧
  ht_changedSummaries w' = ht_changedSummaries w ∧ ht_updateModules w' = ht_updateModules w.

Lemma flush_summary_lines w id node t :
  hw_inv w → ht_writtenTraces w !! id = Some node → ht_summaries w !! id = Some t →
  0 ≤ node < 2 ^ 60 → ts_current t < 2 ^ 60 →
  ∃ ls1 ls2, (if negb (ts_prev t =? 0) then WriteDeallocation (ht_ofstream w) id else Ret (ht_ofstream w)) = Ret ls1
    ∧ (if 0 <? ts_current t then WriteAllocation ls1 id (ts_current t) node else Ret ls1) = Ret ls2
    ∧ rd_nodes (read_file ls2) = rd_nodes (reader_of w)
    ∧ ∀ id', rd_live (read_file ls2) !! id' =
        if decide (id' = id) then (if 0 <? ts_current t then Some (ts_current t, node) else None)
        else rd_live (reader_of w) !! id'.
Proof.
  intros Hw Hn Ht Hb Hc. pose proof (hw_ids _ Hw id) as Hid. rewrite Ht in Hid. specialize (Hid ltac:(done)).
  assert (∃ ls1, (if negb (ts_prev t =? 0) then WriteDeallocation (ht_ofstream w) id else Ret (ht_ofstream w)) = Ret ls1
    ∧ rd_nodes (read_file ls1) = rd_nodes (reader_of w)
    ∧ rd_live (read_file ls1) = delete id (rd_live (reader_of w))) as (ls1 & E1 & N1 & L1).
  { destruct (Z.eqb_spec (ts_prev t) 0) as [E|E]; cbn [negb].
    - exists (ht_ofstream w). split; [done|]. split; [done|]. symmetry. apply delete_id.
      change (read_file (ht_ofstream w)) with (reader_of w). rewrite (hw_live _ Hw). unfold shown.
      by rewrite Ht, Hn, E.
    - destruct (writes_dealloc (ht_ofstream w) id Hid) as (l & E1 & Hl). exists (ht_ofstream w ++ [l]).
      split; [done|]. by rewrite read_file_snoc, Hl. }
  exists ls1. destruct (Z.ltb_spec 0 (ts_current t)).
  - destruct (writes_alloc ls1 (ts_current t) node id) as (l & E2 & Hl); [lia|lia|done|].
    exists (ls1 ++ [l]). split; [done|]. split; [done|]. rewrite read_file_snoc, Hl. cbn. split; [done|].
    intros id'. case_decide; [subst; apply lookup_insert_eq|]. rewrite lookup_insert_ne, L1 by done.
    by rewrite lookup_delete_ne.
  - exists ls1. split; [done|]. split; [done|]. split; [done|]. intros id'. rewrite L1.
    case_decide; [subst; apply lookup_delete_eq|by rewrite lookup_delete_ne].
Qed.

Lemma flush_summary_spec w id node t :
  hw_inv w → few_nodes w → ht_writtenTraces w !! id = Some node → ht_summaries w !! id = Some t →
  ts_current t < 2 ^ 60 →
  ∃ w', flush_summary w id node = Ret w' ∧ hw_inv w' ∧ flushed w w' id (ts_current t).
Proof.
  intros Hw Hsz Hn Ht Hc. pose proof (hw_tree _ Hw) as (paths & Hr & Hd & Hsm & Hz & Hp).
  destruct (Hp id node Hn) as (Hn0 & st & Hst & Hpath). apply lookup_lt_Some in Hpath as Hlt.
  pose proof (written_size w Hw) as Hws. unfold few_nodes in Hsz.
  destruct (flush_summary_lines w id node t Hw Hn Ht) as (ls1 & ls2 & E1 & E2 & N2 & L2);
    [unfold zlen in *; lia|done|].
  unfold flush_summary. rewrite Ht. change (default (mkTraceSummary 0 0) (Some t)) with t. cbv zeta.
  rewrite E1. step_ret. rewrite E2. step_ret.
  eexists. split; [done|]. split; [|done]. split.
  - exists paths. unfold reader_of. cbn. rewrite N2. done.
  - intros id'. unfold reader_of. cbn. rewrite L2. unfold shown. cbn. case_decide as E.
    + subst. by rewrite lookup_insert_eq, Hn.
    + rewrite lookup_insert_ne by done. apply Hw.
  - cbn. intros id' H. apply (hw_written _ Hw) in H. destruct (decide (id' = id)) as [->|];
      [by rewrite lookup_insert_eq|by rewrite lookup_insert_ne].
  - cbn. intros id' t' [[<- <-]|[_ H]]%lookup_insert_Some; [by rewrite Hn|by apply Hw].
  - cbn. intros id' H. apply (hw_ids _ Hw). destruct (decide (id' = id)) as [->|];
      [by rewrite Ht|by rewrite lookup_insert_ne in H].
  - cbn. intros id' t' [[<- <-]|[_ H]]%lookup_insert_Some; [apply (hw_current _ Hw id t Ht)|by apply (hw_current _ Hw id')].
Qed.

(** The trace gets its node. *)
Lemma index_trace w id st : answers id = Some st →
  hw_inv w → few_nodes w → ht_writtenTraces w !! id = None → is_Some (ht_summaries w !! id) →
  ∃ node tree ls, index on_new_node (ht_tree w) (Ret (ht_ofstream w)) st = (node, tree, Ret ls)
    ∧ hw_inv (mkHeaptrackWriter ls (ht_summaries w) (ht_changedSummaries w)
        (<[id := node]> (ht_writtenTraces w)) (ht_updateModules w) tree).
Proof.
  intros Ha Hw Hsz Hn Hs. pose proof (hw_tree _ Hw) as (paths & Hr & Hd & Hsm & Hz & Hp).
  pose proof (unwritten_size w id Hw Hn Hs) as Hws. unfold few_nodes in Hsz.
  destruct (answers_ok id st Ha) as [Hst Hfr].
  pose proof (GetTrace_bound st Hst) as Hb. unfold MaxUnwindDepth in Hb.
  destruct (index_spec on_new_node (file_tracks (rd_live (reader_of w)))
    (fun rev rev' paths ls => file_tracks_mono _ rev rev' paths ls)
    (fun rev paths ls n i path ptr => file_tracks_new _ rev paths ls n i path ptr)
    (ht_tree w) (Ret (ht_ofstream w)) paths st Hr) as (node & tree & ls' & paths' & -> & Hix).
  { intros _ _. by exists (ht_ofstream w). }
  { lia. }
  destruct Hix as [Hr' [Hn0 Hnode] Hft Hold Hcount Hdepth].
  assert (Hfb : ∀ p, p ∈ frames st → 1 ≤ p ≤ 2 ^ 60).
  { intros p [Hp0 Hin]%list_elem_of_filter. rewrite elem_of_reverse in Hin.
    rewrite Forall_forall in Hfr. specialize (Hfr p Hin). cbn in Hfr. lia. }
  assert (Hsm' : ∀ path p, path ∈ paths' → p ∈ path → 1 ≤ p ≤ 2 ^ 60).
  { intros path p Hq Hin. destruct (Hdepth path Hq) as [Hq'|[rest E]]; [by apply (Hsm path)|].
    apply Hfb. rewrite E. apply elem_of_app. by left. }
  assert (Hfl : zlen (frames st) ≤ 64).
  { unfold frames, zlen in *. pose proof (length_filter (fun p => p ≠ 0) (reverse (GetTrace st))) as Hlf.
    rewrite length_reverse in Hlf. lia. }
  destruct Hft as (ls & -> & Hd' & Hl'); [done|lia|].
  exists node, tree, ls. split; [done|]. split; cbn; try apply Hw.
  - exists paths'. split; [done|]. split; [done|]. split; [done|].
    rewrite map_size_insert_None by done. split; [lia|].
    intros id' node' [[<- <-]|[_ H]]%lookup_insert_Some; [split; [done|]; by exists st|].
    destruct (Hp id' node' H) as (? & st' & ? & ?). split; [done|]. exists st'. split; [done|]. by eapply prefix_lookup_Some.
  - intros id'. unfold reader_of. cbn. rewrite Hl', (hw_live _ Hw). unfold shown. cbn.
    destruct (decide (id' = id)) as [->|]; [|by rewrite lookup_insert_ne].
    rewrite lookup_insert_eq, Hn. destruct (ht_summaries w !! id) as [t|] eqn:Et; [|done].
    destruct (decide (ts_prev t = 0)) as [E|E]; [by rewrite E|].
    apply (hw_prev _ Hw id t Et) in E. rewrite Hn in E. by destruct E.
  - intros id' [node' [[<- _]|[_ H]]%lookup_insert_Some]; [done|]. apply (hw_written _ Hw). by exists node'.
  - intros id' t Ht Ht0. destruct (decide (id' = id)) as [->|]; [by rewrite lookup_insert_eq|].
    rewrite lookup_insert_ne by done. by apply (hw_prev _ Hw id' t).
Qed.

(** What a flush leaves of a trace: its balance is shown, or its frames are unknown. *)
Definition settled w (id : Z) : Prop :=
  (is_Some (ht_writtenTraces w !! id) ∧ ∀ t, ht_summaries w !! id = Some t → ts_prev t = ts_current t)
  ∨ (ht_writtenTraces w !! id = None ∧ answers id = None).

(** What stays when traces are flushed. *)
Record keeps w w' : Prop := {
  kp_changed : ht_changedSummaries w' = ht_changedSummaries w;
  kp_modules : ht_updateModules w' = ht_updateModules w;
  kp_current id : ts_current <$> ht_summaries w' !! id = ts_current <$> ht_summaries w !! id;
}.

Lemma keeps_dom w w' : keeps w w' → dom (ht_summaries w') = dom (ht_summaries w).
Proof.
  intros Hk. apply set_eq. intros id. rewrite !elem_of_dom. pose proof (kp_current _ _ Hk id) as Hc.
  destruct (ht_summaries w' !! id), (ht_summaries w !! id); done.
Qed.

Lemma keeps_few w w' : keeps w w' → few_nodes w → few_nodes w'.
Proof. intros Hk. unfold few_nodes. by rewrite <- !(size_dom (D := gset Z)), (keeps_dom _ _ Hk). Qed.

Lemma keeps_trans w1 w2 w3 : keeps w1 w2 → keeps w2 w3 → keeps w1 w3.
Proof. intros [A1 A2 A3] [B1 B2 B3]. split; [congruence..|]. intros id. by rewrite B3. Qed.

Lemma flushed_keeps w w' id t : ht_summaries w !! id = Some t → flushed w w' id (ts_current t) → keeps w w'.
Proof.
  intros Ht (F1 & F2 & F3). split; [done..|]. intros i. rewrite F1.
  destruct (decide (i = id)) as [->|]; [by rewrite lookup_insert_eq, Ht|by rewrite lookup_insert_ne].
Qed.

(** The numbers of a trace have at most 15 digits. *)
Definition known_for w (id : Z) : Prop := ht_writtenTraces w !! id = None → finder id = Ret (answers id).
Definition small_for w (id : Z) : Prop := ∀ t, ht_summaries w !! id = Some t → ts_current t < 2 ^ 60.

Lemma flush_trace_spec w id t : hw_inv w → few_nodes w → ht_summaries w !! id = Some t →
  known_for w id → small_for w id →
  ∃ w', flush_trace finder w id = Ret w' ∧ hw_inv w' ∧ keeps w w' ∧ settled w' id
    ∧ ∀ i, i ≠ id → ht_summaries w' !! i = ht_summaries w !! i ∧ ht_writtenTraces w' !! i = ht_writtenTraces w !! i.
Proof.
  intros Hw Hf Ht Hk Hs. unfold flush_trace. destruct (ht_writtenTraces w !! id) as [node|] eqn:En.
  - destruct (flush_summary_spec w id node t Hw Hf En Ht (Hs t Ht)) as (w' & E & Hw' & Hfl). exists w'.
    assert (Ew : ht_writtenTraces w' = ht_writtenTraces w) by (unfold flush_summary in E; inv_ret; done).
    split; [done|]. split; [done|]. split; [by eapply flushed_keeps|]. destruct Hfl as (F1 & _). split.
    + left. rewrite Ew, En, F1, lookup_insert_eq. split; [done|]. by intros ? [= <-].
    + intros i Hi. by rewrite Ew, F1, lookup_insert_ne.
  - rewrite (Hk En). step_ret. destruct (answers id) as [st|] eqn:Ea.
    2: { exists w. split; [done|]. split; [done|]. split; [done|]. split; [by right|done]. }
    destruct (index_trace w id st Ea Hw Hf En) as (node & tree & ls & -> & Hw1); [by rewrite Ht|]. step_ret.
    set (w1 := mkHeaptrackWriter _ _ _ _ _ _) in *.
    destruct (flush_summary_spec w1 id node t Hw1 Hf) as (w' & E & Hw' & Hfl); [apply lookup_insert_eq|done|by apply Hs|].
    exists w'. assert (Ew : ht_writtenTraces w' = <[id := node]> (ht_writtenTraces w)) by (unfold flush_summary in E; inv_ret; done).
    split; [done|]. split; [done|]. split.
    { destruct (flushed_keeps w1 w' id t Ht Hfl) as [? ? ?]. by split. }
    destruct Hfl as (F1 & _). split.
    + left. rewrite Ew, F1, !lookup_insert_eq. split; [done|]. by intros ? [= <-].
    + intros i Hi. by rewrite Ew, F1, !lookup_insert_ne.
Qed.

(** Every listed summary is settled; the others keep their values. *)
Lemma flush_traces_spec ids : ∀ w, hw_inv w → few_nodes w → NoDup ids →
  (∀ id, id ∈ ids → is_Some (ht_summaries w !! id) ∧ known_for w id ∧ small_for w id) →
  ∃ w', flush_traces finder w ids = Ret w' ∧ hw_inv w' ∧ keeps w w' ∧ (∀ id, id ∈ ids → settled w' id)
    ∧ ∀ i, i ∉ ids → ht_summaries w' !! i = ht_summaries w !! i ∧ ht_writtenTraces w' !! i = ht_writtenTraces w !! i.
Proof.
  induction ids as [|id ids IH]; intros w Hw Hf Hnd Hin; cbn [flush_traces].
  { exists w. split; [done|]. split; [done|]. split; [done|]. split; [by intros ? ?%not_elem_of_nil|done]. }
  apply NoDup_cons in Hnd as [Hni Hnd]. destruct (Hin id) as ([t Ht] & Hk & Hs); [by left|].
  destruct (flush_trace_spec w id t Hw Hf Ht Hk Hs) as (w1 & -> & Hw1 & Hk1 & Hs1 & Ho1). step_ret.
  destruct (IH w1 Hw1 (keeps_few _ _ Hk1 Hf) Hnd) as (w2 & -> & Hw2 & Hk2 & Hs2 & Ho2).
  { intros i Hi. destruct (Ho1 i) as [E1 E2]; [congruence|]. unfold known_for, small_for. rewrite E1, E2. apply Hin. by right. }
  exists w2. split; [done|]. split; [done|]. split; [by eapply keeps_trans|]. split.
  - intros i [->|Hi]%elem_of_cons; [|by apply Hs2]. destruct (Ho2 id Hni) as [E1 E2]. unfold settled. by rewrite E1, E2.
  - intros i [Hne Hi]%not_elem_of_cons. destruct (Ho2 i Hi) as [-> ->]. by apply Ho1.
Qed.

(** *** Lines a reader skips *)

Definition env_ok (env : FlushEnv) : Prop :=
  0 ≤ env_elapsed env < 2 ^ 60 ∧ 0 ≤ env_maxrss env < 2 ^ 60 ∧
  Forall (fun m => 0 ≤ zlen (dlpi_name m) < 2 ^ 60 ∧ 0 ≤ dlpi_addr m < 2 ^ 60 ∧
            Forall (fun ph => 0 ≤ ph.1.2 < 2 ^ 60 ∧ 0 ≤ ph.2 < 2 ^ 60) (dlpi_phdr m)) (env_modules env).

Lemma write_segments_spec phdrs : Forall (fun ph : Z * Z * Z => 0 ≤ ph.1.2 < 2 ^ 60 ∧ 0 ≤ ph.2 < 2 ^ 60) phdrs →
  ∃ x, write_segments phdrs = Ret x.
Proof.
  induction 1 as [|[[ty va] sz] phdrs [H1 H2] _ [x IH]]; [by exists []|]. cbn [write_segments fst snd] in *.
  destruct (hex_text va H1) as (t1 & E1 & _). destruct (hex_text sz H2) as (t2 & E2 & _).
  assert (∃ a, (if ty =? PT_LOAD then WriteHexLine [TStr []; THex va; THex sz] else Ret []) = Ret a) as [a ->].
  { destruct (ty =? PT_LOAD); [|by exists []]. rewrite !WriteHexLine_cons. cbn [WriteToken WriteHexLine].
    rewrite E1, E2. eexists. reflexivity. }
  step_ret. rewrite IH. step_ret. by eexists.
Qed.

Lemma dl_iterate_spec infos : ∀ ls,
  Forall (fun m => 0 ≤ zlen (dlpi_name m) < 2 ^ 60 ∧ 0 ≤ dlpi_addr m < 2 ^ 60 ∧
            Forall (fun ph => 0 ≤ ph.1.2 < 2 ^ 60 ∧ 0 ≤ ph.2 < 2 ^ 60) (dlpi_phdr m)) infos →
  ∃ ls', dl_iterate_phdr ls infos = Ret ls' ∧ read_file ls' = read_file ls.
Proof.
  induction infos as [|info infos IH]; intros ls Hi; [by exists ls|].
  apply Forall_cons in Hi as [(Hn & Ha & Hp) Hi]. cbn [dl_iterate_phdr]. unfold iterate_dl_headers.
  set (name := match dlpi_name info with [] => [120] | n => n end).
  assert (0 ≤ zlen name < 2 ^ 60) as Hz by (subst name; destruct (dlpi_name info); [done|exact Hn]).
  destruct (hex_text _ Hz) as (t1 & E1 & _). destruct (hex_text _ Ha) as (t2 & E2 & _).
  rewrite !WriteHexLine_cons. cbn [WriteToken WriteHexLine chr]. rewrite E1, E2. repeat step_ret.
  destruct (write_segments_spec _ Hp) as [x ->]. do 2 step_ret.
  edestruct IH as (ls' & -> & Hr); [exact Hi|]. eexists. split; [done|]. rewrite Hr, read_file_snoc.
  rewrite <- app_assoc. by apply read_other.
Qed.

Lemma WriteTimestamp_spec ls v : 0 ≤ v < 2 ^ 60 → ∃ l, WriteTimestamp ls v = Ret l ∧ read_file l = read_file ls.
Proof.
  intros Hv. destruct (writes_other ls 99 (THex v) []) as (l & E & Hl); [done| |].
  { intros t ->%list_elem_of_singleton. by apply hex_writes. }
  eexists. split; [exact E|]. by rewrite read_file_snoc, Hl.
Qed.

Lemma WriteRSS_spec ls v : 0 ≤ v < 2 ^ 60 → ∃ l, WriteRSS ls v = Ret l ∧ read_file l = read_file ls.
Proof.
  intros Hv. destruct (writes_other ls 82 (THex v) []) as (l & E & Hl); [done| |].
  { intros t ->%list_elem_of_singleton. by apply hex_writes. }
  eexists. split; [exact E|]. by rewrite read_file_snoc, Hl.
Qed.

(** The invariant looks at the file through the reader only. *)
Lemma hw_inv_ext w ls upd changed : hw_inv w → read_file ls = reader_of w →
  hw_inv (mkHeaptrackWriter ls (ht_summaries w) changed (ht_writtenTraces w) upd (ht_tree w)).
Proof. intros [H1 H2 H3 H4 H5 H6] E. split; cbn; unfold reader_of; cbn; rewrite ?E; done. Qed.

(** *** The operations *)

(** Summaries that are not marked as changed are settled. *)
Definition marked w : Prop :=
  (∀ id, id ∈ ht_changedSummaries w → is_Some (ht_summaries w !! id)) ∧
  ∀ id, is_Some (ht_summaries w !! id) → id ∉ ht_changedSummaries w → settled w id.

(** What a flush makes visible: the current value of every summary. *)
Definition up_to_date w : Prop := ∀ id, is_Some (ht_summaries w !! id) → settled w id.

Lemma FlushData_spec env w : hw_inv w → few_nodes w → marked w → env_ok env →
  (∀ id, id ∈ ht_changedSummaries w → known_for w id ∧ small_for w id) →
  ∃ w', Heaptrack_FlushData hash_order env finder w = Ret w' ∧ hw_inv w' ∧ marked w' ∧ up_to_date w'
    ∧ ht_changedSummaries w' = ∅ ∧ ∀ id, ts_current <$> ht_summaries w' !! id = ts_current <$> ht_summaries w !! id.
Proof.
  intros Hw Hf [Hm1 Hm2] (He & Hrss & Hmod) Hch. unfold Heaptrack_FlushData.
  destruct (WriteTimestamp_spec (ht_ofstream w) _ He) as (l1 & -> & R1). step_ret.
  destruct (WriteRSS_spec l1 _ Hrss) as (l2 & -> & R2). step_ret.
  assert (∃ l3 upd, (if ht_updateModules w
     then ls ← dl_iterate_phdr (l2 ++ [[109; 32; 49; 32; 45]]) (env_modules env); Ret (ls, false)
     else Ret (l2, ht_updateModules w)) = Ret (l3, upd) ∧ read_file l3 = read_file l2) as (l3 & upd & -> & R3).
  { destruct (ht_updateModules w); [|by eexists _, _].
    destruct (dl_iterate_spec (env_modules env) (l2 ++ [[109; 32; 49; 32; 45]]) Hmod) as (l & -> & R).
    eexists _, _. split; [done|]. rewrite R, read_file_snoc. by apply read_other. }
  step_ret. set (w1 := mkHeaptrackWriter l3 _ _ _ _ _).
  assert (Hw1 : hw_inv w1) by (apply hw_inv_ext; [done|]; unfold reader_of; congruence).
  assert (Hel : ∀ id, id ∈ hash_order (ht_changedSummaries w) ↔ id ∈ ht_changedSummaries w)
    by (intros id; by rewrite hash_order_perm, elem_of_elements).
  destruct (flush_traces_spec (hash_order (ht_changedSummaries w)) w1 Hw1 Hf) as (w2 & -> & Hw2 & Hk & Hs & Ho).
  { rewrite hash_order_perm. apply NoDup_elements. }
  { intros id Hid%Hel. split; [by apply Hm1|by apply Hch]. }
  step_ret. assert (Hup : ∀ id, is_Some (ht_summaries w2 !! id) → settled w2 id).
  { intros id Hid. destruct (decide (id ∈ ht_changedSummaries w)) as [Hin|Hin]; [by apply Hs, Hel|].
    destruct (Ho id) as [E1 E2]; [by rewrite Hel|]. unfold settled. rewrite E1, E2. apply Hm2; [by rewrite E1 in Hid|done]. }
  eexists. split; [done|]. split; [by apply hw_inv_ext|].
  split; [split; cbn; [by intros id ?%elem_of_empty|intros id Hid _; exact (Hup id Hid)]|].
  split; [exact Hup|]. split; [done|]. apply Hk.
Qed.

Definition current w (id : Z) : Z := default 0 (ts_current <$> ht_summaries w !! id).

Lemma account_one_spec w id s :
  hw_inv w → marked w → 0 ≤ id < 2 ^ 60 → (ht_summaries w !! id = None → is_i64 (sum_size s)) →
  let w' := account_one w (id, s) in
  hw_inv w' ∧ marked w' ∧ (∀ i, current w' i = if decide (i = id) then i64 (current w i + sum_size s) else current w i)
  ∧ dom (ht_summaries w') = {[id]} ∪ dom (ht_summaries w).
Proof.
  intros Hw [Hm1 Hm2] Hid Hs w'. unfold account_one in w'.
  set (t := match ht_summaries w !! id with
            | None => mkTraceSummary (sum_size s) 0
            | Some t => mkTraceSummary (i64 (ts_current t + sum_size s)) (ts_prev t) end) in w'.
  assert (Ht : ts_current t = i64 (current w id + sum_size s)).
  { subst t. unfold current in *. destruct (ht_summaries w !! id) as [t0|]; cbn in *; [done|].
    symmetry. by apply i64_small, Hs. }
  assert (Hp : shown w id = match ht_writtenTraces w !! id with
                            | Some node => if 0 <? ts_prev t then Some (ts_prev t, node) else None
                            | None => None end).
  { unfold shown. subst t. destruct (ht_summaries w !! id) as [t0|] eqn:E0; [done|].
    destruct (ht_writtenTraces w !! id) eqn:Ew; [|done].
    destruct (hw_written _ Hw id) as [? ?]; [by rewrite Ew|]. congruence. }
  assert (Hin : ∀ i, is_Some (ht_summaries w !! i) → is_Some (<[id := t]> (ht_summaries w) !! i)).
  { intros i Hi. destruct (decide (i = id)) as [->|]; [by rewrite lookup_insert_eq|by rewrite lookup_insert_ne]. }
  destruct Hw as [H1 H2 H3 H4 H5 H6]. split; [|split; [|split]].
  - split; cbn; try done.
    + intros i. unfold reader_of, shown. cbn. destruct (decide (i = id)) as [->|Hne].
      * rewrite lookup_insert_eq. change (read_file (ht_ofstream w)) with (reader_of w). by rewrite H2, Hp.
      * rewrite lookup_insert_ne by done. apply H2.
    + auto.
    + intros i t' [[<- <-]|[_ H]]%lookup_insert_Some; [|by apply H4].
      subst t. destruct (ht_summaries w !! id) as [t0|] eqn:E0; cbn; [by apply H4|done].
    + intros i. destruct (decide (i = id)) as [->|]; [done|rewrite lookup_insert_ne by done; apply H5].
    + intros i t' [[<- <-]|[_ H]]%lookup_insert_Some; [rewrite Ht; apply i64_range|by apply (H6 i)].
  - split; cbn.
    + intros i [Hi|Hi]%elem_of_union; [apply elem_of_singleton in Hi as ->; by rewrite lookup_insert_eq|auto].
    + intros i Hi [Hni Hn]%not_elem_of_union. rewrite elem_of_singleton in Hni.
      rewrite lookup_insert_ne in Hi by done. destruct (Hm2 i Hi Hn) as [[? Hx]|?]; [left|by right].
      split; [done|]. cbn. by rewrite lookup_insert_ne.
  - intros i. subst w'. unfold current in *. cbn. case_decide as E.
    + subst. rewrite lookup_insert_eq. cbn. done.
    + by rewrite lookup_insert_ne.
  - subst w'. cbn. apply dom_insert_L.
Qed.

(** The size a snapshot adds to an id. *)
Definition size_in (m : list (Z * AllocSummary)) (id : Z) : Z :=
  foldr (fun e acc => (if decide (id = e.1) then sum_size e.2 else 0) + acc) 0 m.

Lemma size_in_cons i s m id :
  size_in ((i, s) :: m) id = (if decide (id = i) then sum_size s else 0) + size_in m id.
Proof. reflexivity. Qed.

Lemma size_in_none m id : id ∉ m.*1 → size_in m id = 0.
Proof.
  induction m as [|[i s] m IH]; [done|]. intros [Hne Hin]%not_elem_of_cons.
  by rewrite size_in_cons, decide_False, IH by done.
Qed.

Lemma current_i64 w id : hw_inv w → is_i64 (current w id).
Proof.
  intros Hw. unfold current. destruct (ht_summaries w !! id) as [t|] eqn:E; [by apply (hw_current _ Hw id)|]. by vm_compute.
Qed.

Lemma account_list_spec l : ∀ w,
  hw_inv w → marked w → NoDup l.*1 →
  (∀ id s, (id, s) ∈ l → 0 ≤ id < 2 ^ 60 ∧ (ht_summaries w !! id = None → is_i64 (sum_size s))) →
  let w' := foldl account_one w l in
  hw_inv w' ∧ marked w' ∧ (∀ i, current w' i = i64 (current w i + size_in l i))
  ∧ dom (ht_summaries w') = list_to_set l.*1 ∪ dom (ht_summaries w).
Proof.
  induction l as [|[id s] l IH]; intros w Hw Hm Hnd Hl w'.
  { subst w'. cbn. split_and!; try done; [|by rewrite (left_id_L ∅ (∪))].
    intros i. rewrite Z.add_0_r. symmetry. by apply i64_small, current_i64. }
  apply NoDup_cons in Hnd as [Hni Hnd]. destruct (Hl id s) as [Hid Hc]; [by left|].
  destruct (account_one_spec w id s Hw Hm Hid Hc) as (Hw1 & Hm1 & Hc1 & Hd1).
  destruct (IH (account_one w (id, s)) Hw1 Hm1 Hnd) as (Hw2 & Hm2 & Hc2 & Hd2).
  { intros i s' Hi. destruct (Hl i s') as [Hi1 Hi2]; [by right|]. split; [done|]. intros Hn. apply Hi2.
    apply not_elem_of_dom in Hn. rewrite Hd1 in Hn.
    apply not_elem_of_dom. by apply not_elem_of_union in Hn as [_ ?]. }
  subst w'. cbn [foldl]. split_and!; try done.
  - intros i. rewrite Hc2, Hc1, size_in_cons. case_decide; [|f_equal; lia]. autorewrite with word. f_equal. lia.
  - rewrite Hd2, Hd1. cbn. by rewrite (assoc_L (∪)), (comm_L (∪) (list_to_set _) {[id]}).
Qed.

(** *** Runs *)

Inductive hop := HAccount (m : SummariesMap) | HFlush (env : FlushEnv) | HModules.

Definition hexec w (op : hop) : outcome HeaptrackWriter :=
  match op with
  | HAccount m => Ret (Heaptrack_AccountSnapshot w m)
  | HFlush env => Heaptrack_FlushData hash_order env finder w
  | HModules => Ret (Heaptrack_UpdateModules w)
  end.

Fixpoint hrun w (ops : list hop) : outcome HeaptrackWriter :=
  match ops with [] => Ret w | op :: ops => w ← hexec w op; hrun w ops end.

(** The bytes that were accounted under an id, and the number of entries. *)
Definition op_size (op : hop) (id : Z) : Z :=
  match op with HAccount m => default 0 (sum_size <$> m !! id) | _ => 0 end.
Definition balance (ops : list hop) (id : Z) : Z := foldr (fun op acc => op_size op id + acc) 0 ops.
Definition op_entries (op : hop) : Z := match op with HAccount m => Z.of_nat (size m) | _ => 0 end.
Definition entries (ops : list hop) : Z := foldr (fun op acc => op_entries op + acc) 0 ops.

Definition op_ok (op : hop) : Prop :=
  match op with
  | HAccount m => ∀ id, is_Some (m !! id) → is_u32 id
  | HFlush env => env_ok env
  | HModules => True
  end.

Lemma size_in_map (m : SummariesMap) id : size_in (map_to_list m) id = default 0 (sum_size <$> m !! id).
Proof.
  pose proof (NoDup_fst_map_to_list m) as Hnd. destruct (m !! id) as [s|] eqn:E; cbn.
  - apply elem_of_map_to_list in E. revert Hnd E. generalize (map_to_list m). intros l.
    induction l as [|[i s'] l IH]; [by intros _ ?%not_elem_of_nil|].
    intros [Hni Hnd]%NoDup_cons [E|E]%elem_of_cons; rewrite size_in_cons.
    + simplify_eq. rewrite decide_True, size_in_none by done. lia.
    + rewrite decide_False; [by rewrite IH|]. intros ->. apply Hni.
      apply list_elem_of_fmap. by exists (i, s).
  - apply size_in_none. rewrite list_elem_of_fmap. intros ([i s] & -> & H%elem_of_map_to_list).
    cbn in E. congruence.
Qed.

Lemma size_in_keys (m : SummariesMap) id : id ∈ (map_to_list m).*1 ↔ is_Some (m !! id).
Proof.
  rewrite list_elem_of_fmap. split.
  - intros ([i s] & -> & H%elem_of_map_to_list). by exists s.
  - intros [s H]. exists (id, s). by rewrite elem_of_map_to_list.
Qed.

(** What a reader finds in a file that is up to date. *)
Lemma reader_live w : hw_inv w → up_to_date w → ∀ id,
  if 0 <? current w id
  then match answers id with
       | Some st => ∃ node, rd_live (read_file (ht_ofstream w)) !! id = Some (current w id, node)
           ∧ node_path 64 (rd_nodes (read_file (ht_ofstream w))) node = Some (Z.pred <$> frames st)
       | None => rd_live (read_file (ht_ofstream w)) !! id = None
       end
  else rd_live (read_file (ht_ofstream w)) !! id = None.
Proof.
  intros Hw Hu id. change (read_file (ht_ofstream w)) with (reader_of w).
  pose proof (hw_live _ Hw id) as Hlive. unfold shown in Hlive. unfold current.
  destruct (ht_summaries w !! id) as [t|] eqn:Et; [|exact Hlive].
  change (default 0 (ts_current <$> Some t)) with (ts_current t).
  destruct (Hu id) as [[[node En] Ep]|[En Ea]]; [by rewrite Et|..]; rewrite En in Hlive; [|rewrite Ea; by destruct (0 <? ts_current t)].
  rewrite (Ep t Et) in Hlive. destruct (hw_tree _ Hw) as (paths & Hr & Hd & _ & _ & Hn).
  destruct (Hn id node En) as (Hn0 & st & Ea & Hpath). rewrite Ea.
  destruct (0 <? ts_current t); [|done]. exists node. split; [done|].
  apply (node_path_spec _ paths (ht_tree w)); try done. destruct (answers_ok id st Ea) as [Hst _].
  pose proof (GetTrace_bound _ Hst) as Hbd. unfold frames, zlen, MaxUnwindDepth in *.
  pose proof (length_filter (fun p => p ≠ 0) (reverse (GetTrace st))) as Hlf.
  rewrite length_reverse in Hlf. lia.
Qed.

Definition good w : Prop := hw_inv w ∧ marked w.

(** Accounting a snapshot. *)
Lemma account_map_spec w (m : SummariesMap) : good w → (∀ id, is_Some (m !! id) → is_u32 id) →
  (∀ id s, m !! id = Some s → ht_summaries w !! id = None → is_i64 (sum_size s)) →
  let w' := Heaptrack_AccountSnapshot w m in
  good w' ∧ (∀ id, current w' id = i64 (current w id + default 0 (sum_size <$> m !! id)))
  ∧ dom (ht_summaries w') = dom m ∪ dom (ht_summaries w).
Proof.
  intros [Hw Hm] Hu Hs. destruct (account_list_spec (map_to_list m) w Hw Hm) as (Hw' & Hm' & Hc & Hd).
  - apply NoDup_fst_map_to_list.
  - intros id s Hin%elem_of_map_to_list. split; [|by apply Hs]. assert (is_u32 id) as Hid by (apply Hu; by rewrite Hin).
    unfold is_u32 in Hid. lia.
  - split; [done|]. split; [intros id; rewrite <- size_in_map; apply Hc|]. unfold Heaptrack_AccountSnapshot. rewrite Hd. f_equal.
    apply set_eq. intros id. rewrite elem_of_list_to_set, size_in_keys. by rewrite elem_of_dom.
Qed.

(** *** Runs with a finder that knows every trace *)

Context (finder_answers : ∀ id, finder id = Ret (answers id)).

Lemma hexec_spec w op : good w → op_ok op →
  (∀ id, - 2 ^ 63 ≤ current w id + op_size op id < 2 ^ 60) →
  1 + 64 * (Z.of_nat (size (ht_summaries w)) + op_entries op) < 2 ^ 32 →
  ∃ w', hexec w op = Ret w' ∧ good w' ∧ (∀ id, current w' id = current w id + op_size op id)
    ∧ Z.of_nat (size (ht_summaries w')) ≤ Z.of_nat (size (ht_summaries w)) + op_entries op.
Proof.
  intros Hg Hok Hb Hz. destruct op as [m|env|]; cbn [hexec op_size op_entries] in *.
  - eexists. split; [done|]. destruct (account_map_spec w m Hg Hok) as (Hg' & Hc & Hd).
    { intros id s Hs Hn. specialize (Hb id). unfold current in Hb. rewrite Hs, Hn in Hb. cbn in Hb. unfold is_i64. lia. }
    split; [done|]. split.
    + intros id. rewrite Hc. apply i64_small. specialize (Hb id). unfold is_i64. lia.
    + rewrite <- !(size_dom (D := gset Z)), Hd. pose proof (size_union_alt (dom m) (dom (ht_summaries w))) as Hu.
      assert (dom (ht_summaries w) ∖ dom m ⊆ dom (ht_summaries w)) as Hle%subseteq_size; [|lia].
      intros id Hid. by apply elem_of_difference in Hid as [? _].
  - destruct Hg as [Hw Hm]. destruct (FlushData_spec env w Hw) as (w' & -> & Hw' & Hm' & Hu & _ & Hc); [unfold few_nodes; lia|done|done| |].
    { intros id Hid. split; [intros _; apply finder_answers|]. intros t Ht. specialize (Hb id). unfold current in Hb. rewrite Ht in Hb. cbn in Hb. lia. }
    exists w'. split; [done|]. split; [done|]. split; [intros id; unfold current; rewrite Hc; lia|].
    assert (dom (ht_summaries w') = dom (ht_summaries w)) as Hd.
    { apply set_eq. intros id. rewrite !elem_of_dom. specialize (Hc id).
      destruct (ht_summaries w' !! id), (ht_summaries w !! id); done. }
    rewrite <- !(size_dom (D := gset Z)), Hd. lia.
  - destruct Hg as [Hw Hm]. eexists. split; [done|]. split; [split; [by apply hw_inv_ext|done]|].
    split; [intros; unfold current; cbn; lia|cbn; lia].
Qed.

Lemma hrun_spec ops : ∀ w, good w → Forall op_ok ops →
  (∀ k id, - 2 ^ 63 ≤ current w id + balance (take k ops) id < 2 ^ 60) →
  1 + 64 * (Z.of_nat (size (ht_summaries w)) + entries ops) < 2 ^ 32 →
  ∃ w', hrun w ops = Ret w' ∧ good w' ∧ (∀ id, current w' id = current w id + balance ops id)
    ∧ Z.of_nat (size (ht_summaries w')) ≤ Z.of_nat (size (ht_summaries w)) + entries ops.
Proof.
  induction ops as [|op ops IH]; intros w Hw Hok Hb Hz; cbn [hrun].
  { exists w. split; [done|]. split; [done|]. cbn. split; [intros; lia|lia]. }
  apply Forall_cons in Hok as [Hop Hok].
  assert (He : 0 ≤ entries ops) by (clear; unfold entries; induction ops as [|[] ops IH]; cbn [foldr op_entries]; lia).
  change (entries (op :: ops)) with (op_entries op + entries ops) in *.
  destruct (hexec_spec w op Hw Hop) as (w1 & -> & Hw1 & Hc1 & Hs1).
  { intros id. specialize (Hb 1%nat id).
    change (balance (take 1 (op :: ops)) id) with (op_size op id + 0) in Hb. lia. }
  { lia. }
  step_ret. destruct (IH w1 Hw1 Hok) as (w2 & -> & Hw2 & Hc2 & Hs2).
  { intros k id. rewrite Hc1. specialize (Hb (S k) id).
    change (balance (take (S k) (op :: ops)) id) with (op_size op id + balance (take k ops) id) in Hb. lia. }
  { lia. }
  exists w2. split; [done|]. split; [done|]. split; [|lia]. intros id. rewrite Hc2, Hc1.
  change (balance (op :: ops) id) with (op_size op id + balance ops id). lia.
Qed.

(** A run and a last flush. *)
Lemma replay_spec ops env w : good w → (∀ id, current w id = 0) → size (ht_summaries w) = 0%nat →
  Forall op_ok ops → env_ok env → (∀ k id, - 2 ^ 63 ≤ balance (take k ops) id < 2 ^ 60) → 1 + 64 * entries ops < 2 ^ 32 →
  ∃ w1 w2, hrun w ops = Ret w1 ∧ Heaptrack_FlushData hash_order env finder w1 = Ret w2
    ∧ hw_inv w2 ∧ up_to_date w2 ∧ ∀ id, current w2 id = balance ops id.
Proof.
  intros Hg Hc0 Hs0 Hops Henv Hb Hz.
  destruct (hrun_spec ops w Hg Hops) as (w1 & E1 & [Hw1 Hm1] & Hc1 & Hs1).
  { intros k id. rewrite Hc0. apply Hb. }
  { rewrite Hs0. lia. }
  destruct (FlushData_spec env w1 Hw1) as (w2 & E2 & Hw2 & _ & Hu & _ & Hc); [unfold few_nodes; lia|done|done| |].
  { intros id Hid. split; [intros _; apply finder_answers|]. intros t Ht. specialize (Hc1 id). unfold current in Hc1 at 1.
    rewrite Ht, Hc0 in Hc1. cbn in Hc1. specialize (Hb (length ops) id). rewrite firstn_all in Hb. lia. }
  exists w1, w2. split; [done|]. split; [done|]. split; [done|]. split; [done|]. intros id.
  transitivity (current w1 id); [unfold current; by rewrite Hc|]. rewrite Hc1, Hc0. lia.
Qed.

(** *** Construction *)

Lemma cmdline_section_spec buf : let '(a, rest) := cmdline_section buf in
  buf = a ++ rest ∧ Forall (fun c => c ≠ 0) a ∧ (rest = [] ∨ ∃ r, rest = 0 :: r).
Proof.
  induction buf as [|c buf IH]; [by split_and!; try left|]. cbn. destruct (Z.eqb_spec c 0) as [->|Hc].
  - split_and!; [done|constructor|right; by eexists].
  - destruct (cmdline_section buf) as [a rest]. destruct IH as (-> & H1 & H2). split_and!; try done.
    by constructor.
Qed.

(** The arguments are written one after the other, without a separator. *)
Lemma WriteCommandLine_loop_spec fuel : ∀ buf, (length buf ≤ fuel)%nat →
  WriteCommandLine_loop fuel buf = Ret (filter (fun c => c ≠ 0) buf).
Proof.
  induction fuel as [|fuel IH]; intros buf Hf; [by destruct buf; [|cbn in Hf; lia]|].
  destruct buf as [|c buf]; [done|]. cbn [WriteCommandLine_loop].
  pose proof (cmdline_section_spec (c :: buf)) as Hs.
  destruct (cmdline_section (c :: buf)) as [a rest]. destruct Hs as (E & Ha & Hr).
  rewrite E. rewrite E in Hf. rewrite length_app in Hf.
  assert (Hfa : filter (fun c => c ≠ 0) a = a).
  { clear -Ha. induction Ha as [|x l Hx _ IH]; [done|]. rewrite filter_cons_True by done. by rewrite IH. }
  assert (0 < length a + length rest)%nat by (apply (f_equal length) in E; rewrite length_app in E; cbn in E; lia).
  rewrite filter_app, Hfa, IH; [|rewrite length_drop; lia]. step_ret. do 2 f_equal.
  destruct Hr as [->|[r ->]]; [done|]. cbn [drop]. rewrite drop_0.
  rewrite filter_cons_False; [done|]. intros Hx. by apply Hx.
Qed.

Lemma ctor_spec exe cmdline pageSize physPages :
  0 ≤ pageSize < 2 ^ 60 → 0 ≤ physPages < 2 ^ 60 →
  ∃ w, HeaptrackWriter_ctor exe cmdline pageSize physPages = Ret w ∧ good w ∧
    (∀ id, current w id = 0) ∧ size (ht_summaries w) = 0%nat.
Proof.
  intros Hp Hq. unfold HeaptrackWriter_ctor.
  assert (∃ l1, WriteVersion [] = Ret l1 ∧ read_file l1 = Reader_init) as (l1 & -> & R1).
  { eexists. split; vm_compute; reflexivity. }
  step_ret.
  assert (∃ l2, WriteExe l1 exe = Ret l2 ∧ read_file l2 = Reader_init) as (l2 & -> & R2).
  { unfold WriteExe. destruct exe as [path|]; [|by exists l1].
    destruct (Z.ltb_spec 0 (zlen path)), (Z.ltb_spec (zlen path) 1023); cbn; try by exists l1.
    destruct (writes_other l1 120 (THex (zlen path)) [TStr path]) as (l & E & Hl); [done| |].
    { intros t [->| ->%list_elem_of_singleton]%elem_of_cons; [apply hex_writes; lia|by eexists]. }
    exists (l1 ++ [l]). split; [exact E|]. by rewrite read_file_snoc, Hl. }
  step_ret. unfold WriteCommandLine. rewrite WriteCommandLine_loop_spec by done. do 2 step_ret.
  set (l3 := l2 ++ _).
  assert (R3 : read_file l3 = Reader_init).
  { subst l3. rewrite read_file_snoc, R2. by apply read_other. }
  destruct (writes_other l3 73 (THex pageSize) [THex physPages]) as (l & E & Hl); [done| |].
  { intros t [->| ->%list_elem_of_singleton]%elem_of_cons; by apply hex_writes. }
  unfold WriteSystemInfo. rewrite E. step_ret. eexists. split; [done|].
  assert (R4 : read_file (l3 ++ [l]) = Reader_init) by (by rewrite read_file_snoc, Hl, R3).
  split; [|split; [done|done]]. split; [|split; cbn; [by intros ? ?%elem_of_empty|by intros ? [? ?%lookup_empty_Some]]].
  split; cbn; unfold reader_of; cbn; rewrite ?R4; try done.
  - exists [[]]. split; [apply tree_repr_init|]. split.
    { split; [done|]. intros m path p Hm%list_lookup_singleton_Some. destruct Hm as [_ Hm]. by destruct path. }
    split; [|split; [done|done]]. intros path p ->%list_elem_of_singleton Hin. by apply not_elem_of_nil in Hin.
  - intros id [? ?]. done.
  - intros id [? ?]. done.
Qed.
End replay.

(** ** Lines in the text

    The lines a reader finds are those that were written, when the names that are written have
    no newline in them. *)

Definition unbroken (ls : list text) : Prop := Forall (fun l => 10 ∉ l) ls.

Lemma lines_line l : ∀ cur t, 10 ∉ l → lines_from cur (l ++ 10 :: t) = (reverse cur ++ l) :: lines_from [] t.
Proof.
  induction l as [|c l IH]; intros cur t Hl; cbn [app lines_from].
  { by rewrite app_nil_r. }
  apply not_elem_of_cons in Hl as [Hc Hl]. destruct (Z.eqb_spec c 10); [done|].
  rewrite IH by done. by rewrite reverse_cons, <- app_assoc.
Qed.

Lemma read_text_lines ls : unbroken ls → read_text (file_text ls) = read_file ls.
Proof.
  intros Hls. unfold read_text. f_equal. unfold file_text. induction Hls as [|l ls Hl _ IH]; [done|].
  cbn. rewrite <- app_assoc. cbn [app]. rewrite lines_line by done. by rewrite IH.
Qed.

Ltac by_evaluation := apply (bool_decide_unpack _); vm_compute; exact Logic.I.

Definition hex_char (c : Z) : Prop := c = 0 ∨ c ∈ hexChars.

Lemma hex_char_put buf k c : Forall hex_char buf → hex_char c → Forall hex_char (put buf k c).
Proof. intros. unfold put. by apply Forall_insert. Qed.

Lemma WriteHexValue_loop_chars fuel : ∀ buf data v buf' data' v', Forall hex_char buf →
  WriteHexValue_loop fuel buf data v = Ret (buf', data', v') → Forall hex_char buf'.
Proof.
  induction fuel as [|fuel IH]; intros buf data v buf' data' v' Hb E; cbn [WriteHexValue_loop] in E;
    destruct (15 <? v); try done; try by simplify_eq.
  apply bind_ret_inv in E as (c & Hc & E). apply bind_ret_inv in E as (buf1 & Hw & E).
  apply rd_inv in Hc as [_ Hc]. apply wr_inv in Hw as [_ ->]. eapply IH; [|exact E].
  apply hex_char_put; [done|]. right. by eapply list_elem_of_lookup_2.
Qed.

Lemma c_string_chars buf : Forall hex_char buf → 10 ∉ c_string buf.
Proof.
  induction 1 as [|c buf Hc _ IH]; cbn [c_string]; [apply not_elem_of_nil|].
  destruct (Z.eqb_spec c 0) as [->|Hn]; [apply not_elem_of_nil|]. apply not_elem_of_cons. split; [|done].
  intros <-. destruct Hc as [?|Hc]; [done|]. revert Hc. change (10 ∉ hexChars). by_evaluation.
Qed.

Lemma WriteHexValue_chars v t : WriteHexValue v = Ret t → 10 ∉ t.
Proof.
  unfold WriteHexValue. intros E. apply bind_ret_inv in E as ([[buf data] v'] & El & E).
  apply WriteHexValue_loop_chars in El; [|apply Forall_replicate; by left].
  apply bind_ret_inv in E as (c & Hc & E). apply rd_inv in Hc as [_ Hc].
  apply bind_ret_inv in E as (buf1 & Hw & E). apply wr_inv in Hw as [_ ->].
  apply bind_ret_inv in E as (buf2 & Hw & E). apply wr_inv in Hw as [_ ->]. injection E as <-.
  apply c_string_chars, hex_char_put; [|by left].
  assert (Hb : Forall hex_char (put buf data c)) by (apply hex_char_put; [done|right; by eapply list_elem_of_lookup_2]).
  apply Forall_app. split; [by apply Forall_reverse, Forall_take|by apply Forall_drop].
Qed.

Definition clean_token (a : token) : Prop := match a with TStr t => 10 ∉ t | THex _ => True end.

Lemma WriteHexLine_chars args : ∀ l, WriteHexLine args = Ret l → Forall clean_token args → 10 ∉ l.
Proof.
  assert (Ht : ∀ a t, clean_token a → WriteToken a = Ret t → 10 ∉ t)
    by (intros [x|v] t Ha E; [by injection E as <-|by eapply WriteHexValue_chars]).
  induction args as [|a args IH]; intros l E Ha; [injection E as <-; apply not_elem_of_nil|].
  apply Forall_cons in Ha as [Ha Hargs]. destruct args as [|b args]; [by eapply Ht|].
  rewrite WriteHexLine_cons in E. apply bind_ret_inv in E as (x & Ex & E). apply bind_ret_inv in E as (r & Er & E).
  injection E as <-. rewrite elem_of_app, elem_of_cons. intros [Hx|[Hx|Hx]]; [by eapply Ht|done|by eapply IH].
Qed.

Lemma write_line_unbroken ls args ls' : write_line ls args = Ret ls' → unbroken ls → Forall clean_token args → unbroken ls'.
Proof.
  intros E Hls Ha. unfold write_line in E. apply bind_ret_inv in E as (l & El & E). injection E as <-.
  apply Forall_app. split; [done|]. apply Forall_singleton. by eapply WriteHexLine_chars.
Qed.

Ltac clean_tokens := repeat (apply List.Forall_cons; [first [exact Logic.I|cbn; by_evaluation]|]); apply List.Forall_nil.

(** Names without a newline. *)
Definition clean_env (env : FlushEnv) : Prop := Forall (fun m => 10 ∉ dlpi_name m) (env_modules env).
Definition clean_names (exe : option text) (cmdline : text) : Prop :=
  (∀ path, exe = Some path → 10 ∉ path) ∧ 10 ∉ cmdline.

Lemma write_segments_chars phdrs : ∀ l, write_segments phdrs = Ret l → 10 ∉ l.
Proof.
  induction phdrs as [|[[ty va] sz] phdrs IH]; intros l E; cbn [write_segments] in E; [injection E as <-; apply not_elem_of_nil|].
  apply bind_ret_inv in E as (a & Ea & E). apply bind_ret_inv in E as (r & Er & E). injection E as <-.
  rewrite elem_of_app. intros [H|H]; [|by eapply IH]. destruct (ty =? PT_LOAD).
  - eapply WriteHexLine_chars; [exact Ea| |exact H]. clean_tokens.
  - injection Ea as <-. by apply not_elem_of_nil in H.
Qed.

Lemma dl_iterate_unbroken infos : ∀ ls ls', Forall (fun m => 10 ∉ dlpi_name m) infos → unbroken ls →
  dl_iterate_phdr ls infos = Ret ls' → unbroken ls'.
Proof.
  induction infos as [|m infos IH]; intros ls ls' Hm Hls E; cbn [dl_iterate_phdr] in E; [by injection E as <-|].
  apply Forall_cons in Hm as [Hm Hms]. apply bind_ret_inv in E as (ls1 & E1 & E). eapply IH; [done| |exact E].
  unfold iterate_dl_headers in E1. apply bind_ret_inv in E1 as (l & El & E1). apply bind_ret_inv in E1 as (sg & Es & E1).
  injection E1 as <-. apply Forall_app. split; [done|]. apply Forall_singleton.
  rewrite elem_of_app. intros [H|H]; [|by eapply write_segments_chars].
  eapply WriteHexLine_chars; [exact El| |exact H].
  apply List.Forall_cons; [cbn; by_evaluation|]. apply List.Forall_cons; [done|].
  apply List.Forall_cons; [|clean_tokens]. cbn. destruct (dlpi_name m); [by_evaluation|done].
Qed.

Lemma index_unbroken t ls st ls' k t' : (∀ l, ls = Ret l → unbroken l) →
  index on_new_node t ls st = (k, t', Ret ls') → unbroken ls'.
Proof.
  unfold index. assert (H : ∀ l (acc : Z * StacktraceTree * outcome (list text)), (∀ x, acc.2 = Ret x → unbroken x) →
    ∀ x, (foldl (index_step on_new_node) acc l).2 = Ret x → unbroken x).
  { induction l as [|ptr l IH]; intros acc Ha; [exact Ha|]. cbn [foldl]. apply IH. clear IH. destruct acc as [[n t0] s0]. cbn in Ha.
    intros x. unfold index_step.
    repeat match goal with |- context [match ?e with _ => _ end] => destruct e end; cbn [snd]; try apply Ha;
    intros E; unfold on_new_node in E; apply bind_ret_inv in E as (l0 & E0 & E);
    (eapply write_line_unbroken; [exact E|by apply Ha|clean_tokens]). }
  intros Hls E. apply (H (reverse (GetTrace st)) (0, t, ls) Hls). by rewrite E.
Qed.

Lemma flush_summary_unbroken w id node w' : unbroken (ht_ofstream w) → flush_summary w id node = Ret w' → unbroken (ht_ofstream w').
Proof.
  intros Hw E. unfold flush_summary in E. apply bind_ret_inv in E as (l1 & E1 & E). apply bind_ret_inv in E as (l2 & E2 & E).
  injection E as <-. cbn.
  assert (unbroken l1) as H1.
  { destruct (negb _); [|by injection E1 as <-]. eapply write_line_unbroken; [exact E1|exact Hw|clean_tokens]. }
  destruct (0 <? _); [|by injection E2 as <-]. eapply write_line_unbroken; [exact E2|exact H1|clean_tokens].
Qed.

Lemma flush_traces_unbroken finder ids : ∀ w w', unbroken (ht_ofstream w) → flush_traces finder w ids = Ret w' → unbroken (ht_ofstream w').
Proof.
  induction ids as [|id ids IH]; intros w w' Hw E; cbn [flush_traces] in E; [by injection E as <-|].
  apply bind_ret_inv in E as (w1 & E1 & E). eapply IH; [|exact E]. unfold flush_trace in E1.
  destruct (ht_writtenTraces w !! id); [by eapply flush_summary_unbroken|].
  apply bind_ret_inv in E1 as ([st|] & _ & E1); [|by injection E1 as <-].
  destruct (index _ _ _ _) as [[node tree] ls] eqn:Ei. apply bind_ret_inv in E1 as (ls1 & -> & E1).
  eapply flush_summary_unbroken; [|exact E1]. cbn. eapply index_unbroken; [|exact Ei]. by intros l [= <-].
Qed.

Lemma flush_unbroken hash_order env finder w w' : clean_env env → unbroken (ht_ofstream w) →
  Heaptrack_FlushData hash_order env finder w = Ret w' → unbroken (ht_ofstream w').
Proof.
  intros He Hw E. unfold Heaptrack_FlushData in E. apply bind_ret_inv in E as (l1 & E1 & E). apply bind_ret_inv in E as (l2 & E2 & E).
  apply bind_ret_inv in E as ([l3 upd] & E3 & E). apply bind_ret_inv in E as (w1 & E4 & E). injection E as <-. cbn.
  assert (unbroken l1) as H1 by (eapply write_line_unbroken; [exact E1|exact Hw|clean_tokens]).
  assert (unbroken l2) as H2 by (eapply write_line_unbroken; [exact E2|exact H1|clean_tokens]).
  eapply flush_traces_unbroken; [|exact E4]. cbn. destruct (ht_updateModules w); [|by injection E3 as <- <-].
  apply bind_ret_inv in E3 as (l & E3 & [= <- <-]). eapply dl_iterate_unbroken; [exact He| |exact E3].
  apply Forall_app. split; [done|]. apply Forall_singleton. by_evaluation.
Qed.

Lemma account_stream m w : ht_ofstream (Heaptrack_AccountSnapshot w m) = ht_ofstream w.
Proof.
  unfold Heaptrack_AccountSnapshot. generalize (map_to_list m). intros l. revert w.
  induction l as [|[id s] l IH]; intros w; [done|]. cbn [foldl]. by rewrite IH.
Qed.

Lemma ctor_unbroken exe cmdline pageSize physPages w : clean_names exe cmdline →
  HeaptrackWriter_ctor exe cmdline pageSize physPages = Ret w → unbroken (ht_ofstream w).
Proof.
  intros [He Hc] E. unfold HeaptrackWriter_ctor in E. apply bind_ret_inv in E as (l1 & E1 & E). apply bind_ret_inv in E as (l2 & E2 & E).
  apply bind_ret_inv in E as (l3 & E3 & E). apply bind_ret_inv in E as (l4 & E4 & E). injection E as <-. cbn.
  assert (unbroken l1) as H1 by (eapply write_line_unbroken; [exact E1|constructor|clean_tokens]).
  assert (unbroken l2) as H2.
  { unfold WriteExe in E2. destruct exe as [path|]; [|by injection E2 as <-]. destruct (_ && _); [|by injection E2 as <-].
    eapply write_line_unbroken; [exact E2|exact H1|]. apply List.Forall_cons; [cbn; by_evaluation|].
    apply List.Forall_cons; [done|]. apply List.Forall_cons; [cbn; by apply He|constructor]. }
  eapply write_line_unbroken; [exact E4| |clean_tokens]. unfold WriteCommandLine in E3.
  rewrite WriteCommandLine_loop_spec in E3 by done. injection E3 as <-. apply Forall_app. split; [done|]. apply Forall_singleton.
  rewrite !not_elem_of_cons. split_and!; [done|done|]. by intros [_ H]%list_elem_of_filter.
Qed.

Definition op_clean (op : hop) : Prop := match op with HFlush env => clean_env env | _ => True end.

Lemma hrun_unbroken hash_order finder ops : ∀ w w', Forall op_clean ops → unbroken (ht_ofstream w) →
  hrun hash_order finder w ops = Ret w' → unbroken (ht_ofstream w').
Proof.
  induction ops as [|op ops IH]; intros w w' Hops Hw E; cbn [hrun] in E; [by injection E as <-|].
  apply Forall_cons in Hops as [Hop Hops]. apply bind_ret_inv in E as (w1 & E1 & E). eapply IH; [done| |exact E].
  destruct op as [m|env|]; cbn in E1.
  - injection E1 as <-. by rewrite account_stream.
  - by eapply flush_unbroken.
  - by injection E1 as <-.
Qed.

(** ** Properties *)

(** A number of up to 15 hexadecimal digits is written so that it reads back as itself
    and as one word; a longer one writes the terminating null behind the buffer. *)
Lemma hex_values v : is_u64 v →
  if v <? 2 ^ 60 then ∃ t, WriteHexValue v = Ret t ∧ parse_hex t = Some v ∧ words t = [t]
  else WriteHexValue v = Undef.
Proof.
  intros Hv. unfold is_u64 in Hv. destruct (Z.ltb_spec v (2 ^ 60)).
  - destruct (hex_text v) as (t & E & Hp & Hs); [lia|]. exists t. split_and!; try done.
    by apply words_single.
  - apply WriteHexValue_long. split; [exact Hv|]. right. exact H.
Qed.

(** C27: for any sequence of snapshots, flushes and changes of the modules, no line fails
    to be written, and after a final flush a reader of the characters of the file finds, under
    every id with a positive balance and frames that the finder knows, one allocation of exactly the
    balance, at a node whose path is the trace of the id (addresses less one), and no allocation
    under any other id, in particular none under an id for which the finder has no answer.  The
    limits of the format: addresses are at most 2^60, every other number that is written is
    below 2^60 (a longer one does not fit the buffer of [WriteHexValue]), balances do not leave
    the 64 bits, there are fewer than 2^26 entries, and the path of the program, its command line
    and the names of the modules have no newline. *)
Theorem heaptrack_replay (hash_order : gset Z → list Z) (finder : Z → outcome (option Stacktrace))
    (answers : Z → option Stacktrace) exe cmdline pageSize physPages ops env :
  (∀ X, hash_order X ≡ₚ elements X) → (∀ id, finder id = Ret (answers id)) →
  (∀ id st, answers id = Some st → st_ok st ∧ Forall (fun p => 0 ≤ p ≤ 2 ^ 60) (GetTrace st)) →
  0 ≤ pageSize < 2 ^ 60 → 0 ≤ physPages < 2 ^ 60 → clean_names exe cmdline →
  Forall op_ok ops → Forall op_clean ops → env_ok env → clean_env env →
  (∀ k id, - 2 ^ 63 ≤ balance (take k ops) id < 2 ^ 60) → 1 + 64 * entries ops < 2 ^ 32 →
  ∃ w0 w1 w, HeaptrackWriter_ctor exe cmdline pageSize physPages = Ret w0
    ∧ hrun hash_order finder w0 ops = Ret w1
    ∧ Heaptrack_FlushData hash_order env finder w1 = Ret w
    ∧ let r := read_text (file_text (ht_ofstream w)) in
      ∀ id, match (if 0 <? balance ops id then answers id else None) with
            | Some st => ∃ node, rd_live r !! id = Some (balance ops id, node)
                   ∧ node_path 64 (rd_nodes r) node = Some (Z.pred <$> frames st)
            | None => rd_live r !! id = None
            end.
Proof.
  intros Hord Hfind Ht Hp Hq Hn Hops Hcl Henv Hce Hb Hz.
  destruct (ctor_spec answers exe cmdline pageSize physPages Hp Hq) as (w0 & E0 & Hg0 & Hc0 & Hs0).
  destruct (replay_spec hash_order Hord finder answers Ht Hfind ops env w0 Hg0 Hc0 Hs0 Hops Henv Hb Hz)
    as (w1 & w & E1 & E2 & Hw & Hu & Hc). exists w0, w1, w. split; [done|]. split; [done|]. split; [done|]. cbv zeta.
  rewrite read_text_lines.
  - intros id. rewrite <- Hc. pose proof (reader_live answers Ht w Hw Hu id) as Hr. by destruct (0 <? current w id).
  - eapply flush_unbroken; [exact Hce| |exact E2]. eapply hrun_unbroken; [exact Hcl| |exact E1]. by eapply ctor_unbroken.
Qed.

Lemma heaptrack_replay_witness :
  let st := mkStacktrace 2 0 ([4660; 22136] ++ replicate 62 0) in
  let delta n := mkAllocSummary n 0 0 0 0 in
  let answers id := if id =? 5 then Some st else None in
  let ops := [HAccount {[5 := delta 100]}; HFlush (mkFlushEnv 7 4096 [mkDlInfo [] 4194304 [(1, 0, 8192)]]);
              HAccount {[5 := delta (-40)]}] in
  ∃ w0 w1 w, HeaptrackWriter_ctor None [97; 0; 98] 4096 1000 = Ret w0
    ∧ hrun elements (fun i => Ret (answers i)) w0 ops = Ret w1
    ∧ Heaptrack_FlushData elements (mkFlushEnv 9 4096 []) (fun i => Ret (answers i)) w1 = Ret w
    ∧ ∃ node, rd_live (read_text (file_text (ht_ofstream w))) !! 5 = Some (60, node)
        ∧ node_path 64 (rd_nodes (read_text (file_text (ht_ofstream w)))) node = Some [22135; 4659].
Proof.
  intros st delta answers ops.
  destruct (heaptrack_replay elements (fun i => Ret (answers i)) answers None [97; 0; 98] 4096 1000 ops
    (mkFlushEnv 9 4096 [])) as (w0 & w1 & w & E0 & E1 & E2 & Hr).
  - done.
  - done.
  - intros i s Hs. assert (s = st) as -> by (unfold answers in Hs; destruct (i =? 5); congruence). split; [ground|].
    change (GetTrace st) with [4660; 22136]. repeat (constructor; [lia|]). constructor.
  - lia.
  - lia.
  - split; [done|]. by_evaluation.
  - constructor; [|constructor; [|constructor; [|constructor]]].
    + intros id [s [<- _]%lookup_singleton_Some]. unfold is_u32. lia.
    + split; [cbn; lia|]. split; [cbn; lia|]. constructor; [|constructor].
      split; [by vm_compute|]. split; [cbn; lia|]. constructor; [cbn; lia|constructor].
    + intros id [s [<- _]%lookup_singleton_Some]. unfold is_u32. lia.
  - constructor; [done|]. constructor; [|constructor; [done|constructor]].
    constructor; [apply not_elem_of_nil|constructor].
  - split; [cbn; lia|]. split; [cbn; lia|]. constructor.
  - constructor.
  - intros k id. destruct (decide (id = 5)) as [->|Hne].
    + do 4 (destruct k as [|k]; [vm_compute; split; congruence|]).
      assert (take (S (S (S (S k)))) ops = ops) as -> by (by destruct k). vm_compute. split; congruence.
    + assert (balance (take k ops) id = 0) as ->; [|lia].
      assert (Forall (fun op => op_size op id = 0) ops) as Hall.
      { constructor; [|constructor; [|constructor; [|constructor]]]; cbn; try done;
          by rewrite lookup_singleton_ne by congruence. }
      apply (Forall_take _ k) in Hall. induction Hall as [|op l Hop _ IH]; [done|].
      change (balance (op :: l) id) with (op_size op id + balance l id). lia.
  - ground.
  - exists w0, w1, w. split_and!; try done. exact (Hr 5).
Defined.

(** A newline in the command line makes a line of its own: an allocation of 16 bytes nobody made. *)
Example broken_command_line :
  (w ← HeaptrackWriter_ctor None [97; 10; 43; 32; 49; 48; 32; 49; 32; 53] 4096 1000;
   Ret (rd_live (read_text (file_text (ht_ofstream w))) !! 5)) = Ret (Some (16, 1)).
Proof. vm_compute. reflexivity. Qed.
