(* ===== verification/Snapshots.v ===== *)
(** * Sequences of snapshots

    What the writers share: the snapshots the worker passes to [AccountSnapshot], the traces
    they mention and the balance they add up to. *)

From Stdlib Require Import ZArith Lia.
From stdpp Require Import base numbers list gmap.
From S2P Require Import Prelude AllocInfo ThreadTracker.

Definition mentioned (cs : list (SummariesMap * AllocSummary)) (id : Z) : Prop :=
  Exists (fun c => is_Some (c.1 !! id)) cs.

(** Counters that are stored as they are. *)
Definition snapshot_ok (c : SummariesMap * AllocSummary) : Prop :=
  in_range c.2 ∧ ∀ id s, c.1 !! id = Some s → in_range s ∧ is_u32 id.

Lemma consumed_snoc cs c id :
  consumed_of id (cs ++ [c]) = summary_add (consumed_of id cs) (summary_slot c.1 id).
Proof. unfold consumed_of. by rewrite foldl_app. Qed.

Lemma consumed_range cs id : in_range (consumed_of id cs).
Proof.
  destruct cs as [|c cs] using rev_ind; [done|]. rewrite consumed_snoc. apply summary_add_range.
Qed.

Lemma mentioned_snoc cs c id : mentioned (cs ++ [c]) id ↔ mentioned cs id ∨ is_Some (c.1 !! id).
Proof. unfold mentioned. rewrite Exists_app, Exists_cons, Exists_nil. tauto. Qed.

Lemma consumed_unmentioned cs id : ¬ mentioned cs id → consumed_of id cs = AllocSummary_zero.
Proof.
  induction cs as [|c cs IH] using rev_ind; [done|]. rewrite mentioned_snoc, consumed_snoc. intros Hn.
  rewrite IH by tauto. unfold summary_slot. destruct (c.1 !! id) eqn:E; [|done].
  exfalso. apply Hn. by right.
Qed.

