(* ===== verification/ProtobufWriter.v ===== *)
(** * The protobuf writer ([writers/proto_writer.h], [writers/proto_writer.cpp])

    The file is a sequence of frames, each the length of a compressed message in big-endian
    order and the message: the process first, then one snapshot per flush.  A snapshot
    tells the current balance of every trace that changed, the traces that are mentioned
    for the first time, and the addresses that occur for the first time.

    Protobuf's serialization and zstd are parameters; their laws, that a reader gets back
    what was written, are hypotheses of the theorems.  The clock and the list of modules are
    arguments of [FlushData].  A reader of the file is the specification. *)

From Stdlib Require Import ZArith Lia.
From stdpp Require Import base numbers list gmap.
From S2P Require Import Prelude Algo AllocInfo Stacktrace ThreadTracker Snapshots.

Abbreviation bytes := (list Z).

(** ** Messages ([proto/snapshot.proto]) *)

Record proto_AllocSummary := mkProtoAllocSummary {
  pas_active : Z; pas_size : Z; pas_overhead : Z; pas_totalCount : Z; pas_totalBytes : Z;
}.
Record proto_LoadedSo := mkProtoLoadedSo {
  so_addr : Z; so_filename : bytes; so_segments : list (Z * Z);
}.
Record proto_ProcessInfo := mkProtoProcessInfo {
  pi_processShortName : bytes; pi_processFullPath : bytes; pi_pid : Z; pi_startTimestamp : Z;
}.
Record proto_Snapshot := mkProtoSnapshot {
  sn_loadedSo : list proto_LoadedSo;
  sn_timestamp : Z;
  sn_total : proto_AllocSummary;
  sn_stacktraces : list (Z * list Z);      (* trace id and the ids of its addresses *)
  sn_ptrIds : list (Z * Z);                (* address and its id *)
  sn_changed : list (Z * proto_AllocSummary);
}.

(** What a flush sees of the system: name, address and segments of the modules. *)
Record ProtoEnv := mkProtoEnv {
  pe_now : Z;
  pe_modules : list (bytes * Z * list (Z * Z));
}.

Section ProtobufWriter.
Context (hash_order : gset Z → list Z).
Context (serialize_info : proto_ProcessInfo → bytes) (serialize_snapshot : proto_Snapshot → bytes).
Context (ZSTD_compress : bytes → bytes).
Context (GetPrognameFullPath : bytes).

Record ProtobufWriter := mkProtobufWriter {
  pb_ofstream : bytes;
  pb_total : AllocSummary;
  pb_localSummaries : gmap Z AllocSummary;
  pb_changedSummaries : gset Z;
  pb_writtenTraces : gset Z;
  pb_ptrMap : gmap Z Z;
  pb_updateModules : bool;
}.

(** [htobe64] and the bytes of the result in memory. *)
Definition WriteUint64BigEndian (value : Z) : bytes :=
  (fun k => Z.land (Z.shiftr value (8 * (7 - k))) 255) <$> seqZ 0 8.

Definition WriteMessage (file message : bytes) : bytes :=
  let compressed := ZSTD_compress message in
  file ++ WriteUint64BigEndian (u64 (zlen compressed)) ++ compressed.

Definition FillAllocSummary (summary : AllocSummary) : proto_AllocSummary :=
  mkProtoAllocSummary (sum_active summary) (sum_size summary) (sum_overhead summary)
    (sum_totalCount summary) (sum_totalBytes summary).

Definition Proto_UpdateModules (w : ProtobufWriter) : ProtobufWriter :=
  mkProtobufWriter (pb_ofstream w) (pb_total w) (pb_localSummaries w) (pb_changedSummaries w)
    (pb_writtenTraces w) (pb_ptrMap w) true.

(** One entry of the snapshot of the trackers. *)
Definition proto_account_one (acc : gmap Z AllocSummary * gset Z) (e : Z * AllocSummary)
  : gmap Z AllocSummary * gset Z :=
  let '(local, changed) := acc in
  let '(traceId, summary) := e in
  (match local !! traceId with
   | None => <[traceId := summary]> local
   | Some s => <[traceId := summary_add s summary]> local
   end, {[traceId]} ∪ changed).

Definition Proto_AccountSnapshot (w : ProtobufWriter) (summaries : SummariesMap) (total : AllocSummary)
  : ProtobufWriter :=
  let '(local, changed) :=
    foldl proto_account_one (pb_localSummaries w, pb_changedSummaries w) (map_to_list summaries) in
  mkProtobufWriter (pb_ofstream w) (summary_add (pb_total w) total) local changed
    (pb_writtenTraces w) (pb_ptrMap w) (pb_updateModules w).

Definition proto_iterate_dl_headers (m : bytes * Z * list (Z * Z)) : proto_LoadedSo :=
  let '(name, addr, segments) := m in
  mkProtoLoadedSo addr (match name with [] => GetPrognameFullPath | _ => name end) segments.

(** The loop of [AddStacktrace]: ids of the addresses, and the addresses that are new. *)
Fixpoint AddStacktrace_loop (ptrMap : gmap Z Z) (trace : list Z) : list Z * list (Z * Z) * gmap Z Z :=
  match trace with
  | [] => ([], [], ptrMap)
  | ptr :: trace =>
    let ptrValue := u64 (ptr - 1) in
    let '(id, new, ptrMap) :=
      match ptrMap !! ptrValue with
      | Some id => (id, [], ptrMap)
      | None => let id := u32 (Z.of_nat (size ptrMap)) in (id, [(ptrValue, id)], <[ptrValue := id]> ptrMap)
      end in
    let '(ids, news, ptrMap) := AddStacktrace_loop ptrMap trace in
    (id :: ids, new ++ news, ptrMap)
  end.

(** The parts of the snapshot that the loop of [FlushData] fills. *)
Record Filling := mkFilling {
  fl_stacktraces : list (Z * list Z);
  fl_ptrIds : list (Z * Z);
  fl_changed : list (Z * proto_AllocSummary);
  fl_written : gset Z;
  fl_ptrMap : gmap Z Z;
}.

Definition AddStacktrace (finder : Z → outcome (option Stacktrace)) (traceId : Z) (f : Filling)
  : outcome Filling :=
  trace ← finder traceId;
  match trace with
  | None => Ret f
  | Some st =>
    let '(ids, news, ptrMap) := AddStacktrace_loop (fl_ptrMap f) (GetTrace st) in
    Ret (mkFilling (fl_stacktraces f ++ [(traceId, ids)]) (fl_ptrIds f ++ news) (fl_changed f)
           (fl_written f) ptrMap)
  end.

(** [m_localSummaries[traceId]] makes an entry when there is none. *)
Definition FillChangedSummary (local : gmap Z AllocSummary) (traceId : Z) : Z * proto_AllocSummary :=
  let summary := default AllocSummary_zero (local !! traceId) in
  (traceId, FillAllocSummary summary).

(** One iteration of [FlushData]. *)
Definition FlushData_step (finder : Z → outcome (option Stacktrace)) (local : gmap Z AllocSummary)
    (f : Filling) (traceId : Z) : outcome Filling :=
  f ← (if bool_decide (traceId ∈ fl_written f) then Ret f
       else f ← AddStacktrace finder traceId f;
            Ret (mkFilling (fl_stacktraces f) (fl_ptrIds f) (fl_changed f)
                   ({[traceId]} ∪ fl_written f) (fl_ptrMap f)));
  Ret (mkFilling (fl_stacktraces f) (fl_ptrIds f) (fl_changed f ++ [FillChangedSummary local traceId])
         (fl_written f) (fl_ptrMap f)).

Fixpoint FlushData_loop (finder : Z → outcome (option Stacktrace)) (local : gmap Z AllocSummary)
    (f : Filling) (ids : list Z) : outcome Filling :=
  match ids with [] => Ret f | id :: ids => f ← FlushData_step finder local f id; FlushData_loop finder local f ids end.

Definition Proto_FlushData (env : ProtoEnv) (finder : Z → outcome (option Stacktrace))
    (w : ProtobufWriter) : outcome ProtobufWriter :=
  let loaded := if pb_updateModules w then proto_iterate_dl_headers <$> pe_modules env else [] in
  f ← FlushData_loop finder (pb_localSummaries w) (mkFilling [] [] [] (pb_writtenTraces w) (pb_ptrMap w))
        (hash_order (pb_changedSummaries w));
  let snapshot := mkProtoSnapshot loaded (u64 (pe_now env)) (FillAllocSummary (pb_total w))
                    (fl_stacktraces f) (fl_ptrIds f) (fl_changed f) in
  Ret (mkProtobufWriter (WriteMessage (pb_ofstream w) (serialize_snapshot snapshot)) (pb_total w)
         (pb_localSummaries w) ∅ (fl_written f) (fl_ptrMap f) false).

(** The constructor: the process, and a first snapshot with the empty trace. *)
Definition FillProcessInfo (shortName : bytes) (pid startNs : Z) : proto_ProcessInfo :=
  mkProtoProcessInfo shortName GetPrognameFullPath (u32 pid) (u64 startNs).

Definition WriteProcessInfo (file : bytes) (shortName : bytes) (pid startNs : Z) : bytes :=
  let processInfo := FillProcessInfo shortName pid startNs in
  WriteMessage file (serialize_info processInfo).

Definition ProtobufWriter_ctor (shortName : bytes) (pid startNs : Z) (env : ProtoEnv)
    (finder : Z → outcome (option Stacktrace)) : outcome ProtobufWriter :=
  let w := mkProtobufWriter (WriteProcessInfo [] shortName pid startNs) AllocSummary_zero ∅ ∅ ∅ ∅ true in
  Proto_FlushData env finder (Proto_AccountSnapshot w {[0 := AllocSummary_zero]} AllocSummary_zero).
End ProtobufWriter.

(** ** Reading the file *)

Definition be_value (l : bytes) : Z := foldl (fun acc b => 256 * acc + b) 0 l.

(** The payloads of the frames. *)
Fixpoint read_frames (fuel : nat) (file : bytes) : option (list bytes) :=
  match file with
  | [] => Some []
  | _ =>
    match fuel with
    | O => None
    | S fuel =>
      let n := Z.to_nat (be_value (take 8 file)) in
      let rest := drop 8 file in
      if bool_decide (length (take 8 file) = 8%nat ∧ (n ≤ length rest)%nat)
      then frames ← read_frames fuel (drop n rest); Some (take n rest :: frames)
      else None
    end
  end.

(** What a reader collects: addresses by id, traces, current balances, the total. *)
Record ProtoReader := mkProtoReader {
  pr_ptrs : gmap Z Z;
  pr_traces : gmap Z (list Z);
  pr_actual : gmap Z proto_AllocSummary;
  pr_total : proto_AllocSummary;
}.

Definition ProtoReader_init : ProtoReader :=
  mkProtoReader ∅ ∅ ∅ (FillAllocSummary AllocSummary_zero).

Definition read_ptr (ptrs : gmap Z Z) (p : Z * Z) : gmap Z Z := <[p.2 := p.1]> ptrs.

(** A trace whose addresses are not all known is not taken. *)
Definition read_trace (ptrs : gmap Z Z) (traces : gmap Z (list Z)) (t : Z * list Z) : gmap Z (list Z) :=
  match mapM (fun i => ptrs !! i) t.2 with Some addrs => <[t.1 := addrs]> traces | None => traces end.

Definition read_snapshot (r : ProtoReader) (sn : proto_Snapshot) : ProtoReader :=
  let ptrs := foldl read_ptr (pr_ptrs r) (sn_ptrIds sn) in
  mkProtoReader ptrs (foldl (read_trace ptrs) (pr_traces r) (sn_stacktraces sn))
    (foldl (fun m c => <[c.1 := c.2]> m) (pr_actual r) (sn_changed sn)) (sn_total sn).

(** ** Frames *)

Lemma be_digit v k : 0 ≤ v → 0 ≤ k → Z.land (Z.shiftr v (8 * k)) 255 = (v / 256 ^ k) mod 256.
Proof.
  intros Hv Hk. change 255 with (Z.ones 8). rewrite Z.land_ones, Z.shiftr_div_pow2 by lia.
  rewrite Z.pow_mul_r by lia. reflexivity.
Qed.

Lemma be_step v k : 0 ≤ v → 0 ≤ k → v / 256 ^ k = 256 * (v / 256 ^ (k + 1)) + (v / 256 ^ k) mod 256.
Proof.
  intros Hv Hk. rewrite Z.pow_add_r by lia. change (256 ^ 1) with 256.
  rewrite <- Z.div_div by lia. apply Z.div_mod. lia.
Qed.

Lemma be_roundtrip v : is_u64 v → be_value (WriteUint64BigEndian v) = v.
Proof.
  intros [H0 H1].
  assert (WriteUint64BigEndian v = (fun k => (v / 256 ^ k) mod 256) <$> [7; 6; 5; 4; 3; 2; 1; 0]) as ->.
  { unfold WriteUint64BigEndian. change (seqZ 0 8) with ((fun k => 7 - k) <$> [7; 6; 5; 4; 3; 2; 1; 0]).
    rewrite <- list_fmap_compose. apply list_fmap_ext. intros i k Hk%list_elem_of_lookup_2.
    unfold compose. replace (7 - (7 - k)) with k by lia. apply be_digit; [done|].
    repeat (apply elem_of_cons in Hk as [->|Hk]; [lia|]). by apply not_elem_of_nil in Hk. }
  assert (v / 256 ^ 8 = 0) as H8 by (apply Z.div_small; done).
  pose proof (be_step v 7 H0 ltac:(lia)) as E7. pose proof (be_step v 6 H0 ltac:(lia)) as E6.
  pose proof (be_step v 5 H0 ltac:(lia)) as E5. pose proof (be_step v 4 H0 ltac:(lia)) as E4.
  pose proof (be_step v 3 H0 ltac:(lia)) as E3. pose proof (be_step v 2 H0 ltac:(lia)) as E2.
  pose proof (be_step v 1 H0 ltac:(lia)) as E1. pose proof (be_step v 0 H0 ltac:(lia)) as E0.
  change (7 + 1) with 8 in E7. change (6 + 1) with 7 in E6. change (5 + 1) with 6 in E5.
  change (4 + 1) with 5 in E4. change (3 + 1) with 4 in E3. change (2 + 1) with 3 in E2.
  change (1 + 1) with 2 in E1. change (0 + 1) with 1 in E0.
  assert (E : v / 256 ^ 0 = v) by apply Z.div_1_r. unfold be_value. cbn [fmap list_fmap foldl].
  rewrite H8 in E7. revert E7 E6 E5 E4 E3 E2 E1 E0 E. clear.
  generalize (v / 256 ^ 7) (v / 256 ^ 6) (v / 256 ^ 5) (v / 256 ^ 4) (v / 256 ^ 3) (v / 256 ^ 2)
    (v / 256 ^ 1) (v / 256 ^ 0).
  intros q7 q6 q5 q4 q3 q2 q1 q0.
  generalize (q7 mod 256) (q6 mod 256) (q5 mod 256) (q4 mod 256) (q3 mod 256) (q2 mod 256)
    (q1 mod 256) (q0 mod 256). intros. lia.
Qed.

Lemma be_length v : length (WriteUint64BigEndian v) = 8%nat.
Proof. reflexivity. Qed.

Definition frame (payload : bytes) : bytes := WriteUint64BigEndian (u64 (zlen payload)) ++ payload.

Lemma read_frames_cons fuel file : file ≠ [] →
  read_frames (S fuel) file =
    (let n := Z.to_nat (be_value (take 8 file)) in
     let rest := drop 8 file in
     if bool_decide (length (take 8 file) = 8%nat ∧ (n ≤ length rest)%nat)
     then frames ← read_frames fuel (drop n rest); Some (take n rest :: frames)
     else None).
Proof. by destruct file. Qed.

Lemma read_frames_spec payloads : ∀ fuel, Forall (fun p => zlen p < 2 ^ 64) payloads →
  (length payloads ≤ fuel)%nat → read_frames fuel (concat (frame <$> payloads)) = Some payloads.
Proof.
  induction payloads as [|p ps IH]; intros fuel Hp Hf; [by destruct fuel|].
  apply Forall_cons in Hp as [Hp Hps]. cbn in Hf. destruct fuel as [|fuel]; [lia|].
  cbn [fmap list_fmap concat]. set (rest := concat (frame <$> ps)).
  set (file := frame p ++ rest).
  assert (Hz : is_u64 (zlen p)) by (split; [apply zlen_nonneg|done]).
  assert (E8 : take 8 file = WriteUint64BigEndian (u64 (zlen p))).
  { subst file. unfold frame. rewrite <- app_assoc, take_app_le, take_ge; rewrite ?be_length; lia || done. }
  assert (D8 : drop 8 file = p ++ rest).
  { subst file. unfold frame. rewrite <- app_assoc. apply drop_app_length'. by rewrite be_length. }
  assert (Hn : Z.to_nat (be_value (take 8 file)) = length p).
  { rewrite E8, u64_small, be_roundtrip by done. unfold zlen. lia. }
  assert (Hne : file ≠ []) by (intros E; rewrite E in E8; done).
  rewrite read_frames_cons by done. cbv zeta. rewrite Hn, D8, E8.
  rewrite bool_decide_eq_true_2 by (split; [done|rewrite length_app; lia]).
  rewrite drop_app_length, take_app_length. unfold rest. by rewrite IH by (done || lia).
Qed.

Lemma frames_bytes ps : (length ps ≤ length (concat (frame <$> ps)))%nat.
Proof.
  induction ps as [|p ps IH]; [done|]. rewrite fmap_cons, concat_cons. unfold frame at 1.
  rewrite !length_app, be_length. cbn [length]. lia.
Qed.

Lemma frame_small ps : zlen (concat (frame <$> ps)) < 2 ^ 64 → Forall (fun p => zlen p < 2 ^ 64) ps.
Proof.
  unfold zlen. induction ps as [|p ps IH]; [done|]. rewrite fmap_cons, concat_cons. unfold frame at 1.
  rewrite !length_app, be_length. intros H. constructor; [lia|]. apply IH. lia.
Qed.

(** ** Accounting *)

Lemma proto_account_fold l : NoDup l.*1 → ∀ local changed,
  let r := foldl proto_account_one (local, changed) l in
  (∀ id, r.1 !! id = match (list_to_map l : gmap Z AllocSummary) !! id with
                     | None => local !! id
                     | Some s => Some (match local !! id with None => s | Some a => summary_add a s end)
                     end) ∧
  r.2 = list_to_set l.*1 ∪ changed.
Proof.
  induction l as [|[i s] l IH]; intros Hnd local changed; [cbn; split; [done|by rewrite (left_id_L ∅ (∪))]|].
  apply NoDup_cons in Hnd as [Hni Hnd]. cbn [foldl fmap list_fmap fst].
  set (local' := match local !! i with None => <[i := s]> local | Some a => <[i := summary_add a s]> local end).
  destruct (IH Hnd local' ({[i]} ∪ changed)) as [H1 H2]. split.
  - intros id. cbn [proto_account_one]. fold local'. rewrite H1. cbn [list_to_map foldr curry].
    change (list_to_map ((i, s) :: l)) with (<[i := s]> (list_to_map l : gmap Z AllocSummary)).
    destruct (decide (id = i)) as [->|Hne].
    + rewrite lookup_insert_eq, (not_elem_of_list_to_map_1 _ _ Hni). subst local'.
      destruct (local !! i); by rewrite lookup_insert_eq.
    + rewrite lookup_insert_ne by done. destruct (_ !! id) as [s'|]; subst local';
        destruct (local !! i); by rewrite lookup_insert_ne by done.
  - cbn [proto_account_one]. fold local'. rewrite H2. cbn [list_to_set].
    rewrite !(assoc_L (∪)). f_equal. apply (comm_L (∪)).
Qed.

(** [w] has accounted the snapshots [cs]. *)
Record accounted (w : ProtobufWriter) (cs : list (SummariesMap * AllocSummary)) : Prop := {
  ac_local id s : pb_localSummaries w !! id = Some s ↔ mentioned cs id ∧ s = consumed_of id cs;
  ac_total : pb_total w = consumed_total cs;
}.

Lemma proto_account_spec w cs c : accounted w cs → snapshot_ok c →
  accounted (Proto_AccountSnapshot w c.1 c.2) (cs ++ [c]) ∧
  pb_changedSummaries (Proto_AccountSnapshot w c.1 c.2) = dom c.1 ∪ pb_changedSummaries w.
Proof.
  intros [Hl Ht] [Hr Hok]. unfold Proto_AccountSnapshot.
  pose proof (proto_account_fold (map_to_list c.1) (NoDup_fst_map_to_list _)
    (pb_localSummaries w) (pb_changedSummaries w)) as [H1 H2].
  destruct (foldl _ _ _) as [local changed]. cbn [fst snd] in H1, H2. rewrite list_to_map_to_list in H1.
  split.
  - split; cbn.
    + intros id s. rewrite H1, mentioned_snoc, consumed_snoc. unfold summary_slot.
      destruct (c.1 !! id) as [s'|] eqn:Ec.
      * destruct (Hok id s' Ec) as [Hs' _].
        destruct (pb_localSummaries w !! id) as [a|] eqn:Ea.
        -- apply Hl in Ea as [Hm ->]. split; [intros [= <-]; split; [by left|done]|by intros [_ ->]].
        -- assert (¬ mentioned cs id) as Hn.
           { intros Hm. destruct (Hl id (consumed_of id cs)) as [_ HH]. rewrite HH in Ea; done. }
           rewrite (consumed_unmentioned cs id Hn). cbn. rewrite summary_add_0_l by done.
           split; [intros [= <-]; split; [by right|done]|by intros [_ ->]].
      * rewrite Hl. cbn. rewrite summary_add_0_r by apply consumed_range.
        split; [intros [? ?]; by split; [left|]|intros [[?|[? ?]] ?]; done].
    + rewrite Ht. unfold consumed_total. by rewrite foldl_app.
  - cbn. rewrite H2. f_equal. apply leibniz_equiv. by rewrite dom_alt.
Qed.

(** ** Addresses and traces *)

(** The writer's map and the reader's map are inverse to each other. *)
Record ptr_ok (ptrMap ptrs : gmap Z Z) : Prop := {
  po_inv addr id : ptrMap !! addr = Some id ↔ ptrs !! id = Some addr;
  po_range addr id : ptrMap !! addr = Some id → 0 ≤ id < Z.of_nat (size ptrMap);
}.

Definition written_addr (ptr : Z) : Z := u64 (ptr - 1).

Lemma ptr_new ptrMap ptrs addr (id := Z.of_nat (size ptrMap)) :
  ptr_ok ptrMap ptrs → ptrMap !! addr = None →
  ptr_ok (<[addr := id]> ptrMap) (<[id := addr]> ptrs) ∧ ptrs !! id = None.
Proof.
  intros [Hi Hr] Hn.
  assert (Hid : ptrs !! id = None).
  { apply eq_None_not_Some. intros [a Ha]. apply Hi, Hr in Ha. lia. }
  split; [|done]. split.
  - intros a i. rewrite !lookup_insert_Some, Hi. split.
    + intros [[-> ->]|[Hne Ha]]; [by left|right]. split; [congruence|done].
    + intros [[<- <-]|[Hne Ha]]; [by left|right]. split; [|done]. intros <-. apply Hi in Ha. congruence.
  - intros a i. rewrite map_size_insert_None by done. intros [[<- <-]|[_ Ha]]%lookup_insert_Some; [lia|].
    apply Hr in Ha. lia.
Qed.

Lemma mapM_mono (P Q : gmap Z Z) ids addrs : P ⊆ Q →
  mapM (fun i => P !! i) ids = Some addrs → mapM (fun i => Q !! i) ids = Some addrs.
Proof.
  intros Hs. rewrite !mapM_Some. intros H. eapply Forall2_impl; [exact H|]. cbn.
  intros i a Hi. by eapply lookup_weaken.
Qed.

Lemma AddStacktrace_loop_spec trace : ∀ ptrMap ptrs,
  ptr_ok ptrMap ptrs → Z.of_nat (size ptrMap) + zlen trace < 2 ^ 32 →
  let '(ids, news, ptrMap') := AddStacktrace_loop ptrMap trace in
  let ptrs' := foldl read_ptr ptrs news in
  ptr_ok ptrMap' ptrs' ∧ ptrs ⊆ ptrs' ∧
  mapM (fun i => ptrs' !! i) ids = Some (written_addr <$> trace) ∧
  Z.of_nat (size ptrMap') ≤ Z.of_nat (size ptrMap) + zlen trace.
Proof.
  induction trace as [|ptr trace IH]; intros ptrMap ptrs Hok Hz; cbn [AddStacktrace_loop].
  { split_and!; try done. change (zlen []) with 0. lia. }
  rewrite zlen_cons in *. pose proof (zlen_nonneg trace). fold (written_addr ptr).
  set (sel := match ptrMap !! written_addr ptr with Some id => _ | None => _ end).
  assert (∃ id new pm, sel = (id, new, pm) ∧ ptr_ok pm (foldl read_ptr ptrs new)
    ∧ ptrs ⊆ foldl read_ptr ptrs new ∧ foldl read_ptr ptrs new !! id = Some (written_addr ptr)
    ∧ Z.of_nat (size pm) ≤ Z.of_nat (size ptrMap) + 1) as (id & new & pm & -> & Hok1 & Hs1 & Hid & Hz1).
  { subst sel. destruct (ptrMap !! written_addr ptr) as [id|] eqn:E.
    - exists id, [], ptrMap. split_and!; try done; [|lia]. by apply Hok.
    - destruct (ptr_new ptrMap ptrs (written_addr ptr) Hok E) as [Hok' Hn].
      rewrite u32_small by (unfold is_u32; lia). eexists _, _, _. split; [done|]. cbn.
      split; [done|]. split; [by apply insert_subseteq|]. split; [apply lookup_insert_eq|].
      rewrite map_size_insert_None by done. lia. }
  specialize (IH pm _ Hok1 ltac:(lia)). destruct (AddStacktrace_loop pm trace) as [[ids news] pm'].
  rewrite foldl_app. destruct IH as (H1 & H2 & H3 & H4).
  split; [done|]. split; [by etrans|]. split; [|lia].
  cbn [fmap list_fmap]. apply mapM_Some. constructor; [by eapply lookup_weaken|by apply mapM_Some].
Qed.

Section replay.
Context (hash_order : gset Z → list Z) (hash_order_perm : ∀ X, hash_order X ≡ₚ elements X).
Context (finder : Z → outcome (option Stacktrace)) (traces : Z → option Stacktrace).
Context (finder_traces : ∀ id, finder id = Ret (traces id)).
Context (traces_ok : ∀ id st, traces id = Some st → st_ok st).

(** The trace a reader should know. *)
Definition expected (written : gset Z) (id : Z) : option (list Z) :=
  if decide (id ∈ written) then (fun st => written_addr <$> GetTrace st) <$> traces id else None.

(** A snapshot under construction; [r] is the reader before it, [todo] has been visited. *)
Record filling_ok (r : ProtoReader) (written0 : gset Z) (local : gmap Z AllocSummary) (f : Filling)
    (visited : list Z) : Prop := {
  fi_ptr : ptr_ok (fl_ptrMap f) (foldl read_ptr (pr_ptrs r) (fl_ptrIds f));
  fi_traces P : foldl read_ptr (pr_ptrs r) (fl_ptrIds f) ⊆ P →
    ∀ id, foldl (read_trace P) (pr_traces r) (fl_stacktraces f) !! id = expected (fl_written f) id;
  fi_changed id : foldl (fun m c => <[c.1 := c.2]> m) (pr_actual r) (fl_changed f) !! id =
    if decide (id ∈ visited) then Some (FillAllocSummary (default AllocSummary_zero (local !! id)))
    else pr_actual r !! id;
  fi_size : Z.of_nat (size (fl_ptrMap f)) ≤ 64 * Z.of_nat (size (fl_written f));
  fi_written id : id ∈ fl_written f ↔ id ∈ written0 ∨ id ∈ visited;
}.

Lemma expected_add W id : id ∉ W → ∀ i, expected ({[id]} ∪ W) i =
  if decide (i = id) then (fun st => written_addr <$> GetTrace st) <$> traces id else expected W i.
Proof.
  intros Hn i. unfold expected. destruct (decide (i = id)) as [->|Hne].
  - rewrite decide_True; [done|]. apply elem_of_union. left. by apply elem_of_singleton.
  - destruct (decide (i ∈ W)) as [Hi|Hi].
    + rewrite decide_True; [done|]. apply elem_of_union. by right.
    + rewrite decide_False; [done|]. intros [H|H]%elem_of_union; [|done]. by apply elem_of_singleton in H.
Qed.

(** A trace is added to the snapshot. *)
Lemma AddStacktrace_spec r W0 local f visited id :
  filling_ok r W0 local f visited → id ∉ fl_written f → 64 * (Z.of_nat (size (fl_written f)) + 1) < 2 ^ 32 →
  finder id = Ret (traces id) →
  ∃ f', AddStacktrace finder id f = Ret f' ∧ fl_changed f' = fl_changed f ∧ fl_written f' = fl_written f
    ∧ ptr_ok (fl_ptrMap f') (foldl read_ptr (pr_ptrs r) (fl_ptrIds f'))
    ∧ (∀ P, foldl read_ptr (pr_ptrs r) (fl_ptrIds f') ⊆ P →
        ∀ i, foldl (read_trace P) (pr_traces r) (fl_stacktraces f') !! i = expected ({[id]} ∪ fl_written f) i)
    ∧ Z.of_nat (size (fl_ptrMap f')) ≤ 64 * (Z.of_nat (size (fl_written f)) + 1).
Proof.
  intros [Hp Ht Hc Hs Hw] Hn Hz Hfi. unfold AddStacktrace. rewrite Hfi. step_ret.
  destruct (traces id) as [st|] eqn:Et.
  - pose proof (GetTrace_bound st (traces_ok id st Et)) as Hb. unfold MaxUnwindDepth in Hb.
    pose proof (AddStacktrace_loop_spec (GetTrace st) _ _ Hp ltac:(lia)) as Hl.
    destruct (AddStacktrace_loop (fl_ptrMap f) (GetTrace st)) as [[ids news] pm].
    destruct Hl as (H1 & H2 & H3 & H4). eexists. split; [done|]. cbn. rewrite foldl_app.
    split_and!; try done; [|lia]. intros P HP i. rewrite foldl_app. cbn. unfold read_trace at 1.
    cbn [fst snd]. rewrite (mapM_mono _ P _ _ HP H3), expected_add by done. rewrite Et.
    destruct (decide (i = id)) as [->|]; [apply lookup_insert_eq|]. rewrite lookup_insert_ne by done.
    apply Ht. by etrans.
  - exists f. split_and!; try done; [|lia]. intros P HP i. rewrite Ht by done. rewrite expected_add by done.
    case_decide as E; [|done]. subst. rewrite Et. unfold expected. by rewrite decide_False.
Qed.

Lemma FlushData_step_spec r W0 local f visited id :
  filling_ok r W0 local f visited → 64 * (Z.of_nat (size ({[id]} ∪ fl_written f))) < 2 ^ 32 →
  (id ∉ fl_written f → finder id = Ret (traces id)) →
  ∃ f', FlushData_step finder local f id = Ret f' ∧ filling_ok r W0 local f' (visited ++ [id]).
Proof.
  intros Hf Hz Hfi. unfold FlushData_step.
  assert (∃ f1, (if bool_decide (id ∈ fl_written f) then Ret f
     else f0 ← AddStacktrace finder id f;
          Ret (mkFilling (fl_stacktraces f0) (fl_ptrIds f0) (fl_changed f0)
                 ({[id]} ∪ fl_written f0) (fl_ptrMap f0))) = Ret f1
    ∧ fl_changed f1 = fl_changed f ∧ fl_written f1 = {[id]} ∪ fl_written f
    ∧ ptr_ok (fl_ptrMap f1) (foldl read_ptr (pr_ptrs r) (fl_ptrIds f1))
    ∧ (∀ P, foldl read_ptr (pr_ptrs r) (fl_ptrIds f1) ⊆ P →
        ∀ i, foldl (read_trace P) (pr_traces r) (fl_stacktraces f1) !! i = expected (fl_written f1) i)
    ∧ Z.of_nat (size (fl_ptrMap f1)) ≤ 64 * Z.of_nat (size (fl_written f1))) as (f1 & -> & E1 & E2 & H1 & H2 & H3).
  { case_bool_decide as Hin.
    - exists f. assert ({[id]} ∪ fl_written f = fl_written f) as E.
      { apply set_eq. intros i. rewrite elem_of_union, elem_of_singleton. split; [by intros [->|?]|by right]. }
      rewrite E. split_and!; try done; apply Hf.
    - assert (Hsz : size ({[id]} ∪ fl_written f) = S (size (fl_written f))).
      { rewrite size_union by (intros i ->%elem_of_singleton; done). by rewrite size_singleton. }
      destruct (AddStacktrace_spec r W0 local f visited id Hf Hin) as (f' & -> & G1 & G2 & G3 & G4 & G5);
        [lia|by apply Hfi|].
      step_ret. eexists. split; [done|]. cbn. rewrite G2. split_and!; try done. lia. }
  step_ret. eexists. split; [done|]. split; cbn; try done.
  - intros i. rewrite E1, foldl_app. cbn. destruct (decide (i = id)) as [->|Hne].
    + rewrite lookup_insert_eq, decide_True; [done|]. apply elem_of_app. right. by apply list_elem_of_singleton.
    + rewrite lookup_insert_ne, (fi_changed _ _ _ _ _ Hf) by done.
      destruct (decide (i ∈ visited)) as [Hi|Hi]; [rewrite decide_True|rewrite decide_False]; try done.
      * apply elem_of_app. by left.
      * intros [H|H%list_elem_of_singleton]%elem_of_app; done.
  - intros i. rewrite E2, elem_of_union, elem_of_singleton, (fi_written _ _ _ _ _ Hf), elem_of_app, list_elem_of_singleton.
    tauto.
Qed.

Lemma FlushData_loop_spec r W0 (local : gmap Z AllocSummary) ids : ∀ f visited,
  filling_ok r W0 local f visited → 64 * Z.of_nat (size local) < 2 ^ 32 →
  (∀ id, id ∈ fl_written f → id ∈ dom local) → (∀ id, id ∈ ids → id ∈ dom local) →
  (∀ id, id ∈ ids → id ∉ fl_written f → finder id = Ret (traces id)) →
  ∃ f', FlushData_loop finder local f ids = Ret f' ∧ filling_ok r W0 local f' (visited ++ ids).
Proof.
  induction ids as [|id ids IH]; intros f visited Hf Hz Hw Hids Hfi; cbn [FlushData_loop].
  { exists f. by rewrite app_nil_r. }
  assert (Hsub : ∀ i, i ∈ {[id]} ∪ fl_written f → i ∈ dom local).
  { intros i [->%elem_of_singleton|Hi]%elem_of_union; [apply Hids; by left|by apply Hw]. }
  assert (Hsz : (size ({[id]} ∪ fl_written f) ≤ size local)%nat).
  { rewrite <- (size_dom (D := gset Z) local). by apply subseteq_size. }
  destruct (FlushData_step_spec r W0 local f visited id Hf) as (f1 & -> & Hf1);
    [lia|apply Hfi; by left|]. step_ret.
  destruct (IH f1 (visited ++ [id]) Hf1 Hz) as (f2 & E2 & Hf2).
  - intros i. rewrite (fi_written _ _ _ _ _ Hf1), elem_of_app, list_elem_of_singleton.
    intros Hi. apply Hsub. rewrite elem_of_union, elem_of_singleton, (fi_written _ _ _ _ _ Hf). tauto.
  - intros i Hi. apply Hids. by right.
  - intros i Hi Hn. apply Hfi; [by right|]. intros Hi'. apply Hn. rewrite (fi_written _ _ _ _ _ Hf1), elem_of_app.
    rewrite (fi_written _ _ _ _ _ Hf) in Hi'. tauto.
  - exists f2. split; [done|]. by rewrite <- app_assoc in Hf2.
Qed.

(** *** The invariant of the writer *)

Context (serialize_info : proto_ProcessInfo → bytes) (serialize_snapshot : proto_Snapshot → bytes).
Context (ZSTD_compress : bytes → bytes) (progname : bytes).
Implicit Types (w : ProtobufWriter) (cs : list (SummariesMap * AllocSummary)).

Definition read_all (sns : list proto_Snapshot) : ProtoReader := foldl read_snapshot ProtoReader_init sns.

Record pw_inv info w cs (sns : list proto_Snapshot) : Prop := {
  pw_file : pb_ofstream w =
    concat (frame <$> (ZSTD_compress (serialize_info info) ::
                       ((fun sn => ZSTD_compress (serialize_snapshot sn)) <$> sns)));
  pw_accounted : accounted w cs;
  pw_ptr : ptr_ok (pb_ptrMap w) (pr_ptrs (read_all sns));
  pw_traces id : pr_traces (read_all sns) !! id = expected (pb_writtenTraces w) id;
  pw_actual id : id ∉ pb_changedSummaries w →
    pr_actual (read_all sns) !! id = FillAllocSummary <$> pb_localSummaries w !! id;
  pw_size : Z.of_nat (size (pb_ptrMap w)) ≤ 64 * Z.of_nat (size (pb_writtenTraces w));
  pw_known id : id ∈ pb_writtenTraces w ∨ id ∈ pb_changedSummaries w → id ∈ dom (pb_localSummaries w);
  pw_done id : id ∈ dom (pb_localSummaries w) → id ∈ pb_writtenTraces w ∨ id ∈ pb_changedSummaries w;
}.

Lemma WriteMessage_frames x sns sn :
  WriteMessage ZSTD_compress
    (concat (frame <$> (x :: ((fun sn => ZSTD_compress (serialize_snapshot sn)) <$> sns))))
    (serialize_snapshot sn) =
  concat (frame <$> (x :: ((fun sn => ZSTD_compress (serialize_snapshot sn)) <$> (sns ++ [sn])))).
Proof.
  unfold WriteMessage. rewrite fmap_app, app_comm_cons, (fmap_app frame), concat_app.
  cbn [fmap list_fmap concat]. by rewrite app_nil_r.
Qed.

(** Everything accounted has been written. *)
Definition pw_flushed w (sns : list proto_Snapshot) : Prop :=
  pb_changedSummaries w = ∅ ∧ pr_total (read_all sns) = FillAllocSummary (pb_total w).

(** A flush asks the finder for the traces that were not written before. *)
Lemma Proto_FlushData_on info env w cs sns : pw_inv info w cs sns →
  64 * Z.of_nat (size (pb_localSummaries w)) < 2 ^ 32 →
  (∀ id, id ∈ pb_changedSummaries w → id ∉ pb_writtenTraces w → finder id = Ret (traces id)) →
  ∃ w' sn, Proto_FlushData hash_order serialize_snapshot ZSTD_compress progname env finder w = Ret w'
    ∧ pw_inv info w' cs (sns ++ [sn]) ∧ pw_flushed w' (sns ++ [sn])
    ∧ pb_localSummaries w' = pb_localSummaries w.
Proof.
  intros [Hfile Hac Hp Ht Ha Hs Hk Hd] Hz Hfi. unfold Proto_FlushData.
  set (f0 := mkFilling [] [] [] (pb_writtenTraces w) (pb_ptrMap w)).
  assert (Hf0 : filling_ok (read_all sns) (pb_writtenTraces w) (pb_localSummaries w) f0 []).
  { split; cbn; try done. intros id. split; [by left|by intros [?|?%not_elem_of_nil]]. }
  assert (Hel : ∀ id, id ∈ hash_order (pb_changedSummaries w) ↔ id ∈ pb_changedSummaries w)
    by (intros id; by rewrite hash_order_perm, elem_of_elements).
  destruct (FlushData_loop_spec (read_all sns) (pb_writtenTraces w) (pb_localSummaries w)
    (hash_order (pb_changedSummaries w)) f0 [] Hf0 Hz) as (f & -> & [F1 F2 F3 F4 F5]).
  { intros id Hid. apply Hk. by left. }
  { intros id Hid. apply Hk. right. by apply Hel. }
  { intros id Hid. by apply Hfi, Hel. }
  step_ret. set (sn := mkProtoSnapshot _ _ _ _ _ _). eexists _, sn. split; [done|].
  assert (ER : read_all (sns ++ [sn]) = read_snapshot (read_all sns) sn) by (unfold read_all; by rewrite foldl_app).
  assert (Hw : ∀ id, id ∈ fl_written f ↔ id ∈ dom (pb_localSummaries w)).
  { intros id. rewrite F5. cbn. rewrite Hel. split; [apply Hk|apply Hd]. }
  split; [|split; [split; [done|by rewrite ER]|done]]. split; cbn; rewrite ?ER; cbn; try done.
  - rewrite Hfile. apply WriteMessage_frames.
  - by destruct Hac.
  - intros id. by apply F2.
  - intros id _. rewrite F3. cbn. destruct (decide (id ∈ hash_order (pb_changedSummaries w))) as [Hi|Hi].
    + rewrite Hel in Hi. pose proof (Hk id (or_intror Hi)) as Hdom. apply elem_of_dom in Hdom as [s Hs'].
      by rewrite Hs'.
    + rewrite Hel in Hi. by apply Ha.
  - intros id. rewrite Hw. intros [?|?%elem_of_empty]; done.
  - intros id Hid. left. by apply Hw.
Qed.

Lemma Proto_FlushData_spec info env w cs sns : pw_inv info w cs sns →
  64 * Z.of_nat (size (pb_localSummaries w)) < 2 ^ 32 →
  ∃ w' sn, Proto_FlushData hash_order serialize_snapshot ZSTD_compress progname env finder w = Ret w'
    ∧ pw_inv info w' cs (sns ++ [sn]) ∧ pw_flushed w' (sns ++ [sn])
    ∧ pb_localSummaries w' = pb_localSummaries w.
Proof. intros Hw Hz. apply Proto_FlushData_on; auto. Qed.

(** *** Runs *)

Inductive pop := PAccount (m : SummariesMap) (total : AllocSummary) | PFlush (env : ProtoEnv) | PModules.

Definition pexec w (op : pop) : outcome ProtobufWriter :=
  match op with
  | PAccount m total => Ret (Proto_AccountSnapshot w m total)
  | PFlush env => Proto_FlushData hash_order serialize_snapshot ZSTD_compress progname env finder w
  | PModules => Ret (Proto_UpdateModules w)
  end.

Fixpoint prun w (ops : list pop) : outcome ProtobufWriter :=
  match ops with [] => Ret w | op :: ops => w ← pexec w op; prun w ops end.

Definition pop_snapshots (op : pop) : list (SummariesMap * AllocSummary) :=
  match op with PAccount m total => [(m, total)] | _ => [] end.
Definition pop_entries (op : pop) : Z := match op with PAccount m _ => Z.of_nat (size m) | _ => 0 end.
Definition pentries (ops : list pop) : Z := foldr (fun op acc => pop_entries op + acc) 0 ops.

Definition pop_ok (op : pop) : Prop :=
  match op with PAccount m total => snapshot_ok (m, total) | _ => True end.

Lemma account_inv info w cs sns m total : pw_inv info w cs sns → snapshot_ok (m, total) →
  pw_inv info (Proto_AccountSnapshot w m total) (cs ++ [(m, total)]) sns
  ∧ Z.of_nat (size (pb_localSummaries (Proto_AccountSnapshot w m total)))
    ≤ Z.of_nat (size (pb_localSummaries w)) + Z.of_nat (size m).
Proof.
  intros [Hfile Hac Hp Ht Ha Hs Hk Hd] Hok.
  destruct (proto_account_spec w cs (m, total) Hac Hok) as [Hac' Hch]. cbn [fst snd] in *.
  assert (Hdom : ∀ id, id ∈ dom (pb_localSummaries (Proto_AccountSnapshot w m total))
    ↔ id ∈ dom (pb_localSummaries w) ∨ id ∈ dom m).
  { intros id. rewrite !elem_of_dom. split.
    - intros [s [Hm _]%(ac_local _ _ Hac')]. rewrite mentioned_snoc in Hm. destruct Hm as [Hm|Hm]; [left|by right].
      exists (consumed_of id cs). by apply Hac.
    - intros Hm. exists (consumed_of id (cs ++ [(m, total)])). apply Hac'. split; [|done].
      rewrite mentioned_snoc. destruct Hm as [[s [Hm _]%(ac_local _ _ Hac)]|Hm]; [by left|by right]. }
  assert (Hrest : pb_ofstream (Proto_AccountSnapshot w m total) = pb_ofstream w ∧
    pb_ptrMap (Proto_AccountSnapshot w m total) = pb_ptrMap w ∧
    pb_writtenTraces (Proto_AccountSnapshot w m total) = pb_writtenTraces w).
  { unfold Proto_AccountSnapshot. by destruct (foldl _ _ _). }
  destruct Hrest as (E1 & E2 & E3). split.
  - split; rewrite ?E1, ?E2, ?E3; try done.
    + intros id. rewrite Hch. intros [Hn1 Hn2]%not_elem_of_union. rewrite Ha by done. f_equal.
      unfold Proto_AccountSnapshot.
      pose proof (proto_account_fold (map_to_list m) (NoDup_fst_map_to_list _)
        (pb_localSummaries w) (pb_changedSummaries w)) as [H1 _].
      destruct (foldl _ _ _) as [local changed]. cbn in *. rewrite H1, list_to_map_to_list.
      by rewrite (not_elem_of_dom_1 _ _ Hn1).
    + intros id. rewrite Hch, elem_of_union, Hdom. intros [?|[?|?]]; [left; apply Hk; by left|by right|left; apply Hk; by right].
    + intros id. rewrite Hch, elem_of_union, Hdom. intros [[?|?]%Hd|?]; auto.
  - rewrite <- !(size_dom (D := gset Z)).
    assert (dom (pb_localSummaries (Proto_AccountSnapshot w m total)) ⊆ dom (pb_localSummaries w) ∪ dom m) as Hsub.
    { intros id. rewrite Hdom, elem_of_union. done. }
    apply subseteq_size in Hsub. rewrite size_union_alt in Hsub.
    assert (size (dom m ∖ dom (pb_localSummaries w)) ≤ size (dom m))%nat; [|lia].
    apply subseteq_size. by intros id [? _]%elem_of_difference.
Qed.

Lemma prun_spec info ops : ∀ w cs sns, pw_inv info w cs sns → Forall pop_ok ops →
  64 * (Z.of_nat (size (pb_localSummaries w)) + pentries ops) < 2 ^ 32 →
  ∃ w' sns', prun w ops = Ret w' ∧ pw_inv info w' (cs ++ (ops ≫= pop_snapshots)) sns'
    ∧ Z.of_nat (size (pb_localSummaries w')) ≤ Z.of_nat (size (pb_localSummaries w)) + pentries ops.
Proof.
  induction ops as [|op ops IH]; intros w cs sns Hw Hok Hz; cbn [prun].
  { exists w, sns. cbn. rewrite app_nil_r. split; [done|]. split; [done|lia]. }
  apply Forall_cons in Hok as [Hop Hok].
  assert (He : 0 ≤ pentries ops) by (clear; unfold pentries; induction ops as [|[] ops IH]; cbn [foldr pop_entries]; lia).
  change (pentries (op :: ops)) with (pop_entries op + pentries ops) in *.
  change ((op :: ops) ≫= pop_snapshots) with (pop_snapshots op ++ (ops ≫= pop_snapshots)).
  assert (∃ w1 sns1, pexec w op = Ret w1 ∧ pw_inv info w1 (cs ++ pop_snapshots op) sns1
    ∧ Z.of_nat (size (pb_localSummaries w1)) ≤ Z.of_nat (size (pb_localSummaries w)) + pop_entries op)
    as (w1 & sns1 & -> & Hw1 & Hs1).
  { destruct op as [m total|env|]; cbn [pexec pop_snapshots pop_entries] in *.
    - destruct (account_inv info w cs sns m total Hw Hop) as [Hw1 Hs1]. by eexists _, sns.
    - destruct (Proto_FlushData_spec info env w cs sns Hw) as (w1 & sn & -> & Hw1 & _ & E); [lia|].
      exists w1, (sns ++ [sn]). rewrite app_nil_r, E. split; [done|]. split; [done|lia].
    - eexists _, sns. split; [done|]. rewrite app_nil_r. split; [|cbn; lia].
      destruct Hw as [? [? ?] ? ? ? ? ? ?]. by split. }
  step_ret. destruct (IH w1 _ sns1 Hw1 Hok) as (w2 & sns2 & -> & Hw2 & Hs2); [lia|].
  exists w2, sns2. rewrite app_assoc. split; [done|]. split; [done|lia].
Qed.

(** The first snapshot, written by the constructor. *)
Definition first_snapshot : SummariesMap * AllocSummary := ({[0 := AllocSummary_zero]}, AllocSummary_zero).

Lemma zero_in_range : in_range AllocSummary_zero.
Proof. rewrite <- wrap_zero. apply wrap_in_range. Qed.

Lemma ctor_inv_on shortName pid startNs env (info := FillProcessInfo progname shortName pid startNs) :
  finder 0 = Ret (traces 0) →
  ∃ w sns, ProtobufWriter_ctor hash_order serialize_info serialize_snapshot ZSTD_compress progname
             shortName pid startNs env finder = Ret w
    ∧ pw_inv info w [first_snapshot] sns ∧ Z.of_nat (size (pb_localSummaries w)) ≤ 1
    ∧ pb_changedSummaries w = ∅.
Proof.
  clear finder_traces. intros Hfi. unfold ProtobufWriter_ctor. fold info. set (w0 := mkProtobufWriter _ _ _ _ _ _ _).
  assert (H0 : pw_inv info w0 [] []).
  { split; cbn; try done.
    - unfold frame. by rewrite app_nil_r.
    - split; [|done]. cbn. intros id s. rewrite lookup_empty. split; [done|].
      intros [H _]. by apply Exists_nil in H.
    - intros id [?%elem_of_empty|?%elem_of_empty]; done. }
  destruct (account_inv info w0 [] [] {[0 := AllocSummary_zero]} AllocSummary_zero H0) as [H1 Hs1].
  { split; [apply zero_in_range|]. cbn. intros id s [<- <-]%lookup_singleton_Some.
    split; [apply zero_in_range|unfold is_u32; lia]. }
  rewrite map_size_singleton in Hs1. change (size (pb_localSummaries w0)) with 0%nat in Hs1.
  destruct (Proto_FlushData_on info env _ _ _ H1) as (w & sn & -> & Hw & [Hch _] & E); [lia| |].
  { intros id Hid _. pose proof (pw_known _ _ _ _ H1 id (or_intror Hid)) as Hd.
    apply elem_of_dom in Hd as [s [Hm _]%(ac_local _ _ (pw_accounted _ _ _ _ H1))].
    apply Exists_cons in Hm as [[x Hx]|Hm%Exists_nil]; [|done]. cbn in Hx.
    by apply lookup_singleton_Some in Hx as [<- _]. }
  exists w, [sn]. split; [done|]. split; [done|]. split; [rewrite E; lia|done].
Qed.

Lemma ctor_inv shortName pid startNs env (info := FillProcessInfo progname shortName pid startNs) :
  ∃ w sns, ProtobufWriter_ctor hash_order serialize_info serialize_snapshot ZSTD_compress progname
             shortName pid startNs env finder = Ret w
    ∧ pw_inv info w [first_snapshot] sns ∧ Z.of_nat (size (pb_localSummaries w)) ≤ 1.
Proof.
  destruct (ctor_inv_on shortName pid startNs env (finder_traces 0)) as (w & sns & E & Hw & Hs & _).
  by exists w, sns.
Qed.

(** *** Reading the bytes *)

Context (ZSTD_decompress : bytes → option bytes) (parse_info : bytes → option proto_ProcessInfo)
        (parse_snapshot : bytes → option proto_Snapshot).

(** The whole reader: frames, messages, state. *)
Definition read_proto_file (file : bytes) : option (proto_ProcessInfo * ProtoReader) :=
  frames ← read_frames (length file) file;
  messages ← mapM ZSTD_decompress frames;
  match messages with
  | [] => None
  | m :: ms => info ← parse_info m; sns ← mapM parse_snapshot ms; Some (info, read_all sns)
  end.

Lemma mapM_inverse {A B} (f : B → option A) (g : A → B) l :
  (∀ x, f (g x) = Some x) → mapM f (g <$> l) = Some l.
Proof. intros H. induction l as [|x l IH]; [done|]. cbn. rewrite H. cbn. by rewrite IH. Qed.

Lemma read_proto_file_spec info w cs sns : pw_inv info w cs sns →
  zlen (pb_ofstream w) < 2 ^ 64 → (∀ b, ZSTD_decompress (ZSTD_compress b) = Some b) →
  (∀ i, parse_info (serialize_info i) = Some i) → (∀ s, parse_snapshot (serialize_snapshot s) = Some s) →
  read_proto_file (pb_ofstream w) = Some (info, read_all sns).
Proof.
  intros Hw Hsz Hz Hi Hs. unfold read_proto_file. rewrite (pw_file _ _ _ _ Hw) in *.
  set (ms := serialize_info info :: (serialize_snapshot <$> sns)).
  assert (E : ZSTD_compress (serialize_info info) :: ((fun sn => ZSTD_compress (serialize_snapshot sn)) <$> sns)
    = ZSTD_compress <$> ms) by (subst ms; cbn; by rewrite <- list_fmap_compose).
  rewrite E in *. rewrite read_frames_spec.
  - cbn [mbind option_bind]. rewrite (mapM_inverse ZSTD_decompress ZSTD_compress) by apply Hz.
    subst ms. cbn [mbind option_bind]. rewrite Hi. cbn [mbind option_bind].
    by rewrite (mapM_inverse parse_snapshot serialize_snapshot).
  - by apply frame_small.
  - apply frames_bytes.
Qed.

(** What the reader knows after a flush. *)
Lemma reader_balances info w cs sns : pw_inv info w cs sns → pw_flushed w sns →
  pr_total (read_all sns) = FillAllocSummary (consumed_total cs) ∧ ∀ id,
    (mentioned cs id → pr_actual (read_all sns) !! id = Some (FillAllocSummary (consumed_of id cs))
      ∧ pr_traces (read_all sns) !! id = (fun st => written_addr <$> GetTrace st) <$> traces id) ∧
    (¬ mentioned cs id → pr_actual (read_all sns) !! id = None ∧ pr_traces (read_all sns) !! id = None).
Proof.
  intros Hw [Hch Htot]. destruct (pw_accounted _ _ _ _ Hw) as [Hl Ht]. split; [by rewrite Htot, Ht|].
  intros id. assert (Hact : pr_actual (read_all sns) !! id = FillAllocSummary <$> pb_localSummaries w !! id).
  { apply (pw_actual _ _ _ _ Hw). rewrite Hch. by intros ?%elem_of_empty. }
  rewrite (pw_traces _ _ _ _ Hw), Hact. unfold expected.
  assert (Hdom : id ∈ dom (pb_localSummaries w) ↔ mentioned cs id).
  { rewrite elem_of_dom. split; [by intros [s [Hm _]%Hl]|intros Hm]. exists (consumed_of id cs). by apply Hl. }
  split; intros Hm.
  - apply Hdom in Hm as Hin. split; [by rewrite (proj2 (Hl id (consumed_of id cs)))|].
    rewrite decide_True; [done|]. destruct (pw_done _ _ _ _ Hw id Hin) as [?|H]; [done|].
    rewrite Hch in H. by apply elem_of_empty in H.
  - rewrite <- Hdom in Hm. split; [by rewrite (not_elem_of_dom_1 _ _ Hm)|].
    rewrite decide_False; [done|]. intros H. apply Hm, (pw_known _ _ _ _ Hw). by left.
Qed.
End replay.

(** The invariant only depends on the traces that were written. *)
Lemma pw_inv_traces (tr tr' : Z → option Stacktrace) si ss zc info w cs sns :
  (∀ id, id ∈ pb_writtenTraces w → tr id = tr' id) →
  pw_inv tr si ss zc info w cs sns → pw_inv tr' si ss zc info w cs sns.
Proof.
  intros He [Hfile Hac Hp Ht Ha Hs Hk Hd]. split; try done. intros id. rewrite Ht. unfold expected.
  case_decide as Hid; [|done]. by rewrite He.
Qed.

(** ** Properties *)

(** C28: for any sequence of snapshots, flushes and changes of the modules, a final flush
    leaves a file that a reader takes apart completely: the process, and for every trace
    that was ever mentioned its exact accumulated balance and, when the finder knows it, its
    frames (addresses less one); nothing is known of other traces, and the total is the
    accumulated total. *)
Theorem proto_replay (hash_order : gset Z → list Z) (finder : Z → outcome (option Stacktrace))
    (traces : Z → option Stacktrace) serialize_info serialize_snapshot ZSTD_compress progname
    ZSTD_decompress parse_info parse_snapshot shortName pid startNs env0 ops env :
  (∀ X, hash_order X ≡ₚ elements X) →
  (∀ id, finder id = Ret (traces id)) → (∀ id st, traces id = Some st → st_ok st) →
  (∀ b, ZSTD_decompress (ZSTD_compress b) = Some b) →
  (∀ i, parse_info (serialize_info i) = Some i) → (∀ s, parse_snapshot (serialize_snapshot s) = Some s) →
  Forall pop_ok ops → 64 * (1 + pentries ops) < 2 ^ 32 →
  let cs := first_snapshot :: (ops ≫= pop_snapshots) in
  ∃ w0 w1 w,
    ProtobufWriter_ctor hash_order serialize_info serialize_snapshot ZSTD_compress progname shortName pid
      startNs env0 finder = Ret w0
    ∧ prun hash_order finder serialize_snapshot ZSTD_compress progname w0 ops = Ret w1
    ∧ Proto_FlushData hash_order serialize_snapshot ZSTD_compress progname env finder w1 = Ret w
    ∧ (zlen (pb_ofstream w) < 2 ^ 64 → ∃ r,
      read_proto_file ZSTD_decompress parse_info parse_snapshot (pb_ofstream w)
        = Some (FillProcessInfo progname shortName pid startNs, r)
      ∧ pr_total r = FillAllocSummary (consumed_total cs)
      ∧ ∀ id,
          (mentioned cs id → pr_actual r !! id = Some (FillAllocSummary (consumed_of id cs))
            ∧ pr_traces r !! id = (fun st => written_addr <$> GetTrace st) <$> traces id) ∧
          (¬ mentioned cs id → pr_actual r !! id = None ∧ pr_traces r !! id = None)).
Proof.
  intros Hord Hfind Htr Hz Hi Hs Hops Hn cs.
  destruct (ctor_inv hash_order Hord finder traces Hfind Htr serialize_info serialize_snapshot ZSTD_compress
    progname shortName pid startNs env0) as (w0 & sns0 & E0 & Hw0 & Hs0).
  destruct (prun_spec hash_order Hord finder traces Hfind Htr serialize_info serialize_snapshot ZSTD_compress
    progname _ ops w0 _ _ Hw0 Hops) as (w1 & sns1 & E1 & Hw1 & Hs1); [lia|].
  destruct (Proto_FlushData_spec hash_order Hord finder traces Hfind Htr serialize_info serialize_snapshot
    ZSTD_compress progname _ env w1 _ _ Hw1) as (w & sn & E2 & Hw & Hfl & El); [lia|].
  exists w0, w1, w. split; [done|]. split; [done|]. split; [done|]. intros Hsz. exists (read_all (sns1 ++ [sn])).
  split; [by apply (read_proto_file_spec traces serialize_info serialize_snapshot ZSTD_compress _ _ _ _ w cs)|].
  by apply (reader_balances traces serialize_info serialize_snapshot ZSTD_compress _ _ _ _ Hw).
Qed.

(** *** A codec for the example: any countable type as a sequence of bytes. *)

Fixpoint pos_bytes (p : positive) : bytes :=
  match p with xH => [1] | xO p => 0 :: pos_bytes p | xI p => 2 :: pos_bytes p end.

Fixpoint bytes_pos (b : bytes) : option positive :=
  match b with
  | [] => None
  | 1 :: _ => Some xH
  | 0 :: b => xO <$> bytes_pos b
  | _ :: b => xI <$> bytes_pos b
  end.

Lemma bytes_pos_bytes p : bytes_pos (pos_bytes p) = Some p.
Proof. induction p as [p IH|p IH|]; cbn; rewrite ?IH; done. Qed.

Definition to_bytes `{Countable A} (x : A) : bytes := pos_bytes (encode x).
Definition of_bytes `{Countable A} (b : bytes) : option A := bytes_pos b ≫= decode.

Lemma of_to_bytes `{Countable A} (x : A) : of_bytes (to_bytes x) = Some x.
Proof. unfold of_bytes, to_bytes. rewrite bytes_pos_bytes. apply decode_encode. Qed.

#[export] Instance proto_AllocSummary_eq_dec : EqDecision proto_AllocSummary.
Proof. solve_decision. Defined.
#[export] Instance proto_LoadedSo_eq_dec : EqDecision proto_LoadedSo.
Proof. solve_decision. Defined.
#[export] Instance proto_ProcessInfo_eq_dec : EqDecision proto_ProcessInfo.
Proof. solve_decision. Defined.
#[export] Instance proto_Snapshot_eq_dec : EqDecision proto_Snapshot.
Proof. solve_decision. Defined.
#[export] Program Instance proto_AllocSummary_countable : Countable proto_AllocSummary :=
  inj_countable' (fun s => (pas_active s, pas_size s, pas_overhead s, pas_totalCount s, pas_totalBytes s))
    (fun '(a, b, c, d, e) => mkProtoAllocSummary a b c d e) _.
Next Obligation. by intros []. Qed.
#[export] Program Instance proto_LoadedSo_countable : Countable proto_LoadedSo :=
  inj_countable' (fun s => (so_addr s, so_filename s, so_segments s))
    (fun '(a, b, c) => mkProtoLoadedSo a b c) _.
Next Obligation. by intros []. Qed.
#[export] Program Instance proto_ProcessInfo_countable : Countable proto_ProcessInfo :=
  inj_countable' (fun s => (pi_processShortName s, pi_processFullPath s, pi_pid s, pi_startTimestamp s))
    (fun '(a, b, c, d) => mkProtoProcessInfo a b c d) _.
Next Obligation. by intros []. Qed.
#[export] Program Instance proto_Snapshot_countable : Countable proto_Snapshot :=
  inj_countable'
    (fun s => (sn_loadedSo s, sn_timestamp s, sn_total s, sn_stacktraces s, sn_ptrIds s, sn_changed s))
    (fun '(a, b, c, d, e, f) => mkProtoSnapshot a b c d e f) _.
Next Obligation. by intros []. Qed.

Lemma proto_replay_witness :
  let st := mkStacktrace 2 0 ([4660; 22136] ++ replicate 62 0) in
  let delta n := mkAllocSummary n 0 1 0 0 in
  let ops := [PAccount {[5 := delta 100]} (delta 100); PFlush (mkProtoEnv 7 []); PModules;
              PAccount {[5 := delta (-40)]} (delta (-40))] in
  let env0 := mkProtoEnv 3 [([], 4194304, [(0, 8192)])] in
  ∃ w0 w1 w r, ProtobufWriter_ctor elements to_bytes to_bytes id [97] [98] 1 2 env0 (fun _ => Ret (Some st)) = Ret w0
    ∧ prun elements (fun _ => Ret (Some st)) to_bytes id [97] w0 ops = Ret w1
    ∧ Proto_FlushData elements to_bytes id [97] (mkProtoEnv 9 []) (fun _ => Ret (Some st)) w1 = Ret w
    ∧ read_proto_file Some of_bytes of_bytes (pb_ofstream w) = Some (mkProtoProcessInfo [98] [97] 1 2, r)
    ∧ pr_actual r !! 5 = Some (mkProtoAllocSummary 2 60 0 0 0)
    ∧ pr_traces r !! 5 = Some [4659; 22135] ∧ pr_actual r !! 6 = None.
Proof.
  intros st delta ops env0.
  assert (Hst : st_ok st) by ground.
  assert (Hd : ∀ n id x s, - 2 ^ 62 ≤ n ≤ 2 ^ 62 → is_u32 id → ({[id := delta n]} : SummariesMap) !! x = Some s →
    in_range s ∧ is_u32 x).
  { intros n id x s Hn Hid [<- <-]%lookup_singleton_Some. split; [|done].
    unfold in_range, is_i64, is_u64. cbn. lia. }
  assert (Hops : Forall pop_ok ops).
  { constructor; [|constructor; [done|constructor; [done|constructor; [|constructor]]]];
      (split; [unfold in_range, is_i64, is_u64; cbn; lia|intros x s; apply Hd; unfold is_u32; lia]). }
  destruct (proto_replay elements (fun _ => Ret (Some st)) (fun _ => Some st) to_bytes to_bytes id [97]
    Some of_bytes of_bytes [98] 1 2 env0 ops (mkProtoEnv 9 [])) as (w0 & w1 & w & E0 & E1 & E2 & Hr).
  - done.
  - done.
  - by intros _ st' [= <-].
  - done.
  - apply of_to_bytes.
  - apply of_to_bytes.
  - done.
  - vm_compute. done.
  - assert (Hsize : (w0 ← ProtobufWriter_ctor elements to_bytes to_bytes id [97] [98] 1 2 env0 (fun _ => Ret (Some st));
              w1 ← prun elements (fun _ => Ret (Some st)) to_bytes id [97] w0 ops;
              w ← Proto_FlushData elements to_bytes id [97] (mkProtoEnv 9 []) (fun _ => Ret (Some st)) w1;
              Ret (zlen (pb_ofstream w))) = Ret 11576) by (vm_compute; reflexivity).
    rewrite E0 in Hsize. cbn [mbind outcome_bind] in Hsize. rewrite E1 in Hsize. cbn [mbind outcome_bind] in Hsize.
    rewrite E2 in Hsize. injection Hsize as Hsize.
    destruct Hr as (r & Hread & _ & Hid); [lia|]. exists w0, w1, w, r.
    assert (Hm : mentioned (first_snapshot :: (ops ≫= pop_snapshots)) 5) by (right; left; by eexists).
    assert (Hn : ¬ mentioned (first_snapshot :: (ops ≫= pop_snapshots)) 6).
    { intros H. repeat (apply Exists_cons in H as [[s [=]]|H]). by apply Exists_nil in H. }
    destruct (proj1 (Hid 5) Hm) as [Ha Ht]. destruct (proj2 (Hid 6) Hn) as [Hz _].
    split_and!; [done..|rewrite Ha; by vm_compute|rewrite Ht; by vm_compute|done].
Defined.
