(* ===== verification/CompressedTrie.v ===== *)
(** * The compressed trie of the flame graph tool ([flamegraph/src/graph.h])

    Stacks of a profile are merged into a trie whose nodes carry a whole segment of a path.
    Nodes live in a deque and are named by their position in it, segments are ranges of one
    deque of keys; both are lists here, with accesses out of range undefined.  [Lookup] walks
    the trie and is the specification's view of it: the theorem says that it shows, for every
    path, the weight of the stacks below it. *)

From Stdlib Require Import ZArith Lia.
From stdpp Require Import base numbers list gmap.
From S2P Require Import Prelude.

(** ** The data *)

Record PathSpan := mkPathSpan { span_begin : Z; span_end : Z }.

Definition span_size (s : PathSpan) : Z := u32 (span_end s - span_begin s).
Definition span_offset (s : PathSpan) (count : Z) : PathSpan :=
  mkPathSpan (u32 (span_begin s + count)) (span_end s).
Definition span_first (s : PathSpan) (count : Z) : PathSpan :=
  mkPathSpan (span_begin s) (u32 (span_begin s + count)).

Record Node := mkNode { nd_path : PathSpan; nd_edges : gmap Z Z; nd_total : Z; nd_value : Z }.

Record CompressedTrie := mkTrie { t_nodes : list Node; t_paths : list Z }.

Definition CompressedTrie_ctor : CompressedTrie := mkTrie [mkNode (mkPathSpan 0 0) ∅ 0 0] [].

(** ** Inserting a path *)

(** The loop that compares the path with the segment of a node. *)
Fixpoint SplitPath_match (fuel : nat) (paths path : list Z) (begin matched maxMatched : Z) : outcome Z :=
  if matched <? maxMatched then
    match fuel with
    | O => NoFuel
    | S fuel =>
      a ← rd path matched;
      b ← rd paths (begin + matched);
      if negb (a =? b) then Ret matched
      else SplitPath_match fuel paths path begin (u32 (matched + 1)) maxMatched
    end
  else Ret matched.

Definition SplitPath (t : CompressedTrie) (root : Z) (path : list Z) : outcome (Z * CompressedTrie) :=
  node ← rd (t_nodes t) root;
  let nodePath := nd_path node in
  let maxMatched := u32 (Z.min (zlen path) (span_size nodePath)) in
  matched ← SplitPath_match (length path) (t_paths t) path (span_begin nodePath) 0 maxMatched;
  if matched =? span_size nodePath then Ret (matched, t)
  else
    key ← rd (t_paths t) (u32 (span_begin nodePath + matched));
    let leftoverNodeId := u32 (zlen (t_nodes t)) in
    let leftoverNode := mkNode (span_offset nodePath matched) (nd_edges node) (nd_total node) (nd_value node) in
    let node := mkNode (span_first nodePath matched) {[key := leftoverNodeId]} (nd_total node) 0 in
    nodes ← wr (t_nodes t ++ [leftoverNode]) root node;
    Ret (matched, mkTrie nodes (t_paths t)).

Definition CreatePath (paths path : list Z) : PathSpan * list Z :=
  let paths' := paths ++ path in
  (mkPathSpan (u32 (zlen paths)) (u32 (zlen paths')), paths').

(** [node.total += value] on the way, [total] and [value] at the end.  Sums that do not fit
    wrap, as compiled code does; the standard leaves them undefined. *)
Definition add_total (node : Node) (value : Z) : Node :=
  mkNode (nd_path node) (nd_edges node) (i64 (nd_total node + value)) (nd_value node).
Definition add_both (node : Node) (value : Z) : Node :=
  mkNode (nd_path node) (nd_edges node) (i64 (nd_total node + value)) (i64 (nd_value node + value)).

Definition finish (t : CompressedTrie) (root value : Z) : outcome CompressedTrie :=
  node ← rd (t_nodes t) root;
  nodes ← wr (t_nodes t) root (add_both node value);
  Ret (mkTrie nodes (t_paths t)).

(** The edge to follow, made when there is none. *)
Definition next_node (t : CompressedTrie) (root key : Z) (path : list Z) : outcome (Z * CompressedTrie) :=
  node ← rd (t_nodes t) root;
  match nd_edges node !! key with
  | Some next => Ret (next, t)
  | None =>
    let nextNodeId := u32 (zlen (t_nodes t)) in
    let '(span, paths) := CreatePath (t_paths t) path in
    let node := mkNode (nd_path node) (<[key := nextNodeId]> (nd_edges node)) (nd_total node) (nd_value node) in
    nodes ← wr (t_nodes t ++ [mkNode span ∅ 0 0]) root node;
    Ret (nextNodeId, mkTrie nodes paths)
  end.

Fixpoint Append_loop (fuel : nat) (t : CompressedTrie) (root : Z) (path : list Z) (value : Z)
  : outcome CompressedTrie :=
  match path with
  | [] => finish t root value
  | _ =>
    match fuel with
    | O => NoFuel
    | S fuel =>
      '(matched, t) ← SplitPath t root path;
      let path := drop (Z.to_nat matched) path in
      match path with
      | [] => finish t root value
      | key :: _ =>
        node ← rd (t_nodes t) root;
        nodes ← wr (t_nodes t) root (add_total node value);
        '(next, t) ← next_node (mkTrie nodes (t_paths t)) root key path;
        Append_loop fuel t next path value
      end
    end
  end.

(** Every iteration but the one at the root consumes a key. *)
Definition Append (t : CompressedTrie) (path : list Z) (value : Z) : outcome CompressedTrie :=
  Append_loop (S (length path)) t 0 path value.

(** ** Reading the trie *)

Definition node_path (t : CompressedTrie) (nd : Node) : list Z :=
  take (Z.to_nat (span_end (nd_path nd) - span_begin (nd_path nd)))
    (drop (Z.to_nat (span_begin (nd_path nd))) (t_paths t)).

(** Total and own value at a path. *)
Fixpoint Lookup_from (fuel : nat) (t : CompressedTrie) (i : nat) (q : list Z) : option (Z * Z) :=
  nd ← t_nodes t !! i;
  let p := node_path t nd in
  if decide (q `prefix_of` p)
  then Some (nd_total nd, if decide (length q = length p) then nd_value nd else 0)
  else
    match fuel with
    | O => None
    | S fuel =>
      if decide (p `prefix_of` q) then
        match drop (length p) q with
        | [] => None
        | x :: r => c ← nd_edges nd !! x; Lookup_from fuel t (Z.to_nat c) (x :: r)
        end
      else None
    end.

Definition Lookup (t : CompressedTrie) (q : list Z) : option (Z * Z) :=
  Lookup_from (S (length q)) t 0 q.

(** ** The invariant

    [base i] is the path from the root to the segment of node [i]. *)

Record trie_ok (t : CompressedTrie) (base : nat → list Z) : Prop := {
  ok_root : base 0%nat = [] ∧ ∃ nd, t_nodes t !! 0%nat = Some nd ∧ node_path t nd = [];
  ok_span i nd : t_nodes t !! i = Some nd →
    0 ≤ span_begin (nd_path nd) ≤ span_end (nd_path nd) ∧ span_end (nd_path nd) ≤ zlen (t_paths t);
  ok_nonempty i nd : t_nodes t !! i = Some nd → i ≠ 0%nat → node_path t nd ≠ [];
  ok_edge i nd k c : t_nodes t !! i = Some nd → nd_edges nd !! k = Some c →
    ∃ j nd', c = Z.of_nat j ∧ j ≠ 0%nat ∧ t_nodes t !! j = Some nd'
      ∧ head (node_path t nd') = Some k ∧ base j = base i ++ node_path t nd;
  ok_parent j nd : t_nodes t !! j = Some nd → j ≠ 0%nat →
    ∃ i nd' k, t_nodes t !! i = Some nd' ∧ nd_edges nd' !! k = Some (Z.of_nat j);
}.

(** The [k]-th key of node [i] is the end of path [q]. *)
Definition at_pos (t : CompressedTrie) (base : nat → list Z) (i k : nat) (nd : Node) (q : list Z) : Prop :=
  t_nodes t !! i = Some nd ∧ (k ≤ length (node_path t nd))%nat ∧ (0 < k ∨ i = 0)%nat
  ∧ q = base i ++ take k (node_path t nd).

Definition pos_data (t : CompressedTrie) (k : nat) (nd : Node) : Z * Z :=
  (nd_total nd, if decide (k = length (node_path t nd)) then nd_value nd else 0).

Lemma trie_ok_ctor : trie_ok CompressedTrie_ctor (fun _ => []).
Proof.
  split.
  - split; [done|]. by eexists.
  - intros [|i] nd [= <-]. cbn. unfold zlen. cbn. lia.
  - by intros [|i] nd [= <-].
  - by intros [|i] nd k c [= <-].
  - by intros [|i] nd [= <-].
Qed.

Section positions.
Context (t : CompressedTrie) (base : nat → list Z) (Hok : trie_ok t base).

Lemma root_pos i k nd : at_pos t base i k nd [] ↔ i = 0%nat ∧ k = 0%nat ∧ t_nodes t !! 0%nat = Some nd.
Proof.
  destruct (ok_root _ _ Hok) as [Hb (nd0 & H0 & Hp0)]. split.
  - intros (Hi & Hk & Hor & Hq). symmetry in Hq. apply app_nil in Hq as [_ Hq].
    destruct Hor as [Hpos|Hi0].
    + destruct (node_path t nd); [cbn in *; lia|]. destruct k; [lia|done].
    + rewrite Hi0 in Hi |- *. split; [done|]. assert (nd = nd0) as E by congruence. rewrite E, Hp0 in Hk.
      cbn in Hk. split; [lia|done].
  - intros (-> & -> & H). split; [done|]. split; [lia|]. split; [by right|]. by rewrite Hb.
Qed.

(** The position before the end of a path. *)
Lemma pos_pred i k nd q x : at_pos t base i k nd (q ++ [x]) →
  node_path t nd !! (k - 1)%nat = Some x ∧
  ((1 < k)%nat ∧ at_pos t base i (k - 1) nd q ∨
   k = 1%nat ∧ ∃ p nd', at_pos t base p (length (node_path t nd')) nd' q ∧
                        nd_edges nd' !! x = Some (Z.of_nat i)).
Proof.
  intros (Hi & Hk & Hor & Hq).
  destruct (ok_root _ _ Hok) as [Hb (nd0 & H0 & Hp0)].
  assert (Hk0 : (0 < k)%nat).
  { destruct Hor as [?|Hi0]; [done|]. rewrite Hi0 in Hi, Hq. assert (nd = nd0) as E by congruence.
    rewrite E, Hp0, Hb, take_nil in Hq. by destruct q. }
  destruct (lookup_lt_is_Some_2 (node_path t nd) (k - 1)) as [y Hy]; [lia|].
  assert (Hs : take k (node_path t nd) = take (k - 1) (node_path t nd) ++ [y]).
  { rewrite <- (take_S_r _ _ _ Hy). f_equal. lia. }
  rewrite Hs, app_assoc in Hq. apply app_inj_tail in Hq as [Hq ->]. split; [done|].
  destruct (decide (k = 1%nat)) as [->|Hk1]; [right|left; split; [lia|split_and!; [done|lia|lia|done]]].
  split; [done|]. cbn in Hq. rewrite app_nil_r in Hq.
  assert (Hi0 : i ≠ 0%nat).
  { intros Hi0. rewrite Hi0 in Hi. assert (nd = nd0) as E by congruence. rewrite E, Hp0 in Hk. cbn in Hk. lia. }
  destruct (ok_parent _ _ Hok i nd Hi Hi0) as (p & nd' & x & Hp & He).
  destruct (ok_edge _ _ Hok p nd' x _ Hp He) as (j & nd'' & Hj & _ & Hn & Hh & Hbase).
  apply Nat2Z.inj in Hj as <-. assert (nd'' = nd) as E by congruence. rewrite E in Hh.
  exists p, nd'. split.
  - split; [done|]. split; [done|]. rewrite take_ge by done. split; [|congruence].
    destruct (decide (p = 0%nat)) as [->|Hp0']; [by right|left].
    pose proof (ok_nonempty _ _ Hok p nd' Hp Hp0'). destruct (node_path t nd'); [done|cbn; lia].
  - destruct (node_path t nd) as [|z l]; [done|]. cbn in Hh, Hy. injection Hh as ->. by injection Hy as ->.
Qed.

Lemma pos_unique q : ∀ i k nd j l nd', at_pos t base i k nd q → at_pos t base j l nd' q →
  i = j ∧ k = l ∧ nd = nd'.
Proof.
  induction q as [|x q IH] using rev_ind; intros i k nd j l nd' Hi Hj.
  { apply root_pos in Hi as (-> & -> & Hi). apply root_pos in Hj as (-> & -> & Hj). split_and!; congruence. }
  assert (Hni : t_nodes t !! i = Some nd) by apply Hi. assert (Hnj : t_nodes t !! j = Some nd') by apply Hj.
  assert (Hki : (k ≤ length (node_path t nd))%nat) by apply Hi.
  assert (Hkj : (l ≤ length (node_path t nd'))%nat) by apply Hj.
  destruct (pos_pred _ _ _ _ _ Hi) as [_ [[Hk Hi']|[-> (p & np & Hp & Hep)]]];
    destruct (pos_pred _ _ _ _ _ Hj) as [_ [[Hl Hj']|[-> (r & nr & Hr & Her)]]].
  - destruct (IH _ _ _ _ _ _ Hi' Hj') as (-> & ? & ->). split_and!; [done|lia|done].
  - destruct (IH _ _ _ _ _ _ Hi' Hr) as (-> & ? & ->). lia.
  - destruct (IH _ _ _ _ _ _ Hp Hj') as (-> & ? & ->). lia.
  - destruct (IH _ _ _ _ _ _ Hp Hr) as (-> & _ & ->). rewrite Hep in Her. injection Her as E.
    apply Nat2Z.inj in E as ->. split_and!; congruence.
Qed.

(** Prefixes of positions are positions. *)
Lemma pos_prefix q1 q2 i k nd : at_pos t base i k nd (q1 ++ q2) → ∃ j l nd', at_pos t base j l nd' q1.
Proof.
  revert i k nd. induction q2 as [|x q2 IH] using rev_ind; intros i k nd H.
  { rewrite app_nil_r in H. by eexists _, _, _. }
  rewrite app_assoc in H. apply pos_pred in H as [_ [[_ H]|[_ (p & nd' & H & _)]]]; by apply IH in H.
Qed.

(** How a path goes on after a position. *)
Lemma pos_succ i k nd q x j l nd' : at_pos t base i k nd q → at_pos t base j l nd' (q ++ [x]) →
  (j = i ∧ l = S k ∧ nd' = nd ∧ node_path t nd !! k = Some x) ∨
  (k = length (node_path t nd) ∧ l = 1%nat ∧ nd_edges nd !! x = Some (Z.of_nat j)).
Proof.
  intros Hi Hj. destruct (pos_pred _ _ _ _ _ Hj) as [Hx [[Hl Hj']|[-> (p & np & Hp & He)]]].
  - destruct (pos_unique _ _ _ _ _ _ _ Hi Hj') as (-> & -> & ->). left. split_and!; [done|lia|done|done].
  - destruct (pos_unique _ _ _ _ _ _ _ Hi Hp) as (-> & -> & ->). by right.
Qed.
End positions.

Lemma prefix_split (q p : list Z) : q `prefix_of` p ↔ (length q ≤ length p)%nat ∧ take (length q) p = q.
Proof.
  split.
  - intros [s ->]. rewrite length_app, take_app_length. split; [lia|done].
  - intros [_ H]. rewrite <- H. apply prefix_take.
Qed.

(** Two lists agree up to some point, where one of them ends or they differ. *)
Lemma list_compare (p r : list Z) :
  r `prefix_of` p ∨ (∃ x s, r = p ++ x :: s) ∨
  (∃ m x y s u, p = m ++ y :: s ∧ r = m ++ x :: u ∧ x ≠ y).
Proof.
  revert r. induction p as [|y p IH]; intros [|x r].
  - by left.
  - right; left. by exists x, r.
  - left. apply prefix_nil.
  - destruct (decide (x = y)) as [->|Hne]; [|right; right; by exists [], x, y, p, r].
    destruct (IH r) as [H|[(z & s & ->)|(m & z & w & s & u & -> & -> & H)]].
    + left. by apply prefix_cons.
    + right; left. by exists z, s.
    + right; right. by exists (y :: m), z, w, s, u.
Qed.

Section lookup.
Context (t : CompressedTrie) (base : nat → list Z) (Hok : trie_ok t base).

(** A node may be entered with the rest [r] of a path. *)
Definition enters (i : nat) (nd : Node) (r : list Z) : Prop :=
  t_nodes t !! i = Some nd ∧ (i = 0%nat ∨ r ≠ [] ∧ head r = head (node_path t nd)).

Lemma enters_pos i nd r k : enters i nd r → (0 < k ∨ i = 0)%nat → (k ≤ length (node_path t nd))%nat →
  at_pos t base i k nd (base i ++ take k (node_path t nd)).
Proof. intros [H _] ??. done. Qed.

Lemma enters_edge i nd x r c : enters i nd (node_path t nd ++ x :: r) → nd_edges nd !! x = Some c →
  ∃ j nd', c = Z.of_nat j ∧ j ≠ 0%nat ∧ enters j nd' (x :: r) ∧ base j = base i ++ node_path t nd.
Proof.
  intros [Hi _] He. destruct (ok_edge _ _ Hok _ _ _ _ Hi He) as (j & nd' & -> & Hj & Hn & Hh & Hb).
  exists j, nd'. split; [done|]. split; [done|]. split; [|done]. split; [done|]. right. by rewrite Hh.
Qed.

(** Every node has an end. *)
Lemma node_end i nd : t_nodes t !! i = Some nd → (0 < length (node_path t nd) ∨ i = 0)%nat.
Proof.
  intros Hi. destruct (decide (i = 0%nat)) as [->|H]; [by right|left].
  pose proof (ok_nonempty _ _ Hok _ _ Hi H). destruct (node_path t nd); [done|cbn; lia].
Qed.

Lemma end_pos i nd : t_nodes t !! i = Some nd →
  at_pos t base i (length (node_path t nd)) nd (base i ++ node_path t nd).
Proof.
  intros Hi. split; [done|]. split; [done|]. split; [by apply node_end|]. by rewrite take_ge.
Qed.

Lemma at_pos_next i nd q x r j l nd' : at_pos t base i (length (node_path t nd)) nd q →
  nd_edges nd !! x = None → ¬ at_pos t base j l nd' (q ++ x :: r).
Proof.
  intros Hq Hn Hj. rewrite cons_middle, app_assoc in Hj. apply (pos_prefix _ _ Hok) in Hj as (j' & l' & nd2 & Hj).
  destruct (pos_succ _ _ Hok _ _ _ _ _ _ _ _ Hq Hj) as [(_ & _ & _ & H)|(_ & _ & H)]; [|congruence].
  apply lookup_lt_Some in H. lia.
Qed.

Lemma at_pos_diverge i nd m x y s u q j l nd' : enters i nd q → node_path t nd = m ++ y :: s →
  q = m ++ x :: u → x ≠ y → ¬ at_pos t base j l nd' (base i ++ q).
Proof.
  intros He Hp -> Hne Hj. rewrite cons_middle, !app_assoc in Hj.
  apply (pos_prefix _ _ Hok) in Hj as (j' & l' & nd2 & Hj).
  assert (Hm : at_pos t base i (length m) nd (base i ++ m)).
  { split; [apply He|]. rewrite Hp, length_app, take_app_length. split; [lia|]. split; [|done].
    destruct He as [_ [->|[_ Hh]]]; [by right|left]. rewrite Hp in Hh. destruct m; cbn in *; [congruence|lia]. }
  destruct (pos_succ _ _ Hok _ _ _ _ _ _ _ _ Hm Hj) as [(_ & _ & _ & H)|(H & _)].
  - rewrite Hp, lookup_app_r, Nat.sub_diag in H by lia. cbn in H. congruence.
  - rewrite Hp, length_app in H. cbn in H. lia.
Qed.

Lemma Lookup_from_spec fuel : ∀ i nd r a, enters i nd r →
  (length r + (if decide (i = 0%nat) then 1 else 0) ≤ fuel)%nat →
  Lookup_from fuel t i r = Some a ↔
  ∃ j l nd', at_pos t base j l nd' (base i ++ r) ∧ a = pos_data t l nd'.
Proof.
  induction fuel as [|fuel IH]; intros i nd r a He Hf; cbn [Lookup_from].
  { destruct He as [_ [Hi0|[Hr _]]]; [|destruct r; [done|cbn in Hf; lia]].
    rewrite decide_True in Hf by done. lia. }
  assert (Hi : t_nodes t !! i = Some nd) by apply He. rewrite Hi. cbn [mbind option_bind].
  destruct (list_compare (node_path t nd) r) as [Hpre|[(x & s & ->)|(m & x & y & s & u & Hp & -> & Hne)]].
  - rewrite decide_True by done. pose proof Hpre as [Hle Htk]%prefix_split.
    assert (Hpos : at_pos t base i (length r) nd (base i ++ r)).
    { split; [done|]. split; [done|]. rewrite Htk. split; [|done].
      destruct He as [_ [->|[Hr _]]]; [by right|left]. destruct r; [done|cbn; lia]. }
    split.
    + intros [= <-]. by exists i, (length r), nd.
    + intros (j & l & nd' & Hj & ->). by destruct (pos_unique _ _ Hok _ _ _ _ _ _ _ Hpos Hj) as (<- & <- & <-).
  - rewrite decide_False.
    2:{ intros [Hle _]%prefix_split. rewrite length_app in Hle. cbn in Hle. lia. }
    rewrite decide_True by (by apply prefix_app_r). rewrite drop_app_length.
    destruct (nd_edges nd !! x) as [c|] eqn:Ec; cbn [mbind option_bind].
    + destruct (enters_edge _ _ _ _ _ He Ec) as (j & nd' & -> & Hj & Hje & Hb).
      rewrite Nat2Z.id, app_assoc, <- Hb. apply IH with (1 := Hje). rewrite decide_False by done.
      rewrite length_app in Hf. pose proof (node_end _ _ Hi). case_decide; lia.
    + split; [done|]. intros (j & l & nd' & Hj & _). exfalso. rewrite app_assoc in Hj.
      eapply at_pos_next; [by apply end_pos|done|done].
  - rewrite decide_False.
    2:{ rewrite Hp. intros H%prefix_app_inv. by apply prefix_cons_inv_1 in H. }
    rewrite decide_False.
    2:{ rewrite Hp. intros H%prefix_app_inv. by apply prefix_cons_inv_1 in H. }
    split; [done|]. intros (j & l & nd' & Hj & _). exfalso. by eapply at_pos_diverge.
Qed.

Lemma Lookup_spec q a : Lookup t q = Some a ↔ ∃ j l nd, at_pos t base j l nd q ∧ a = pos_data t l nd.
Proof.
  destruct (ok_root _ _ Hok) as [Hb (nd & H0 & _)]. unfold Lookup.
  rewrite (Lookup_from_spec _ 0 nd q a); [by rewrite Hb|split; [done|by left]|rewrite decide_True by done; lia].
Qed.
End lookup.

(** Tries that have the same positions with the same data look the same. *)
Lemma Lookup_ext t base t' base' q : trie_ok t base → trie_ok t' base' →
  (∀ a, (∃ j l nd, at_pos t base j l nd q ∧ a = pos_data t l nd) ↔
        (∃ j l nd, at_pos t' base' j l nd q ∧ a = pos_data t' l nd)) →
  Lookup t q = Lookup t' q.
Proof.
  intros H H' Heq. apply option_eq. intros a. rewrite (Lookup_spec _ _ H), (Lookup_spec _ _ H'). apply Heq.
Qed.

(** ** Changes of the arena *)

(** Node [i] is replaced and a node is added at the end. *)
Lemma arena_lookup {A} (l : list A) i (x y z : A) j : (i < length l)%nat →
  (<[i := x]> (l ++ [y])) !! j = Some z ↔
  (j = i ∧ z = x) ∨ (j = length l ∧ z = y) ∨ (j ≠ i ∧ j ≠ length l ∧ l !! j = Some z).
Proof.
  intros Hi. rewrite list_lookup_insert_Some, lookup_app_Some, list_lookup_singleton_Some, length_app. cbn. split.
  - intros [(-> & -> & _)|(Hne & [H|(Hge & Hj & ->)])]; [by left| |right; left; split; [lia|done]].
    right; right. apply lookup_lt_Some in H as ?. split; [done|]. split; [lia|done].
  - intros [(-> & ->)|[(-> & ->)|(? & ? & H)]]; [left|right|right].
    + split_and!; [done|done|lia].
    + split; [lia|]. right. split_and!; [lia|lia|done].
    + split; [done|]. by left.
Qed.

Lemma head_take_pos (l : list Z) m : (0 < m)%nat → head (take m l) = head l.
Proof. destruct l, m; cbn; lia || done. Qed.

Section bump.
Context (t : CompressedTrie) (base : nat → list Z) (Hok : trie_ok t base).
Context (i : nat) (nd nd' : Node) (Hi : t_nodes t !! i = Some nd).
Context (Hpath : nd_path nd' = nd_path nd) (Hedges : nd_edges nd' = nd_edges nd).
Let t' := mkTrie (<[i := nd']> (t_nodes t)) (t_paths t).

Lemma bump_node j x : t_nodes t' !! j = Some x ↔
  (j = i ∧ x = nd') ∨ (j ≠ i ∧ t_nodes t !! j = Some x).
Proof.
  apply lookup_lt_Some in Hi as Hlt. subst t'. cbn. rewrite list_lookup_insert_Some. split.
  - intros [(-> & -> & _)|[Hne H]]; [by left|right; split; [congruence|done]].
  - intros [[-> ->]|[Hne H]]; [by left|right; split; [congruence|done]].
Qed.

(** Nodes correspond, with the same segment and the same edges. *)
Lemma bump_old j x : t_nodes t' !! j = Some x →
  ∃ y, t_nodes t !! j = Some y ∧ node_path t' x = node_path t y ∧ nd_path x = nd_path y ∧ nd_edges x = nd_edges y.
Proof.
  intros [[-> ->]|[_ H]]%bump_node; [exists nd|exists x]; split_and!; try done.
  unfold node_path, t'. cbn. by rewrite Hpath.
Qed.
Lemma bump_new j y : t_nodes t !! j = Some y →
  ∃ x, t_nodes t' !! j = Some x ∧ node_path t' x = node_path t y ∧ nd_edges x = nd_edges y.
Proof.
  intros H. destruct (decide (j = i)) as [->|Hne].
  - exists nd'. assert (y = nd) as -> by congruence. split; [apply bump_node; by left|].
    split; [|done]. unfold node_path, t'. cbn. by rewrite Hpath.
  - exists y. split; [apply bump_node; by right|done].
Qed.

Lemma bump_ok : trie_ok t' base.
Proof.
  destruct Hok as [[Hb (r & Hr & Hrp)] Hs Hn He Hp]. split.
  - split; [done|]. destruct (bump_new _ _ Hr) as (x & Hx & E & _). exists x. split; [done|congruence].
  - intros j x (y & Hy & _ & E & _)%bump_old. rewrite E. apply (Hs j y Hy).
  - intros j x (y & Hy & -> & _)%bump_old. by apply Hn.
  - intros j x k c (y & Hy & -> & _ & ->)%bump_old Hc. destruct (He _ _ _ _ Hy Hc) as (h & z & ? & ? & Hz & ? & ?).
    destruct (bump_new _ _ Hz) as (z' & Hz' & E & _). exists h, z'. rewrite E. done.
  - intros j x (y & Hy & _)%bump_old Hj. destruct (Hp _ _ Hy Hj) as (h & z & k & Hz & Hk).
    destruct (bump_new _ _ Hz) as (z' & Hz' & _ & E). exists h, z', k. rewrite E. done.
Qed.

Lemma bump_lookup_in k : (0 < k ∨ i = 0)%nat → (k ≤ length (node_path t nd))%nat →
  Lookup t' (base i ++ take k (node_path t nd)) =
  Some (nd_total nd', if decide (k = length (node_path t nd)) then nd_value nd' else 0).
Proof.
  intros Hk Hl. apply (Lookup_spec _ _ bump_ok).
  assert (E : node_path t' nd' = node_path t nd) by (unfold node_path, t'; cbn; by rewrite Hpath).
  exists i, k, nd'. unfold pos_data, at_pos. rewrite E. split; [|done]. split; [|done].
  apply bump_node. by left.
Qed.

Lemma bump_lookup_out q : (∀ k, ¬ at_pos t base i k nd q) → Lookup t' q = Lookup t q.
Proof.
  intros Hq. apply (Lookup_ext _ _ _ _ _ bump_ok Hok). intros a. split.
  - intros (j & l & x & (Hx & Hrest) & ->). apply bump_node in Hx as [[-> ->]|[Hne Hx]]; [|by exists j, l, x].
    exfalso. apply (Hq l). unfold at_pos, node_path, t' in *. cbn in *. rewrite Hpath in Hrest. done.
  - intros (j & l & x & Hx & ->). destruct (decide (j = i)) as [->|Hne].
    + exfalso. apply (Hq l). destruct Hx as (Hx & Hrest). assert (x = nd) as -> by congruence. done.
    + exists j, l, x. split; [|done]. destruct Hx as (Hx & Hrest). split; [|done]. apply bump_node. by right.
Qed.
End bump.

Section split.
Context (t : CompressedTrie) (base : nat → list Z) (Hok : trie_ok t base).
Context (i : nat) (nd A B : Node) (Hi : t_nodes t !! i = Some nd).
Let p := node_path t nd.
Let n := length (t_nodes t).
Context (m : nat) (key : Z) (Hm : (0 < m < length p)%nat) (Hkey : p !! m = Some key).
Let t' := mkTrie (<[i := A]> (t_nodes t ++ [B])) (t_paths t).
Context (HpA : node_path t' A = take m p) (HpB : node_path t' B = drop m p).
Context (HsA : 0 ≤ span_begin (nd_path A) ≤ span_end (nd_path A) ∧ span_end (nd_path A) ≤ zlen (t_paths t)).
Context (HsB : 0 ≤ span_begin (nd_path B) ≤ span_end (nd_path B) ∧ span_end (nd_path B) ≤ zlen (t_paths t)).
Context (HeA : nd_edges A = {[key := Z.of_nat n]}) (HeB : nd_edges B = nd_edges nd).
Context (HtA : nd_total A = nd_total nd) (HtB : nd_total B = nd_total nd).
Context (HvA : nd_value A = 0) (HvB : nd_value B = nd_value nd).

Definition split_base : nat → list Z := fun j => if decide (j = n) then base i ++ take m p else base j.

Lemma split_lt : (i < n)%nat.
Proof. by apply lookup_lt_Some in Hi. Qed.

Lemma split_node j x : t_nodes t' !! j = Some x ↔
  (j = i ∧ x = A) ∨ (j = n ∧ x = B) ∨ (j ≠ i ∧ j ≠ n ∧ t_nodes t !! j = Some x).
Proof. apply arena_lookup, split_lt. Qed.

Lemma split_base_old j : j ≠ n → split_base j = base j.
Proof. intros. unfold split_base. by rewrite decide_False. Qed.
Lemma split_base_new : split_base n = base i ++ take m p.
Proof. unfold split_base. by rewrite decide_True. Qed.

Lemma split_nonroot : i ≠ 0%nat.
Proof.
  intros ->. destruct (ok_root _ _ Hok) as [_ (r & Hr & E)]. assert (nd = r) as -> by congruence.
  subst p. rewrite E in Hm. cbn in Hm. lia.
Qed.

(** An edge of the old trie in the new one. *)
Lemma split_edge j x k c : t_nodes t !! j = Some x → nd_edges x !! k = Some c →
  ∃ h y, c = Z.of_nat h ∧ h ≠ 0%nat ∧ t_nodes t' !! h = Some y ∧ head (node_path t' y) = Some k
    ∧ split_base h = base j ++ node_path t x.
Proof.
  intros Hj Hc. destruct (ok_edge _ _ Hok _ _ _ _ Hj Hc) as (h & y & -> & Hh & Hy & Hk & Hb).
  apply lookup_lt_Some in Hy as Hlt.
  assert (Hhn : h ≠ n) by lia. destruct (decide (h = i)) as [->|Hne].
  - exists i, A. assert (y = nd) as -> by congruence. split; [done|]. split; [done|].
    split; [apply split_node; by left|]. rewrite HpA, head_take_pos by lia. split; [done|].
    by rewrite split_base_old.
  - exists h, y. split; [done|]. split; [done|]. split; [apply split_node; by right; right|].
    split; [done|]. by rewrite split_base_old.
Qed.

Lemma split_ok : trie_ok t' split_base.
Proof.
  pose proof split_nonroot as Hi0. pose proof split_lt as Hlt.
  destruct (ok_root _ _ Hok) as [Hb (r & Hr & Hrp)]. split.
  - rewrite split_base_old by lia. split; [done|]. exists r. split; [|done].
    apply split_node. right; right. split_and!; [done|lia|done].
  - intros j x [[-> ->]|[[-> ->]|(_ & _ & Hx)]]%split_node; [done..|]. by apply (ok_span _ _ Hok j).
  - intros j x [[-> ->]|[[-> ->]|(_ & _ & Hx)]]%split_node Hj.
    + rewrite HpA. intros E. apply (f_equal length) in E. rewrite length_take in E. cbn in E. lia.
    + rewrite HpB. intros E. apply (f_equal length) in E. rewrite length_drop in E. cbn in E. lia.
    + by apply (ok_nonempty _ _ Hok j).
  - intros j x k c [[-> ->]|[[-> ->]|(Hji & Hjn & Hx)]]%split_node Hc.
    + rewrite HeA in Hc. apply lookup_singleton_Some in Hc as [<- <-]. exists n, B. split; [done|].
      split; [lia|]. split; [apply split_node; by right; left|]. rewrite HpA, HpB, split_base_new.
      rewrite split_base_old by lia. split; [|done]. by rewrite head_lookup, lookup_drop, Nat.add_0_r.
    + rewrite HeB in Hc. destruct (split_edge _ _ _ _ Hi Hc) as (h & y & ? & ? & ? & ? & Hy).
      exists h, y. split_and!; try done. rewrite Hy, split_base_new, HpB, <- app_assoc. by rewrite take_drop.
    + destruct (split_edge _ _ _ _ Hx Hc) as (h & y & ? & ? & ? & ? & Hy). exists h, y. split_and!; try done.
      by rewrite Hy, split_base_old.
  - intros j x [[-> ->]|[[-> ->]|(Hji & Hjn & Hx)]]%split_node Hj.
    + destruct (ok_parent _ _ Hok _ _ Hi Hi0) as (h & y & k & Hy & Hk).
      destruct (decide (h = i)) as [->|Hne].
      * exists n, B, k. rewrite HeB. assert (y = nd) as -> by congruence. split; [apply split_node; by right; left|done].
      * exists h, y, k. apply lookup_lt_Some in Hy as ?. split; [apply split_node; right; right; split_and!; [done|lia|done]|done].
    + exists i, A, key. rewrite HeA, lookup_singleton_eq. split; [apply split_node; by left|done].
    + destruct (ok_parent _ _ Hok _ _ Hx Hj) as (h & y & k & Hy & Hk).
      destruct (decide (h = i)) as [->|Hne].
      * exists n, B, k. rewrite HeB. assert (y = nd) as -> by congruence. split; [apply split_node; by right; left|done].
      * exists h, y, k. apply lookup_lt_Some in Hy as ?. split; [apply split_node; right; right; split_and!; [done|lia|done]|done].
Qed.

Lemma split_lookup q : Lookup t' q = Lookup t q.
Proof.
  pose proof split_nonroot as Hi0. pose proof split_lt as Hlt.
  apply (Lookup_ext _ _ _ _ _ split_ok Hok). intros a. split.
  - intros (j & l & x & (Hx & Hl & Hor & Hq) & ->).
    apply split_node in Hx as [[-> ->]|[[-> ->]|(Hji & Hjn & Hx)]].
    + rewrite HpA in Hl, Hq. rewrite length_take in Hl. rewrite split_base_old in Hq by lia.
      rewrite take_take, Nat.min_l in Hq by lia. exists i, l, nd. split; [split_and!; try done; fold p; lia|].
      unfold pos_data. rewrite HpA, HtA, HvA, length_take. fold p. repeat case_decide; done || lia.
    + rewrite HpB in Hl, Hq. rewrite length_drop in Hl. rewrite split_base_new in Hq.
      exists i, (m + l)%nat, nd. split.
      * split; [done|]. fold p. split; [lia|]. split; [lia|]. rewrite Hq, <- app_assoc. f_equal.
        by rewrite take_take_drop.
      * unfold pos_data. rewrite HpB, HtB, HvB, length_drop. fold p. repeat case_decide; done || lia.
    + rewrite split_base_old in Hq by done. exists j, l, x. done.
  - intros (j & l & x & (Hx & Hl & Hor & Hq) & ->). destruct (decide (j = i)) as [->|Hji].
    + assert (x = nd) as -> by congruence. fold p in Hl, Hq. destruct (decide (l ≤ m)%nat) as [Hlm|Hlm].
      * exists i, l, A. split.
        -- split; [apply split_node; by left|]. rewrite HpA, length_take, split_base_old by lia.
           split; [lia|]. split; [done|]. by rewrite take_take, Nat.min_l by lia.
        -- unfold pos_data. rewrite HpA, HtA, HvA, length_take. fold p. repeat case_decide; done || lia.
      * exists n, (l - m)%nat, B. split.
        -- split; [apply split_node; by right; left|]. rewrite HpB, length_drop, split_base_new.
           split; [lia|]. split; [lia|]. rewrite <- app_assoc, take_take_drop. rewrite Hq. do 2 f_equal. lia.
        -- unfold pos_data. rewrite HpB, HtB, HvB, length_drop. fold p. repeat case_decide; done || lia.
    + apply lookup_lt_Some in Hx as ?. exists j, l, x. split; [|done].
      split; [apply split_node; right; right; split_and!; [done|lia|done]|]. rewrite split_base_old by lia. done.
Qed.
End split.

(** More keys do not change the segments there are. *)
Lemma node_path_app t nodes extra nd :
  span_begin (nd_path nd) ≤ span_end (nd_path nd) → span_end (nd_path nd) ≤ zlen (t_paths t) →
  0 ≤ span_begin (nd_path nd) →
  node_path (mkTrie nodes (t_paths t ++ extra)) nd = node_path t nd.
Proof.
  intros H1 H2 H3. unfold node_path, zlen in *. cbn. rewrite drop_app_le, take_app_le; [done| |lia].
  rewrite length_drop. lia.
Qed.

Section fresh.
Context (t : CompressedTrie) (base : nat → list Z) (Hok : trie_ok t base).
Context (i : nat) (nd A B : Node) (Hi : t_nodes t !! i = Some nd).
Let n := length (t_nodes t).
Context (x : Z) (r : list Z) (Hx : nd_edges nd !! x = None).
Let t' := mkTrie (<[i := A]> (t_nodes t ++ [B])) (t_paths t ++ x :: r).
Context (HpA : nd_path A = nd_path nd) (HpB : node_path t' B = x :: r).
Context (HsB : 0 ≤ span_begin (nd_path B) ≤ span_end (nd_path B) ∧ span_end (nd_path B) ≤ zlen (t_paths t')).
Context (HeA : nd_edges A = <[x := Z.of_nat n]> (nd_edges nd)) (HeB : nd_edges B = ∅).
Context (HtA : nd_total A = nd_total nd) (HtB : nd_total B = 0).
Context (HvA : nd_value A = nd_value nd) (HvB : nd_value B = 0).

Definition fresh_base : nat → list Z :=
  fun j => if decide (j = n) then base i ++ node_path t nd else base j.

Lemma fresh_lt : (i < n)%nat.
Proof. by apply lookup_lt_Some in Hi. Qed.

Lemma fresh_node j y : t_nodes t' !! j = Some y ↔
  (j = i ∧ y = A) ∨ (j = n ∧ y = B) ∨ (j ≠ i ∧ j ≠ n ∧ t_nodes t !! j = Some y).
Proof. apply arena_lookup, fresh_lt. Qed.

Lemma fresh_base_old j : j ≠ n → fresh_base j = base j.
Proof. intros. unfold fresh_base. by rewrite decide_False. Qed.
Lemma fresh_base_new : fresh_base n = base i ++ node_path t nd.
Proof. unfold fresh_base. by rewrite decide_True. Qed.

Lemma fresh_path j y : t_nodes t !! j = Some y → node_path t' y = node_path t y.
Proof. intros Hy. destruct (ok_span _ _ Hok _ _ Hy). apply node_path_app; lia. Qed.
Lemma fresh_path_A : node_path t' A = node_path t nd.
Proof. rewrite <- (fresh_path i nd Hi). unfold node_path. by rewrite HpA. Qed.

(** Old nodes in the new trie; the node with the new edge changes its record. *)
Lemma fresh_old j y : t_nodes t !! j = Some y → ∃ z, t_nodes t' !! j = Some z ∧ j ≠ n
  ∧ node_path t' z = node_path t y ∧ fresh_base j = base j ∧ (∀ k c, nd_edges y !! k = Some c → nd_edges z !! k = Some c)
  ∧ nd_total z = nd_total y ∧ nd_value z = nd_value y.
Proof.
  intros Hy. apply lookup_lt_Some in Hy as Hlt. assert (Hjn : j ≠ n) by lia.
  rewrite fresh_base_old by done. destruct (decide (j = i)) as [->|Hne].
  - exists A. assert (y = nd) as -> by congruence. split; [apply fresh_node; by left|].
    split_and!; try done; [apply fresh_path_A|]. intros k c Hk. rewrite HeA.
    rewrite lookup_insert_ne; [done|]. congruence.
  - exists y. split; [apply fresh_node; by right; right|]. split_and!; try done. by apply (fresh_path j).
Qed.

Lemma fresh_inv j z : t_nodes t' !! j = Some z → (j = n ∧ z = B) ∨
  (j ≠ n ∧ ∃ y, t_nodes t !! j = Some y ∧ node_path t' z = node_path t y
     ∧ nd_path z = nd_path y ∧ nd_total z = nd_total y ∧ nd_value z = nd_value y
     ∧ ∀ k c, nd_edges z !! k = Some c → nd_edges y !! k = Some c ∨ (j = i ∧ k = x ∧ c = Z.of_nat n)).
Proof.
  intros [[-> ->]|[[-> ->]|(Hji & Hjn & Hz)]]%fresh_node; [right| by left|right].
  - pose proof fresh_lt. split; [lia|]. exists nd. split_and!; try done; [apply fresh_path_A|].
    intros k c. rewrite HeA, lookup_insert_Some. intros [[<- <-]|[_ ?]]; [by right|by left].
  - split; [done|]. exists z. split_and!; try done; [by apply (fresh_path j)|]. by left.
Qed.

Lemma fresh_ok : trie_ok t' fresh_base.
Proof.
  pose proof fresh_lt as Hlt. destruct (ok_root _ _ Hok) as [Hb (r0 & Hr0 & Hrp)]. split.
  - destruct (fresh_old _ _ Hr0) as (z & Hz & _ & E & -> & _). split; [done|]. exists z. split; [done|congruence].
  - intros j z [[-> ->]|(_ & y & Hy & _ & -> & _)]%fresh_inv; [done|].
    destruct (ok_span _ _ Hok _ _ Hy) as [? ?]. subst t'. cbn. rewrite zlen_app. pose proof (zlen_nonneg (x :: r)). lia.
  - intros j z [[-> ->]|(_ & y & Hy & -> & _)]%fresh_inv Hj; [by rewrite HpB|by apply (ok_nonempty _ _ Hok j)].
  - intros j z k c [[-> ->]|(Hjn & y & Hy & -> & _ & _ & _ & Hed)]%fresh_inv Hc; [by rewrite HeB in Hc|].
    rewrite fresh_base_old by done. destruct (Hed k c Hc) as [Hk|(-> & -> & ->)].
    + destruct (ok_edge _ _ Hok _ _ _ _ Hy Hk) as (h & w & -> & Hh & Hw & Hhd & Hbh).
      destruct (fresh_old _ _ Hw) as (w' & Hw' & _ & E & Eb & _). exists h, w'. rewrite E, Eb. done.
    + exists n, B. assert (y = nd) as -> by congruence. rewrite HpB, fresh_base_new. split; [done|].
      split; [lia|]. split; [apply fresh_node; by right; left|done].
  - intros j z [[-> ->]|(Hjn & y & Hy & _)]%fresh_inv Hj.
    + exists i, A, x. rewrite HeA, lookup_insert_eq. split; [apply fresh_node; by left|done].
    + destruct (ok_parent _ _ Hok _ _ Hy Hj) as (h & w & k & Hw & Hk).
      destruct (fresh_old _ _ Hw) as (w' & Hw' & _ & _ & _ & He & _). exists h, w', k. auto.
Qed.

Lemma fresh_lookup_new l : (0 < l ≤ length (x :: r))%nat →
  Lookup t' (base i ++ node_path t nd ++ take l (x :: r)) = Some (0, 0).
Proof.
  intros Hl. apply (Lookup_spec _ _ fresh_ok). exists n, l, B. split.
  - split; [apply fresh_node; by right; left|]. rewrite HpB, fresh_base_new, <- app_assoc.
    split; [lia|]. split; [lia|done].
  - unfold pos_data. rewrite HtB, HvB. by case_decide.
Qed.

Lemma fresh_lookup_old q : (∀ l, (0 < l ≤ length (x :: r))%nat → q ≠ base i ++ node_path t nd ++ take l (x :: r)) →
  Lookup t' q = Lookup t q.
Proof.
  intros Hq. apply (Lookup_ext _ _ _ _ _ fresh_ok Hok). intros a. split.
  - intros (j & l & z & (Hz & Hl & Hor & E) & ->).
    apply fresh_inv in Hz as [[-> ->]|(Hjn & y & Hy & Hp & _ & Ht & Hv & _)].
    + exfalso. pose proof fresh_lt. rewrite HpB in Hl, E. rewrite fresh_base_new, <- app_assoc in E.
      apply (Hq l); [lia|done].
    + rewrite fresh_base_old in E by done. exists j, l, y. unfold at_pos, pos_data. rewrite <- Hp, Ht, Hv. done.
  - intros (j & l & y & (Hy & Hl & Hor & E) & ->). destruct (fresh_old _ _ Hy) as (z & Hz & _ & Hp & Hb & _ & Ht & Hv).
    exists j, l, z. unfold at_pos, pos_data. rewrite Hp, Hb, Ht, Hv. done.
Qed.
End fresh.

(** ** The operations *)

Lemma node_path_length t nd : 0 ≤ span_begin (nd_path nd) ≤ span_end (nd_path nd) →
  span_end (nd_path nd) ≤ zlen (t_paths t) →
  zlen (node_path t nd) = span_end (nd_path nd) - span_begin (nd_path nd).
Proof. intros. unfold node_path, zlen in *. rewrite length_take, length_drop. lia. Qed.

Lemma node_path_rd t nd k x : 0 ≤ span_begin (nd_path nd) → node_path t nd !! k = Some x →
  rd (t_paths t) (span_begin (nd_path nd) + Z.of_nat k) = Ret x.
Proof.
  intros Hb Hk. apply rd_some; [lia|]. unfold node_path in Hk.
  apply lookup_take_Some in Hk as [Hk _]. rewrite lookup_drop in Hk. rewrite <- Hk. f_equal. lia.
Qed.

(** The common prefix of the path and the segment [p]. *)
Definition common (path p : list Z) (m : nat) : Prop :=
  (m ≤ length path)%nat ∧ (m ≤ length p)%nat ∧ take m path = take m p ∧
  (m = Nat.min (length path) (length p) ∨
   ∃ a b, path !! m = Some a ∧ p !! m = Some b ∧ a ≠ b).

Lemma SplitPath_match_spec t nd path fuel : ∀ m0,
  let p := node_path t nd in
  let mx := Nat.min (length path) (length p) in
  0 ≤ span_begin (nd_path nd) → Z.of_nat mx < 2 ^ 32 → (m0 ≤ mx)%nat → (mx - m0 ≤ fuel)%nat →
  take m0 path = take m0 p →
  ∃ m, SplitPath_match fuel (t_paths t) path (span_begin (nd_path nd)) (Z.of_nat m0) (Z.of_nat mx)
         = Ret (Z.of_nat m) ∧ common path p m.
Proof.
  induction fuel as [|fuel IH]; intros m0 p mx Hb Hmx Hm Hf Htk; cbn [SplitPath_match];
    destruct (Z.ltb_spec (Z.of_nat m0) (Z.of_nat mx)) as [Hlt|Hge]; try lia.
  1, 3: exists m0; split; [done|]; unfold common; split_and!; try lia; try done; left; lia.
  destruct (lookup_lt_is_Some_2 path m0) as [a Ha]; [lia|].
  destruct (lookup_lt_is_Some_2 p m0) as [b Hpb]; [lia|].
  rewrite (rd_some path _ a) by (lia || by rewrite Nat2Z.id). step_ret.
  rewrite (node_path_rd t nd m0 b) by done. step_ret.
  destruct (Z.eqb_spec a b) as [->|Hne]; cbn [negb].
  - replace (u32 (Z.of_nat m0 + 1)) with (Z.of_nat (S m0)).
    2:{ rewrite u32_small; [lia|]. unfold is_u32. lia. }
    apply IH; fold p; fold mx; try done; try lia. by rewrite (take_S_r _ _ _ Ha), (take_S_r _ _ _ Hpb), Htk.
  - exists m0. split; [done|]. unfold common. split_and!; try lia; try done. right. by exists a, b.
Qed.

(** What the caller learns from [SplitPath]: the segment of the node is now a prefix of the
    path; when the node was split nothing leads on along the path. *)
Record split_result (t : CompressedTrie) (base : nat → list Z) (i : nat) (nd : Node) (path : list Z)
    (m : nat) (t1 : CompressedTrie) (base1 : nat → list Z) (nd1 : Node) : Prop := {
  sr_ok : trie_ok t1 base1;
  sr_lookup q : Lookup t1 q = Lookup t q;
  sr_enters : t_nodes t1 !! i = Some nd1;
  sr_path : path = node_path t1 nd1 ++ drop m path;
  sr_base : base1 i = base i;
  sr_grow : t1 = t ∧ base1 = base ∧ nd1 = nd ∨
            zlen (t_nodes t1) = zlen (t_nodes t) + 1 ∧ t_paths t1 = t_paths t ∧
            (∀ x r, drop m path = x :: r → nd_edges nd1 !! x = None) ∧
            ¬ node_path t nd `prefix_of` path;
}.

(** The two nodes [SplitPath] makes of one. *)
Lemma split_step t base i nd m key (p := node_path t nd) (sp := nd_path nd) :
  trie_ok t base → t_nodes t !! i = Some nd → zlen (t_paths t) < 2 ^ 32 →
  (0 < m < length p)%nat → p !! m = Some key →
  let A := mkNode (span_first sp (Z.of_nat m)) {[key := zlen (t_nodes t)]} (nd_total nd) 0 in
  let B := mkNode (span_offset sp (Z.of_nat m)) (nd_edges nd) (nd_total nd) (nd_value nd) in
  let t1 := mkTrie (<[i := A]> (t_nodes t ++ [B])) (t_paths t) in
  let base1 := split_base t base i nd m in
  rd (t_paths t) (u32 (span_begin sp + Z.of_nat m)) = Ret key
  ∧ trie_ok t1 base1 ∧ (∀ q, Lookup t1 q = Lookup t q) ∧ t_nodes t1 !! i = Some A
  ∧ node_path t1 A = take m p ∧ base1 i = base i.
Proof.
  intros Hok Hi Hp Hm Hkey A B t1 base1. destruct (ok_span _ _ Hok _ _ Hi) as [Hs1 Hs2].
  pose proof (node_path_length t nd Hs1 Hs2) as Hlen. fold p in Hlen. fold sp in Hs1, Hs2, Hlen.
  assert (HbA : u32 (span_begin sp + Z.of_nat m) = span_begin sp + Z.of_nat m).
  { apply u32_small. unfold is_u32, zlen in *. lia. }
  assert (HpA : node_path t1 A = take m p).
  { unfold node_path, t1, A, p, node_path. cbn. fold sp. rewrite HbA, take_take. f_equal. unfold zlen in *. lia. }
  assert (HpB : node_path t1 B = drop m p).
  { unfold node_path, t1, B, p, node_path. cbn. fold sp. rewrite HbA, skipn_firstn_comm, drop_drop. f_equal; [lia|].
    f_equal. lia. }
  apply lookup_lt_Some in Hi as Hlt.
  split_and!.
  - rewrite HbA. apply (node_path_rd t nd m key); [fold sp; lia|done].
  - apply (split_ok t base Hok i nd A B Hi m key); try done; unfold A, B; cbn; rewrite ?HbA; unfold zlen in *; lia.
  - intros q. apply (split_lookup t base Hok i nd A B Hi m key); try done; unfold A, B; cbn; rewrite ?HbA;
      unfold zlen in *; lia.
  - apply arena_lookup; [done|]. by left.
  - done.
  - unfold base1, split_base. rewrite decide_False by lia. done.
Qed.

(** A common prefix that ends within the segment is not empty. *)
Lemma common_inside t base i nd path m : trie_ok t base → enters t i nd path →
  common path (node_path t nd) m → (m < length (node_path t nd))%nat → (0 < m)%nat.
Proof.
  intros Hok [Hi Hent] (_ & _ & _ & Hm) Hlt. destruct Hent as [->|[Hne Hh]].
  { destruct (ok_root _ _ Hok) as [_ (r & Hr & E)]. assert (nd = r) as Er by congruence.
    rewrite Er, E in Hlt. cbn in Hlt. lia. }
  destruct Hm as [->|(a & b & Ha & Hb & Hab)].
  - destruct path; [done|]. cbn [length] in *. lia.
  - destruct m; [|lia]. rewrite !head_lookup in Hh. congruence.
Qed.

Lemma common_whole path p m : common path p m → p `prefix_of` path → (m < length p)%nat → False.
Proof.
  intros (_ & _ & _ & Hm) [s ->] Hlt. rewrite length_app in Hm. destruct Hm as [?|(a & b & Ha & Hb & Hab)]; [lia|].
  rewrite lookup_app_l in Ha by done. congruence.
Qed.

Lemma SplitPath_spec t base i nd path : trie_ok t base → enters t i nd path →
  zlen (t_nodes t) + 1 < 2 ^ 32 → zlen (t_paths t) < 2 ^ 32 →
  ∃ m t1 base1 nd1, SplitPath t (Z.of_nat i) path = Ret (Z.of_nat m, t1)
    ∧ split_result t base i nd path m t1 base1 nd1.
Proof.
  intros Hok Hent Hn Hp. assert (Hi : t_nodes t !! i = Some nd) by apply Hent.
  destruct (ok_span _ _ Hok _ _ Hi) as [Hs1 Hs2].
  set (p := node_path t nd). pose proof (node_path_length t nd Hs1 Hs2) as Hlen. fold p in Hlen.
  assert (Hsz : span_size (nd_path nd) = zlen p).
  { unfold span_size. rewrite u32_small; [lia|]. unfold is_u32. lia. }
  assert (Hmx : u32 (Z.min (zlen path) (span_size (nd_path nd))) = Z.of_nat (Nat.min (length path) (length p))).
  { rewrite Hsz. unfold zlen in *. rewrite u32_small; unfold is_u32; lia. }
  unfold SplitPath. rewrite (rd_some _ _ nd) by (lia || by rewrite Nat2Z.id). step_ret. rewrite Hmx.
  destruct (SplitPath_match_spec t nd path (length path) 0) as (m & Em & Hm);
    [lia| |lia|lia|done|]. { fold p. unfold zlen in *. lia. }
  fold p in Em, Hm. change (Z.of_nat 0) with 0 in Em. rewrite Em. step_ret. rewrite Hsz.
  destruct (Z.eqb_spec (Z.of_nat m) (zlen p)) as [E|Hne].
  { exists m, t, base, nd. split; [done|]. destruct Hm as (_ & _ & Hm & _). split; try done; [|by left].
    fold p. rewrite <- (take_ge p m) by (unfold zlen in E; lia). rewrite <- Hm. by rewrite take_drop. }
  assert (Hmlt : (m < length p)%nat) by (destruct Hm as (_ & ? & _); unfold zlen in Hne; lia).
  destruct (lookup_lt_is_Some_2 p m Hmlt) as [key Hkey].
  pose proof (common_inside _ _ _ _ _ _ Hok Hent Hm Hmlt) as Hm0.
  destruct (split_step t base i nd m key Hok Hi Hp) as (-> & Hok1 & Hl1 & Hn1 & Hp1 & Hb1); [done..|].
  step_ret. rewrite u32_small by (unfold is_u32; pose proof (zlen_nonneg (t_nodes t)); lia).
  apply lookup_lt_Some in Hi as Hlt. rewrite wr_in by (rewrite zlen_app; unfold zlen; cbn; lia). step_ret.
  unfold put. rewrite Nat2Z.id. eexists m, _, _, _. split; [done|]. pose proof Hm as (_ & _ & Hm3 & Hm4).
  split; [done..| | |right]; [|done|].
  - rewrite Hp1. fold p. rewrite <- Hm3. by rewrite take_drop.
  - cbn. split; [unfold zlen; rewrite length_insert, length_app; cbn; lia|]. split; [done|].
    split; [|intros Hpre; by eapply common_whole]. intros x r Hx. cbn. apply lookup_singleton_None. intros ->.
    assert (Hxm : path !! m = Some x) by (rewrite <- (Nat.add_0_r m), <- lookup_drop, Hx; done).
    destruct Hm4 as [Em'|(a & b & Ha & Hb & Hab)]; [|congruence].
    apply lookup_lt_Some in Hxm. lia.
Qed.

(** The prefixes of [full] that end in node [i] or below it. *)
Definition on_way (i : nat) (b full q : list Z) : Prop :=
  q `prefix_of` full ∧ (i = 0%nat ∨ (length b < length q)%nat).

#[export] Instance on_way_dec i b full q : Decision (on_way i b full q).
Proof. unfold on_way. apply _. Defined.

(** What adding [v] makes of the data at a path. *)
Definition bumped (o : option (Z * Z)) (v : Z) (last : bool) : Z * Z :=
  let '(total, own) := default (0, 0) o in (i64 (total + v), if last then i64 (own + v) else own).

Lemma on_way_pos t base i nd q : trie_ok t base → t_nodes t !! i = Some nd →
  on_way i (base i) (base i ++ node_path t nd) q ↔ ∃ k, at_pos t base i k nd q.
Proof.
  intros Hok Hi. split.
  - intros [Hpre Hor]. destruct Hor as [->|Hlt].
    + destruct (ok_root _ _ Hok) as [Hb (r & Hr & E)]. assert (nd = r) as -> by congruence.
      rewrite Hb, E in Hpre. apply prefix_nil_inv in Hpre as ->. exists 0%nat. by apply root_pos.
    + exists (length q - length (base i))%nat. apply prefix_split in Hpre as [Hl E]. rewrite length_app in Hl.
      split; [done|]. split; [lia|]. split; [lia|]. rewrite <- E at 1.
      by rewrite take_app, take_ge by lia.
  - intros (k & _ & Hk & Hor & ->). split; [apply prefix_app, prefix_take|].
    destruct Hor as [Hk0| ->]; [right|by left]. rewrite length_app, length_take. lia.
Qed.

(** Adding to a node changes the data of its positions. *)
Lemma bump_spec t base i nd nd' v (both : bool) : trie_ok t base → t_nodes t !! i = Some nd →
  nd' = (if both then add_both nd v else add_total nd v) →
  let t' := mkTrie (<[i := nd']> (t_nodes t)) (t_paths t) in
  let full := base i ++ node_path t nd in
  trie_ok t' base ∧ ∀ q, Lookup t' q =
    if decide (on_way i (base i) full q) then Some (bumped (Lookup t q) v (both && bool_decide (q = full)))
    else Lookup t q.
Proof.
  intros Hok Hi Hnd' t' full. assert (Hp : nd_path nd' = nd_path nd) by (subst; by destruct both).
  assert (He : nd_edges nd' = nd_edges nd) by (subst; by destruct both).
  split; [by apply (bump_ok t base Hok i nd nd')|]. intros q. case_decide as Hw.
  - apply (on_way_pos t base i nd q Hok Hi) in Hw as (k & Hpos). pose proof Hpos as (_ & Hk & Hor & Eq).
    rewrite Eq at 1. unfold t'. rewrite (bump_lookup_in t base Hok i nd nd') by done.
    rewrite (proj2 (Lookup_spec t base Hok q (pos_data t k nd))) by (by exists i, k, nd).
    assert (Hfull : bool_decide (q = full) = bool_decide (k = length (node_path t nd))).
    { apply bool_decide_ext. unfold full. rewrite Eq. split; [|intros ->; by rewrite take_ge].
      intros E%(f_equal length). rewrite !length_app, length_take in E. lia. }
    rewrite Hfull. unfold bumped, pos_data. cbn. subst nd'. destruct both; cbn; repeat case_decide;
      rewrite ?bool_decide_eq_true_2, ?bool_decide_eq_false_2 by done; done.
  - apply (bump_lookup_out t base Hok i nd nd'); try done. intros k Hk. apply Hw.
    apply (on_way_pos t base i nd q Hok Hi). by exists k.
Qed.

Lemma finish_spec t base i nd v : trie_ok t base → t_nodes t !! i = Some nd →
  let full := base i ++ node_path t nd in
  ∃ t', finish t (Z.of_nat i) v = Ret t' ∧ trie_ok t' base
    ∧ zlen (t_nodes t') = zlen (t_nodes t) ∧ t_paths t' = t_paths t
    ∧ ∀ q, Lookup t' q = if decide (on_way i (base i) full q) then Some (bumped (Lookup t q) v (bool_decide (q = full)))
                         else Lookup t q.
Proof.
  intros Hok Hi full. apply lookup_lt_Some in Hi as Hlt. unfold finish.
  rewrite (rd_some _ _ nd) by (lia || by rewrite Nat2Z.id). step_ret.
  rewrite wr_in by (unfold zlen; lia). step_ret. unfold put. rewrite Nat2Z.id. eexists. split; [done|].
  destruct (bump_spec t base i nd _ v true Hok Hi eq_refl) as [Hok' Hl]. split; [done|].
  split; [unfold zlen; cbn; by rewrite length_insert|]. done.
Qed.

Lemma Lookup_next t base i nd x r : trie_ok t base → t_nodes t !! i = Some nd → nd_edges nd !! x = None →
  Lookup t ((base i ++ node_path t nd) ++ x :: r) = None.
Proof.
  intros Hok Hi Hx. apply eq_None_not_Some. intros [a Ha].
  apply (Lookup_spec _ _ Hok) in Ha as (j & l & nd' & Hj & _).
  eapply (at_pos_next t base Hok i nd); [by apply end_pos|done|done].
Qed.

(** A path that goes on where no edge leads gets a node of its own. *)
Lemma next_node_fresh t base i nd x r : trie_ok t base → t_nodes t !! i = Some nd → nd_edges nd !! x = None →
  zlen (t_nodes t) < 2 ^ 32 → zlen (t_paths t) + zlen (x :: r) < 2 ^ 32 →
  let full := base i ++ node_path t nd in
  ∃ n t' base' nd', next_node t (Z.of_nat i) x (x :: r) = Ret (Z.of_nat n, t')
    ∧ trie_ok t' base' ∧ t_nodes t' !! n = Some nd' ∧ node_path t' nd' = x :: r
    ∧ base' n = full ∧ n ≠ 0%nat ∧ zlen (t_nodes t') = zlen (t_nodes t) + 1 ∧ t_paths t' = t_paths t ++ x :: r
    ∧ ∀ q, (on_way n (base' n) (full ++ x :: r) q → Lookup t q = None ∧ Lookup t' q = Some (0, 0)) ∧
           (¬ on_way n (base' n) (full ++ x :: r) q → Lookup t' q = Lookup t q).
Proof.
  intros Hok Hi Hx Hn Hp full. apply lookup_lt_Some in Hi as Hlt. unfold next_node.
  rewrite (rd_some _ _ nd) by (lia || by rewrite Nat2Z.id). step_ret. rewrite Hx. unfold CreatePath.
  pose proof (zlen_nonneg (t_paths t)). pose proof (zlen_nonneg (x :: r)). pose proof (zlen_nonneg (t_nodes t)).
  rewrite !u32_small by (unfold is_u32; rewrite ?zlen_app; lia).
  rewrite wr_in by (rewrite zlen_app; unfold zlen; cbn; lia). step_ret. unfold put. rewrite Nat2Z.id.
  set (A := mkNode (nd_path nd) _ _ _). set (B := mkNode (mkPathSpan _ _) _ _ _). set (t' := mkTrie _ _).
  assert (HpB : node_path t' B = x :: r).
  { unfold node_path, t', B. cbn -[zlen]. rewrite zlen_app. unfold zlen. rewrite Nat2Z.id, drop_app_length.
    apply take_ge. cbn. lia. }
  assert (HsB : 0 ≤ span_begin (nd_path B) ≤ span_end (nd_path B) ∧ span_end (nd_path B) ≤ zlen (t_paths t'))
    by (unfold B, t'; cbn -[zlen]; rewrite zlen_app; lia).
  pose proof (fresh_ok t base Hok i nd A B Hi x r) as Hok'.
  pose proof (fresh_lookup_new t base Hok i nd A B Hi x r) as Hnew.
  pose proof (fresh_lookup_old t base Hok i nd A B Hi x r) as Hold. fold t' in Hok', Hnew, Hold.
  assert (Hbn : fresh_base t base i nd (length (t_nodes t)) = full) by (unfold fresh_base; by rewrite decide_True).
  exists (length (t_nodes t)), t', (fresh_base t base i nd), B. split; [done|]. split; [by apply Hok'|].
  split; [apply arena_lookup; [done|]; by right; left|]. split_and!; try done; try lia.
  { unfold zlen, t'. cbn. rewrite length_insert, length_app. cbn. lia. }
  intros q. split.
  - intros [Hpre [?|Hlq]]; [lia|]. rewrite Hbn in Hlq. pose proof Hpre as [Hl E]%prefix_split.
    rewrite length_app in Hl. assert (Eq : q = base i ++ node_path t nd ++ take (length q - length full) (x :: r)).
    { rewrite <- E at 1. rewrite take_app, take_ge by lia. unfold full. by rewrite <- app_assoc. }
    split; [|rewrite Eq; apply Hnew; try done; lia]. rewrite Eq, app_assoc.
    replace (length q - length full)%nat with (S (length q - length full - 1)) by lia.
    by apply (Lookup_next t base i nd).
  - intros Hq. apply Hold; try done. intros l Hl ->. apply Hq. split.
    + rewrite app_assoc. apply prefix_app, prefix_take.
    + right. rewrite Hbn, app_assoc, length_app, length_take. fold full. lia.
Qed.

(** A path that is exactly the segment of a node ends there. *)
Lemma Append_exact t base i nd r v fuel : trie_ok t base → enters t i nd r → node_path t nd = r → r ≠ [] →
  zlen (t_nodes t) + 1 < 2 ^ 32 → zlen (t_paths t) < 2 ^ 32 →
  Append_loop (S fuel) t (Z.of_nat i) r v = finish t (Z.of_nat i) v.
Proof.
  intros Hok He Hp Hne Hn Hl. cbn [Append_loop]. destruct r as [|x r]; [done|].
  destruct (SplitPath_spec t base i nd _ Hok He Hn Hl) as (m & t1 & base1 & nd1 & -> & [_ _ _ Hpath _ Hgrow]).
  step_ret. rewrite Nat2Z.id.
  destruct Hgrow as [(-> & -> & ->)|(_ & _ & _ & Hpre)]; [|by destruct Hpre; rewrite Hp].
  rewrite Hp in Hpath. destruct (drop m (x :: r)) as [|y s]; [done|].
  apply (f_equal length) in Hpath. rewrite length_app in Hpath. cbn in Hpath. lia.
Qed.

(** [t'] is [t] with [v] added along the way from node [i] to [full]. *)
Definition added (t t' : CompressedTrie) i b (full : list Z) (v : Z) : Prop :=
  ∀ q, Lookup t' q = if decide (on_way i b full q) then Some (bumped (Lookup t q) v (bool_decide (q = full)))
                     else Lookup t q.

(** Adding along the segment of a node and then from the next node on. *)
Lemma added_step t t1 t2 t' base i base2 j p s v : j ≠ 0%nat → s ≠ [] →
  let full := base i ++ p in
  base2 j = full →
  (∀ q, Lookup t1 q = if decide (on_way i (base i) full q) then Some (bumped (Lookup t q) v false) else Lookup t q) →
  (∀ q, bumped (Lookup t2 q) v = bumped (Lookup t1 q) v) →
  (∀ q, ¬ on_way j (base2 j) (full ++ s) q → Lookup t2 q = Lookup t1 q) →
  added t2 t' j (base2 j) (full ++ s) v → added t t' i (base i) (full ++ s) v.
Proof.
  intros Hj Hs full Hb2 H1 H2 H2' H3 q. rewrite H3.
  assert (Hq2 : on_way j (base2 j) (full ++ s) q ↔ q `prefix_of` full ++ s ∧ (length full < length q)%nat).
  { unfold on_way. rewrite Hb2. split; [by intros [? [?|?]]|intros [? ?]; split; [done|by right]]. }
  assert (Hq1 : on_way i (base i) full q ↔ q `prefix_of` full ++ s ∧ (length q ≤ length full)%nat
    ∧ (i = 0%nat ∨ (length (base i) < length q)%nat)).
  { unfold on_way. split.
    - intros [Hpre ?]. split; [by apply prefix_app_r|]. by apply prefix_length in Hpre.
    - intros ([_ E]%prefix_split & Hl & ?). split; [|done]. rewrite take_app_le in E by done.
      rewrite <- E. apply prefix_take. }
  destruct (decide (on_way j (base2 j) (full ++ s) q)) as [Hw2|Hw2].
  - rewrite decide_True, H2, H1.
    + rewrite decide_False; [done|]. rewrite Hq1. apply Hq2 in Hw2 as [_ ?]. lia.
    + apply Hq2 in Hw2 as [? Hl]. split; [done|]. right. subst full. rewrite length_app in Hl. lia.
  - rewrite H2', H1 by done. rewrite Hq2 in Hw2. destruct (decide (on_way i (base i) full q)) as [Hw1|Hw1].
    + apply Hq1 in Hw1 as (? & Hl & Hor). rewrite decide_True by done. rewrite bool_decide_eq_false_2; [done|].
      intros ->. rewrite length_app in Hl. destruct s; [done|cbn in Hl; lia].
    + rewrite decide_False; [done|]. intros [Hpre Hor]. apply Hw1, Hq1. split; [done|]. split; [|done].
      apply not_and_l in Hw2 as [?|?]; [done|lia].
Qed.

(** The rest of a path below a node that no edge continues. *)
Lemma Append_new t base i nd x s v fuel : trie_ok t base → t_nodes t !! i = Some nd → nd_edges nd !! x = None →
  zlen (t_nodes t) + 2 < 2 ^ 32 → zlen (t_paths t) + zlen (x :: s) < 2 ^ 32 →
  let full := base i ++ node_path t nd in
  ∃ n t3 t' base', next_node t (Z.of_nat i) x (x :: s) = Ret (Z.of_nat n, t3)
    ∧ Append_loop (S fuel) t3 (Z.of_nat n) (x :: s) v = Ret t' ∧ trie_ok t' base' ∧ n ≠ 0%nat
    ∧ zlen (t_nodes t') = zlen (t_nodes t) + 1 ∧ zlen (t_paths t') = zlen (t_paths t) + zlen (x :: s)
    ∧ (∀ q, bumped (Lookup t3 q) v = bumped (Lookup t q) v)
    ∧ (∀ q, ¬ on_way n full (full ++ x :: s) q → Lookup t3 q = Lookup t q)
    ∧ added t3 t' n full (full ++ x :: s) v.
Proof.
  intros Hok Hi Hx Hn Hp full.
  destruct (next_node_fresh t base i nd x s Hok Hi Hx) as (n & t3 & b3 & nd3 & E & Hok3 & Hn3 & Hp3 & Hb3 & Hn0 & Sn & Sp & Hq);
    [lia..|]. fold full in Hb3, Hq. rewrite Hb3 in Hq.
  destruct (finish_spec t3 b3 n nd3 v Hok3 Hn3) as (t' & Et & Hok' & Sn' & Sp' & Hl). rewrite Hb3, Hp3 in Hl.
  exists n, t3, t', b3. split; [done|]. split.
  { rewrite (Append_exact t3 b3 n nd3); try done; [|lia|rewrite Sp, zlen_app; lia].
    split; [done|]. right. by rewrite Hp3. }
  rewrite Sp', Sp, zlen_app. split_and!; try done; try lia.
  - intros q. destruct (decide (on_way n full (full ++ x :: s) q)) as [Hw|Hw].
    + by destruct (proj1 (Hq q) Hw) as [-> ->].
    + by rewrite (proj2 (Hq q) Hw).
  - intros q Hw. by apply Hq.
Qed.

(** What [Append_loop] promises with some fuel: one key per iteration, but for the root. *)
Definition loop_ok (v : Z) (fuel : nat) : Prop := ∀ t base i nd r, trie_ok t base → enters t i nd r →
  (length r + (if decide (i = 0%nat) then 1 else 0) ≤ fuel)%nat →
  zlen (t_nodes t) + 3 < 2 ^ 32 → zlen (t_paths t) + zlen r < 2 ^ 32 →
  ∃ t' base', Append_loop fuel t (Z.of_nat i) r v = Ret t' ∧ trie_ok t' base'
    ∧ zlen (t_nodes t') ≤ zlen (t_nodes t) + 2 ∧ zlen (t_paths t') ≤ zlen (t_paths t) + zlen r
    ∧ added t t' i (base i) (base i ++ r) v.

Lemma Append_loop_unfold fuel t i r v m t1 : r ≠ [] → SplitPath t (Z.of_nat i) r = Ret (Z.of_nat m, t1) →
  Append_loop (S fuel) t (Z.of_nat i) r v =
  match drop m r with
  | [] => finish t1 (Z.of_nat i) v
  | key :: _ =>
    node ← rd (t_nodes t1) (Z.of_nat i); nodes ← wr (t_nodes t1) (Z.of_nat i) (add_total node v);
    '(next, t) ← next_node (mkTrie nodes (t_paths t1)) (Z.of_nat i) key (drop m r);
    Append_loop fuel t next (drop m r) v
  end.
Proof. intros Hne E. cbn [Append_loop]. destruct r; [done|]. rewrite E. step_ret. by rewrite Nat2Z.id. Qed.

(** The empty path, which only the root is entered with. *)
Lemma Append_root v fuel t base i nd : trie_ok t base → enters t i nd [] →
  ∃ t' base', Append_loop fuel t (Z.of_nat i) [] v = Ret t' ∧ trie_ok t' base'
    ∧ zlen (t_nodes t') = zlen (t_nodes t) ∧ t_paths t' = t_paths t
    ∧ added t t' i (base i) (base i ++ []) v.
Proof.
  intros Hok [Hi [->|[? _]]]; [|done]. destruct (ok_root _ _ Hok) as [Hb (r & Hr & E)].
  assert (nd = r) as Er by congruence.
  destruct (finish_spec t base 0 nd v Hok Hi) as (t' & Et & Hok' & En & Ep & Hl). rewrite Er, E in Hl.
  exists t', base. replace (Append_loop _ _ _ _ _) with (finish t (Z.of_nat 0) v) by (by destruct fuel).
  rewrite Et. done.
Qed.

(** Following an edge: [t2] is the trie with [v] added to node [i]. *)
Lemma Append_follow v fuel t t2 base i nd x s c :
  loop_ok v fuel → trie_ok t2 base → t_nodes t2 !! i = Some nd → nd_edges nd !! x = Some c →
  (length (x :: s) ≤ fuel)%nat →
  zlen (t_nodes t2) + 3 < 2 ^ 32 → zlen (t_paths t2) + zlen (x :: s) < 2 ^ 32 →
  let full := base i ++ node_path t2 nd in
  (∀ q, Lookup t2 q = if decide (on_way i (base i) full q) then Some (bumped (Lookup t q) v false) else Lookup t q) →
  ∃ t' base', ('(next, t) ← next_node t2 (Z.of_nat i) x (x :: s); Append_loop fuel t next (x :: s) v) = Ret t'
    ∧ trie_ok t' base' ∧ zlen (t_nodes t') ≤ zlen (t_nodes t2) + 2
    ∧ zlen (t_paths t') ≤ zlen (t_paths t2) + zlen (x :: s)
    ∧ added t t' i (base i) (full ++ x :: s) v.
Proof.
  intros IH Hok Hi Hc Hf Hn Hp full Hl. unfold next_node.
  rewrite (rd_some _ _ nd) by (lia || by rewrite Nat2Z.id). step_ret. rewrite Hc. step_ret.
  destruct (ok_edge _ _ Hok _ _ _ _ Hi Hc) as (j & ndj & -> & Hj0 & Hj & Hh & Hbj).
  destruct (IH t2 base j ndj (x :: s) Hok) as (t' & base' & -> & Hok' & Sn & Sp & Hadd); [|by rewrite decide_False; [lia|]|done..|].
  { split; [done|]. right. by rewrite Hh. }
  exists t', base'. split_and!; try done. rewrite Hbj in Hadd.
  by eapply (added_step t t2 t2 t' base i (fun _ => full) j).
Qed.

Lemma Append_loop_spec v fuel : loop_ok v fuel.
Proof.
  induction fuel as [|fuel IH]; intros t base i nd r Hok He Hf Hn Hp.
  { destruct He as [_ [Hi0|[Hr _]]]; [rewrite decide_True in Hf by done; lia|destruct r; [done|cbn in Hf; lia]]. }
  assert (Hi : t_nodes t !! i = Some nd) by apply He. pose proof (zlen_nonneg r) as Hzr.
  destruct (decide (r = [])) as [->|Hne].
  { destruct (Append_root v (S fuel) t base i nd Hok He) as (t' & b' & -> & ? & En & Ep & ?).
    exists t', b'. rewrite En, Ep. split_and!; try done; lia. }
  destruct (SplitPath_spec t base i nd r Hok He) as (m & t1 & base1 & nd1 & E1 & [Hok1 Hl1 Hi1 Hr Hb1 Hgrow]); [lia..|].
  assert (zlen (t_nodes t1) ≤ zlen (t_nodes t) + 1 ∧ t_paths t1 = t_paths t) as [Hn1 Hp1]
    by (destruct Hgrow as [(-> & _)|(-> & -> & _)]; split; done || lia).
  rewrite (Append_loop_unfold fuel t i r v m t1 Hne E1). destruct (drop m r) as [|x s] eqn:Ed.
  { rewrite app_nil_r in Hr. destruct (finish_spec t1 base1 i nd1 v Hok1 Hi1) as (t' & -> & Hok' & En & Ep & Hl).
    exists t', base1. rewrite En, Ep, Hp1. split_and!; try done; try lia.
    intros q. by rewrite Hl, Hl1, Hb1, <- Hr. }
  apply lookup_lt_Some in Hi1 as Hlt. rewrite (rd_some _ _ nd1) by (lia || by rewrite Nat2Z.id). step_ret.
  rewrite wr_in by (unfold zlen; lia). step_ret. unfold put. rewrite Nat2Z.id.
  pose proof (bump_spec t1 base1 i nd1 (add_total nd1 v) v false Hok1 Hi1 eq_refl) as Hb2. cbv zeta in Hb2.
  set (nd2 := add_total nd1 v) in *. set (t2 := mkTrie (<[i := nd2]> _) _) in *. destruct Hb2 as [Hok2 Hl2].
  assert (Hi2 : t_nodes t2 !! i = Some nd2) by (apply list_lookup_insert_eq; lia).
  change (node_path t1 nd1) with (node_path t2 nd2) in *.
  assert (Hn2 : zlen (t_nodes t2) = zlen (t_nodes t1)) by (unfold zlen, t2; cbn; by rewrite length_insert).
  assert (Hp2 : zlen (t_paths t2) = zlen (t_paths t)) by (rewrite <- Hp1; done).
  assert (Hl2' : ∀ q, Lookup t2 q = if decide (on_way i (base i) (base i ++ node_path t2 nd2) q)
    then Some (bumped (Lookup t q) v false) else Lookup t q) by (intros q; rewrite Hl2, Hl1, Hb1; done).
  assert (Efull : base i ++ r = (base i ++ node_path t2 nd2) ++ x :: s) by (rewrite Hr; by rewrite app_assoc).
  assert (Hzx : zlen (x :: s) ≤ zlen r) by (rewrite Hr, zlen_app; pose proof (zlen_nonneg (node_path t2 nd2)); lia).
  assert (Hfx : (length (x :: s) ≤ fuel)%nat).
  { apply (f_equal length) in Hr. rewrite length_app in Hr. pose proof (node_end t2 base1 Hok2 i nd2 Hi2).
    case_decide; lia. }
  rewrite Efull. rewrite <- Hb1 in Hl2' |- *. destruct (nd_edges nd1 !! x) as [c|] eqn:Ec.
  - destruct Hgrow as [(-> & -> & ->)|(_ & _ & Hno & _)]; [|by rewrite (Hno x s eq_refl) in Ec].
    destruct (Append_follow v fuel t t2 base i nd2 x s c) as (t' & b' & HE & ? & ? & ? & ?); try done; try lia.
    exists t', b'. split_and!; try done; lia.
  - destruct fuel as [|f]; [cbn in Hfx; lia|].
    destruct (Append_new t2 base1 i nd2 x s v f Hok2 Hi2 Ec) as (n & t3 & t' & b' & -> & HL & Hok' & Hn0 & Sn & Sp & H3 & H3' & Hadd);
      [lia..|]. step_ret. rewrite HL. exists t', b'. split_and!; try done; try lia.
    by eapply (added_step t t2 t3 t' base1 i (fun _ => base1 i ++ node_path t2 nd2) n).
Qed.

Lemma Append_spec t base path v : trie_ok t base →
  zlen (t_nodes t) + 3 < 2 ^ 32 → zlen (t_paths t) + zlen path < 2 ^ 32 →
  ∃ t' base', Append t path v = Ret t' ∧ trie_ok t' base'
    ∧ zlen (t_nodes t') ≤ zlen (t_nodes t) + 2 ∧ zlen (t_paths t') ≤ zlen (t_paths t) + zlen path
    ∧ ∀ q, Lookup t' q = if decide (q `prefix_of` path) then Some (bumped (Lookup t q) v (bool_decide (q = path)))
                         else Lookup t q.
Proof.
  intros Hok Hn Hp. destruct (ok_root _ _ Hok) as [Hb (nd & H0 & _)].
  destruct (Append_loop_spec v (S (length path)) t base 0%nat nd path Hok) as (t' & base' & E & Hok' & ? & ? & Ha);
    [split; [done|by left]|rewrite decide_True by done; lia|done..|].
  exists t', base'. split_and!; try done. intros q. rewrite Ha, Hb. apply decide_ext.
  split; [by intros [? _]|]. intros ?. split; [done|by left].
Qed.

(** ** Whole profiles *)

Fixpoint Appends (t : CompressedTrie) (L : list (list Z * Z)) : outcome CompressedTrie :=
  match L with [] => Ret t | (path, value) :: L => t ← Append t path value; Appends t L end.

(** The specification: the weight of the stacks below a path and of the stacks at it. *)
Definition weight (L : list (list Z * Z)) (q : list Z) : Z :=
  foldr (fun e acc => (if decide (q `prefix_of` e.1) then e.2 else 0) + acc) 0 L.
Definition own (L : list (list Z * Z)) (q : list Z) : Z :=
  foldr (fun e acc => (if decide (e.1 = q) then e.2 else 0) + acc) 0 L.
Definition keys (L : list (list Z * Z)) : Z := foldr (fun e acc => zlen e.1 + acc) 0 L.

Definition known (L : list (list Z * Z)) (q : list Z) : Prop :=
  q = [] ∨ Exists (fun e => q `prefix_of` e.1) L.

#[export] Instance known_dec L q : Decision (known L q).
Proof. unfold known. apply _. Defined.

Definition trie_view (L : list (list Z * Z)) (q : list Z) : option (Z * Z) :=
  if decide (known L q) then Some (i64 (weight L q), i64 (own L q)) else None.

Lemma weight_snoc L p v q : weight (L ++ [(p, v)]) q = weight L q + if decide (q `prefix_of` p) then v else 0.
Proof. unfold weight. induction L as [|e L IH]; cbn [foldr app fst snd] in *; lia. Qed.
Lemma own_snoc L p v q : own (L ++ [(p, v)]) q = own L q + if decide (p = q) then v else 0.
Proof. unfold own. induction L as [|e L IH]; cbn [foldr app fst snd] in *; lia. Qed.
Lemma known_snoc L p v q : known (L ++ [(p, v)]) q ↔ known L q ∨ q `prefix_of` p.
Proof. unfold known. rewrite Exists_app, Exists_cons, Exists_nil. cbn. tauto. Qed.

Lemma unknown_weight L q : ¬ known L q → weight L q = 0 ∧ own L q = 0.
Proof.
  unfold known, weight, own. induction L as [|[p v] L IH]; intros H; [done|]. cbn [foldr fst snd].
  rewrite Exists_cons in H. cbn [fst] in H.
  destruct IH as [IH1 IH2]; [tauto|]. rewrite IH1, IH2. rewrite !decide_False; [done|intros ->; apply H; by right; left|tauto].
Qed.

Lemma view_snoc L p v q : trie_view (L ++ [(p, v)]) q =
  if decide (q `prefix_of` p) then Some (bumped (trie_view L q) v (bool_decide (q = p))) else trie_view L q.
Proof.
  unfold trie_view. rewrite weight_snoc, own_snoc, (decide_ext _ _ _ _ (known_snoc L p v q)).
  destruct (decide (q `prefix_of` p)) as [Hp|Hp].
  - rewrite decide_True by tauto. f_equal. unfold bumped.
    assert (E : default (0, 0) (if decide (known L q) then Some (i64 (weight L q), i64 (own L q)) else None)
                = (i64 (weight L q), i64 (own L q))).
    { case_decide as Hk; [done|]. by destruct (unknown_weight L q Hk) as [-> ->]. }
    rewrite E. autorewrite with word. f_equal. destruct (decide (p = q)) as [->|Hne].
    + rewrite bool_decide_eq_true_2 by done. by autorewrite with word.
    + rewrite bool_decide_eq_false_2 by congruence. f_equal. lia.
  - rewrite (decide_False (P := p = q)), !Z.add_0_r by (intros ->; by apply Hp).
    apply decide_ext. tauto.
Qed.

Lemma keys_nonneg L : 0 ≤ keys L.
Proof. unfold keys. induction L as [|e L IH]; cbn [foldr]; [done|]. pose proof (zlen_nonneg e.1). lia. Qed.

Lemma Appends_spec L : ∀ t base L0, trie_ok t base → (∀ q, Lookup t q = trie_view L0 q) →
  zlen (t_nodes t) + 3 + 2 * zlen L < 2 ^ 32 → zlen (t_paths t) + keys L < 2 ^ 32 →
  ∃ t' base', Appends t L = Ret t' ∧ trie_ok t' base' ∧ (∀ q, Lookup t' q = trie_view (L0 ++ L) q)
    ∧ zlen (t_nodes t') ≤ zlen (t_nodes t) + 2 * zlen L ∧ zlen (t_paths t') ≤ zlen (t_paths t) + keys L.
Proof.
  induction L as [|[p v] L IH]; intros t base L0 Hok Hv Hn Hp; cbn [Appends].
  { exists t, base. rewrite app_nil_r. split_and!; try done; change (keys []) with 0; change (zlen []) with 0; lia. }
  change (keys ((p, v) :: L)) with (zlen p + keys L) in *. rewrite zlen_cons in *.
  pose proof (keys_nonneg L) as Hk.
  pose proof (zlen_nonneg L). destruct (Append_spec t base p v Hok) as (t1 & b1 & -> & Hok1 & Hn1 & Hp1 & Hl); [lia..|]. step_ret.
  destruct (IH t1 b1 (L0 ++ [(p, v)]) Hok1) as (t' & b' & -> & Hok' & Hv' & ? & ?); [|lia..|].
  { intros q. by rewrite Hl, view_snoc, Hv. }
  exists t', b'. rewrite <- app_assoc in Hv'. split_and!; try done; lia.
Qed.

Lemma Appends_ctor L : 4 + 2 * zlen L < 2 ^ 32 → keys L < 2 ^ 32 →
  ∃ t base, Appends CompressedTrie_ctor L = Ret t ∧ trie_ok t base ∧ (∀ q, Lookup t q = trie_view L q)
    ∧ zlen (t_nodes t) ≤ 1 + 2 * zlen L ∧ zlen (t_paths t) ≤ keys L.
Proof.
  intros Hn Hp. apply (Appends_spec L CompressedTrie_ctor (fun _ => []) []); try done; [apply trie_ok_ctor|].
  intros q. destruct q as [|x q]; [done|]. unfold trie_view, known. rewrite decide_False; [done|].
  intros [?|H]; [done|by apply Exists_nil in H].
Qed.

(** ** Properties *)

(** C29: whatever stacks are inserted in whatever order, every access stays in its array,
    and the trie shows for every path that is a prefix of an inserted stack the total
    weight of the stacks below it and the weight of the stacks that end in it, and nothing
    for other paths. *)
Theorem trie_weights L : 4 + 2 * zlen L < 2 ^ 32 → keys L < 2 ^ 32 →
  ∃ t, Appends CompressedTrie_ctor L = Ret t ∧
    ∀ q, Lookup t q = if decide (q = [] ∨ Exists (fun e => q `prefix_of` e.1) L)
                      then Some (i64 (weight L q), i64 (own L q)) else None.
Proof.
  intros Hn Hp. destruct (Appends_ctor L Hn Hp) as (t & base & E & _ & Hv & _). by exists t.
Qed.

Lemma trie_weights_witness :
  ∃ t, Appends CompressedTrie_ctor [([1; 2; 3], 10); ([1; 2; 4], 5); ([1; 5], 3); ([1; 2], -1)] = Ret t
    ∧ Lookup t [1; 2] = Some (14, -1) ∧ Lookup t [1] = Some (17, 0) ∧ Lookup t [2] = None.
Proof.
  destruct (trie_weights [([1; 2; 3], 10); ([1; 2; 4], 5); ([1; 5], 3); ([1; 2], -1)]) as (t & E & Hl);
    [vm_compute; reflexivity..|]. exists t. rewrite !Hl. split; [exact E|]. split_and!; vm_compute; reflexivity.
Defined.
