(* ===== verification/GetTop.v ===== *)
(** * The heaviest nodes of the trie ([CompressedTrie::GetTop], [flamegraph/src/graph.h])

    A best-first search selects the heaviest positions of the trie, then a depth-first
    traversal lists them with their depth.  The order in which an abseil map is traversed is
    the parameter [edges_order]; which of several smallest elements [std::priority_queue]
    shows is left open by the standard, so the choice is the class [MinQueue].  The
    specification reads the result back into paths. *)

From Stdlib Require Import ZArith Lia.
From stdpp Require Import base numbers list gmap sorting.
From S2P Require Import Prelude CompressedTrie.

(** ** The data *)

Record RetrievedNode := mkRetrievedNode { rn_total : Z; rn_value : Z; rn_depth : Z; rn_key : Z }.

Record NodeOnPath := mkNodeOnPath { np_nodeId : Z; np_pathSize : Z }.

#[export] Instance NodeOnPath_eq_dec : EqDecision NodeOnPath.
Proof. solve_decision. Defined.
#[export] Program Instance NodeOnPath_countable : Countable NodeOnPath :=
  inj_countable' (fun p => (np_nodeId p, np_pathSize p)) (fun p => mkNodeOnPath p.1 p.2) _.
Next Obligation. by intros []. Qed.

Record QueueItem := mkQueueItem { qi_neg_total : Z; qi_depth : Z; qi_node : NodeOnPath }.

(** [QueueItem::operator>]: lexicographic on the negated total and the depth. *)
Definition item_gtb (a b : QueueItem) : bool :=
  (qi_neg_total b <? qi_neg_total a) ||
  ((qi_neg_total a =? qi_neg_total b) && (qi_depth b <? qi_depth a)).

(** [top] and [pop] of the priority queue, and what they promise. *)
Class MinQueue := {
  pq_pop : list QueueItem → option (QueueItem * list QueueItem);
  pq_pop_nil : pq_pop [] = None;
  pq_pop_some q : q ≠ [] → ∃ x rest, pq_pop q = Some (x, rest) ∧ x :: rest ≡ₚ q
    ∧ Forall (fun y => item_gtb x y = false) q;
}.

(** ** Selection *)

Section GetTop.
Context `{!MinQueue} (edges_order : gmap Z Z → list (Z * Z)).

(** The positions of one child. *)
Fixpoint push_positions (n : nat) (pos depth childId : Z) (childNode : Node) (queue : list QueueItem)
  : list QueueItem :=
  match n with
  | O => queue
  | S n =>
    push_positions n (u32 (pos + 1)) depth childId childNode
      (queue ++ [mkQueueItem (i64 (- nd_total childNode)) (u32 (depth + pos + 1))
                   (mkNodeOnPath childId (u32 (pos + 1)))])
  end.

Fixpoint push_children (nodes : list Node) (depth : Z) (edges : list (Z * Z)) (queue : list QueueItem)
  : outcome (list QueueItem) :=
  match edges with
  | [] => Ret queue
  | (_, childId) :: edges =>
    childNode ← rd nodes childId;
    push_children nodes depth edges
      (push_positions (Z.to_nat (span_size (nd_path childNode))) 0 depth childId childNode queue)
  end.

Fixpoint GetTop_loop (fuel : nat) (nodes : list Node) (count : Z) (selected : gset NodeOnPath)
    (queue : list QueueItem) : outcome (gset NodeOnPath) :=
  if Z.of_nat (size selected) <? count then
    match pq_pop queue with
    | None => Ret selected
    | Some (item, queue) =>
      match fuel with
      | O => NoFuel
      | S fuel =>
        let selected := {[qi_node item]} ∪ selected in
        node ← rd nodes (np_nodeId (qi_node item));
        if negb (np_pathSize (qi_node item) =? span_size (nd_path node))
        then GetTop_loop fuel nodes count selected queue
        else
          queue ← push_children nodes (qi_depth item) (edges_order (nd_edges node)) queue;
          GetTop_loop fuel nodes count selected queue
      end
    end
  else Ret selected.

(** ** Listing *)

(** The loop over the segment of a node; [false] when it returns early. *)
Fixpoint retrieve_path (fuel : nat) (t : CompressedTrie) (node : Node) (nodeId depth pos : Z)
    (selected : gset NodeOnPath) (result : list RetrievedNode) : outcome (bool * list RetrievedNode) :=
  if pos <? span_size (nd_path node) then
    match fuel with
    | O => NoFuel
    | S fuel =>
      if negb (bool_decide (mkNodeOnPath nodeId (u32 (pos + 1)) ∈ selected)) then Ret (false, result)
      else
        let value := if u32 (pos + 1) =? span_size (nd_path node) then nd_value node else 0 in
        key ← rd (t_paths t) (span_begin (nd_path node) + pos);
        retrieve_path fuel t node nodeId depth (u32 (pos + 1)) selected
          (result ++ [mkRetrievedNode (nd_total node) value (u32 (depth + pos + 1)) key])
    end
  else Ret (true, result).

(** [std::greater<>] on pairs of total and key. *)
Definition child_ge (a b : Z * Z) : Prop := b.1 < a.1 ∨ (a.1 = b.1 ∧ b.2 ≤ a.2).

#[export] Instance child_ge_dec a b : Decision (child_ge a b).
Proof. unfold child_ge. apply _. Defined.

Fixpoint order_children (nodes : list Node) (edges : list (Z * Z)) : outcome (list (Z * Z)) :=
  match edges with
  | [] => Ret []
  | (key, childId) :: edges =>
    childNode ← rd nodes childId;
    rest ← order_children nodes edges;
    Ret ((nd_total childNode, key) :: rest)
  end.

(** The loop over the ordered children; [rec] is the recursive call. *)
Fixpoint visit (rec : Z → list RetrievedNode → outcome (list RetrievedNode)) (edges : gmap Z Z)
    (children : list (Z * Z)) (result : list RetrievedNode) : outcome (list RetrievedNode) :=
  match children with
  | [] => Ret result
  | (_, childKey) :: children =>
    match edges !! childKey with
    | None => Undef
    | Some childId => result ← rec childId result; visit rec edges children result
    end
  end.

Fixpoint RetrieveNodes (fuel : nat) (t : CompressedTrie) (nodeId depth : Z) (selected : gset NodeOnPath)
    (result : list RetrievedNode) {struct fuel} : outcome (list RetrievedNode) :=
  match fuel with
  | O => NoFuel
  | S fuel =>
    node ← rd (t_nodes t) nodeId;
    '(complete, result) ←
      retrieve_path (Z.to_nat (span_size (nd_path node))) t node nodeId depth 0 selected result;
    if negb complete then Ret result
    else
      let result := if nodeId =? 0 then result ++ [mkRetrievedNode (nd_total node) 0 depth 0] else result in
      childrenOrdered ← order_children (t_nodes t) (edges_order (nd_edges node));
      visit (fun childId result =>
               RetrieveNodes fuel t childId (u32 (depth + span_size (nd_path node))) selected result)
        (nd_edges node) (merge_sort child_ge childrenOrdered) result
  end.

(** The number of positions bounds the search, the number of nodes the depth. *)
Definition positions (nodes : list Node) : nat :=
  foldr (fun nd acc => Z.to_nat (span_size (nd_path nd)) + acc)%nat 1%nat nodes.

Definition GetTop (t : CompressedTrie) (count : Z) : outcome (list RetrievedNode) :=
  root ← rd (t_nodes t) 0;
  selected ← GetTop_loop (S (positions (t_nodes t))) (t_nodes t) count ∅
    [mkQueueItem (i64 (- nd_total root)) 0 (mkNodeOnPath 0 0)];
  RetrieveNodes (S (length (t_nodes t))) t 0 0 selected [].
End GetTop.

(** ** Reading the result

    An entry of depth [d] extends the first [d - 1] keys of the entry before it. *)
Fixpoint decode (cur : list Z) (res : list RetrievedNode) : list (list Z) :=
  match res with
  | [] => []
  | e :: res =>
    let q := if rn_depth e =? 0 then [] else take (Z.to_nat (rn_depth e - 1)) cur ++ [rn_key e] in
    q :: decode q res
  end.

Lemma decode_app a b : ∀ cur,
  decode cur (a ++ b) = decode cur a ++ decode (default cur (last (decode cur a))) b.
Proof.
  induction a as [|e a IH]; intros cur; [done|]. cbn [app decode].
  rewrite IH. cbn [app]. do 3 f_equal. rewrite last_cons. by destruct (last _).
Qed.

(** A queue that looks for the first smallest element. *)
Fixpoint list_pop (q : list QueueItem) : option (QueueItem * list QueueItem) :=
  match q with
  | [] => None
  | x :: q =>
    match list_pop q with
    | None => Some (x, q)
    | Some (y, rest) => if item_gtb x y then Some (y, x :: rest) else Some (x, q)
    end
  end.

Lemma item_gtb_iff a b : item_gtb a b = true ↔
  qi_neg_total b < qi_neg_total a ∨ (qi_neg_total a = qi_neg_total b ∧ qi_depth b < qi_depth a).
Proof. unfold item_gtb. rewrite orb_true_iff, andb_true_iff, !Z.ltb_lt, Z.eqb_eq. done. Qed.

Lemma item_gtb_false a b : item_gtb a b = false ↔
  qi_neg_total a < qi_neg_total b ∨ (qi_neg_total a = qi_neg_total b ∧ qi_depth a ≤ qi_depth b).
Proof.
  destruct (item_gtb a b) eqn:E.
  - apply item_gtb_iff in E. split; [done|lia].
  - split; [intros _|done]. apply not_true_iff_false in E. rewrite item_gtb_iff in E. lia.
Qed.

Lemma list_pop_some q : q ≠ [] → ∃ x rest, list_pop q = Some (x, rest) ∧ x :: rest ≡ₚ q
  ∧ Forall (fun y => item_gtb x y = false) q.
Proof.
  induction q as [|x q IH]; [done|]. intros _. cbn [list_pop]. destruct (decide (q = [])) as [->|Hne].
  { exists x, []. split; [done|]. split; [done|]. constructor; [|constructor]. apply item_gtb_false. lia. }
  destruct (IH Hne) as (y & rest & -> & Hp & Hf). destruct (item_gtb x y) eqn:E.
  - exists y, (x :: rest). split; [done|]. split; [rewrite <- Hp; constructor|]. constructor; [|done].
    apply item_gtb_iff in E. apply item_gtb_false. lia.
  - exists x, q. split; [done|]. split; [done|]. constructor; [apply item_gtb_false; lia|].
    apply (Forall_impl _ _ _ Hf). intros z. rewrite !item_gtb_false. apply item_gtb_false in E. lia.
Qed.

#[export] Instance list_queue : MinQueue := {
  pq_pop := list_pop; pq_pop_nil := eq_refl; pq_pop_some := list_pop_some;
}.

(** ** The search *)

Section search.
Context `{!MinQueue} (edges_order : gmap Z Z → list (Z * Z)).
Context (edges_order_perm : ∀ m, edges_order m ≡ₚ map_to_list m).
Context (t : CompressedTrie) (base : nat → list Z) (Hok : trie_ok t base).
Context (Hpaths : zlen (t_paths t) < 2 ^ 32).
Context (Hdepth : ∀ i nd, t_nodes t !! i = Some nd → zlen (base i ++ node_path t nd) < 2 ^ 32).

Implicit Types (S : gset NodeOnPath) (Q : list QueueItem).

Definition npos (i k : nat) : NodeOnPath := mkNodeOnPath (Z.of_nat i) (Z.of_nat k).

Lemma npos_inj i k j l : npos i k = npos j l → i = j ∧ k = l.
Proof. intros [= ?%Nat2Z.inj ?%Nat2Z.inj]. done. Qed.

Lemma node_span i nd : t_nodes t !! i = Some nd → span_size (nd_path nd) = zlen (node_path t nd).
Proof.
  intros Hi. destruct (ok_span _ _ Hok _ _ Hi) as [H1 H2]. unfold span_size.
  rewrite (node_path_length t nd H1 H2), u32_small; [done|]. unfold is_u32. lia.
Qed.

(** A node has one parent. *)
Lemma parent_unique p nd x p' nd' x' c :
  t_nodes t !! p = Some nd → nd_edges nd !! x = Some c →
  t_nodes t !! p' = Some nd' → nd_edges nd' !! x' = Some c → p = p' ∧ nd = nd' ∧ x = x'.
Proof.
  intros Hp He Hp' He'.
  destruct (ok_edge _ _ Hok _ _ _ _ Hp He) as (j & n & -> & _ & Hn & Hh & Hb).
  destruct (ok_edge _ _ Hok _ _ _ _ Hp' He') as (j' & n' & Ej & _ & Hn' & Hh' & Hb').
  apply Nat2Z.inj in Ej as <-. rewrite Hn in Hn'. injection Hn' as <-.
  pose proof (end_pos t base Hok p nd Hp) as P1. pose proof (end_pos t base Hok p' nd' Hp') as P2.
  rewrite <- Hb in P1. rewrite <- Hb' in P2. destruct (pos_unique _ _ Hok _ _ _ _ _ _ _ P1 P2) as (-> & _ & ->).
  split_and!; try done. congruence.
Qed.

(** *** Pushing the children *)

Definition item (j k : nat) (nd : Node) (depth : Z) : QueueItem :=
  mkQueueItem (i64 (- nd_total nd)) depth (npos j k).

Lemma push_positions_spec j nd d n : ∀ pos queue, 0 ≤ d →
  d + Z.of_nat (pos + n) < 2 ^ 32 →
  push_positions n (Z.of_nat pos) d (Z.of_nat j) nd queue =
  queue ++ ((fun k => item j k nd (d + Z.of_nat k)) <$> seq (S pos) n).
Proof.
  induction n as [|n IH]; intros pos queue Hd Hb; cbn [push_positions seq fmap list_fmap]; [by rewrite app_nil_r|].
  rewrite !u32_small by (unfold is_u32; lia).
  replace (d + Z.of_nat pos + 1) with (d + Z.of_nat (S pos)) by lia.
  replace (Z.of_nat pos + 1) with (Z.of_nat (S pos)) by lia. rewrite IH by lia. by rewrite <- app_assoc.
Qed.

(** The items of the children of a node whose end has depth [d]. *)
Definition is_child_item (l : list (Z * Z)) (d : Z) (it : QueueItem) : Prop :=
  ∃ x j nd k, (x, Z.of_nat j) ∈ l ∧ t_nodes t !! j = Some nd ∧ (0 < k ≤ length (node_path t nd))%nat
    ∧ it = item j k nd (d + Z.of_nat k).

Lemma push_children_spec d l : ∀ queue,
  0 ≤ d → NoDup l.*2 →
  (∀ x c, (x, c) ∈ l → ∃ j nd, c = Z.of_nat j ∧ t_nodes t !! j = Some nd ∧ d + zlen (node_path t nd) < 2 ^ 32) →
  ∃ items, push_children (t_nodes t) d l queue = Ret (queue ++ items)
    ∧ NoDup (qi_node <$> items) ∧ ∀ it, it ∈ items ↔ is_child_item l d it.
Proof.
  induction l as [|[x c] l IH]; intros queue Hd Hnd Hl; cbn [push_children].
  { exists []. rewrite app_nil_r. split; [done|]. split; [constructor|].
    intros it. split; [by intros ?%elem_of_nil|]. intros (? & ? & ? & ? & ?%elem_of_nil & _). done. }
  apply NoDup_cons in Hnd as [Hc Hnd]. destruct (Hl x c) as (j & nd & -> & Hj & Hb); [by left|].
  rewrite (rd_some _ _ nd) by (lia || by rewrite Nat2Z.id). step_ret.
  rewrite (node_span j nd Hj). unfold zlen in *. rewrite Nat2Z.id.
  rewrite (push_positions_spec j nd d _ 0%nat) by lia.
  set (own := _ <$> seq 1 _).
  destruct (IH (queue ++ own) Hd Hnd) as (items & -> & Hn & Hin); [intros y z Hy; apply (Hl y); by right|].
  assert (Hown : ∀ it, it ∈ own ↔ ∃ k, (0 < k ≤ length (node_path t nd))%nat ∧ it = item j k nd (d + Z.of_nat k)).
  { intros it. unfold own. rewrite list_elem_of_fmap. split; intros (k & H1 & H2).
    - apply elem_of_seq in H2. exists k. split; [lia|done].
    - exists k. split; [done|]. apply elem_of_seq. lia. }
  exists (own ++ items). rewrite app_assoc. split; [done|]. split.
  - rewrite fmap_app. apply NoDup_app. split_and!; [| |done].
    + unfold own. rewrite <- list_fmap_compose. apply NoDup_fmap_2_strong; [|apply NoDup_seq].
      intros k k' _ _ [_ E]%npos_inj. done.
    + intros y (it & -> & Hit)%list_elem_of_fmap (it' & E & Hit')%list_elem_of_fmap.
      apply Hown in Hit as (k & _ & ->). apply Hin in Hit' as (x' & j' & nd' & k' & Hx' & _ & _ & ->).
      cbn in E. apply npos_inj in E as [<- _]. apply Hc. apply list_elem_of_fmap. by exists (x', Z.of_nat j).
  - intros it. rewrite elem_of_app, Hown, Hin. split.
    + intros [(k & Hk & ->)|(x' & j' & nd' & k' & Hx' & Hrest)].
      * exists x, j, nd, k. split; [by left|done].
      * exists x', j', nd', k'. split; [by right|done].
    + intros (x' & j' & nd' & k' & Hx' & Hj' & Hk' & ->). apply elem_of_cons in Hx' as [[= -> E]|Hx'].
      * apply Nat2Z.inj in E as ->. assert (nd' = nd) as -> by congruence. left. by exists k'.
      * right. by exists x', j', nd', k'.
Qed.

(** *** The invariant *)

Definition item_ok (it : QueueItem) : Prop :=
  ∃ i k nd q, at_pos t base i k nd q ∧ it = item i k nd (zlen q).

(** The positions of a node are pushed when the end of its parent is selected. *)
Definition offered S (i : nat) : Prop :=
  i = 0%nat ∨ ∃ p nd x, t_nodes t !! p = Some nd ∧ nd_edges nd !! x = Some (Z.of_nat i)
                        ∧ npos p (length (node_path t nd)) ∈ S.

Record top_inv S Q : Prop := {
  ti_items : Forall item_ok Q;
  ti_nodup : NoDup (qi_node <$> Q);
  ti_disj x : x ∈ qi_node <$> Q → x ∉ S;
  ti_valid x : x ∈ S → ∃ i k nd q, x = npos i k ∧ at_pos t base i k nd q;
  ti_offered i k nd q : at_pos t base i k nd q →
    (npos i k ∈ S ∨ npos i k ∈ qi_node <$> Q) ↔ offered S i;
  ti_prev i k : (0 < k)%nat → npos i (k + 1) ∈ S → npos i k ∈ S;
}.

Lemma top_inv_start root : t_nodes t !! 0%nat = Some root →
  top_inv ∅ [mkQueueItem (i64 (- nd_total root)) 0 (mkNodeOnPath 0 0)].
Proof.
  intros H0. destruct (ok_root _ _ Hok) as [Hb (nd & Hnd & Hp)]. assert (root = nd) as -> by congruence.
  split; cbn.
  - constructor; [|constructor]. exists 0%nat, 0%nat, nd, []. split; [by apply root_pos|done].
  - apply NoDup_singleton.
  - intros x _. apply not_elem_of_empty.
  - by intros x ?%elem_of_empty.
  - intros i k n q (Hi & Hk & Hor & Hq). rewrite list_elem_of_singleton. unfold offered. split.
    + intros [?%elem_of_empty|E]; [done|]. by apply (npos_inj i k 0 0) in E as [-> _]; left.
    + intros [->|(p & n' & x & _ & _ & ?%elem_of_empty)]; [right|done].
      assert (n = nd) as -> by congruence. rewrite Hp in Hk. cbn in Hk. by replace k with 0%nat by lia.
  - by intros i k _ ?%elem_of_empty.
Qed.

(** The parts of the invariant that the popped item and the rest of the queue have. *)
Lemma pop_perm S Q it rest : top_inv S Q → it :: rest ≡ₚ Q →
  item_ok it ∧ Forall item_ok rest ∧ NoDup (qi_node <$> rest) ∧ (qi_node it ∉ qi_node <$> rest) ∧ (qi_node it ∉ S)
  ∧ (∀ x, x ∈ qi_node <$> Q ↔ x = qi_node it ∨ x ∈ qi_node <$> rest).
Proof.
  intros [H1 H2 H3 _ _ _] Hp. rewrite <- Hp in H1. rewrite <- Hp in H2. cbn in H2.
  apply Forall_cons in H1 as [? ?]. apply NoDup_cons in H2 as [? ?].
  assert (Hx : ∀ x, x ∈ qi_node <$> Q ↔ x = qi_node it ∨ x ∈ qi_node <$> rest).
  { intros x. rewrite <- Hp. cbn. apply elem_of_cons. }
  split_and!; try done. apply H3, Hx. by left.
Qed.

(** The position before the popped one has been selected. *)
Lemma pop_prev S Q it rest i k nd q : top_inv S Q → it :: rest ≡ₚ Q →
  Forall (fun y => item_gtb it y = false) Q → at_pos t base i (k + 1) nd q → it = item i (k + 1) nd (zlen q) →
  (0 < k)%nat → npos i k ∈ S.
Proof.
  intros Hinv Hp Hmin Hpos -> Hk.
  assert (Hpos' : at_pos t base i k nd (base i ++ take k (node_path t nd))).
  { destruct Hpos as (? & ? & ? & _). split_and!; try done; lia. }
  destruct (ti_offered _ _ Hinv _ _ _ _ Hpos) as [Hoff _]. destruct (pop_perm _ _ _ _ Hinv Hp) as (_ & _ & _ & _ & _ & Hx).
  destruct (ti_offered _ _ Hinv _ _ _ _ Hpos') as [_ Hin].
  destruct Hin as [?|HQ]; [apply Hoff; right; apply Hx; by left|done|]. exfalso.
  apply list_elem_of_fmap in HQ as (y & Ey & Hy). pose proof (ti_items _ _ Hinv) as Hit.
  rewrite Forall_forall in Hit, Hmin. destruct (Hit y Hy) as (i' & k' & nd' & q' & Hpos2 & ->).
  cbn in Ey. apply npos_inj in Ey as [<- <-]. specialize (Hmin _ Hy). apply item_gtb_false in Hmin.
  destruct Hpos as (Hi & Hl & _ & ->). destruct Hpos2 as (Hi' & _ & _ & ->).
  assert (nd' = nd) as -> by congruence. cbn in Hmin. rewrite !zlen_app in Hmin.
  unfold zlen in Hmin. rewrite !length_take in Hmin. lia.
Qed.

Lemma offered_mono S S' i : S ⊆ S' → offered S i → offered S' i.
Proof. intros Hs [?|(p & nd & x & ? & ? & ?)]; [by left|right]. exists p, nd, x. auto. Qed.

(** A selected position in the middle of a segment offers nothing new. *)
Lemma offered_middle S i k nd j : t_nodes t !! i = Some nd → k ≠ length (node_path t nd) →
  offered ({[npos i k]} ∪ S) j → offered S j.
Proof.
  intros Hi Hk [?|(p & nd' & x & Hp & He & Hin)]; [by left|right]. exists p, nd', x.
  split; [done|]. split; [done|]. apply elem_of_union in Hin as [E%elem_of_singleton|?]; [|done].
  apply npos_inj in E as [-> E]. congruence.
Qed.

Lemma offered_end S i nd j : t_nodes t !! i = Some nd →
  offered ({[npos i (length (node_path t nd))]} ∪ S) j ↔ offered S j ∨ ∃ x, nd_edges nd !! x = Some (Z.of_nat j).
Proof.
  intros Hi. split.
  - intros [?|(p & nd' & x & Hp & He & Hin)]; [by left; left|].
    apply elem_of_union in Hin as [E%elem_of_singleton|?]; [|left; right; by exists p, nd', x].
    apply npos_inj in E as [-> _]. assert (nd' = nd) as -> by congruence. right. by exists x.
  - intros [Ho|[x Hx]]; [eapply offered_mono; [|done]; apply union_subseteq_r|].
    right. exists i, nd, x. split; [done|]. split; [done|]. apply elem_of_union. left. by apply elem_of_singleton.
Qed.

Lemma step_prev S Q it rest i k nd q j l : top_inv S Q → it :: rest ≡ₚ Q →
  Forall (fun y => item_gtb it y = false) Q → at_pos t base i k nd q → it = item i k nd (zlen q) →
  (0 < l)%nat → npos j (l + 1) ∈ {[npos i k]} ∪ S → npos j l ∈ {[npos i k]} ∪ S.
Proof.
  intros Hinv Hp Hmin Hpos Hit Hl Hin. apply elem_of_union. right.
  apply elem_of_union in Hin as [E%elem_of_singleton|?]; [|by apply (ti_prev _ _ Hinv)].
  apply npos_inj in E as [-> <-]. by eapply pop_prev.
Qed.

Lemma step_middle S Q it rest i k nd q : top_inv S Q → it :: rest ≡ₚ Q →
  Forall (fun y => item_gtb it y = false) Q → at_pos t base i k nd q → it = item i k nd (zlen q) →
  k ≠ length (node_path t nd) → top_inv ({[npos i k]} ∪ S) rest.
Proof.
  intros Hinv Hp Hmin Hpos Hit Hk. destruct (pop_perm _ _ _ _ Hinv Hp) as (_ & H2 & H3 & H4 & H5 & Hx).
  rewrite Hit in H4, H5, Hx. cbn in H4, H5, Hx. split; try done.
  - intros x Hxr. rewrite elem_of_union, elem_of_singleton. intros [->|Hs]; [done|].
    apply (ti_disj _ _ Hinv x); [|done]. apply Hx. by right.
  - intros x [->%elem_of_singleton|Hs]%elem_of_union; [by exists i, k, nd, q|by apply (ti_valid _ _ Hinv)].
  - intros j l ndj qj Hj. rewrite elem_of_union, elem_of_singleton.
    assert (offered ({[npos i k]} ∪ S) j ↔ offered S j) as ->.
    { split; [apply (offered_middle _ _ _ nd); [apply Hpos|done]|apply offered_mono, union_subseteq_r]. }
    rewrite <- (ti_offered _ _ Hinv _ _ _ _ Hj), Hx. tauto.
  - intros j l Hl. by eapply step_prev.
Qed.

(** The children of a node are known and fit. *)
Lemma children_known i nd q : at_pos t base i (length (node_path t nd)) nd q →
  NoDup (edges_order (nd_edges nd)).*2 ∧
  ∀ x c, (x, c) ∈ edges_order (nd_edges nd) ↔ nd_edges nd !! x = Some c.
Proof.
  intros (Hi & _ & _ & _).
  assert (Hin : ∀ x c, (x, c) ∈ edges_order (nd_edges nd) ↔ nd_edges nd !! x = Some c)
    by (intros x c; by rewrite edges_order_perm, elem_of_map_to_list).
  split; [|done]. apply NoDup_fmap_2_strong.
  - intros [x c] [x' c'] H1 H2 E. cbn in E. subst c'. apply Hin in H1, H2.
    by destruct (parent_unique _ _ _ _ _ _ _ Hi H1 Hi H2) as (_ & _ & ->).
  - rewrite edges_order_perm. apply NoDup_map_to_list.
Qed.

Lemma child_pos i nd x j ndj k : t_nodes t !! i = Some nd → nd_edges nd !! x = Some (Z.of_nat j) →
  t_nodes t !! j = Some ndj → (0 < k ≤ length (node_path t ndj))%nat →
  at_pos t base j k ndj ((base i ++ node_path t nd) ++ take k (node_path t ndj)).
Proof.
  intros Hi He Hj Hk. destruct (ok_edge _ _ Hok _ _ _ _ Hi He) as (j' & n & E & _ & _ & _ & Hb).
  apply Nat2Z.inj in E as <-. rewrite <- Hb. split_and!; try done; lia.
Qed.

(** The items pushed for the children of node [i], whose end has depth [d]. *)
Record pushed (i : nat) (nd : Node) (items : list QueueItem) : Prop := {
  pu_nodup : NoDup (qi_node <$> items);
  pu_items : Forall item_ok items;
  pu_nodes y : y ∈ qi_node <$> items ↔ ∃ x j ndj l, nd_edges nd !! x = Some (Z.of_nat j)
    ∧ t_nodes t !! j = Some ndj ∧ (0 < l ≤ length (node_path t ndj))%nat ∧ y = npos j l;
}.

Lemma push_node i nd q rest : at_pos t base i (length (node_path t nd)) nd q →
  ∃ items, push_children (t_nodes t) (zlen q) (edges_order (nd_edges nd)) rest = Ret (rest ++ items)
    ∧ pushed i nd items.
Proof.
  intros Hpos. assert (Hi : t_nodes t !! i = Some nd) by apply Hpos.
  destruct (children_known _ _ _ Hpos) as [Hnd Hch].
  assert (Eq : q = base i ++ node_path t nd) by (destruct Hpos as (_ & _ & _ & ->); by rewrite take_ge).
  destruct (push_children_spec (zlen q) (edges_order (nd_edges nd)) rest) as (items & -> & Hin & Hitems);
    [apply zlen_nonneg|done| |].
  { intros x c Hxc%Hch. destruct (ok_edge _ _ Hok _ _ _ _ Hi Hxc) as (j & ndj & -> & _ & Hj & _ & Hb).
    exists j, ndj. split; [done|]. split; [done|]. rewrite Eq, <- Hb, <- zlen_app. by apply Hdepth. }
  exists items. split; [done|]. split; [done| |].
  - apply Forall_forall. intros y (x & j & ndj & l & Hxj%Hch & Hj & Hl & ->)%Hitems.
    pose proof (child_pos _ _ _ _ _ _ Hi Hxj Hj Hl) as Hc. eexists j, l, ndj, _. split; [done|].
    f_equal. rewrite Eq, !zlen_app. unfold zlen. rewrite length_take. lia.
  - intros y. rewrite list_elem_of_fmap. split.
    + intros (z & -> & (x & j & ndj & l & Hxj%Hch & Hj & Hl & ->)%Hitems). by exists x, j, ndj, l.
    + intros (x & j & ndj & l & Hxj%Hch & Hj & Hl & ->). eexists. split; [|apply Hitems; by exists x, j, ndj, l]. done.
Qed.

(** A child is new: its only parent was not selected. *)
Lemma child_new S i nd x j : t_nodes t !! i = Some nd → npos i (length (node_path t nd)) ∉ S →
  nd_edges nd !! x = Some (Z.of_nat j) → j ≠ 0%nat ∧ ¬ offered S j.
Proof.
  intros Hi Hs Hxj. destruct (ok_edge _ _ Hok _ _ _ _ Hi Hxj) as (j' & n & E & Hj & _).
  apply Nat2Z.inj in E as <-. split; [done|]. intros [->|(p & nd' & x' & Hp' & Hx' & Hs')]; [done|].
  by destruct (parent_unique _ _ _ _ _ _ _ Hi Hxj Hp' Hx') as (<- & <- & _).
Qed.

Lemma step_end S Q it rest i nd q items : top_inv S Q → it :: rest ≡ₚ Q →
  Forall (fun y => item_gtb it y = false) Q → at_pos t base i (length (node_path t nd)) nd q →
  it = item i (length (node_path t nd)) nd (zlen q) → pushed i nd items →
  top_inv ({[npos i (length (node_path t nd))]} ∪ S) (rest ++ items).
Proof.
  intros Hinv Hp Hmin Hpos Hit [Pn Pi Px]. set (k := length (node_path t nd)) in *.
  destruct (pop_perm _ _ _ _ Hinv Hp) as (_ & H2 & H3 & H4 & H5 & Hx).
  rewrite Hit in H4, H5, Hx. cbn in H4, H5, Hx. assert (Hi : t_nodes t !! i = Some nd) by apply Hpos.
  assert (Hnew : ∀ y, y ∈ qi_node <$> items → (y ∉ S) ∧ (y ∉ qi_node <$> Q)).
  { intros y (x & j & ndj & l & Hxj & Hj & Hl & ->)%Px. destruct (child_new S i nd x j Hi H5 Hxj) as [_ Hno].
    split; intros Ho; apply Hno, (ti_offered _ _ Hinv _ _ _ _ (child_pos _ _ _ _ _ _ Hi Hxj Hj Hl)); auto. }
  split.
  - by apply Forall_app.
  - rewrite fmap_app. apply NoDup_app. split_and!; [done| |done].
    intros y Hy Hy'. destruct (Hnew y Hy') as [_ Hq]. apply Hq, Hx. by right.
  - intros y. rewrite fmap_app, elem_of_app, elem_of_union, elem_of_singleton. intros [Hy|Hy] [->|Hs]; [done| | |].
    + apply (ti_disj _ _ Hinv y); [|done]. apply Hx. by right.
    + destruct (Hnew _ Hy) as [_ Hq]. apply Hq, Hx. by left.
    + by destruct (Hnew _ Hy).
  - intros x [->%elem_of_singleton|Hs]%elem_of_union; [by exists i, k, nd, q|by apply (ti_valid _ _ Hinv)].
  - intros j l ndj qj Hj. pose proof (offered_end S i nd j Hi) as Ho. fold k in Ho.
    rewrite Ho, fmap_app, elem_of_app, elem_of_union, elem_of_singleton.
    rewrite <- (ti_offered _ _ Hinv _ _ _ _ Hj), Hx, Px. split.
    + intros [[?|?]|[?|(x & j' & ndj' & l' & Hxj & _ & _ & [-> _]%npos_inj)]]; [tauto..|]. right. by exists x.
    + intros [[?|[?|?]]|[x Hxj]]; [tauto..|]. right; right. exists x, j, ndj, l. destruct Hj as (Hj & Hl & Hor & _).
      destruct (child_new S i nd x j Hi H5 Hxj) as [Hj0 _]. split_and!; try done. by destruct Hor.
  - intros j l Hl. by eapply step_prev.
Qed.

(** *** Weights of what is selected *)

(** Totals are ordinary numbers that do not grow downwards. *)
Definition monotone : Prop := ∀ i nd, t_nodes t !! i = Some nd → 0 ≤ nd_total nd < 2 ^ 63 ∧
  ∀ x j ndj, nd_edges nd !! x = Some (Z.of_nat j) → t_nodes t !! j = Some ndj → nd_total ndj ≤ nd_total nd.

(** Nothing in the queue is heavier than what is selected. *)
Definition sorted S Q : Prop := ∀ i k nd it, npos i k ∈ S → t_nodes t !! i = Some nd → it ∈ Q →
  - nd_total nd ≤ qi_neg_total it.

Lemma item_total it : monotone → item_ok it → ∃ i k nd, t_nodes t !! i = Some nd ∧ qi_node it = npos i k
  ∧ qi_neg_total it = - nd_total nd.
Proof.
  intros Hm (i & k & nd & q & (Hi & _) & ->). exists i, k, nd. split; [done|]. split; [done|]. cbn.
  destruct (Hm i nd Hi) as [? _]. apply i64_small. unfold is_i64. lia.
Qed.

Lemma sorted_step S Q Q' i k nd it : monotone → sorted S Q → it ∈ Q →
  Forall (fun y => item_gtb it y = false) Q → t_nodes t !! i = Some nd → it = item i k nd (qi_depth it) →
  (∀ y, y ∈ Q' → y ∈ Q ∨ ∃ x j ndj, nd_edges nd !! x = Some (Z.of_nat j) ∧ t_nodes t !! j = Some ndj
                                   ∧ qi_neg_total y = i64 (- nd_total ndj)) →
  sorted ({[npos i k]} ∪ S) Q'.
Proof.
  intros Hm Hs Hit Hmin Hi Eit HQ' i' k' nd' y Hin Hi' Hy.
  assert (Hneg : ∀ j ndj, t_nodes t !! j = Some ndj → i64 (- nd_total ndj) = - nd_total ndj).
  { intros j ndj Hj. destruct (Hm j ndj Hj) as [? _]. apply i64_small. unfold is_i64. lia. }
  assert (Enit : qi_neg_total it = - nd_total nd) by (rewrite Eit; by apply (Hneg i)).
  assert (Hy1 : - nd_total nd ≤ qi_neg_total y).
  { destruct (HQ' y Hy) as [HyQ|(x & j & ndj & Hx & Hj & ->)].
    - rewrite Forall_forall in Hmin. specialize (Hmin y HyQ). apply item_gtb_false in Hmin. lia.
    - rewrite (Hneg j ndj Hj). destruct (Hm i nd Hi) as [_ Hd]. specialize (Hd x j ndj Hx Hj). lia. }
  apply elem_of_union in Hin as [E%elem_of_singleton|Hin].
  - apply npos_inj in E as [-> _]. assert (nd' = nd) as -> by congruence. done.
  - specialize (Hs i' k' nd' it Hin Hi' Hit). lia.
Qed.

(** *** One iteration *)

Lemma top_step S Q it rest : top_inv S Q → it :: rest ≡ₚ Q → Forall (fun y => item_gtb it y = false) Q →
  ∃ nd Q', rd (t_nodes t) (np_nodeId (qi_node it)) = Ret nd
    ∧ (if negb (np_pathSize (qi_node it) =? span_size (nd_path nd)) then Ret rest
       else push_children (t_nodes t) (qi_depth it) (edges_order (nd_edges nd)) rest) = Ret Q'
    ∧ top_inv ({[qi_node it]} ∪ S) Q' ∧ size ({[qi_node it]} ∪ S) = Datatypes.S (size S)
    ∧ (monotone → sorted S Q → sorted ({[qi_node it]} ∪ S) Q').
Proof.
  intros Hinv Hp Hmin. destruct (pop_perm _ _ _ _ Hinv Hp) as ((i & k & nd & q & Hpos & Eit) & _ & _ & _ & Hns & _).
  assert (Hi : t_nodes t !! i = Some nd) by apply Hpos. assert (HitQ : it ∈ Q) by (rewrite <- Hp; by left).
  assert (Hsz : size ({[qi_node it]} ∪ S) = Datatypes.S (size S)).
  { rewrite size_union, size_singleton; [done|]. by apply disjoint_singleton_l. }
  exists nd.
  assert (En : qi_node it = npos i k) by by rewrite Eit. assert (Ed : qi_depth it = zlen q) by by rewrite Eit.
  rewrite En in *. rewrite Ed. cbn [npos np_nodeId np_pathSize]. fold (npos i k).
  rewrite (node_span i nd Hi). rewrite (rd_some _ _ nd) by (lia || by rewrite Nat2Z.id).
  destruct (Z.eqb_spec (Z.of_nat k) (zlen (node_path t nd))) as [E|Hne]; cbn [negb].
  - assert (Hk : k = length (node_path t nd)) by (unfold zlen in E; lia). rewrite Hk in *.
    destruct (push_node i nd q rest Hpos) as (items & -> & Hpu). exists (rest ++ items). split; [done|]. split; [done|].
    split; [by eapply step_end|]. split; [done|]. intros Hm Hs. eapply (sorted_step S Q _ i _ nd it); try done.
    + by rewrite Ed.
    + intros y [Hy|Hy]%elem_of_app; [left; rewrite <- Hp; by right|right]. destruct Hpu as [_ Pi Px].
      rewrite Forall_forall in Pi. destruct (Pi y Hy) as (j & l & ndj & qj & (Hj & _) & ->).
      destruct (Px (npos j l)) as [Hx _]. destruct Hx as (x & j' & ndj' & l' & Hx & Hj' & _ & [<- _]%npos_inj).
      { apply list_elem_of_fmap. by exists (item j l ndj (zlen qj)). }
      by exists x, j, ndj.
  - exists rest. split; [done|]. split; [done|].
    split; [eapply step_middle; try done; unfold zlen in Hne; congruence|]. split; [done|].
    intros Hm Hs. eapply (sorted_step S Q _ i _ nd it); try done; [by rewrite Ed|].
    intros y Hy. left. rewrite <- Hp. by right.
Qed.

(** *** Termination *)

Definition all_positions : list NodeOnPath :=
  npos 0 0 :: concat (imap (fun i nd => npos i <$> seq 1 (length (node_path t nd))) (t_nodes t)).

Lemma all_positions_length : length all_positions = positions (t_nodes t).
Proof.
  unfold all_positions, positions. cbn [length].
  assert (Hgen : ∀ nodes off, (∀ i nd, nodes !! i = Some nd → span_size (nd_path nd) = zlen (node_path t nd)) →
    Datatypes.S (length (concat (imap (fun i nd => npos (off + i) <$> seq 1 (length (node_path t nd))) nodes)))
    = foldr (fun nd acc => Z.to_nat (span_size (nd_path nd)) + acc)%nat 1%nat nodes).
  { induction nodes as [|nd nodes IH]; intros off Hn; [done|]. cbn [imap concat foldr]. rewrite length_app, length_fmap, length_seq.
    rewrite (Hn 0%nat nd) by done. unfold zlen. rewrite Nat2Z.id. rewrite <- (IH (Datatypes.S off)).
    - rewrite Nat.add_succ_r. do 4 f_equal. apply imap_ext. intros i x _. cbn. do 2 f_equal. lia.
    - intros i x Hx. by apply (Hn (Datatypes.S i)). }
  apply (Hgen (t_nodes t) 0%nat). apply node_span.
Qed.

Lemma valid_listed i k nd q : at_pos t base i k nd q → npos i k ∈ all_positions.
Proof.
  intros (Hi & Hk & Hor & _). unfold all_positions. destruct (decide (k = 0%nat)) as [->|Hk0].
  - destruct Hor as [?| ->]; [lia|by left].
  - right. apply list_elem_of_In, in_concat. exists (npos i <$> seq 1 (length (node_path t nd))).
    rewrite <- !list_elem_of_In. split.
    + by apply (elem_of_lookup_imap_2 (fun i nd => npos i <$> seq 1 (length (node_path t nd)))).
    + apply list_elem_of_fmap. exists k. split; [done|]. apply elem_of_seq. lia.
Qed.

Lemma selected_bound S Q : top_inv S Q → (size S ≤ positions (t_nodes t))%nat.
Proof.
  intros Hinv. rewrite <- all_positions_length. change (size S) with (length (elements S)).
  apply submseteq_length, NoDup_submseteq; [apply NoDup_elements|].
  intros x (i & k & nd & q & -> & Hpos)%elem_of_elements%(ti_valid _ _ Hinv). by eapply valid_listed.
Qed.

Lemma GetTop_loop_spec count fuel : ∀ S Q, top_inv S Q →
  (positions (t_nodes t) + 1 ≤ fuel + size S)%nat → Z.of_nat (size S) ≤ count ∨ S = ∅ →
  ∃ S' Q', GetTop_loop edges_order fuel (t_nodes t) count S Q = Ret S' ∧ top_inv S' Q'
    ∧ (monotone → sorted S Q → sorted S' Q')
    ∧ (Z.of_nat (size S') = count ∨ (S' = ∅ ∧ count ≤ 0) ∨ (Q' = [] ∧ Z.of_nat (size S') ≤ count)).
Proof.
  induction fuel as [|fuel IH]; intros S Q Hinv Hf Hc; cbn [GetTop_loop].
  all: destruct (Z.ltb_spec (Z.of_nat (size S)) count) as [Hlt|Hge];
    [|exists S, Q; split_and!; try done; destruct Hc as [?| ->]; [left; lia|];
      rewrite size_empty in Hge; right; left; split; [done|lia]].
  all: destruct (decide (Q = [])) as [->|Hne];
    [rewrite pq_pop_nil; exists S, []; split_and!; try done; right; right; split; [done|lia]|].
  all: destruct (pq_pop_some Q Hne) as (it & rest & -> & Hp & Hmin);
    destruct (top_step S Q it rest Hinv Hp Hmin) as (nd & Q' & Hrd & HQ' & Hinv' & Hsz & Hsrt).
  - pose proof (selected_bound _ _ Hinv'). lia.
  - rewrite Hrd. step_ret.
    destruct (IH _ _ Hinv') as (S' & Q'' & HL & Hi' & Hs' & Hend); [lia|left; lia|].
    exists S', Q''. split; [|split; [done|split; [auto|done]]].
    destruct (negb _); [by injection HQ' as ->|]. rewrite HQ'. by step_ret.
Qed.

(** ** What is selected *)

Definition insel S (q : list Z) : Prop := ∃ i k nd, at_pos t base i k nd q ∧ npos i k ∈ S.

Lemma insel_pos S i k nd q : at_pos t base i k nd q → insel S q ↔ npos i k ∈ S.
Proof.
  intros Hpos. split; [|intros ?; by exists i, k, nd]. intros (i' & k' & nd' & Hpos' & ?).
  by destruct (pos_unique _ _ Hok _ _ _ _ _ _ _ Hpos Hpos') as (-> & -> & _).
Qed.

(** A position is offered exactly when the path before it has been selected. *)
Lemma offered_prev S Q q x i k nd : top_inv S Q → at_pos t base i k nd (q ++ [x]) → k = 1%nat →
  offered S i ↔ insel S q.
Proof.
  intros Hinv Hpos Hk. destruct (pos_pred _ _ Hok _ _ _ _ _ Hpos) as [_ [[? _]|[_ (p & np & Hp & He)]]]; [lia|].
  rewrite (insel_pos _ _ _ _ _ Hp). split.
  - intros [->|(p2 & nd2 & x2 & Hp2 & He2 & Hin2)].
    + destruct (ok_edge _ _ Hok p np x _ (proj1 Hp) He) as (j & n & E & Hj & _). by apply (Nat2Z.inj 0) in E.
    + by destruct (parent_unique _ _ _ _ _ _ _ (proj1 Hp) He Hp2 He2) as (-> & -> & _).
  - intros Hin. right. exists p, np, x. split; [apply Hp|done].
Qed.

Lemma insel_prev S Q q x : top_inv S Q → insel S (q ++ [x]) → insel S q.
Proof.
  intros Hinv (i & k & nd & Hpos & Hin).
  destruct (pos_pred _ _ Hok _ _ _ _ _ Hpos) as [_ [[Hk Hpos']|[Hk _]]].
  - exists i, (k - 1)%nat, nd. split; [done|]. apply (ti_prev _ _ Hinv); [lia|]. by replace (k - 1 + 1)%nat with k by lia.
  - apply (offered_prev S Q q x i k nd Hinv Hpos Hk). apply (ti_offered _ _ Hinv _ _ _ _ Hpos). by left.
Qed.

Lemma insel_app S Q q r : top_inv S Q → insel S (q ++ r) → insel S q.
Proof.
  intros Hinv. induction r as [|x r IH] using rev_ind; [by rewrite app_nil_r|].
  rewrite app_assoc. intros ?%(insel_prev _ _ _ _ Hinv). auto.
Qed.

Lemma insel_next S Q q x i k nd : top_inv S Q → insel S q → at_pos t base i k nd (q ++ [x]) →
  npos i k ∈ S ∨ npos i k ∈ qi_node <$> Q.
Proof.
  intros Hinv Hin Hpos. apply (ti_offered _ _ Hinv _ _ _ _ Hpos).
  destruct (pos_pred _ _ Hok _ _ _ _ _ Hpos) as [_ [[Hk Hp]|[Hk _]]].
  - apply (ti_offered _ _ Hinv _ _ _ _ Hp). left. by apply (insel_pos S i _ nd q).
  - by apply (offered_prev S Q q x i k nd).
Qed.

Lemma root_offered S Q : top_inv S Q → npos 0 0 ∈ S ∨ npos 0 0 ∈ qi_node <$> Q.
Proof.
  intros Hinv. destruct (ok_root _ _ Hok) as [_ (r & Hr & _)].
  apply (ti_offered _ _ Hinv 0%nat 0%nat r []); [by apply root_pos|by left].
Qed.

(** With an empty queue everything has been selected. *)
Lemma all_selected S q : top_inv S [] → (∃ i k nd, at_pos t base i k nd q) → insel S q.
Proof.
  intros Hinv. induction q as [|x q IH] using rev_ind; intros (i & k & nd & Hpos).
  - apply (insel_pos S i k nd); [done|]. apply root_pos in Hpos as (-> & -> & _); [|done].
    destruct (root_offered S [] Hinv) as [?|?%elem_of_nil]; done.
  - apply (insel_pos S i k nd); [done|]. destruct (insel_next S [] q x i k nd Hinv) as [?|?%elem_of_nil]; try done.
    apply IH. apply (pos_prefix _ _ Hok q [x] i k nd Hpos).
Qed.

(** What has not been selected is not heavier than some item of the queue. *)
Lemma unselected_light S Q q : monotone → top_inv S Q → ∀ i k nd, at_pos t base i k nd q → npos i k ∉ S →
  ∃ it, it ∈ Q ∧ nd_total nd ≤ - qi_neg_total it.
Proof.
  intros Hm Hinv. induction q as [|x q IH] using rev_ind; intros i k nd Hpos Hns.
  all: assert (Hq : npos i k ∈ qi_node <$> Q → ∃ it, it ∈ Q ∧ nd_total nd ≤ - qi_neg_total it).
  1, 3: intros (it & E & HQ)%list_elem_of_fmap; exists it; split; [done|]; pose proof (ti_items _ _ Hinv) as Hit;
    rewrite Forall_forall in Hit; destruct (item_total it Hm (Hit it HQ)) as (i' & k' & nd' & Hi' & E' & ->);
    rewrite E' in E; apply npos_inj in E as [<- _]; assert (nd' = nd) as -> by (destruct Hpos; congruence); lia.
  - apply root_pos in Hpos as (-> & -> & _); [|done]. destruct (root_offered S Q Hinv); [done|auto].
  - destruct (pos_prefix _ _ Hok q [x] i k nd Hpos) as (j & l & ndj & Hj).
    destruct (decide (npos j l ∈ S)) as [Hin|Hnin].
    { destruct (insel_next S Q q x i k nd Hinv) as [?|?]; [by apply (insel_pos S j l ndj)|done|done|auto]. }
    destruct (IH j l ndj Hj Hnin) as (it & HQ & Hle). exists it. split; [done|].
    destruct (pos_succ _ _ Hok _ _ _ _ _ _ _ _ Hj Hpos) as [(-> & _ & -> & _)|(_ & _ & He)]; [done|].
    destruct (Hm j ndj (proj1 Hj)) as [_ Hd]. specialize (Hd x i nd He (proj1 Hpos)). lia.
Qed.

(** Selected paths are at least as heavy as the others. *)
Lemma selected_heavy S Q i k nd i' k' nd' q q' : monotone → top_inv S Q → sorted S Q →
  at_pos t base i k nd q → npos i k ∈ S → at_pos t base i' k' nd' q' → npos i' k' ∉ S →
  nd_total nd' ≤ nd_total nd.
Proof.
  intros Hm Hinv Hs Hpos Hin Hpos' Hnin.
  destruct (unselected_light S Q q' Hm Hinv i' k' nd' Hpos' Hnin) as (it & HQ & Hle).
  specialize (Hs i k nd it Hin (proj1 Hpos) HQ). lia.
Qed.

(** ** Listing

    The root is listed in any case. *)

Definition sel S (q : list Z) : Prop := q = [] ∨ insel S q.

(** The entry of a path. *)
Definition entry_of (q : list Z) : RetrievedNode :=
  let '(total, own) := default (0, 0) (Lookup t q) in
  mkRetrievedNode total (if decide (q = []) then 0 else own) (zlen q) (default 0 (last q)).

(** [out] lists the selected paths that satisfy [P], each once, so that they can be read
    back by somebody whose last path starts with [b]. *)
Record lists S (b : list Z) (P : list Z → Prop) (out : list (list Z)) : Prop := {
  ls_nodup : NoDup out;
  ls_elem q : q ∈ out ↔ sel S q ∧ P q;
  ls_decode cur : b `prefix_of` cur → decode cur (entry_of <$> out) = out;
}.

Lemma lists_ext S b P P' out : (∀ q, sel S q → P q ↔ P' q) → lists S b P out → lists S b P' out.
Proof. intros HP [H1 H2 H3]. split; [done| |done]. intros q. rewrite H2. specialize (HP q). tauto. Qed.

Lemma lists_nil S b P : (∀ q, sel S q → ¬ P q) → lists S b P [].
Proof. intros HP. split; [constructor| |done]. intros q. split; [by intros ?%elem_of_nil|intros [? ?]; by destruct (HP q)]. Qed.

(** Lists of disjoint sets of paths; the second is read after the last path of the first. *)
Lemma lists_app S b b' P P' out out' : lists S b P out → lists S b' P' out' →
  (∀ cur, b `prefix_of` cur → b' `prefix_of` default cur (last out)) → (∀ q, P q → ¬ P' q) →
  lists S b (fun q => P q ∨ P' q) (out ++ out').
Proof.
  intros [H1 H2 H3] [K1 K2 K3] Hb Hd. split.
  - apply NoDup_app. split_and!; try done. intros q [_ Hq]%H2 [_ Hq']%K2. by apply (Hd q).
  - intros q. rewrite elem_of_app, H2, K2. tauto.
  - intros cur Hc. rewrite fmap_app, decode_app, H3, K3; auto.
Qed.

(** The entry of a path is read back after any path that starts with what precedes it. *)
Lemma decode_entry q x cur rest : q `prefix_of` cur →
  decode cur (entry_of (q ++ [x]) :: rest) = (q ++ [x]) :: decode (q ++ [x]) rest.
Proof.
  intros [s ->]. cbn [decode].
  assert (E : rn_depth (entry_of (q ++ [x])) = zlen q + 1 ∧ rn_key (entry_of (q ++ [x])) = x).
  { unfold entry_of. destruct (default (0, 0) _). cbn. rewrite zlen_app, last_snoc. done. }
  destruct E as [-> ->]. pose proof (zlen_nonneg q). destruct (Z.eqb_spec (zlen q + 1) 0); [lia|].
  replace (Z.to_nat (zlen q + 1 - 1)) with (length q) by (unfold zlen; lia). by rewrite take_app_length.
Qed.

Lemma entry_pos i k nd q : at_pos t base i k nd q → q ≠ [] → entry_of q =
  mkRetrievedNode (nd_total nd) (if decide (k = length (node_path t nd)) then nd_value nd else 0) (zlen q)
    (default 0 (last q)).
Proof.
  intros Hpos Hne. unfold entry_of.
  rewrite (proj2 (Lookup_spec t base Hok q (pos_data t k nd))) by (by exists i, k, nd). cbn.
  by rewrite decide_False.
Qed.

(** The [k]-th path of node [i]. *)
Definition seg_path (i : nat) (nd : Node) (k : nat) : list Z := base i ++ take k (node_path t nd).

Lemma seg_pos i nd k : t_nodes t !! i = Some nd → (0 < k ≤ length (node_path t nd))%nat →
  at_pos t base i k nd (seg_path i nd k).
Proof. intros Hi Hk. split_and!; try done; lia. Qed.

Lemma seg_path_S i nd k x : node_path t nd !! k = Some x → seg_path i nd (k + 1) = seg_path i nd k ++ [x].
Proof. intros Hx. unfold seg_path. rewrite Nat.add_1_r, (take_S_r _ _ _ Hx). by rewrite app_assoc. Qed.

Lemma seg_path_length i nd k : (k ≤ length (node_path t nd))%nat →
  length (seg_path i nd k) = (length (base i) + k)%nat.
Proof. intros Hk. unfold seg_path. rewrite length_app, length_take. lia. Qed.

(** The selected positions of a segment are its first ones. *)
Lemma seg_selected S Q i nd : top_inv S Q → t_nodes t !! i = Some nd →
  ∃ m, (m ≤ length (node_path t nd))%nat ∧
    ∀ k, (0 < k ≤ length (node_path t nd))%nat → npos i k ∈ S ↔ (k ≤ m)%nat.
Proof.
  intros Hinv Hi. induction (length (node_path t nd)) as [|n (m & Hm & IH)].
  { exists 0%nat. split; [done|]. intros k Hk. lia. }
  assert (Hdown : ∀ k l, (0 < k ≤ l)%nat → npos i l ∈ S → npos i k ∈ S).
  { intros k l Hkl. replace l with (k + (l - k))%nat by lia. generalize (l - k)%nat as d.
    induction d as [|d IHd]; [by rewrite Nat.add_0_r|]. intros Hin. apply IHd.
    apply (ti_prev _ _ Hinv); [lia|]. by replace (k + d + 1)%nat with (k + Datatypes.S d)%nat by lia. }
  destruct (decide (npos i (Datatypes.S n) ∈ S)) as [Hin|Hnin].
  - exists (Datatypes.S n). split; [done|]. intros k Hk. split; [lia|]. intros _. by apply (Hdown k (Datatypes.S n)).
  - exists m. split; [lia|]. intros k Hk. destruct (decide (k = Datatypes.S n)) as [->|Hkn].
    + split; [done|lia].
    + apply IH. lia.
Qed.

Lemma retrieve_path_spec S i nd m fuel : ∀ k result, t_nodes t !! i = Some nd →
  (m ≤ length (node_path t nd))%nat →
  (∀ k, (0 < k ≤ length (node_path t nd))%nat → npos i k ∈ S ↔ (k ≤ m)%nat) →
  (k ≤ m)%nat → (length (node_path t nd) - k ≤ fuel)%nat →
  retrieve_path fuel t nd (Z.of_nat i) (zlen (base i)) (Z.of_nat k) S result =
  Ret (bool_decide (m = length (node_path t nd)), result ++ (entry_of <$> (seg_path i nd <$> seq (k + 1) (m - k)))).
Proof.
  induction fuel as [|fuel IH]; intros k result Hi Hm HS Hk Hf; cbn [retrieve_path];
    rewrite (node_span i nd Hi); unfold zlen at 1;
    destruct (Z.ltb_spec (Z.of_nat k) (Z.of_nat (length (node_path t nd)))) as [Hlt|Hge]; try lia.
  1, 3: rewrite bool_decide_eq_true_2 by lia; replace (m - k)%nat with 0%nat by lia; by rewrite app_nil_r.
  pose proof (Hdepth i nd Hi) as Hd. rewrite zlen_app in Hd. pose proof (zlen_nonneg (base i)) as Hb0.
  rewrite !u32_small by (unfold is_u32, zlen in *; lia).
  replace (Z.of_nat k + 1) with (Z.of_nat (k + 1)) by lia. fold (npos i (k + 1)).
  destruct (decide (k = m)) as [->|Hkm].
  { rewrite bool_decide_eq_false_2 by (rewrite HS by lia; lia). cbn [negb].
    rewrite bool_decide_eq_false_2 by lia. rewrite Nat.sub_diag. by rewrite app_nil_r. }
  rewrite bool_decide_eq_true_2 by (apply HS; lia). cbn [negb].
  destruct (lookup_lt_is_Some_2 (node_path t nd) k) as [x Hx]; [lia|].
  destruct (ok_span _ _ Hok _ _ Hi) as [Hs1 _].
  rewrite (node_path_rd t nd k x) by (lia || done). step_ret. rewrite IH by (done || lia). f_equal. f_equal.
  rewrite <- app_assoc. f_equal. replace (m - k)%nat with (Datatypes.S (m - (k + 1))) by lia. cbn [seq fmap list_fmap app].
  replace (Datatypes.S (k + 1)) with (k + 1 + 1)%nat by lia. f_equal.
  pose proof (seg_path_length i nd (k + 1) ltac:(lia)) as Hl.
  assert (Hne : seg_path i nd (k + 1) ≠ []) by (intros E; rewrite E in Hl; cbn in Hl; lia).
  rewrite (entry_pos i (k + 1) nd _ (seg_pos i nd (k + 1) Hi ltac:(lia)) Hne).
  rewrite (seg_path_S i nd k x Hx), last_snoc. f_equal.
  - destruct (decide ((k + 1)%nat = length (node_path t nd))) as [Hc|Hc];
      [rewrite (proj2 (Z.eqb_eq _ _))|rewrite (proj2 (Z.eqb_neq _ _))]; unfold zlen; done || lia.
  - rewrite <- (seg_path_S i nd k x Hx). unfold zlen. rewrite Hl. lia.
Qed.

Lemma seg_decode i nd : t_nodes t !! i = Some nd → ∀ n k cur, (k + n ≤ length (node_path t nd))%nat →
  seg_path i nd k `prefix_of` cur →
  decode cur (entry_of <$> (seg_path i nd <$> seq (k + 1) n)) = seg_path i nd <$> seq (k + 1) n.
Proof.
  intros Hi. induction n as [|n IH]; intros k cur Hk Hc; [done|]. cbn [seq fmap list_fmap].
  destruct (lookup_lt_is_Some_2 (node_path t nd) k) as [x Hx]; [lia|]. rewrite (seg_path_S i nd k x Hx) at 1 2.
  rewrite decode_entry by done. rewrite <- (seg_path_S i nd k x Hx). f_equal.
  replace (Datatypes.S (k + 1)) with (k + 1 + 1)%nat by lia. apply IH; [lia|done].
Qed.

(** The segment of a node, as far as it is selected. *)
Lemma seg_lists S Q i nd m : top_inv S Q → t_nodes t !! i = Some nd → (m ≤ length (node_path t nd))%nat →
  (∀ k, (0 < k ≤ length (node_path t nd))%nat → npos i k ∈ S ↔ (k ≤ m)%nat) →
  lists S (base i) (fun q => ∃ k, (0 < k ≤ length (node_path t nd))%nat ∧ q = seg_path i nd k)
    (seg_path i nd <$> seq 1 m).
Proof.
  intros Hinv Hi Hm HS. split.
  - apply NoDup_fmap_2_strong; [|apply NoDup_seq]. intros k l Hk Hl E. apply elem_of_seq in Hk, Hl.
    apply (f_equal length) in E. rewrite !seg_path_length in E by lia. lia.
  - intros q. rewrite list_elem_of_fmap. split.
    + intros (k & -> & Hk%elem_of_seq). split; [right|exists k; split; [lia|done]].
      exists i, k, nd. split; [apply seg_pos; [done|lia]|]. apply HS; lia.
    + intros [Hsel (k & Hk & ->)]. exists k. split; [done|]. apply elem_of_seq.
      assert (k ≤ m)%nat; [|lia]. apply HS; [done|]. apply (insel_pos S i k nd (seg_path i nd k)); [by apply seg_pos|].
      destruct Hsel as [E|?]; [|done]. apply (f_equal length) in E. rewrite seg_path_length in E by lia. cbn in E. lia.
  - intros cur Hc. apply (seg_decode i nd Hi m 0%nat); [lia|]. unfold seg_path. cbn. by rewrite app_nil_r.
Qed.

(** The paths that enter node [i]. *)
Definition below (i : nat) (nd : Node) (q : list Z) : Prop :=
  i = 0%nat ∨ ∃ x, head (node_path t nd) = Some x ∧ base i ++ [x] `prefix_of` q.

Lemma below_cases i nd j l ndj q : t_nodes t !! i = Some nd → at_pos t base j l ndj q → below i nd q →
  (∃ k, (0 < k ≤ length (node_path t nd))%nat ∧ q = seg_path i nd k) ∨ (i = 0%nat ∧ q = []) ∨
  (∃ y c r, nd_edges nd !! y = Some c ∧ q = (base i ++ node_path t nd) ++ y :: r).
Proof.
  intros Hi Hpos Hbel.
  assert (Hr : ∃ r, q = base i ++ r ∧ enters t i nd r).
  { destruct Hbel as [->|(x & Hh & s & ->)].
    - destruct (ok_root _ _ Hok) as [-> _]. exists q. split; [done|]. split; [done|by left].
    - exists (x :: s). rewrite <- app_assoc. split; [done|]. split; [done|]. right. by rewrite Hh. }
  destruct Hr as (r & -> & He).
  destruct (list_compare (node_path t nd) r) as [Hpre|[(x & s & ->)|(m & x & y & s & u & Hp & -> & Hne)]].
  - apply prefix_split in Hpre as [Hl E]. destruct (decide (r = [])) as [->|Hr0].
    + right; left. destruct He as [_ [->|[? _]]]; [|done]. destruct (ok_root _ _ Hok) as [-> _]. done.
    + left. exists (length r). split; [destruct r; [done|cbn in *; lia]|]. unfold seg_path. by rewrite E.
  - right; right. destruct (nd_edges nd !! x) as [c|] eqn:Ec; [exists x, c, s; by rewrite app_assoc|].
    exfalso. rewrite app_assoc in Hpos. eapply (at_pos_next t base Hok i nd); [by apply end_pos|done|done].
  - exfalso. by eapply (at_pos_diverge t base Hok i nd).
Qed.

Lemma visit_spec S rec edges full children : ∀ res, NoDup children.*2 →
  (∀ y, y ∈ children.*2 → ∃ c, edges !! y = Some c ∧
    ∀ res, ∃ out, rec c res = Ret (res ++ (entry_of <$> out)) ∧ lists S full (fun q => full ++ [y] `prefix_of` q) out) →
  ∃ out, visit rec edges children res = Ret (res ++ (entry_of <$> out))
    ∧ lists S full (fun q => ∃ y, y ∈ children.*2 ∧ full ++ [y] `prefix_of` q) out.
Proof.
  induction children as [|[tot y] children IH]; intros res Hnd Hc; cbn [visit].
  { exists []. rewrite app_nil_r. split; [done|]. apply lists_nil. by intros q _ (y & ?%elem_of_nil & _). }
  apply NoDup_cons in Hnd as [Hny Hnd]. destruct (Hc y) as (c & -> & Hrec); [by left|].
  destruct (Hrec res) as (out & -> & Hl). step_ret.
  destruct (IH (res ++ (entry_of <$> out)) Hnd) as (out' & -> & Hl'); [intros y' Hy'; apply Hc; by right|].
  exists (out ++ out'). rewrite fmap_app, app_assoc. split; [done|].
  eapply lists_ext, (lists_app S full full); [|done|done| |].
  - intros q _. cbn. split.
    + intros [Hq|(y' & Hy' & Hq)]; [exists y; split; [by left|done]|exists y'; split; [by right|done]].
    + intros (y' & [->|Hy']%elem_of_cons & Hq); [by left|right; by exists y'].
  - intros cur Hcur. destruct (last out) as [q|] eqn:E; [|done]. cbn. apply last_Some in E as [l ->].
    destruct (proj1 (ls_elem _ _ _ _ Hl q)) as [_ Hq]; [apply elem_of_app; right; by left|].
    transitivity (full ++ [y]); [by apply prefix_app_r|done].
  - intros q Hq (y' & Hy' & Hq'). apply Hny. destruct Hq as [s ->]. destruct Hq' as [s' E].
    rewrite <- !app_assoc in E. apply app_inv_head in E. injection E as -> _. done.
Qed.

(** The ends of the nodes, by length: how many lie deeper bounds the recursion. *)
Definition end_lengths : list nat := imap (fun i nd => length (base i ++ node_path t nd)) (t_nodes t).
Definition deeper (n : nat) : nat := length (filter (fun l => n < l)%nat end_lengths).

Lemma deeper_lt n n' : (n < n')%nat → n' ∈ end_lengths → (deeper n' < deeper n)%nat.
Proof.
  intros Hn. unfold deeper.
  assert (Hle : ∀ l, (length (filter (fun l => n' < l)%nat l) ≤ length (filter (fun l => n < l)%nat l))%nat).
  { induction l as [|x l IH]; [done|]. rewrite !filter_cons. repeat case_decide; cbn [length]; lia. }
  induction end_lengths as [|x l IH]; intros Hin; [by apply elem_of_nil in Hin|]. rewrite !filter_cons.
  apply elem_of_cons in Hin as [<-|Hin].
  - rewrite (decide_False (P := (n' < n')%nat)), decide_True by lia. cbn [length]. specialize (Hle l). lia.
  - specialize (IH Hin). repeat case_decide; cbn [length]; lia.
Qed.

Lemma order_children_spec l : (∀ x c, (x, c) ∈ l → ∃ j nd, c = Z.of_nat j ∧ t_nodes t !! j = Some nd) →
  ∃ ch, order_children (t_nodes t) l = Ret ch ∧ ch.*2 = l.*1.
Proof.
  induction l as [|[x c] l IH]; intros Hl; cbn [order_children]; [by exists []|].
  destruct (Hl x c) as (j & nd & -> & Hj); [by left|]. rewrite (rd_some _ _ nd) by (lia || by rewrite Nat2Z.id). step_ret.
  destruct IH as (ch & -> & E); [intros y z Hy; apply (Hl y); by right|]. step_ret. eexists. split; [done|]. cbn. by rewrite E.
Qed.

(** The children of a node in the order in which they are visited. *)
Lemma ordered_children i nd : t_nodes t !! i = Some nd →
  ∃ ch, order_children (t_nodes t) (edges_order (nd_edges nd)) = Ret ch
    ∧ NoDup (merge_sort child_ge ch).*2
    ∧ ∀ y, y ∈ (merge_sort child_ge ch).*2 ↔ ∃ c, nd_edges nd !! y = Some c.
Proof.
  intros Hi. destruct (children_known i nd _ (end_pos t base Hok i nd Hi)) as [_ Hch].
  destruct (order_children_spec (edges_order (nd_edges nd))) as (ch & E & Ek).
  { intros x c Hx%Hch. destruct (ok_edge _ _ Hok _ _ _ _ Hi Hx) as (j & n & -> & _ & Hj & _). by exists j, n. }
  assert (Hp : (merge_sort child_ge ch).*2 ≡ₚ (map_to_list (nd_edges nd)).*1)
    by (by rewrite (merge_sort_Permutation child_ge ch), Ek, edges_order_perm).
  exists ch. split; [done|]. split; [rewrite Hp; apply NoDup_fst_map_to_list|].
  intros y. rewrite Hp, list_elem_of_fmap. split.
  - intros ([y' c] & -> & Hy%elem_of_map_to_list). by exists c.
  - intros [c Hc]. exists (y, c). split; [done|]. by apply elem_of_map_to_list.
Qed.

Definition retrieved S i nd fuel : Prop := ∀ res, ∃ out,
  RetrieveNodes edges_order fuel t (Z.of_nat i) (zlen (base i)) S res = Ret (res ++ (entry_of <$> out))
  ∧ lists S (base i) (below i nd) out.

(** The children of a node whose segment is selected to its end. *)
Lemma retrieve_children S Q i nd fuel ch (full := base i ++ node_path t nd) : top_inv S Q → t_nodes t !! i = Some nd →
  (∀ j ndj, t_nodes t !! j = Some ndj → (length full < length (base j ++ node_path t ndj))%nat → retrieved S j ndj fuel) →
  NoDup ch.*2 → (∀ y, y ∈ ch.*2 ↔ ∃ c, nd_edges nd !! y = Some c) →
  ∀ res, ∃ out,
    visit (fun childId result => RetrieveNodes edges_order fuel t childId (zlen full) S result) (nd_edges nd) ch res
      = Ret (res ++ (entry_of <$> out))
    ∧ lists S full (fun q => ∃ y c, nd_edges nd !! y = Some c ∧ full ++ [y] `prefix_of` q) out.
Proof.
  intros Hinv Hi IH Hnd Hch res.
  destruct (visit_spec S (fun childId result => RetrieveNodes edges_order fuel t childId (zlen full) S result)
    (nd_edges nd) full ch res Hnd) as (out & Ev & Hl).
  - intros y [c Hc]%Hch. exists c. split; [done|].
    destruct (ok_edge _ _ Hok _ _ _ _ Hi Hc) as (j & ndj & -> & Hj0 & Hj & Hh & Hb).
    intros res'. destruct (IH j ndj Hj) with (res := res') as (out & E & Hl).
    { rewrite Hb. fold full. rewrite length_app. pose proof (ok_nonempty _ _ Hok j ndj Hj Hj0).
      destruct (node_path t ndj); [done|cbn; lia]. }
    fold full in Hb. rewrite Hb in E, Hl. exists out. split; [done|]. eapply lists_ext; [|done].
    intros q _. unfold below. rewrite Hh, Hb. split; [by intros [?|(x & [= ->] & ?)]|intros ?; right; by exists y].
  - exists out. split; [done|]. eapply lists_ext; [|done]. intros q _. cbn. split.
    + intros (y & [c Hc]%Hch & Hq). by exists y, c.
    + intros (y & c & Hc & Hq). exists y. split; [apply Hch; by exists c|done].
Qed.

(** The selected paths below a node: its segment, and what the edges lead to. *)
Lemma below_selected S Q i nd q (full := base i ++ node_path t nd) : top_inv S Q → t_nodes t !! i = Some nd → sel S q →
  below i nd q ↔ (∃ k, (0 < k ≤ length (node_path t nd))%nat ∧ q = seg_path i nd k) ∨ (i = 0%nat ∧ q = []) ∨
                 (∃ y c, nd_edges nd !! y = Some c ∧ full ++ [y] `prefix_of` q).
Proof.
  intros Hinv Hi Hsel. split.
  - intros Hbel. destruct Hsel as [->|(j & l & ndj & Hpos & _)].
    { right; left. destruct Hbel as [->|(x & _ & E%prefix_nil_inv)]; [done|by apply app_nil in E as [_ ?]]. }
    destruct (below_cases i nd j l ndj q Hi Hpos Hbel) as [?|[?|(y & c & r & Hc & ->)]]; [by left|by right; left|].
    right; right. exists y, c. split; [done|]. exists r. apply (app_assoc full [y] r).
  - destruct (decide (i = 0%nat)) as [->|Hi0]; [by left|]. intros Hq. right.
    destruct (node_path t nd) as [|x p] eqn:Ep; [by pose proof (ok_nonempty _ _ Hok i nd Hi Hi0)|]. exists x. split; [done|].
    destruct Hq as [(k & Hk & ->)|[[? _]|(y & c & _ & s & ->)]]; [|done|].
    + unfold seg_path. rewrite Ep. apply prefix_app. destruct k; [lia|]. cbn. by exists (take k p).
    + unfold full. rewrite <- !app_assoc. apply prefix_app. by exists (p ++ [y] ++ s).
Qed.

(** A segment that is not selected to its end is all there is. *)
Lemma seg_incomplete S Q i nd m out : top_inv S Q → t_nodes t !! i = Some nd → m ≠ length (node_path t nd) →
  (m ≤ length (node_path t nd))%nat →
  (∀ k, (0 < k ≤ length (node_path t nd))%nat → npos i k ∈ S ↔ (k ≤ m)%nat) →
  lists S (base i) (fun q => ∃ k, (0 < k ≤ length (node_path t nd))%nat ∧ q = seg_path i nd k) out →
  lists S (base i) (below i nd) out.
Proof.
  intros Hinv Hi Hm Hle HS. apply lists_ext. intros q Hsel. rewrite (below_selected S Q i nd q Hinv Hi Hsel).
  split; [by left|]. intros [?|[[-> _]|(y & c & Hc & s & ->)]]; [done| |]; exfalso.
  - destruct (ok_root _ _ Hok) as [_ (r & Hr & E)]. assert (nd = r) as Er by congruence. rewrite Er, E in Hm, Hle.
    cbn in Hm, Hle. lia.
  - pose proof (end_pos t base Hok i nd Hi) as Hend.
    destruct Hsel as [E|Hin]; [apply (f_equal length) in E; rewrite !length_app in E; cbn in E; lia|].
    rewrite <- app_assoc in Hin. apply (insel_app S Q _ _ Hinv), (insel_pos S _ _ _ _ Hend) in Hin.
    apply HS in Hin; [lia|]. destruct (node_end t base Hok i nd Hi) as [?|Hi0]; [lia|].
    destruct (ok_root _ _ Hok) as [_ (r & Hr & E)]. rewrite Hi0 in Hi. assert (nd = r) as Er by congruence.
    rewrite Er, E in Hm, Hle. cbn in Hm, Hle. lia.
Qed.

(** The entry of the root, added by hand. *)
Lemma root_lists S nd : t_nodes t !! 0%nat = Some nd →
  mkRetrievedNode (nd_total nd) 0 0 0 = entry_of [] ∧ lists S [] (fun q => q = []) [[]].
Proof.
  intros Hi. assert (E : mkRetrievedNode (nd_total nd) 0 0 0 = entry_of []).
  { unfold entry_of. rewrite (proj2 (Lookup_spec t base Hok [] (pos_data t 0 nd))); [done|].
    exists 0%nat, 0%nat, nd. split; [by apply root_pos|done]. }
  split; [done|]. split; [apply NoDup_singleton| |].
  - intros q. rewrite list_elem_of_singleton. split; [intros ->; split; [by left|done]|by intros [_ ?]].
  - intros cur _. cbn [fmap list_fmap]. rewrite <- E. done.
Qed.

Lemma RetrieveNodes_spec S Q fuel : top_inv S Q → ∀ i nd, t_nodes t !! i = Some nd →
  (deeper (length (base i ++ node_path t nd)) < fuel)%nat → retrieved S i nd fuel.
Proof.
  intros Hinv. induction fuel as [|fuel IH]; intros i nd Hi Hf res; [lia|]. cbn [RetrieveNodes].
  rewrite (rd_some _ _ nd) by (lia || by rewrite Nat2Z.id). step_ret. rewrite (node_span i nd Hi).
  destruct (seg_selected S Q i nd Hinv Hi) as (m & Hm & HS).
  pose proof (retrieve_path_spec S i nd m (Z.to_nat (zlen (node_path t nd))) 0 res Hi Hm HS) as Hret.
  change (Z.of_nat 0) with 0 in Hret. rewrite Hret by (unfold zlen; lia). clear Hret. step_ret.
  rewrite Nat.sub_0_r. change (0 + 1)%nat with 1%nat.
  pose proof (seg_lists S Q i nd m Hinv Hi Hm HS) as Hseg.
  case_bool_decide as Hcomp; cbn [negb]; [|eexists; split; [done|by eapply seg_incomplete]].
  destruct (ordered_children i nd Hi) as (ch & -> & Hnd & Hch). step_ret.
  assert (Hfull : u32 (zlen (base i) + zlen (node_path t nd)) = zlen (base i ++ node_path t nd)).
  { rewrite <- zlen_app. apply u32_small. pose proof (zlen_nonneg (base i ++ node_path t nd)). split; [done|by apply Hdepth]. }
  rewrite Hfull. set (full := base i ++ node_path t nd) in *.
  assert (Hrec : ∀ j ndj, t_nodes t !! j = Some ndj → (length full < length (base j ++ node_path t ndj))%nat →
    retrieved S j ndj fuel).
  { intros j ndj Hj Hlt. apply IH; [done|]. eapply Nat.lt_le_trans; [apply deeper_lt; [done|]|lia].
    by apply (elem_of_lookup_imap_2 (fun i nd => length (base i ++ node_path t nd))). }
  destruct (Z.eqb_spec (Z.of_nat i) 0) as [Ei|Ei].
  - assert (i = 0%nat) as -> by lia. destruct (ok_root _ _ Hok) as [Hb0 (r & Hr & Hp0)].
    assert (nd = r) as <- by congruence. destruct (root_lists S nd Hi) as [Eroot Hroot].
    destruct (retrieve_children S Q 0 nd fuel _ Hinv Hi Hrec Hnd Hch
      ((res ++ (entry_of <$> (seg_path 0 nd <$> seq 1 m))) ++ [mkRetrievedNode (nd_total nd) 0 (zlen (base 0%nat)) 0]))
      as (out & Ev & Hl). fold full in Ev, Hl. rewrite Ev. clear Ev.
    rewrite Hp0 in Hm. cbn in Hm. assert (m = 0%nat) as -> by lia. exists ([] :: out). split.
    { cbn [seq fmap list_fmap]. rewrite app_nil_r, Hb0. change (zlen []) with 0. by rewrite Eroot, <- app_assoc. }
    eapply lists_ext, (lists_app S (base 0%nat) _ (fun q => q = []) _ [[]] out); [|by rewrite Hb0|done| |].
    + intros q Hsel. rewrite (below_selected S Q 0 nd q Hinv Hi Hsel). fold full. rewrite Hp0. cbn. split.
      * intros [->|?]; [by right; left|by right; right].
      * intros [(k & ? & _)|[[_ ?]|?]]; [lia|by left|by right].
    + intros cur _. cbn. subst full. by rewrite Hb0, Hp0.
    + intros q -> (y & c & _ & E%prefix_nil_inv). by apply app_nil in E as [_ ?].
  - destruct (retrieve_children S Q i nd fuel _ Hinv Hi Hrec Hnd Hch (res ++ (entry_of <$> (seg_path i nd <$> seq 1 m))))
      as (out & Ev & Hl). fold full in Ev, Hl. rewrite Ev. clear Ev.
    exists ((seg_path i nd <$> seq 1 m) ++ out). rewrite (fmap_app entry_of), app_assoc. split; [done|].
    eapply lists_ext, (lists_app S (base i) _ _ _ _ out Hseg Hl).
    + intros q Hsel. rewrite (below_selected S Q i nd q Hinv Hi Hsel). fold full. split; [intros [?|?]; auto|].
      intros [?|[[? _]|?]]; [by left|lia|by right].
    + intros cur _. destruct (node_end t base Hok i nd Hi) as [Hlen|?]; [|lia].
      rewrite Hcomp. destruct (length (node_path t nd)) as [|n] eqn:El; [lia|].
      rewrite seq_S, fmap_app, last_app. cbn. unfold seg_path, full. rewrite take_ge by lia. done.
    + intros q (k & Hk & ->) (y & c & _ & Hpre). apply prefix_length in Hpre.
      rewrite seg_path_length, length_app in Hpre by lia. unfold full in Hpre. rewrite length_app in Hpre. cbn in Hpre. lia.
Qed.

(** As many paths are listed as positions are selected, and the root. *)
Definition path_at (x : NodeOnPath) : list Z :=
  match t_nodes t !! Z.to_nat (np_nodeId x) with
  | Some nd => base (Z.to_nat (np_nodeId x)) ++ take (Z.to_nat (np_pathSize x)) (node_path t nd)
  | None => []
  end.

Lemma path_at_pos i k nd q : at_pos t base i k nd q → path_at (npos i k) = q.
Proof. intros (Hi & _ & _ & ->). unfold path_at. cbn. rewrite !Nat2Z.id, Hi. done. Qed.

Lemma listed_length S Q b out : top_inv S Q → lists S b (fun _ => True) out →
  length out = Nat.max 1 (size S).
Proof.
  intros Hinv [H1 H2 _]. destruct (decide (S = ∅)) as [->|Hne].
  - rewrite size_empty. assert (out ≡ₚ [[]]) as ->; [|done].
    apply NoDup_Permutation; [done|apply NoDup_singleton|]. intros q. rewrite H2, list_elem_of_singleton.
    split; [intros [[?|(i & k & nd & _ & ?%elem_of_empty)] _]; done|intros ->; split; [by left|done]].
  - assert (Hroot : insel S []).
    { apply set_choose_L in Hne as [x Hx]. destruct (ti_valid _ _ Hinv x Hx) as (i & k & nd & q & -> & Hpos).
      apply (insel_app S Q [] q Hinv). by exists i, k, nd. }
    assert (out ≡ₚ path_at <$> elements S) as ->.
    + apply NoDup_Permutation; [done| |].
      * apply NoDup_fmap_2_strong; [|apply NoDup_elements].
        intros x y (i & k & nd & q & -> & Hx)%elem_of_elements%(ti_valid _ _ Hinv)
          (j & l & nd' & q' & -> & Hy)%elem_of_elements%(ti_valid _ _ Hinv) E.
        rewrite (path_at_pos _ _ _ _ Hx), (path_at_pos _ _ _ _ Hy) in E. subst q'.
        by destruct (pos_unique _ _ Hok _ _ _ _ _ _ _ Hx Hy) as (-> & -> & _).
      * intros q. rewrite H2, list_elem_of_fmap. split.
        -- intros [[->|(i & k & nd & Hpos & Hin)] _]; [destruct Hroot as (i & k & nd & Hpos & Hin)|];
             exists (npos i k); rewrite (path_at_pos _ _ _ _ Hpos), elem_of_elements; done.
        -- intros (x & -> & Hx%elem_of_elements). destruct (ti_valid _ _ Hinv x Hx) as (i & k & nd & q & -> & Hpos).
           rewrite (path_at_pos _ _ _ _ Hpos). split; [|done]. right. by exists i, k, nd.
    + rewrite length_fmap. change (length (elements S)) with (size S).
      assert (size S ≠ 0)%nat; [|lia]. intros E. by apply Hne, leibniz_equiv, size_empty_iff.
Qed.

(** The result of [GetTop]. *)
Lemma GetTop_spec count : 0 ≤ count → ∃ S Q out, GetTop edges_order t count = Ret (entry_of <$> out)
  ∧ top_inv S Q ∧ (monotone → sorted S Q) ∧ lists S [] (fun _ => True) out
  ∧ (Z.of_nat (size S) = count ∨ (Q = [] ∧ 0 < Z.of_nat (size S) ≤ count)).
Proof.
  intros Hc. destruct (ok_root _ _ Hok) as [Hb (nd & Hi & Hp)]. unfold GetTop.
  rewrite (rd_some _ 0 nd) by done. step_ret.
  destruct (GetTop_loop_spec count (Datatypes.S (positions (t_nodes t))) ∅ _ (top_inv_start nd Hi))
    as (S & Q & -> & Hinv & Hs & Hend); [lia|by right|]. step_ret.
  destruct (RetrieveNodes_spec S Q (Datatypes.S (length (t_nodes t))) Hinv 0%nat nd Hi) with (res := @nil RetrievedNode)
    as (out & E & Hl).
  { unfold deeper. pose proof (length_filter (fun l => length (base 0%nat ++ node_path t nd) < l)%nat end_lengths) as Hle.
    unfold end_lengths in Hle at 2. rewrite length_imap in Hle. lia. }
  rewrite Hb in E, Hl. change (zlen []) with 0 in E. change (Z.of_nat 0) with 0 in E. rewrite E.
  exists S, Q, out. split; [done|]. split; [done|]. split.
  { intros Hm. apply Hs; [done|]. by intros i k n it ?%elem_of_empty. }
  split; [eapply lists_ext; [|done]; intros q _; split; [done|by left]|].
  destruct Hend as [?|[[-> ?]|[-> ?]]]; [by left|left; rewrite size_empty; lia|right]. split; [done|]. split; [|done].
  assert (size S ≠ 0)%nat; [|lia]. intros E0%size_empty_iff%leibniz_equiv. rewrite E0 in Hinv.
  destruct (root_offered ∅ [] Hinv) as [?%elem_of_empty|?%elem_of_nil]; done.
Qed.
End search.

(** ** Whole profiles *)

Lemma weight_nonneg L q : Forall (fun e => 0 ≤ e.2) L → 0 ≤ weight L q.
Proof. unfold weight. induction 1 as [|e L He _ IH]; cbn [foldr]; [done|]. case_decide; lia. Qed.

Lemma weight_mono L q r : Forall (fun e => 0 ≤ e.2) L → weight L (q ++ r) ≤ weight L q.
Proof.
  unfold weight. induction 1 as [|e L He _ IH]; cbn [foldr]; [done|].
  destruct (decide (q ++ r `prefix_of` e.1)) as [Hp|Hp].
  - rewrite decide_True; [lia|]. etransitivity; [|done]. by apply prefix_app_r.
  - case_decide; lia.
Qed.

Lemma known_short L q : known L q → zlen q ≤ keys L.
Proof.
  unfold known. intros [->|H]; [apply keys_nonneg|].
  induction H as [e L H|e L H IH]; change (keys (e :: L)) with (zlen e.1 + keys L).
  - apply prefix_length in H. pose proof (keys_nonneg L). unfold zlen in *. lia.
  - pose proof (zlen_nonneg e.1). lia.
Qed.

Section profile.
Context (L : list (list Z * Z)) (t : CompressedTrie) (base : nat → list Z) (Hok : trie_ok t base).
Context (Hview : ∀ q, Lookup t q = trie_view L q).

Lemma known_pos q : known L q ↔ ∃ i k nd, at_pos t base i k nd q.
Proof.
  assert (Hs : known L q ↔ is_Some (Lookup t q)).
  { rewrite Hview. unfold trie_view. case_decide; split; try done; by intros [? ?]. }
  rewrite Hs. split.
  - intros [a (i & k & nd & Hpos & _)%(Lookup_spec _ _ Hok)]. by exists i, k, nd.
  - intros (i & k & nd & Hpos). exists (pos_data t k nd). apply (Lookup_spec _ _ Hok). by exists i, k, nd.
Qed.

Lemma pos_weight i k nd q : at_pos t base i k nd q → nd_total nd = i64 (weight L q).
Proof.
  intros Hpos. assert (E : Lookup t q = Some (pos_data t k nd)) by (apply (Lookup_spec _ _ Hok); by exists i, k, nd).
  rewrite Hview in E. unfold trie_view in E. case_decide; [|done]. by injection E as <- _.
Qed.

Lemma pos_weight_exact i k nd q : Forall (fun e => 0 ≤ e.2) L → weight L [] < 2 ^ 63 → at_pos t base i k nd q →
  nd_total nd = weight L q ∧ 0 ≤ weight L q < 2 ^ 63.
Proof.
  intros Hpos Hw Hp. pose proof (weight_mono L [] q Hpos) as Hm. pose proof (weight_nonneg L q Hpos). cbn in Hm.
  rewrite (pos_weight i k nd q Hp). split; [|lia]. apply i64_small. unfold is_i64. lia.
Qed.

Lemma profile_monotone : Forall (fun e => 0 ≤ e.2) L → weight L [] < 2 ^ 63 → monotone t.
Proof.
  intros Hpos Hw i nd Hi. pose proof (end_pos t base Hok i nd Hi) as He.
  destruct (pos_weight_exact _ _ _ _ Hpos Hw He) as [-> ?]. split; [done|].
  intros x j ndj Hx Hj. destruct (ok_edge _ _ Hok _ _ _ _ Hi Hx) as (j' & n & E & _ & Hn & _ & Hb).
  apply Nat2Z.inj in E as <-. pose proof (end_pos t base Hok j ndj Hj) as Hej.
  destruct (pos_weight_exact _ _ _ _ Hpos Hw Hej) as [-> _]. rewrite Hb. by apply weight_mono.
Qed.
End profile.

(** The trie of a profile meets the conditions of the search. *)
Lemma profile_ready L t : 4 + 2 * zlen L < 2 ^ 32 → keys L < 2 ^ 32 → Appends CompressedTrie_ctor L = Ret t →
  ∃ base, trie_ok t base ∧ (∀ q, Lookup t q = trie_view L q) ∧ zlen (t_paths t) < 2 ^ 32
    ∧ ∀ i nd, t_nodes t !! i = Some nd → zlen (base i ++ node_path t nd) < 2 ^ 32.
Proof.
  intros Hn Hk Happ. destruct (Appends_ctor L Hn Hk) as (t0 & base & E0 & Hok & Hview & Sn & Sp).
  rewrite Happ in E0. injection E0 as <-. exists base. split_and!; [done..|lia|].
  intros i nd Hi. enough (known L (base i ++ node_path t nd)) as ?%known_short by lia.
  apply (known_pos L t base Hok Hview). eexists _, _, _. by apply end_pos.
Qed.

(** What the entry of a path has to say. *)
Definition entry_ok (L : list (list Z * Z)) (q : list Z) (e : RetrievedNode) : Prop :=
  e = mkRetrievedNode (i64 (weight L q)) (if decide (q = []) then 0 else i64 (own L q)) (zlen q) (default 0 (last q)).

(** ** Properties *)

(** C30: for any profile and any count, reading the result of [GetTop] back gives paths of
    the profile, each once, that form a subtree with the root; every entry has the total
    weight below its path, the weight of the stacks that end in it (0 for the root), its
    depth and its last key; there are [count] of them (one for 0), or they are all paths of
    the profile; and when weights are not negative no path left out is heavier than one
    that is listed. *)
Theorem top_nodes `{!MinQueue} (edges_order : gmap Z Z → list (Z * Z)) L t count :
  (∀ m, edges_order m ≡ₚ map_to_list m) → 4 + 2 * zlen L < 2 ^ 32 → keys L < 2 ^ 32 → 0 ≤ count →
  Appends CompressedTrie_ctor L = Ret t →
  ∃ res, GetTop edges_order t count = Ret res ∧
    let paths := decode [] res in
    NoDup paths ∧ [] ∈ paths ∧ (∀ q x, q ++ [x] ∈ paths → q ∈ paths) ∧ (∀ q, q ∈ paths → known L q)
    ∧ Forall2 (entry_ok L) paths res
    ∧ zlen res ≤ Z.max 1 count ∧ (zlen res = Z.max 1 count ∨ ∀ q, known L q → q ∈ paths)
    ∧ (Forall (fun e => 0 ≤ e.2) L → weight L [] < 2 ^ 63 →
       ∀ q q', q ∈ paths → known L q' → q' ∉ paths → weight L q' ≤ weight L q).
Proof.
  intros Hord Hn Hk Hc Happ. destruct (profile_ready L t Hn Hk Happ) as (base & Hok & Hview & Sp & Hdepth).
  pose proof (known_pos L t base Hok Hview) as Hkp.
  destruct (GetTop_spec edges_order Hord t base Hok Sp Hdepth count Hc)
    as (S & Q & out & -> & Hinv & Hsrt & Hl & Hend).
  pose proof (listed_length t base Hok S Q [] out Hinv Hl) as Hlen.
  assert (Hroot : ∃ i k nd, at_pos t base i k nd []) by (apply Hkp; by left).
  destruct Hl as [L1 L2 L3]. exists (entry_of t <$> out). split; [done|]. cbv zeta.
  rewrite L3 by apply prefix_nil.
  assert (Hel : ∀ q, q ∈ out ↔ sel t base S q) by (intros q; rewrite L2; tauto). clear L2.
  assert (Hsk : ∀ q, sel t base S q → known L q).
  { intros q [->|(i & k & nd & Hpos & _)]; [by left|]. apply Hkp. by exists i, k, nd. }
  assert (Hz : zlen (entry_of t <$> out) = Z.max 1 (Z.of_nat (size S))) by (unfold zlen; rewrite length_fmap; lia).
  split_and!; [done| | | | | | |].
  - apply Hel. by left.
  - intros q x [Hq|Hq]%Hel; [by destruct q|]. apply Hel. right. by eapply insel_prev.
  - intros q Hq%Hel. auto.
  - apply Forall2_fmap_r, Forall_Forall2_diag, Forall_forall. intros q Hq%Hel%Hsk. unfold entry_ok, entry_of, compose.
    rewrite Hview. unfold trie_view. by rewrite decide_True.
  - rewrite Hz. destruct Hend as [?|[_ ?]]; lia.
  - rewrite Hz. destruct Hend as [->|[-> _]]; [by left|right]. intros q Hq%Hkp. apply Hel. right.
    by apply all_selected.
  - intros Hpos Hw q q' Hq Hq' Hnq'. rewrite Hel in Hq, Hnq'. specialize (Hsrt (profile_monotone L t base Hok Hview Hpos Hw)).
    destruct Hq as [->|(i & k & nd & Hp & Hin)]; [apply (weight_mono L [] q' Hpos)|].
    apply Hkp in Hq' as (i' & k' & nd' & Hp').
    destruct (pos_weight_exact L t base Hok Hview _ _ _ _ Hpos Hw Hp) as [<- _].
    destruct (pos_weight_exact L t base Hok Hview _ _ _ _ Hpos Hw Hp') as [<- _].
    apply (selected_heavy t base Hok S Q i k nd i' k' nd' q q'); try done; [by apply profile_monotone with L base|].
    intros Hin'. apply Hnq'. right. by exists i', k', nd'.
Qed.

Lemma top_nodes_witness :
  let L := [([1; 2; 3], 10); ([1; 2; 4], 5); ([1; 5], 3)] in
  ∃ t res, Appends CompressedTrie_ctor L = Ret t ∧ GetTop map_to_list t 4 = Ret res
    ∧ decode [] res = [[]; [1]; [1; 2]; [1; 2; 3]] ∧ zlen res ≤ Z.max 1 4 ∧ weight L [1; 5] ≤ weight L [1; 2; 3].
Proof.
  intros L. destruct (Appends CompressedTrie_ctor L) as [t| |] eqn:E; [|by vm_compute in E..].
  destruct (top_nodes map_to_list L t 4) as (res & Hres & Hp).
  - done.
  - vm_compute. reflexivity.
  - vm_compute. reflexivity.
  - lia.
  - done.
  - cbv zeta in Hp. destruct Hp as (_ & _ & _ & _ & _ & Hlen & _ & Hheavy).
    assert (Hd : decode [] res = [[]; [1]; [1; 2]; [1; 2; 3]]).
    { vm_compute in E. injection E as <-. vm_compute in Hres. injection Hres as <-. by vm_compute. }
    exists t, res. split; [done|]. split; [done|]. split; [done|]. split; [done|]. rewrite Hd in Hheavy. apply Hheavy.
    + repeat (constructor; [cbn; lia|]). constructor.
    + vm_compute. reflexivity.
    + right; right; right; left.
    + right. right; right; left. by exists [].
    + intros H. repeat (apply elem_of_cons in H as [[=]|H]). by apply elem_of_nil in H.
Defined.
