(* ===== verification/FromChars.v ===== *)
(** * Decimal numbers of the C++ standard library

    [std::from_chars] on integers, as the flame graph tool and the configuration use it, and
    the output of integers on a stream.  Text is a list of character codes.  The standard:
    an optional minus sign (signed types only) and the longest run of digits are consumed;
    without a digit nothing is consumed and the error is [invalid_argument]; a value that
    does not fit gives [result_out_of_range] after all digits; the value is stored only
    without an error. *)

From Stdlib Require Import ZArith Lia.
From stdpp Require Import base numbers list strings.
From S2P Require Import Prelude.

Abbreviation text := (list Z).

(** The characters of a literal. *)
Definition str (s : string) : text := (fun c => Z.of_nat (Ascii.nat_of_ascii c)) <$> String.list_ascii_of_string s.

Definition is_digit (c : Z) : bool := (48 <=? c) && (c <=? 57).

Fixpoint span_digits (s : text) : text * text :=
  match s with
  | [] => ([], [])
  | c :: s' => if is_digit c then let '(ds, rest) := span_digits s' in (c :: ds, rest) else ([], s)
  end.

Definition digits_value (ds : text) : Z := foldl (fun acc c => 10 * acc + (c - 48)) 0 ds.

Inductive errc := EcOk | EcInvalidArgument | EcOutOfRange.

#[export] Instance errc_eq_dec : EqDecision errc.
Proof. solve_decision. Defined.

(** The integer types that are parsed. *)
Record int_type := mkIntType { it_signed : bool; it_min : Z; it_max : Z }.
Definition T_int64 := mkIntType true (- 2 ^ 63) (2 ^ 63 - 1).
Definition T_int32 := mkIntType true (- 2 ^ 31) (2 ^ 31 - 1).
Definition T_uint64 := mkIntType false 0 (2 ^ 64 - 1).
Definition T_uint32 := mkIntType false 0 (2 ^ 32 - 1).
Definition T_uint8 := mkIntType false 0 (2 ^ 8 - 1).

(** The pointer behind what was read (as the rest of the text), the error and the value. *)
Definition from_chars (ty : int_type) (s : text) : text * errc * Z :=
  let '(neg, body) := match s with 45 :: s' => if it_signed ty then (true, s') else (false, s) | _ => (false, s) end in
  let '(ds, rest) := span_digits body in
  match ds with
  | [] => (s, EcInvalidArgument, 0)
  | _ =>
    let v := if neg then - digits_value ds else digits_value ds in
    if (it_min ty <=? v) && (v <=? it_max ty) then (rest, EcOk, v) else (rest, EcOutOfRange, 0)
  end.

(** ** Printing *)

(** Decimal digits of a number that is not negative, least significant first. *)
Fixpoint dec_digits (fuel : nat) (n : Z) : text :=
  match fuel with
  | O => []
  | S fuel => (48 + n mod 10) :: (if n <? 10 then [] else dec_digits fuel (n / 10))
  end.

Definition print_nat (n : Z) : text := reverse (dec_digits (S (Z.to_nat (Z.log2 n))) n).
Definition print_int (n : Z) : text := if n <? 0 then 45 :: print_nat (- n) else print_nat n.

(** ** Lemmas *)

Lemma digits_value_app a b : digits_value (a ++ b) = digits_value a * 10 ^ zlen b + digits_value b.
Proof.
  unfold digits_value. rewrite foldl_app. generalize (foldl (fun acc c => 10 * acc + (c - 48)) 0 a) as x.
  induction b as [|c b IH] using rev_ind; intros x; [change (zlen []) with 0; cbn; lia|].
  rewrite !foldl_app, zlen_app. cbn [foldl]. rewrite IH. change (zlen [c]) with 1.
  rewrite Z.pow_add_r by (apply zlen_nonneg || lia). lia.
Qed.

Lemma is_digit_spec c : is_digit c = true ↔ 48 ≤ c ≤ 57.
Proof. unfold is_digit. rewrite andb_true_iff, !Z.leb_le. done. Qed.

Lemma dec_digits_spec fuel : ∀ n, 0 ≤ n < 2 ^ Z.of_nat fuel →
  Forall (fun c => is_digit c = true) (dec_digits fuel n) ∧
  (fuel ≠ 0%nat → dec_digits fuel n ≠ []) ∧ digits_value (reverse (dec_digits fuel n)) = n.
Proof.
  induction fuel as [|fuel IH]; intros n Hn; cbn [dec_digits].
  { split; [constructor|]. split; [done|]. change (2 ^ Z.of_nat 0) with 1 in Hn. cbn. lia. }
  pose proof (Z.mod_pos_bound n 10 ltac:(lia)) as Hm. pose proof (Z.div_mod n 10 ltac:(lia)) as Hd.
  rewrite Nat2Z.inj_succ, Z.pow_succ_r in Hn by lia.
  assert (Hc : is_digit (48 + n mod 10) = true) by (apply is_digit_spec; lia).
  split; [|split; [done|]].
  - constructor; [done|]. destruct (Z.ltb_spec n 10); [constructor|]. apply IH.
    assert (0 ≤ n / 10) by (apply Z.div_pos; lia). nia.
  - rewrite reverse_cons, digits_value_app. change (zlen [48 + n mod 10]) with 1.
    change (digits_value [48 + n mod 10]) with (10 * 0 + (48 + n mod 10 - 48)).
    destruct (Z.ltb_spec n 10) as [Hlt|Hge].
    + cbn -[Z.modulo]. rewrite Z.mod_small; lia.
    + assert (Hdiv : 0 ≤ n / 10 < 2 ^ Z.of_nat fuel).
      { split; [apply Z.div_pos; lia|]. nia. }
      destruct (IH (n / 10) Hdiv) as (_ & _ & ->). lia.
Qed.

Lemma log2_fuel n : 0 ≤ n → 0 ≤ n < 2 ^ Z.of_nat (S (Z.to_nat (Z.log2 n))).
Proof.
  intros Hn. split; [done|]. rewrite Nat2Z.inj_succ, Z2Nat.id by apply Z.log2_nonneg.
  destruct (decide (n = 0)) as [->|Hne]; [done|]. apply Z.log2_spec. lia.
Qed.

Lemma print_nat_spec n : 0 ≤ n →
  Forall (fun c => is_digit c = true) (print_nat n) ∧ print_nat n ≠ [] ∧ digits_value (print_nat n) = n.
Proof.
  intros Hn. unfold print_nat. destruct (dec_digits_spec _ n (log2_fuel n Hn)) as (H1 & H2 & H3).
  split; [|split; [|done]].
  - by apply Forall_reverse.
  - intros E%(f_equal reverse). rewrite reverse_involutive in E. by apply H2.
Qed.

(** Digits followed by something else. *)
Lemma span_digits_app ds rest : Forall (fun c => is_digit c = true) ds →
  (∀ c, head rest = Some c → is_digit c = false) → span_digits (ds ++ rest) = (ds, rest).
Proof.
  intros Hd Hr. induction Hd as [|c ds Hc _ IH]; cbn [app span_digits].
  - destruct rest as [|c rest]; [done|]. cbn. by rewrite (Hr c).
  - by rewrite Hc, IH.
Qed.

Lemma no_minus {A} c s (x : text → A) (y : A) : c ≠ 45 →
  match c :: s with 45 :: s' => x s' | _ => y end = y.
Proof. intros Hc. destruct c as [|p|p]; try done. by do 6 (destruct p as [p|p|]; try done). Qed.

(** A printed number reads back when what follows is no digit. *)
Lemma from_chars_print ty n rest : it_min ty ≤ n ≤ it_max ty → (it_signed ty = false → 0 ≤ it_min ty) →
  (∀ c, head rest = Some c → is_digit c = false) →
  from_chars ty (print_int n ++ rest) = (rest, EcOk, n).
Proof.
  intros Hn Hu Hr. unfold from_chars, print_int. destruct (Z.ltb_spec n 0) as [Hneg|Hpos].
  - destruct (it_signed ty) eqn:Es; [|specialize (Hu eq_refl); lia].
    destruct (print_nat_spec (- n)) as (H1 & H2 & H3); [lia|]. cbn [app].
    rewrite span_digits_app by done. destruct (print_nat (- n)); [done|]. rewrite H3, Z.opp_involutive.
    destruct (Z.leb_spec (it_min ty) n), (Z.leb_spec n (it_max ty)); lia || done.
  - destruct (print_nat_spec n) as (H1 & H2 & H3); [lia|].
    destruct (print_nat n) as [|c ds] eqn:E; [done|]. apply Forall_cons in H1 as Hc. destruct Hc as [Hc _].
    apply is_digit_spec in Hc. cbn [app].
    rewrite (no_minus c (ds ++ rest) (fun s' => if it_signed ty then (true, s') else (false, c :: ds ++ rest))) by lia.
    change (c :: ds ++ rest) with ((c :: ds) ++ rest). rewrite span_digits_app by done. rewrite H3.
    destruct (Z.leb_spec (it_min ty) n), (Z.leb_spec n (it_max ty)); lia || done.
Qed.

(** The characters of a number. *)
Lemma print_int_chars n : Forall (fun c => c = 45 ∨ 48 ≤ c ≤ 57) (print_int n).
Proof.
  assert (Hd : ∀ m, 0 ≤ m → Forall (fun c => c = 45 ∨ 48 ≤ c ≤ 57) (print_nat m)).
  { intros m Hm. destruct (print_nat_spec m Hm) as [H _]. apply (Forall_impl _ _ _ H).
    intros c Hc%is_digit_spec. by right. }
  unfold print_int. destruct (Z.ltb_spec n 0); [constructor; [by left|]|]; apply Hd; lia.
Qed.

(** What is stored fits the type. *)
Lemma from_chars_range ty s rest v : from_chars ty s = (rest, EcOk, v) → it_min ty ≤ v ≤ it_max ty.
Proof.
  unfold from_chars. intros H.
  destruct (match s with 45 :: s' => _ | _ => _ end) as [neg body]. destruct (span_digits body) as [[|c ds] r]; [done|].
  destruct (Z.leb_spec (it_min ty) (if neg then - digits_value (c :: ds) else digits_value (c :: ds)));
    destruct (Z.leb_spec (if neg then - digits_value (c :: ds) else digits_value (c :: ds)) (it_max ty));
    cbn [andb] in H; simplify_eq; done.
Qed.

Lemma span_digits_length s ds rest : span_digits s = (ds, rest) → s = ds ++ rest ∧
  (∀ c, head rest = Some c → is_digit c = false) ∧ Forall (fun c => is_digit c = true) ds.
Proof.
  revert ds rest. induction s as [|c s IH]; intros ds rest H; cbn in H; [by simplify_eq|].
  destruct (is_digit c) eqn:Ec.
  - destruct (span_digits s) as [ds' rest'] eqn:E. simplify_eq. destruct (IH _ _ eq_refl) as (-> & ? & ?).
    split; [done|]. split; [done|]. by constructor.
  - simplify_eq. split; [done|]. split; [|constructor]. cbn. by intros c' [= <-].
Qed.

(** The text is consumed from the front, and something is consumed unless nothing was a number. *)
Lemma from_chars_rest ty s rest e v : from_chars ty s = (rest, e, v) →
  rest `suffix_of` s ∧ (e = EcInvalidArgument ∧ rest = s ∨ e ≠ EcInvalidArgument ∧ (length rest < length s)%nat).
Proof.
  unfold from_chars. intros H.
  destruct (match s with 45 :: s' => _ | _ => _ end) as [neg body] eqn:Eb.
  assert (Hbody : body `suffix_of` s).
  { assert (Hgen : body = s ∨ ∃ s', s = 45 :: s' ∧ body = s').
    { destruct s as [|c s']; [by simplify_eq; left|]. destruct (decide (c = 45)) as [->|Hne].
      - destruct (it_signed ty); simplify_eq; [right; by exists body|by left].
      - left. rewrite (no_minus c s' (fun s' => if it_signed ty then (true, s') else (false, c :: s'))) in Eb by done.
        by simplify_eq. }
    destruct Hgen as [->|(s' & -> & ->)]; [done|by apply suffix_cons_r]. }
  destruct (span_digits body) as [ds r] eqn:Es. apply span_digits_length in Es as (-> & _ & _).
  destruct ds as [|c ds]; [simplify_eq; split; [done|by left]|].
  assert (Hr : r `suffix_of` s ∧ (length r < length s)%nat).
  { destruct Hbody as [x ->]. split; [by exists (x ++ c :: ds); rewrite <- app_assoc|].
    rewrite !length_app. cbn. lia. }
  destruct (_ && _); simplify_eq; (split; [apply Hr|right; split; [done|apply Hr]]).
Qed.
