(* ===== verification/Doubles.v ===== *)
(** * Floating point numbers and their decimal output

    The text report and the log show quotients that are computed in [double] and [float].  A
    finite number is kept as its sign and a fraction; an operation computes the exact fraction
    and rounds it to the precision of the type, to nearest and ties to even (IEEE 754).  The
    numbers of the program are quotients of 64-bit integers, far from the limits of the
    exponents, so that there are neither infinities nor subnormal numbers.  Decimal output with
    three places is what [printf] and [fmt] do for [%.3f]. *)

From Stdlib Require Import ZArith Lia.
From stdpp Require Import base numbers list.
From S2P Require Import Prelude FromChars.

(** ** Rounding *)

(** [n / d] to the nearest integer, ties to even. *)
Definition round_div (n d : Z) : Z :=
  let q := n / d in
  let r := n mod d in
  if 2 * r <? d then q else if d <? 2 * r then q + 1 else if Z.even q then q else q + 1.

Lemma round_div_cases n d : 0 < d → ∃ q r, n = q * d + r ∧ 0 ≤ r < d ∧
  (round_div n d = q ∧ 2 * r ≤ d ∨ round_div n d = q + 1 ∧ d ≤ 2 * r).
Proof.
  intros Hd. exists (n / d), (n mod d). pose proof (Z.div_mod n d ltac:(lia)). pose proof (Z.mod_pos_bound n d Hd).
  split; [lia|]. split; [done|]. unfold round_div.
  destruct (Z.ltb_spec (2 * (n mod d)) d); [left; lia|]. destruct (Z.ltb_spec d (2 * (n mod d))); [right; lia|].
  destruct (Z.even (n / d)); [left|right]; lia.
Qed.

Lemma round_div_near n d : 0 < d → 2 * Z.abs (round_div n d * d - n) ≤ d.
Proof. intros Hd. destruct (round_div_cases n d Hd) as (q & r & -> & Hr & [[-> H]|[-> H]]); lia. Qed.

Lemma round_div_exact q d : 0 < d → round_div (q * d) d = q.
Proof. intros Hd. destruct (round_div_cases (q * d) d Hd) as (q' & r & E & Hr & [[-> H]|[-> H]]); nia. Qed.

Lemma round_div_le n d k : 0 < d → n ≤ k * d → round_div n d ≤ k.
Proof. intros Hd Hn. destruct (round_div_cases n d Hd) as (q & r & -> & Hr & [[-> H]|[-> H]]); nia. Qed.

Lemma round_div_ge n d k : 0 < d → k * d ≤ n → k ≤ round_div n d.
Proof. intros Hd Hn. destruct (round_div_cases n d Hd) as (q & r & -> & Hr & [[-> H]|[-> H]]); nia. Qed.

(** A finite number: its sign and the fraction of its magnitude. *)
Record real := mkReal { fl_neg : bool; fl_num : Z; fl_den : Z }.

(** The nearest number with a mantissa of [p] bits.  The fraction is scaled so that its integer part
    has at least [p] bits; the last [u] of them are rounded off. *)
Definition round_to (p : Z) (neg : bool) (n d : Z) : real :=
  if n =? 0 then mkReal neg 0 1
  else
    let s := p + 1 + Z.log2 d in
    let u := Z.log2 (n * 2 ^ s / d) - (p - 1) in
    mkReal neg (round_div (n * 2 ^ s) (d * 2 ^ u) * 2 ^ u) (2 ^ s).

Section precision.
Context (p : Z) (p_pos : 1 < p).

(** The scale and the number of bits that are rounded off. *)
Lemma scale_spec n d (s := p + 1 + Z.log2 d) (u := Z.log2 (n * 2 ^ s / d) - (p - 1)) : 0 < n → 0 < d →
  0 ≤ s ∧ 0 < u ∧ d * 2 ^ u * 2 ^ (p - 1) ≤ n * 2 ^ s < d * 2 ^ u * 2 ^ p.
Proof.
  intros Hn Hd. pose proof (Z.log2_nonneg d). assert (Hs : 0 ≤ s) by lia.
  assert (Hbig : d * 2 ^ p ≤ n * 2 ^ s).
  { pose proof (Z.log2_spec d Hd) as [_ Hl]. unfold s. replace (p + 1 + Z.log2 d) with (p + Z.succ (Z.log2 d)) by lia.
    rewrite Z.pow_add_r by lia. assert (0 < 2 ^ p) by (apply Z.pow_pos_nonneg; lia).
    transitivity (1 * (2 ^ p * 2 ^ Z.succ (Z.log2 d))); [nia|]. apply Z.mul_le_mono_nonneg_r; [|lia]. nia. }
  set (t := n * 2 ^ s / d). assert (Ht : 2 ^ p ≤ t) by (apply Z.div_le_lower_bound; lia).
  assert (0 < 2 ^ p) by (apply Z.pow_pos_nonneg; lia).
  pose proof (Z.log2_spec t ltac:(lia)) as [Hl1 Hl2]. assert (Hl : p ≤ Z.log2 t) by (apply Z.log2_le_pow2; lia).
  assert (Eu : u = Z.log2 t - (p - 1)) by done. split; [done|]. split; [lia|].
  pose proof (Z.mul_div_le (n * 2 ^ s) d Hd) as Hm1. pose proof (Z.mul_succ_div_gt (n * 2 ^ s) d Hd) as Hm2. fold t in Hm1, Hm2.
  rewrite <- !Z.mul_assoc, <- !Z.pow_add_r by lia. replace (u + (p - 1)) with (Z.log2 t) by lia.
  replace (u + p) with (Z.succ (Z.log2 t)) by lia. nia.
Qed.

Lemma round_to_den neg n d : 0 < fl_den (round_to p neg n d).
Proof.
  unfold round_to. destruct (n =? 0); [done|]. cbn [fl_den]. apply Z.pow_pos_nonneg; [lia|]. pose proof (Z.log2_nonneg d). lia.
Qed.

Lemma round_to_neg neg n d : fl_neg (round_to p neg n d) = neg.
Proof. unfold round_to. by destruct (n =? 0). Qed.

(** The relative error is at most [2 ^ -p]. *)
Lemma round_to_near neg n d (x := round_to p neg n d) : 0 ≤ n → 0 < d →
  0 ≤ fl_num x ∧ 2 ^ p * Z.abs (fl_num x * d - n * fl_den x) ≤ n * fl_den x.
Proof.
  intros Hn Hd. unfold x, round_to. destruct (Z.eqb_spec n 0) as [->|Hne]; [cbn; lia|]. cbn [fl_num fl_den].
  destruct (scale_spec n d) as (Hs & Hu & Hlo & Hhi); [lia|done|]. set (s := p + 1 + Z.log2 d) in *.
  set (u := Z.log2 (n * 2 ^ s / d) - (p - 1)) in *. set (m := round_div (n * 2 ^ s) (d * 2 ^ u)).
  pose proof (Z.pow_pos_nonneg 2 u ltac:(lia) ltac:(lia)). pose proof (Z.pow_pos_nonneg 2 s ltac:(lia) ltac:(lia)).
  pose proof (round_div_near (n * 2 ^ s) (d * 2 ^ u) ltac:(nia)) as Hm. fold m in Hm.
  assert (0 ≤ m) by (apply round_div_ge; nia). split; [nia|].
  replace (m * 2 ^ u * d - n * 2 ^ s) with (m * (d * 2 ^ u) - n * 2 ^ s) by lia.
  replace p with (1 + (p - 1)) at 1 by lia. rewrite Z.pow_add_r by lia. change (2 ^ 1) with 2.
  pose proof (Z.pow_pos_nonneg 2 (p - 1) ltac:(lia) ltac:(lia)). nia.
Qed.

(** A fraction with a short numerator and a power of two below is not changed. *)
Lemma round_to_exact neg m a b (x := round_to p neg (m * 2 ^ a) (2 ^ b)) : 0 ≤ m < 2 ^ p → 0 ≤ a → 0 ≤ b →
  fl_num x * 2 ^ b = m * 2 ^ a * fl_den x.
Proof.
  intros Hm Ha Hb. unfold x, round_to. pose proof (Z.pow_pos_nonneg 2 a ltac:(lia) ltac:(lia)).
  destruct (Z.eqb_spec (m * 2 ^ a) 0) as [E|Hne]; [cbn; lia|]. cbn [fl_num fl_den].
  pose proof (Z.pow_pos_nonneg 2 b ltac:(lia) ltac:(lia)).
  destruct (scale_spec (m * 2 ^ a) (2 ^ b)) as (Hs & Hu & Hlo & Hhi); [nia|done|]. set (s := p + 1 + Z.log2 (2 ^ b)) in *.
  set (u := Z.log2 (m * 2 ^ a * 2 ^ s / 2 ^ b) - (p - 1)) in *.
  assert (Hge : b + u ≤ a + s).
  { rewrite <- !Z.mul_assoc, <- !Z.pow_add_r in Hlo by lia.
    assert (2 ^ (b + (u + (p - 1))) < 2 ^ (p + (a + s))) as Hlt%Z.pow_lt_mono_r_iff; [|lia..].
    rewrite (Z.pow_add_r 2 p) by lia. pose proof (Z.pow_pos_nonneg 2 (a + s) ltac:(lia) ltac:(lia)). nia. }
  assert (E : m * 2 ^ a * 2 ^ s = m * 2 ^ (a + s - (b + u)) * (2 ^ b * 2 ^ u)).
  { rewrite <- !Z.mul_assoc, <- !Z.pow_add_r by lia. f_equal. f_equal. lia. }
  rewrite E, round_div_exact by (apply Z.mul_pos_pos; [done|apply Z.pow_pos_nonneg; lia]).
  rewrite <- !Z.mul_assoc, <- !Z.pow_add_r by lia. f_equal. f_equal. lia.
Qed.
End precision.

(** ** Operations *)

(** A conversion from an integer, and a division by a number that is not zero. *)
Definition of_int (p z : Z) : real := round_to p (z <? 0) (Z.abs z) 1.
Definition fl_div (p : Z) (x y : real) : real :=
  round_to p (xorb (fl_neg x) (fl_neg y)) (fl_num x * fl_den y) (fl_den x * fl_num y).

(** The numbers of a type with [p] bits. *)
Definition short (p : Z) (x : real) : Prop :=
  ∃ m a b, 0 ≤ m < 2 ^ p ∧ 0 ≤ a ∧ 0 ≤ b ∧ fl_num x = m * 2 ^ a ∧ fl_den x = 2 ^ b.

Section operations.
Context (p : Z) (p_pos : 1 < p).

Lemma round_to_short neg n d : 0 ≤ n → 0 < d → short p (round_to p neg n d).
Proof.
  intros Hn Hd. unfold round_to. assert (Hp : 0 < 2 ^ p) by (apply Z.pow_pos_nonneg; lia).
  destruct (Z.eqb_spec n 0) as [->|Hne]; [exists 0, 0, 0; cbn; lia|].
  destruct (scale_spec p p_pos n d) as (Hs & Hu & Hlo & Hhi); [lia|done|]. set (s := p + 1 + Z.log2 d) in *.
  set (u := Z.log2 (n * 2 ^ s / d) - (p - 1)) in *. set (m := round_div (n * 2 ^ s) (d * 2 ^ u)).
  assert (0 < d * 2 ^ u) by (apply Z.mul_pos_pos; [done|apply Z.pow_pos_nonneg; lia]).
  assert (Hm0 : 0 ≤ m) by (apply round_div_ge; [done|]; pose proof (Z.pow_nonneg 2 s); nia).
  assert (Hm1 : m ≤ 2 ^ p) by (apply round_div_le; [done|]; lia).
  destruct (decide (m = 2 ^ p)) as [E|E]; [|exists m, u, s; cbn; lia].
  exists 1, (p + u), s. cbn [fl_num fl_den]. fold m. rewrite E, Z.pow_add_r by lia.
  assert (2 ^ 1 < 2 ^ p) by (apply Z.pow_lt_mono_r; lia). lia.
Qed.

Lemma of_int_near z (x := of_int p z) : 0 < fl_den x ∧ 0 ≤ fl_num x ∧ fl_neg x = (z <? 0)
  ∧ 2 ^ p * Z.abs (fl_num x - Z.abs z * fl_den x) ≤ Z.abs z * fl_den x.
Proof.
  split; [by apply round_to_den|]. pose proof (round_to_near p p_pos (z <? 0) (Z.abs z) 1 ltac:(lia) ltac:(lia)) as [H1 H2].
  split; [done|]. split; [apply round_to_neg|]. by rewrite Z.mul_1_r in H2.
Qed.

Lemma of_int_exact z (x := of_int p z) : Z.abs z < 2 ^ p → fl_num x = Z.abs z * fl_den x.
Proof.
  intros Hz. pose proof (round_to_exact p p_pos (z <? 0) (Z.abs z) 0 0 ltac:(lia) ltac:(lia) ltac:(lia)) as H.
  change (2 ^ 0) with 1 in H. rewrite !Z.mul_1_r in H. exact H.
Qed.

Lemma of_int_zero z (x := of_int p z) : z ≠ 0 → 0 < fl_num x.
Proof.
  intros Hz. unfold x. destruct (of_int_near z) as (Hd & Hn & _ & He).
  destruct (decide (fl_num (of_int p z) = 0)) as [E|]; [|lia]. rewrite E in He. exfalso.
  assert (2 ^ 1 < 2 ^ p) by (apply Z.pow_lt_mono_r; lia). nia.
Qed.

(** Rounding keeps the order, between binades too. *)
Lemma round_div_mono n m d : 0 < d → n ≤ m → round_div n d ≤ round_div m d.
Proof.
  intros Hd Hnm. unfold round_div. pose proof (Z.div_mod n d ltac:(lia)). pose proof (Z.div_mod m d ltac:(lia)).
  pose proof (Z.mod_pos_bound n d Hd). pose proof (Z.mod_pos_bound m d Hd). pose proof (Z.div_le_mono n m d Hd Hnm).
  destruct (decide (n / d = m / d)) as [E|].
  - rewrite E in *. assert (n mod d ≤ m mod d) by lia. repeat case_match; lia.
  - repeat case_match; lia.
Qed.

Lemma of_int_mono m n : 0 ≤ m ≤ n →
  fl_num (of_int p m) * fl_den (of_int p n) ≤ fl_num (of_int p n) * fl_den (of_int p m).
Proof.
  intros Hmn. destruct (decide (m = 0)) as [->|Hm].
  { destruct (of_int_near n) as (? & ? & _). change (of_int p 0) with (mkReal false 0 1). cbn [fl_num fl_den]. lia. }
  unfold of_int, round_to. rewrite !Z.abs_eq by lia. destruct (Z.eqb_spec m 0), (Z.eqb_spec n 0); try lia. cbn [fl_num fl_den].
  apply Z.mul_le_mono_nonneg_r; [apply Z.pow_nonneg; lia|].
  destruct (scale_spec p p_pos m 1) as (Hs & Hu & Hlo & Hhi); [lia|lia|]. destruct (scale_spec p p_pos n 1) as (_ & Hu' & Hlo' & Hhi'); [lia|lia|].
  set (s := p + 1 + Z.log2 1) in *. rewrite !Z.div_1_r, !Z.mul_1_l in *.
  set (u := Z.log2 (m * 2 ^ s) - (p - 1)) in *. set (u' := Z.log2 (n * 2 ^ s) - (p - 1)) in *.
  assert (0 < 2 ^ s) by (apply Z.pow_pos_nonneg; lia).
  assert (Huu : u ≤ u') by (unfold u, u'; pose proof (Z.log2_le_mono (m * 2 ^ s) (n * 2 ^ s) (Z.mul_le_mono_nonneg_r m n (2 ^ s) ltac:(lia) ltac:(lia))); lia).
  assert (Hp1 : 0 < 2 ^ u) by (apply Z.pow_pos_nonneg; lia). assert (Hp2 : 0 < 2 ^ u') by (apply Z.pow_pos_nonneg; lia).
  destruct (decide (u = u')) as [<-|Hne].
  - apply Z.mul_le_mono_nonneg_r; [lia|]. apply round_div_mono; [done|]. apply Z.mul_le_mono_nonneg_r; lia.
  - transitivity (2 ^ p * 2 ^ u).
    + apply Z.mul_le_mono_nonneg_r; [lia|]. apply round_div_le; lia.
    + transitivity (2 ^ (p - 1) * 2 ^ u').
      * rewrite <- !Z.pow_add_r by lia. apply Z.pow_le_mono_r; lia.
      * apply Z.mul_le_mono_nonneg_r; [lia|]. apply round_div_ge; lia.
Qed.

(** A quotient that is at most one stays so. *)
Lemma round_to_le_one neg n d (x := round_to p neg n d) : 0 ≤ n ≤ d → 0 < d → 0 ≤ fl_num x ≤ fl_den x.
Proof.
  intros Hn Hd. split; [by apply round_to_near; lia|]. unfold x, round_to. destruct (Z.eqb_spec n 0) as [->|Hne]; [done|]. cbn [fl_num fl_den].
  destruct (scale_spec p p_pos n d) as (Hs & Hu & Hlo & Hhi); [lia|done|]. set (s := p + 1 + Z.log2 d) in *.
  set (u := Z.log2 (n * 2 ^ s / d) - (p - 1)) in *. assert (0 < 2 ^ s) by (apply Z.pow_pos_nonneg; lia).
  assert (Hus : u ≤ s).
  { assert (n * 2 ^ s / d ≤ 2 ^ s) as Hle%Z.log2_le_mono by (apply Z.div_le_upper_bound; nia).
    rewrite Z.log2_pow2 in Hle by lia. unfold u. lia. }
  assert (0 < 2 ^ u) by (apply Z.pow_pos_nonneg; lia). assert (E : 2 ^ (s - u) * 2 ^ u = 2 ^ s) by (rewrite <- Z.pow_add_r by lia; f_equal; lia).
  transitivity (2 ^ (s - u) * 2 ^ u); [|lia]. apply Z.mul_le_mono_nonneg_r; [lia|]. apply round_div_le; [nia|].
  replace (2 ^ (s - u) * (d * 2 ^ u)) with (d * (2 ^ (s - u) * 2 ^ u)) by lia. rewrite E. nia.
Qed.
End operations.

(** ** Decimal output *)

(** The number of thousandths that is shown, and its text. *)
Definition thousandths (x : real) : Z := round_div (1000 * fl_num x) (fl_den x).

Definition three_digits (k : Z) : text := [48 + k / 100 mod 10; 48 + k / 10 mod 10; 48 + k mod 10].
Definition fixed3 (neg : bool) (k : Z) : text :=
  (if neg then [45] else []) ++ print_nat (k / 1000) ++ [46] ++ three_digits k.

(** [%.3f]. *)
Definition print_fixed3 (x : real) : text := fixed3 (fl_neg x) (thousandths x).

(** [k] thousandths are nearest to [x]. *)
Definition nearest3 (x : real) (k : Z) : Prop := 2 * Z.abs (k * fl_den x - 1000 * fl_num x) ≤ fl_den x.

(** Reads a sign and a number with three places. *)
Definition read_fixed3 (t : text) : option (bool * Z) :=
  let '(neg, body) := match t with 45 :: t' => (true, t') | _ => (false, t) end in
  match span_digits body with
  | ([], _) => None
  | (ds, 46 :: frac) =>
    if forallb is_digit frac && (zlen frac =? 3) then Some (neg, 1000 * digits_value ds + digits_value frac) else None
  | _ => None
  end.

Lemma thousandths_nearest x : 0 < fl_den x → nearest3 x (thousandths x).
Proof. intros Hd. apply round_div_near. done. Qed.

(** A quotient of numbers that are exact, in thousandths. *)
Lemma quotient_near p a b (x := fl_div p (of_int p a) (of_int p b)) : 1 < p → b ≠ 0 →
  0 ≤ fl_num x ∧ 0 < fl_den x ∧ fl_neg x = xorb (a <? 0) (b <? 0)
  ∧ ∀ k, 0 ≤ k → nearest3 x k → Z.abs a < 2 ^ p → Z.abs b < 2 ^ p →
    2 ^ p * Z.abs (k * Z.abs b - 1000 * Z.abs a) ≤ 2 ^ (p - 1) * Z.abs b + 1000 * Z.abs a.
Proof.
  intros Hp Hb. destruct (of_int_near p Hp a) as (D1 & N1 & G1 & _), (of_int_near p Hp b) as (D2 & _ & G2 & _).
  pose proof (of_int_zero p Hp b Hb) as N2. set (s := of_int p a) in *. set (t := of_int p b) in *.
  assert (Hd : 0 < fl_den s * fl_num t) by lia. assert (Hn : 0 ≤ fl_num s * fl_den t) by lia.
  destruct (round_to_near p Hp (xorb (fl_neg s) (fl_neg t)) _ _ Hn Hd) as [Hx He].
  assert (Hxd : 0 < fl_den x) by by apply round_to_den. change (round_to _ _ _ _) with x in Hx, He.
  split; [done|]. split; [done|]. split; [unfold x, fl_div; rewrite round_to_neg; congruence|]. intros k Hk Hnear Ha Hb2.
  pose proof (of_int_exact p Hp a Ha) as E1. pose proof (of_int_exact p Hp b Hb2) as E2. fold s in E1. fold t in E2. rewrite E1, E2 in He.
  unfold nearest3 in Hnear. set (B := Z.abs b) in *. set (A := Z.abs a) in *. set (X := fl_num x) in *. set (Y := fl_den x) in *.
  assert (HB : 0 < B) by lia. assert (HP : 2 ^ p = 2 * 2 ^ (p - 1)) by (rewrite <- Z.pow_succ_r by lia; f_equal; lia).
  assert (0 < 2 ^ (p - 1)) by (apply Z.pow_pos_nonneg; lia). set (P := 2 ^ p) in *. set (Q := 2 ^ (p - 1)) in *.
  assert (He2 : P * Z.abs (X * B - A * Y) ≤ A * Y).
  { apply (Z.mul_le_mono_pos_l _ _ (fl_den s * fl_den t)); [lia|].
    replace (fl_den s * fl_den t * (A * Y)) with (A * fl_den s * fl_den t * Y) by lia. etrans; [|exact He].
    rewrite Z.mul_assoc, (Z.mul_comm _ P), <- Z.mul_assoc. apply Z.mul_le_mono_nonneg_l; [lia|].
    rewrite <- (Z.abs_eq (fl_den s * fl_den t)) at 1 by lia. rewrite <- Z.abs_mul. apply Z.eq_le_incl. f_equal. lia. }
  apply (Z.mul_le_mono_pos_l _ _ Y); [done|].
  assert (Ht : Y * Z.abs (k * B - 1000 * A) ≤ B * Z.abs (k * Y - 1000 * X) + 1000 * Z.abs (X * B - A * Y)).
  { rewrite <- (Z.abs_eq Y) at 1 by lia. rewrite <- (Z.abs_eq B) at 2 by lia. rewrite <- !Z.abs_mul. lia. }
  set (T1 := Z.abs (k * B - 1000 * A)) in *. set (T2 := Z.abs (k * Y - 1000 * X)) in *. set (T3 := Z.abs (X * B - A * Y)) in *.
  replace (Y * (P * T1)) with (P * (Y * T1)) by lia. transitivity (P * (B * T2 + 1000 * T3)); [apply Z.mul_le_mono_nonneg_l; lia|].
  transitivity (Q * B * (2 * T2) + 1000 * (P * T3)); [rewrite HP; lia|].
  pose proof (Z.mul_le_mono_nonneg_l _ _ (Q * B) ltac:(lia) Hnear). lia.
Qed.

Lemma three_digits_spec k : 0 ≤ k → Forall (fun c => is_digit c = true) (three_digits k) ∧ digits_value (three_digits k) = k mod 1000.
Proof.
  intros Hk. unfold three_digits. pose proof (Z.mod_pos_bound k 10). pose proof (Z.mod_pos_bound (k / 10) 10). pose proof (Z.mod_pos_bound (k / 100) 10).
  split.
  - repeat (constructor; [apply is_digit_spec; lia|]). constructor.
  - unfold digits_value. cbn [foldl]. pose proof (Z.div_mod k 10). pose proof (Z.div_mod (k / 10) 10). pose proof (Z.div_mod (k / 100) 10).
    rewrite !Z.div_div in * by lia. change (10 * 10) with 100 in *. change (100 * 10) with 1000 in *.
    rewrite (Z.mod_eq k 1000) by lia. lia.
Qed.

Lemma fixed3_chars neg k : 0 ≤ k → Forall (fun c => c = 45 ∨ c = 46 ∨ 48 ≤ c ≤ 57) (fixed3 neg k) ∧ fixed3 neg k ≠ [].
Proof.
  intros Hk. destruct (print_nat_spec (k / 1000)) as (H1 & H2 & _); [apply Z.div_pos; lia|]. destruct (three_digits_spec k Hk) as [H3 _].
  split; [|unfold fixed3; destruct neg; [done|]; by destruct (print_nat (k / 1000))].
  assert (Hd : ∀ l, Forall (fun c => is_digit c = true) l → Forall (fun c => c = 45 ∨ c = 46 ∨ 48 ≤ c ≤ 57) l).
  { intros l Hl. apply (Forall_impl _ _ _ Hl). intros c ?%is_digit_spec. auto. }
  unfold fixed3. repeat (apply Forall_app; split); [destruct neg; repeat constructor; by left|by apply Hd| |by apply Hd].
  constructor; [auto|constructor].
Qed.

Lemma read_fixed3_print neg k : 0 ≤ k → read_fixed3 (fixed3 neg k) = Some (neg, k).
Proof.
  intros Hk. destruct (print_nat_spec (k / 1000)) as (H1 & H2 & H3); [apply Z.div_pos; lia|]. destruct (three_digits_spec k Hk) as [H4 H5].
  set (body := print_nat (k / 1000) ++ [46] ++ three_digits k).
  assert (Hspan : span_digits body = (print_nat (k / 1000), 46 :: three_digits k)).
  { apply (span_digits_app _ (46 :: three_digits k)); [done|]. by intros c [= <-]. }
  assert (Hfrac : forallb is_digit (three_digits k) && (zlen (three_digits k) =? 3) = true).
  { rewrite andb_true_iff. split; [|done]. apply Is_true_eq_true, forallb_True. apply (Forall_impl _ _ _ H4). intros c ->. done. }
  assert (Hk1 : 1000 * (k / 1000) + k mod 1000 = k) by (pose proof (Z.div_mod k 1000); lia).
  unfold read_fixed3, fixed3. fold body. destruct neg; cbn [app].
  - rewrite Hspan. destruct (print_nat (k / 1000)); [done|]. by rewrite Hfrac, H3, H5, Hk1.
  - destruct body as [|c b] eqn:Eb; [discriminate Hspan|].
    assert (Hc : c ≠ 45).
    { unfold body in Eb. destruct (print_nat (k / 1000)) as [|c' ds]; [done|]. injection Eb as <- _.
      apply Forall_cons in H1 as [Hc%is_digit_spec _]. lia. }
    rewrite (no_minus c b (fun t' => (true, t')) (false, c :: b)) by done. rewrite Hspan.
    destruct (print_nat (k / 1000)); [done|]. by rewrite Hfrac, H3, H5, Hk1.
Qed.
