(* ===== verification/FlameStats.v ===== *)
(** * Statistics of the trie ([CompressedTrie::Stats], [flamegraph/src/graph.h])

    A depth-first traversal counts the nodes by the length of their segment and by the number
    of their edges, and the two histograms are printed.  The traversal goes by the order of an
    abseil map, the parameter [edges_order] of [GetTop]. *)

From Stdlib Require Import ZArith Lia.
From stdpp Require Import base numbers list gmap strings.
From S2P Require Import Prelude FromChars CompressedTrie GetTop.

(** [std::map<uint32_t, size_t>] *)
Abbreviation stat := (gmap Z Z).

(** [m[key]++]: a missing entry is made with 0. *)
Definition stat_get (m : stat) (key : Z) : Z := default 0 (m !! key).
Definition stat_incr (m : stat) (key : Z) : stat := <[u32 key := u64 (stat_get m (u32 key) + 1)]> m.

Section Stats.
Context (edges_order : gmap Z Z → list (Z * Z)).

(** The loop over the edges of a node; [rec] is the recursive call. *)
Fixpoint Stats_edges (rec : Z → stat * stat → outcome (stat * stat)) (edges : list (Z * Z)) (acc : stat * stat)
  : outcome (stat * stat) :=
  match edges with
  | [] => Ret acc
  | (_, childId) :: edges => acc ← rec childId acc; Stats_edges rec edges acc
  end.

(** The lambda [dfs]; the pair is [children] and [pathStat]. *)
Fixpoint Stats_dfs (fuel : nat) (nodes : list Node) (nodeId : Z) (acc : stat * stat) {struct fuel} : outcome (stat * stat) :=
  match fuel with
  | O => NoFuel
  | S fuel =>
    node ← rd nodes nodeId;
    let children := stat_incr acc.1 (Z.of_nat (size (nd_edges node))) in
    let pathStat := stat_incr acc.2 (span_size (nd_path node)) in
    Stats_edges (Stats_dfs fuel nodes) (edges_order (nd_edges node)) (children, pathStat)
  end.

(** The loop over the keys below 256 prints those that were counted. *)
Definition print_stat (m : stat) : text :=
  concat ((fun i => if stat_get m i =? 0 then [] else print_int i ++ [32] ++ print_int (stat_get m i) ++ [10]) <$> seqZ 0 256).

Definition Stats_text (children pathStat : stat) (nodes paths : Z) : text :=
  str "PathStat" ++ [10; 10] ++ print_stat pathStat ++ [10; 10; 10; 10]
  ++ str "Children" ++ [10; 10] ++ print_stat children ++ [10]
  ++ str "Nodes:  " ++ print_int nodes ++ [10] ++ str "Pathes: " ++ print_int paths ++ [10] ++ [10].

(** The number of nodes bounds the depth of the recursion. *)
Definition Stats (t : CompressedTrie) : outcome text :=
  '(children, pathStat) ← Stats_dfs (S (length (t_nodes t))) (t_nodes t) 0 (∅, ∅);
  Ret (Stats_text children pathStat (zlen (t_nodes t)) (zlen (t_paths t))).
End Stats.

(** ** The specification: how many nodes have a given number *)

Definition how_many (f : Node → Z) (nodes : list Node) (k : Z) : Z := zlen (filter (fun nd => f nd = k) nodes).
Definition edges_of (nd : Node) : Z := Z.of_nat (size (nd_edges nd)).
Definition keys_of (nd : Node) : Z := span_size (nd_path nd).

(** A histogram [m] shows the numbers [g]. *)
Definition shows (m : stat) (g : Z → Z) : Prop := ∀ k, stat_get m k = g k.

Lemma print_stat_shows m g : shows m g →
  print_stat m = concat ((fun i => if g i =? 0 then [] else print_int i ++ [32] ++ print_int (g i) ++ [10]) <$> seqZ 0 256).
Proof. intros H. unfold print_stat. f_equal. apply list_fmap_ext. intros i x _. by rewrite !(H x). Qed.

Lemma how_many_bound f nodes k : 0 ≤ how_many f nodes k ≤ zlen nodes.
Proof. unfold how_many, zlen. pose proof (length_filter (fun nd => f nd = k) nodes). lia. Qed.

#[export] Instance how_many_proper f : Proper ((≡ₚ) ==> (=) ==> (=)) (how_many f).
Proof. intros l l' Hl k ? <-. unfold how_many, zlen. by rewrite Hl. Qed.

Lemma how_many_snoc f nodes nd k : how_many f (nodes ++ [nd]) k = how_many f nodes k + if decide (f nd = k) then 1 else 0.
Proof.
  unfold how_many. rewrite filter_app, zlen_app, filter_cons, filter_nil. by case_decide.
Qed.

(** Counting one more node. *)
Lemma stat_incr_shows f nodes nd m : shows m (how_many f nodes) → is_u32 (f nd) → zlen nodes < 2 ^ 32 →
  shows (stat_incr m (f nd)) (how_many f (nodes ++ [nd])).
Proof.
  intros Hm Hf Hn k. rewrite how_many_snoc. unfold stat_incr, stat_get. rewrite u32_small by done.
  pose proof (how_many_bound f nodes (f nd)). destruct (decide (f nd = k)) as [<-|Hne].
  - rewrite lookup_insert_eq. cbn. change (default 0 (m !! f nd)) with (stat_get m (f nd)). rewrite Hm.
    apply u64_small. unfold is_u64. lia.
  - rewrite lookup_insert_ne by done. change (stat_get m k = how_many f nodes k + 0). rewrite Hm. lia.
Qed.

(** ** The traversal visits every node once *)

Section traversal.
Context (edges_order : gmap Z Z → list (Z * Z)) (edges_order_perm : ∀ m, edges_order m ≡ₚ map_to_list m).
Context (t : CompressedTrie) (base : nat → list Z) (Hok : trie_ok t base).
Context (Hpaths : zlen (t_paths t) < 2 ^ 32) (Hnodes : zlen (t_nodes t) < 2 ^ 32).

(** The path to the end of a node. *)
Definition end_of (j : nat) : list Z := match t_nodes t !! j with Some nd => base j ++ node_path t nd | None => [] end.

(** [V] lists, once each, the nodes whose ends satisfy [P]. *)
Record visits (P : list Z → Prop) (V : list nat) : Prop := {
  vs_nodup : NoDup V;
  vs_elem j : j ∈ V ↔ is_Some (t_nodes t !! j) ∧ P (end_of j);
}.

Lemma visits_ext P P' V : (∀ j, is_Some (t_nodes t !! j) → P (end_of j) ↔ P' (end_of j)) → visits P V → visits P' V.
Proof. intros HP [H1 H2]. split; [done|]. intros j. rewrite H2. split; intros [Hj ?]; (split; [done|]); by apply HP. Qed.

Lemma visits_app P P' V V' : visits P V → visits P' V' → (∀ q, P q → ¬ P' q) → visits (fun q => P q ∨ P' q) (V ++ V').
Proof.
  intros [H1 H2] [H3 H4] Hd. split.
  - apply NoDup_app. split; [done|]. split; [|done]. intros j [_ Hj]%H2 [_ Hj']%H4. by eapply Hd.
  - intros j. rewrite elem_of_app, H2, H4. tauto.
Qed.

(** Counting a list of nodes. *)
Definition nodes_at (V : list nat) : list Node := omap (fun j => t_nodes t !! j) V.
Definition counted (V : list nat) (acc : stat * stat) : Prop :=
  shows acc.1 (how_many edges_of (nodes_at V)) ∧ shows acc.2 (how_many keys_of (nodes_at V)).

Lemma nodes_at_app V V' : nodes_at (V ++ V') = nodes_at V ++ nodes_at V'.
Proof. apply omap_app. Qed.

(** A node in the middle of the traversal: all that is visited from it is added. *)
Definition walks (rec : stat * stat → outcome (stat * stat)) (P : list Z → Prop) : Prop :=
  ∃ V, visits P V ∧ ∀ W acc, counted W acc → NoDup (W ++ V) → (∀ j, j ∈ W → is_Some (t_nodes t !! j)) →
    ∃ acc', rec acc = Ret acc' ∧ counted (W ++ V) acc'.

Lemma edges_walk rec full l : NoDup l.*1 → (∀ y c, (y, c) ∈ l → walks (rec c) (fun q => full ++ [y] `prefix_of` q)) →
  walks (Stats_edges rec l) (fun q => ∃ y, y ∈ l.*1 ∧ full ++ [y] `prefix_of` q).
Proof.
  induction l as [|[y c] l IH]; intros Hnd Hw.
  { exists []. split; [split; [constructor|]|].
    - intros j. rewrite elem_of_nil. split; [done|]. by intros [_ (y & ?%elem_of_nil & _)].
    - intros W acc Ha _ _. exists acc. by rewrite app_nil_r. }
  apply NoDup_cons in Hnd as [Hy Hnd]. destruct (Hw y c) as (V & HV & HW); [by left|].
  destruct IH as (V' & HV' & HW'); [done|intros ???; apply Hw; by right|]. exists (V ++ V'). split.
  - eapply visits_ext, visits_app; [|done|done|].
    + intros j _. cbn. setoid_rewrite elem_of_cons. split; [intros [?|(z & ? & ?)]; eauto|].
      intros (z & [->|?] & ?); [by left|right; by exists z].
    + intros q [s ->] (z & Hz & s' & E). rewrite <- !app_assoc in E. apply app_inv_head in E. injection E as -> _. done.
  - intros W acc Ha HND HS. rewrite app_assoc in HND. cbn [Stats_edges].
    destruct (HW W acc Ha) as (acc' & -> & Ha'); [by apply NoDup_app in HND as [? _]|done|]. step_ret.
    destruct (HW' (W ++ V) acc' Ha' HND) as (acc2 & -> & Ha2); [|exists acc2; by rewrite app_assoc].
    intros j [?|Hj]%elem_of_app; [by apply HS|]. by apply (vs_elem _ _ HV) in Hj as [? _].
Qed.

Lemma nodup_short (l : list nat) n : NoDup l → (∀ j, j ∈ l → (j < n)%nat) → (length l ≤ n)%nat.
Proof.
  intros Hl Hn. rewrite <- (length_seq n 0). apply submseteq_length, NoDup_submseteq; [done|].
  intros j Hj%Hn. apply elem_of_seq. lia.
Qed.

Lemma edges_u32 i nd : t_nodes t !! i = Some nd → is_u32 (edges_of nd).
Proof.
  intros Hi. unfold edges_of, is_u32. enough (size (nd_edges nd) ≤ length (t_nodes t))%nat by (unfold zlen in Hnodes; lia).
  rewrite <- length_map_to_list, <- (length_fmap (fun e : Z * Z => Z.to_nat e.2)).
  assert (He : ∀ e, e ∈ map_to_list (nd_edges nd) → ∃ j ndj, e.2 = Z.of_nat j ∧ t_nodes t !! j = Some ndj ∧ nd_edges nd !! e.1 = Some e.2).
  { intros [x c] Hx%elem_of_map_to_list. destruct (ok_edge _ _ Hok _ _ _ _ Hi Hx) as (j & ndj & -> & _ & Hj & _). by exists j, ndj. }
  apply nodup_short.
  - apply NoDup_fmap_2_strong; [|apply NoDup_map_to_list]. intros [x c] [x' c'] H1 H2 E.
    destruct (He _ H1) as (j & ? & E1 & _ & L1), (He _ H2) as (j' & ? & E2 & _ & L2). cbn in *. subst c c'.
    rewrite !Nat2Z.id in E. subst j'. destruct (parent_unique t base Hok i nd x i nd x' _ Hi L1 Hi L2) as (_ & _ & ->). done.
  - intros n (e & -> & (j & ndj & -> & Hj & _)%He)%list_elem_of_fmap. rewrite Nat2Z.id. by apply lookup_lt_Some in Hj.
Qed.

Lemma keys_u32 nd : is_u32 (keys_of nd).
Proof. unfold keys_of, span_size. apply u32_range. Qed.

Lemma nodes_at_short W : NoDup W → (∀ j, j ∈ W → is_Some (t_nodes t !! j)) → zlen (nodes_at W) < 2 ^ 32.
Proof.
  intros HW HS. enough (length (nodes_at W) ≤ length (t_nodes t))%nat by (unfold zlen in *; lia).
  transitivity (length W); [|apply nodup_short; [done|]; intros j Hj%HS; by apply lookup_lt_is_Some].
  unfold nodes_at. clear. induction W as [|j W IH]; cbn; [done|]. destruct (t_nodes t !! j); cbn; lia.
Qed.

(** The root of a traversal and what lies below it. *)
Lemma visit_self i nd : t_nodes t !! i = Some nd → visits (fun q => q = base i ++ node_path t nd) [i].
Proof.
  intros Hi. split; [apply NoDup_singleton|]. intros j. rewrite list_elem_of_singleton. split.
  - intros ->. split; [by eexists|]. unfold end_of. by rewrite Hi.
  - intros [[ndj Hj] E]. unfold end_of in E. rewrite Hj in E.
    pose proof (end_pos t base Hok i nd Hi) as H1. pose proof (end_pos t base Hok j ndj Hj) as H2. rewrite E in H2.
    by destruct (pos_unique t base Hok _ _ _ _ _ _ _ H2 H1) as [? _].
Qed.

Lemma below_end i nd j : t_nodes t !! i = Some nd → is_Some (t_nodes t !! j) →
  below t base i nd (end_of j) ↔
    end_of j = base i ++ node_path t nd ∨ ∃ y, is_Some (nd_edges nd !! y) ∧ (base i ++ node_path t nd) ++ [y] `prefix_of` end_of j.
Proof.
  intros Hi [ndj Hj]. pose proof (end_pos t base Hok j ndj Hj) as Hpos. unfold end_of. rewrite Hj. split.
  - intros Hb. destruct (below_cases t base Hok i nd j _ ndj _ Hi Hpos Hb) as [(k & Hk & E)|[[-> E]|(y & c & r & Hc & E)]].
    + assert (Hik : at_pos t base i k nd (seg_path t base i nd k)) by (apply seg_pos; [done|lia]). rewrite E in Hpos.
      destruct (pos_unique t base Hok _ _ _ _ _ _ _ Hpos Hik) as (-> & _ & ->). by left.
    + rewrite E in Hpos. apply (root_pos t base Hok) in Hpos as (-> & _ & Hr). left. congruence.
    + right. exists y. split; [by eexists|]. exists r. rewrite E. by rewrite <- !app_assoc.
  - intros Hq. destruct (decide (i = 0%nat)) as [->|Hi0]; [by left|]. right.
    destruct (node_path t nd) as [|x p] eqn:Ep; [by pose proof (ok_nonempty _ _ Hok i nd Hi Hi0)|]. exists x. split; [done|].
    destruct Hq as [->|(y & _ & s & ->)]; [exists p|exists (p ++ [y] ++ s)]; by rewrite <- !app_assoc.
Qed.

Lemma count_node W i nd acc : t_nodes t !! i = Some nd → counted W acc → NoDup W → (∀ j, j ∈ W → is_Some (t_nodes t !! j)) →
  counted (W ++ [i]) (stat_incr acc.1 (edges_of nd), stat_incr acc.2 (keys_of nd)).
Proof.
  intros Hi [H1 H2] HND HS. pose proof (nodes_at_short W HND HS). unfold counted. rewrite nodes_at_app.
  assert (nodes_at [i] = [nd]) as -> by (unfold nodes_at; cbn; by rewrite Hi). cbn [fst snd].
  split; apply stat_incr_shows; try done; [by eapply edges_u32|apply keys_u32].
Qed.

Lemma node_walk fuel : ∀ i nd, t_nodes t !! i = Some nd → (deeper t base (length (base i ++ node_path t nd)) < fuel)%nat →
  walks (Stats_dfs edges_order fuel (t_nodes t) (Z.of_nat i)) (below t base i nd).
Proof.
  induction fuel as [|fuel IH]; intros i nd Hi Hf; [lia|].
  assert (Hperm : ∀ y, y ∈ (edges_order (nd_edges nd)).*1 ↔ is_Some (nd_edges nd !! y)).
  { intros y. rewrite edges_order_perm, list_elem_of_fmap. split.
    - intros ([y' c] & -> & Hy%elem_of_map_to_list). by exists c.
    - intros [c Hc]. exists (y, c). split; [done|]. by apply elem_of_map_to_list. }
  destruct (edges_walk (Stats_dfs edges_order fuel (t_nodes t)) (base i ++ node_path t nd) (edges_order (nd_edges nd))) as (V & HV & HW).
  - rewrite edges_order_perm. apply NoDup_fst_map_to_list.
  - intros y c Hy. rewrite edges_order_perm, elem_of_map_to_list in Hy.
    destruct (ok_edge _ _ Hok _ _ _ _ Hi Hy) as (j & ndj & -> & Hj0 & Hj & Hh & Hb).
    destruct (IH j ndj Hj) as (V & HV & HW).
    { eapply Nat.lt_le_trans; [apply (deeper_lt t base (length (base i ++ node_path t nd)))|lia].
      - rewrite Hb, (length_app (base i ++ _)). pose proof (ok_nonempty _ _ Hok j ndj Hj Hj0). destruct (node_path t ndj); [done|cbn; lia].
      - by apply (elem_of_lookup_imap_2 (fun i nd => length (base i ++ node_path t nd))). }
    exists V. split; [|done]. eapply visits_ext; [|done]. intros k _. unfold below. rewrite Hh, Hb.
    split; [by intros [?|(x & [= ->] & ?)]|intros ?; right; by exists y].
  - exists ([i] ++ V). split.
    + eapply visits_ext, (visits_app _ _ _ _ (visit_self i nd Hi) HV).
      * intros j Hj. rewrite (below_end i nd j Hi Hj). by setoid_rewrite Hperm.
      * intros q -> (y & _ & Hpre%prefix_length). rewrite length_app in Hpre. cbn in Hpre. lia.
    + intros W acc Ha HND HS. rewrite app_assoc in HND. cbn [Stats_dfs].
      rewrite (rd_some _ _ nd) by (lia || by rewrite Nat2Z.id). step_ret. cbv zeta.
      pose proof (proj1 (NoDup_app _ _) HND) as [HND' _]. pose proof (proj1 (NoDup_app _ _) HND') as [HNW _].
      destruct (HW (W ++ [i]) _ (count_node W i nd acc Hi Ha HNW HS) HND) as (acc' & E & Ha').
      { intros j [?| ->%list_elem_of_singleton]%elem_of_app; [by apply HS|by eexists]. }
      exists acc'. by rewrite app_assoc.
Qed.

Lemma all_nodes V : visits (fun _ => True) V → nodes_at V ≡ₚ t_nodes t.
Proof.
  intros [H1 H2]. assert (HV : V ≡ₚ seq 0 (length (t_nodes t))).
  { apply NoDup_Permutation; [done|apply NoDup_seq|]. intros j. rewrite H2, elem_of_seq, lookup_lt_is_Some.
    split; [intros [? _]; lia|]. intros [_ Hj]. split; [exact Hj|done]. }
  unfold nodes_at. rewrite HV. clear. induction (t_nodes t) as [|nd l IH] using rev_ind; [done|].
  rewrite length_app, Nat.add_comm. cbn [length Nat.add]. rewrite seq_S, omap_app. cbn. rewrite lookup_app_r, Nat.sub_diag by lia. cbn.
  apply Permutation_app; [|done]. rewrite <- IH at 2. apply reflexive_eq. clear IH.
  assert (H : ∀ k : list nat, (∀ j, j ∈ k → (j < length l)%nat) → omap (λ j, (l ++ [nd]) !! j) k = omap (λ j, l !! j) k).
  { induction k as [|j k IH]; intros Hk; cbn; [done|]. rewrite lookup_app_l by (apply Hk; by left).
    rewrite IH by (intros; apply Hk; by right). done. }
  apply H. intros j ?%elem_of_seq. lia.
Qed.

(** The output of [Stats]: histograms over all nodes. *)
Lemma Stats_spec : ∃ children pathStat, Stats edges_order t = Ret (Stats_text children pathStat (zlen (t_nodes t)) (zlen (t_paths t)))
  ∧ shows children (how_many edges_of (t_nodes t)) ∧ shows pathStat (how_many keys_of (t_nodes t)).
Proof.
  destruct (ok_root _ _ Hok) as [_ (root & Hroot & _)].
  destruct (node_walk (S (length (t_nodes t))) 0 root Hroot) as (V & HV & HW).
  { unfold deeper. pose proof (length_filter (fun l => length (base 0%nat ++ node_path t root) < l)%nat (end_lengths t base)) as H.
    unfold end_lengths in H at 2. rewrite length_imap in H. lia. }
  destruct (HW [] (∅, ∅)) as ([cs ps] & E & H1 & H2); [done|apply HV|by intros j ?%elem_of_nil|].
  exists cs, ps. unfold Stats. change (Z.of_nat 0) with 0 in E. rewrite E. step_ret. split; [done|].
  assert (Hp : nodes_at V ≡ₚ t_nodes t).
  { apply all_nodes. eapply visits_ext; [|done]. intros j _. split; [done|]. intros _. by left. }
  split; intros k; [rewrite H1|rewrite H2]; cbn [app]; by rewrite Hp.
Qed.
End traversal.
