(* ===== verification/FlameMain.v ===== *)
(** * The flame graph tool ([flamegraph/src/main.cpp])

    The tool reads lines "value TAB [0,key,...,key]" from its input, merges them in the
    trie and prints the heaviest nodes or statistics.  Input and output are text, lists of
    character codes; a run yields what is written to the two output streams and the exit code. *)

From Stdlib Require Import ZArith Lia.
From stdpp Require Import base numbers list gmap strings.
From S2P Require Import Prelude FromChars CompressedTrie GetTop FlameStats.

Record LineValue := mkLineValue { lv_value : Z; lv_path : list Z }.

(** Success, the position behind the number, the number. *)
Definition parse_number (ty : int_type) (s : text) : option (text * Z) :=
  let '(rest, ec, v) := from_chars ty s in
  if bool_decide (length rest = length s) then None
  else if bool_decide (ec = EcOk) then Some (rest, v) else None.

(** The overload for a whole string. *)
Definition parse_number_view (ty : int_type) (s : text) : option Z :=
  '(rest, v) ← parse_number ty s;
  match rest with [] => Some v | _ => None end.

(** [CHECK(ptr < end && *ptr == c)] and the step behind it. *)
Definition expect (c : Z) (s : text) : option text :=
  match s with x :: s => if x =? c then Some s else None | [] => None end.

(** Keys up to a closing bracket at which a key could start. *)
Fixpoint parse_path (fuel : nat) (s : text) : outcome (option (list Z)) :=
  match s with
  | [] => Ret (Some [])
  | c :: _ =>
    if c =? 93 then Ret (Some [])
    else
      match fuel with
      | O => NoFuel
      | S fuel =>
        match parse_number T_uint32 s with
        | None => Ret None
        | Some (x :: s, val) =>
          if (x =? 44) || (x =? 93) then
            rest ← parse_path fuel s;
            Ret (option_map (cons val) rest)
          else Ret None
        | Some ([], _) => Ret None
        end
      end
  end.

Definition parse_line (s : text) : outcome (option LineValue) :=
  match s with
  | [] => Ret (Some (mkLineValue 0 []))
  | _ =>
    match parse_number T_int64 s with
    | None => Ret None
    | Some (s, value) =>
      match (s ← expect 9 s; expect 91 s) with
      | None => Ret None
      | Some s => path ← parse_path (length s) s; Ret (option_map (mkLineValue value) path)
      end
    end
  end.

(** [std::getline]: the text up to the next newline. *)
Fixpoint getlines (s : text) : list text :=
  match s with
  | [] => []
  | c :: s =>
    if c =? 10 then [] :: getlines s
    else match getlines s with l :: ls => (c :: l) :: ls | [] => [[c]] end
  end.

Inductive answer :=
| AIncorrectLine (line : text)
| AMissingRoot (line : text)
| AStats (out : text)
| ATop (out : text).

(** The loop over the lines: the trie, or the message. *)
Fixpoint read_graph (t : CompressedTrie) (lines : list text) : outcome (answer + CompressedTrie) :=
  match lines with
  | [] => Ret (inr t)
  | buf :: lines =>
    line ← parse_line buf;
    match line with
    | None => Ret (inl (AIncorrectLine buf))
    | Some (mkLineValue value path) =>
      match path with
      | 0 :: path => t ← Append t path value; read_graph t lines
      | _ => Ret (inl (AMissingRoot buf))
      end
    end
  end.

(** One line of the output. *)
Definition print_entry (ind : nat) (e : RetrievedNode) : text :=
  print_int (Z.of_nat ind) ++ [9] ++ print_int (rn_key e) ++ [9] ++ print_int (rn_depth e) ++ [9]
  ++ print_int (rn_total e) ++ [9] ++ print_int (rn_value e) ++ [10].

Section process.
Context `{!MinQueue} (edges_order : gmap Z Z → list (Z * Z)).

Definition process (input : text) (count : Z) (stats : bool) : outcome answer :=
  graph ← read_graph CompressedTrie_ctor (getlines input);
  match graph with
  | inl a => Ret a
  | inr t =>
    if stats then out ← Stats edges_order t; Ret (AStats out)
    else result ← GetTop edges_order t count; Ret (ATop (concat (imap print_entry result)))
  end.

(** What a run of the tool leaves behind. *)
Record ToolRun := mkRun { r_cout : text; r_cerr : text; r_code : Z }.

Definition show_answer (a : answer) : ToolRun :=
  match a with
  | AIncorrectLine line => mkRun [] (str "Incorrect line: " ++ line ++ [10]) 0
  | AMissingRoot line => mkRun [] (str "Missing root node: " ++ line ++ [10]) 0
  | AStats out | ATop out => mkRun out [] 0
  end.

Definition help : text :=
  str "Usage: ./flamegraph <arg>" ++ [10] ++ str "stats -> print stats only" ++ [10]
  ++ str "<count> -> non negative integer, print top <count> nodes for flamegraph" ++ [10].

(** The count and the flag that the arguments ask for, if they are right. *)
Definition main_args (args : list text) : option (Z * bool) :=
  match args with
  | [] => Some (1000, false)
  | [arg] =>
    if bool_decide (arg = str "stats") then Some (1000, true)
    else count ← parse_number_view T_uint64 arg; Some (count, false)
  | _ => None
  end.

Definition main (args : list text) (input : text) : outcome ToolRun :=
  match main_args args with
  | None => Ret (mkRun help [] (-1))
  | Some (count, stats) => a ← process input count stats; Ret (show_answer a)
  end.
End process.

(** ** Printing and parsing lines *)

(** The keys as they are written: a comma before every key but the first. *)
Fixpoint print_keys (path : list Z) : text :=
  match path with
  | [] => []
  | [k] => print_int k
  | k :: path => print_int k ++ [44] ++ print_keys path
  end.

Definition print_line (value : Z) (path : list Z) : text := print_int value ++ [9; 91] ++ print_keys path ++ [93].

Lemma parse_number_print ty n rest : it_min ty ≤ n ≤ it_max ty → (it_signed ty = false → 0 ≤ it_min ty) →
  (∀ c, head rest = Some c → is_digit c = false) → parse_number ty (print_int n ++ rest) = Some (rest, n).
Proof.
  intros Hn Hu Hr. unfold parse_number. rewrite from_chars_print by done.
  rewrite bool_decide_eq_false_2; [done|]. rewrite length_app. unfold print_int.
  destruct (Z.ltb_spec n 0); cbn [length]; [lia|]. destruct (print_nat_spec n) as (_ & Hne & _); [lia|].
  destruct (print_nat n); [done|]. cbn. lia.
Qed.

(** The first character of a number is a minus sign or a digit. *)
Lemma print_int_head n : ∃ c s, print_int n = c :: s ∧ (c = 45 ∨ 48 ≤ c ≤ 57).
Proof.
  unfold print_int. destruct (Z.ltb_spec n 0); [by exists 45, (print_nat (- n)); auto|].
  destruct (print_nat_spec n) as (Hd & Hne & _); [lia|]. destruct (print_nat n) as [|c s]; [done|].
  exists c, s. split; [done|]. right. apply Forall_cons in Hd as [Hc _]. by apply is_digit_spec.
Qed.

(** One key, when a comma or the bracket follows. *)
Lemma parse_path_key fuel k x s : is_u32 k → x = 44 ∨ x = 93 →
  parse_path (S fuel) (print_int k ++ x :: s) = (rest ← parse_path fuel s; Ret (option_map (cons k) rest)).
Proof.
  intros Hk Hx. destruct (print_int_head k) as (c & s' & E & Hc).
  assert (Hn : parse_number T_uint32 (print_int k ++ x :: s) = Some (x :: s, k)).
  { apply parse_number_print; [unfold is_u32 in Hk; cbn; lia|done|]. intros y [= <-]. by destruct Hx as [-> | ->]. }
  rewrite E in *. cbn [app] in *. cbn [parse_path]. destruct (Z.eqb_spec c 93); [lia|]. rewrite Hn.
  destruct Hx as [-> | ->]; done.
Qed.

Lemma parse_path_print path : Forall is_u32 path → ∀ fuel, (length path ≤ fuel)%nat →
  parse_path fuel (print_keys path ++ [93]) = Ret (Some path).
Proof.
  induction 1 as [|k path Hk _ IH]; intros fuel Hf; [by destruct fuel|]. cbn [length] in Hf.
  destruct fuel as [|fuel]; [lia|]. destruct path as [|k' path].
  - cbn [print_keys]. rewrite parse_path_key by auto. by destruct fuel.
  - change (print_keys (k :: k' :: path)) with (print_int k ++ [44] ++ print_keys (k' :: path)).
    rewrite <- !app_assoc. cbn [app]. rewrite parse_path_key by auto. rewrite IH by lia. done.
Qed.

Lemma print_keys_length path : (length path ≤ length (print_keys path ++ [93%Z]))%nat.
Proof.
  induction path as [|k [|k' path] IH]; [cbn; lia| |].
  - rewrite length_app. cbn. lia.
  - change (print_keys (k :: k' :: path)) with (print_int k ++ [44] ++ print_keys (k' :: path)).
    rewrite !length_app in *. cbn [length] in *. lia.
Qed.

Lemma parse_line_print value path : is_i64 value → Forall is_u32 path →
  parse_line (print_line value path) = Ret (Some (mkLineValue value path)).
Proof.
  intros Hv Hp. unfold print_line, parse_line. destruct (print_int_head value) as (c & s & E & _).
  assert (Hn : parse_number T_int64 (print_int value ++ [9; 91] ++ print_keys path ++ [93])
    = Some (9 :: 91 :: (print_keys path ++ [93]), value)).
  { apply parse_number_print; [unfold is_i64 in Hv; cbn; lia|done|]. by intros c' [= <-]. }
  rewrite Hn, E. cbn [app]. change (s ← expect 9 (9 :: 91 :: print_keys path ++ [93]); expect 91 s)
    with (Some (print_keys path ++ [93])).
  cbv beta iota. rewrite parse_path_print by (done || apply print_keys_length). done.
Qed.

(** What is parsed fits its types, and parsing ends. *)
Lemma parse_number_sound ty s rest v : parse_number ty s = Some (rest, v) →
  it_min ty ≤ v ≤ it_max ty ∧ (length rest < length s)%nat.
Proof.
  unfold parse_number. destruct (from_chars ty s) as [[r e] w] eqn:E. case_bool_decide as Hl; [done|].
  case_bool_decide as He; [|done]. intros [= -> ->]. rewrite He in E. split; [by apply from_chars_range in E|].
  apply from_chars_rest in E as [_ [[? _]|[_ ?]]]; done.
Qed.

Lemma parse_path_sound fuel : ∀ s, (length s ≤ fuel)%nat →
  ∃ r, parse_path fuel s = Ret r ∧ ∀ path, r = Some path → Forall is_u32 path ∧ (length path ≤ length s)%nat.
Proof.
  assert (Hnil : ∀ n path, Some [] = Some path → Forall is_u32 path ∧ (length path ≤ n)%nat).
  { intros n path [= <-]. split; [constructor|cbn; lia]. }
  induction fuel as [|fuel IH]; intros [|c s] Hf; cbn [length] in Hf; try lia; cbn [parse_path].
  1, 2: exists (Some []); split; [done|apply Hnil].
  destruct (Z.eqb_spec c 93); [exists (Some []); split; [done|apply Hnil]|].
  destruct (parse_number T_uint32 (c :: s)) as [[[|x s'] v]|] eqn:E; try by exists None.
  apply parse_number_sound in E as [Hv Hl]. cbn in Hv, Hl.
  destruct ((x =? 44) || (x =? 93)); [|by exists None].
  destruct (IH s') as (r & -> & Hr); [lia|]. step_ret. eexists. split; [done|].
  intros path Hpath. destruct r as [p|]; [|done]. injection Hpath as <-. destruct (Hr p eq_refl).
  split; [constructor; [unfold is_u32; lia|done]|cbn [length]; lia].
Qed.

Lemma expect_length c s s' : expect c s = Some s' → length s = S (length s').
Proof. destruct s as [|x s]; cbn; [done|]. destruct (x =? c); [|done]. by intros [= ->]. Qed.

Lemma parse_line_sound s : ∃ r, parse_line s = Ret r ∧ ∀ v path, r = Some (mkLineValue v path) →
  is_i64 v ∧ Forall is_u32 path ∧ (length path ≤ length s)%nat.
Proof.
  unfold parse_line. destruct s as [|c s].
  { eexists. split; [done|]. intros v p [= <- <-]. split; [done|]. split; [constructor|done]. }
  destruct (parse_number T_int64 (c :: s)) as [[s' v]|] eqn:E; [|by exists None].
  apply parse_number_sound in E as [Hv Hl]. change (- 2 ^ 63 ≤ v ≤ 2 ^ 63 - 1) in Hv.
  destruct (s ← expect 9 s'; expect 91 s) as [s''|] eqn:Es; [|by exists None].
  apply bind_Some in Es as (s1 & E1%expect_length & E2%expect_length).
  destruct (parse_path_sound (length s'') s'') as (r & -> & Hr); [done|]. step_ret. eexists. split; [done|].
  intros v' path Hp. destruct r as [p|]; [|done]. injection Hp as <- <-. destruct (Hr p eq_refl).
  split; [unfold is_i64; lia|]. split; [done|lia].
Qed.

(** ** Lines *)

Definition unlines (lines : list text) : text := concat ((fun l => l ++ [10]) <$> lines).

Lemma getlines_line l s : Forall (fun c => c ≠ 10) l → getlines (l ++ 10 :: s) = l :: getlines s.
Proof.
  induction 1 as [|c l Hc _ IH]; cbn [app getlines]; [done|]. destruct (Z.eqb_spec c 10); [done|]. by rewrite IH.
Qed.

Lemma getlines_unlines lines : Forall (Forall (fun c => c ≠ 10)) lines → getlines (unlines lines) = lines.
Proof.
  unfold unlines. induction 1 as [|l lines Hl _ IH]; cbn [fmap list_fmap concat]; [done|].
  rewrite <- app_assoc. cbn [app]. by rewrite getlines_line, IH.
Qed.

Definition size_of (lines : list text) : nat := foldr (fun l acc => length l + acc)%nat 0%nat lines.

Lemma getlines_size s : (length (getlines s) ≤ length s ∧ size_of (getlines s) ≤ length s)%nat.
Proof.
  unfold size_of. induction s as [|c s [IH1 IH2]]; cbn [getlines]; [done|].
  destruct (c =? 10); cbn [length foldr]; [lia|].
  destruct (getlines s) as [|l ls]; cbn [length foldr] in *; lia.
Qed.

Lemma print_keys_chars path : Forall (fun c => c ≠ 10) (print_keys path).
Proof.
  assert (Hk : ∀ k, Forall (fun c => c ≠ 10) (print_int k)).
  { intros k. apply (Forall_impl _ _ _ (print_int_chars k)). lia. }
  induction path as [|k [|k' path] IH]; [constructor|apply Hk|].
  change (print_keys (k :: k' :: path)) with (print_int k ++ [44] ++ print_keys (k' :: path)).
  apply Forall_app_2; [apply Hk|]. constructor; [done|apply IH].
Qed.

Lemma print_line_chars value path : Forall (fun c => c ≠ 10) (print_line value path).
Proof.
  unfold print_line. apply Forall_app_2.
  - apply (Forall_impl _ _ _ (print_int_chars value)). lia.
  - do 2 (constructor; [done|]). apply Forall_app_2; [apply print_keys_chars|]. by constructor.
Qed.

(** ** The loop over the lines *)

(** A line that adds an entry, and a line that ends the run with a message. *)
Definition line_entry (buf : text) (e : list Z * Z) : Prop :=
  parse_line buf = Ret (Some (mkLineValue e.2 (0 :: e.1))).

Definition line_error (buf : text) (a : answer) : Prop :=
  (parse_line buf = Ret None ∧ a = AIncorrectLine buf)
  ∨ ∃ v path, parse_line buf = Ret (Some (mkLineValue v path)) ∧ head path ≠ Some 0 ∧ a = AMissingRoot buf.

(** A profile as text: every stack starts at the root. *)
Definition print_profile (L : list (list Z * Z)) : text := unlines ((fun e => print_line e.2 (0 :: e.1)) <$> L).

Lemma line_class buf : (∃ e, line_entry buf e) ∨ ∃ a, line_error buf a.
Proof.
  destruct (parse_line_sound buf) as ([[v path]|] & E & _).
  - destruct path as [|[|k|k] p]; [right|left; by exists (p, v)|right..];
      exists (AMissingRoot buf); right; by eexists _, _.
  - right. exists (AIncorrectLine buf). by left.
Qed.

(** The entries up to the first line with an error. *)
Lemma lines_class lines : ∃ good L, Forall2 line_entry good L ∧
  (lines = good ∨ ∃ bad rest a, lines = good ++ bad :: rest ∧ line_error bad a).
Proof.
  induction lines as [|buf lines (good & L & HL & Hr)]; [exists [], []; split; [constructor|by left]|].
  destruct (line_class buf) as [[e He]|[a Ha]].
  - exists (buf :: good), (e :: L). split; [by constructor|].
    destruct Hr as [->|(bad & rest & a & -> & Ha)]; [by left|]. right. by exists bad, rest, a.
  - exists [], []. split; [constructor|]. right. by exists buf, lines, a.
Qed.

Lemma read_graph_app good L rest : Forall2 line_entry good L →
  ∀ t t', Appends t L = Ret t' → read_graph t (good ++ rest) = read_graph t' rest.
Proof.
  induction 1 as [|buf [p v] good L He _ IH]; intros t t' Ht; cbn [Appends] in Ht; [by simplify_eq|].
  cbn [app read_graph]. rewrite He. step_ret. cbn [fst snd].
  destruct (Append t p v) as [t1| |]; try discriminate Ht. by apply IH.
Qed.

Lemma read_graph_error t buf rest a : line_error buf a → read_graph t (buf :: rest) = Ret (inl a).
Proof.
  intros [[E ->]|(v & path & E & Hh & ->)]; cbn [read_graph]; rewrite E; [done|].
  by destruct path as [|[|k|k] p].
Qed.

(** The bounds of the trie hold for short inputs. *)
Lemma entries_short good L : Forall2 line_entry good L →
  zlen L = zlen good ∧ keys L ≤ Z.of_nat (size_of good).
Proof.
  induction 1 as [|buf [p v] good L He _ [IH1 IH2]]; [done|].
  change (keys ((p, v) :: L)) with (zlen p + keys L).
  destruct (parse_line_sound buf) as (r & E & Hr). unfold line_entry in He. rewrite E in He. injection He as ->.
  destruct (Hr _ _ eq_refl) as (_ & _ & Hl). unfold zlen in *. cbn [length size_of foldr] in *.
  change (foldr _ _ good) with (size_of good). lia.
Qed.

Lemma size_of_app a b : size_of (a ++ b) = (size_of a + size_of b)%nat.
Proof. unfold size_of. induction a as [|l a IH]; cbn [app foldr]; lia. Qed.

Lemma input_trie input good L rest : Forall2 line_entry good L → getlines input = good ++ rest →
  zlen input < 2 ^ 30 → 4 + 2 * zlen L < 2 ^ 32 ∧ keys L < 2 ^ 32 ∧ ∃ t, Appends CompressedTrie_ctor L = Ret t.
Proof.
  intros HL Hlines Hin. destruct (entries_short good L HL) as [E1 E2].
  destruct (getlines_size input) as [S1 S2]. rewrite Hlines in S1, S2. rewrite length_app in S1. rewrite size_of_app in S2. unfold zlen in *.
  assert (B1 : 4 + 2 * Z.of_nat (length L) < 2 ^ 32) by lia. assert (B2 : keys L < 2 ^ 32) by lia.
  split_and!; [done..|]. destruct (Appends_ctor L B1 B2) as (t & _ & Ht & _). by exists t.
Qed.

Lemma profile_nodes L t : 4 + 2 * zlen L < 2 ^ 32 → keys L < 2 ^ 32 → Appends CompressedTrie_ctor L = Ret t → zlen (t_nodes t) < 2 ^ 32.
Proof.
  intros H1 H2 Ht. destruct (Appends_ctor L H1 H2) as (t0 & _ & E & _ & _ & Hn & _). rewrite Ht in E. injection E as <-. lia.
Qed.

(** ** Properties *)

(** A profile that is printed as lines and read again gives its entries back: any
    64-bit values and any stacks of 32-bit keys, the empty stack included. *)
Lemma profile_roundtrip L : Forall (fun e => is_i64 e.2 ∧ Forall is_u32 e.1) L →
  Forall2 line_entry (getlines (print_profile L)) L.
Proof.
  intros HL. unfold print_profile. rewrite getlines_unlines.
  - apply Forall2_fmap_l, Forall_Forall2_diag. apply (Forall_impl _ _ _ HL). intros [p v] [Hv Hp].
    unfold line_entry. apply parse_line_print; [done|]. by constructor.
  - apply Forall_fmap, Forall_true. intros e. apply print_line_chars.
Qed.

Lemma main_args_count args count stats : main_args args = Some (count, stats) → 0 ≤ count.
Proof.
  destruct args as [|arg [|]]; cbn; [intros [= <- _]; lia| |done]. case_bool_decide; [intros [= <- _]; lia|].
  unfold parse_number_view. destruct (parse_number T_uint64 arg) as [[rest v]|] eqn:E; [|done].
  cbn. destruct rest; cbn; [|done]. intros [= -> _]. apply parse_number_sound in E as [Hv _]. cbn in Hv. lia.
Qed.

(** The lines of the input: all of them entries, or entries up to a line with an error. *)
Inductive reading (input : text) (L : list (list Z * Z)) : option answer → Prop :=
| reads_all : Forall2 line_entry (getlines input) L → reading input L None
| reads_until good bad rest a : Forall2 line_entry good L → getlines input = good ++ bad :: rest → line_error bad a →
  reading input L (Some a).

(** What the tool prints for the trie of a profile. *)
Definition printed `{!MinQueue} (edges_order : gmap Z Z → list (Z * Z)) (t : CompressedTrie) (count : Z) (stats : bool) (out : text) : Prop :=
  if stats then
    ∃ children pathStat, out = Stats_text children pathStat (zlen (t_nodes t)) (zlen (t_paths t))
      ∧ shows children (how_many edges_of (t_nodes t)) ∧ shows pathStat (how_many keys_of (t_nodes t))
  else ∃ res, GetTop edges_order t count = Ret res ∧ out = concat (imap print_entry res).

(** C31: on any arguments and any input of less than 2^30 characters the tool ends.  Wrong arguments
    give the help text and the exit code -1.  Otherwise it takes the entries of the lines up to the
    first one that is malformed or does not start at the root; the message about such a line, on
    the error stream, is the only output, whatever follows it.  Without one the output is the list
    [GetTop] gives for the trie of all entries, or the statistics, which count every node
    of the trie exactly once, by the number of its edges and by the length of its segment.  A
    profile of any 64-bit values and stacks of 32-bit keys that is printed as lines is read
    back as the same entries. *)
Theorem tool_answers `{!MinQueue} (edges_order : gmap Z Z → list (Z * Z)) args input :
  (∀ m, edges_order m ≡ₚ map_to_list m) → zlen input < 2 ^ 30 →
  match main_args args with
  | None => main edges_order args input = Ret (mkRun help [] (-1))
  | Some (count, stats) =>
    ∃ L r, main edges_order args input = Ret r ∧ r_code r = 0
      ∧ ((∃ a, reading input L (Some a) ∧ r = show_answer a ∧ r_cout r = [])
         ∨ reading input L None ∧ r_cerr r = []
           ∧ ∃ t, Appends CompressedTrie_ctor L = Ret t ∧ printed edges_order t count stats (r_cout r))
  end
  ∧ ∀ L, Forall (fun e => is_i64 e.2 ∧ Forall is_u32 e.1) L → reading (print_profile L) L None.
Proof.
  intros Hord Hin. split; [|intros L HL; by apply reads_all, profile_roundtrip]. unfold main. destruct (main_args args) as [[count stats]|] eqn:Eargs; [|done].
  pose proof (main_args_count _ _ _ Eargs) as Hc. clear Eargs.
  destruct (lines_class (getlines input)) as (good & L & HL & [E|(bad & rest & a & E & Ha)]); exists L.
  - rewrite <- (app_nil_r good) in E. destruct (input_trie input good L [] HL E Hin) as (B1 & B2 & t & Ht).
    destruct (profile_ready L t B1 B2 Ht) as (base & Hok & _ & Hp & Hd).
    unfold process. rewrite E, (read_graph_app good L [] HL _ _ Ht). cbn [read_graph]. step_ret.
    assert (Hr : reading input L None) by (apply reads_all; by rewrite E, app_nil_r).
    destruct stats.
    + destruct (Stats_spec edges_order Hord t base Hok (profile_nodes L t B1 B2 Ht)) as (cs & ps & -> & H1 & H2).
      repeat step_ret. eexists. split; [done|]. split; [done|]. right. split; [done|]. split; [done|]. exists t.
      split; [done|]. by exists cs, ps.
    + destruct (GetTop_spec edges_order Hord t base Hok Hp Hd count Hc) as (_ & _ & out & Hres & _). rewrite Hres.
      repeat step_ret. eexists. split; [done|]. split; [done|]. right. split; [done|]. split; [done|]. exists t. split; [done|]. by eexists.
  - destruct (input_trie input good L _ HL E Hin) as (_ & _ & t & Ht).
    unfold process. rewrite E, (read_graph_app good L _ HL _ _ Ht), (read_graph_error t _ _ _ Ha). repeat step_ret.
    eexists. split; [done|]. assert (Hr : reading input L (Some a)) by by eapply reads_until.
    destruct Ha as [[_ ->]|(v & path & _ & _ & ->)]; (split; [done|]); left; by eexists.
Qed.

Lemma tool_answers_witness :
  let input := print_profile [([1; 2], 10); ([1], 5)] in
  let top := [48; 9; 48; 9; 48; 9; 49; 53; 9; 48; 10; 49; 9; 49; 9; 49; 9; 49; 53; 9; 53; 10] in
  main map_to_list [str "2"] input = Ret (mkRun top [] 0)
  ∧ main map_to_list [str "stats"] input
      = Ret (mkRun (Stats_text {[0 := 1; 1 := 2]} {[0 := 1; 1 := 2]} 3 2) [] 0)
  ∧ main map_to_list [str "2"] ([53; 10] ++ input) = Ret (mkRun [] (str "Incorrect line: 5" ++ [10]) 0)
  ∧ main map_to_list [str "x"] input = Ret (mkRun help [] (-1)).
Proof.
  intros input top.
  pose proof (tool_answers map_to_list [str "2"] input (fun _ => reflexivity _) eq_refl) as [(L & r & E & _) _].
  split; [|split_and!].
  - rewrite E. f_equal. vm_compute in E. by injection E as <-.
  - vm_compute. reflexivity.
  - vm_compute. reflexivity.
  - exact (proj1 (tool_answers map_to_list [str "x"] input (fun _ => reflexivity _) eq_refl)).
Defined.
