(* ===== verification/ParseStruct.v ===== *)
(** * Parsing options into structs ([impl/config/*.h])

    A struct of the configuration is a list of named variables, the way [boost::hana]
    presents it to the templates: a variable holds a value or a struct again.  Parsing
    returns the calls of the error callback in their order, the verdict and the struct.
    The iterator of boost that splits the input is the class [SplitIterator].  The
    specification sees a struct as a partial function from paths to variables. *)

From Stdlib Require Import ZArith Lia.
From stdpp Require Import base numbers list strings.
From S2P Require Import Prelude FromChars.

(** ** Values *)

(** The types of the variables: integers and enums carry the integer type that is parsed,
    an optional has its flag and its value, the default value when it is empty. *)
Inductive ConfigValue :=
| VBool (b : bool)
| VInt (ty : int_type) (v : Z)
| VEnum (ty : int_type) (v : Z)
| VString (s : text)
| VOptional (has_value : bool) (obj : ConfigValue).

Definition ParseValue_integral (ty : int_type) (s : text) : option Z :=
  let '(_, ec, v) := from_chars ty s in if bool_decide (ec = EcOk) then Some v else None.

Definition ParseValue_bool (s : text) : option bool :=
  if bool_decide (s = str "true") then Some true
  else if bool_decide (s = str "false") then Some false
  else v ← ParseValue_integral T_int32 s; Some (0 <? v).

(** The new value, or [None] and the value stays as it is. *)
Fixpoint ParseValue (s : text) (value : ConfigValue) : option ConfigValue :=
  match value with
  | VBool _ => VBool <$> ParseValue_bool s
  | VInt ty _ => VInt ty <$> ParseValue_integral ty s
  | VEnum ty _ => VEnum ty <$> ParseValue_integral ty s
  | VString _ => Some (VString s)
  | VOptional _ obj => VOptional true <$> ParseValue s obj
  end.

(** ** Variables and structs *)

Record ConfigVar (T : Type) := mkVar { ParamName : text; IsRequired : bool; m_set : bool; m_value : T }.
#[global] Arguments mkVar {_} _ _ _ _.
#[global] Arguments ParamName {_} _.
#[global] Arguments IsRequired {_} _.
#[global] Arguments m_set {_} _.
#[global] Arguments m_value {_} _.

Inductive object := OValue (v : ConfigValue) | OStruct (ms : list (ConfigVar object)).

Abbreviation var := (ConfigVar ConfigValue).
Abbreviation member := (ConfigVar object).

Definition CONFIG_VAR {T} (name : text) (required : bool) (defaultValue : T) : ConfigVar T :=
  mkVar name required false defaultValue.
Definition CONFIG_VAR_OPT {T} (name : text) (defaultValue : T) : ConfigVar T := CONFIG_VAR name false defaultValue.

Definition ConfigVar_assign {T} (x : ConfigVar T) (value : T) : ConfigVar T :=
  mkVar (ParamName x) (IsRequired x) true value.
Definition ConfigVar_deref_assign {T} (x : ConfigVar T) (value : T) : ConfigVar T :=
  mkVar (ParamName x) (IsRequired x) (m_set x) value.
Definition GetName {T} (x : ConfigVar T) : text := ParamName x.
Definition IsValid {T} (x : ConfigVar T) : bool := m_set x || negb (IsRequired x).
Definition SetFlag {T} (x : ConfigVar T) : ConfigVar T := mkVar (ParamName x) (IsRequired x) true (m_value x).

Definition ConfigVar_ParseValue (x : var) (s : text) : bool * var :=
  match ParseValue s (m_value x) with
  | Some v => (true, mkVar (ParamName x) (IsRequired x) true v)
  | None => (false, x)
  end.

(** ** Errors *)

Inductive ParseErrorType := Ok | FieldNotFound | ValueNotParsed | ValueNotFound | RequiredFieldMissing.

#[export] Instance ParseErrorType_eq_dec : EqDecision ParseErrorType.
Proof. solve_decision. Defined.

Record ParseError := mkError { er_type : ParseErrorType; er_key : text; er_field : text; er_value : text }.

#[export] Instance ParseError_eq_dec : EqDecision ParseError.
Proof. solve_decision. Defined.

Record ParseContext := mkContext { keyView : text; parsedSize : Z; valueView : text }.

Definition GetErrorType (fieldFound valueParsed : bool) : ParseErrorType :=
  if negb fieldFound then FieldNotFound else if negb valueParsed then ValueNotParsed else Ok.

(** ** Parsing *)

(** [std::string_view::find] for one character; positions beyond the end find nothing. *)
Definition find (s : text) (c : Z) (pos : Z) : option Z :=
  (fun p => pos + Z.of_nat p.1) <$> list_find (fun x => x = c) (drop (Z.to_nat pos) s).

(** [std::string_view::substr]; the code below only asks for positions in the view. *)
Definition substr (s : text) (pos count : Z) : text := take (Z.to_nat count) (drop (Z.to_nat pos) s).
Definition substr_end (s : text) (pos : Z) : text := drop (Z.to_nat pos) s.

(** [boost::hana::for_each] over the members, with the variables the body captures. *)
Fixpoint for_each {A S} (f : S → A → S * A) (st : S) (ms : list A) : S * list A :=
  match ms with
  | [] => (st, [])
  | m :: ms => let '(st, m) := f st m in let '(st, ms) := for_each f st ms in (st, m :: ms)
  end.

Definition field_step (fieldKey value : text) (st : bool * bool) (m : member) : (bool * bool) * member :=
  let '(fieldFound, valueParsed) := st in
  if bool_decide (GetName m = fieldKey) then
    match m_value m with
    | OStruct _ => ((true, valueParsed), m)
    | OValue v =>
      let '(ok, x) := ConfigVar_ParseValue (mkVar (ParamName m) (IsRequired m) (m_set m) v) value in
      ((true, valueParsed || ok), mkVar (ParamName x) (IsRequired x) (m_set x) (OValue (m_value x)))
    end
  else (st, m).

Definition ParseStructField (ctx : ParseContext) (ms : list member) : list ParseError * bool * list member :=
  let fieldKey := substr_end (keyView ctx) (parsedSize ctx) in
  let '((fieldFound, valueParsed), ms) := for_each (field_step fieldKey (valueView ctx)) (false, false) ms in
  let errorType := GetErrorType fieldFound valueParsed in
  if bool_decide (errorType = Ok) then ([], true, ms)
  else ([mkError errorType (keyView ctx) fieldKey (valueView ctx)], false, ms).

(** The recursion follows the type of the struct; a value has no members. *)
Fixpoint ParseStructNested (ctx : ParseContext) (o : object) {struct o} : list ParseError * bool * object :=
  match o with
  | OValue _ => ([], false, o)
  | OStruct ms =>
    match find (keyView ctx) 46 (parsedSize ctx) with
    | None => let '(errs, ok, ms) := ParseStructField ctx ms in (errs, ok, OStruct ms)
    | Some splitPos =>
      let structKey := substr (keyView ctx) (parsedSize ctx) (splitPos - parsedSize ctx) in
      let nextCtx := mkContext (keyView ctx) (u32 (splitPos + 1)) (valueView ctx) in
      let '((errs, fieldFound, valueParsed), ms) :=
        for_each (fun st m =>
          let '(errs, fieldFound, valueParsed) := st in
          if bool_decide (GetName m = structKey) then
            match m_value m with
            | OStruct _ =>
              let '(errs', isParsed, o) := ParseStructNested nextCtx (m_value m) in
              let m := ConfigVar_deref_assign m o in
              ((errs ++ errs', true, valueParsed || isParsed), if isParsed then SetFlag m else m)
            | OValue _ => ((errs, true, valueParsed), m)
            end
          else (st, m)) ([], false, false) ms in
      let errs := if negb fieldFound
                  then errs ++ [mkError FieldNotFound (keyView ctx) structKey (valueView ctx)] else errs in
      (errs, fieldFound && valueParsed, OStruct ms)
    end
  end.

Definition fullPath (keyPath memberName : text) : text :=
  match keyPath with [] => memberName | _ => keyPath ++ [46] ++ memberName end.

Fixpoint ValidateStruct (o : object) (keyPath : text) {struct o} : list ParseError * bool :=
  match o with
  | OValue _ => ([], true)
  | OStruct ms =>
    foldl (fun st m =>
      let '(errs, valid) := st in
      let path := fullPath keyPath (GetName m) in
      match m_value m with
      | OStruct _ =>
        let '(errs', nestedValid) := ValidateStruct (m_value m) path in (errs ++ errs', valid && nestedValid)
      | OValue _ =>
        if negb (IsValid m) then (errs ++ [mkError RequiredFieldMissing path (GetName m) []], false)
        else (errs, valid)
      end) ([], true) ms
  end.

(** The ranges [boost::algorithm::split_iterator] visits with the finder of ":": the parts
    between the colons, one more than there are colons. *)
Class SplitIterator := {
  split : text → list text;
  split_parts s : Forall (fun tok => 58 ∉ tok) (split s);
  split_join s : ∃ t ts, split s = t :: ts ∧ s = t ++ concat ((fun tok => 58 :: tok) <$> ts);
}.

Section ParseStruct.
Context `{!SplitIterator}.

(** The loop over the options. *)
Fixpoint ParseStruct_loop (tokens : list text) (errs : list ParseError) (valid : bool) (o : object)
  : list ParseError * bool * object :=
  match tokens with
  | [] => (errs, valid, o)
  | elemView :: tokens =>
    match find elemView 61 0 with
    | None => ParseStruct_loop tokens (errs ++ [mkError ValueNotFound elemView elemView []]) false o
    | Some separatorPos =>
      let keyView := substr elemView 0 separatorPos in
      let valueView := substr_end elemView (separatorPos + 1) in
      let '(errs', ok, o) := ParseStructNested (mkContext keyView 0 valueView) o in
      ParseStruct_loop tokens (errs ++ errs') (valid && ok) o
    end
  end.

Definition ParseStruct (input : text) (o : object) : list ParseError * bool * object :=
  let '(errs, valid, o) := ParseStruct_loop (split input) [] true o in
  let '(errs', ok) := ValidateStruct o [] in
  (errs ++ errs', valid && ok, o).
End ParseStruct.

(** ** Structs as partial functions *)

Lemma object_ind' (P : object → Prop) : (∀ v, P (OValue v)) →
  (∀ ms, Forall (fun m => P (m_value m)) ms → P (OStruct ms)) → ∀ o, P o.
Proof.
  intros Hv Hs. fix IH 1. intros [v|ms]; [apply Hv|]. apply Hs.
  induction ms as [|m ms IHms]; constructor; [apply IH|done].
Qed.

Definition find_member (k : text) (ms : list member) : option member :=
  snd <$> list_find (fun m => ParamName m = k) ms.

(** The variable at a path of names. *)
Fixpoint Get (path : list text) (o : object) : option var :=
  match path, o with
  | k :: p, OStruct ms =>
    m ← find_member k ms;
    match p, m_value m with
    | [], OValue v => Some (mkVar (ParamName m) (IsRequired m) (m_set m) v)
    | [], OStruct _ => None
    | _, o => Get p o
    end
  | _, _ => None
  end.

(** Names do not repeat in a struct. *)
Fixpoint names_ok (o : object) : bool :=
  match o with
  | OValue _ => true
  | OStruct ms => bool_decide (NoDup (ParamName <$> ms)) && forallb (fun m => names_ok (m_value m)) ms
  end.

Definition is_struct (o : object) : bool := match o with OStruct _ => true | OValue _ => false end.

(** What a struct's type says: names, requirements and the types of the values. *)
Fixpoint erase (v : ConfigValue) : ConfigValue :=
  match v with
  | VBool _ => VBool false
  | VInt ty _ => VInt ty 0
  | VEnum ty _ => VEnum ty 0
  | VString _ => VString []
  | VOptional _ v => VOptional false (erase v)
  end.

Fixpoint shape (o : object) : object :=
  match o with
  | OValue v => OValue (erase v)
  | OStruct ms => OStruct ((fun m => mkVar (ParamName m) (IsRequired m) false (shape (m_value m))) <$> ms)
  end.

Fixpoint typed (v : ConfigValue) : Prop :=
  match v with
  | VBool _ | VString _ => True
  | VInt ty z | VEnum ty z => it_min ty ≤ z ≤ it_max ty
  | VOptional _ v => typed v
  end.

Definition well_typed (o : object) : Prop := ∀ q x, Get q o = Some x → typed (m_value x).

(** ** Parts of a text *)

Fixpoint split_on (d : Z) (s : text) : list text :=
  match s with
  | [] => [[]]
  | c :: s =>
    if c =? d then [] :: split_on d s
    else match split_on d s with t :: ts => (c :: t) :: ts | [] => [[c]] end
  end.

Lemma split_on_ne d s : split_on d s ≠ [].
Proof. destruct s as [|c s]; cbn [split_on]; [done|]. destruct (c =? d); [done|]. by destruct (split_on d s). Qed.

Lemma split_on_none d s : list_find (fun x => x = d) s = None → split_on d s = [s].
Proof.
  induction s as [|c s IH]; [done|]. intros H. rewrite list_find_None in H. apply Forall_cons in H as [Hc H].
  cbn [split_on]. destruct (Z.eqb_spec c d); [done|]. rewrite IH; [done|]. by rewrite list_find_None.
Qed.

Lemma split_on_some d s i x : list_find (fun x => x = d) s = Some (i, x) →
  split_on d s = take i s :: split_on d (drop (S i) s).
Proof.
  revert i. induction s as [|c s IH]; intros i H; [done|]. cbn [split_on list_find] in *.
  destruct (decide (c = d)) as [->|Hc]; [injection H as <- <-; by rewrite Z.eqb_refl|].
  destruct (Z.eqb_spec c d); [done|].
  destruct (list_find (fun x => x = d) s) as [[j y]|] eqn:E; [|done]. injection H as <- <-. cbn.
  by rewrite (IH j).
Qed.

(** The finder of the separator in terms of the parts. *)
Lemma find_split s d pos : 0 ≤ pos → match find s d pos with
  | None => split_on d (drop (Z.to_nat pos) s) = [substr_end s pos]
  | Some p => pos ≤ p < zlen s ∧ split_on d (drop (Z.to_nat pos) s)
              = substr s pos (p - pos) :: split_on d (drop (Z.to_nat (p + 1)) s)
  end.
Proof.
  intros Hpos. unfold find, substr, substr_end. destruct (list_find _ _) as [[i x]|] eqn:E; cbn.
  - split.
    + apply list_find_Some in E as (Hi%lookup_lt_Some & _). rewrite length_drop in Hi. unfold zlen. lia.
    + rewrite (split_on_some _ _ _ _ E), drop_drop. repeat f_equal; lia.
  - by apply split_on_none.
Qed.

(** ** Members by name *)

Lemma find_member_none k ms : find_member k ms = None → Forall (fun m => ParamName m ≠ k) ms.
Proof. unfold find_member. intros H%fmap_None. by apply list_find_None in H. Qed.

Lemma find_member_some k ms m : NoDup (ParamName <$> ms) → find_member k ms = Some m →
  ∃ l1 l2, ms = l1 ++ m :: l2 ∧ ParamName m = k
    ∧ Forall (fun m => ParamName m ≠ k) l1 ∧ Forall (fun m => ParamName m ≠ k) l2.
Proof.
  unfold find_member. intros Hnd ([i y] & E & Hy)%fmap_Some. cbn in Hy. subst y.
  apply list_find_Some in E as (Hi & Hk & Hlt). pose proof (lookup_lt_Some _ _ _ Hi) as Hl.
  exists (take i ms), (drop (S i) ms). split; [by rewrite take_drop_middle|]. split; [done|].
  split; apply Forall_forall; intros x Hx Hxk.
  - apply list_elem_of_lookup in Hx as [j Hj]. apply lookup_take_Some in Hj as [Hj Hji]. by apply (Hlt j x).
  - apply list_elem_of_lookup in Hx as [j Hj]. rewrite lookup_drop in Hj.
    assert (i = S i + j)%nat; [|lia]. apply (NoDup_lookup (ParamName <$> ms) _ _ k); [done|..];
      rewrite list_lookup_fmap; [rewrite Hi|rewrite Hj]; cbn; by rewrite ?Hk, ?Hxk.
Qed.

(** The member itself, when no member before it has the name. *)
Lemma find_member_mid k l1 m l2 : Forall (fun m => ParamName m ≠ k) l1 →
  find_member k (l1 ++ m :: l2) = if decide (ParamName m = k) then Some m else find_member k l2.
Proof.
  intros H1. unfold find_member. rewrite list_find_app_r by by apply list_find_None. cbn [list_find].
  destruct (decide (ParamName m = k)); [done|]. by destruct (list_find _ l2) as [[i x]|].
Qed.

Lemma find_member_other k k' l1 m m' l2 : ParamName m = k → ParamName m' = k → k' ≠ k →
  find_member k' (l1 ++ m' :: l2) = find_member k' (l1 ++ m :: l2).
Proof.
  intros Hm Hm' Hne. unfold find_member. induction l1 as [|x l1 IH]; cbn [app list_find].
  - rewrite !decide_False by congruence. by destruct (list_find _ l2) as [[i x]|].
  - destruct (decide (ParamName x = k')); [done|].
    destruct (list_find _ (l1 ++ m' :: l2)) as [[i y]|], (list_find _ (l1 ++ m :: l2)) as [[j z]|]; done.
Qed.

Section for_each.
Context {S : Type} (k : text) (f : S → member → S * member).
Context (Hf : ∀ st m, ParamName m ≠ k → f st m = (st, m)).

Lemma for_each_miss st ms : Forall (fun m => ParamName m ≠ k) ms → for_each f st ms = (st, ms).
Proof. induction 1 as [|m ms Hm _ IH]; cbn [for_each]; [done|]. by rewrite Hf, IH. Qed.

Lemma for_each_hit st l1 m l2 : Forall (fun m => ParamName m ≠ k) l1 → Forall (fun m => ParamName m ≠ k) l2 →
  for_each f st (l1 ++ m :: l2) = ((f st m).1, l1 ++ (f st m).2 :: l2).
Proof.
  intros H1 H2. induction H1 as [|x l1 Hx _ IH]; cbn [app for_each].
  - destruct (f st m) as [st' m']. by rewrite for_each_miss.
  - by rewrite Hf, IH.
Qed.
End for_each.

Lemma names_ok_struct ms : names_ok (OStruct ms) = true ↔
  NoDup (ParamName <$> ms) ∧ Forall (fun m => names_ok (m_value m) = true) ms.
Proof. cbn [names_ok]. rewrite andb_true_iff, bool_decide_eq_true, List.forallb_forall, List.Forall_forall. done. Qed.

(** ** One option *)

Definition assign (x : var) (value : text) : option var :=
  v ← ParseValue value (m_value x); Some (mkVar (ParamName x) (IsRequired x) true v).

(** The error reports for one key. *)
Fixpoint blame (key value : text) (path : list text) (o : object) : list ParseError :=
  match path, o with
  | k :: p, OStruct ms =>
    match find_member k ms with
    | None => [mkError FieldNotFound key k value]
    | Some m =>
      match p, m_value m with
      | [], OValue v => match ParseValue value v with Some _ => [] | None => [mkError ValueNotParsed key k value] end
      | [], OStruct _ => [mkError ValueNotParsed key k value]
      | _, o => blame key value p o
      end
    end
  | _, _ => []
  end.

(** The value at one path changes, or nothing. *)
Definition updated (path : list text) (o : object) (r : option var) (ok : bool) (o' : object) : Prop :=
  match r with
  | Some x => ok = true ∧ ∀ q, Get q o' = if decide (q = path) then Some x else Get q o
  | None => ok = false ∧ o' = o
  end.

(** The rest of a path below a member. *)
Definition sub (q : list text) (m : member) : option var :=
  match q, m_value m with
  | [], OValue v => Some (mkVar (ParamName m) (IsRequired m) (m_set m) v)
  | [], OStruct _ => None
  | _, o => Get q o
  end.

Definition shape_member (m : member) : member := mkVar (ParamName m) (IsRequired m) false (shape (m_value m)).

Lemma Get_cons k q ms : Get (k :: q) (OStruct ms) = (m ← find_member k ms; sub q m).
Proof. done. Qed.

(** Replacing one member changes the paths through it. *)
Lemma Get_replace k p l1 m m' l2 x : Forall (fun m => ParamName m ≠ k) l1 → ParamName m = k → ParamName m' = k →
  (∀ q, sub q m' = if decide (q = p) then Some x else sub q m) →
  ∀ q, Get q (OStruct (l1 ++ m' :: l2)) = if decide (q = k :: p) then Some x else Get q (OStruct (l1 ++ m :: l2)).
Proof.
  intros H1 Hm Hm' Hsub q. destruct q as [|k' q]; [done|]. rewrite !Get_cons.
  destruct (decide (k' = k)) as [->|Hne].
  - rewrite !find_member_mid by done. rewrite (decide_True (P := ParamName m = k)) by done.
    rewrite (decide_True (P := ParamName m' = k)) by done. cbn [mbind option_bind]. rewrite Hsub.
    destruct (decide (q = p)) as [->|Hq]; [by rewrite decide_True|]. rewrite decide_False by congruence. done.
  - rewrite decide_False by congruence. by rewrite (find_member_other k k' l1 m m').
Qed.

Lemma shape_replace l1 m m' l2 : shape_member m' = shape_member m →
  shape (OStruct (l1 ++ m' :: l2)) = shape (OStruct (l1 ++ m :: l2)).
Proof. intros Hm. cbn [shape]. rewrite !fmap_app, !fmap_cons. unfold shape_member in Hm. by rewrite Hm. Qed.

Lemma ParseValue_erase value v v' : ParseValue value v = Some v' → erase v' = erase v.
Proof.
  revert v'. induction v as [b|ty z|ty z|s|has v IH]; intros v'; cbn [ParseValue].
  - by intros (b' & _ & ->)%fmap_Some.
  - by intros (z' & _ & ->)%fmap_Some.
  - by intros (z' & _ & ->)%fmap_Some.
  - by intros [= <-].
  - intros (w & Hw & ->)%fmap_Some. cbn. by rewrite (IH w).
Qed.

(** The last name of a path. *)
Lemma field_spec key pos value ms : NoDup (ParamName <$> ms) →
  let k := substr_end key pos in
  ∃ ok ms', ParseStructField (mkContext key pos value) ms = (blame key value [k] (OStruct ms), ok, ms')
  ∧ shape (OStruct ms') = shape (OStruct ms)
  ∧ updated [k] (OStruct ms) (x ← Get [k] (OStruct ms); assign x value) ok (OStruct ms').
Proof.
  intros Hnd k. unfold ParseStructField. cbn [keyView parsedSize valueView].
  assert (Hf : ∀ st m, ParamName m ≠ k → field_step k value st m = (st, m)).
  { intros [ff vp] m Hm. unfold field_step, GetName. by rewrite bool_decide_eq_false_2. }
  change (substr_end key pos) with k. rewrite Get_cons. cbn [blame].
  destruct (find_member k ms) as [m|] eqn:Em.
  2: { rewrite (for_each_miss k _ Hf) by by apply find_member_none. by eexists _, _. }
  destruct (find_member_some k ms m Hnd Em) as (l1 & l2 & -> & Hk & H1 & H2).
  rewrite (for_each_hit k _ Hf) by done. unfold field_step, GetName, sub. rewrite bool_decide_eq_true_2 by done.
  cbn [mbind option_bind]. destruct m as [nm req set [v|ms']]; cbn [fst snd orb m_value ParamName IsRequired m_set] in *.
  2: { by eexists _, _. }
  unfold ConfigVar_ParseValue, assign. cbn [mbind option_bind m_value ParamName IsRequired m_set].
  destruct (ParseValue value v) as [v'|] eqn:Ep; cbn; eexists _, _; (split; [done|]); [|done].
  split; [|split; [done|]].
  - apply shape_replace. unfold shape_member. cbn. by rewrite (ParseValue_erase _ _ _ Ep).
  - apply Get_replace; try done. intros [|k' q]; [by rewrite decide_True|]. by destruct q.
Qed.

Lemma names_ok_shape o : names_ok (shape o) = names_ok o.
Proof.
  induction o as [v|ms IH] using object_ind'; [done|]. cbn [shape names_ok]. rewrite <- list_fmap_compose. f_equal.
  induction IH as [|m ms Hm _ IHms]; cbn; [done|]. by rewrite Hm, IHms.
Qed.

(** A whole path, from the position the context has reached. *)
Lemma nested_spec value key o : zlen key < 2 ^ 32 → names_ok o = true → is_struct o = true → ∀ pos, 0 ≤ pos →
  let path := split_on 46 (drop (Z.to_nat pos) key) in
  ∃ ok o', ParseStructNested (mkContext key pos value) o = (blame key value path o, ok, o')
    ∧ shape o' = shape o ∧ updated path o (x ← Get path o; assign x value) ok o'.
Proof.
  intros Hlen. induction o as [v|ms IH] using object_ind'; [done|]. intros [Hnd Hok]%names_ok_struct _ pos Hpos.
  cbv zeta. cbn [ParseStructNested keyView parsedSize valueView]. pose proof (find_split key 46 pos Hpos) as Hs.
  destruct (find key 46 pos) as [p|]; [|].
  2: { rewrite Hs. destruct (field_spec key pos value ms Hnd) as (ok & ms' & -> & ? & ?). by eexists _, _. }
  destruct Hs as [Hp ->]. set (k := substr key pos (p - pos)).
  rewrite u32_small by (unfold is_u32; lia).
  set (f := fun (st : list ParseError * bool * bool) (m : member) => _).
  assert (Hf : ∀ st m, ParamName m ≠ k → f st m = (st, m)).
  { intros [[es ff] vp] m Hm. unfold f, GetName. by rewrite bool_decide_eq_false_2. }
  rewrite Get_cons. cbn [blame]. destruct (find_member k ms) as [m|] eqn:Em.
  2: { rewrite (for_each_miss k _ Hf) by by apply find_member_none. by eexists _, _. }
  destruct (find_member_some k ms m Hnd Em) as (l1 & l2 & -> & Hk & H1 & H2).
  rewrite (for_each_hit k _ Hf) by done. unfold f, GetName. rewrite bool_decide_eq_true_2 by done.
  rewrite Forall_app, Forall_cons in IH, Hok. destruct IH as (_ & IH & _), Hok as (_ & Hok & _).
  pose proof (split_on_ne 46 (drop (Z.to_nat (p + 1)) key)) as Hne.
  cbn [mbind option_bind]. destruct m as [nm req set [v|ms']]; cbn [m_value ParamName IsRequired m_set] in *.
  - destruct (split_on 46 _) as [|k' path]; [done|]. unfold sub. cbn. eexists _, _. split; [done|].
    split; [done|]. by destruct path.
  - destruct (IH Hok eq_refl (p + 1)) as (ok & o' & E & Hsh & Hu); [lia|]. rewrite E.
    destruct (split_on 46 _) as [|k' path]; [done|]. unfold sub. cbn [m_value].
    cbn [fst snd orb andb negb app]. destruct ok; (eexists _, _; split; [done|]).
    + split; [apply shape_replace; unfold shape_member; cbn [ParamName IsRequired m_value ConfigVar_deref_assign SetFlag]; by rewrite Hsh|].
      destruct (_ ≫= _) as [x|]; [|by destruct Hu]. destruct Hu as [_ Hu]. split; [done|].
      apply Get_replace; try done. intros [|k'' q]; cbn [sub m_value SetFlag ConfigVar_deref_assign].
      * rewrite decide_False by done. by destruct o'.
      * unfold sub. cbn [m_value]. apply Hu.
    + destruct (_ ≫= _) as [x|]; [by destruct Hu|]. destruct Hu as [_ ->]. unfold ConfigVar_deref_assign. cbn. done.
Qed.

(** ** The variables of a struct *)

Fixpoint leaves (o : object) : list (list text * var) :=
  match o with
  | OValue _ => []
  | OStruct ms =>
    concat ((fun m =>
      match m_value m with
      | OValue v => [([ParamName m], mkVar (ParamName m) (IsRequired m) (m_set m) v)]
      | OStruct _ => (fun e => (ParamName m :: e.1, e.2)) <$> leaves (m_value m)
      end) <$> ms)
  end.

Lemma leaves_cons m ms : leaves (OStruct (m :: ms)) =
  match m_value m with
  | OValue v => [([ParamName m], mkVar (ParamName m) (IsRequired m) (m_set m) v)]
  | OStruct _ => (fun e => (ParamName m :: e.1, e.2)) <$> leaves (m_value m)
  end ++ leaves (OStruct ms).
Proof. done. Qed.

Lemma Get_value q v : Get q (OValue v) = None.
Proof. by destruct q. Qed.

Lemma find_member_cons k m ms :
  find_member k (m :: ms) = if decide (ParamName m = k) then Some m else find_member k ms.
Proof. unfold find_member. cbn. destruct (decide _); [done|]. by destruct (list_find _ ms) as [[i x]|]. Qed.

Lemma find_member_in k ms m : find_member k ms = Some m → k ∈ ParamName <$> ms.
Proof.
  unfold find_member. intros ([i y] & (Hi & <- & _)%list_find_Some & ->)%fmap_Some.
  apply list_elem_of_fmap. exists y. split; [done|]. by eapply list_elem_of_lookup_2.
Qed.

(** They are the ones paths lead to. *)
Lemma elem_of_leaves o : names_ok o = true → ∀ q x, (q, x) ∈ leaves o ↔ Get q o = Some x.
Proof.
  induction o as [v|ms IH] using object_ind'; intros Hn q x; [rewrite Get_value; split; [by intros ?%elem_of_nil|done]|].
  apply names_ok_struct in Hn as [Hnd Hok]. revert IH Hnd Hok. induction ms as [|m ms IHms]; intros IH Hnd Hok.
  { cbn. split; [by intros ?%elem_of_nil|by destruct q]. }
  apply Forall_cons in IH as [IHm IH]. apply Forall_cons in Hok as [Hm Hok]. apply NoDup_cons in Hnd as [Hnm Hnd].
  rewrite leaves_cons, elem_of_app, IHms by done. destruct q as [|k q].
  { split; [|done]. intros [H|H]; [|done]. destruct (m_value m); [by apply list_elem_of_singleton in H|].
    apply list_elem_of_fmap in H as ([q' x'] & E & _). done. }
  rewrite !Get_cons, find_member_cons. destruct (decide (ParamName m = k)) as [<-|Hne]; cbn [mbind option_bind].
  - assert (Hrest : find_member (ParamName m) ms = None).
    { destruct (find_member (ParamName m) ms) as [y|] eqn:E; [|done]. by apply find_member_in in E. }
    rewrite Hrest. unfold sub. specialize (IHm Hm). destruct (m_value m) as [v|ms'] eqn:Ev.
    + rewrite list_elem_of_singleton, Get_value. destruct q; (split; [intros [E|?]; by simplify_eq|]); [|done].
      intros [= <-]. by left.
    + rewrite list_elem_of_fmap. split.
      * intros [([q' x'] & [= <- <-] & Hq')|?]; [|done]. apply IHm in Hq'. by destruct q.
      * intros Hq. left. exists (q, x). split; [done|]. apply IHm. by destruct q.
  - split; [|by right]. intros [H|?]; [|done]. destruct (m_value m); [apply list_elem_of_singleton in H; by simplify_eq|].
    apply list_elem_of_fmap in H as ([q' x'] & [= ? ? ?] & _). by simplify_eq.
Qed.

(** ** Required variables *)

Definition key_of (keyPath : text) (path : list text) : text := foldl fullPath keyPath path.

Definition missing (keyPath : text) (l : list (list text * var)) : list ParseError :=
  (fun e => mkError RequiredFieldMissing (key_of keyPath e.1) (ParamName e.2) [])
    <$> filter (fun e => IsValid e.2 = false) l.

Lemma missing_app kp a b : missing kp (a ++ b) = missing kp a ++ missing kp b.
Proof. unfold missing. by rewrite filter_app, fmap_app. Qed.

Lemma missing_one kp q x : missing kp [(q, x)] =
  if IsValid x then [] else [mkError RequiredFieldMissing (key_of kp q) (ParamName x) []].
Proof. unfold missing. cbn. by destruct (IsValid x). Qed.

Lemma missing_below kp k l :
  missing kp ((fun e => (k :: e.1, e.2)) <$> l) = missing (fullPath kp k) l.
Proof.
  unfold missing. induction l as [|[q x] l IH]; [done|]. rewrite fmap_cons, filter_cons, (filter_cons _ _ l).
  cbn [fst snd]. destruct (decide (IsValid x = false)); rewrite ?fmap_cons; by rewrite IH.
Qed.

Lemma validate_spec o : ∀ kp, ValidateStruct o kp = (missing kp (leaves o), bool_decide (missing kp (leaves o) = [])).
Proof.
  induction o as [v|ms IH] using object_ind'; intros kp; [done|]. cbn [ValidateStruct].
  set (f := fun (st : list ParseError * bool) (m : member) => _).
  assert (Hfold : ∀ errs valid, foldl f (errs, valid) ms =
    (errs ++ missing kp (leaves (OStruct ms)), valid && bool_decide (missing kp (leaves (OStruct ms)) = []))).
  { induction IH as [|m ms Hm _ IHms]; intros errs valid; cbn [foldl].
    { cbn. by rewrite app_nil_r, andb_true_r. }
    rewrite leaves_cons, missing_app. unfold f at 2, GetName. destruct (m_value m) as [v|ms'] eqn:Ev.
    - rewrite missing_one. change (IsValid (mkVar (ParamName m) (IsRequired m) (m_set m) v)) with (IsValid m).
      destruct (IsValid m); cbn [negb]; rewrite IHms; [done|]. rewrite <- app_assoc. f_equal. by rewrite andb_false_r.
    - rewrite Hm, missing_below, IHms, <- app_assoc, <- andb_assoc. do 2 f_equal.
      rewrite <- bool_decide_and. apply bool_decide_ext. rewrite app_nil. done. }
  by rewrite Hfold.
Qed.

(** ** What depends on the types only *)

Definition erase_var (x : var) : var := mkVar (ParamName x) (IsRequired x) false (erase (m_value x)).

Lemma find_member_shape k ms : find_member k (shape_member <$> ms) = shape_member <$> find_member k ms.
Proof.
  induction ms as [|m ms IH]; [done|]. rewrite fmap_cons, !find_member_cons. cbn [ParamName shape_member].
  destruct (decide (ParamName m = k)); [done|apply IH].
Qed.

Lemma Get_shape q : ∀ o, Get q (shape o) = erase_var <$> Get q o.
Proof.
  induction q as [|k q IH]; intros o; [done|]. destruct o as [v|ms]; [done|].
  change (shape (OStruct ms)) with (OStruct (shape_member <$> ms)). rewrite !Get_cons, find_member_shape.
  destruct (find_member k ms) as [m|]; [|done]. cbn [fmap option_fmap option_map mbind option_bind]. unfold sub.
  destruct q as [|k' q]; [by destruct m as [nm req set [v|ms']]|]. apply IH.
Qed.

Lemma ParseValue_type value v w : erase v = erase w → ParseValue value v = None → ParseValue value w = None.
Proof.
  revert w. induction v as [b|ty z|ty z|s|has v IH]; intros [b'|ty' z'|ty' z'|s'|has' w]; cbn [erase ParseValue]; try done.
  - by intros [= ->].
  - by intros [= ->].
  - intros [= E] H%fmap_None. by rewrite (IH w).
Qed.

Lemma erase_erase v : erase (erase v) = erase v.
Proof. induction v as [| | | |has v IH]; cbn; [done..|]. by rewrite IH. Qed.

(** Whether a value is taken. *)
Definition takes (value : text) (v : ConfigValue) : bool :=
  match ParseValue value v with Some _ => true | None => false end.

Lemma takes_erase value v : takes value (erase v) = takes value v.
Proof.
  unfold takes. pose proof (erase_erase v) as He.
  destruct (ParseValue value (erase v)) eqn:E1, (ParseValue value v) eqn:E2; try done.
  - apply ParseValue_type with (w := erase v) in E2; [|done]. congruence.
  - apply ParseValue_type with (w := v) in E1; [|done]. congruence.
Qed.

(** An option is accepted when it names a variable whose type takes the value. *)
Definition accepts (o : object) (path : list text) (value : text) : bool :=
  match x ← Get path o; assign x value with Some _ => true | None => false end.

Lemma accepts_shape o path value : accepts (shape o) path value = accepts o path value.
Proof.
  unfold accepts. rewrite Get_shape. destruct (Get path o) as [x|]; [|done]. cbn. unfold assign. cbn.
  pose proof (takes_erase value (m_value x)) as H. unfold takes in H.
  by destruct (ParseValue value (erase (m_value x))), (ParseValue value (m_value x)).
Qed.

(** A path that goes on below a value. *)
Definition through_value (o : object) (path : list text) : Prop :=
  ∃ p k r, path = p ++ k :: r ∧ is_Some (Get p o).

Lemma through_shape o path : through_value (shape o) path ↔ through_value o path.
Proof.
  unfold through_value. split; intros (p & k & r & E & H); exists p, k, r; (split; [done|]).
  - rewrite Get_shape in H. by apply fmap_is_Some in H.
  - rewrite Get_shape. by apply fmap_is_Some.
Qed.

Lemma through_cons k k' path ms m : find_member k ms = Some m →
  through_value (OStruct ms) (k :: k' :: path) ↔ (is_struct (m_value m) = false ∨ through_value (m_value m) (k' :: path)).
Proof.
  intros Em. split.
  - intros (p & y & r & E & H). destruct p as [|k0 p]; [by destruct H|]. injection E as <- E.
    rewrite Get_cons, Em in H. cbn in H. unfold sub in H. destruct p as [|k1 p].
    + left. destruct (m_value m); [done|]. by destruct H.
    + right. by exists (k1 :: p), y, r.
  - intros [H|(p & y & r & E & H)].
    + exists [k], k', path. split; [done|]. rewrite Get_cons, Em. cbn. unfold sub. destruct (m_value m); [by eexists|done].
    + destruct p as [|k1 p]; [by destruct H|]. exists (k :: k1 :: p), y, r. split; [by rewrite E|].
      rewrite Get_cons, Em. done.
Qed.

(** Every option that is not accepted is reported, but for those that go through a value. *)
Lemma blame_spec key value path : path ≠ [] → ∀ o, is_struct o = true →
  accepts o path value = true ↔ blame key value path o = [] ∧ ¬ through_value o path.
Proof.
  induction path as [|k path IH]; [done|]. intros _ [v|ms] Ho; [done|]. unfold accepts. rewrite Get_cons. cbn [blame].
  assert (Hlast : ¬ through_value (OStruct ms) [k]).
  { intros (p & y & r & E & H). destruct p as [|k0 p]; [by destruct H|]. injection E as _ E. by destruct p. }
  destruct (find_member k ms) as [m|] eqn:Em; cbn [mbind option_bind].
  2: { split; [done|]. by intros [? _]. }
  unfold sub. destruct path as [|k' path].
  - destruct (m_value m) as [v|ms']; [|cbn; split; [done|by intros [? _]]].
    unfold assign. cbn [mbind option_bind m_value]. destruct (ParseValue value v); cbn; split; try done. by intros [? _].
  - rewrite (through_cons _ _ _ _ _ Em). destruct (m_value m) as [v|ms'].
    + rewrite Get_value. cbn. split; [done|]. intros [_ H]. exfalso. apply H. by left.
    + specialize (IH ltac:(done) (OStruct ms') eq_refl). unfold accepts in IH. rewrite IH. cbn [is_struct].
      split; intros [H1 H2]; (split; [done|]); [intros [?|?]; done|]. intros ?. apply H2. by right.
Qed.

Lemma blame_shape key value path : ∀ o, blame key value path (shape o) = blame key value path o.
Proof.
  induction path as [|k path IH]; intros o; [done|]. destruct o as [v|ms]; [done|].
  change (shape (OStruct ms)) with (OStruct (shape_member <$> ms)). cbn [blame]. rewrite find_member_shape.
  destruct (find_member k ms) as [m|]; [|done]. cbn [fmap option_fmap option_map m_value shape_member].
  destruct path as [|k' path]; [|apply IH].
  destruct (m_value m) as [v|ms']; [|done]. pose proof (takes_erase value v) as H. unfold takes in H. cbn.
  by destruct (ParseValue value (erase v)), (ParseValue value v).
Qed.

(** ** All options *)

(** The text before and behind the first separator. *)
Fixpoint cut (d : Z) (s : text) : option (text * text) :=
  match s with
  | [] => None
  | c :: s => if c =? d then Some ([], s) else '(a, b) ← cut d s; Some (c :: a, b)
  end.

Lemma find_cut s d : match find s d 0 with
  | Some p => 0 ≤ p < zlen s ∧ cut d s = Some (substr s 0 p, substr_end s (p + 1))
  | None => cut d s = None
  end.
Proof.
  unfold find, substr, substr_end. change (Z.to_nat 0) with 0%nat. rewrite !drop_0.
  induction s as [|c s IH]; [done|]. cbn [list_find cut].
  destruct (decide (c = d)) as [->|Hne].
  - cbn [fmap option_fmap option_map fst]. rewrite Z.eqb_refl, zlen_cons. pose proof (zlen_nonneg s). split; [lia|done].
  - destruct (Z.eqb_spec c d); [done|]. destruct (list_find _ s) as [[i x]|]; cbn [fmap option_fmap option_map fst prod_map] in *;
      [|by rewrite IH]. destruct IH as [Hi ->]. rewrite zlen_cons. split; [lia|]. cbn [mbind option_bind].
    rewrite !Z.add_0_l, !Nat2Z.id. replace (Z.to_nat (Z.of_nat i + 1)) with (S i) by lia.
    by replace (Z.to_nat (Z.of_nat (S i) + 1)) with (S (S i)) by lia.
Qed.

(** The abstract configuration: a variable for every path.  An option replaces one. *)
Abbreviation view := (list text → option var).

Definition set_option (g : view) (tok : text) : option view :=
  '(key, value) ← cut 61 tok;
  x ← (x ← g (split_on 46 key); assign x value);
  Some (fun q => if decide (q = split_on 46 key) then Some x else g q).

(** All options in order; those that are not accepted are left out. *)
Fixpoint set_options (g : view) (toks : list text) : bool * view :=
  match toks with
  | [] => (true, g)
  | tok :: toks =>
    match set_option g tok with
    | Some g => set_options g toks
    | None => (false, (set_options g toks).2)
    end
  end.

Definition tok_errors (o : object) (tok : text) : list ParseError :=
  match cut 61 tok with
  | None => [mkError ValueNotFound tok tok []]
  | Some (key, value) => blame key value (split_on 46 key) o
  end.

Definition tok_ok (o : object) (tok : text) : bool :=
  match cut 61 tok with Some (key, value) => accepts o (split_on 46 key) value | None => false end.

Definition tok_through (o : object) (tok : text) : Prop :=
  ∃ key value, cut 61 tok = Some (key, value) ∧ through_value o (split_on 46 key).

Lemma tok_ok_spec o tok : is_struct o = true → tok_ok o tok = true ↔ tok_errors o tok = [] ∧ ¬ tok_through o tok.
Proof.
  intros Ho. unfold tok_ok, tok_errors, tok_through. destruct (cut 61 tok) as [[key value]|].
  - rewrite (blame_spec key value) by (done || apply split_on_ne). split; intros [H1 H2]; (split; [done|]).
    + intros (key' & value' & [= <- <-] & H). done.
    + intros H. apply H2. by exists key, value.
  - split; [done|]. by intros [? _].
Qed.

(** One option, on the struct and on the abstract configuration. *)
Lemma option_spec o tok (g : view) : names_ok o = true → is_struct o = true → zlen tok < 2 ^ 32 →
  (∀ q, Get q o = g q) → ∀ p, find tok 61 0 = Some p →
  ∃ o', ParseStructNested (mkContext (substr tok 0 p) 0 (substr_end tok (p + 1))) o = (tok_errors o tok, tok_ok o tok, o')
    ∧ shape o' = shape o ∧ match set_option g tok with
                           | Some g' => tok_ok o tok = true ∧ ∀ q, Get q o' = g' q
                           | None => tok_ok o tok = false ∧ o' = o
                           end.
Proof.
  intros Hn Ho Hlen Hg p Hp. pose proof (find_cut tok 61) as Hc. rewrite Hp in Hc. destruct Hc as [Hpl Hc].
  unfold tok_errors, tok_ok, set_option. rewrite Hc. set (key := substr tok 0 p) in *. set (value := substr_end tok (p + 1)).
  assert (Hkl : zlen key < 2 ^ 32).
  { unfold key, substr, zlen in *. rewrite length_take, length_drop. lia. }
  destruct (nested_spec value key o Hkl Hn Ho 0) as (ok & o' & -> & Hsh & Hu); [lia|].
  change (drop (Z.to_nat 0) key) with key in *. cbn [mbind option_bind]. rewrite <- Hg. unfold accepts, updated in *.
  exists o'. destruct (x ← Get (split_on 46 key) o; assign x value) as [x|]; destruct Hu as [-> Hu]; (split; [done|]).
  - cbn. split; [done|]. split; [done|]. intros q. by rewrite Hu, <- Hg.
  - done.
Qed.

Lemma is_struct_shape o : is_struct (shape o) = is_struct o.
Proof. by destruct o. Qed.

Lemma tok_errors_shape o o' tok : shape o' = shape o → tok_errors o' tok = tok_errors o tok.
Proof.
  intros H. unfold tok_errors. destruct (cut 61 tok) as [[k v]|]; [|done].
  by rewrite <- (blame_shape k v _ o'), H, blame_shape.
Qed.

Lemma tok_ok_shape o o' tok : shape o' = shape o → tok_ok o' tok = tok_ok o tok.
Proof.
  intros H. unfold tok_ok. destruct (cut 61 tok) as [[k v]|]; [|done].
  by rewrite <- (accepts_shape o'), H, accepts_shape.
Qed.

Lemma loop_spec toks : ∀ o errs valid (g : view), names_ok o = true → is_struct o = true →
  Forall (fun tok => zlen tok < 2 ^ 32) toks → (∀ q, Get q o = g q) →
  ∃ o', ParseStruct_loop toks errs valid o =
          (errs ++ concat (tok_errors o <$> toks), valid && forallb (tok_ok o) toks, o')
    ∧ shape o' = shape o ∧ (set_options g toks).1 = forallb (tok_ok o) toks ∧ ∀ q, Get q o' = (set_options g toks).2 q.
Proof.
  induction toks as [|tok toks IH]; intros o errs valid g Hn Ho Hlen Hg.
  { exists o. cbn. by rewrite app_nil_r, andb_true_r. }
  apply Forall_cons in Hlen as [Ht Hlen]. cbn [ParseStruct_loop].
  pose proof (find_cut tok 61) as Hc. destruct (find tok 61 0) as [p|] eqn:Ep.
  2: { destruct (IH o (errs ++ [mkError ValueNotFound tok tok []]) false g Hn Ho Hlen Hg) as (o' & -> & Hsh & H1 & H2).
       exists o'. cbn [set_options fmap list_fmap concat forallb]. unfold set_option, tok_errors at 2, tok_ok at 2 4.
       rewrite Hc, <- app_assoc. cbn [mbind option_bind fst snd andb]. by rewrite andb_false_r. }
  destruct (option_spec o tok g Hn Ho Ht Hg p Ep) as (o1 & -> & Hsh1 & Hset).
  assert (Hn1 : names_ok o1 = true) by by rewrite <- names_ok_shape, Hsh1, names_ok_shape.
  assert (Ho1 : is_struct o1 = true) by by rewrite <- is_struct_shape, Hsh1, is_struct_shape.
  assert (He : tok_errors o1 <$> toks = tok_errors o <$> toks) by (apply list_fmap_ext; intros; by apply tok_errors_shape).
  assert (Hb : forallb (tok_ok o1) toks = forallb (tok_ok o) toks).
  { clear -Hsh1. induction toks as [|t ts IH]; [done|]. cbn. by rewrite IH, (tok_ok_shape o o1). }
  cbn [set_options forallb fmap list_fmap concat]. destruct (set_option g tok) as [g'|]; destruct Hset as [Hok Hg'].
  - destruct (IH o1 (errs ++ tok_errors o tok) (valid && tok_ok o tok) g' Hn1 Ho1 Hlen Hg') as (o' & -> & Hsh & H1 & H2).
    exists o'. rewrite He, Hb, <- app_assoc, <- andb_assoc. split; [done|]. split; [congruence|]. split; [|done].
    by rewrite H1, Hb, Hok.
  - subst o1. destruct (IH o (errs ++ tok_errors o tok) (valid && tok_ok o tok) g Hn Ho Hlen Hg) as (o' & -> & Hsh & H1 & H2).
    exists o'. rewrite <- app_assoc, <- andb_assoc. split; [done|]. split; [done|]. split; [|done]. by rewrite Hok.
Qed.

(** ** Types *)

Lemma ParseValue_typed value v v' : ParseValue value v = Some v' → typed v'.
Proof.
  assert (Hi : ∀ ty z, ParseValue_integral ty value = Some z → it_min ty ≤ z ≤ it_max ty).
  { intros ty z. unfold ParseValue_integral. destruct (from_chars ty value) as [[r e] w] eqn:E.
    case_bool_decide as He; [|done]. intros [= ->]. subst e. by apply from_chars_range in E. }
  revert v'. induction v as [b|ty z|ty z|s|has v IH]; intros v'; cbn [ParseValue].
  - by intros (b' & _ & ->)%fmap_Some.
  - intros (z' & Hz & ->)%fmap_Some. exact (Hi ty z' Hz).
  - intros (z' & Hz & ->)%fmap_Some. exact (Hi ty z' Hz).
  - by intros [= <-].
  - intros (w & Hw & ->)%fmap_Some. exact (IH w Hw).
Qed.

Lemma set_options_typed toks : ∀ g : view, (∀ q x, g q = Some x → typed (m_value x)) →
  ∀ q x, (set_options g toks).2 q = Some x → typed (m_value x).
Proof.
  induction toks as [|tok toks IH]; intros g Hg; [done|]. cbn [set_options].
  destruct (set_option g tok) as [g'|] eqn:E; [|apply IH, Hg]. apply IH. unfold set_option in E.
  apply bind_Some in E as ([key value] & _ & E). apply bind_Some in E as (x & Hx & [= <-]).
  apply bind_Some in Hx as (x0 & _ & Hx). apply bind_Some in Hx as (v & Hv & [= <-]).
  intros q y. destruct (decide (q = _)); [|apply Hg]. intros [= <-]. by apply ParseValue_typed in Hv.
Qed.

(** ** The iterator *)

Lemma split_on_parts d s : Forall (fun tok => d ∉ tok) (split_on d s).
Proof.
  induction s as [|c s IH]; cbn [split_on]; [repeat constructor; by intros ?%elem_of_nil|].
  destruct (Z.eqb_spec c d); [constructor; [by intros ?%elem_of_nil|done]|].
  destruct (split_on d s) as [|t ts]; [repeat constructor; intros ?%list_elem_of_singleton; congruence|].
  apply Forall_cons in IH as [Ht Hts]. constructor; [|done]. intros [->|?]%elem_of_cons; done.
Qed.

Lemma split_on_join d s : ∃ t ts, split_on d s = t :: ts ∧ s = t ++ concat ((fun tok => d :: tok) <$> ts).
Proof.
  induction s as [|c s (t & ts & E & Hs)]; cbn [split_on]; [by exists [], []|]. rewrite E.
  destruct (Z.eqb_spec c d) as [->|_]; [exists [], (t :: ts)|exists (c :: t), ts]; (split; [done|]); cbn; by rewrite <- Hs.
Qed.

#[export] Instance list_split : SplitIterator := {
  split := split_on 58; split_parts := split_on_parts 58; split_join := split_on_join 58;
}.

Lemma split_lengths `{!SplitIterator} s n : zlen s < n → Forall (fun tok => zlen tok < n) (split s).
Proof.
  intros Hs. destruct (split_join s) as (t & ts & -> & E). rewrite E, zlen_app in Hs. clear E s.
  assert (Hc : Forall (fun tok => zlen tok ≤ zlen (concat ((fun tok => 58 :: tok) <$> ts))) ts).
  { clear Hs. induction ts as [|x ts IH]; constructor.
    - cbn [fmap list_fmap concat]. rewrite zlen_app, zlen_cons. pose proof (zlen_nonneg (concat ((fun tok => 58 :: tok) <$> ts))). lia.
    - apply (Forall_impl _ _ _ IH). intros y Hy. cbn [fmap list_fmap concat]. rewrite zlen_app.
      pose proof (zlen_nonneg (58 :: x)). lia. }
  pose proof (zlen_nonneg t). pose proof (zlen_nonneg (concat ((fun tok => 58 :: tok) <$> ts))).
  constructor; [lia|]. apply (Forall_impl _ _ _ Hc). lia.
Qed.

Lemma parse_spec `{!SplitIterator} input o : names_ok o = true → is_struct o = true → zlen input < 2 ^ 32 →
  ∃ o', ParseStruct input o = (concat (tok_errors o <$> split input) ++ missing [] (leaves o'),
          forallb (tok_ok o) (split input) && bool_decide (missing [] (leaves o') = []), o')
    ∧ shape o' = shape o ∧ (set_options (fun q => Get q o) (split input)).1 = forallb (tok_ok o) (split input)
    ∧ ∀ q, Get q o' = (set_options (fun q => Get q o) (split input)).2 q.
Proof.
  intros Hn Ho Hl. unfold ParseStruct.
  destruct (loop_spec (split input) o [] true (fun q => Get q o) Hn Ho) as (o' & -> & Hrest); [by apply split_lengths|done|].
  exists o'. by rewrite validate_spec.
Qed.

Lemma missing_nil o : names_ok o = true → missing [] (leaves o) = [] ↔ ∀ q x, Get q o = Some x → IsValid x = true.
Proof.
  intros Hn. unfold missing. split.
  - intros E%fmap_nil_inv q x Hq%(elem_of_leaves o Hn). destruct (IsValid x) eqn:Hv; [done|].
    by destruct (filter_nil_not_elem_of _ _ (q, x) E).
  - intros Hv. assert (Hl : Forall (fun e => IsValid e.2 = true) (leaves o)).
    { apply Forall_forall. intros [q x] Hq%(elem_of_leaves o Hn). by apply (Hv q). }
    induction Hl as [|e l He _ IH]; [done|]. rewrite filter_cons_False by (rewrite He; done). apply IH.
Qed.

Lemma toks_ok_spec o toks : is_struct o = true → forallb (tok_ok o) toks = true ↔
  concat (tok_errors o <$> toks) = [] ∧ Forall (fun tok => ¬ tok_through o tok) toks.
Proof.
  intros Ho. induction toks as [|tok toks IH]; cbn [forallb fmap list_fmap concat]; [done|].
  rewrite andb_true_iff, IH, (tok_ok_spec o tok Ho), app_nil, Forall_cons. tauto.
Qed.

(** Success means that nothing was reported. *)
Lemma parse_ok `{!SplitIterator} input o errs o' : names_ok o = true → is_struct o = true → zlen input < 2 ^ 32 →
  ParseStruct input o = (errs, true, o') → errs = [].
Proof.
  intros Hn Ho Hl E. destruct (parse_spec input o Hn Ho Hl) as (o1 & E1 & _). rewrite E in E1. injection E1 as -> Hok ->.
  symmetry in Hok. apply andb_true_iff in Hok as [Ht Hm%bool_decide_eq_true].
  apply (toks_ok_spec o _ Ho) in Ht as [-> _]. by rewrite Hm.
Qed.

(** ** What a text means

    The value a text stands for, per type, said without the parser: a number is an optional minus
    sign, for a signed type, and all the digits that follow, whatever comes behind them. *)

Fixpoint positional (ds : text) : Z :=
  match ds with [] => 0 | c :: ds => (c - 48) * 10 ^ zlen ds + positional ds end.

Definition begins_with (signed : bool) (s : text) (n : Z) : Prop :=
  ∃ (neg : bool) ds rest, s = (if neg then 45 :: ds else ds) ++ rest ∧ (neg = true → signed = true)
    ∧ ds ≠ [] ∧ Forall (fun c => is_digit c = true) ds ∧ (∀ c, head rest = Some c → is_digit c = false)
    ∧ n = if neg then - positional ds else positional ds.

Definition number (ty : int_type) (s : text) (n : Z) : Prop := begins_with (it_signed ty) s n ∧ it_min ty ≤ n ≤ it_max ty.

Fixpoint denotes (type : ConfigValue) (s : text) (v : ConfigValue) : Prop :=
  match type with
  | VBool _ =>
    s = str "true" ∧ v = VBool true ∨ s = str "false" ∧ v = VBool false ∨ ∃ n, number T_int32 s n ∧ v = VBool (0 <? n)
  | VInt ty _ => ∃ n, number ty s n ∧ v = VInt ty n
  | VEnum ty _ => ∃ n, number ty s n ∧ v = VEnum ty n
  | VString _ => v = VString s
  | VOptional _ type => ∃ u, denotes type s u ∧ v = VOptional true u
  end.

Definition unreadable (type : ConfigValue) (s : text) : Prop := ∀ v, ¬ denotes type s v.

Lemma digits_positional ds : digits_value ds = positional ds.
Proof.
  induction ds as [|c ds IH]; [done|]. change (c :: ds) with ([c] ++ ds). rewrite digits_value_app, IH. cbn. lia.
Qed.

Lemma from_chars_cases ty s (neg : bool) ds rest : s = (if neg then 45 :: ds else ds) ++ rest → (neg = true → it_signed ty = true) →
  ds ≠ [] → Forall (fun c => is_digit c = true) ds → (∀ c, head rest = Some c → is_digit c = false) →
  let v := if neg then - positional ds else positional ds in
  from_chars ty s = if (it_min ty <=? v) && (v <=? it_max ty) then (rest, EcOk, v) else (rest, EcOutOfRange, 0).
Proof.
  intros -> Hs Hne Hd Hr v. unfold from_chars. destruct neg; cbn [app].
  - rewrite (Hs eq_refl), span_digits_app by done. destruct ds as [|c ds]; [done|]. by rewrite digits_positional.
  - destruct ds as [|c ds]; [done|]. apply Forall_cons in Hd as Hc. destruct Hc as [Hc%is_digit_spec _]. cbn [app].
    rewrite (no_minus c (ds ++ rest) (fun s' => if it_signed ty then (true, s') else (false, c :: ds ++ rest))) by lia.
    change (c :: ds ++ rest) with ((c :: ds) ++ rest). rewrite span_digits_app by done. by rewrite digits_positional.
Qed.

Lemma integral_number ty s : match ParseValue_integral ty s with
  | Some v => number ty s v ∧ ∀ n, number ty s n → n = v
  | None => ∀ n, ¬ number ty s n
  end.
Proof.
  assert (Hany : ∀ n, number ty s n → ParseValue_integral ty s = Some n).
  { intros n [(neg & ds & rest & Es & Hsg & Hne & Hd & Hr & ->) Hn]. unfold ParseValue_integral.
    rewrite (from_chars_cases ty s neg ds rest) by done. cbv zeta.
    destruct (Z.leb_spec (it_min ty) (if neg then - positional ds else positional ds)); [|lia].
    destruct (Z.leb_spec (if neg then - positional ds else positional ds) (it_max ty)); [|lia]. done. }
  destruct (ParseValue_integral ty s) as [v|] eqn:E; [|intros n Hn%Hany; congruence].
  split; [|intros n Hn%Hany; congruence]. unfold ParseValue_integral in E.
  destruct (from_chars ty s) as [[rest ec] v0] eqn:Ef. case_bool_decide as Hec; [|done]. injection E as ->. subst ec.
  split; [|by eapply from_chars_range]. unfold from_chars in Ef.
  assert (∃ neg : bool, ∃ body, (match s with 45 :: s' => if it_signed ty then (true, s') else (false, s) | _ => (false, s) end) = (neg, body)
    ∧ s = (if neg then 45 :: body else body) ∧ (neg = true → it_signed ty = true)) as (neg & body & Eb & Hs & Hsg).
  { destruct s as [|c s]; [by exists false, []|]. destruct (decide (c = 45)) as [->|Hc].
    - destruct (it_signed ty); [by exists true, s|by exists false, (45 :: s)].
    - exists false, (c :: s). split; [|done]. by rewrite (no_minus c s (fun s' => if it_signed ty then (true, s') else (false, c :: s))). }
  rewrite Eb in Ef. destruct (span_digits body) as [ds r] eqn:Ed. apply span_digits_length in Ed as (-> & Hr & Hd).
  destruct ds as [|c ds]; [done|]. rewrite digits_positional in Ef. destruct (_ && _); [|done]. injection Ef as -> <-.
  exists neg, (c :: ds), rest. split; [by destruct neg|]. done.
Qed.

Lemma literal_no_number ty s : s = str "true" ∨ s = str "false" → ∀ n, ¬ number ty s n.
Proof.
  intros Hs n [(neg & ds & rest & E & _ & Hne & Hd & _) _].
  destruct ds as [|c ds]; [done|]. apply Forall_cons in Hd as [Hc%is_digit_spec _].
  destruct Hs as [->| ->], neg; cbn in E; injection E as E _; vm_compute in E; lia.
Qed.

Lemma ParseValue_denotes s type : match ParseValue s type with
  | Some v => denotes type s v ∧ ∀ v', denotes type s v' → v' = v
  | None => unreadable type s
  end.
Proof.
  induction type as [b|ty z|ty z|t|has type IH]; cbn [ParseValue].
  - unfold ParseValue_bool. pose proof (integral_number T_int32 s) as Hi. pose proof (literal_no_number T_int32 s) as Hl.
    repeat case_bool_decide; cbn [fmap option_fmap option_map].
    + split; [by left|]. intros v' [[_ ->]|[[E _]|(n & Hn & _)]]; [done|by subst|]. by destruct (Hl (or_introl H) n).
    + split; [right; by left|]. intros v' [[E _]|[[_ ->]|(n & Hn & _)]]; [by subst|done|]. by destruct (Hl (or_intror H0) n).
    + destruct (ParseValue_integral T_int32 s) as [v|]; cbn.
      * destruct Hi as [Hv Hu]. split; [right; right; by exists v|]. intros v' [[? _]|[[? _]|(n & Hn & ->)]]; [done..|]. by rewrite (Hu n Hn).
      * intros v' [[? _]|[[? _]|(n & Hn & _)]]; [done..|]. by apply (Hi n).
  - pose proof (integral_number ty s) as Hi. destruct (ParseValue_integral ty s) as [v|]; cbn.
    + destruct Hi as [Hv Hu]. split; [by exists v|]. intros v' (n & Hn & ->). by rewrite (Hu n Hn).
    + intros v' (n & Hn & _). by apply (Hi n).
  - pose proof (integral_number ty s) as Hi. destruct (ParseValue_integral ty s) as [v|]; cbn.
    + destruct Hi as [Hv Hu]. split; [by exists v|]. intros v' (n & Hn & ->). by rewrite (Hu n Hn).
    + intros v' (n & Hn & _). by apply (Hi n).
  - split; [done|]. by intros v' ->.
  - destruct (ParseValue s type) as [v|]; cbn.
    + destruct IH as [Hv Hu]. split; [by exists v|]. intros v' (u & Hn & ->). by rewrite (Hu u Hn).
    + intros v' (u & Hn & _). by apply (IH u).
Qed.

Lemma denotes_erase s v : ∀ type type', erase type = erase type' → denotes type s v → denotes type' s v.
Proof.
  intros type. revert v. induction type as [b|ty z|ty z|t|has type IH]; intros v [] E; cbn in E; try discriminate E; try (injection E as <-); cbn; try done.
  intros (u & Hu & ->). injection E as E. exists u. split; [by eapply IH|done].
Qed.

Lemma unreadable_erase s type type' : erase type = erase type' → unreadable type s → unreadable type' s.
Proof. intros E Hn v Hv. by eapply Hn, denotes_erase. Qed.

(** The texts that the options give for a path, in order. *)
Definition texts_for (q : list text) (toks : list text) : list text :=
  toks ≫= fun tok => match cut 61 tok with
                     | Some (key, value) => if decide (split_on 46 key = q) then [value] else []
                     | None => []
                     end.

(** The last text that can be read counts. *)
Definition settled (x : var) (ts : list text) (x' : var) : Prop :=
  (Forall (unreadable (m_value x)) ts ∧ x' = x) ∨
  ∃ before s after, ts = before ++ s :: after ∧ Forall (unreadable (m_value x)) after
    ∧ denotes (m_value x) s (m_value x') ∧ x' = mkVar (ParamName x) (IsRequired x) true (m_value x').

Lemma set_options_at q toks : ∀ (g : view) x, g q = Some x →
  ∃ x', (set_options g toks).2 q = Some x' ∧ settled x (texts_for q toks) x'.
Proof.
  induction toks as [|tok toks IH]; intros g x Hg; [exists x; split; [done|]; left; by split|].
  cbn [set_options]. unfold texts_for. cbn [mbind list_bind]. fold (texts_for q toks). unfold set_option.
  destruct (cut 61 tok) as [[key value]|]; [|by apply IH]. cbn [mbind option_bind].
  destruct (decide (split_on 46 key = q)) as [Eq|Hne].
  - rewrite Eq, Hg. cbn [mbind option_bind]. unfold assign. pose proof (ParseValue_denotes value (m_value x)) as Hd.
    pose proof (ParseValue_erase value (m_value x)) as He.
    destruct (ParseValue value (m_value x)) as [v|]; cbn [mbind option_bind].
    + set (x1 := mkVar _ _ true v). destruct (IH (fun q' => if decide (q' = q) then Some x1 else g q') x1) as (x' & -> & Hs); [by rewrite decide_True|].
      exists x'. split; [done|]. right. specialize (He v eq_refl). destruct Hs as [[Hu ->]|(before & s & after & -> & Hu & Hv & Ex)].
      * exists [], value, (texts_for q toks). split; [done|]. split; [|split; [apply Hd|done]].
        apply (Forall_impl _ _ _ Hu). intros t. by apply unreadable_erase.
      * exists (value :: before), s, after. split; [done|]. split; [|split; [by eapply denotes_erase|done]].
        apply (Forall_impl _ _ _ Hu). intros t. by apply unreadable_erase.
    + destruct (IH g x Hg) as (x' & E & Hs). exists x'. split; [exact E|]. destruct Hs as [[Hu ->]|(before & s & after & -> & Hrest)].
      * left. split; [by constructor|done].
      * right. by exists (value :: before), s, after.
  - assert (Hkeep : ∀ g' : view, g' q = g q → ∃ x', (set_options g' toks).2 q = Some x' ∧ settled x (texts_for q toks) x')
      by (intros g' E; apply IH; by rewrite E).
    destruct (x0 ← g (split_on 46 key); assign x0 value) as [x1|]; cbn [mbind option_bind]; apply Hkeep; [|done].
    by rewrite decide_False.
Qed.

(** What is reported for a text that cannot be read. *)
Lemma blame_variable key value path : ∀ o x, Get path o = Some x → ParseValue value (m_value x) = None →
  mkError ValueNotParsed key (ParamName x) value ∈ blame key value path o.
Proof.
  induction path as [|k path IH]; intros o x Hx Hp; [by destruct o|]. destruct o as [|ms]; [done|]. cbn [Get blame] in *.
  destruct (find_member k ms) as [m|] eqn:Ef; [|done]. cbn [mbind option_bind] in Hx.
  destruct path as [|k' path]; [|by apply IH].
  destruct (m_value m) as [v|]; [|done]. injection Hx as <-. cbn in *. rewrite Hp.
  unfold find_member in Ef. apply fmap_Some in Ef as ([i m'] & (_ & Hn & _)%list_find_Some & ->). cbn in *. rewrite <- Hn. by left.
Qed.

(** ** Properties *)

Section properties.
Context `{!SplitIterator} (o : object) (input : text).
Context (names_distinct : names_ok o = true) (object_struct : is_struct o = true) (input_short : zlen input < 2 ^ 32).

(** C32: parsing an input refines the abstract configuration, a partial function from paths
    to variables: the options are applied in order, each replaces the variable at its path
    by the parsed value with its flag set and leaves every other path alone, and options
    that are not accepted change nothing; the verdict is true exactly when every option was
    accepted and every required variable is set in the end. *)
Theorem options_refine :
  ∃ errs ok o', ParseStruct input o = (errs, ok, o')
    ∧ (∀ q, Get q o' = (set_options (fun q => Get q o) (split input)).2 q)
    ∧ (ok = true ↔ (set_options (fun q => Get q o) (split input)).1 = true
                   ∧ ∀ q x, Get q o' = Some x → IsValid x = true).
Proof.
  destruct (parse_spec input o names_distinct object_struct input_short) as (o' & -> & Hsh & H1 & H2).
  eexists _, _, o'. split; [done|]. split; [done|]. rewrite H1, andb_true_iff, bool_decide_eq_true, missing_nil; [done|].
  by rewrite <- names_ok_shape, Hsh, names_ok_shape.
Qed.

(** C33: the error callback is called for every option in order, with the error the option
    deserves whatever came before it (no separator, no such name, a value of the wrong
    type), then once for every required variable that is not set; parsing succeeds exactly
    when nothing was reported and no key goes on behind the name of a value, which is
    the one mistake that is rejected without a report. *)
Theorem options_errors :
  ∃ errs ok o', ParseStruct input o = (errs, ok, o')
    ∧ errs = concat (tok_errors o <$> split input) ++ missing [] (leaves o')
    ∧ (∀ q x, (q, x) ∈ leaves o' ↔ Get q o' = Some x)
    ∧ (ok = true ↔ errs = [] ∧ Forall (fun tok => ¬ tok_through o tok) (split input)).
Proof.
  destruct (parse_spec input o names_distinct object_struct input_short) as (o' & -> & Hsh & _).
  eexists _, _, o'. split; [done|]. split; [done|]. split.
  - apply elem_of_leaves. by rewrite <- names_ok_shape, Hsh, names_ok_shape.
  - rewrite andb_true_iff, bool_decide_eq_true, app_nil. generalize (missing [] (leaves o')). intros ms.
    rewrite (toks_ok_spec o) by done. tauto.
Qed.

(** C34: the values.  Every variable ends with the value of the last option for its path whose
    text can be read, with its flag set, and stays as it was when there is none; every text for its
    path that cannot be read is reported with the path's name.  What a text means is said without
    the parser: a string variable takes the whole text; an integer or an enum takes the number that
    the text begins with (a minus sign only for a signed type, all digits, whatever follows), in
    positional notation and only when it is in the range of the type; a boolean takes true, false
    or a number of 32 bits, true when it is positive; an optional takes what its type takes. *)
Theorem option_values :
  ∃ errs ok o', ParseStruct input o = (errs, ok, o') ∧
    ∀ q x, Get q o = Some x → ∃ x', Get q o' = Some x' ∧ settled x (texts_for q (split input)) x'
      ∧ ∀ key value tok, tok ∈ split input → cut 61 tok = Some (key, value) → split_on 46 key = q →
          unreadable (m_value x) value → mkError ValueNotParsed key (ParamName x) value ∈ errs.
Proof.
  destruct (parse_spec input o names_distinct object_struct input_short) as (o' & -> & _ & _ & Hg).
  eexists _, _, o'. split; [done|]. intros q x Hx.
  destruct (set_options_at q (split input) (fun q => Get q o) x Hx) as (x' & E & Hs). exists x'. split; [by rewrite Hg|]. split; [done|].
  intros key value tok Htok Hcut Hq Hu. apply elem_of_app. left. apply list_elem_of_In, in_concat. exists (tok_errors o tok).
  split; [apply list_elem_of_In, list_elem_of_fmap; by exists tok|]. apply list_elem_of_In. unfold tok_errors. rewrite Hcut, Hq.
  apply blame_variable; [done|]. pose proof (ParseValue_denotes value (m_value x)) as Hd.
  destruct (ParseValue value (m_value x)) as [v|]; [|done]. by destruct (Hu v (proj1 Hd)).
Qed.
End properties.

(** The structs of the tests. *)
Definition SmallConfig : object := OStruct [
  CONFIG_VAR (str "name") true (OValue (VString [])); CONFIG_VAR (str "value") true (OValue (VInt T_uint32 0))].
Definition AppConfig : object := OStruct [
  CONFIG_VAR (str "enabled") true (OValue (VBool false)); CONFIG_VAR (str "cfg") true SmallConfig].

Lemma options_refine_witness :
  let input := str "enabled=true:cfg.name=qwerty:cfg.value=2" in
  ∃ errs ok o', ParseStruct input AppConfig = (errs, ok, o') ∧ ok = true
    ∧ m_value <$> Get [str "cfg"; str "value"] o' = Some (VInt T_uint32 2)
    ∧ m_value <$> Get [str "cfg"; str "name"] o' = Some (VString (str "qwerty")).
Proof.
  intros input. destruct (options_refine AppConfig input) as (errs & ok & o' & E & Hg & _); try (by vm_compute).
  exists errs, ok, o'. split; [done|]. rewrite !Hg. split; [|by vm_compute].
  vm_compute in E. by injection E as <- <- <-.
Defined.

Lemma options_errors_witness :
  let input := str "cfg.name_=qwerty:cfg.value=name:enabledtrue" in
  ∃ errs ok o', ParseStruct input AppConfig = (errs, ok, o') ∧ ok = false
    ∧ errs = [mkError FieldNotFound (str "cfg.name_") (str "name_") (str "qwerty");
              mkError ValueNotParsed (str "cfg.value") (str "value") (str "name");
              mkError ValueNotFound (str "enabledtrue") (str "enabledtrue") [];
              mkError RequiredFieldMissing (str "enabled") (str "enabled") [];
              mkError RequiredFieldMissing (str "cfg.name") (str "name") [];
              mkError RequiredFieldMissing (str "cfg.value") (str "value") []]
    ∧ ParseStruct (str "enabled.x=1") (OStruct [CONFIG_VAR_OPT (str "enabled") (OValue (VBool false))])
      = ([], false, OStruct [CONFIG_VAR_OPT (str "enabled") (OValue (VBool false))]).
Proof.
  intros input. destruct (options_errors AppConfig input) as (errs & ok & o' & E & _); try (by vm_compute).
  exists errs, ok, o'. split; [done|]. vm_compute in E. injection E as <- <- <-.
  split; [done|]. split; [|by vm_compute]. by vm_compute.
Defined.

Lemma option_values_witness :
  let input := str "cfg.value=7x:cfg.value=4294967296:enabled=-3" in
  ∃ errs ok o', ParseStruct input AppConfig = (errs, ok, o')
    ∧ (∃ x', Get [str "cfg"; str "value"] o' = Some x' ∧ m_value x' = VInt T_uint32 7)
    ∧ mkError ValueNotParsed (str "cfg.value") (str "value") (str "4294967296") ∈ errs.
Proof.
  intros input. destruct (option_values AppConfig input) as (errs & ok & o' & E & Hv); try (by vm_compute).
  exists errs, ok, o'. split; [exact E|].
  destruct (Hv [str "cfg"; str "value"] (mkVar (str "value") true false (VInt T_uint32 0)) eq_refl) as (x' & Hx & _ & Herr).
  split.
  - exists x'. split; [exact Hx|]. vm_compute in E. injection E as <- <- <-. vm_compute in Hx. by injection Hx as <-.
  - apply (Herr (str "cfg.value") (str "4294967296") (str "cfg.value=4294967296")); [apply (bool_decide_unpack _); vm_compute; exact Logic.I|vm_compute; reflexivity|vm_compute; reflexivity|].
    intros v Hd. pose proof (ParseValue_denotes (str "4294967296") (VInt T_uint32 0)) as Hp.
    assert (Hno : ParseValue (str "4294967296") (VInt T_uint32 0) = None) by (by vm_compute). rewrite Hno in Hp. by apply (Hp v).
Defined.
