(* ===== verification/Config.v ===== *)
(** * The configuration ([impl/config.h], [impl/config.cpp], [impl/config/describe_struct.h])

    The structs of the configuration with their defaults, the description of their
    variables, the checks of single values and [ParseConfig].  Members are named by their
    keys.  A run of [ParseConfig] ends with a configuration or with [exit]; what is printed
    is returned.  The formatting library fmt is the class [Fmt]. *)

From Stdlib Require Import ZArith Lia.
From stdpp Require Import base numbers list strings.
From S2P Require Import Prelude FromChars ParseStruct Compression Algo LruCache MemHawk HawkMalloc.

(** What [fmt::format] puts for one argument. *)
Class Fmt := {
  fmt_bool : bool → text;
  fmt_int : Z → text;
  fmt_string : text → text;
  fmt_bool_spec b : fmt_bool b = if b then str "true" else str "false";
  fmt_int_spec z : fmt_int z = print_int z;
  fmt_string_spec s : fmt_string s = s;
}.

#[export] Program Instance plain_fmt : Fmt := {
  fmt_bool b := if b then str "true" else str "false"; fmt_int := print_int; fmt_string s := s }.
Solve All Obligations with done.

(** ** Log levels *)

Inductive LogLevel := Trace | Debug | Info | Warning | Error | Off.

Definition LogLevel_value (l : LogLevel) : Z :=
  match l with Trace => 0 | Debug => 1 | Info => 2 | Warning => 3 | Error => 4 | Off => 5 end.

Definition Describe_LogLevel (level : Z) : text :=
  match level with
  | 0 => str "Trace" | 1 => str "Debug" | 2 => str "Info" | 3 => str "Warning" | 4 => str "Error" | 5 => str "Off"
  | _ => str "Unknown"
  end.

(** ** The structs *)

Definition var_bool (key : string) (b : bool) : member := CONFIG_VAR_OPT (str key) (OValue (VBool b)).
Definition var_size (key : string) (n : Z) : member := CONFIG_VAR_OPT (str key) (OValue (VInt T_uint64 n)).
Definition var_filename (key : string) : member := CONFIG_VAR_OPT (str key) (OValue (VOptional false (VString []))).
Definition var_string (key s : string) : member := CONFIG_VAR_OPT (str key) (OValue (VString (str s))).

Definition StacktraceTrackerConfig : object := OStruct [var_bool "dump" false; var_filename "filename"].
Definition TextWriterIndexConfig : object :=
  OStruct [var_bool "enabled" true; var_size "by_size_count" 10; var_size "by_total_count" 10].
Definition DefaultTextWriterInternalConfig : object :=
  OStruct [var_bool "enabled" false; var_size "by_size_count" 10; var_size "by_total_count" 10].
Definition TextWriterConfig : object := OStruct [
  var_bool "enabled" false; var_filename "filename";
  CONFIG_VAR_OPT (str "ext") TextWriterIndexConfig; CONFIG_VAR_OPT (str "int") DefaultTextWriterInternalConfig].
Definition ProtobufWriterConfig : object := OStruct [var_bool "enabled" true; var_filename "filename"].
Definition HeaptrackWriterConfig : object := OStruct [var_bool "enabled" false; var_filename "filename"].
Definition WritersConfig : object := OStruct [
  CONFIG_VAR_OPT (str "text_writer") TextWriterConfig; CONFIG_VAR_OPT (str "proto_writer") ProtobufWriterConfig;
  CONFIG_VAR_OPT (str "heaptrack_writer") HeaptrackWriterConfig].
Definition MemHawkConfig_struct : object := OStruct [
  var_bool "tracking_worker" true; var_size "max_postponed" 512; var_size "dumping_period" 1000;
  var_size "lru_size" 256; CONFIG_VAR_OPT (str "int_tracker") StacktraceTrackerConfig;
  CONFIG_VAR_OPT (str "ext_tracker") StacktraceTrackerConfig; CONFIG_VAR_OPT (str "writers") WritersConfig;
  var_size "collapse_depth" 8].
Definition LoggingConfig : object := OStruct [
  var_bool "main_log" true; CONFIG_VAR_OPT (str "log_level") (OValue (VEnum T_uint8 (LogLevel_value Info)));
  var_string "log_dir" "./"].
Definition UnwindConfig : object := OStruct [var_bool "absl" false; var_size "track_depth" 32].
Definition MainConfig : object := OStruct [
  var_string "progname_regex" ""; CONFIG_VAR_OPT (str "memhawk") MemHawkConfig_struct;
  CONFIG_VAR_OPT (str "logging") LoggingConfig; CONFIG_VAR_OPT (str "unwind") UnwindConfig; var_bool "help" false].

(** Members by the path of their keys. *)
Definition TrackDepth_path : list text := [str "unwind"; str "track_depth"].
Definition MaxPostponed_path : list text := [str "memhawk"; str "max_postponed"].
Definition Help_path : list text := [str "help"].

Definition get_size (path : list text) (o : object) : Z :=
  match Get path o with Some x => match m_value x with VInt _ v => v | _ => 0 end | None => 0 end.
Definition get_bool (path : list text) (o : object) : bool :=
  match Get path o with Some x => match m_value x with VBool b => b | _ => false end | None => false end.

(** A change of one variable of a struct. *)
Fixpoint modify (path : list text) (f : var → var) (o : object) : object :=
  match path, o with
  | k :: p, OStruct ms =>
    OStruct ((fun m =>
      if bool_decide (ParamName m = k) then
        match p, m_value m with
        | [], OValue v =>
          let x := f (mkVar (ParamName m) (IsRequired m) (m_set m) v) in
          mkVar (ParamName x) (IsRequired x) (m_set x) (OValue (m_value x))
        | [], OStruct _ => m
        | _, o => ConfigVar_deref_assign m (modify p f o)
        end
      else m) <$> ms)
  | _, _ => o
  end.

Section Config.
Context `{!Fmt} `{!SplitIterator}.

(** ** Description *)

Fixpoint Describe (v : ConfigValue) : text :=
  match v with
  | VBool b => fmt_bool b
  | VInt _ z => fmt_int z
  | VEnum _ z => Describe_LogLevel z
  | VString s => fmt_string s
  | VOptional has v => if has then Describe v else str "{}"
  end.

Record DescribeContext := mkDescribe { dc_key : text; dc_field : text; dc_value : text }.

Fixpoint DescribeStruct (o : object) (keyPath : text) {struct o} : list DescribeContext :=
  match o with
  | OValue _ => []
  | OStruct ms =>
    concat ((fun m =>
      let path := fullPath keyPath (GetName m) in
      match m_value m with
      | OStruct _ => DescribeStruct (m_value m) path
      | OValue v => [mkDescribe path (GetName m) (Describe v)]
      end) <$> ms)
  end.

(** ** Messages *)

Definition OnError (err : ParseError) : list text :=
  match er_type err with
  | Ok => []
  | FieldNotFound =>
    [str "Failed to find field: " ++ fmt_string (er_field err) ++ str ", during parsing key: "
     ++ fmt_string (er_key err) ++ [10]]
  | ValueNotParsed =>
    [str "Failed to parse value: " ++ fmt_string (er_value err) ++ str ", field: " ++ fmt_string (er_field err)
     ++ str ", during parsing key: " ++ fmt_string (er_key err) ++ [10]]
  | ValueNotFound => [str "Incorrect option format: " ++ fmt_string (er_key err) ++ str ", failed to find value" ++ [10]]
  | RequiredFieldMissing =>
    [str "Required field missing, key: " ++ fmt_string (er_key err) ++ str ", field: " ++ fmt_string (er_field err) ++ [10]]
  end.

Definition OnKey (ctx : DescribeContext) : text := fmt_string (dc_key ctx) ++ str " = " ++ fmt_string (dc_value ctx) ++ [10].

(** ** Checks *)

Definition MinPostponedSize : Z := 64.

(** What is printed, the verdict and the configuration.  Track depths are assigned through
    the variable, the size of the queue through its value. *)
Definition ValidateConfig (cfg : object) : list text * bool * object :=
  let '(out, valid, cfg) :=
    if MaxUnwindDepth <? get_size TrackDepth_path cfg
    then ([str "Can't set track depth more than: " ++ fmt_int MaxUnwindDepth], false,
          modify TrackDepth_path (fun x => ConfigVar_assign x (VInt T_uint64 MaxUnwindDepth)) cfg)
    else ([], true, cfg) in
  let '(out, valid, cfg) :=
    if get_size TrackDepth_path cfg <? MinUnwindDepth
    then (out ++ [str "Can't set track depth less than: " ++ fmt_int MinUnwindDepth], false,
          modify TrackDepth_path (fun x => ConfigVar_assign x (VInt T_uint64 MinUnwindDepth)) cfg)
    else (out, valid, cfg) in
  if get_size MaxPostponed_path cfg <? MinPostponedSize
  then (out ++ [str "Can't set postponed size less than: " ++ fmt_int MinPostponedSize], false,
        modify MaxPostponed_path (fun x => ConfigVar_deref_assign x (VInt T_uint64 MinPostponedSize)) cfg)
  else (out, valid, cfg).

Inductive config_run := Returned (cfg : object) | Exited (code : Z).

(** The variable of the environment, or [None]; what is printed and how it ends. *)
Definition ParseConfig (env : option text) : list text * config_run :=
  match env with
  | None => ([], Returned MainConfig)
  | Some input =>
    let '(errs, ok, cfg) := ParseStruct input MainConfig in
    let out := concat (OnError <$> errs) in
    if negb ok then (out, Exited (-1))
    else
      let '(out', ok, cfg) := ValidateConfig cfg in
      if negb ok then (out ++ out', Exited (-1))
      else if get_bool Help_path cfg then
        (out ++ out' ++ [str "full set of fields in config:" ++ [10]] ++ (OnKey <$> DescribeStruct MainConfig []), Exited 0)
      else (out ++ out', Returned cfg)
  end.

(** The values the profiler reads. *)
Definition profiler_config (cfg : object) : MemHawkConfig :=
  mkMemHawkConfig (get_bool [str "memhawk"; str "tracking_worker"] cfg) (get_size MaxPostponed_path cfg)
    (get_size [str "memhawk"; str "lru_size"] cfg) (get_size [str "memhawk"; str "collapse_depth"] cfg).
End Config.

(** ** Properties of the checks *)

Lemma MainConfig_names : names_ok MainConfig = true.
Proof. by vm_compute. Qed.

Lemma MainConfig_typed : well_typed MainConfig.
Proof.
  intros q x Hq%(elem_of_leaves MainConfig MainConfig_names). set (l := leaves MainConfig) in Hq.
  assert (Hl : Forall (fun e => typed (m_value e.2)) l).
  { vm_compute. repeat (apply List.Forall_cons; [first [exact I | split; discriminate]|]). apply List.Forall_nil. }
  rewrite Forall_forall in Hl. exact (Hl (q, x) Hq).
Qed.

Section checks.
Context `{!Fmt} `{!SplitIterator}.

(** Valid configurations pass unchanged and silently. *)
Lemma ValidateConfig_spec cfg out ok cfg' : ValidateConfig cfg = (out, ok, cfg') →
  ok = true → out = [] ∧ cfg' = cfg ∧ MinUnwindDepth ≤ get_size TrackDepth_path cfg ≤ MaxUnwindDepth
                ∧ MinPostponedSize ≤ get_size MaxPostponed_path cfg.
Proof.
  unfold ValidateConfig. intros Hrun ->.
  destruct (Z.ltb_spec MaxUnwindDepth (get_size TrackDepth_path cfg)) as [|H1].
  { destruct (get_size TrackDepth_path (modify _ _ _) <? _), (get_size MaxPostponed_path _ <? _); done. }
  destruct (Z.ltb_spec (get_size TrackDepth_path cfg) MinUnwindDepth) as [|H2].
  { destruct (get_size MaxPostponed_path _ <? _); done. }
  destruct (Z.ltb_spec (get_size MaxPostponed_path cfg) MinPostponedSize) as [|H3]; [done|]. by simplify_eq.
Qed.

Lemma ValidateConfig_ok cfg : MinUnwindDepth ≤ get_size TrackDepth_path cfg ≤ MaxUnwindDepth →
  MinPostponedSize ≤ get_size MaxPostponed_path cfg → ValidateConfig cfg = ([], true, cfg).
Proof.
  intros [H1 H2] H3. unfold ValidateConfig. destruct (Z.ltb_spec MaxUnwindDepth (get_size TrackDepth_path cfg)); [lia|].
  destruct (Z.ltb_spec (get_size TrackDepth_path cfg) MinUnwindDepth); [lia|].
  by destruct (Z.ltb_spec (get_size MaxPostponed_path cfg) MinPostponedSize); [lia|].
Qed.

Lemma get_size_range path cfg : well_typed cfg → shape cfg = shape MainConfig →
  (∃ r, Get path (shape MainConfig) = Some r ∧ m_value r = VInt T_uint64 0) → 0 ≤ get_size path cfg < 2 ^ 64.
Proof.
  intros Ht Hsh (r & Hr & Hv). rewrite <- Hsh, Get_shape in Hr. apply fmap_Some in Hr as (x & Hx & ->). cbn in Hv.
  unfold get_size. rewrite Hx. specialize (Ht _ _ Hx). destruct (m_value x); cbn in *; simplify_eq. cbn in Ht. lia.
Qed.

(** [ParseConfig] returns exactly when the variable is not set, or all its options are
    accepted, the track depth is between 3 and 64, the queue has room for 64 operations and
    no help is asked for; then nothing is printed, the configuration is the one parsed, with
    the types of [MainConfig] and every number in range.  Otherwise the process exits: with
    code 0 for help, with -1 when an option or a value was rejected. *)
Lemma config_checked input : zlen input < 2 ^ 32 →
  ∃ errs ok cfg out run, ParseStruct input MainConfig = (errs, ok, cfg) ∧ ParseConfig (Some input) = (out, run)
    ∧ let inside := ok = true ∧ 3 ≤ get_size TrackDepth_path cfg ≤ 64
                    ∧ 64 ≤ cfg_MaxPostponed (profiler_config cfg) in
      match run with
      | Returned cfg' => cfg' = cfg ∧ out = [] ∧ inside ∧ get_bool Help_path cfg = false
          ∧ shape cfg = shape MainConfig ∧ well_typed cfg ∧ cfg_MaxPostponed (profiler_config cfg) < 2 ^ 64
          ∧ 0 ≤ cfg_LruStackSize (profiler_config cfg) < 2 ^ 64
          ∧ 0 ≤ cfg_CollapseRecursionDepth (profiler_config cfg) < 2 ^ 64
      | Exited code => (code = 0 ∧ inside ∧ get_bool Help_path cfg = true) ∨ (code = -1 ∧ ¬ inside)
      end.
Proof.
  intros Hl. destruct (parse_spec input MainConfig MainConfig_names eq_refl Hl) as (cfg & E & Hsh & _ & Hg).
  assert (Ht : well_typed cfg).
  { intros q x. rewrite Hg. apply (set_options_typed _ (fun q => Get q MainConfig)), MainConfig_typed. }
  unfold ParseConfig. rewrite E. set (ok := _ && _) in *. set (errs := _ ++ _) in *.
  exists errs, ok, cfg. destruct ok; cbn [negb].
  2: { eexists _, _. split_and!; [done..|]. right. split; [done|]. by intros [? _]. }
  rewrite (parse_ok input MainConfig errs cfg MainConfig_names eq_refl Hl E). cbn [fmap list_fmap concat app].
  destruct (ValidateConfig cfg) as [[out' ok'] cfg'] eqn:Ev. destruct ok'; cbn [negb].
  - apply ValidateConfig_spec in Ev as (-> & -> & Hd & Hp); [|done].
    destruct (get_bool Help_path cfg) eqn:Eh; eexists _, _; (split; [done|]); (split; [done|]).
    + left. done.
    + split_and!; try done; try apply Hd; apply get_size_range; try done; by eexists.
  - eexists _, _. split_and!; [done..|]. right. split; [done|]. intros (_ & Hd & Hp).
    by rewrite ValidateConfig_ok in Ev.
Qed.
End checks.

Lemma config_checked_witness :
  let input := str "unwind.track_depth=48:memhawk.lru_size=0:memhawk.writers.text_writer.enabled=1" in
  ∃ cfg, ParseConfig (Some input) = ([], Returned cfg) ∧ get_size TrackDepth_path cfg = 48
    ∧ cfg_LruStackSize (profiler_config cfg) = 0 ∧ shape cfg = shape MainConfig
    ∧ ParseConfig (Some (str "unwind.track_depth=2")) = ([str "Can't set track depth less than: 3"], Exited (-1)).
Proof.
  intros input. destruct (config_checked input) as (errs & ok & cfg & out & run & Hp & Hc & Hrun); [vm_compute; reflexivity|].
  destruct run as [cfg'|code].
  - destruct Hrun as (-> & -> & _ & _ & Hsh & _). exists cfg. split; [done|].
    assert (E : get_size TrackDepth_path cfg = 48 ∧ cfg_LruStackSize (profiler_config cfg) = 0).
    { vm_compute in Hp. injection Hp as <- <- <-. by vm_compute. }
    split_and!; [apply E..|done|by vm_compute].
  - vm_compute in Hc. discriminate Hc.
Defined.

(** ** Describing and parsing *)

(** The description of one variable. *)
Definition describe `{!Fmt} (e : list text * var) : DescribeContext :=
  mkDescribe (key_of [] e.1) (ParamName e.2) (Describe (m_value e.2)).

(** The same as an option, and options as an input. *)
Definition option_text (d : DescribeContext) : text := dc_key d ++ 61 :: dc_value d.
Definition join_options (toks : list text) : text :=
  match toks with [] => [] | t :: ts => t ++ concat ((fun tok => 58 :: tok) <$> ts) end.

Definition plain_name (n : text) : Prop := n ≠ [] ∧ (46 ∉ n) ∧ (58 ∉ n) ∧ (61 ∉ n).

(** Values whose description is what the parser takes: no enums, no empty optionals. *)
Fixpoint readable (v : ConfigValue) : Prop :=
  match v with
  | VBool _ => True
  | VInt ty z => it_min ty ≤ z ≤ it_max ty ∧ (it_signed ty = false → 0 ≤ it_min ty)
  | VEnum _ _ => False
  | VString s => 58 ∉ s
  | VOptional has v => has = true ∧ readable v
  end.

Lemma split_unique `{!SplitIterator} toks : toks ≠ [] → Forall (fun tok => 58 ∉ tok) toks → split (join_options toks) = toks.
Proof.
  destruct toks as [|t ts]; [done|]. intros _ [Ht Hts]%Forall_cons. cbn [join_options].
  pose proof (split_parts (t ++ concat ((fun tok => 58 :: tok) <$> ts))) as Hp.
  destruct (split_join (t ++ concat ((fun tok => 58 :: tok) <$> ts))) as (t' & ts' & E & Hj). rewrite E in Hp |- *. clear E.
  apply Forall_cons in Hp as [Ht' Hts'].
  assert (Hhead : ∀ (a b : text) r r', 58 ∉ a → 58 ∉ b → a ++ 58 :: r = b ++ 58 :: r' → a = b ∧ r = r').
  { induction a as [|x a IH]; intros [|y b] r r' Ha Hb Hab; cbn in Hab; simplify_eq; try done.
    - exfalso. apply Hb. by left.
    - exfalso. apply Ha. by left.
    - destruct (IH b r r') as [-> ->]; [by intros ?; apply Ha; right|by intros ?; apply Hb; right|done|]. done. }
  assert (Hnone : ∀ (a b r : text), 58 ∉ a → a = b ++ 58 :: r → False).
  { intros a b r Ha ->. apply Ha, elem_of_app. right. by left. }
  revert t t' ts' Ht Ht' Hts' Hj. induction Hts as [|u ts Hu _ IH]; intros t t' [|u' ts'] Ht Ht' Hts' Hj;
    cbn [fmap list_fmap concat] in Hj; rewrite ?app_nil_r in Hj.
  - by subst.
  - cbn [app] in Hj. by destruct (Hnone _ _ _ Ht Hj).
  - cbn [app] in Hj. symmetry in Hj. by destruct (Hnone _ _ _ Ht' Hj).
  - apply Forall_cons in Hts' as [Hu' Hts']. cbn [app] in Hj. apply Hhead in Hj as [-> Hj]; try done.
    f_equal. by apply (IH u u' ts').
Qed.

Lemma cut_key key value : 61 ∉ key → cut 61 (key ++ 61 :: value) = Some (key, value).
Proof.
  induction key as [|c key IH]; intros Hk; cbn [app cut]; [done|].
  destruct (Z.eqb_spec c 61) as [->|_]; [exfalso; apply Hk; by left|]. rewrite IH; [done|]. intros ?. apply Hk. by right.
Qed.

Lemma split_on_single d s : d ∉ s → split_on d s = [s].
Proof. intros Hs. apply split_on_none, list_find_None, Forall_forall. by intros x Hx ->. Qed.

Lemma split_on_app d a b : d ∉ a → split_on d (a ++ d :: b) = a :: split_on d b.
Proof.
  induction a as [|c a IH]; intros Ha; cbn [app split_on]; [by rewrite Z.eqb_refl|].
  destruct (Z.eqb_spec c d) as [->|_]; [exfalso; apply Ha; by left|]. rewrite IH; [done|]. intros ?. apply Ha. by right.
Qed.

(** Keys join names with dots. *)
Lemma key_of_cons k p : k ≠ [] → key_of [] (k :: p) = k ++ concat ((fun n => 46 :: n) <$> p).
Proof.
  intros Hk. unfold key_of. cbn [foldl fullPath]. revert k Hk. induction p as [|n p IH]; intros k Hk; cbn [foldl fmap list_fmap concat].
  - by rewrite app_nil_r.
  - assert (E : fullPath k n = k ++ 46 :: n) by by destruct k. rewrite E, IH; [|by destruct k].
    by rewrite <- app_assoc.
Qed.

Lemma split_key q : q ≠ [] → Forall plain_name q → split_on 46 (key_of [] q) = q.
Proof.
  destruct q as [|k p]; [done|]. intros _ [(Hk & Hd & _) Hp]%Forall_cons. rewrite key_of_cons by done.
  clear Hk. revert k Hd. induction Hp as [|n p (Hn & Hnd & _) _ IH]; intros k Hd; cbn [fmap list_fmap concat].
  - rewrite app_nil_r. by apply split_on_single.
  - cbn [app]. rewrite split_on_app by done. by rewrite IH.
Qed.

Lemma key_chars q c : Forall (fun n => c ∉ n) q → q ≠ [] → Forall plain_name q → c ≠ 46 → c ∉ key_of [] q.
Proof.
  intros Hc Hq Hp Hne. destruct q as [|k p]; [done|]. apply Forall_cons in Hp as [(Hk & _) _]. rewrite key_of_cons by done.
  apply Forall_cons in Hc as [Hck Hcp]. rewrite elem_of_app. intros [?|H]; [done|].
  induction Hcp as [|n p Hn _ IH]; cbn [fmap list_fmap concat] in H; [by apply elem_of_nil in H|].
  rewrite elem_of_app, elem_of_cons in H. destruct H as [[?|?]|?]; [done|done|]. by apply IH.
Qed.

Section describing.
Context `{!Fmt}.

Lemma describe_leaves o : ∀ kp, DescribeStruct o kp =
  (fun e => mkDescribe (key_of kp e.1) (ParamName e.2) (Describe (m_value e.2))) <$> leaves o.
Proof.
  induction o as [v|ms IH] using object_ind'; intros kp; [done|]. induction IH as [|m ms Hm _ IHms]; [done|].
  rewrite leaves_cons, fmap_app, <- IHms. cbn [DescribeStruct fmap list_fmap concat]. f_equal.
  destruct (m_value m) as [v|ms'] eqn:Ev; [done|]. unfold GetName. rewrite Hm, <- list_fmap_compose. done.
Qed.

(** What is described is parsed to the same value. *)
Lemma parse_described v : readable v → ∀ w, erase w = erase v → ParseValue (Describe v) w = Some v.
Proof.
  induction v as [b|ty z|ty z|s|has v IH]; cbn [readable]; intros Hv w Hw; destruct w; try done; cbn [Describe ParseValue].
  - rewrite fmt_bool_spec. by destruct b.
  - injection Hw as ->. destruct Hv as [Hr Hs]. rewrite fmt_int_spec. unfold ParseValue_integral.
    rewrite <- (app_nil_r (print_int z)), from_chars_print by done. done.
  - by rewrite fmt_string_spec.
  - destruct Hv as [-> Hv]. injection Hw as Hw. by rewrite (IH Hv w Hw).
Qed.

Lemma described_chars v : readable v → 58 ∉ Describe v.
Proof.
  induction v as [b|ty z|ty z|s|has v IH]; cbn [readable Describe]; intros Hv; try done.
  - rewrite fmt_bool_spec. destruct b; intros Hc; repeat (apply elem_of_cons in Hc as [?|Hc]; [done|]); by apply elem_of_nil in Hc.
  - rewrite fmt_int_spec. intros Hin. pose proof (print_int_chars z) as Hc. rewrite Forall_forall in Hc.
    apply Hc in Hin. lia.
  - by rewrite fmt_string_spec.
  - destruct Hv as [-> Hv]. by apply IH.
Qed.

(** One described variable as an option. *)
Lemma set_described (g : view) q x y : q ≠ [] → Forall plain_name q → readable (m_value x) →
  g q = Some y → erase (m_value y) = erase (m_value x) →
  set_option g (option_text (describe (q, x))) =
  Some (fun q' => if decide (q' = q) then Some (mkVar (ParamName y) (IsRequired y) true (m_value x)) else g q').
Proof.
  intros Hq Hp Hx Hg He. unfold set_option, option_text, describe. cbn [dc_key dc_value fst snd].
  rewrite cut_key.
  - cbn [mbind option_bind]. rewrite split_key, Hg by done. cbn. unfold assign. rewrite parse_described by done. done.
  - apply key_chars; try done. apply (Forall_impl _ _ _ Hp). by intros n (_ & _ & _ & ?).
Qed.

Lemma described_token q x : q ≠ [] → Forall plain_name q → readable (m_value x) →
  58 ∉ option_text (describe (q, x)).
Proof.
  intros Hq Hp Hx. unfold option_text, describe. cbn [dc_key dc_value fst snd].
  rewrite elem_of_app, elem_of_cons. intros [Hc|[?|Hc]]; [|done|by apply described_chars in Hc].
  revert Hc. apply key_chars; try done. apply (Forall_impl _ _ _ Hp). by intros n (_ & _ & ? & _).
Qed.

(** All of a selection. *)
Lemma set_selection (h : view) sel : Forall (fun e => h e.1 = Some e.2 ∧ e.1 ≠ [] ∧ Forall plain_name e.1 ∧ readable (m_value e.2)) sel →
  ∀ g : view, (∀ q, erase_var <$> g q = erase_var <$> h q) → (∀ q y, g q = Some y → IsValid y = true) →
  let toks := (fun e => option_text (describe e)) <$> sel in
  (set_options g toks).1 = true ∧ (∀ q y, (set_options g toks).2 q = Some y → IsValid y = true) ∧
  ∀ q, m_value <$> (set_options g toks).2 q = m_value <$> (if decide (q ∈ sel.*1) then h q else g q).
Proof.
  induction 1 as [|[q x] sel (Hh & Hq & Hp & Hx) _ IH]; intros g Hg Hv; cbn [fmap list_fmap set_options].
  { split; [done|]. split; [done|]. intros q. rewrite decide_False; [done|]. by intros ?%elem_of_nil. }
  cbn [fst snd] in *. pose proof (Hg q) as Hgq. rewrite Hh in Hgq. cbn in Hgq. apply fmap_Some in Hgq as (y & Hy & Exy).
  unfold erase_var in Exy. injection Exy as En Er Ev. rewrite (set_described g q x y) by done.
  set (g' := fun q' => _). destruct (IH g') as (H1 & H2 & H3).
  - intros q'. unfold g'. destruct (decide (q' = q)) as [->|_]; [|apply Hg]. rewrite Hh. cbn. unfold erase_var. cbn. by rewrite En, Er.
  - intros q' y'. unfold g'. destruct (decide (q' = q)); [|apply Hv]. by intros [= <-].
  - split; [done|]. split; [done|]. intros q'. rewrite H3. unfold g'. cbn [list_fmap fmap fst].
    destruct (decide (q' ∈ sel.*1)) as [Hin|Hin]; [by rewrite decide_True by (by right)|].
    destruct (decide (q' = q)) as [->|Hne]; [rewrite decide_True by (by left); by rewrite Hh|].
    rewrite decide_False; [done|]. intros [?|?]%elem_of_cons; done.
Qed.
End describing.

(** C35: the help output lists every variable with its key and value; any of its entries whose
    values are printed the way they are parsed (no log levels, no empty file names, no
    colons), given back as options, are accepted without an error and set exactly these
    variables to the values described, in any configuration of the same type. *)
Theorem describe_parse `{!Fmt} `{!SplitIterator} o o0 sel :
  let input := join_options ((fun e => option_text (describe e)) <$> sel) in
  names_ok o = true → is_struct o = true → shape o0 = shape o →
  (∀ q x, Get q o0 = Some x → IsValid x = true) → zlen input < 2 ^ 32 → sel ≠ [] →
  Forall (fun e => e ∈ leaves o ∧ Forall plain_name e.1 ∧ readable (m_value e.2)) sel →
  DescribeStruct o [] = describe <$> leaves o ∧
  ∃ o', ParseStruct input o0 = ([], true, o') ∧ shape o' = shape o ∧
    ∀ q, m_value <$> Get q o' = m_value <$> Get q (if decide (q ∈ sel.*1) then o else o0).
Proof.
  intros input Hn Ho Hsh Hval Hlen Hne Hsel. split; [apply describe_leaves|].
  assert (Hn0 : names_ok o0 = true) by by rewrite <- names_ok_shape, Hsh, names_ok_shape.
  assert (Ho0 : is_struct o0 = true) by by rewrite <- is_struct_shape, Hsh, is_struct_shape.
  assert (Hsel' : Forall (fun e => Get e.1 o = Some e.2 ∧ e.1 ≠ [] ∧ Forall plain_name e.1 ∧ readable (m_value e.2)) sel).
  { apply (Forall_impl _ _ _ Hsel). intros [q x] (Hin%(elem_of_leaves o Hn) & Hp & Hx). cbn [fst snd] in *. split_and!; try done.
    intros ->. done. }
  assert (Hsplit : split input = (fun e => option_text (describe e)) <$> sel).
  { apply split_unique; [by destruct sel|]. apply Forall_fmap, (Forall_impl _ _ _ Hsel').
    intros [q x] (_ & Hq & Hp & Hx). by apply described_token. }
  destruct (set_selection (fun q => Get q o) sel Hsel' (fun q => Get q o0)) as (H1 & H2 & H3); [|done|].
  { intros q. by rewrite <- !Get_shape, Hsh. }
  destruct (parse_spec input o0 Hn0 Ho0 Hlen) as (o' & E & Hsh' & Hok & Hg). rewrite Hsplit in E, Hok, Hg.
  rewrite H1 in Hok. symmetry in Hok. rewrite Hok in E.
  assert (Hm : missing [] (leaves o') = []).
  { apply missing_nil; [by rewrite <- names_ok_shape, Hsh', names_ok_shape|]. intros q y. rewrite Hg. apply H2. }
  apply (toks_ok_spec o0 _ Ho0) in Hok as [Herr _]. rewrite Herr, Hm in E. exists o'. split; [done|].
  split; [congruence|]. intros q. rewrite Hg, H3. by destruct (decide _).
Qed.

Lemma describe_parse_witness :
  let x := mkVar (str "track_depth") false true (VInt T_uint64 48) in
  let o := modify TrackDepth_path (fun _ => x) MainConfig in
  let sel := [(TrackDepth_path, x)] in
  ∃ o', ParseStruct (join_options ((fun e => option_text (describe e)) <$> sel)) MainConfig = ([], true, o')
    ∧ get_size TrackDepth_path o' = 48 ∧ get_size MaxPostponed_path o' = 512.
Proof.
  intros x o sel. destruct (describe_parse o MainConfig sel) as (_ & o' & E & _ & Hg).
  - by vm_compute.
  - done.
  - by vm_compute.
  - intros q y Hq%(elem_of_leaves MainConfig MainConfig_names).
    assert (Hl : Forall (fun e => IsValid e.2 = true) (leaves MainConfig)).
    { vm_compute. repeat (apply List.Forall_cons; [reflexivity|]). apply List.Forall_nil. }
    rewrite Forall_forall in Hl. exact (Hl (q, y) Hq).
  - vm_compute. reflexivity.
  - done.
  - apply List.Forall_cons; [|apply List.Forall_nil]. cbn [fst snd]. split; [|split].
    + apply elem_of_leaves; [by vm_compute|by vm_compute].
    + repeat (apply List.Forall_cons; [split_and!; [done|..];
        intros Hc; vm_compute in Hc; repeat (apply elem_of_cons in Hc as [?|Hc]; [done|]); by apply elem_of_nil in Hc|]).
      apply List.Forall_nil.
    + cbn. lia.
  - exists o'. split; [done|]. vm_compute in E. injection E as <-. by vm_compute.
Defined.

(** An empty input is one option without a separator. *)
Lemma empty_options : ParseConfig (Some []) = (OnError (mkError ValueNotFound [] [] []), Exited (-1)).
Proof. by vm_compute. Qed.
