(* ===== verification/Logging.v ===== *)
(** * Logging ([impl/logging.h], [impl/logging.cpp])

    The global state of the log and the calls of the system it makes: [open], [vdprintf], [fsync],
    [close].  A process has open files, each a name and a position; writing replaces what
    follows the position.  Messages are given as formatted text; which calls of [open] fail, and
    what [strerror_r] says, are parameters. *)

From Stdlib Require Import ZArith Lia.
From stdpp Require Import base numbers list gmap strings.
From S2P Require Import Prelude FromChars ParseStruct Config.

(** ** Files of a process *)

Record Process := mkProcess { ps_files : gmap text text; ps_fds : gmap Z (text * nat) }.

Definition STDERR_FILENO : Z := 2.

(** Writing at a position. *)
Definition write_at (pos : nat) (bytes old : text) : text := take pos old ++ bytes ++ drop (pos + length bytes) old.

Definition sys_write (p : Process) (fd : Z) (bytes : text) : Process :=
  match ps_fds p !! fd with
  | None => p
  | Some (name, pos) =>
    mkProcess (<[name := write_at pos bytes (default [] (ps_files p !! name))]> (ps_files p))
              (<[fd := (name, (pos + length bytes)%nat)]> (ps_fds p))
  end.

Definition sys_close (p : Process) (fd : Z) : Process := mkProcess (ps_files p) (delete fd (ps_fds p)).

(** The lowest descriptor that is free. *)
Definition lowest_fd (p : Process) : option Z :=
  snd <$> list_find (fun i => ps_fds p !! i = None) (seqZ 0 (Z.of_nat (size (ps_fds p)) + 1)).

(** ** The log *)

(** [LoggingConfig] as its members. *)
Record LogConfig := mkLogConfig { MainLogIntoFile : bool; LoggingLevel : Z; LogDir : text }.

Definition LogConfig_default : LogConfig := mkLogConfig true (LogLevel_value Info) (str "./").

Record Log := mkLog { gl_logFile : Z; gl_loggingConfig : LogConfig; gl_loggingLevel : Z; lg_process : Process }.

(** The globals before [LogInit]. *)
Definition Log_start (p : Process) : Log := mkLog STDERR_FILENO LogConfig_default (LogLevel_value Info) p.

Definition with_process (s : Log) (p : Process) : Log := mkLog (gl_logFile s) (gl_loggingConfig s) (gl_loggingLevel s) p.
Definition with_file (s : Log) (fd : Z) : Log := mkLog fd (gl_loggingConfig s) (gl_loggingLevel s) (lg_process s).

Definition LogPrint (message : text) (s : Log) : Log := with_process s (sys_write (lg_process s) (gl_logFile s) message).

(** A message of the macro [LogEx]: level, name of the function, text. *)
Record LogMessage := mkMessage { lm_level : LogLevel; lm_func : text; lm_text : text }.

Definition log_line (m : LogMessage) : text :=
  str "[" ++ Describe_LogLevel (LogLevel_value (lm_level m)) ++ str "]:" ++ lm_func m ++ str " :: " ++ lm_text m ++ [10].

Definition LogEx (m : LogMessage) (s : Log) : Log :=
  if gl_loggingLevel s <=? LogLevel_value (lm_level m) then LogPrint (log_line m) s else s.

(** The process goes on, or exits with a code. *)
Inductive log_run := LogExit (code : Z) (s : Log) | LogRun (s : Log).

Section Logging.
Context (program_invocation_short_name : text) (getpid : Z).
(** The error [open] fails with, and its description. *)
Context (open_error : text → option Z) (strerror : Z → text).

Definition GetProcessLogName (suffix fileext : text) (s : Log) : text :=
  LogDir (gl_loggingConfig s) ++ str "/memhawk_" ++ program_invocation_short_name ++ str "_" ++ print_int getpid
  ++ str "_" ++ suffix ++ str "." ++ fileext.

(** [open] with [O_WRONLY | O_CREAT]: the file is made when it is missing, kept otherwise. *)
Definition sys_open (p : Process) (name : text) : (Z + Z) * Process :=
  match open_error name with
  | Some errno => (inl errno, p)
  | None =>
    match lowest_fd p with
    | None => (inl 24, p)
    | Some fd =>
      (inr fd, mkProcess (<[name := default [] (ps_files p !! name)]> (ps_files p)) (<[fd := (name, 0%nat)]> (ps_fds p)))
    end
  end.

Definition LogInit (cfg : LogConfig) (s : Log) : log_run :=
  let s := mkLog (gl_logFile s) cfg (LoggingLevel cfg) (lg_process s) in
  if MainLogIntoFile cfg then
    let filename := GetProcessLogName (str "main_log") (str "log") s in
    let '(res, p) := sys_open (lg_process s) filename in
    match res with
    | inr fd => LogRun (with_file (with_process s p) fd)
    | inl errno =>
      LogExit (-1) (LogPrint (str "Failed to initialise logging: " ++ filename ++ str ", error: " ++ strerror errno ++ [10])
                      (with_file (with_process s p) STDERR_FILENO))
    end
  else LogRun (with_file s STDERR_FILENO).

(** [fsync] changes nothing that can be seen here. *)
Definition LogDeinit (s : Log) : Log :=
  let s := if MainLogIntoFile (gl_loggingConfig s) then with_process s (sys_close (lg_process s) (gl_logFile s)) else s in
  with_file s STDERR_FILENO.

(** ** What a log holds *)

(** The lines of the messages that are not below a level. *)
Definition log_text (level : Z) (msgs : list LogMessage) : text :=
  concat (log_line <$> filter (fun m => level ≤ LogLevel_value (lm_level m)) msgs).

(** New text written over old text from its start. *)
Definition overlay (new old : text) : text := new ++ drop (length new) old.

Definition log_all (msgs : list LogMessage) (s : Log) : Log := foldl (fun s m => LogEx m s) s msgs.

Lemma overlay_snoc new bytes old : write_at (length new) bytes (overlay new old) = overlay (new ++ bytes) old.
Proof.
  unfold write_at, overlay. rewrite take_app_length, <- app_assoc, length_app. do 2 f_equal.
  rewrite drop_app_ge by lia. rewrite drop_drop. f_equal. lia.
Qed.

(** What the descriptor of the log shows after some text was written to it. *)
Record logging_to (s0 : Process) (fd : Z) (name : text) (pos : nat) (old new : text) (s : Log) : Prop := {
  lt_fd : gl_logFile s = fd;
  lt_fds : ps_fds (lg_process s) = <[fd := (name, (pos + length new)%nat)]> (ps_fds s0);
  lt_file : ps_files (lg_process s) !! name = Some (take pos old ++ overlay new (drop pos old));
  lt_other name' : name' ≠ name → ps_files (lg_process s) !! name' = ps_files s0 !! name';
}.

Lemma LogPrint_to s0 fd name pos old new bytes s : (pos ≤ length old)%nat → logging_to s0 fd name pos old new s →
  logging_to s0 fd name pos old (new ++ bytes) (LogPrint bytes s).
Proof.
  intros Hp [H1 H2 H3 H4]. unfold LogPrint, sys_write. rewrite H1, H2, lookup_insert_eq. split; cbn.
  - done.
  - by rewrite insert_insert_eq, length_app, Nat.add_assoc.
  - rewrite lookup_insert_eq, H3. cbn. f_equal. rewrite <- overlay_snoc. unfold write_at.
    rewrite take_app_ge, <- app_assoc by (rewrite length_take; lia). rewrite length_take, Nat.min_l by lia.
    rewrite drop_app_ge by (rewrite length_take; lia). rewrite length_take, Nat.min_l by lia.
    replace (pos + length new - pos)%nat with (length new) by lia.
    by replace (pos + length new + length bytes - pos)%nat with (length new + length bytes)%nat by lia.
  - intros name' Hn. rewrite lookup_insert_ne by done. by apply H4.
Qed.

Lemma log_all_to level msgs : ∀ s0 fd name pos old new s, (pos ≤ length old)%nat → gl_loggingLevel s = level →
  logging_to s0 fd name pos old new s →
  logging_to s0 fd name pos old (new ++ log_text level msgs) (log_all msgs s)
  ∧ gl_loggingConfig (log_all msgs s) = gl_loggingConfig s.
Proof.
  induction msgs as [|m msgs IH]; intros s0 fd name pos old new s Hp Hl Ht; [by rewrite app_nil_r|].
  cbn [log_all foldl]. unfold LogEx at 2 4. rewrite Hl. unfold log_text. rewrite filter_cons.
  destruct (Z.leb_spec level (LogLevel_value (lm_level m))) as [Hle|Hlt].
  - rewrite decide_True by done. cbn [fmap list_fmap concat]. rewrite app_assoc.
    exact (IH _ _ _ _ _ _ (LogPrint (log_line m) s) Hp Hl (LogPrint_to _ _ _ _ _ _ _ _ Hp Ht)).
  - rewrite decide_False by lia. by apply IH.
Qed.

Lemma lowest_fd_free p fd : lowest_fd p = Some fd → ps_fds p !! fd = None.
Proof.
  unfold lowest_fd. intros H. apply fmap_Some in H as ([i x] & Hf & ->). by apply list_find_Some in Hf as (_ & ? & _).
Qed.

(** The log after [LogInit]: its descriptor, and what happens to the others. *)
Lemma LogInit_file cfg s s' (name := GetProcessLogName (str "main_log") (str "log") (mkLog (gl_logFile s) cfg (LoggingLevel cfg) (lg_process s))) :
  MainLogIntoFile cfg = true → LogInit cfg s = LogRun s' →
  ∃ fd, ps_fds (lg_process s) !! fd = None ∧ gl_loggingConfig s' = cfg ∧ gl_loggingLevel s' = LoggingLevel cfg
    ∧ logging_to (lg_process s) fd name 0 (default [] (ps_files (lg_process s) !! name)) [] s'.
Proof.
  intros Hm. unfold LogInit. rewrite Hm. unfold sys_open. cbn [lg_process]. fold name.
  destruct (open_error name); [done|]. destruct (lowest_fd (lg_process s)) as [fd|] eqn:E; [|done].
  intros [= <-]. exists fd. split; [by apply lowest_fd_free|]. split; [done|]. split; [done|]. split; cbn.
  - done.
  - done.
  - by rewrite lookup_insert_eq.
  - intros name' Hn. by rewrite lookup_insert_ne.
Qed.

(** The name of the log. *)
Definition main_log_name (cfg : LogConfig) : text :=
  LogDir cfg ++ str "/memhawk_" ++ program_invocation_short_name ++ str "_" ++ print_int getpid ++ str "_main_log.log".

Lemma LogInit_exit cfg p code s (name := main_log_name cfg) : LogInit cfg (Log_start p) = LogExit code s →
  code = -1 ∧ ∃ errno, (sys_open p name).1 = inl errno ∧ lg_process s = sys_write p STDERR_FILENO
    (str "Failed to initialise logging: " ++ name ++ str ", error: " ++ strerror errno ++ [10]).
Proof.
  unfold LogInit. cbn [Log_start gl_logFile lg_process].
  change (GetProcessLogName _ _ _) with name. destruct (MainLogIntoFile cfg); [|done]. unfold sys_open.
  destruct (open_error name); [|destruct (lowest_fd p); [done|]]; intros [= <- <-]; (split; [done|]); by eexists.
Qed.

(** ** Property *)

(** C37: the log of a process, from [LogInit] to [LogDeinit].  When the log goes to a file and the file
    cannot be opened, a message on the error stream says why and the process exits with -1, and only
    then.  Otherwise the messages that are not below the level, and no others, are written line by
    line in their order: to the file, from its start and over what an older file held, with every
    other file untouched and the descriptors as they were before; or to the error stream, which
    stays open. *)
Theorem log_contents cfg p msgs err pos shown :
  ps_fds p !! STDERR_FILENO = Some (err, pos) → ps_files p !! err = Some shown → (pos ≤ length shown)%nat →
  match LogInit cfg (Log_start p) with
  | LogExit code s =>
    code = -1 ∧ MainLogIntoFile cfg = true
    ∧ ∃ errno, (sys_open p (main_log_name cfg)).1 = inl errno
      ∧ lg_process s = sys_write p STDERR_FILENO
          (str "Failed to initialise logging: " ++ main_log_name cfg ++ str ", error: " ++ strerror errno ++ [10])
  | LogRun s =>
    let p' := lg_process (LogDeinit (log_all msgs s)) in
    let new := log_text (LoggingLevel cfg) msgs in
    if MainLogIntoFile cfg then
      ps_files p' !! main_log_name cfg = Some (overlay new (default [] (ps_files p !! main_log_name cfg)))
      ∧ (∀ name, name ≠ main_log_name cfg → ps_files p' !! name = ps_files p !! name) ∧ ps_fds p' = ps_fds p
    else
      ps_files p' !! err = Some (take pos shown ++ overlay new (drop pos shown))
      ∧ (∀ name, name ≠ err → ps_files p' !! name = ps_files p !! name)
      ∧ ps_fds p' = <[STDERR_FILENO := (err, (pos + length new)%nat)]> (ps_fds p)
  end.
Proof.
  intros Herr Hshown Hpos.
  assert (Hname : GetProcessLogName (str "main_log") (str "log") (mkLog STDERR_FILENO cfg (LoggingLevel cfg) p) = main_log_name cfg) by done.
  destruct (MainLogIntoFile cfg) eqn:Em.
  - destruct (LogInit cfg (Log_start p)) as [code s|s] eqn:E.
    + destruct (LogInit_exit cfg p code s E) as (-> & errno & E1 & E2). split; [done|]. split; [done|]. by exists errno.
    + destruct (LogInit_file cfg (Log_start p) s Em E) as (fd & Hfree & Hc & Hl & Ht). cbn [Log_start lg_process gl_logFile] in *. rewrite Hname in Ht.
      destruct (log_all_to (LoggingLevel cfg) msgs _ _ _ _ _ _ _ (Nat.le_0_l _) Hl Ht) as [[H1 H2 H3 H4] Hc'].
      unfold LogDeinit. rewrite Hc', Hc, Em. cbn. rewrite H1, H2, H3. split; [done|]. split; [done|].
      by rewrite delete_insert_id.
  - unfold LogInit. rewrite Em. cbn [Log_start gl_logFile gl_loggingConfig gl_loggingLevel lg_process].
    set (s := with_file _ _). assert (Ht : logging_to p STDERR_FILENO err pos shown [] s).
    { split; cbn [s with_file gl_logFile lg_process length]; [done| | |done]; [by rewrite Nat.add_0_r, insert_id|].
      unfold overlay. by rewrite app_nil_l, drop_0, take_drop. }
    destruct (log_all_to (LoggingLevel cfg) msgs _ _ _ _ _ _ s Hpos eq_refl Ht) as [[H1 H2 H3 H4] Hc'].
    unfold LogDeinit. rewrite Hc'. cbn. rewrite Em. cbn. by rewrite H2, H3.
Qed.
End Logging.

Definition sample_process : Process := mkProcess {[str "tty" := str "$ "]} {[0 := (str "tty", 0%nat); 1 := (str "tty", 2%nat); 2 := (str "tty", 2%nat)]}.
Definition sample_messages : list LogMessage := [mkMessage Debug (str "f") (str "a"); mkMessage Warning (str "g") (str "b")].
Definition sample_log (main_log : bool) : LogConfig := mkLogConfig main_log (LogLevel_value Info) (str "/tmp").

Lemma log_contents_witness :
  match LogInit (str "prog") 7 (fun _ => None) (fun _ => []) (sample_log true) (Log_start sample_process) with
  | LogRun s =>
    let p := lg_process (LogDeinit (log_all sample_messages s)) in
    ps_files p !! str "/tmp/memhawk_prog_7_main_log.log" = Some (str "[Warning]:g :: b" ++ [10]) ∧ ps_fds p = ps_fds sample_process
  | LogExit _ _ => False
  end
  ∧ match LogInit (str "prog") 7 (fun _ => Some 13) (fun _ => str "Permission denied") (sample_log true) (Log_start sample_process) with
    | LogRun s => False
    | LogExit code s => code = -1
    end.
Proof.
  pose proof (fun e => log_contents (str "prog") 7 e (fun _ => str "Permission denied") (sample_log true) sample_process sample_messages (str "tty") 2 (str "$ ")
    eq_refl eq_refl (le_n 2)) as H. split.
  - pose proof (H (fun _ => None)) as (H1 & _ & H2). split; [exact H1|exact H2].
  - pose proof (H (fun _ => Some 13)) as (H1 & _). exact H1.
Defined.

(** When [LogInit] was never called, [LogDeinit] closes the error stream: the configuration that
    is there by default says that the log is a file. *)
Lemma deinit_closes_stderr p : ps_fds (lg_process (LogDeinit (Log_start p))) !! STDERR_FILENO = None.
Proof. cbn. apply lookup_delete_eq. Qed.

(** A log that is shorter than the one an older process with the same name and number left
    ends with the rest of the older one. *)
Lemma stale_tail new old : (length new < length old)%nat → ∃ tail, tail ≠ [] ∧ overlay new old = new ++ tail ∧ tail `suffix_of` old.
Proof.
  intros H. exists (drop (length new) old). split; [|split; [done|apply suffix_drop]].
  intros E. apply (f_equal length) in E. rewrite length_drop in E. cbn in E. lia.
Qed.
