(* ===== verification/TextWriter.v ===== *)
(** * The text writer ([writers/text_writer.h], [writers/text_writer.cpp])

    The writer keeps one index of traces for the application and one for MemHawk itself and
    appends a report to a file with every flush: totals and the heaviest traces of either
    index; traces that are listed for the first time are described in a second file.

    The container of boost behind an index is the class [SummaryIndex] with its laws
    [SummaryIndexLaws].  The files are lists of structured lines and of described traces; their
    text is in [ReportText] and [Describe].  The clock and the finder are arguments of
    [FlushData]. *)

From Stdlib Require Import ZArith Lia.
From stdpp Require Import base numbers list gmap sorting.
From S2P Require Import Prelude Algo AllocInfo Stacktrace StaticTracker ThreadTracker Snapshots.

(** ** The container *)

(** An [IndexValue] is the id of a trace and its summary. *)
Abbreviation entry := (Z * AllocSummary)%type.

Class SummaryIndex (I : Type) := {
  ix_empty : I;
  (** [find] in the hashed view *)
  ix_find : I → Z → option AllocSummary;
  (** [insert] through the hashed view: nothing happens when the id is present *)
  ix_insert : I → Z → AllocSummary → I;
  (** [modify] of the element with this id *)
  ix_modify : I → Z → (AllocSummary → AllocSummary) → I;
  ix_size : I → nat;
  (** the elements in the order of the view by size, and of the view by total count *)
  ix_by_size : I → list entry;
  ix_by_count : I → list entry;
}.

(** Both views show every element once, greater keys first. *)
Definition by_key (key : AllocSummary → Z) (a b : entry) : Prop := key b.2 ≤ key a.2.

Record view_ok {I} `{!SummaryIndex I} (i : I) (key : AllocSummary → Z) (l : list entry) : Prop := {
  vo_nodup : NoDup l.*1;
  vo_elem id s : (id, s) ∈ l ↔ ix_find i id = Some s;
  vo_sorted : StronglySorted (by_key key) l;
}.

Class SummaryIndexLaws (I : Type) `{!SummaryIndex I} : Prop := {
  ix_find_empty id : ix_find ix_empty id = None;
  ix_find_insert i id s id' : ix_find (ix_insert i id s) id' =
    if decide (id' = id) then Some (default s (ix_find i id)) else ix_find i id';
  ix_find_modify i id f id' : ix_find (ix_modify i id f) id' =
    if decide (id' = id) then f <$> ix_find i id else ix_find i id';
  ix_size_view i : ix_size i = length (ix_by_size i);
  ix_view_size i : view_ok i sum_size (ix_by_size i);
  ix_view_count i : view_ok i sum_totalCount (ix_by_count i);
}.

(** ** The writer *)

(** The values of [TextWriterIndexConfig] and [TextWriterConfig]. *)
Record IndexConfig := mkIndexConfig { ic_Enabled : bool; ic_BySizeCount : Z; ic_ByTotalCount : Z }.
Record WriterConfig := mkWriterConfig { wc_ExternalTraces : IndexConfig; wc_InternalTraces : IndexConfig }.

Inductive line :=
| LTime (now : Z)
| LApplicationHeap (s : AllocSummary)
| LMemHawkHeap (s : AllocSummary)
| LTraces (total updated : Z)
| LExternalIndex
| LInternalIndex
| LByActiveSize
| LByTotalCount
| LTrace (traceId : Z) (s : AllocSummary)
| LEmpty.

#[export] Instance line_eq_dec : EqDecision line.
Proof. solve_decision. Defined.

Section TextWriter.
Context {I : Type} `{!SummaryIndex I} (hash_order : gset Z → list Z).

Record TextWriter := mkTextWriter {
  tw_cfg : WriterConfig;
  tw_summaryFile : list line;
  tw_stacktracesFile : list (Z * Stacktrace);
  tw_writtenStacktraces : gset Z;
  tw_updatedTraces : Z;
  tw_total : AllocSummary;
  tw_externalIndex : I;
  tw_externalSummary : AllocSummary;
  tw_internalIndex : I;
  tw_internalSummary : AllocSummary;
}.

Definition TextWriter_ctor (cfg : WriterConfig) : TextWriter :=
  mkTextWriter cfg [] [] ∅ 0 AllocSummary_zero ix_empty AllocSummary_zero ix_empty AllocSummary_zero.

Definition Text_UpdateModules (w : TextWriter) : TextWriter := w.

Definition AccountSummary (index : I) (total : AllocSummary) (traceId : Z) (summary : AllocSummary)
  : I * AllocSummary :=
  let total := summary_add total summary in
  let index := match ix_find index traceId with
               | None => ix_insert index traceId AllocSummary_zero
               | Some _ => index
               end in
  (ix_modify index traceId (fun s => summary_add s summary), total).

(** The body of the loop of [AccountSnapshot]. *)
Definition text_account_one (w : TextWriter) (e : entry) : TextWriter :=
  let '(traceId, summary) := e in
  if IsFixedTrackerId traceId then
    let '(index, total) := AccountSummary (tw_internalIndex w) (tw_internalSummary w) traceId summary in
    mkTextWriter (tw_cfg w) (tw_summaryFile w) (tw_stacktracesFile w) (tw_writtenStacktraces w) (tw_updatedTraces w)
      (tw_total w) (tw_externalIndex w) (tw_externalSummary w) index total
  else
    let '(index, total) := AccountSummary (tw_externalIndex w) (tw_externalSummary w) traceId summary in
    mkTextWriter (tw_cfg w) (tw_summaryFile w) (tw_stacktracesFile w) (tw_writtenStacktraces w) (tw_updatedTraces w)
      (tw_total w) index total (tw_internalIndex w) (tw_internalSummary w).

Definition Text_AccountSnapshot (w : TextWriter) (summaries : SummariesMap) (total : AllocSummary) : TextWriter :=
  let w := mkTextWriter (tw_cfg w) (tw_summaryFile w) (tw_stacktracesFile w) (tw_writtenStacktraces w)
             (u64 (tw_updatedTraces w + Z.of_nat (size summaries))) (summary_add (tw_total w) total)
             (tw_externalIndex w) (tw_externalSummary w) (tw_internalIndex w) (tw_internalSummary w) in
  foldl text_account_one w (map_to_list summaries).

(** The members and locals [DumpIndex] changes: the stream, [m_writtenStacktraces] and
    [newStacktraces]. *)
Record Dump := mkDump { du_str : list line; du_written : gset Z; du_new : gset Z }.

Definition dump_line (d : Dump) (e : entry) : Dump :=
  let '(traceId, summary) := e in
  mkDump (du_str d ++ [LTrace traceId summary]) ({[traceId]} ∪ du_written d)
    (if bool_decide (traceId ∈ du_written d) then du_new d else {[traceId]} ∪ du_new d).

Definition dump_write (d : Dump) (ls : list line) : Dump := mkDump (du_str d ++ ls) (du_written d) (du_new d).

(** The loop over the traces by size, which leaves out those without active blocks. *)
Definition dump_active (d : Dump) (e : entry) : Dump := if sum_active e.2 =? 0 then d else dump_line d e.

Definition DumpIndex (index : I) (cfg : IndexConfig) (d : Dump) : Dump :=
  if negb (ic_Enabled cfg) then d
  else
    let topElementsCount := Z.min (ic_BySizeCount cfg) (Z.of_nat (ix_size index)) in
    let bySizeRange := take (Z.to_nat topElementsCount) (ix_by_size index) in
    let topElementsCount := Z.min (ic_ByTotalCount cfg) (Z.of_nat (ix_size index)) in
    let byCountRange := take (Z.to_nat topElementsCount) (ix_by_count index) in
    let d := foldl dump_active (dump_write d [LByActiveSize]) bySizeRange in
    foldl dump_line (dump_write d [LEmpty; LByTotalCount]) byCountRange.

(** The loop over the new traces; missing ones are logged and skipped. *)
Fixpoint describe_traces (finder : Z → outcome (option Stacktrace)) (file : list (Z * Stacktrace)) (ids : list Z)
  : outcome (list (Z * Stacktrace)) :=
  match ids with
  | [] => Ret file
  | traceId :: ids =>
    trace ← finder traceId;
    match trace with
    | None => describe_traces finder file ids
    | Some trace => describe_traces finder (file ++ [(traceId, trace)]) ids
    end
  end.

Definition Text_FlushData (now : Z) (finder : Z → outcome (option Stacktrace)) (w : TextWriter) : outcome TextWriter :=
  let d := mkDump [LTime now; LApplicationHeap (tw_externalSummary w); LMemHawkHeap (tw_internalSummary w);
                   LTraces (u64 (Z.of_nat (ix_size (tw_externalIndex w)) + Z.of_nat (ix_size (tw_internalIndex w))))
                     (tw_updatedTraces w);
                   LExternalIndex] (tw_writtenStacktraces w) ∅ in
  let d := DumpIndex (tw_externalIndex w) (wc_ExternalTraces (tw_cfg w)) d in
  let d := dump_write d [LEmpty; LEmpty; LInternalIndex] in
  let d := DumpIndex (tw_internalIndex w) (wc_InternalTraces (tw_cfg w)) d in
  let d := dump_write d [LEmpty; LEmpty] in
  stacktraces ← describe_traces finder (tw_stacktracesFile w) (hash_order (du_new d));
  Ret (mkTextWriter (tw_cfg w) (tw_summaryFile w ++ du_str d) stacktraces (du_written d) 0 (tw_total w)
         (tw_externalIndex w) (tw_externalSummary w) (tw_internalIndex w) (tw_internalSummary w)).
End TextWriter.
Arguments TextWriter : clear implicits.

(** ** An index over finite maps *)

#[export] Instance by_key_dec key a b : Decision (by_key key a b).
Proof. unfold by_key. apply _. Defined.
#[export] Instance by_key_trans key : Transitive (by_key key).
Proof. unfold by_key. intros a b c. lia. Qed.
#[export] Instance by_key_total key : Total (by_key key).
Proof. unfold by_key. intros a b. lia. Qed.

Definition sorted_entries (key : AllocSummary → Z) (m : gmap Z AllocSummary) : list entry :=
  merge_sort (by_key key) (map_to_list m).

#[export] Instance gmap_index : SummaryIndex (gmap Z AllocSummary) := {
  ix_empty := ∅;
  ix_find m id := m !! id;
  ix_insert m id s := match m !! id with Some _ => m | None => <[id := s]> m end;
  ix_modify m id f := alter f id m;
  ix_size := size;
  ix_by_size := sorted_entries sum_size;
  ix_by_count := sorted_entries sum_totalCount;
}.

Lemma sorted_entries_ok key (m : gmap Z AllocSummary) : view_ok m key (sorted_entries key m).
Proof.
  unfold sorted_entries. pose proof (merge_sort_Permutation (by_key key) (map_to_list m)) as Hp. split.
  - rewrite Hp. apply NoDup_fst_map_to_list.
  - intros id s. rewrite Hp. apply elem_of_map_to_list.
  - apply StronglySorted_merge_sort; apply _.
Qed.

#[export] Instance gmap_index_laws : SummaryIndexLaws (gmap Z AllocSummary).
Proof.
  split.
  - intros id. apply lookup_empty.
  - intros m id s id'. cbn. destruct (decide (id' = id)) as [->|Hne].
    + destruct (m !! id) eqn:E; [done|]. apply lookup_insert_eq.
    + destruct (m !! id); [done|]. by apply lookup_insert_ne.
  - intros m id f id'. cbn. destruct (decide (id' = id)) as [->|Hne]; [apply lookup_alter_eq|by apply lookup_alter_ne].
  - intros m. cbn. unfold sorted_entries. rewrite (merge_sort_Permutation _ _). by rewrite length_map_to_list.
  - intros m. apply sorted_entries_ok.
  - intros m. apply sorted_entries_ok.
Qed.

(** ** Accounting *)

Section accounting.
Context {I : Type} `{!SummaryIndex I} `{!SummaryIndexLaws I}.
Implicit Types (w : TextWriter I) (b : bool) (cs : list (SummariesMap * AllocSummary)).

(** The index and the total of MemHawk's own traces ([true]) or of the application's. *)
Definition index_of w b : I := if b then tw_internalIndex w else tw_externalIndex w.
Definition total_of w b : AllocSummary := if b then tw_internalSummary w else tw_externalSummary w.

Lemma AccountSummary_find index total id s id' :
  ix_find (AccountSummary index total id s).1 id' =
  if decide (id' = id) then Some (summary_add (default AllocSummary_zero (ix_find index id)) s) else ix_find index id'.
Proof.
  unfold AccountSummary. cbn [fst]. rewrite ix_find_modify. destruct (ix_find index id) as [a|] eqn:E.
  - destruct (decide (id' = id)); [|done]. by rewrite E.
  - rewrite !ix_find_insert, E. destruct (decide (id' = id)) as [->|Hne]; [by rewrite decide_True|done].
Qed.

(** What accounting leaves alone. *)
Definition same_rest w w' : Prop :=
  tw_cfg w' = tw_cfg w ∧ tw_summaryFile w' = tw_summaryFile w ∧ tw_stacktracesFile w' = tw_stacktracesFile w
  ∧ tw_writtenStacktraces w' = tw_writtenStacktraces w ∧ tw_updatedTraces w' = tw_updatedTraces w.

Lemma text_account_one_spec w id s (w' := text_account_one w (id, s)) :
  same_rest w w' ∧
  (∀ b id', ix_find (index_of w' b) id' =
     if decide (id' = id ∧ IsFixedTrackerId id = b)
     then Some (summary_add (default AllocSummary_zero (ix_find (index_of w b) id)) s)
     else ix_find (index_of w b) id') ∧
  ∀ b, total_of w' b = if decide (IsFixedTrackerId id = b) then summary_add (total_of w b) s else total_of w b.
Proof.
  subst w'. unfold text_account_one.
  assert (Hsel : ∀ (index : I) total id', ix_find (AccountSummary index total id s).1 id' =
    if decide (id' = id ∧ true = true) then Some (summary_add (default AllocSummary_zero (ix_find index id)) s)
    else ix_find index id').
  { intros index total id'. rewrite AccountSummary_find. destruct (decide (id' = id)) as [->|Hne].
    - by rewrite decide_True.
    - by rewrite decide_False by (intros [? _]; done). }
  destruct (IsFixedTrackerId id); destruct (AccountSummary _ _ _ _) as [index total] eqn:E;
    (split; [done|]); split; intros b.
  - intros id'. destruct b; cbn [index_of tw_internalIndex tw_externalIndex].
    + by rewrite <- (Hsel (tw_internalIndex w) (tw_internalSummary w)), E.
    + by rewrite decide_False by (intros [_ ?]; done).
  - unfold AccountSummary in E. injection E as <- <-. by destruct b.
  - intros id'. destruct b; cbn [index_of tw_internalIndex tw_externalIndex].
    + by rewrite decide_False by (intros [_ ?]; done).
    + pose proof (Hsel (tw_externalIndex w) (tw_externalSummary w) id') as H. rewrite E in H. cbn [fst] in H. rewrite H.
      destruct (decide (id' = id)) as [->|Hne]; [by rewrite !decide_True|].
      by rewrite !decide_False by (intros [? _]; done).
  - unfold AccountSummary in E. injection E as <- <-. by destruct b.
Qed.

Definition of_class b (l : list entry) : list AllocSummary := (filter (fun e => IsFixedTrackerId e.1 = b) l).*2.

Lemma text_account_fold l : NoDup l.*1 → ∀ w, let w' := foldl text_account_one w l in
  same_rest w w' ∧
  (∀ b id, ix_find (index_of w' b) id =
     match (list_to_map l : gmap Z AllocSummary) !! id with
     | Some s => if decide (IsFixedTrackerId id = b)
                 then Some (summary_add (default AllocSummary_zero (ix_find (index_of w b) id)) s)
                 else ix_find (index_of w b) id
     | None => ix_find (index_of w b) id
     end) ∧
  ∀ b, total_of w' b = foldl summary_add (total_of w b) (of_class b l).
Proof.
  induction l as [|[i s] l IH]; intros Hnd w; [done|]. apply NoDup_cons in Hnd as [Hni Hnd]. cbn [foldl].
  destruct (text_account_one_spec w i s) as (R1 & F1 & T1). destruct (IH Hnd (text_account_one w (i, s))) as (R2 & F2 & T2).
  split; [unfold same_rest in *; intuition congruence|]. split.
  - intros b id. rewrite F2, F1. change (list_to_map ((i, s) :: l)) with (<[i := s]> (list_to_map l : gmap Z AllocSummary)).
    destruct (decide (id = i)) as [->|Hne].
    + rewrite lookup_insert_eq, (not_elem_of_list_to_map_1 _ _ Hni).
      destruct (decide (IsFixedTrackerId i = b)); [by rewrite decide_True|by rewrite decide_False by (intros [_ ?]; done)].
    + rewrite lookup_insert_ne by done. by rewrite decide_False by (intros [? _]; done).
  - intros b. rewrite T2, T1. unfold of_class. rewrite filter_cons. cbn [fst].
    by destruct (decide (IsFixedTrackerId i = b)).
Qed.

(** Exact totals of a class of traces. *)
Definition exact_total (l : list AllocSummary) : AllocSummary := foldr exact_add AllocSummary_zero l.
Definition class_total b cs : AllocSummary := exact_total (cs ≫= fun c => of_class b (map_to_list c.1)).

Lemma exact_total_app l1 l2 : exact_total (l1 ++ l2) = exact_add (exact_total l1) (exact_total l2).
Proof.
  unfold exact_total. induction l1 as [|x l1 IH]; cbn [app foldr]; [by rewrite (left_id _ exact_add)|].
  by rewrite IH, (assoc exact_add).
Qed.

Lemma foldl_summary l : Forall in_range l → ∀ a, foldl summary_add (wrap a) l = wrap (exact_add a (exact_total l)).
Proof.
  induction 1 as [|x l Hx _ IH]; intros a; cbn [foldl]; [by unfold exact_total; cbn; rewrite (right_id _ exact_add)|].
  rewrite <- (wrap_exact x Hx) at 1. rewrite wrap_add, IH. unfold exact_total. cbn [foldr]. by rewrite (assoc exact_add).
Qed.

(** The writer has accounted the snapshots [cs], [upd] entries of them since the last flush. *)
Record tw_ok w cs (upd : Z) : Prop := {
  tk_index b id s : ix_find (index_of w b) id = Some s ↔ mentioned cs id ∧ IsFixedTrackerId id = b ∧ s = consumed_of id cs;
  tk_total b : total_of w b = wrap (class_total b cs);
  tk_updated : tw_updatedTraces w = u64 upd;
}.

Lemma text_account_spec w cs upd c : tw_ok w cs upd → snapshot_ok c →
  let w' := Text_AccountSnapshot w c.1 c.2 in
  tw_ok w' (cs ++ [c]) (upd + Z.of_nat (size c.1)) ∧ tw_cfg w' = tw_cfg w ∧ tw_summaryFile w' = tw_summaryFile w
  ∧ tw_stacktracesFile w' = tw_stacktracesFile w ∧ tw_writtenStacktraces w' = tw_writtenStacktraces w.
Proof.
  intros [Hi Ht Hu] [_ Hok]. cbv zeta. unfold Text_AccountSnapshot. set (w1 := mkTextWriter _ _ _ _ _ _ _ _ _ _).
  destruct (text_account_fold (map_to_list c.1) (NoDup_fst_map_to_list _) w1) as ((R1 & R2 & R3 & R4 & R5) & F & T).
  split; [|done]. split.
  - intros b id s. rewrite F, list_to_map_to_list. change (index_of w1 b) with (index_of w b).
    rewrite mentioned_snoc, consumed_snoc. unfold summary_slot.
    destruct (c.1 !! id) as [s'|] eqn:Ec; [destruct (decide (IsFixedTrackerId id = b)) as [<-|Hb]|].
    + assert (default AllocSummary_zero (ix_find (index_of w (IsFixedTrackerId id)) id) = consumed_of id cs) as ->.
      { destruct (ix_find (index_of w (IsFixedTrackerId id)) id) as [a|] eqn:Ea; [by apply Hi in Ea as (_ & _ & ->)|].
        rewrite consumed_unmentioned; [done|]. intros Hm.
        assert (ix_find (index_of w (IsFixedTrackerId id)) id = Some (consumed_of id cs)) by by apply Hi. congruence. }
      split; [intros [= <-]|intros (_ & _ & ->)]; [|done]. split; [by right; eexists|done].
    + rewrite Hi. split; intros (? & ? & ?); done.
    + rewrite Hi. cbn. rewrite summary_add_0_r by apply consumed_range.
      split; intros (Hm & ? & ?); (split; [|done]); [by left|]. destruct Hm as [?|[? ?]]; done.
  - intros b. rewrite T. change (total_of w1 b) with (total_of w b). rewrite Ht, foldl_summary.
    + unfold class_total. rewrite bind_app, exact_total_app. cbn. by rewrite app_nil_r.
    + unfold of_class. apply Forall_fmap, Forall_forall. intros [id s] [_ Hin]%list_elem_of_filter.
      apply elem_of_map_to_list in Hin. by destruct (Hok id s Hin).
  - rewrite R5. cbn. rewrite Hu. by autorewrite with word.
Qed.
End accounting.

(** ** Reports *)

Section reports.
Context {I : Type} `{!SummaryIndex I} `{!SummaryIndexLaws I}.
Implicit Types (index : I) (d : Dump).

Definition trace_line (e : entry) : line := LTrace e.1 e.2.
Definition active (e : entry) : Prop := sum_active e.2 ≠ 0.

#[export] Instance active_dec e : Decision (active e).
Proof. unfold active. apply _. Defined.

Definition bySize index cfg : list entry := take (Z.to_nat (ic_BySizeCount cfg)) (ix_by_size index).
Definition byCount index cfg : list entry := take (Z.to_nat (ic_ByTotalCount cfg)) (ix_by_count index).

(** The traces a dump lists, and its lines. *)
Definition listed index cfg : list entry :=
  if ic_Enabled cfg then filter active (bySize index cfg) ++ byCount index cfg else [].
Definition index_lines index cfg : list line :=
  if ic_Enabled cfg then
    [LByActiveSize] ++ (trace_line <$> filter active (bySize index cfg)) ++ [LEmpty; LByTotalCount]
    ++ (trace_line <$> byCount index cfg)
  else [].

(** A dump that has written [ls] and listed [ids] since [d0]. *)
Definition dumped d0 d (ls : list line) (ids : list Z) : Prop :=
  du_str d = du_str d0 ++ ls ∧ du_written d = list_to_set ids ∪ du_written d0
  ∧ du_new d = du_new d0 ∪ (list_to_set ids ∖ du_written d0).

Lemma dumped_trans d0 d1 d2 ls1 ids1 ls2 ids2 : dumped d0 d1 ls1 ids1 → dumped d1 d2 ls2 ids2 →
  dumped d0 d2 (ls1 ++ ls2) (ids1 ++ ids2).
Proof.
  intros (A1 & B1 & C1) (A2 & B2 & C2). unfold dumped. rewrite A2, B2, C2, A1, B1, C1, list_to_set_app_L. split_and!.
  - by rewrite app_assoc.
  - by rewrite (assoc_L (∪)), (comm_L (∪) (list_to_set ids2)).
  - apply set_eq. intros x. rewrite !elem_of_union, !elem_of_difference, !elem_of_union.
    destruct (decide (x ∈ (list_to_set ids1 : gset Z))), (decide (x ∈ du_written d0)); tauto.
Qed.

Lemma dumped_write d ls : dumped d (dump_write d ls) ls [].
Proof.
  unfold dumped. cbn. split_and!; [done|by rewrite (left_id_L ∅ (∪))|].
  apply set_eq. intros x. rewrite elem_of_union, elem_of_difference.
  split; [by left|intros [?|[?%elem_of_empty _]]; done].
Qed.

Lemma dumped_line d e : dumped d (dump_line d e) [trace_line e] [e.1].
Proof.
  destruct e as [id s]. unfold dumped. cbn. split_and!; [done|by rewrite (right_id_L ∅ (∪))|].
  rewrite (right_id_L ∅ (∪)). case_bool_decide as Hw; apply set_eq; intros x;
    rewrite !elem_of_union, ?elem_of_difference, !elem_of_singleton; [|].
  - split; [by left|]. intros [?|[-> ?]]; done.
  - split; [intros [->|?]; [by right|by left]|]. intros [?|[-> ?]]; [by right|by left].
Qed.

Lemma dumped_lines l : ∀ d, dumped d (foldl dump_line d l) (trace_line <$> l) l.*1.
Proof.
  induction l as [|e l IH]; intros d.
  { pose proof (dumped_write d []) as H. unfold dumped in *. cbn in *. by rewrite app_nil_r in *. }
  cbn [foldl fmap list_fmap]. exact (dumped_trans _ _ _ _ _ _ _ (dumped_line d e) (IH _)).
Qed.

Lemma dumped_active l : ∀ d, foldl dump_active d l = foldl dump_line d (filter active l).
Proof.
  induction l as [|e l IH]; intros d; [done|]. cbn [foldl]. rewrite filter_cons. unfold dump_active at 2, active.
  destruct (Z.eqb_spec (sum_active e.2) 0) as [E|E].
  - rewrite decide_False by (intros H; done). apply IH.
  - rewrite decide_True by done. apply IH.
Qed.

Lemma view_length index key l : view_ok index key l → length l = ix_size index.
Proof.
  intros [Hn He _]. rewrite ix_size_view. destruct (ix_view_size index) as [Hn' He' _].
  apply Permutation_length, NoDup_Permutation; [by apply NoDup_fmap_1 in Hn|by apply NoDup_fmap_1 in Hn'|].
  intros [id s]. by rewrite He, He'.
Qed.

Lemma take_view index key l n : view_ok index key l → 0 ≤ n →
  take (Z.to_nat (Z.min n (Z.of_nat (ix_size index)))) l = take (Z.to_nat n) l.
Proof.
  intros Hl Hn. apply view_length in Hl. destruct (Z.le_ge_cases n (Z.of_nat (ix_size index))).
  - by rewrite Z.min_l by done.
  - rewrite Z.min_r, Nat2Z.id by done. rewrite !take_ge by lia. done.
Qed.

Lemma DumpIndex_spec index cfg d : 0 ≤ ic_BySizeCount cfg → 0 ≤ ic_ByTotalCount cfg →
  dumped d (DumpIndex index cfg d) (index_lines index cfg) (listed index cfg).*1.
Proof.
  intros H1 H2. unfold DumpIndex, index_lines, listed. destruct (ic_Enabled cfg); cbn [negb].
  - rewrite (take_view _ _ _ _ (ix_view_size index) H1), (take_view _ _ _ _ (ix_view_count index) H2).
    fold (bySize index cfg) (byCount index cfg). rewrite dumped_active, fmap_app.
    change ((filter active (bySize index cfg)).*1 ++ (byCount index cfg).*1)
      with ([] ++ (filter active (bySize index cfg)).*1 ++ [] ++ (byCount index cfg).*1).
    eapply dumped_trans; [apply dumped_write|]. eapply dumped_trans; [apply dumped_lines|].
    eapply dumped_trans; [apply dumped_write|]. apply dumped_lines.
  - pose proof (dumped_write d []) as H. unfold dumped in *. cbn in *. by rewrite app_nil_r in *.
Qed.

(** The ids a list of lines shows. *)
Definition line_ids (ls : list line) : list Z := omap (fun l => match l with LTrace id _ => Some id | _ => None end) ls.

Lemma line_ids_app a b : line_ids (a ++ b) = line_ids a ++ line_ids b.
Proof. apply omap_app. Qed.

Lemma line_ids_traces l : line_ids (trace_line <$> l) = l.*1.
Proof. induction l as [|e l IH]; [done|]. cbn. by f_equal. Qed.

Lemma line_ids_index index cfg : line_ids (index_lines index cfg) = (listed index cfg).*1.
Proof.
  unfold index_lines, listed. destruct (ic_Enabled cfg); [|done].
  by rewrite !line_ids_app, !line_ids_traces, fmap_app.
Qed.

(** The [n] greatest balances of a class of traces, in order. *)
Record is_top (b : bool) (cs : list (SummariesMap * AllocSummary)) (key : AllocSummary → Z) (n : Z) (l : list entry) : Prop := {
  it_nodup : NoDup l.*1;
  it_exact id s : (id, s) ∈ l → mentioned cs id ∧ IsFixedTrackerId id = b ∧ s = consumed_of id cs;
  it_sorted : StronglySorted (by_key key) l;
  it_length : zlen l ≤ n;
  it_full : zlen l = n ∨ ∀ id, mentioned cs id → IsFixedTrackerId id = b → id ∈ l.*1;
  it_greatest id e : mentioned cs id → IsFixedTrackerId id = b → id ∉ l.*1 → e ∈ l → key (consumed_of id cs) ≤ key e.2;
}.

Lemma top_view index b cs key l n : 0 ≤ n → view_ok index key l →
  (∀ id s, ix_find index id = Some s ↔ mentioned cs id ∧ IsFixedTrackerId id = b ∧ s = consumed_of id cs) →
  is_top b cs key n (take (Z.to_nat n) l).
Proof.
  intros Hn [Hnd Hel Hs] Hi. rewrite <- (take_drop (Z.to_nat n) l) in Hs.
  assert (Hin : ∀ id, mentioned cs id → IsFixedTrackerId id = b → (id, consumed_of id cs) ∈ l) by (intros id ? ?; by apply Hel, Hi).
  split.
  - rewrite <- (take_drop (Z.to_nat n) l), fmap_app in Hnd. by apply NoDup_app in Hnd as [? _].
  - intros id s Hx. apply Hi, Hel. apply elem_of_take in Hx as (j & Hj & _). by eapply list_elem_of_lookup_2.
  - by apply StronglySorted_app_1_l in Hs.
  - unfold zlen. rewrite length_take. lia.
  - destruct (Nat.le_gt_cases (Z.to_nat n) (length l)) as [Hle|Hgt].
    + left. unfold zlen. rewrite length_take. lia.
    + right. intros id Hm Hb. rewrite take_ge by lia. apply list_elem_of_fmap. exists (id, consumed_of id cs). auto.
  - intros id e Hm Hb Hni He. apply (StronglySorted_app_1_elem_of _ _ _ e (id, consumed_of id cs) Hs He).
    specialize (Hin id Hm Hb). rewrite <- (take_drop (Z.to_nat n) l), elem_of_app in Hin. destruct Hin as [Hin|?]; [|done].
    exfalso. apply Hni, list_elem_of_fmap. by exists (id, consumed_of id cs).
Qed.
End reports.

(** ** Runs *)

Section runs.
Context {I : Type} `{!SummaryIndex I} `{!SummaryIndexLaws I} (hash_order : gset Z → list Z).
Context (hash_order_perm : ∀ X, hash_order X ≡ₚ elements X).
Context (traces : Z → option Stacktrace) (finder : Z → outcome (option Stacktrace)).
Context (finder_spec : ∀ id, finder id = Ret (traces id)).
Implicit Types (w : TextWriter I) (cs : list (SummariesMap * AllocSummary)).

Inductive top := TAccount (m : SummariesMap) (total : AllocSummary) | TFlush (now : Z) | TModules.

Definition texec w (op : top) : outcome (TextWriter I) :=
  match op with
  | TAccount m total => Ret (Text_AccountSnapshot w m total)
  | TFlush now => Text_FlushData hash_order now finder w
  | TModules => Ret (Text_UpdateModules w)
  end.

Fixpoint trun w (ops : list top) : outcome (TextWriter I) :=
  match ops with [] => Ret w | op :: ops => w ← texec w op; trun w ops end.

Definition top_snapshots (op : top) : list (SummariesMap * AllocSummary) :=
  match op with TAccount m total => [(m, total)] | _ => [] end.
Definition top_ok (op : top) : Prop := match op with TAccount m total => snapshot_ok (m, total) | _ => True end.

(** Entries accounted since the last flush. *)
Definition count_updates (n : Z) (op : top) : Z :=
  match op with TAccount m _ => n + Z.of_nat (size m) | TFlush _ => 0 | TModules => n end.

Lemma describe_traces_spec ids : (∀ id, id ∈ ids → finder id = Ret (traces id)) → ∀ file,
  describe_traces finder file ids = Ret (file ++ omap (fun id => (fun st => (id, st)) <$> traces id) ids).
Proof.
  clear finder_spec. induction ids as [|id ids IH]; intros Hfi file; cbn [describe_traces omap list_omap]; [by rewrite app_nil_r|].
  assert (Hids : ∀ i, i ∈ ids → finder i = Ret (traces i)) by (intros i Hi; apply Hfi; by right).
  rewrite Hfi by by left. step_ret. destruct (traces id) as [st|]; rewrite IH by done; [|done]. by rewrite <- app_assoc.
Qed.

(** What one flush writes. *)
Definition report w (now : Z) : list line :=
  [LTime now; LApplicationHeap (tw_externalSummary w); LMemHawkHeap (tw_internalSummary w);
   LTraces (u64 (Z.of_nat (ix_size (tw_externalIndex w)) + Z.of_nat (ix_size (tw_internalIndex w)))) (tw_updatedTraces w);
   LExternalIndex]
  ++ index_lines (tw_externalIndex w) (wc_ExternalTraces (tw_cfg w)) ++ [LEmpty; LEmpty; LInternalIndex]
  ++ index_lines (tw_internalIndex w) (wc_InternalTraces (tw_cfg w)) ++ [LEmpty; LEmpty].

Definition counts_ok (cfg : WriterConfig) : Prop :=
  0 ≤ ic_BySizeCount (wc_ExternalTraces cfg) ∧ 0 ≤ ic_ByTotalCount (wc_ExternalTraces cfg)
  ∧ 0 ≤ ic_BySizeCount (wc_InternalTraces cfg) ∧ 0 ≤ ic_ByTotalCount (wc_InternalTraces cfg).

(** A flush asks the finder for traces of its report. *)
Lemma Text_FlushData_on now w : counts_ok (tw_cfg w) →
  (∀ id, id ∈ line_ids (report w now) → finder id = Ret (traces id)) →
  let shown := line_ids (report w now) in
  let fresh := hash_order (list_to_set shown ∖ tw_writtenStacktraces w) in
  Text_FlushData hash_order now finder w =
  Ret (mkTextWriter (tw_cfg w) (tw_summaryFile w ++ report w now)
         (tw_stacktracesFile w ++ omap (fun id => (fun st => (id, st)) <$> traces id) fresh)
         (list_to_set shown ∪ tw_writtenStacktraces w) 0 (tw_total w)
         (tw_externalIndex w) (tw_externalSummary w) (tw_internalIndex w) (tw_internalSummary w)).
Proof.
  clear finder_spec. intros (C1 & C2 & C3 & C4) Hfi. cbv zeta. unfold Text_FlushData. set (d0 := mkDump _ _ _).
  set (d3 := dump_write (DumpIndex (tw_internalIndex w) _ _) _).
  set (L := index_lines (tw_externalIndex w) (wc_ExternalTraces (tw_cfg w)) ++ [LEmpty; LEmpty; LInternalIndex]
    ++ index_lines (tw_internalIndex w) (wc_InternalTraces (tw_cfg w)) ++ [LEmpty; LEmpty]).
  assert (Hd : dumped d0 d3 L ((listed (tw_externalIndex w) (wc_ExternalTraces (tw_cfg w))).*1 ++ [] ++
    (listed (tw_internalIndex w) (wc_InternalTraces (tw_cfg w))).*1 ++ [])).
  { unfold L, d3. eapply dumped_trans; [by apply DumpIndex_spec|]. eapply dumped_trans; [apply dumped_write|].
    eapply dumped_trans; [by apply DumpIndex_spec|apply dumped_write]. }
  assert (Hids : line_ids (report w now) = (listed (tw_externalIndex w) (wc_ExternalTraces (tw_cfg w))).*1 ++ [] ++
    (listed (tw_internalIndex w) (wc_InternalTraces (tw_cfg w))).*1 ++ []).
  { unfold report. by rewrite !line_ids_app, !line_ids_index. }
  rewrite <- Hids in Hd. destruct Hd as (A & B & C). rewrite describe_traces_spec.
  - step_ret. rewrite A, B, C. cbn [du_str du_written du_new d0]. by rewrite (left_id_L ∅ (∪)).
  - intros id. rewrite hash_order_perm, elem_of_elements, C. cbn [du_new d0].
    intros [?%elem_of_empty|[Hin _]%elem_of_difference]%elem_of_union; [done|].
    apply elem_of_list_to_set in Hin. by apply Hfi.
Qed.

Lemma Text_FlushData_spec now w : counts_ok (tw_cfg w) →
  let shown := line_ids (report w now) in
  let fresh := hash_order (list_to_set shown ∖ tw_writtenStacktraces w) in
  Text_FlushData hash_order now finder w =
  Ret (mkTextWriter (tw_cfg w) (tw_summaryFile w ++ report w now)
         (tw_stacktracesFile w ++ omap (fun id => (fun st => (id, st)) <$> traces id) fresh)
         (list_to_set shown ∪ tw_writtenStacktraces w) 0 (tw_total w)
         (tw_externalIndex w) (tw_externalSummary w) (tw_internalIndex w) (tw_internalSummary w)).
Proof. intros Hc. by apply Text_FlushData_on. Qed.

(** *** The described traces *)

Record files_ok w : Prop := {
  fo_shown id : id ∈ tw_writtenStacktraces w ↔ id ∈ line_ids (tw_summaryFile w);
  fo_nodup : NoDup (tw_stacktracesFile w).*1;
  fo_elem id st : (id, st) ∈ tw_stacktracesFile w ↔ id ∈ tw_writtenStacktraces w ∧ traces id = Some st;
}.

Lemma described_elem (ids : list Z) id st : (id, st) ∈ omap (fun id => (fun st => (id, st)) <$> traces id) ids ↔ id ∈ ids ∧ traces id = Some st.
Proof.
  rewrite list_elem_of_omap. split.
  - intros (i & Hi & E). apply fmap_Some in E as (st' & E & [= -> ->]). done.
  - intros [Hi E]. exists id. by rewrite E.
Qed.

Lemma described_fst (ids : list Z) : (omap (fun id => (fun st => (id, st)) <$> traces id) ids).*1 = filter (fun id => is_Some (traces id)) ids.
Proof.
  induction ids as [|id ids IH]; [done|]. rewrite filter_cons. cbn [omap list_omap].
  destruct (traces id) as [st|]; cbn [fmap option_fmap option_map].
  - rewrite decide_True by by eexists. rewrite fmap_cons. f_equal. exact IH.
  - rewrite decide_False by by intros [? ?]. exact IH.
Qed.

Lemma flush_files w w' now : counts_ok (tw_cfg w) → files_ok w → Text_FlushData hash_order now finder w = Ret w' → files_ok w'.
Proof.
  intros Hc [Hs Hn He]. rewrite Text_FlushData_spec by done. cbv zeta. generalize (report w now). intros R [= <-].
  set (shown := line_ids R). set (fresh := list_to_set shown ∖ tw_writtenStacktraces w).
  assert (Hfresh : ∀ id, id ∈ hash_order fresh ↔ id ∈ shown ∧ id ∉ tw_writtenStacktraces w).
  { intros id. rewrite hash_order_perm, elem_of_elements. unfold fresh. by rewrite elem_of_difference, elem_of_list_to_set. }
  split; cbn [tw_writtenStacktraces tw_summaryFile tw_stacktracesFile].
  - intros id. rewrite line_ids_app, elem_of_app, elem_of_union, elem_of_list_to_set, Hs. fold shown. tauto.
  - rewrite fmap_app. apply NoDup_app. split; [done|]. split.
    + intros id ([i st] & -> & [Hw _]%He)%list_elem_of_fmap ([j st'] & E & Hin)%list_elem_of_fmap.
      cbn in E. subst j. apply described_elem in Hin as [[_ Hnw]%Hfresh _]. done.
    + rewrite described_fst. apply NoDup_filter. rewrite hash_order_perm. apply NoDup_elements.
  - intros id st. rewrite elem_of_app, He, described_elem, Hfresh, elem_of_union, elem_of_list_to_set.
    destruct (decide (id ∈ tw_writtenStacktraces w)); tauto.
Qed.

Lemma trun_spec cfg ops : counts_ok cfg → Forall top_ok ops → ∀ w cs upd,
  tw_cfg w = cfg → tw_ok w cs upd → files_ok w →
  ∃ w', trun w ops = Ret w' ∧ tw_cfg w' = cfg ∧ tw_ok w' (cs ++ (ops ≫= top_snapshots)) (foldl count_updates upd ops)
    ∧ files_ok w'.
Proof.
  intros Hc. induction 1 as [|op ops Hop _ IH]; intros w cs upd Hcfg Hok Hf; cbn [trun].
  { exists w. cbn. by rewrite app_nil_r. }
  change ((op :: ops) ≫= top_snapshots) with (top_snapshots op ++ (ops ≫= top_snapshots)). rewrite app_assoc.
  assert (∃ w1, texec w op = Ret w1 ∧ tw_cfg w1 = cfg ∧ tw_ok w1 (cs ++ top_snapshots op) (count_updates upd op) ∧ files_ok w1)
    as (w1 & -> & Hcfg1 & Hok1 & Hf1).
  { destruct op as [m total|now|]; cbn [texec top_snapshots count_updates] in *.
    - destruct (text_account_spec w cs upd (m, total) Hok Hop) as (Hok1 & E1 & E2 & E3 & E4). cbn [fst snd] in *.
      eexists. split; [done|]. split; [congruence|]. split; [done|]. destruct Hf as [F1 F2 F3].
      split; rewrite ?E2, ?E3, ?E4; done.
    - rewrite app_nil_r. rewrite <- Hcfg in Hc. destruct (Text_FlushData hash_order now finder w) as [w1| |] eqn:E;
        [|by rewrite Text_FlushData_spec in E..]. exists w1. split; [done|].
      pose proof (flush_files w w1 now Hc Hf E) as Hf1. rewrite Text_FlushData_spec in E by done. injection E as <-.
      split; [done|]. split; [|done]. by destruct Hok as [? ? _].
    - exists w. by rewrite app_nil_r. }
  step_ret. by apply IH.
Qed.

Lemma ctor_ok cfg : tw_ok (TextWriter_ctor cfg) [] 0 ∧ files_ok (TextWriter_ctor cfg).
Proof.
  split; split.
  - intros b id s. assert (index_of (TextWriter_ctor cfg) b = ix_empty) as -> by by destruct b.
    rewrite ix_find_empty. split; [done|]. by intros [?%Exists_nil _].
  - by intros [].
  - done.
  - intros id. cbn. split; [by intros ?%elem_of_empty|by intros ?%elem_of_nil].
  - constructor.
  - intros id st. cbn. split; [by intros ?%elem_of_nil|by intros [?%elem_of_empty _]].
Qed.
End runs.

(** ** Properties *)

(** What a report has to show of one class of traces. *)
Definition shows (b : bool) (cs : list (SummariesMap * AllocSummary)) (cfg : IndexConfig) (ls : list line) : Prop :=
  if ic_Enabled cfg then
    ∃ bySize byCount, is_top b cs sum_size (ic_BySizeCount cfg) bySize
      ∧ is_top b cs sum_totalCount (ic_ByTotalCount cfg) byCount
      ∧ ls = [LByActiveSize] ++ (trace_line <$> filter active bySize) ++ [LEmpty; LByTotalCount] ++ (trace_line <$> byCount)
  else ls = [].

Section properties.
Context {I : Type} `{!SummaryIndex I} `{!SummaryIndexLaws I} (hash_order : gset Z → list Z).
Context (hash_order_perm : ∀ X, hash_order X ≡ₚ elements X).
Context (traces : Z → option Stacktrace) (finder : Z → outcome (option Stacktrace)).
Context (finder_spec : ∀ id, finder id = Ret (traces id)).
Context (cfg : WriterConfig) (counts : counts_ok cfg) (ops : list top) (ops_ok : Forall top_ok ops).

Lemma index_shows (w : TextWriter I) cs upd b ic : tw_ok w cs upd → 0 ≤ ic_BySizeCount ic → 0 ≤ ic_ByTotalCount ic →
  shows b cs ic (index_lines (index_of w b) ic).
Proof.
  intros Hok H1 H2. unfold shows, index_lines. destruct (ic_Enabled ic); [|done].
  exists (bySize (index_of w b) ic), (byCount (index_of w b) ic). split_and!; [| |done].
  - apply (top_view _ _ _ _ _ _ H1 (ix_view_size _)). apply Hok.
  - apply (top_view _ _ _ _ _ _ H2 (ix_view_count _)). apply Hok.
Qed.

Lemma index_ids (w : TextWriter I) cs upd : tw_ok w cs upd → ∃ ids, NoDup ids ∧ (∀ id, id ∈ ids ↔ mentioned cs id)
  ∧ zlen ids = Z.of_nat (ix_size (tw_externalIndex w)) + Z.of_nat (ix_size (tw_internalIndex w)).
Proof.
  intros Hok. destruct (ix_view_size (index_of w false)) as [N1 E1 _], (ix_view_size (index_of w true)) as [N2 E2 _].
  assert (Hel : ∀ b id, id ∈ (ix_by_size (index_of w b)).*1 ↔ mentioned cs id ∧ IsFixedTrackerId id = b).
  { intros b id. rewrite list_elem_of_fmap. split.
    - intros ([i s] & -> & Hin). assert (Hf : ix_find (index_of w b) i = Some s) by (destruct b; [by apply E2|by apply E1]).
      by apply (tk_index _ _ _ Hok) in Hf as (? & ? & _).
    - intros [Hm Hb]. exists (id, consumed_of id cs). split; [done|].
      assert (Hf : ix_find (index_of w b) id = Some (consumed_of id cs)) by by apply (tk_index _ _ _ Hok).
      destruct b; [by apply E2|by apply E1]. }
  exists ((ix_by_size (index_of w false)).*1 ++ (ix_by_size (index_of w true)).*1). split_and!.
  - apply NoDup_app. split_and!; [done| |done]. intros id [_ H1]%Hel [_ H2]%Hel. congruence.
  - intros id. rewrite elem_of_app, !Hel. destruct (IsFixedTrackerId id); tauto.
  - unfold zlen. rewrite length_app, !length_fmap, <- !ix_size_view. cbn [index_of]. lia.
Qed.

(** After any history of snapshots and flushes, a flush appends a report with the exact
    totals of the application and of MemHawk, the number of traces seen and of entries
    since the last report, and for either class, when enabled, its heaviest traces: the
    asked number of greatest sizes (or all) in descending order without those that have no
    active block, then of greatest counts; every line has the exact balance of its trace and
    no trace left out is heavier than one listed. *)
Lemma text_report now : ∃ w w' ext int ids,
  let cs := ops ≫= top_snapshots in
  trun hash_order finder (TextWriter_ctor cfg) ops = Ret w ∧ Text_FlushData hash_order now finder w = Ret w'
  ∧ tw_summaryFile w' = tw_summaryFile w
      ++ [LTime now; LApplicationHeap (wrap (class_total false cs)); LMemHawkHeap (wrap (class_total true cs));
          LTraces (u64 (zlen ids)) (u64 (foldl count_updates 0 ops)); LExternalIndex]
      ++ ext ++ [LEmpty; LEmpty; LInternalIndex] ++ int ++ [LEmpty; LEmpty]
  ∧ NoDup ids ∧ (∀ id, id ∈ ids ↔ mentioned cs id)
  ∧ shows false cs (wc_ExternalTraces cfg) ext ∧ shows true cs (wc_InternalTraces cfg) int.
Proof.
  destruct (ctor_ok traces cfg) as [Hok Hf].
  destruct (trun_spec hash_order hash_order_perm traces finder finder_spec cfg ops counts ops_ok (TextWriter_ctor cfg) [] 0)
    as (w & Hw & Hcfg & Hok' & _); [done..|]. cbn [app] in Hok'.
  destruct (index_ids w _ _ Hok') as (ids & Hn & Hids & Hlen).
  eexists w, _, _, _, ids. cbv zeta. rewrite (Text_FlushData_spec hash_order hash_order_perm traces finder finder_spec now w) by by rewrite Hcfg.
  split; [done|]. split; [done|]. cbn [tw_summaryFile]. unfold report.
  pose proof (tk_total _ _ _ Hok' false) as T1. pose proof (tk_total _ _ _ Hok' true) as T2. cbn [total_of] in T1, T2.
  rewrite T1, T2, (tk_updated _ _ _ Hok'), <- Hlen, Hcfg. split; [done|]. split; [done|]. split; [done|].
  destruct counts as (C1 & C2 & C3 & C4).
  split; [by apply (index_shows w _ _ false _ Hok')|by apply (index_shows w _ _ true _ Hok')].
Qed.

(** At any time every trace that some report lists and the finder knows is described in
    the second file exactly once, with its frames, and no other trace is. *)
Lemma text_described : ∃ w, trun hash_order finder (TextWriter_ctor (I := I) cfg) ops = Ret w
  ∧ NoDup (tw_stacktracesFile w).*1
  ∧ ∀ id st, (id, st) ∈ tw_stacktracesFile w ↔ id ∈ line_ids (tw_summaryFile w) ∧ traces id = Some st.
Proof.
  destruct (ctor_ok traces cfg) as [Hok Hf].
  destruct (trun_spec hash_order hash_order_perm traces finder finder_spec cfg ops counts ops_ok (TextWriter_ctor cfg) [] 0)
    as (w & Hw & _ & _ & [F1 F2 F3]); [done..|].
  exists w. split; [done|]. split; [done|]. intros id st. by rewrite F3, F1.
Qed.
End properties.

(** A history with three traces of the application. *)
Definition example_cfg : WriterConfig := mkWriterConfig (mkIndexConfig true 2 1) (mkIndexConfig false 10 10).
Definition example_delta (size active count : Z) : AllocSummary := mkAllocSummary size 0 active count 0.
Definition example_ops : list top :=
  [TAccount {[5 := example_delta 100 1 2; 6 := example_delta 30 1 1]} (example_delta 130 2 3); TFlush 1;
   TAccount {[7 := example_delta 60 0 1]} (example_delta 60 0 1)].
Definition example_finder (id : Z) : option Stacktrace :=
  if id =? 6 then None else Some (mkStacktrace 1 0 ([id] ++ replicate 63 0)).

Lemma example_ops_ok : Forall top_ok example_ops.
Proof.
  assert (Hr : ∀ n a c, - 2 ^ 62 ≤ n ≤ 2 ^ 62 → - 2 ^ 62 ≤ a ≤ 2 ^ 62 → 0 ≤ c ≤ 2 ^ 62 → in_range (example_delta n a c)).
  { intros n a c Hn Ha Hc. unfold in_range, is_i64, is_u64. cbn. lia. }
  apply List.Forall_cons; [|apply List.Forall_cons; [done|apply List.Forall_cons; [|apply List.Forall_nil]]]; split;
    [apply Hr; lia| |apply Hr; lia|].
  - intros id s Hs. cbn [fst] in Hs.
    apply lookup_insert_Some in Hs as [[<- <-]|[_ [<- <-]%lookup_singleton_Some]]; (split; [apply Hr; lia|unfold is_u32; lia]).
  - intros id s Hs. cbn [fst] in Hs. apply lookup_singleton_Some in Hs as [<- <-].
    split; [apply Hr; lia|unfold is_u32; lia].
Qed.
