(* ===== verification/ReportText.v ===== *)
(** * The text of a report ([writers/text_writer.cpp])

    [TextWriter] keeps the lines of its files as data; here they become text: [ToString] with
    its quotients of floating point numbers, and the formats of [DumpIndex] and [FlushData].  How
    fmt pads and prints one argument, and how [absl::FormatTime] prints the time, are
    parameters with their documented behaviour as laws.  A reader of the text is the
    specification: it finds the ids and the counts as they are, and the megabytes and the
    averages to the half of a thousandth. *)

From Stdlib Require Import ZArith Lia.
From stdpp Require Import base numbers list gmap strings.
From S2P Require Import Prelude FromChars Doubles Algo AllocInfo Stacktrace StaticTracker ThreadTracker Config Snapshots TextWriter.

(** Alignment to the right. *)
Definition pad (width : Z) (t : text) : text := replicate (Z.to_nat (width - zlen t)) 32 ++ t.

(** What [fmt::format] puts for [{:>w}] and an integer and for [{:>w.3f}] and a number. *)
Class ReportFmt := {
  fmt_padded : Z → Z → text;
  fmt_fixed : Z → real → text;
  fmt_padded_spec width z : fmt_padded width z = pad width (print_int z);
  fmt_fixed_spec width x : 0 ≤ fl_num x → 0 < fl_den x →
    ∃ k, 0 ≤ k ∧ nearest3 x k ∧ fmt_fixed width x = pad width (fixed3 (fl_neg x) k);
}.

(** [absl::FormatTime]: one word. *)
Class TimeFmt := {
  FormatTime : Z → text;
  FormatTime_word t : Forall (fun c => c ≠ 10 ∧ c ≠ 32) (FormatTime t);
}.

(** ** Writing *)

(** [static_cast<double>(bytes) / 1024 / 1024]. *)
Definition double : Z := 53.
Definition megabytes (bytes : Z) : real := fl_div double (fl_div double (of_int double bytes) (of_int double 1024)) (of_int double 1024).

Section text.
Context {fmt : Fmt} {report_fmt : ReportFmt} {time_fmt : TimeFmt}.

Definition ToString (summary : AllocSummary) : text :=
  let totalMb := megabytes (sum_size summary) in
  let overheadMb := megabytes (sum_overhead summary) in
  let averageBytes := if sum_active summary =? 0 then of_int double 0
                      else fl_div double (of_int double (sum_size summary)) (of_int double (sum_active summary)) in
  str "size: " ++ fmt_fixed 9 totalMb ++ str " mb, active: " ++ fmt_padded 12 (sum_active summary)
  ++ str ", total: " ++ fmt_padded 12 (sum_totalCount summary) ++ str ", average: " ++ fmt_fixed 12 averageBytes
  ++ str " bytes, overhead: " ++ fmt_fixed 9 overheadMb ++ str " mb".

(** A line as [FlushData] and [DumpIndex] format it. *)
Definition format_line (l : line) : text :=
  match l with
  | LTime now => FormatTime now
  | LApplicationHeap s => str "Application heap: " ++ ToString s
  | LMemHawkHeap s => str "MemHawk heap:     " ++ ToString s
  | LTraces total updated => str "Total traces: " ++ fmt_int total ++ str ", updated since last time: " ++ fmt_int updated
  | LExternalIndex => str "External index:"
  | LInternalIndex => str "Internal index:"
  | LByActiveSize => str "ByActiveSize"
  | LByTotalCount => str "ByTotalCount"
  | LTrace traceId s => str "TraceId: " ++ fmt_padded 9 traceId ++ str ", " ++ ToString s
  | LEmpty => []
  end.

Definition file_text (ls : list line) : text := concat ((fun l => format_line l ++ [10]) <$> ls).
End text.

(** ** Reading *)

Fixpoint lines_of (t : text) : list text :=
  match t with
  | [] => []
  | c :: t => if c =? 10 then [] :: lines_of t
              else match lines_of t with [] => [[c]] | l :: ls => (c :: l) :: ls end
  end.

(** A format: literal text and numbers. *)
Inductive piece := Lit (t : text) | Num.

Fixpoint strip (l t : text) : option text :=
  match l, t with
  | [], _ => Some t
  | c :: l, c' :: t => if c =? c' then strip l t else None
  | _ :: _, [] => None
  end.

Fixpoint skip_spaces (t : text) : text := match t with 32 :: t' => skip_spaces t' | _ => t end.

Definition is_number_char (c : Z) : bool := (c =? 45) || (c =? 46) || is_digit c.

Fixpoint span_number (t : text) : text * text :=
  match t with
  | c :: t' => if is_number_char c then let '(n, rest) := span_number t' in (c :: n, rest) else ([], t)
  | [] => ([], [])
  end.

(** The numbers of a whole text in this format. *)
Fixpoint scan (format : list piece) (t : text) : option (list text) :=
  match format with
  | [] => match t with [] => Some [] | _ => None end
  | Lit l :: format => t ← strip l t; scan format t
  | Num :: format => let '(n, rest) := span_number (skip_spaces t) in ns ← scan format rest; Some (n :: ns)
  end.

Definition summary_format : list piece :=
  [Lit (str "size: "); Num; Lit (str " mb, active: "); Num; Lit (str ", total: "); Num; Lit (str ", average: "); Num;
   Lit (str " bytes, overhead: "); Num; Lit (str " mb")].

(** What a reader knows of a summary: signs and thousandths, and counts. *)
Record reading := mkReading { re_size : bool * Z; re_active : Z; re_total : Z; re_average : bool * Z; re_overhead : bool * Z }.

Definition read_int (ty : int_type) (t : text) : option Z :=
  match from_chars ty t with ([], EcOk, v) => Some v | _ => None end.

Definition read_summary (ns : list text) : option reading :=
  match ns with
  | [size; active; total; average; overhead] =>
    size ← read_fixed3 size; active ← read_int T_int64 active; total ← read_int T_uint64 total;
    average ← read_fixed3 average; overhead ← read_fixed3 overhead; Some (mkReading size active total average overhead)
  | _ => None
  end.

Inductive shown :=
| ShHeap (internal : bool) (r : reading)
| ShTraces (total updated : Z)
| ShTrace (traceId : Z) (r : reading)
| ShOther (t : text).

Definition read_report_line (t : text) : option shown :=
  match scan (Lit (str "TraceId: ") :: Num :: Lit (str ", ") :: summary_format) t with
  | Some (id :: ns) => id ← read_int T_uint32 id; r ← read_summary ns; Some (ShTrace id r)
  | _ =>
    match scan (Lit (str "Application heap: ") :: summary_format) t with
    | Some ns => r ← read_summary ns; Some (ShHeap false r)
    | None =>
      match scan (Lit (str "MemHawk heap:     ") :: summary_format) t with
      | Some ns => r ← read_summary ns; Some (ShHeap true r)
      | None =>
        match scan [Lit (str "Total traces: "); Num; Lit (str ", updated since last time: "); Num] t with
        | Some [total; updated] => total ← read_int T_uint64 total; updated ← read_int T_uint64 updated; Some (ShTraces total updated)
        | _ => Some (ShOther t)
        end
      end
    end
  end.

Definition read_report (t : text) : option (list shown) := mapM read_report_line (lines_of t).

(** ** What has to be read *)

(** [k] thousandths with this sign are shown for a number of bytes in megabytes: off by half a
    thousandth, and by the precision of a [double] beyond 2^53 bytes. *)
Definition mb_shown (bytes : Z) (v : bool * Z) : Prop :=
  v.1 = (bytes <? 0) ∧ 0 ≤ v.2 ∧ 2 ^ 53 * Z.abs (v.2 * 2 ^ 20 - 1000 * Z.abs bytes) ≤ 2 ^ 72 + 1000 * Z.abs bytes.

Definition average_shown (size active : Z) (v : bool * Z) : Prop :=
  if active =? 0 then v = (false, 0)
  else v.1 = xorb (size <? 0) (active <? 0) ∧ 0 ≤ v.2
    ∧ (Z.abs size < 2 ^ 53 → Z.abs active < 2 ^ 53 →
       2 ^ 53 * Z.abs (v.2 * Z.abs active - 1000 * Z.abs size) ≤ 2 ^ 52 * Z.abs active + 1000 * Z.abs size).

Definition summary_shown (s : AllocSummary) (r : reading) : Prop :=
  mb_shown (sum_size s) (re_size r) ∧ re_active r = sum_active s ∧ re_total r = sum_totalCount s
  ∧ average_shown (sum_size s) (sum_active s) (re_average r) ∧ mb_shown (sum_overhead s) (re_overhead r).

Definition line_shown (l : line) (sh : shown) : Prop :=
  match l with
  | LApplicationHeap s => ∃ r, sh = ShHeap false r ∧ summary_shown s r
  | LMemHawkHeap s => ∃ r, sh = ShHeap true r ∧ summary_shown s r
  | LTrace traceId s => ∃ r, sh = ShTrace traceId r ∧ summary_shown s r
  | LTraces total updated => sh = ShTraces total updated
  | LExternalIndex => sh = ShOther (str "External index:")
  | LInternalIndex => sh = ShOther (str "Internal index:")
  | LByActiveSize => sh = ShOther (str "ByActiveSize")
  | LByTotalCount => sh = ShOther (str "ByTotalCount")
  | LEmpty => sh = ShOther []
  | LTime _ => ∃ t, sh = ShOther t
  end.

(** ** Numbers *)

Section numbers.
(** Division by 1024 loses nothing. *)
Lemma div_1024 x : short double x → 0 ≤ fl_num x →
  let y := fl_div double x (of_int double 1024) in
  short double y ∧ 0 ≤ fl_num y ∧ fl_neg y = fl_neg x ∧ fl_num y * (fl_den x * 1024) = fl_num x * fl_den y.
Proof.
  intros (m & a & b & Hm & Ha & Hb & En & Ed) Hx y. unfold y, fl_div.
  assert (E : of_int double 1024 = mkReal false (2 ^ 64) (2 ^ 54)) by (vm_compute; reflexivity).
  rewrite E. cbn [fl_neg fl_num fl_den]. rewrite xorb_false_r, En, Ed, <- Z.mul_assoc, <- !Z.pow_add_r by lia.
  assert (0 < 2 ^ (b + 64)) by (apply Z.pow_pos_nonneg; lia).
  assert (0 ≤ m * 2 ^ (a + 54)) by (apply Z.mul_nonneg_nonneg; [lia|apply Z.pow_nonneg; lia]).
  split; [by apply round_to_short|]. split; [by apply round_to_near|]. split; [apply round_to_neg|].
  pose proof (round_to_exact double ltac:(done) (fl_neg x) m (a + 54) (b + 64) Hm ltac:(lia) ltac:(lia)) as H1.
  set (r := round_to _ _ _ _) in *. rewrite !Z.pow_add_r in H1 by lia. change (2 ^ 64) with (1024 * 2 ^ 54) in H1.
  assert (0 < 2 ^ 54) by done. nia.
Qed.

(** [k] thousandths are nearest to [n / d] when they are nearest to an equal fraction. *)
Lemma nearest3_eq x k n d : 0 < fl_den x → 0 < d → fl_num x * d = n * fl_den x → nearest3 x k → 2 * Z.abs (k * d - 1000 * n) ≤ d.
Proof.
  unfold nearest3. intros Hx Hd E H. apply (Z.mul_le_mono_pos_l _ _ (fl_den x)); [done|].
  replace (fl_den x * (2 * Z.abs (k * d - 1000 * n))) with (d * (2 * Z.abs (k * fl_den x - 1000 * fl_num x))); [nia|].
  rewrite (Z.mul_comm (fl_den x)), (Z.mul_comm d), <- !Z.mul_assoc. f_equal.
  rewrite <- (Z.abs_eq d) at 1 by lia. rewrite <- (Z.abs_eq (fl_den x)) at 2 by lia. rewrite <- !Z.abs_mul. f_equal. lia.
Qed.

Lemma megabytes_spec z (x := megabytes z) : 0 ≤ fl_num x ∧ 0 < fl_den x ∧ fl_neg x = (z <? 0)
  ∧ ∀ k, 0 ≤ k → nearest3 x k → mb_shown z (fl_neg x, k).
Proof.
  set (y := of_int double z). destruct (of_int_near double ltac:(done) z) as (Hd & Hn & Hneg & He). fold y in Hd, Hn, Hneg, He.
  destruct (div_1024 y) as (S1 & N1 & G1 & E1); [apply round_to_short; [done|lia|lia]|done|]. set (y1 := fl_div _ _ _) in *.
  destruct (div_1024 y1 S1 N1) as (S2 & N2 & G2 & E2). change (fl_div double y1 (of_int double 1024)) with x in S2, N2, G2, E2.
  assert (Hx : 0 < fl_den x) by by apply round_to_den. assert (Hy1 : 0 < fl_den y1) by by apply round_to_den.
  assert (Eneg : fl_neg x = (z <? 0)) by congruence. split; [done|]. split; [done|]. split; [done|].
  intros k Hk Hnear. split; [done|]. split; [done|]. cbn [snd].
  assert (E : fl_num x * (fl_den y * 2 ^ 20) = fl_num y * fl_den x).
  { apply (Z.mul_reg_l _ _ (fl_den y1)); [lia|]. change (2 ^ 20) with (1024 * 1024).
    replace (fl_den y1 * (fl_num x * (fl_den y * (1024 * 1024)))) with (fl_num x * (fl_den y1 * 1024) * (fl_den y * 1024)) by lia.
    rewrite E2. replace (fl_num y1 * fl_den x * (fl_den y * 1024)) with (fl_num y1 * (fl_den y * 1024) * fl_den x) by lia.
    rewrite E1. lia. }
  pose proof (nearest3_eq x k (fl_num y) (fl_den y * 2 ^ 20) Hx ltac:(lia) E Hnear) as Hk2.
  change (2 ^ double) with (2 ^ 53) in He.
  apply (Z.mul_le_mono_pos_l _ _ (fl_den y)); [done|]. set (D := fl_den y) in *. set (N := fl_num y) in *.
  assert (Ht : D * Z.abs (k * 2 ^ 20 - 1000 * Z.abs z) ≤ Z.abs (k * (D * 2 ^ 20) - 1000 * N) + 1000 * Z.abs (N - Z.abs z * D)).
  { rewrite <- (Z.abs_eq D) at 1 by lia. rewrite <- Z.abs_mul. lia. }
  lia.
Qed.

Lemma average_spec size active : active ≠ 0 → let x := fl_div double (of_int double size) (of_int double active) in
  0 ≤ fl_num x ∧ 0 < fl_den x ∧ ∀ k, 0 ≤ k → nearest3 x k → average_shown size active (fl_neg x, k).
Proof.
  intros Ha x. destruct (quotient_near double size active ltac:(done) Ha) as (Hn & Hd & Hs & He). fold x in Hn, Hd, Hs, He.
  split; [done|]. split; [done|]. intros k Hk Hnear. unfold average_shown. destruct (Z.eqb_spec active 0); [done|].
  split; [done|]. split; [done|]. exact (He k Hk Hnear).
Qed.
End numbers.

(** ** Scanning *)

(** A number [n] with spaces before it. *)
Definition numeral (n t : text) : Prop :=
  ∃ k, t = replicate k 32 ++ n ∧ n ≠ [] ∧ Forall (fun c => is_number_char c = true) n.

Definition not_number (t : text) : Prop := ∀ c, head t = Some c → is_number_char c = false.

Lemma strip_app l t : strip l (l ++ t) = Some t.
Proof. induction l as [|c l IH]; [done|]. cbn. by rewrite Z.eqb_refl. Qed.

Lemma scan_lit l format t : scan (Lit l :: format) (l ++ t) = scan format t.
Proof. cbn [scan]. by rewrite strip_app. Qed.

Lemma strip_space l t : 32 ∈ l → 32 ∉ t → strip l t = None.
Proof.
  revert t. induction l as [|c l IH]; intros t Hl Ht; [by apply elem_of_nil in Hl|]. destruct t as [|c' t]; [done|]. cbn.
  apply not_elem_of_cons in Ht as [Hc Ht]. destruct (Z.eqb_spec c c') as [->|]; [|done].
  apply elem_of_cons in Hl as [?|Hl]; [done|]. by apply IH.
Qed.

Lemma span_number_app n rest : Forall (fun c => is_number_char c = true) n → not_number rest → span_number (n ++ rest) = (n, rest).
Proof.
  intros Hn Hr. induction Hn as [|c n Hc _ IH]; cbn [app span_number].
  - destruct rest as [|c rest]; [done|]. cbn. by rewrite (Hr c).
  - by rewrite Hc, IH.
Qed.

Lemma skip_spaces_cons c t : skip_spaces (c :: t) = if c =? 32 then skip_spaces t else c :: t.
Proof. destruct (Z.eqb_spec c 32) as [->|Hc]; [done|]. destruct c as [|p|p]; try done. by do 6 (destruct p as [p|p|]; try done). Qed.

Lemma skip_spaces_numeral n t rest : numeral n t → skip_spaces (t ++ rest) = n ++ rest.
Proof.
  intros (k & -> & Hne & Hn). induction k as [|k IH]; [|exact IH]. cbn [replicate app]. destruct n as [|c n]; [done|].
  cbn [app]. rewrite skip_spaces_cons. apply Forall_cons in Hn as [Hc _]. destruct (Z.eqb_spec c 32) as [->|]; done.
Qed.

Lemma scan_num n t format rest : numeral n t → not_number rest →
  scan (Num :: format) (t ++ rest) = (ns ← scan format rest; Some (n :: ns)).
Proof.
  intros Hn Hr. cbn [scan]. rewrite (skip_spaces_numeral n t rest Hn). destruct Hn as (k & -> & _ & Hn). by rewrite span_number_app.
Qed.

Lemma numeral_pad width n : n ≠ [] → Forall (fun c => is_number_char c = true) n → numeral n (pad width n).
Proof. intros H1 H2. by exists (Z.to_nat (width - zlen n)). Qed.

Lemma print_int_number z : print_int z ≠ [] ∧ Forall (fun c => is_number_char c = true) (print_int z).
Proof.
  split.
  - unfold print_int. destruct (Z.ltb_spec z 0); [done|]. by destruct (print_nat_spec z) as (_ & ? & _).
  - apply (Forall_impl _ _ _ (print_int_chars z)). intros c Hc. unfold is_number_char, is_digit. zcases.
Qed.

Lemma fixed3_number neg k : 0 ≤ k → fixed3 neg k ≠ [] ∧ Forall (fun c => is_number_char c = true) (fixed3 neg k).
Proof.
  intros Hk. destruct (fixed3_chars neg k Hk) as [H1 H2]. split; [done|]. apply (Forall_impl _ _ _ H1).
  intros c Hc. unfold is_number_char, is_digit. zcases.
Qed.

(** ** Lines *)

Section lines.
Context {fmt : Fmt} {report_fmt : ReportFmt} {time_fmt : TimeFmt}.

Lemma read_int_print ty z : it_min ty ≤ z ≤ it_max ty → (it_signed ty = false → 0 ≤ it_min ty) → read_int ty (print_int z) = Some z.
Proof.
  intros Hz Hs. unfold read_int. rewrite <- (app_nil_r (print_int z)), from_chars_print by done. done.
Qed.

(** A number that is printed with three places: its numeral, and what is read. *)
Definition fixed_read (t : text) (P : bool * Z → Prop) : Prop :=
  ∃ n v, numeral n t ∧ read_fixed3 n = Some v ∧ P v.

Lemma fixed_reads width x P : 0 ≤ fl_num x → 0 < fl_den x → (∀ k, 0 ≤ k → nearest3 x k → P (fl_neg x, k)) → fixed_read (fmt_fixed width x) P.
Proof.
  intros Hn Hd HP. destruct (fmt_fixed_spec width x Hn Hd) as (k & Hk & Hnear & ->). destruct (fixed3_number (fl_neg x) k Hk) as [Hne Hch].
  exists (fixed3 (fl_neg x) k), (fl_neg x, k). split; [by apply numeral_pad|]. split; [by apply read_fixed3_print|]. auto.
Qed.

Lemma padded_numeral width z : numeral (print_int z) (fmt_padded width z).
Proof. rewrite fmt_padded_spec. apply numeral_pad; apply print_int_number. Qed.

Lemma int_numeral z : numeral (print_int z) (fmt_int z).
Proof. rewrite fmt_int_spec. exists 0%nat. split; [done|]. apply print_int_number. Qed.

(** What follows a number is known text. *)
Ltac scan_step := first [rewrite scan_lit | erewrite scan_num; [|first [eassumption|apply padded_numeral|apply int_numeral]|by intros c [= <-]]].

Lemma ToString_read s : in_range s → ∃ ns r, scan summary_format (ToString s) = Some ns ∧ read_summary ns = Some r ∧ summary_shown s r.
Proof.
  intros (R1 & R2 & R3 & R4 & R5). unfold is_i64, is_u64 in *.
  destruct (megabytes_spec (sum_size s)) as (N1 & D1 & G1 & M1), (megabytes_spec (sum_overhead s)) as (N2 & D2 & G2 & M2).
  destruct (fixed_reads 9 _ _ N1 D1 M1) as (n1 & v1 & L1 & F1 & P1), (fixed_reads 9 _ _ N2 D2 M2) as (n5 & v5 & L5 & F5 & P5).
  set (avg := if sum_active s =? 0 then of_int double 0
              else fl_div double (of_int double (sum_size s)) (of_int double (sum_active s))).
  assert (Ha : fixed_read (fmt_fixed 12 avg) (average_shown (sum_size s) (sum_active s))).
  { subst avg. destruct (Z.eqb_spec (sum_active s) 0) as [E|E].
    - apply fixed_reads; [done..|]. intros k Hk Hn. unfold average_shown. rewrite E. change (2 * Z.abs (k * 1 - 1000 * 0) ≤ 1) in Hn.
      change (fl_neg (of_int double 0)) with false. cbn. f_equal. lia.
    - by apply fixed_reads; apply average_spec. }
  destruct Ha as (n4 & v4 & L4 & F4 & P4).
  exists [n1; print_int (sum_active s); print_int (sum_totalCount s); n4; n5], (mkReading v1 (sum_active s) (sum_totalCount s) v4 v5).
  split; [|split; [|done]].
  - unfold ToString, summary_format. cbv zeta. fold avg.
    do 10 scan_step. reflexivity.
  - cbn [read_summary]. rewrite F1, F4, F5, !read_int_print by (cbn; lia || done). done.
Qed.

(** Numbers that can be in a line. *)
Definition line_ok (l : line) : Prop :=
  match l with
  | LApplicationHeap s | LMemHawkHeap s => in_range s
  | LTrace traceId s => is_u32 traceId ∧ in_range s
  | LTraces total updated => is_u64 total ∧ is_u64 updated
  | _ => True
  end.

Lemma scan_other l format t : strip l t = None → scan (Lit l :: format) t = None.
Proof. intros H. cbn [scan]. by rewrite H. Qed.

Lemma line_read l : line_ok l → ∃ sh, read_report_line (format_line l) = Some sh ∧ line_shown l sh.
Proof.
  destruct l as [now|s|s|total updated| | | | |id s|]; cbn [line_ok format_line line_shown]; intros Hl.
  5-8, 10: eexists; split; [vm_compute; reflexivity|done].
  - exists (ShOther (FormatTime now)). split; [|by eexists]. pose proof (FormatTime_word now) as Hw.
    assert (Hs : 32 ∉ FormatTime now) by (intros Hin; rewrite Forall_forall in Hw; by destruct (Hw 32 Hin)).
    unfold read_report_line. rewrite !scan_other by (by apply strip_space; [apply (bool_decide_unpack _); vm_compute|]). done.
  - destruct (ToString_read s Hl) as (ns & r & E1 & E2 & Hr). exists (ShHeap false r). split; [|by exists r].
    unfold read_report_line. rewrite scan_other by done. rewrite scan_lit, E1. cbn. by rewrite E2.
  - destruct (ToString_read s Hl) as (ns & r & E1 & E2 & Hr). exists (ShHeap true r). split; [|by exists r].
    unfold read_report_line. rewrite !scan_other by done. rewrite scan_lit, E1. cbn. by rewrite E2.
  - destruct Hl as [Ht Hup]. exists (ShTraces total updated). split; [|done]. unfold read_report_line, is_u64 in *.
    rewrite !scan_other by done. rewrite <- (app_nil_r (fmt_int updated)). do 4 scan_step. cbn.
    by rewrite !read_int_print by (cbn; lia || done).
  - destruct Hl as [Hid Hl]. destruct (ToString_read s Hl) as (ns & r & E1 & E2 & Hr). exists (ShTrace id r). split; [|by exists r].
    unfold read_report_line, is_u32 in *. do 3 scan_step. rewrite E1. cbn.
    rewrite read_int_print by (cbn; lia || done). cbn. by rewrite E2.
Qed.

(** *** One line after the other *)

Lemma lines_of_app l t : 10 ∉ l → lines_of (l ++ 10 :: t) = l :: lines_of t.
Proof.
  induction l as [|c l IH]; intros Hl; [done|]. apply not_elem_of_cons in Hl as [Hc Hl]. cbn.
  destruct (Z.eqb_spec c 10); [congruence|]. by rewrite IH.
Qed.

Lemma numeral_no_newline n t : numeral n t → 10 ∉ t.
Proof.
  intros (k & -> & _ & Hn) [[? _]%elem_of_replicate|Hin]%elem_of_app; [done|]. rewrite Forall_forall in Hn. by apply Hn in Hin.
Qed.

Lemma fixed_no_newline t P : fixed_read t P → 10 ∉ t.
Proof. intros (n & v & Hn & _). by eapply numeral_no_newline. Qed.

Lemma app_no_newline (a b : text) : 10 ∉ a → 10 ∉ b → 10 ∉ a ++ b.
Proof. intros ? ? [?|?]%elem_of_app; done. Qed.

Lemma ToString_no_newline s : 10 ∉ ToString s.
Proof.
  unfold ToString. cbv zeta.
  assert (Hf : ∀ w x, 0 ≤ fl_num x → 0 < fl_den x → 10 ∉ fmt_fixed w x).
  { intros w x Hn Hd. eapply (fixed_no_newline _ (fun _ => True)). by apply fixed_reads. }
  assert (Hm : ∀ w z, 10 ∉ fmt_fixed w (megabytes z)) by (intros w z; destruct (megabytes_spec z) as (? & ? & _); by apply Hf).
  assert (Ha : 10 ∉ fmt_fixed 12 (if sum_active s =? 0 then of_int double 0
    else fl_div double (of_int double (sum_size s)) (of_int double (sum_active s)))).
  { destruct (Z.eqb_spec (sum_active s) 0); [by apply Hf|]. by apply Hf; apply average_spec. }
  repeat (apply app_no_newline;
    [first [apply Hm|apply Ha|by eapply numeral_no_newline, padded_numeral|by apply (bool_decide_unpack _); vm_compute]|]).
  by apply (bool_decide_unpack _); vm_compute.
Qed.

Lemma line_no_newline l : 10 ∉ format_line l.
Proof.
  destruct l as [now|s|s|total updated| | | | |id s|]; cbn [format_line].
  5-8, 10: by apply (bool_decide_unpack _); vm_compute.
  - intros Hin. pose proof (FormatTime_word now) as Hw. rewrite Forall_forall in Hw. by destruct (Hw 10 Hin).
  - apply app_no_newline; [by apply (bool_decide_unpack _); vm_compute|apply ToString_no_newline].
  - apply app_no_newline; [by apply (bool_decide_unpack _); vm_compute|apply ToString_no_newline].
  - do 3 (apply app_no_newline; [first [by eapply numeral_no_newline, int_numeral|by apply (bool_decide_unpack _); vm_compute]|]).
    eapply numeral_no_newline, int_numeral.
  - do 3 (apply app_no_newline; [first [by eapply numeral_no_newline, padded_numeral|by apply (bool_decide_unpack _); vm_compute]|]).
    apply ToString_no_newline.
Qed.

Lemma lines_of_file ls : lines_of (file_text ls) = format_line <$> ls.
Proof.
  induction ls as [|l ls IH]; [done|]. cbn [fmap list_fmap]. unfold file_text in *. cbn [fmap list_fmap concat].
  rewrite <- app_assoc. cbn [app]. by rewrite lines_of_app, IH by apply line_no_newline.
Qed.

Lemma file_read ls : Forall line_ok ls → ∃ shs, read_report (file_text ls) = Some shs ∧ Forall2 line_shown ls shs.
Proof.
  intros Hls. unfold read_report. rewrite lines_of_file. induction Hls as [|l ls Hl _ (shs & E & Hs)]; [by exists []|].
  destruct (line_read l Hl) as (sh & El & Hsh). exists (sh :: shs). split; [|by constructor].
  apply mapM_Some. apply mapM_Some in E. cbn. by constructor.
Qed.
End lines.

(** ** The file of a writer *)

Section file.
Context {I : Type} `{!SummaryIndex I} `{!SummaryIndexLaws I} (hash_order : gset Z → list Z).
Context (hash_order_perm : ∀ X, hash_order X ≡ₚ elements X).
Context (traces : Z → option Stacktrace) (finder : Z → outcome (option Stacktrace)).
Context (finder_spec : ∀ id, finder id = Ret (traces id)).
Implicit Types (w : TextWriter I) (cs : list (SummariesMap * AllocSummary)).

Lemma mentioned_u32 cs id : Forall snapshot_ok cs → mentioned cs id → is_u32 id.
Proof.
  intros Hcs (c & Hc & [s Hs])%Exists_exists. rewrite Forall_forall in Hcs. by destruct (proj2 (Hcs c Hc) id s Hs).
Qed.

Lemma shows_ok b cs ic ls : Forall snapshot_ok cs → shows b cs ic ls → Forall line_ok ls.
Proof.
  intros Hcs. unfold shows. destruct (ic_Enabled ic); [|intros ->; constructor]. intros (bySize & byCount & T1 & T2 & ->).
  assert (Ht : ∀ key n l, is_top b cs key n l → Forall line_ok (trace_line <$> l)).
  { intros key n l Htop. apply Forall_fmap, Forall_forall. intros [id s] Hin. destruct (it_exact _ _ _ _ _ Htop id s Hin) as (Hm & _ & ->).
    split; [by eapply mentioned_u32|apply consumed_range]. }
  repeat (apply Forall_app; split); [by repeat constructor| |by repeat constructor|by eapply Ht].
  apply Forall_fmap. pose proof (Ht _ _ _ T1) as H1. rewrite Forall_fmap in H1. apply Forall_forall. intros e [_ He]%list_elem_of_filter.
  rewrite Forall_forall in H1. by apply H1.
Qed.

Lemma report_ok w cs upd now : counts_ok (tw_cfg w) → Forall snapshot_ok cs → tw_ok w cs upd → Forall line_ok (report w now).
Proof.
  intros (C1 & C2 & C3 & C4) Hcs Hok. unfold report.
  pose proof (tk_total _ _ _ Hok false) as T1. pose proof (tk_total _ _ _ Hok true) as T2. cbn [total_of] in T1, T2.
  pose proof (index_shows w cs upd false _ Hok C1 C2) as S1. pose proof (index_shows w cs upd true _ Hok C3 C4) as S2. cbn [index_of] in S1, S2.
  repeat (apply Forall_app; split); [|by eapply shows_ok|by repeat constructor|by eapply shows_ok|by repeat constructor].
  rewrite T1, T2, (tk_updated _ _ _ Hok).
  repeat (apply List.Forall_cons; [cbn [line_ok]; try done; first [apply wrap_in_range|split; apply u64_range]|]). apply List.Forall_nil.
Qed.

Lemma flush_tw_ok w w' cs upd now : counts_ok (tw_cfg w) → tw_ok w cs upd → Text_FlushData hash_order now finder w = Ret w' →
  tw_ok w' cs 0 ∧ tw_cfg w' = tw_cfg w ∧ tw_summaryFile w' = tw_summaryFile w ++ report w now.
Proof.
  intros Hc [K1 K2 _]. rewrite (Text_FlushData_spec hash_order hash_order_perm traces finder finder_spec) by done. intros [= <-]. by split.
Qed.

Lemma trun_lines ops : Forall top_ok ops → ∀ w w' cs upd, counts_ok (tw_cfg w) → Forall snapshot_ok cs → tw_ok w cs upd →
  Forall line_ok (tw_summaryFile w) → trun hash_order finder w ops = Ret w' → Forall line_ok (tw_summaryFile w').
Proof.
  induction 1 as [|op ops Hop _ IH]; intros w w' cs upd Hc Hcs Hok Hl E; cbn [trun] in E; [by simplify_eq|].
  apply bind_ret_inv in E as (w1 & E1 & E). destruct op as [m total|now|]; cbn [texec top_ok] in *.
  - injection E1 as <-. destruct (text_account_spec w cs upd (m, total) Hok Hop) as (Hok1 & F1 & F2 & _). cbn [fst snd] in *.
    eapply (IH _ _ (cs ++ [(m, total)])); [..|exact E]; rewrite ?F1, ?F2; try done. apply Forall_app. split; [done|]. by constructor.
  - destruct (flush_tw_ok w w1 cs upd now Hc Hok E1) as (Hok1 & F1 & F2).
    eapply (IH _ _ cs); [..|exact E]; rewrite ?F1, ?F2; try done. apply Forall_app. split; [done|]. by eapply report_ok.
  - injection E1 as <-. by eapply IH.
Qed.
Lemma trun_flush ops now : ∀ v w w', trun hash_order finder v ops = Ret w → Text_FlushData hash_order now finder w = Ret w' →
  trun hash_order finder v (ops ++ [TFlush now]) = Ret w'.
Proof.
  induction ops as [|op ops IH]; intros v w w' E E2; cbn [trun app] in *; [simplify_eq; cbn [texec]; by rewrite E2|].
  apply bind_ret_inv in E as (v1 & -> & E). by eapply IH.
Qed.
End file.

(** ** Property *)

(** C38: after any history of snapshots and flushes, a flush appends a report to the file, and a
    reader of the text finds what it found before and then the lines of the report: the exact totals
    of the application and of MemHawk, the number of traces seen and of entries since the
    last report, and for either class, when enabled, its heaviest traces: the asked number of
    greatest sizes (or all) in descending order without those that have no active block, then of
    greatest counts, with no trace left out that is heavier than one listed.  Ids, active blocks
    and counts are read exactly, megabytes and averages with an error of half a thousandth and the
    relative precision of a [double]. *)
Theorem report_read {fmt : Fmt} {report_fmt : ReportFmt} {time_fmt : TimeFmt} {X : Type} `{!SummaryIndex X} `{!SummaryIndexLaws X}
    (hash_order : gset Z → list Z) (hash_order_perm : ∀ X, hash_order X ≡ₚ elements X)
    (traces : Z → option Stacktrace) (finder : Z → outcome (option Stacktrace)) (finder_spec : ∀ id, finder id = Ret (traces id))
    (cfg : WriterConfig) (counts : counts_ok cfg) (ops : list top) (ops_ok : Forall top_ok ops) now : ∃ w w' : TextWriter X, ∃ before after ext int ids,
  let cs := ops ≫= top_snapshots in
  trun hash_order finder (TextWriter_ctor cfg) ops = Ret w ∧ Text_FlushData hash_order now finder w = Ret w'
  ∧ read_report (file_text (tw_summaryFile w)) = Some before
  ∧ read_report (file_text (tw_summaryFile w')) = Some (before ++ after)
  ∧ Forall2 line_shown
      ([LTime now; LApplicationHeap (wrap (class_total false cs)); LMemHawkHeap (wrap (class_total true cs));
        LTraces (u64 (zlen ids)) (u64 (foldl count_updates 0 ops)); LExternalIndex]
       ++ ext ++ [LEmpty; LEmpty; LInternalIndex] ++ int ++ [LEmpty; LEmpty]) after
  ∧ NoDup ids ∧ (∀ id, id ∈ ids ↔ mentioned cs id)
  ∧ shows false cs (wc_ExternalTraces cfg) ext ∧ shows true cs (wc_InternalTraces cfg) int.
Proof.
  destruct (text_report hash_order hash_order_perm traces finder finder_spec cfg counts ops ops_ok now)
    as (w & w' & ext & int & ids & E1 & E2 & Ef & Hn & Hi & S1 & S2).
  destruct (ctor_ok (I := X) traces cfg) as [Hok _].
  pose proof (trun_lines hash_order hash_order_perm traces finder finder_spec) as Hlines.
  assert (H1 : Forall line_ok (tw_summaryFile w)) by (exact (Hlines ops ops_ok (TextWriter_ctor cfg) w [] 0 counts (List.Forall_nil _) Hok (List.Forall_nil _) E1)).
  assert (H2 : Forall line_ok (tw_summaryFile w')).
  { apply (Hlines (ops ++ [TFlush now]) ltac:(apply Forall_app; split; [done|by constructor]) (TextWriter_ctor cfg) w' [] 0);
      [done|constructor|done|constructor|]. by apply (trun_flush hash_order finder ops now _ w). }
  destruct (file_read _ H1) as (before & R1 & F1). rewrite Ef in H2. apply Forall_app in H2 as [_ H2].
  destruct (file_read _ H2) as (after & R2 & F2).
  exists w, w', before, after, ext, int, ids. cbv zeta. split_and!; try done.
  rewrite Ef. unfold read_report in *. rewrite lines_of_file in *. rewrite fmap_app. apply mapM_Some.
  apply mapM_Some in R1, R2. by apply Forall2_app.
Qed.

(** fmt with ties to even, and a clock that is printed as a number. *)
#[export] Program Instance plain_report_fmt : ReportFmt := {
  fmt_padded width z := pad width (print_int z);
  fmt_fixed width x := pad width (print_fixed3 x);
}.
Next Obligation. done. Qed.
Next Obligation.
  intros width x Hn Hd. exists (thousandths x). split; [apply round_div_ge; lia|]. split; [by apply thousandths_nearest|done].
Qed.
#[export] Program Instance plain_time_fmt : TimeFmt := { FormatTime := print_int }.
Next Obligation. intros t. apply (Forall_impl _ _ _ (print_int_chars t)). lia. Qed.

(** The line of a trace with 100 bytes in one block. *)
Lemma example_line : format_line (LTrace 5 (mkAllocSummary (3 * 2 ^ 20 + 1) 16 2 2 100)) =
  str "TraceId:         5, size:     3.000 mb, active:            2, total:            2, average:  1572864.500 bytes, overhead:     0.000 mb".
Proof. vm_compute. reflexivity. Qed.

Lemma report_read_witness : ∃ (w w' : TextWriter (gmap Z AllocSummary)) before after r,
  Text_FlushData elements 2 (fun id => Ret (example_finder id)) w = Ret w'
  ∧ read_report (file_text (tw_summaryFile w')) = Some (before ++ after)
  ∧ after !! 1%nat = Some (ShHeap false r) ∧ re_active r = 2 ∧ re_total r = 4 ∧ mb_shown 190 (re_size r).
Proof.
  destruct (report_read (X := gmap Z AllocSummary) elements (fun _ => reflexivity _) example_finder
    (fun id => Ret (example_finder id)) (fun _ => eq_refl) example_cfg) with (ops := example_ops) (now := 2)
    as (w & w' & before & after & ext & int & ids & Hw & Hf & R1 & R2 & Hs & _).
  - unfold counts_ok. cbn. lia.
  - apply example_ops_ok.
  - destruct (Forall2_lookup_l _ _ _ 1 _ Hs eq_refl) as (sh & Hsh & r & -> & H1 & H2 & H3 & _).
    exists w, w', before, after, r. split; [exact Hf|]. split; [exact R2|]. split; [exact Hsh|].
    assert (E : wrap (class_total false (example_ops ≫= top_snapshots)) = mkAllocSummary 190 0 2 4 0) by (vm_compute; reflexivity).
    rewrite E in H1, H2, H3. split; [exact H2|]. split; [exact H3|exact H1].
Defined.
