(* ===== verification/Describe.v ===== *)
(** * Traces as text ([Stacktrace::Describe] and its callers)

    A trace is described by one line for every frame: address, file, offset in the file and name
    of the function.  The text writer puts such descriptions into its second file and the two
    trackers dump their traces with their destructors.  What libunwind and [dladdr] know of an
    address, and how fmt prints in hexadecimal, are parameters.  A reader of the text is the
    specification. *)

From Stdlib Require Import ZArith Lia.
From stdpp Require Import base numbers list gmap strings.
From S2P Require Import Prelude FromChars Algo AllocInfo Stacktrace StacktraceTree IStacktraceTracker StacktraceTracker StaticTracker ThreadTracker HeaptrackWriter Snapshots ParseStruct Config Logging TextWriter ReportText.

(** What is found for an address: [unw_get_proc_name_by_ip] and [unw_get_elf_filename_by_ip] write a
    buffer or leave it as it is, the latter also the offset; [dladdr] finds the base of the object. *)
Class Symbolizer := {
  proc_name : Z → option text;
  elf_filename : Z → option text;
  elf_offset : Z → option Z;
  dli_fbase : Z → option Z;
}.

(** An offset is an [unw_word_t]. *)
Class SymbolizerLaws `{Symbolizer} : Prop := {
  elf_offset_range ip off : elf_offset ip = Some off → is_u64 off;
}.

(** [{:x}]; a pointer is printed as "0x" and its digits. *)
Class HexFmt := {
  fmt_hex : Z → text;
  fmt_hex_chars z : is_u64 z → Forall (fun c => is_Some (hex_digit c)) (fmt_hex z);
  fmt_hex_parse z : is_u64 z → parse_hex (fmt_hex z) = Some z;
}.

(** ** Writing *)

Section describe.
Context {fmt : Fmt} {hex_fmt : HexFmt} {symbols : Symbolizer}.

Definition frame_offset (ip : Z) : Z :=
  let offset := default 0 (elf_offset ip) in
  match dli_fbase ip with Some base => u64 (ip - base) | None => offset end.

Definition frame_line (ip : Z) (elfName : text) (offset : Z) (buf : text) : text :=
  str "0x" ++ fmt_hex ip ++ str ": " ++ elfName ++ str " + 0x" ++ fmt_hex offset ++ str " : " ++ buf ++ [10].

(** The loop: the buffers stay from one frame to the next, and are without a value at first. *)
Fixpoint Describe_loop (buf elfName : option text) (span : list Z) : outcome text :=
  match span with
  | [] => Ret []
  | ip :: span =>
    let buf := proc_name ip ∪ buf in
    let elfName := elf_filename ip ∪ elfName in
    match elfName, buf with
    | Some file, Some name =>
      rest ← Describe_loop buf elfName span;
      Ret (frame_line ip file (frame_offset ip) name ++ rest)
    | _, _ => Undef
    end
  end.

Definition Stacktrace_Describe (st : Stacktrace) : outcome text := Describe_loop None None (GetTrace st).

(** What [FlushData] appends to the second file for a trace. *)
Definition described_block (e : Z * Stacktrace) : outcome text :=
  traceStr ← Stacktrace_Describe e.2;
  Ret (str "TraceId: " ++ fmt_int e.1 ++ [10] ++ traceStr ++ [10] ++ [10]).

(** What either destructor writes for a trace. *)
Definition dump_block (e : Z * Stacktrace) : outcome text :=
  traceStr ← Stacktrace_Describe e.2;
  Ret (str "traceId: " ++ print_int e.1 ++ [10] ++ traceStr ++ [10; 10]).

Fixpoint blocks_text (block : Z * Stacktrace → outcome text) (es : list (Z * Stacktrace)) : outcome text :=
  match es with
  | [] => Ret []
  | e :: es => t ← block e; ts ← blocks_text block es; Ret (t ++ ts)
  end.

(** The text of the second file of a writer. *)
Definition stacktraces_text (es : list (Z * Stacktrace)) : outcome text := blocks_text described_block es.

(** ** The destructors of the trackers *)

Section dumps.
Context (progname : text) (pid : Z) (hash_order : gset Z → list Z) (uninit : list Z).

(** The name of the file. *)
Definition dump_filename (log : Log) (suffix : text) (Filename : option text) : text :=
  let filename := GetProcessLogName progname pid suffix (str "log") log in
  match Filename with Some f => f | None => filename end.

(** The traces of the leaves of the tree. *)
Fixpoint leaf_traces (s : Storage) (ids : list Z) : outcome (list (Z * Stacktrace)) :=
  match ids with
  | [] => Ret []
  | traceId :: ids => st ← GetStacktrace uninit s traceId; es ← leaf_traces s ids; Ret ((traceId, st) :: es)
  end.

(** The file that is written and its text. *)
Definition StacktraceTracker_dtor (DumpStacktraces : bool) (Filename : option text) (log : Log) (t : StacktraceTracker)
  : outcome (option (text * text)) :=
  if negb DumpStacktraces then Ret None
  else
    let filename := dump_filename log (str "external_stacktraces") Filename in
    s ← deref t;
    es ← leaf_traces s (hash_order (leafsId s));
    blocks ← blocks_text dump_block es;
    Ret (Some (filename, str "External stacktraces:" ++ [10] ++ blocks)).

Fixpoint element_traces (fuel : nat) (t : StaticTracker) (i : Z) : outcome (list (Z * Stacktrace)) :=
  match fuel with
  | O => if i <? st_count t then NoFuel else Ret []
  | S fuel =>
    if i <? st_count t
    then '(st, t) ← Static_GetStacktrace uninit t i; es ← element_traces fuel t (i + 1); Ret ((i, st) :: es)
    else Ret []
  end.

Definition StaticTracker_dtor (DumpStacktraces : bool) (Filename : option text) (log : Log) (t : StaticTracker)
  : outcome (option (text * text)) :=
  if negb DumpStacktraces then Ret None
  else
    let filename := dump_filename log (str "inner_stacktraces") Filename in
    es ← element_traces (Z.to_nat ElementsCount) t 0;
    blocks ← blocks_text dump_block es;
    Ret (Some (filename, str "Inner stacktraces:" ++ [10] ++ blocks)).
End dumps.
End describe.

(** ** Reading *)

Record frame := mkFrame { fr_ip : Z; fr_file : text; fr_offset : Z; fr_name : text }.

Fixpoint span_word (stop : Z) (t : text) : text * text :=
  match t with
  | c :: t' => if c =? stop then ([], t) else let '(w, rest) := span_word stop t' in (c :: w, rest)
  | [] => ([], [])
  end.

(** The address comes first; the name, one word, and the offset are read from the end of the line, so
    that the path in between may be anything. *)
Definition read_frame (t : text) : option frame :=
  t ← strip (str "0x") t;
  let '(ip, t) := span_word 58 t in
  t ← strip (str ": ") t;
  let '(name, r) := span_word 32 (reverse t) in
  r ← strip (reverse (str " : ")) r;
  let '(offset, r) := span_word 120 r in
  file ← strip (reverse (str " + 0x")) r;
  ip ← parse_hex ip; offset ← parse_hex (reverse offset); Some (mkFrame ip (reverse file) offset (reverse name)).

(** Blocks: a line with a keyword and an id, lines of frames, an empty line.  The frames that
    have no id yet, and the blocks. *)
Fixpoint read_blocks (keyword : text) (ls : list text) : option (list frame * list (Z * list frame)) :=
  match ls with
  | [] => Some ([], [])
  | l :: ls =>
    '(fs, bs) ← read_blocks keyword ls;
    match l with
    | [] => match fs with [] => Some ([], bs) | _ => None end
    | _ => match strip keyword l with
           | Some n => id ← read_int T_uint32 n; Some ([], (id, fs) :: bs)
           | None => f ← read_frame l; Some (f :: fs, bs)
           end
    end
  end.

Definition read_stacktraces (keyword : text) (ls : list text) : option (list (Z * list frame)) :=
  '(fs, bs) ← read_blocks keyword ls; match fs with [] => Some bs | _ => None end.

Definition read_dump (title : text) (t : text) : option (list (Z * list frame)) :=
  match lines_of t with
  | l :: ls => if decide (l = title) then read_stacktraces (str "traceId: ") ls else None
  | [] => None
  end.

(** ** What has to be read *)

Section spec.
Context `{symbols : Symbolizer}.

(** The frames of a trace in order; where nothing is found for an address, what was found last. *)
Definition describes (tr : list Z) (fs : list frame) : Prop :=
  length fs = length tr ∧ ∀ k f, fs !! k = Some f →
    tr !! k = Some (fr_ip f) ∧ fr_offset f = frame_offset (fr_ip f)
    ∧ last (omap elf_filename (take (S k) tr)) = Some (fr_file f)
    ∧ last (omap proc_name (take (S k) tr)) = Some (fr_name f).

(** Something is found for the first address. *)
Definition starts_known (tr : list Z) : Prop :=
  match tr with [] => True | ip :: _ => is_Some (proc_name ip) ∧ is_Some (elf_filename ip) end.

(** What is found for an address fits into a line: the name of the function is one word and the path of
    the file is one line. *)
Definition plain_frame (ip : Z) : Prop :=
  (∀ name, proc_name ip = Some name → (10 ∉ name) ∧ (32 ∉ name)) ∧ ∀ file, elf_filename ip = Some file → 10 ∉ file.

(** A trace that can be described and read. *)
Definition showable (tr : list Z) : Prop := Forall is_u64 tr ∧ starts_known tr ∧ Forall plain_frame tr.
End spec.

(** ** Frames *)

Section frames.
Context {fmt : Fmt} {hex_fmt : HexFmt} {symbols : Symbolizer} {laws : SymbolizerLaws}.

Lemma span_word_app stop (w rest : text) : stop ∉ w → head rest = Some stop → span_word stop (w ++ rest) = (w, rest).
Proof.
  intros Hw Hr. induction w as [|c w IH]; cbn [app span_word].
  - destruct rest as [|c rest]; [done|]. injection Hr as ->. cbn. by rewrite Z.eqb_refl.
  - apply not_elem_of_cons in Hw as [Hc Hw]. destruct (Z.eqb_spec c stop); [congruence|]. by rewrite IH.
Qed.

Lemma hex_not c z : is_u64 z → hex_digit c = None → c ∉ fmt_hex z.
Proof. intros Hz Hc Hin. pose proof (fmt_hex_chars z Hz) as H. rewrite Forall_forall in H. by apply H in Hin as [d Hd]; simplify_eq. Qed.

Lemma frame_offset_range ip : is_u64 (frame_offset ip).
Proof.
  unfold frame_offset. destruct (dli_fbase ip); [apply u64_range|]. destruct (elf_offset ip) eqn:E; [by eapply elf_offset_range|].
  cbn. unfold is_u64. lia.
Qed.

(** A line of a frame, without its end. *)
Definition frame_words (f : frame) : text :=
  str "0x" ++ fmt_hex (fr_ip f) ++ str ": " ++ fr_file f ++ str " + 0x" ++ fmt_hex (fr_offset f) ++ str " : " ++ fr_name f.

Definition frame_ok (f : frame) : Prop :=
  is_u64 (fr_ip f) ∧ is_u64 (fr_offset f) ∧ ((10 ∉ fr_name f) ∧ (32 ∉ fr_name f)) ∧ (10 ∉ fr_file f).

Lemma read_frame_words f : frame_ok f → read_frame (frame_words f) = Some f.
Proof.
  intros (H1 & H2 & [H3 H3'] & H4). unfold read_frame, frame_words. rewrite strip_app. cbn [mbind option_bind].
  rewrite span_word_app by (done || by apply hex_not). rewrite strip_app. cbn [mbind option_bind].
  rewrite !(reverse_app (_ : text)), <- !app_assoc.
  rewrite span_word_app by (done || by rewrite elem_of_reverse). rewrite strip_app. cbn [mbind option_bind].
  rewrite span_word_app by (done || (rewrite elem_of_reverse; by apply hex_not)). rewrite strip_app. cbn [mbind option_bind].
  rewrite !reverse_involutive, !fmt_hex_parse by done. by destruct f.
Qed.

Lemma frame_words_line f : frame_ok f → 10 ∉ frame_words f.
Proof.
  intros (H1 & H2 & [H3 _] & H4). unfold frame_words.
  repeat (apply app_no_newline; [first [done|by apply hex_not|by apply (bool_decide_unpack _); vm_compute]|]). done.
Qed.

Lemma last_omap_cons {A B} (p : A → option B) x l o : last (omap p (x :: l)) ∪ o = last (omap p l) ∪ (p x ∪ o).
Proof.
  cbn [omap list_omap]. destruct (p x) as [y|]; [|by destruct (last (omap p l)), o].
  rewrite last_cons. by destruct (last (omap p l)), o.
Qed.

(** The frames when the buffers have some values already. *)
Definition describes_from (buf elfName : option text) (tr : list Z) (fs : list frame) : Prop :=
  length fs = length tr ∧ ∀ k f, fs !! k = Some f →
    tr !! k = Some (fr_ip f) ∧ fr_offset f = frame_offset (fr_ip f)
    ∧ last (omap elf_filename (take (S k) tr)) ∪ elfName = Some (fr_file f)
    ∧ last (omap proc_name (take (S k) tr)) ∪ buf = Some (fr_name f).

Definition lines_text (ls : list text) : text := concat ((fun l => l ++ [10]) <$> ls).

Definition name_ok (o : option text) : Prop := ∀ t, o = Some t → (10 ∉ t) ∧ (32 ∉ t).
Definition file_ok (o : option text) : Prop := ∀ t, o = Some t → 10 ∉ t.

Lemma Describe_loop_spec tr : ∀ buf elfName, Forall is_u64 tr → Forall plain_frame tr → name_ok buf → file_ok elfName →
  (∀ ip, head tr = Some ip → is_Some (proc_name ip ∪ buf) ∧ is_Some (elf_filename ip ∪ elfName)) →
  ∃ fs, Describe_loop buf elfName tr = Ret (lines_text (frame_words <$> fs)) ∧ Forall frame_ok fs ∧ describes_from buf elfName tr fs.
Proof.
  induction tr as [|ip tr IH]; intros buf elfName Htr Hpl Hb He Hk; cbn [Describe_loop].
  { exists []. split; [done|]. split; [constructor|]. by split. }
  apply Forall_cons in Htr as [Hip Htr]. apply Forall_cons in Hpl as [[Hpn Hpf] Hpl]. destruct (Hk ip eq_refl) as [[name En] [file Ef]]. rewrite En, Ef.
  assert (Hname : name_ok (Some name)) by (intros t [= <-]; apply union_Some in En as [?|[_ ?]]; [by apply Hpn|by apply Hb]).
  assert (Hfile : file_ok (Some file)) by (intros t [= <-]; apply union_Some in Ef as [?|[_ ?]]; [by apply Hpf|by apply He]).
  destruct (IH (Some name) (Some file) Htr Hpl Hname Hfile) as (fs & -> & Hok & Hl & Hfs).
  { intros ip' _. by destruct (proc_name ip'), (elf_filename ip'). }
  step_ret. set (f := mkFrame ip file (frame_offset ip) name). exists (f :: fs).
  split; [|split; [constructor; [|done]|split]].
  - cbn [fmap list_fmap]. unfold lines_text. cbn [fmap list_fmap concat]. f_equal. f_equal. unfold frame_words, frame_line.
    cbn [fr_ip fr_file fr_offset fr_name f]. by rewrite <- !app_assoc.
  - split; [done|]. split; [apply frame_offset_range|]. split; [by apply Hname|]. by apply Hfile.
  - cbn. by rewrite Hl.
  - intros [|k] f' Hf'; cbn [lookup list_lookup] in Hf'.
    + simplify_eq. cbn [take]. rewrite !last_omap_cons, En, Ef, take_0. by cbn.
    + destruct (Hfs k f' Hf') as (? & ? & E1 & E2). cbn [take]. rewrite !last_omap_cons, En, Ef. done.
Qed.

Lemma Stacktrace_Describe_spec st : showable (GetTrace st) →
  ∃ fs, Stacktrace_Describe st = Ret (lines_text (frame_words <$> fs)) ∧ Forall frame_ok fs ∧ describes (GetTrace st) fs.
Proof.
  intros (Htr & Hk & Hpl). destruct (Describe_loop_spec (GetTrace st) None None Htr Hpl) as (fs & E & Hok & Hl & Hfs); [done|done| |].
  { intros ip Hip. rewrite !(right_id_L None union). destruct (GetTrace st); [done|]. by injection Hip as <-. }
  exists fs. split; [done|]. split; [done|]. split; [done|]. intros k f Hf. destruct (Hfs k f Hf) as (? & ? & E1 & E2).
  by rewrite (right_id_L None union) in E1, E2.
Qed.

(** Nothing is known of the first frame: a buffer is read that has no value. *)
Lemma Describe_unknown st ip : head (GetTrace st) = Some ip → proc_name ip = None ∨ elf_filename ip = None →
  Stacktrace_Describe st = Undef.
Proof.
  unfold Stacktrace_Describe. destruct (GetTrace st) as [|ip' tr]; [done|]. intros [= ->] Hu. cbn [Describe_loop].
  rewrite !(right_id_L None union). destruct Hu as [-> | ->]; [by destruct (elf_filename ip)|done].
Qed.

(** ** Blocks *)

Lemma lines_of_lines (ls : list text) rest : Forall (fun l => 10 ∉ l) ls → lines_of (lines_text ls ++ rest) = ls ++ lines_of rest.
Proof.
  induction 1 as [|l ls Hl _ IH]; [done|]. unfold lines_text in *. cbn [fmap list_fmap concat]. rewrite <- !app_assoc. cbn [app].
  by rewrite lines_of_app, IH.
Qed.

Lemma read_frames keyword fs ls bs : Forall frame_ok fs → (∀ f, strip keyword (frame_words f) = None) →
  read_blocks keyword ls = Some ([], bs) → read_blocks keyword ((frame_words <$> fs) ++ ls) = Some (fs, bs).
Proof.
  intros Hfs Hk Hr. induction Hfs as [|f fs Hf _ IH]; [done|]. cbn [fmap list_fmap app read_blocks].
  change (list_fmap _ _ frame_words fs) with (frame_words <$> fs). rewrite IH. cbn [mbind option_bind].
  rewrite Hk, read_frame_words by done. done.
Qed.

(** A block as the writer and the trackers write it. *)
Definition is_block (keyword : text) (block : Z * Stacktrace → outcome text) : Prop :=
  ∀ e traceStr, Stacktrace_Describe e.2 = Ret traceStr → block e = Ret (keyword ++ print_int e.1 ++ [10] ++ traceStr ++ [10; 10]).

Lemma described_is_block : is_block (str "TraceId: ") described_block.
Proof. intros e t E. unfold described_block. rewrite E. step_ret. by rewrite fmt_int_spec. Qed.

Lemma dump_is_block : is_block (str "traceId: ") dump_block.
Proof. intros e t E. unfold dump_block. by rewrite E. Qed.

Definition entry_ok (e : Z * Stacktrace) : Prop := is_u32 e.1 ∧ showable (GetTrace e.2).

Definition block_describes (e : Z * Stacktrace) (b : Z * list frame) : Prop := b.1 = e.1 ∧ describes (GetTrace e.2) b.2.

Lemma blocks_read keyword block es : is_block keyword block → keyword ≠ [] → 10 ∉ keyword → (∀ f, strip keyword (frame_words f) = None) →
  Forall entry_ok es → ∃ t bs, blocks_text block es = Ret t ∧ read_stacktraces keyword (lines_of t) = Some bs
    ∧ Forall2 block_describes es bs.
Proof.
  intros Hb Hne Hnl Hk Hes.
  assert (H : ∃ t bs, blocks_text block es = Ret t ∧ read_blocks keyword (lines_of t) = Some ([], bs) ∧ Forall2 block_describes es bs).
  { induction Hes as [|e es [Hid Hs] _ (t & bs & E & Hr & Hf)]; [by exists [], []|].
    destruct (Stacktrace_Describe_spec e.2 Hs) as (fs & Ed & Hfs & Hd).
    eexists _, ((e.1, fs) :: bs). cbn [blocks_text]. rewrite (Hb e _ Ed), E. step_ret. split; [done|]. split; [|by constructor].
    rewrite <- !app_assoc. cbn [app].
    rewrite (app_assoc keyword), lines_of_app.
    2:{ apply app_no_newline; [done|]. intros Hin. pose proof (print_int_chars e.1) as Hc. rewrite Forall_forall in Hc. apply Hc in Hin. lia. }
    rewrite lines_of_lines by (apply Forall_fmap; eapply Forall_impl; [exact Hfs|]; apply frame_words_line).
    change (10 :: 10 :: t) with ([] ++ 10 :: ([] ++ 10 :: t)). rewrite !lines_of_app by apply not_elem_of_nil.
    cbn [read_blocks]. rewrite (read_frames keyword fs _ bs Hfs Hk); [|cbn [read_blocks]; by rewrite Hr]. cbn [mbind option_bind].
    destruct (keyword ++ print_int e.1) eqn:Ek; [by destruct keyword|]. rewrite <- Ek, strip_app.
    rewrite read_int_print; [done| |done]. unfold is_u32 in Hid. cbn. lia. }
  destruct H as (t & bs & E & Hr & Hf). exists t, bs. split; [done|]. split; [|done]. unfold read_stacktraces. by rewrite Hr.
Qed.

Lemma blocks_ids es bs : Forall2 block_describes es bs → bs.*1 = es.*1.
Proof. induction 1 as [|e b es bs [E _] _ IH]; [done|]. cbn. by rewrite E, IH. Qed.

Lemma line_ids_u32 ls id : Forall line_ok ls → id ∈ line_ids ls → is_u32 id.
Proof.
  intros Hls (l & Hin & Hid)%list_elem_of_omap. rewrite Forall_forall in Hls. apply Hls in Hin. destruct l; simplify_eq. apply Hin.
Qed.

(** The second file of a writer. *)
Lemma stacktraces_read es : Forall entry_ok es → ∃ t bs, stacktraces_text es = Ret t
  ∧ read_stacktraces (str "TraceId: ") (lines_of t) = Some bs ∧ Forall2 block_describes es bs.
Proof. apply blocks_read; [apply described_is_block|done|by apply (bool_decide_unpack _); vm_compute|done]. Qed.

(** ** Dumps *)

Lemma dump_read title t bs : 10 ∉ title → read_stacktraces (str "traceId: ") (lines_of t) = Some bs →
  read_dump title (title ++ [10] ++ t) = Some bs.
Proof. intros Ht Hr. unfold read_dump. cbn [app]. rewrite lines_of_app by done. by rewrite decide_True. Qed.

Lemma dump_blocks_read es : Forall entry_ok es → ∃ t bs, blocks_text dump_block es = Ret t
  ∧ read_stacktraces (str "traceId: ") (lines_of t) = Some bs ∧ Forall2 block_describes es bs.
Proof. apply blocks_read; [apply dump_is_block|done|by apply (bool_decide_unpack _); vm_compute|done]. Qed.

(** A dump lists the traces a tracker knows, each once, [name] turning the number that is
    printed into the id that is handed out. *)
Definition dump_of {T} (knows : T → Z → list Z → Prop) (name : Z → Z) (t : T) (bs : list (Z * list frame)) : Prop :=
  NoDup bs.*1 ∧ (∀ id tr, knows t (name id) tr → ∃ fs, (id, fs) ∈ bs ∧ describes tr fs)
  ∧ ∀ id fs, (id, fs) ∈ bs → ∃ tr, knows t (name id) tr ∧ describes tr fs.

Lemma blocks_dump_of {T} (knows : T → Z → list Z → Prop) name t es bs : NoDup es.*1 →
  (∀ id tr, knows t (name id) tr → ∃ st, (id, st) ∈ es ∧ GetTrace st = tr) →
  (∀ id st, (id, st) ∈ es → knows t (name id) (GetTrace st)) → Forall2 block_describes es bs → dump_of knows name t bs.
Proof.
  intros Hn H1 H2 Hf. split_and!.
  - by rewrite (blocks_ids _ _ Hf).
  - intros id tr Hk. destruct (H1 id tr Hk) as (st & [k Hin]%list_elem_of_lookup & <-).
    destruct (Forall2_lookup_l _ _ _ _ _ Hf Hin) as ([id' fs] & Hb & E & Hd). cbn in E, Hd. subst id'.
    exists fs. split; [|done]. by eapply list_elem_of_lookup_2.
  - intros id fs [k Hin]%list_elem_of_lookup. destruct (Forall2_lookup_r _ _ _ _ _ Hf Hin) as ([id' st] & Hb & E & Hd).
    cbn in E, Hd. subst id'. exists (GetTrace st). split; [|done]. apply H2. by eapply list_elem_of_lookup_2.
Qed.

Section dump_specs.
Context (progname : text) (pid : Z) (hash_order : gset Z → list Z) (uninit : list Z).
Context (hash_order_perm : ∀ X, hash_order X ≡ₚ elements X) (uninit_size : zlen uninit = MaxUnwindDepth).

Lemma leaf_traces_spec s paths ids : storage_ok s paths → Forall (fun id => id ∈ leafsId s) ids →
  ∃ es, leaf_traces uninit s ids = Ret es ∧ es.*1 = ids ∧ Forall (fun e => paths !! Z.to_nat e.1 = Some (reverse (GetTrace e.2))) es.
Proof.
  intros Hs. induction 1 as [|id ids Hid _ (es & E & E1 & Hes)]; [by exists []|]. apply (so_leafs _ _ Hs) in Hid as Hb.
  destruct (lookup_lt_is_Some_2 paths (Z.to_nat id)) as [path Hp]; [unfold zlen in Hb; lia|].
  destruct (GetStacktrace_spec uninit s paths id path Hs uninit_size ltac:(lia) Hp) as (st & Eg & _ & Et).
  exists ((id, st) :: es). cbn [leaf_traces]. rewrite Eg, E. step_ret. split; [done|]. split; [cbn; by rewrite E1|].
  constructor; [|done]. cbn. by rewrite Et, reverse_involutive.
Qed.

Lemma external_dump t log Filename : dyn_ok t → dyn_room 0 t → (∀ id tr, dyn_knows t id tr → showable tr) →
  ∃ text bs, StacktraceTracker_dtor progname pid hash_order uninit true Filename log t
      = Ret (Some (dump_filename progname pid log (str "external_stacktraces") Filename, text))
    ∧ read_dump (str "External stacktraces:") text = Some bs ∧ dump_of dyn_knows (fun id => id) t bs.
Proof.
  intros (s & paths & Es & Hs) (s' & Es' & Hroom) Htr. simplify_eq. unfold StacktraceTracker_dtor, deref. rewrite Es. cbn [negb]. step_ret.
  destruct (leaf_traces_spec s paths (hash_order (leafsId s)) Hs) as (es & -> & E1 & Hes).
  { apply Forall_forall. intros id Hid. by rewrite hash_order_perm, elem_of_elements in Hid. }
  step_ret. assert (Hin : ∀ id st, (id, st) ∈ es → id ∈ leafsId s).
  { intros id st Hin. apply elem_of_elements. rewrite <- hash_order_perm, <- E1. by apply (list_elem_of_fmap_2 fst) in Hin. }
  rewrite Forall_forall in Hes.
  assert (Hk : ∀ id st, (id, st) ∈ es → dyn_knows t id (GetTrace st)).
  { intros id st He. exists s, paths. split; [done|]. split; [done|]. split; [by eapply Hin|by apply (Hes (id, st))]. }
  destruct (dump_blocks_read es) as (text & bs & -> & Hr & Hf).
  { apply Forall_forall. intros [id st] He. split; [|by eapply Htr, Hk]. apply Hin, (so_leafs _ _ Hs) in He.
    destruct (so_nodes _ _ Hs) as [Hlen _]. unfold is_u32, zlen in *. cbn. lia. }
  step_ret. eexists _, bs. split; [done|]. split; [apply dump_read; [by apply (bool_decide_unpack _); vm_compute|done]|].
  apply (blocks_dump_of _ _ _ es); [|intros id tr Hkn|done|done].
  - rewrite E1, hash_order_perm. apply NoDup_elements.
  - destruct Hkn as (s' & P & Es2 & HP & Hid & Hpath). simplify_eq. rewrite (storage_paths _ P paths HP Hs) in Hpath.
    assert (He : id ∈ es.*1) by (rewrite E1, hash_order_perm; by apply elem_of_elements).
    apply list_elem_of_fmap in He as ([id' st] & -> & He). exists st. split; [done|]. pose proof (Hes _ He) as Hp. cbn in Hp, Hpath.
    rewrite Hpath in Hp. injection Hp as Hp. by apply (inj reverse).
Qed.

Lemma element_traces_spec xxh traces fuel : ∀ t i, static_ok xxh t traces → 0 ≤ i → zlen traces - i ≤ Z.of_nat fuel →
  ∃ es, element_traces uninit fuel t i = Ret es ∧ es.*1 = seqZ i (zlen traces - i)
    ∧ Forall (fun e => traces !! Z.to_nat e.1 = Some (GetTrace e.2)) es.
Proof.
  induction fuel as [|fuel IH]; intros t i Hok Hi Hf; cbn [element_traces]; rewrite (sk_count _ _ _ Hok); zcases.
  1, 3: exists []; rewrite seqZ_nil by lia; done.
  destruct (lookup_lt_is_Some_2 traces (Z.to_nat i)) as [tr Htr]; [unfold zlen in *; lia|].
  destruct (static_element xxh uninit t traces (Z.to_nat i) tr uninit_size Hok Htr) as (st & t' & E & _ & Et & Hok').
  rewrite Z2Nat.id in E by lia. rewrite E. step_ret. destruct (IH t' (i + 1) (Hok' _ Hok)) as (es & -> & E1 & Hes); [lia..|].
  step_ret. exists ((i, st) :: es). split; [done|]. split; [|constructor; [cbn; by rewrite Et|done]].
  cbn [fmap list_fmap fst]. rewrite (seqZ_cons i) by lia. f_equal. change (es.*1 = seqZ (Z.succ i) (Z.pred (zlen traces - i))).
  rewrite E1. f_equal; lia.
Qed.

Lemma inner_dump xxh t traces log Filename : static_ok xxh t traces → (∀ tr, tr ∈ traces → showable tr) →
  ∃ text bs, StaticTracker_dtor progname pid uninit true Filename log t
      = Ret (Some (dump_filename progname pid log (str "inner_stacktraces") Filename, text))
    ∧ read_dump (str "Inner stacktraces:") text = Some bs
    ∧ dump_of (static_knows xxh) (fun id => Z.lxor id FixedTrackerIdFlag) t bs.
Proof.
  intros Hok Htr. unfold StaticTracker_dtor. cbn [negb]. pose proof (sk_bound _ _ _ Hok) as Hb. unfold ElementsCount in Hb.
  destruct (element_traces_spec xxh traces (Z.to_nat ElementsCount) t 0 Hok) as (es & -> & E1 & Hes); [lia|unfold ElementsCount; lia|].
  rewrite Z.sub_0_r in E1. rewrite Forall_forall in Hes. step_ret.
  assert (Hin : ∀ id st, (id, st) ∈ es → 0 ≤ id < zlen traces).
  { intros id st He%(list_elem_of_fmap_2 fst). rewrite E1 in He. apply elem_of_seqZ in He. cbn in He. lia. }
  destruct (dump_blocks_read es) as (text & bs & -> & Hr & Hf).
  { apply Forall_forall. intros [id st] He. split; [apply Hin in He; unfold is_u32; cbn; lia|].
    apply Htr. eapply list_elem_of_lookup_2, (Hes _ He). }
  step_ret. eexists _, bs. split; [done|]. split; [apply dump_read; [by apply (bool_decide_unpack _); vm_compute|done]|].
  apply (blocks_dump_of _ _ _ es); [|intros id tr Hkn|intros id st He|done].
  - rewrite E1. apply NoDup_seqZ.
  - destruct Hkn as (P & k & HP & E & Hk). rewrite (static_traces xxh t P traces HP Hok) in Hk.
    apply (f_equal (fun x => Z.lxor x FixedTrackerIdFlag)) in E. rewrite !flag_clear in E. subst id. apply lookup_lt_Some in Hk as Hlt.
    assert (He : Z.of_nat k ∈ es.*1) by (rewrite E1; apply elem_of_seqZ; unfold zlen; lia).
    apply list_elem_of_fmap in He as ([id' st] & E' & He). cbn in E'. subst id'. exists st. split; [done|].
    pose proof (Hes _ He) as Hp. cbn in Hp. rewrite Nat2Z.id in Hp. congruence.
  - exists traces, (Z.to_nat id). pose proof (Hin _ _ He). split; [done|]. split; [by rewrite Z2Nat.id by lia|]. exact (Hes _ He).
Qed.
End dump_specs.
End frames.

(** ** Properties *)

(** C39: at any time the second file of the text writer is text in which a reader finds every
    trace that some report lists and the finder knows, exactly once, and no other trace: frame by
    frame the address, the offset in its file, and the file and the function (where nothing is
    found for an address, those of the frame before).  The lines are those of the code, with
    "+ 0x31659 : name", and not those of docs/text_mode.md.  The finder keeps its answers, and every
    trace it knows is [showable]: libunwind finds a function and a file for the first frame (otherwise
    the code prints a buffer without a value), no name of a function has a space or a newline and no
    path of a file has a newline. *)
Theorem described_text {fmt : Fmt} {hex_fmt : HexFmt} {symbols : Symbolizer} {laws : SymbolizerLaws}
    {X : Type} `{!SummaryIndex X} `{!SummaryIndexLaws X}
    (hash_order : gset Z → list Z) (hash_order_perm : ∀ X, hash_order X ≡ₚ elements X)
    (traces : Z → option Stacktrace) (finder : Z → outcome (option Stacktrace)) (finder_spec : ∀ id, finder id = Ret (traces id))
    (traces_known : ∀ id st, traces id = Some st → showable (GetTrace st))
    (cfg : WriterConfig) (counts : counts_ok cfg) (ops : list top) (ops_ok : Forall top_ok ops) : ∃ (w : TextWriter X) t bs,
  trun hash_order finder (TextWriter_ctor cfg) ops = Ret w ∧ stacktraces_text (tw_stacktracesFile w) = Ret t
  ∧ read_stacktraces (str "TraceId: ") (lines_of t) = Some bs
  ∧ NoDup bs.*1 ∧ (∀ id, id ∈ bs.*1 ↔ id ∈ line_ids (tw_summaryFile w) ∧ is_Some (traces id))
  ∧ ∀ id fs st, (id, fs) ∈ bs → traces id = Some st → describes (GetTrace st) fs.
Proof.
  destruct (text_described hash_order hash_order_perm traces finder finder_spec cfg counts ops ops_ok) as (w & E & Hn & Hin).
  destruct (ctor_ok (I := X) traces cfg) as [Hok _].
  pose proof (trun_lines hash_order hash_order_perm traces finder finder_spec ops ops_ok (TextWriter_ctor cfg) w [] 0 counts (List.Forall_nil _) Hok (List.Forall_nil _) E) as Hl.
  destruct (stacktraces_read (tw_stacktracesFile w)) as (t & bs & Et & Hr & Hf).
  { apply Forall_forall. intros [id st] [H1 H2]%Hin. split; [by eapply line_ids_u32|]. by apply (traces_known id). }
  assert (E1 : bs.*1 = (tw_stacktracesFile w).*1) by by eapply blocks_ids.
  exists w, t, bs. split_and!; try done; [by rewrite E1| |].
  - intros id. rewrite E1, list_elem_of_fmap. split.
    + intros ([i st] & -> & [H1 H2]%Hin). split; [done|by exists st].
    + intros [H1 [st H2]]. exists (id, st). split; [done|]. by apply Hin.
  - intros id fs st [k Hk]%list_elem_of_lookup Hst. destruct (Forall2_lookup_r _ _ _ _ _ Hf Hk) as ([i st'] & He & E2 & Hd).
    cbn in E2, Hd. subst i. apply list_elem_of_lookup_2, Hin in He as [_ He]. by simplify_eq.
Qed.

(** C40: the destructor of either tracker, when dumps are asked for, writes a file from which a
    reader gets the traces the tracker knows, each exactly once, with their frames; the external
    tracker prints the ids it hands out, the static one prints them without their flag.  Every trace
    of the trackers is [showable]: libunwind finds a function and a file for its first frame
    (otherwise the code prints a buffer without a value), no name of a function has a space or a
    newline and no path of a file has a newline. *)
Theorem dumps_read {hex_fmt : HexFmt} {symbols : Symbolizer} {laws : SymbolizerLaws}
    (xxh : list Z → Z) (progname : text) (pid : Z) (hash_order : gset Z → list Z) (uninit : list Z) (log : Log)
    (Filename Filename' : option text) (t : StacktraceTracker) (t' : StaticTracker) (traces : list (list Z)) :
  (∀ X, hash_order X ≡ₚ elements X) → zlen uninit = MaxUnwindDepth →
  dyn_ok t → dyn_room 0 t → (∀ id tr, dyn_knows t id tr → showable tr) →
  static_ok xxh t' traces → (∀ tr, tr ∈ traces → showable tr) →
  ∃ out out' bs bs',
    StacktraceTracker_dtor progname pid hash_order uninit true Filename log t
      = Ret (Some (dump_filename progname pid log (str "external_stacktraces") Filename, out))
    ∧ read_dump (str "External stacktraces:") out = Some bs ∧ dump_of dyn_knows (fun id => id) t bs
    ∧ StaticTracker_dtor progname pid uninit true Filename' log t'
      = Ret (Some (dump_filename progname pid log (str "inner_stacktraces") Filename', out'))
    ∧ read_dump (str "Inner stacktraces:") out' = Some bs'
    ∧ dump_of (static_knows xxh) (fun id => Z.lxor id FixedTrackerIdFlag) t' bs'.
Proof.
  intros Hp Hu H1 H2 H3 H4 H5. destruct (external_dump progname pid hash_order uninit Hp Hu t log Filename H1 H2 H3) as (out & bs & E1 & R1 & D1).
  destruct (inner_dump progname pid uninit Hu xxh t' traces log Filename' H4 H5) as (out' & bs' & E2 & R2 & D2).
  by exists out, out', bs, bs'.
Qed.

(** ** Examples *)

(** Digits of a number, least significant first. *)
Fixpoint hex_digits (fuel : nat) (z : Z) : list Z :=
  match fuel with O => [] | S fuel => z mod 16 :: (if z <? 16 then [] else hex_digits fuel (z / 16)) end.

Lemma hex_digits_spec fuel : ∀ z, 0 ≤ z < 16 ^ Z.of_nat fuel → (0 < fuel)%nat →
  Forall digit (hex_digits fuel z) ∧ hex_digits fuel z ≠ [] ∧ le (hex_digits fuel z) = z.
Proof.
  induction fuel as [|fuel IH]; intros z Hz Hf; [lia|]. cbn [hex_digits].
  assert (Hd : digit (z mod 16)) by (apply Z.mod_pos_bound; lia). pose proof (Z.div_mod z 16 ltac:(lia)) as E.
  destruct (Z.ltb_spec z 16) as [Hlt|Hge].
  - split; [by constructor|]. split; [done|]. cbn. rewrite Z.mod_small by lia. lia.
  - rewrite Nat2Z.inj_succ, Z.pow_succ_r in Hz by lia.
    destruct (IH (z / 16)) as (H1 & H2 & H3); [split; [apply Z.div_pos; lia|apply Z.div_lt_upper_bound; lia]| |].
    { destruct fuel; [cbn in Hz; lia|lia]. }
    split; [by constructor|]. split; [done|]. change (z mod 16 + 16 * le (hex_digits fuel (z / 16)) = z). lia.
Qed.

#[export] Program Instance plain_hex : HexFmt := { fmt_hex z := hexc <$> reverse (hex_digits 16 z) }.
Next Obligation.
  intros z Hz. destruct (hex_digits_spec 16 z) as (H & _); [unfold is_u64 in Hz; cbn; lia|lia|].
  apply Forall_fmap, Forall_reverse. eapply Forall_impl; [exact H|]. intros d Hd. exists d. by apply hexc_cases.
Qed.
Next Obligation.
  intros z Hz. destruct (hex_digits_spec 16 z) as (H1 & H2 & H3); [unfold is_u64 in Hz; cbn; lia|lia|]. by rewrite parse_digits, H3.
Qed.

(** Nothing is found for address 2. *)
Definition example_symbols : Symbolizer := {|
  proc_name ip := if ip =? 2 then None else Some (str "main");
  elf_filename ip := if ip =? 2 then None else Some (str "/my apps/app");
  elf_offset ip := None;
  dli_fbase ip := if ip =? 2 then None else Some 1;
|}.
Lemma example_symbols_laws : SymbolizerLaws (H := example_symbols).
Proof.
  split. by cbn.
Qed.

Lemma example_plain ip : plain_frame (symbols := example_symbols) ip.
Proof.
  split; cbn; intros t; destruct (ip =? 2); intros E; simplify_eq; try split; by apply (bool_decide_unpack _); vm_compute.
Qed.

Lemma example_showable ip tr : ip ≠ 2 → Forall is_u64 (ip :: tr) → showable (symbols := example_symbols) (ip :: tr).
Proof.
  intros Hip Htr. split; [done|]. split; [|apply Forall_forall; intros; apply example_plain].
  cbn. rewrite (proj2 (Z.eqb_neq ip 2) Hip). by split; eexists.
Qed.

Definition example_trace (l : list Z) : Stacktrace := mkStacktrace (zlen l) 0 (l ++ replicate (64 - length l) 0).

(** The second frame is shown with the names of the first. *)
Lemma example_describe : Stacktrace_Describe (symbols := example_symbols) (example_trace [26; 2])
  = Ret (str "0x1a: /my apps/app + 0x19 : main" ++ [10] ++ str "0x2: /my apps/app + 0x0 : main" ++ [10]).
Proof. vm_compute. reflexivity. Qed.

Definition described_finder (id : Z) : option Stacktrace := if bool_decide (id ∈ [5; 7]) then Some (example_trace [id; 2]) else None.

Lemma described_finder_known id st : described_finder id = Some st →
  showable (symbols := example_symbols) (GetTrace st).
Proof.
  unfold described_finder. case_bool_decide as Hin; [|done]. intros [= <-].
  repeat (apply elem_of_cons in Hin as [->|Hin]; [apply example_showable; [lia|by repeat constructor]|]). by apply elem_of_nil in Hin.
Qed.

Lemma described_text_witness : ∃ (w : TextWriter (gmap Z AllocSummary)) t,
  trun elements (fun id => Ret (described_finder id)) (TextWriter_ctor example_cfg) (example_ops ++ [TFlush 2]) = Ret w
  ∧ stacktraces_text (symbols := example_symbols) (tw_stacktracesFile w) = Ret t
  ∧ read_stacktraces (str "TraceId: ") (lines_of t)
    = Some [(5, [mkFrame 5 (str "/my apps/app") 4 (str "main"); mkFrame 2 (str "/my apps/app") 0 (str "main")])].
Proof.
  destruct (described_text (symbols := example_symbols) (laws := example_symbols_laws) (X := gmap Z AllocSummary) elements
    (fun _ => reflexivity _) described_finder (fun id => Ret (described_finder id)) (fun _ => eq_refl) described_finder_known)
    with (cfg := example_cfg) (ops := example_ops ++ [TFlush 2]) as (w & t & bs & Hw & Et & Hr & _).
  - unfold counts_ok. cbn. lia.
  - apply Forall_app_2; [apply example_ops_ok|]. by apply List.Forall_cons; [|apply List.Forall_nil].
  - exists w, t. split; [done|]. split; [done|]. vm_compute in Hw. injection Hw as <-. vm_compute in Et. injection Et as <-. by vm_compute.
Defined.

(** A trace in either tracker. *)
Definition dumped_external : StacktraceTracker :=
  match Tracker_InsertStacktrace (PostponedConstruct StacktraceTracker_ctor) (example_trace [26; 2]) with Ret (_, t) => t | _ => StacktraceTracker_ctor end.
Definition dumped_inner : StaticTracker :=
  match Static_InsertStacktrace (fun _ => 0) StaticTracker_ctor (example_trace [26; 2]) with Ret (_, t) => t | _ => StaticTracker_ctor end.

Lemma example_trace_ok : st_ok (example_trace [26; 2]) ∧ addresses (example_trace [26; 2]).
Proof. split; [by split|]. by repeat constructor. Qed.

Lemma dumped_external_ok : dyn_ok dumped_external ∧ dyn_room 0 dumped_external ∧ ∀ id tr, dyn_knows dumped_external id tr → tr = [26; 2].
Proof.
  destruct (dyn_insert 0 (PostponedConstruct StacktraceTracker_ctor) (example_trace [26; 2])) as (id & t & E & H1 & H2 & _ & _ & Hk);
    [apply dyn_init_ok|by apply dyn_init_room|apply example_trace_ok|].
  assert (Et : dumped_external = t) by (unfold dumped_external; by rewrite E). rewrite Et. split; [done|]. split; [done|].
  intros id' tr Hk'. assert (id' = id) as ->; [|by rewrite (dyn_knows_fun _ _ _ _ Hk' Hk)].
  destruct Hk as (s & P & Es & _ & Hid & _), Hk' as (s' & P' & Es' & _ & Hid' & _). simplify_eq.
  vm_compute in Es. injection Es as <-.
  apply elem_of_elements in Hid, Hid'. vm_compute in Hid, Hid'. apply list_elem_of_singleton in Hid, Hid'. congruence.
Qed.

Lemma dumped_inner_ok : ∃ traces, static_ok (fun _ => 0) dumped_inner traces ∧ ∀ tr, tr ∈ traces → tr = [26; 2].
Proof.
  destruct (static_insert (fun _ => 0) StaticTracker_ctor [] (example_trace [26; 2])) as (id & t & traces & E & H1 & _ & _ & Hk);
    [apply static_init|apply example_trace_ok|].
  assert (Et : dumped_inner = t) by (unfold dumped_inner; by rewrite E). exists traces. rewrite Et. split; [done|].
  assert (Hc : zlen traces = 1) by (rewrite <- (sk_count _ _ _ H1), <- Et; vm_compute; reflexivity).
  assert (Hid : id = 2 ^ 31) by (vm_compute in E; injection E as <- _; reflexivity). clear E Et.
  destruct Hk as [(P & k & HP & Eid & Hk)|Hk]; [|rewrite Hid in Hk; clear -Hk; exfalso; by vm_compute in Hk].
  rewrite (static_traces _ t P traces HP H1) in Hk. intros tr [j Hj]%list_elem_of_lookup.
  apply lookup_lt_Some in Hj as L1. apply lookup_lt_Some in Hk as L2. unfold zlen in Hc. assert (j = k) as -> by lia. rewrite Hk in Hj. by injection Hj as <-.
Qed.

Lemma dumps_read_witness : ∃ out out',
  StacktraceTracker_dtor (symbols := example_symbols) (str "app") 7 elements (replicate 64 0) true None (Log_start (mkProcess ∅ ∅)) dumped_external
    = Ret (Some (str ".//memhawk_app_7_external_stacktraces.log", out))
  ∧ StaticTracker_dtor (symbols := example_symbols) (str "app") 7 (replicate 64 0) true (Some (str "inner")) (Log_start (mkProcess ∅ ∅)) dumped_inner
    = Ret (Some (str "inner", out'))
  ∧ read_dump (str "Inner stacktraces:") out'
    = Some [(0, [mkFrame 26 (str "/my apps/app") 25 (str "main"); mkFrame 2 (str "/my apps/app") 0 (str "main")])].
Proof.
  destruct dumped_external_ok as (H1 & H2 & H3), dumped_inner_ok as (traces & H4 & H5).
  destruct (dumps_read (symbols := example_symbols) (laws := example_symbols_laws) (fun _ => 0) (str "app") 7 elements (replicate 64 0)
    (Log_start (mkProcess ∅ ∅)) None (Some (str "inner")) dumped_external dumped_inner traces)
    as (out & out' & bs & bs' & E1 & _ & _ & E2 & R2 & _);
    [done|done|exact H1|exact H2| |exact H4| |].
  - intros id tr ->%H3. apply example_showable; [lia|by repeat constructor].
  - intros tr ->%H5. apply example_showable; [lia|by repeat constructor].
  - exists out, out'. split; [exact E1|]. split; [exact E2|]. vm_compute in E2. injection E2 as <-. by vm_compute.
Defined.
