(* ===== verification/Shutdown.v ===== *)
(** * The end of a process ([MemHawk::Stop], [~MemHawk], [deinit_memhawk])

    When the library is unloaded the profiler is stopped and logs what it holds: numbers of
    trackers and traces, and one line for every thread tracker ([PrintTracker]).  How [Stop] and the
    worker come together is in [Worker]; here is what is logged, from the state the profiler
    is left in, down to the text in the log.  The capacity of a map of abseil is a
    parameter. *)

From Stdlib Require Import ZArith Lia.
From stdpp Require Import base numbers list gmap strings.
From S2P Require Import Prelude FromChars Doubles Algo AllocInfo Stacktrace LruCache StacktraceTree IStacktraceTracker StacktraceTracker StaticTracker ThreadTracker MemHawk Counters ParseStruct Config Logging ReportText.

Definition float : Z := 24.

(** A number of type [size_t] as [printf] gets it. *)
Definition size_t (n : Z) : text := print_int (u64 n).

Section Shutdown.
Context {I W : Type} `{!SequencedHash I CompressedStacktrace Z} (capacity : SummariesMap → Z).

(** ** Lines *)

Definition info (func : string) (message : text) : LogMessage := mkMessage Info (str func) message.

Definition cache_miss_ratio (misses usages : Z) : real :=
  if usages =? 0 then of_int float 0 else fl_div float (of_int float misses) (of_int float usages).

Definition PrintTracker (t : ThreadTracker I) : LogMessage :=
  let cacheMissRatio := cache_miss_ratio (tt_cacheMisses t) (tt_cacheUsages t) in
  info "PrintTracker"
    (str "TrackerId: " ++ print_int (tt_trackerId t) ++ str ", allocSummaries: (" ++ size_t (Z.of_nat (size (tt_summaries t)))
     ++ str "," ++ size_t (capacity (tt_summaries t)) ++ str "), lru: " ++ size_t (Size (V := Z) (tt_lru t))
     ++ str ", cache: (miss-ratio: " ++ print_fixed3 cacheMissRatio ++ str ", misses: " ++ print_int (tt_cacheMisses t)
     ++ str ", usages: " ++ print_int (tt_cacheUsages t) ++ str "), allocs: " ++ print_int (tt_totalAllocs t)
     ++ str ", deallocs: " ++ print_int (tt_totalDeallocs t)).

Definition StacktraceTracker_Describe (t : StacktraceTracker) : outcome LogMessage :=
  s ← deref t;
  Ret (info "Describe" (str "StacktraceTracker: nodes: " ++ size_t (zlen (nodes s)) ++ str ", edges: " ++ size_t (GetEdgesCount (tree s))
                        ++ str ", ptrMap: " ++ size_t (GetPtrMapSize (tree s)))).

(** What [Stop] logs around the end of the worker. *)
Definition Stop (s : MemHawk I W) : outcome (list LogMessage) :=
  inner ← Static_StacktracesCount (m_innerBtTracker s);
  external ← Tracker_StacktracesCount (m_btTracker s);
  described ← StacktraceTracker_Describe (m_btTracker s);
  exiting ← the (m_exitingThreadsTracker s);
  innerTracker ← the (m_innerTracker s);
  Ret ([info "Stop" (str "Stopping memhawk tracker thread");
        info "Stop" (str "Total trackers: " ++ size_t (zlen (m_thTrackers s)) ++ str ", empty: " ++ size_t (zlen (m_finishedTrackers s))
                     ++ str ", max postponed: " ++ size_t (m_maxPostponedSize s));
        info "Stop" (str "Inner traces: (" ++ size_t inner ++ str ", " ++ size_t (GetStorageSize (m_innerBtTracker s)) ++ str "), external: "
                     ++ size_t external);
        described;
        info "Stop" (str "ExternalTrackers")]
       ++ (PrintTracker <$> m_thTrackers s)
       ++ [info "Stop" (str "ExitingThreadsTracker"); PrintTracker exiting; info "Stop" (str "InnerTracker"); PrintTracker innerTracker]).

Definition MemHawk_dtor (m_stopped : bool) (s : MemHawk I W) : outcome (list LogMessage) := if m_stopped then Ret [] else Stop s.

(** [gl_memhawk] may be null; the object is not destroyed. *)
Definition deinit_log (gl_memhawk : option (MemHawk I W)) (log : Log) : outcome Log :=
  match gl_memhawk with
  | Some s => msgs ← Stop s; Ret (LogDeinit (log_all msgs log))
  | None => Ret (LogDeinit log)
  end.
End Shutdown.

(** ** Reading *)

Record tracker_line := mkTrackerLine {
  tl_id : Z; tl_summaries : Z; tl_capacity : Z; tl_lru : Z; tl_ratio : bool * Z; tl_misses : Z; tl_usages : Z; tl_allocs : Z; tl_deallocs : Z;
}.

Definition tracker_format : list piece :=
  [Lit (str "TrackerId: "); Num; Lit (str ", allocSummaries: ("); Num; Lit (str ","); Num; Lit (str "), lru: "); Num;
   Lit (str ", cache: (miss-ratio: "); Num; Lit (str ", misses: "); Num; Lit (str ", usages: "); Num; Lit (str "), allocs: "); Num;
   Lit (str ", deallocs: "); Num].

Definition read_tracker (t : text) : option tracker_line :=
  match scan tracker_format t with
  | Some [id; summaries; capacity; lru; ratio; misses; usages; allocs; deallocs] =>
    id ← read_int T_uint32 id; summaries ← read_int T_uint64 summaries; capacity ← read_int T_uint64 capacity; lru ← read_int T_uint64 lru;
    ratio ← read_fixed3 ratio; misses ← read_int T_uint64 misses; usages ← read_int T_uint64 usages;
    allocs ← read_int T_uint64 allocs; deallocs ← read_int T_uint64 deallocs;
    Some (mkTrackerLine id summaries capacity lru ratio misses usages allocs deallocs)
  | _ => None
  end.

Definition totals_format : list piece :=
  [Lit (str "Total trackers: "); Num; Lit (str ", empty: "); Num; Lit (str ", max postponed: "); Num].

Definition read_totals (t : text) : option (Z * Z * Z) :=
  match scan totals_format t with
  | Some [all; empty; postponed] =>
    all ← read_int T_uint64 all; empty ← read_int T_uint64 empty; postponed ← read_int T_uint64 postponed; Some (all, empty, postponed)
  | _ => None
  end.

(** The lines about trackers in a log. *)
Definition tracker_lines (msgs : list LogMessage) : list tracker_line := omap (fun m => read_tracker (lm_text m)) msgs.

(** ** The ratio *)

(** The ratio in thousandths: between none and all, exact at both ends, and to half a
    thousandth while the counts are exact as [float]. *)
Definition ratio_shown (misses usages : Z) (v : bool * Z) : Prop :=
  v.1 = false ∧ 0 ≤ v.2 ≤ 1000 ∧ (misses = 0 → v.2 = 0) ∧ (0 < misses → misses = usages → v.2 = 1000)
  ∧ (usages < 2 ^ 24 → 2 ^ 24 * Z.abs (v.2 * usages - 1000 * misses) ≤ 2 ^ 23 * usages + 1000 * misses).

Lemma ratio_spec misses usages (x := cache_miss_ratio misses usages) : 0 ≤ misses ≤ usages →
  0 ≤ fl_num x ∧ 0 < fl_den x ∧ ratio_shown misses usages (fl_neg x, thousandths x).
Proof.
  intros Hm. unfold x, cache_miss_ratio. destruct (Z.eqb_spec usages 0) as [->|Hu].
  { assert (misses = 0) as -> by lia. split; [done|]. split; [done|]. unfold ratio_shown.
    change (thousandths (of_int float 0)) with 0. change (fl_neg (of_int float 0)) with false. cbn. lia. }
  set (y := fl_div _ _ _). destruct (quotient_near float misses usages ltac:(done) Hu) as (Hn & Hd & Hs & He). fold y in Hn, Hd, Hs, He.
  pose proof (thousandths_nearest y Hd) as Hk. set (k := thousandths y) in *.
  destruct (of_int_near float ltac:(done) misses) as (D1 & N1 & _), (of_int_near float ltac:(done) usages) as (D2 & _).
  pose proof (of_int_zero float ltac:(done) usages Hu) as N2. pose proof (of_int_mono float ltac:(done) misses usages ltac:(lia)) as Hmono.
  destruct (round_to_le_one float ltac:(done) (xorb (fl_neg (of_int float misses)) (fl_neg (of_int float usages)))
    (fl_num (of_int float misses) * fl_den (of_int float usages)) (fl_den (of_int float misses) * fl_num (of_int float usages)))
    as [_ Hle]; [lia|lia|]. change (round_to _ _ _ _) with y in Hle.
  destruct (round_to_near float ltac:(done) (xorb (fl_neg (of_int float misses)) (fl_neg (of_int float usages)))
    (fl_num (of_int float misses) * fl_den (of_int float usages)) (fl_den (of_int float misses) * fl_num (of_int float usages)))
    as [_ Hnear]; [lia|lia|]. change (round_to _ _ _ _) with y in Hnear.
  assert (Hk0 : 0 ≤ k) by (apply round_div_ge; lia). unfold nearest3 in Hk.
  split; [done|]. split; [done|]. split; [cbn [fst]; rewrite Hs, !(proj2 (Z.ltb_ge _ _)) by lia; done|]. cbn [snd]. split_and!.
  - done.
  - nia.
  - intros E0. assert (E : fl_num y = 0) by (unfold y; rewrite E0; reflexivity). rewrite E in Hk.
    destruct (decide (k = 0)) as [|Hne]; [done|]. nia.
  - intros Hpos <-. set (N := fl_num (of_int float misses) * fl_den (of_int float misses)) in *.
    replace (fl_den (of_int float misses) * fl_num (of_int float misses)) with N in Hnear by lia.
    assert (HN : 0 < N) by nia. replace (fl_num y * N - N * fl_den y) with (N * (fl_num y - fl_den y)) in Hnear by lia.
    rewrite Z.abs_mul, (Z.abs_eq N) in Hnear by lia. change (2 ^ float) with 16777216 in Hnear.
    assert (16777216 * Z.abs (fl_num y - fl_den y) ≤ fl_den y) by nia.
    assert (16777216 * Z.abs (k * fl_den y - 1000 * fl_den y) ≤ 16777216 * Z.abs (k * fl_den y - 1000 * fl_num y) + 1000 * fl_den y) by lia.
    assert (Z.abs (k - 1000) * fl_den y < fl_den y) by (rewrite <- (Z.abs_eq (fl_den y)) at 1 by lia; rewrite <- Z.abs_mul; lia). nia.
  - intros Hlt. specialize (He k Hk0 Hk). rewrite !Z.abs_eq in He by lia. apply He; change (2 ^ float) with (2 ^ 24); lia.
Qed.

(** ** Reading a line *)

Lemma plain_numeral z : numeral (print_int z) (print_int z).
Proof. destruct (print_int_number z) as [H1 H2]. by exists 0%nat. Qed.

Lemma fixed_numeral x : 0 ≤ fl_num x → 0 < fl_den x → numeral (print_fixed3 x) (print_fixed3 x).
Proof. intros Hn Hd. destruct (fixed3_number (fl_neg x) (thousandths x)) as [H1 H2]; [apply round_div_ge; lia|]. by exists 0%nat. Qed.

Ltac scan_number := first [rewrite scan_lit | erewrite scan_num; [|first [apply plain_numeral|by apply fixed_numeral]|by intros c [= <-]]].

Section lines.
Context {I : Type} `{!SequencedHash I CompressedStacktrace Z} (capacity : SummariesMap → Z).

(** A line tells of a tracker. *)
Definition tells (t : ThreadTracker I) (l : tracker_line) : Prop :=
  tl_id l = GetTrackerId t ∧ tl_summaries l = u64 (Z.of_nat (size (tt_summaries t))) ∧ tl_capacity l = u64 (capacity (tt_summaries t))
  ∧ tl_lru l = u64 (Size (V := Z) (tt_lru t)) ∧ tl_misses l = tt_cacheMisses t ∧ tl_usages l = tt_cacheUsages t
  ∧ tl_allocs l = tt_totalAllocs t ∧ tl_deallocs l = tt_totalDeallocs t ∧ ratio_shown (tt_cacheMisses t) (tt_cacheUsages t) (tl_ratio l).

Lemma PrintTracker_read k t : counted k t → k < 2 ^ 64 → ∃ l, read_tracker (lm_text (PrintTracker capacity t)) = Some l ∧ tells t l.
Proof.
  intros [H1 H2 H3 H4] Hk. destruct (ratio_spec (tt_cacheMisses t) (tt_cacheUsages t) H1) as (Hn & Hd & Hr).
  set (x := cache_miss_ratio _ _) in *. pose proof (H4 true) as A1. pose proof (H4 false) as A2. cbn [counter] in A1, A2.
  exists (mkTrackerLine (tt_trackerId t) (u64 (Z.of_nat (size (tt_summaries t)))) (u64 (capacity (tt_summaries t))) (u64 (Size (V := Z) (tt_lru t)))
    (fl_neg x, thousandths x) (tt_cacheMisses t) (tt_cacheUsages t) (tt_totalAllocs t) (tt_totalDeallocs t)).
  split; [|done]. unfold read_tracker, tracker_format, PrintTracker, info, size_t. cbn [lm_text]. fold x.
  rewrite <- (app_nil_r (print_int (tt_totalDeallocs t))). do 18 scan_number. cbn [scan mbind option_bind].
  pose proof (u64_range (Z.of_nat (size (tt_summaries t)))). pose proof (u64_range (capacity (tt_summaries t))).
  pose proof (u64_range (Size (V := Z) (tt_lru t))). unfold is_u32, is_u64 in *.
  unfold print_fixed3. rewrite read_fixed3_print by (apply round_div_ge; lia).
  rewrite !read_int_print by (cbn; lia || done). done.
Qed.

Lemma other_line m : read_tracker (lm_text m) = None → ∀ ms, tracker_lines (m :: ms) = tracker_lines ms.
Proof. intros H ms. unfold tracker_lines. cbn [omap list_omap]. by rewrite H. Qed.

Lemma tracker_lines_app a b : tracker_lines (a ++ b) = tracker_lines a ++ tracker_lines b.
Proof. apply omap_app. Qed.

Lemma trackers_read k ts : Forall (counted k) ts → k < 2 ^ 64 → ∃ ls, tracker_lines (PrintTracker capacity <$> ts) = ls ∧ Forall2 tells ts ls.
Proof.
  intros Hts Hk. induction Hts as [|t ts Ht _ (ls & E & Hf)]; [by exists []|].
  destruct (PrintTracker_read k t Ht Hk) as (l & El & Hl). exists (l :: ls). split; [|by constructor].
  unfold tracker_lines in *. cbn [fmap list_fmap omap list_omap]. rewrite El. by f_equal.
Qed.

Lemma totals_read (n f m : Z) : read_totals (str "Total trackers: " ++ size_t n ++ str ", empty: " ++ size_t f ++ str ", max postponed: " ++ size_t m)
  = Some (u64 n, u64 f, u64 m).
Proof.
  unfold read_totals, totals_format, size_t. rewrite <- (app_nil_r (print_int (u64 m))). do 6 scan_number. cbn [scan mbind option_bind].
  pose proof (u64_range n). pose proof (u64_range f). pose proof (u64_range m). unfold is_u64 in *. by rewrite !read_int_print by (cbn; lia || done).
Qed.
End lines.

(** ** Property *)

Definition sum_by (f : tracker_line → Z) (ls : list tracker_line) : Z := foldr (fun l acc => f l + acc) 0 ls.

Lemma sum_tells {I} `{!SequencedHash I CompressedStacktrace Z} capacity (ts : list (ThreadTracker I)) ls : Forall2 (tells capacity) ts ls →
  sum_by tl_allocs ls = total true ts ∧ sum_by tl_deallocs ls = total false ts.
Proof.
  induction 1 as [|t l ts ls (_ & _ & _ & _ & _ & _ & H1 & H2 & _) _ [IH1 IH2]]; [done|]. cbn. unfold sum_by in IH1, IH2.
  by rewrite H1, H2, IH1, IH2.
Qed.

(** C23: after any calls of the profiler its [Stop] meets no null pointer and logs a line for
    every thread tracker, then for the one of exiting threads and the inner one; a reader finds in
    each the exact id and counters, and a miss ratio between 0.000 and 1.000 that is within half a
    thousandth of the true one while the counts are below 2^24.  The allocations and
    deallocations of the lines add up to the ones that were tracked, but for operations in the
    queue and those that did not fit into it. *)
Theorem stop_report {I} `{!SequencedHash I CompressedStacktrace Z} `{!SequencedHashLaws I CompressedStacktrace Z} (capacity : SummariesMap → Z)
    (avx : bool) (xxh : list Z → Z) (uninit : list Z) (cfg : MemHawkConfig) (cs : list call) :
  cfg_ok cfg → Forall call_ok cs → 1 + 64 * zlen cs < 2 ^ 31 →
  ∃ s es exiting inner msgs ls lost, exec_all (I := I) avx xxh uninit (start cfg) cs = Ret (s, es) ∧ Stop capacity s = Ret msgs
    ∧ m_exitingThreadsTracker s = Some exiting ∧ m_innerTracker s = Some inner
    ∧ (∃ m, msgs !! 1%nat = Some m ∧ read_totals (lm_text m) = Some (zlen (m_thTrackers s), u64 (zlen (m_finishedTrackers s)), u64 (m_maxPostponedSize s)))
    ∧ tracker_lines msgs = ls ∧ Forall2 (tells capacity) (m_thTrackers s ++ [exiting; inner]) ls
    ∧ sum_by tl_allocs ls + count true (po_event <$> m_postponed s) + count true lost = count true es
    ∧ sum_by tl_deallocs ls + count false (po_event <$> m_postponed s) + count false lost = count false es
    ∧ (lost = [] ∨ cfg_MaxPostponed cfg < zlen es).
Proof.
  intros Hcfg Hcs Hn. destruct (run_from_start avx xxh uninit cfg cs 0 Hcfg Hcs) as (s & es & E & Hinv & Hlater); [unfold zlen in Hn; lia|].
  destruct (run_tally avx xxh uninit cs 0 (start cfg) s [] es (start_tally cfg)) as [Hc (lost & Ht & Hl)]; [lia|lia|change (zlen []) with 0; lia|done|].
  rewrite (lt_cfg _ _ _ Hlater) in Hl. pose proof (mi_caches _ _ _ _ _ Hinv) as [_ (st & paths & Es & _) _ Hth _ (exiting & Eex & _) _].
  destruct (mi_books _ _ _ _ _ Hinv) as [b Hb]. destruct (bk_inner _ _ _ _ Hb) as (inner & Einn & _).
  unfold all_trackers in Hc, Ht. rewrite Eex, Einn in Hc, Ht. cbn [option_list app] in Hc, Ht.
  assert (Hp : m_thTrackers s ++ [inner; exiting] ≡ₚ m_thTrackers s ++ [exiting; inner]) by (apply Permutation_app_head, perm_swap).
  rewrite Hp in Hc. assert (Ht' : ∀ b, total b (m_thTrackers s ++ [exiting; inner]) + count b (po_event <$> m_postponed s) + count b lost = count b es)
    by (intros b'; rewrite <- Ht; by rewrite Hp).
  destruct (trackers_read capacity _ (m_thTrackers s ++ [exiting; inner]) Hc ltac:(lia)) as (ls & El & Hls).
  eassert (Estop : Stop capacity s = Ret _).
  { unfold Stop, Static_StacktracesCount, Tracker_StacktracesCount, StacktraceTracker_Describe, deref. rewrite Es, Eex, Einn. reflexivity. }
  eexists s, es, exiting, inner, _, ls, lost. split; [done|]. split; [exact Estop|]. split; [done|]. split; [done|].
  split; [eexists; split; [reflexivity|]; cbn [lm_text info]; rewrite totals_read; rewrite (u64_small (zlen (m_thTrackers s))); [done|unfold is_u64; pose proof (zlen_nonneg (m_thTrackers s)); lia]|].
  destruct (sum_tells capacity _ _ Hls) as [S1 S2]. rewrite S1, S2. split; [|split; [exact Hls|split; [apply Ht'|split; [apply Ht'|]]]].
  - rewrite <- El, fmap_app, !tracker_lines_app. cbn [app fmap list_fmap]. rewrite !other_line by reflexivity. cbn [app].
    unfold tracker_lines. done.
  - destruct lost; [by left|right; by apply Hl].
Qed.

Lemma stop_report_witness :
  let st l := mkStacktrace (zlen l) 0 (l ++ replicate (64 - length l) 7) in
  let cs := [CAlloc 0 (AllocInfo_ctor 100 16) (st [1; 2; 3]) true; CAlloc 0 (AllocInfo_ctor 50 16) (st [1; 2; 3]) true;
             CDealloc 1 (AllocInfo_ctor 7 16) true] in
  ∃ s es msgs ls, exec_all (I := list (CompressedStacktrace * Z)) true (fun _ => 0) [] (start (mkMemHawkConfig true 512 256 8)) cs = Ret (s, es)
    ∧ Stop (fun m => Z.of_nat (size m)) s = Ret msgs ∧ tracker_lines msgs = ls ∧ sum_by tl_allocs ls = 2 ∧ sum_by tl_deallocs ls = 1
    ∧ lm_text <$> (msgs !! 5%nat) = Some (str "TrackerId: 0, allocSummaries: (1,1), lru: 1, cache: (miss-ratio: 0.500, misses: 1, usages: 2), allocs: 2, deallocs: 0").
Proof.
  intros st cs.
  destruct (stop_report (I := list (CompressedStacktrace * Z)) (fun m => Z.of_nat (size m)) true (fun _ => 0) [] (mkMemHawkConfig true 512 256 8) cs)
    as (s & es & exiting & inner & msgs & ls & lost & E & Es & _ & _ & _ & El & _).
  - ground.
  - repeat constructor; try done; vm_compute; repeat constructor; congruence.
  - ground.
  - exists s, es, msgs, ls. split; [exact E|]. split; [exact Es|]. split; [exact El|]. vm_compute in E. injection E as <- <-.
    vm_compute in Es. injection Es as <-. rewrite <- El. by vm_compute.
Defined.

(** ** The file of the log *)

(** The library is unloaded: the lines are in the file of the log behind what it held, and the file is closed. *)
Lemma deinit_log_file {I W} `{!SequencedHash I CompressedStacktrace Z} capacity (s : MemHawk I W) msgs p fd name old new log :
  Stop capacity s = Ret msgs → MainLogIntoFile (gl_loggingConfig log) = true → logging_to p fd name 0 old new log →
  ∃ log', deinit_log capacity (Some s) log = Ret log'
    ∧ ps_files (lg_process log') !! name = Some (overlay (new ++ log_text (gl_loggingLevel log) msgs) old)
    ∧ ps_fds (lg_process log') = delete fd (ps_fds p).
Proof.
  intros E Hm Ht. destruct (log_all_to (gl_loggingLevel log) msgs p fd name 0 old new log ltac:(lia) eq_refl Ht) as [[H1 H2 H3 _] Hc].
  unfold deinit_log. rewrite E. step_ret. eexists. split; [done|]. unfold LogDeinit. rewrite Hc, Hm. cbn. rewrite H1, H2, H3.
  rewrite take_0, drop_0. split; [done|]. by rewrite delete_insert_eq.
Qed.

(** Before the profiler is constructed completely its destructor, unless it was stopped, and [Stop] read null pointers. *)
Lemma dtor_early {I W} `{!SequencedHash I CompressedStacktrace Z} capacity cfg :
  MemHawk_dtor (W := W) capacity false (MemHawk_ctor cfg) = Undef ∧ MemHawk_dtor (W := W) capacity true (MemHawk_ctor cfg) = Ret [].
Proof. done. Qed.
