(* ===== verification/Writers.v ===== *)
(** * The writers together ([writers/adaptor.h], [writers/factory.h])

    The adaptor forwards every call to its writers in order; the factory makes it from the
    configuration.  The virtual functions of a writer are functions on a sum of the three
    kinds.  What a flush sees of the system, the clock, the modules and resource usage, is an
    argument. *)

From Stdlib Require Import ZArith Lia.
From stdpp Require Import base numbers list gmap strings.
From S2P Require Import Prelude FromChars ParseStruct Algo AllocInfo Stacktrace IStacktraceTracker StacktraceTree LruCache StaticTracker ThreadTracker MemHawk Config HeaptrackWriter Snapshots ProtobufWriter TextWriter.

(** The system at one flush, and at construction. *)
Record Env := mkEnv { en_now : Z; en_proto : ProtoEnv; en_heaptrack : FlushEnv }.
Record System := mkSystem {
  sy_shortName : bytes; sy_pid : Z; sy_startNs : Z; sy_env : ProtoEnv;
  sy_exe : option (list Z); sy_cmdline : list Z; sy_pageSize : Z; sy_physPages : Z;
}.

(** [TextWriterConfig] as the writer reads it. *)
Definition index_config (name : string) (cfg : object) : IndexConfig :=
  let at_ := fun key : string => [str "text_writer"; str name; str key] in
  mkIndexConfig (get_bool (at_ "enabled") cfg) (get_size (at_ "by_size_count") cfg) (get_size (at_ "by_total_count") cfg).
Definition text_config (cfg : object) : WriterConfig :=
  mkWriterConfig (index_config "ext" cfg) (index_config "int" cfg).

Definition writer_enabled (name : string) (cfg : object) : bool := get_bool [str name; str "enabled"] cfg.

Section Writers.
Context {I : Type} `{!SummaryIndex I} (hash_order : gset Z → list Z).
Context (serialize_info : proto_ProcessInfo → bytes) (serialize_snapshot : proto_Snapshot → bytes).
Context (ZSTD_compress : bytes → bytes) (progname : bytes).

Inductive AnyWriter :=
| WText (w : TextWriter I)
| WProto (w : ProtobufWriter)
| WHeaptrack (w : HeaptrackWriter).

Definition Any_UpdateModules (w : AnyWriter) : AnyWriter :=
  match w with
  | WText w => WText (Text_UpdateModules w)
  | WProto w => WProto (Proto_UpdateModules w)
  | WHeaptrack w => WHeaptrack (Heaptrack_UpdateModules w)
  end.

Definition Any_AccountSnapshot (m : SummariesMap) (total : AllocSummary) (w : AnyWriter) : AnyWriter :=
  match w with
  | WText w => WText (Text_AccountSnapshot w m total)
  | WProto w => WProto (Proto_AccountSnapshot w m total)
  | WHeaptrack w => WHeaptrack (Heaptrack_AccountSnapshot w m)
  end.

Definition Any_FlushData (env : Env) (finder : Z → outcome (option Stacktrace)) (w : AnyWriter) : outcome AnyWriter :=
  match w with
  | WText w => w ← Text_FlushData hash_order (en_now env) finder w; Ret (WText w)
  | WProto w =>
      w ← Proto_FlushData hash_order serialize_snapshot ZSTD_compress progname (en_proto env) finder w; Ret (WProto w)
  | WHeaptrack w => w ← Heaptrack_FlushData hash_order (en_heaptrack env) finder w; Ret (WHeaptrack w)
  end.

(** ** The adaptor *)

Abbreviation WritersAdaptor := (list AnyWriter).

Definition Adaptor_UpdateModules (ws : WritersAdaptor) : WritersAdaptor := Any_UpdateModules <$> ws.
Definition Adaptor_AccountSnapshot (ws : WritersAdaptor) (m : SummariesMap) (total : AllocSummary) : WritersAdaptor :=
  Any_AccountSnapshot m total <$> ws.
Fixpoint Adaptor_FlushData (env : Env) (finder : Z → outcome (option Stacktrace)) (ws : WritersAdaptor)
  : outcome WritersAdaptor :=
  match ws with
  | [] => Ret []
  | w :: ws => w ← Any_FlushData env finder w; ws ← Adaptor_FlushData env finder ws; Ret (w :: ws)
  end.
Definition AddWriter (ws : WritersAdaptor) (w : AnyWriter) : WritersAdaptor := ws ++ [w].

(** The adaptor as the profiler sees it; [system_at] tells what the n-th flush finds. *)
#[export] Instance adaptor_strategy (system_at : nat → Env) : IWriterStrategy (nat * WritersAdaptor) := {
  UpdateModules a := Ret (a.1, Adaptor_UpdateModules a.2);
  AccountSnapshot a m total := Ret (a.1, Adaptor_AccountSnapshot a.2 m total);
  FlushData finder a := ws ← Adaptor_FlushData (system_at a.1) finder a.2; Ret (S a.1, ws);
}.

(** ** The factory *)

Definition CreateWritersAdaptor (sys : System) (cfg : object) (finder : Z → outcome (option Stacktrace))
  : outcome WritersAdaptor :=
  let adaptor := [] in
  let adaptor := if writer_enabled "text_writer" cfg
                 then AddWriter adaptor (WText (TextWriter_ctor (text_config cfg))) else adaptor in
  adaptor ← (if writer_enabled "proto_writer" cfg then
               w ← ProtobufWriter_ctor hash_order serialize_info serialize_snapshot ZSTD_compress progname
                     (sy_shortName sys) (sy_pid sys) (sy_startNs sys) (sy_env sys) finder;
               Ret (AddWriter adaptor (WProto w))
             else Ret adaptor);
  if writer_enabled "heaptrack_writer" cfg then
    w ← HeaptrackWriter_ctor (sy_exe sys) (sy_cmdline sys) (sy_pageSize sys) (sy_physPages sys);
    Ret (AddWriter adaptor (WHeaptrack w))
  else Ret adaptor.

(** ** Runs *)

Section runs.
Context (finder : Z → outcome (option Stacktrace)).

Inductive wop := WAccount (m : SummariesMap) (total : AllocSummary) | WFlush (env : Env) | WModules.

Definition adaptor_exec (ws : WritersAdaptor) (op : wop) : outcome WritersAdaptor :=
  match op with
  | WAccount m total => Ret (Adaptor_AccountSnapshot ws m total)
  | WFlush env => Adaptor_FlushData env finder ws
  | WModules => Ret (Adaptor_UpdateModules ws)
  end.
Fixpoint adaptor_run (ws : WritersAdaptor) (ops : list wop) : outcome WritersAdaptor :=
  match ops with [] => Ret ws | op :: ops => ws ← adaptor_exec ws op; adaptor_run ws ops end.

(** One writer on its own. *)
Definition any_exec (w : AnyWriter) (op : wop) : outcome AnyWriter :=
  match op with
  | WAccount m total => Ret (Any_AccountSnapshot m total w)
  | WFlush env => Any_FlushData env finder w
  | WModules => Ret (Any_UpdateModules w)
  end.
Fixpoint any_run (w : AnyWriter) (ops : list wop) : outcome AnyWriter :=
  match ops with [] => Ret w | op :: ops => w ← any_exec w op; any_run w ops end.

Lemma adaptor_exec_forwards op ws ws' : Forall2 (fun w w' => any_exec w op = Ret w') ws ws' → adaptor_exec ws op = Ret ws'.
Proof.
  intros H. destruct op as [m total|env|]; cbn [adaptor_exec any_exec] in *.
  - unfold Adaptor_AccountSnapshot. f_equal. induction H as [|w w' ws ws' [= <-] _ IH]; [done|]. cbn. by rewrite IH.
  - induction H as [|w w' ws ws' E _ IH]; [done|]. cbn [Adaptor_FlushData]. rewrite E. step_ret. rewrite IH. done.
  - unfold Adaptor_UpdateModules. f_equal. induction H as [|w w' ws ws' [= <-] _ IH]; [done|]. cbn. by rewrite IH.
Qed.

(** The adaptor runs its writers independently. *)
Lemma adaptor_run_forwards ops : ∀ ws ws', Forall2 (fun w w' => any_run w ops = Ret w') ws ws' → adaptor_run ws ops = Ret ws'.
Proof.
  induction ops as [|op ops IH]; intros ws ws' H; cbn [adaptor_run any_run] in *.
  { f_equal. induction H as [|w w' ws ws' [= ->] _ IH]; [done|]. by f_equal. }
  assert (∃ ws1, Forall2 (fun w w1 => any_exec w op = Ret w1) ws ws1 ∧ Forall2 (fun w1 w' => any_run w1 ops = Ret w') ws1 ws')
    as (ws1 & H1 & H2).
  { induction H as [|w w' ws ws' E _ (ws1 & H1 & H2)]; [by exists []|].
    destruct (any_exec w op) as [w1| |] eqn:E1; try discriminate E. exists (w1 :: ws1). by split; constructor. }
  rewrite (adaptor_exec_forwards op ws ws1 H1). step_ret. by apply IH.
Qed.

Definition to_top (op : wop) : top :=
  match op with WAccount m total => TAccount m total | WFlush env => TFlush (en_now env) | WModules => TModules end.
Definition to_pop (op : wop) : pop :=
  match op with WAccount m total => PAccount m total | WFlush env => PFlush (en_proto env) | WModules => PModules end.
Definition to_hop (op : wop) : hop :=
  match op with WAccount m _ => HAccount m | WFlush env => HFlush (en_heaptrack env) | WModules => HModules end.

Lemma any_run_text ops : ∀ w w', trun hash_order finder w (to_top <$> ops) = Ret w' → any_run (WText w) ops = Ret (WText w').
Proof.
  induction ops as [|op ops IH]; intros w w' H; cbn [trun any_run fmap list_fmap] in *; [by injection H as <-|].
  destruct op as [m total|env|]; cbn [texec to_top any_exec Any_FlushData] in *; [by apply IH| |by apply IH].
  destruct (Text_FlushData _ _ _ _) as [w1| |]; try discriminate H. by apply IH.
Qed.

Lemma any_run_proto ops : ∀ w w', prun hash_order finder serialize_snapshot ZSTD_compress progname w (to_pop <$> ops) = Ret w' →
  any_run (WProto w) ops = Ret (WProto w').
Proof.
  induction ops as [|op ops IH]; intros w w' H; cbn [prun any_run fmap list_fmap] in *; [by injection H as <-|].
  destruct op as [m total|env|]; cbn [pexec to_pop any_exec Any_FlushData] in *; [by apply IH| |by apply IH].
  destruct (Proto_FlushData _ _ _ _ _ _ _) as [w1| |]; try discriminate H. by apply IH.
Qed.

Lemma any_run_heaptrack ops : ∀ w w', hrun hash_order finder w (to_hop <$> ops) = Ret w' →
  any_run (WHeaptrack w) ops = Ret (WHeaptrack w').
Proof.
  induction ops as [|op ops IH]; intros w w' H; cbn [hrun any_run fmap list_fmap] in *; [by injection H as <-|].
  destruct op as [m total|env|]; cbn [hexec to_hop any_exec Any_FlushData] in *; [by apply IH| |by apply IH].
  destruct (Heaptrack_FlushData _ _ _ _) as [w1| |]; try discriminate H. by apply IH.
Qed.
End runs.
End Writers.

(** ** Balances *)

Definition wop_snapshots (op : wop) : list (SummariesMap * AllocSummary) :=
  match op with WAccount m total => [(m, total)] | _ => [] end.
Definition wop_ok (op : wop) : Prop :=
  match op with WAccount m total => snapshot_ok (m, total) | _ => True end.

Lemma snapshots_top ops : (to_top <$> ops) ≫= top_snapshots = ops ≫= wop_snapshots.
Proof. induction ops as [|[m total|env|] ops IH]; [done|..]; cbn in *; by rewrite IH. Qed.
Lemma snapshots_pop ops : (to_pop <$> ops) ≫= pop_snapshots = ops ≫= wop_snapshots.
Proof. induction ops as [|[m total|env|] ops IH]; [done|..]; cbn in *; by rewrite IH. Qed.
Lemma entries_pop ops : pentries (to_pop <$> ops) = entries (to_hop <$> ops).
Proof. induction ops as [|[m total|env|] ops IH]; [done|..]; cbn in *; unfold pentries, entries in IH; by rewrite IH. Qed.

(** The size a trace has accumulated is the balance the heaptrack writer keeps. *)
Lemma consumed_balance id ops :
  sum_size (consumed_of id (ops ≫= wop_snapshots)) = i64 (balance (to_hop <$> ops) id).
Proof.
  induction ops as [|op ops IH] using rev_ind; [done|].
  rewrite bind_app, fmap_app. assert (Hb : ∀ a op, balance (a ++ [op]) id = balance a id + op_size op id).
  { intros a x. unfold balance. induction a as [|y a IHa]; cbn [app foldr]; [lia|]. rewrite IHa. lia. }
  change (to_hop <$> [op]) with [to_hop op]. rewrite Hb. destruct op as [m total|env|]; cbn [mbind list_bind wop_snapshots app to_hop op_size].
  - rewrite consumed_snoc. cbn. rewrite IH. unfold summary_slot. destruct (m !! id) as [s|]; cbn; by autorewrite with word.
  - rewrite app_nil_r, Z.add_0_r. apply IH.
  - rewrite app_nil_r, Z.add_0_r. apply IH.
Qed.

Lemma consumed_first id cs : consumed_of id (first_snapshot :: cs) = consumed_of id cs.
Proof.
  unfold consumed_of. cbn [foldl]. f_equal. unfold summary_slot, first_snapshot. cbn [fst].
  destruct (({[0 := AllocSummary_zero]} : SummariesMap) !! id) as [s|] eqn:E; [|done].
  by apply lookup_singleton_Some in E as [_ <-].
Qed.

(** ** What the files tell *)

(** The limits of the heaptrack format: numbers of at most 15 hexadecimal digits, balances that
    stay in 64 bits, and names without a newline. *)
Record heaptrack_limits (answers : Z → option Stacktrace) (sys : System) (ops : list wop) (env : Env) : Prop := {
  hl_addresses id st : answers id = Some st → Forall (fun p => 0 ≤ p ≤ 2 ^ 60) (GetTrace st);
  hl_flushes e : e = env ∨ WFlush e ∈ ops → env_ok (en_heaptrack e) ∧ clean_env (en_heaptrack e);
  hl_balances k id : - 2 ^ 63 ≤ balance (take k (to_hop <$> ops)) id < 2 ^ 60;
  hl_system : 0 ≤ sy_pageSize sys < 2 ^ 60 ∧ 0 ≤ sy_physPages sys < 2 ^ 60;
  hl_names : clean_names (sy_exe sys) (sy_cmdline sys);
}.

Section agree.
Context {I : Type} `{!SummaryIndex I} `{!SummaryIndexLaws I} (hash_order : gset Z → list Z).
Context (hash_order_perm : ∀ X, hash_order X ≡ₚ elements X).
Context (serialize_info : proto_ProcessInfo → bytes) (serialize_snapshot : proto_Snapshot → bytes).
Context (ZSTD_compress : bytes → bytes) (progname : bytes).
Context (ZSTD_decompress : bytes → option bytes) (parse_info : bytes → option proto_ProcessInfo)
        (parse_snapshot : bytes → option proto_Snapshot).
Context (zstd_law : ∀ b, ZSTD_decompress (ZSTD_compress b) = Some b)
        (info_law : ∀ i, parse_info (serialize_info i) = Some i)
        (snapshot_law : ∀ s, parse_snapshot (serialize_snapshot s) = Some s).
Context (finder : Z → outcome (option Stacktrace)) (answers : Z → option Stacktrace).
Context (finder_spec : ∀ id, finder id = Ret (answers id)) (answers_ok : ∀ id st, answers id = Some st → st_ok st).
Implicit Types (cs : list (SummariesMap * AllocSummary)).

Definition text_tells cs (cfg : WriterConfig) (now : Z) (w : TextWriter I) : Prop :=
  ∃ before n upd ext int, tw_summaryFile w = before ++
    [LTime now; LApplicationHeap (wrap (class_total false cs)); LMemHawkHeap (wrap (class_total true cs));
     LTraces n upd; LExternalIndex] ++ ext ++ [LEmpty; LEmpty; LInternalIndex] ++ int ++ [LEmpty; LEmpty]
  ∧ shows false cs (wc_ExternalTraces cfg) ext ∧ shows true cs (wc_InternalTraces cfg) int.

Definition proto_tells cs (w : ProtobufWriter) : Prop :=
  zlen (pb_ofstream w) < 2 ^ 64 → ∃ info r,
    read_proto_file ZSTD_decompress parse_info parse_snapshot (pb_ofstream w) = Some (info, r)
    ∧ ∀ id, mentioned cs id → pr_actual r !! id = Some (FillAllocSummary (consumed_of id cs))
        ∧ pr_traces r !! id = (fun st => written_addr <$> GetTrace st) <$> answers id.

Definition heaptrack_tells cs (w : HeaptrackWriter) : Prop :=
  let r := read_text (file_text (ht_ofstream w)) in
  ∀ id, let size := sum_size (consumed_of id cs) in
    match (if 0 <? size then answers id else None) with
    | Some st => ∃ node, rd_live r !! id = Some (size, node)
           ∧ node_path 64 (rd_nodes r) node = Some (Z.pred <$> frames st)
    | None => rd_live r !! id = None
    end.

Context (ops : list wop) (env : Env) (sys : System).
Context (ops_ok : Forall wop_ok ops) (few : 1 + 64 * (1 + entries (to_hop <$> ops)) < 2 ^ 32).

Abbreviation cs := (ops ≫= wop_snapshots).
Abbreviation any_flush := (Any_FlushData hash_order serialize_snapshot ZSTD_compress progname env finder).
Abbreviation any_ops := (any_run (I := I) hash_order serialize_snapshot ZSTD_compress progname finder).

Lemma text_part cfg : counts_ok cfg → ∃ w1 w,
  any_ops (WText (TextWriter_ctor cfg)) ops = Ret (WText w1) ∧ any_flush (WText w1) = Ret (WText w)
  ∧ text_tells cs cfg (en_now env) w.
Proof.
  intros Hc. pose proof finder_spec as Hf.
  destruct (ctor_ok (I := I) answers cfg) as [Hok0 Hf0].
  destruct (trun_spec (I := I) hash_order hash_order_perm answers finder Hf cfg (to_top <$> ops) Hc) with (w := TextWriter_ctor (I := I) cfg)
    (cs := @nil (SummariesMap * AllocSummary)) (upd := 0) as (w1 & Hw1 & Hcfg & Hok & _); [|done..|].
  { apply Forall_fmap, (Forall_impl _ _ _ ops_ok). by intros []. }
  rewrite snapshots_top in Hok. cbn [app] in Hok.
  eexists w1, _. split; [by apply any_run_text|]. cbn [Any_FlushData].
  rewrite (Text_FlushData_spec hash_order hash_order_perm answers finder Hf) by by rewrite Hcfg. step_ret. split; [done|].
  unfold text_tells. cbn [tw_summaryFile]. unfold report.
  pose proof (tk_total _ _ _ Hok false) as T1. pose proof (tk_total _ _ _ Hok true) as T2. cbn [total_of] in T1, T2.
  rewrite T1, T2, Hcfg. eexists _, _, _, _, _. split; [done|]. destruct Hc as (C1 & C2 & C3 & C4).
  split; [by apply (index_shows w1 _ _ false _ Hok)|by apply (index_shows w1 _ _ true _ Hok)].
Qed.

Lemma proto_part : ∃ w0 w1 w,
  ProtobufWriter_ctor hash_order serialize_info serialize_snapshot ZSTD_compress progname
    (sy_shortName sys) (sy_pid sys) (sy_startNs sys) (sy_env sys) finder = Ret w0
  ∧ any_ops (WProto w0) ops = Ret (WProto w1) ∧ any_flush (WProto w1) = Ret (WProto w) ∧ proto_tells cs w.
Proof.
  pose proof finder_spec as Hf. pose proof answers_ok as Ht.
  destruct (ctor_inv hash_order hash_order_perm finder answers Hf Ht serialize_info serialize_snapshot ZSTD_compress
    progname (sy_shortName sys) (sy_pid sys) (sy_startNs sys) (sy_env sys)) as (w0 & sns0 & E0 & Hw0 & Hs0).
  destruct (prun_spec hash_order hash_order_perm finder answers Hf Ht serialize_info serialize_snapshot ZSTD_compress
    progname _ (to_pop <$> ops) w0 _ _ Hw0) as (w1 & sns1 & E1 & Hw1 & Hs1).
  { apply Forall_fmap, (Forall_impl _ _ _ ops_ok). by intros []. }
  { rewrite entries_pop. lia. }
  rewrite entries_pop in Hs1. rewrite snapshots_pop in Hw1.
  destruct (Proto_FlushData_spec hash_order hash_order_perm finder answers Hf Ht serialize_info serialize_snapshot
    ZSTD_compress progname _ (en_proto env) w1 _ _ Hw1) as (w & sn & E2 & Hw & Hfl & _); [lia|].
  exists w0, w1, w. split; [done|]. split; [by apply any_run_proto|]. cbn [Any_FlushData]. rewrite E2. step_ret.
  split; [done|]. intros Hsz. eexists _, _.
  split; [by apply (read_proto_file_spec answers serialize_info serialize_snapshot ZSTD_compress _ _ _ _ w (first_snapshot :: cs))|].
  destruct (reader_balances answers serialize_info serialize_snapshot ZSTD_compress _ _ _ _ Hw Hfl) as [_ Hr].
  intros id Hm. destruct (Hr id) as [Hin _]. destruct Hin as [Ha Hb]; [by right|].
  split; [|exact Hb]. rewrite Ha. do 2 f_equal. apply consumed_first.
Qed.

Lemma heaptrack_part : heaptrack_limits answers sys ops env → ∃ w0 w1 w,
  HeaptrackWriter_ctor (sy_exe sys) (sy_cmdline sys) (sy_pageSize sys) (sy_physPages sys) = Ret w0
  ∧ any_ops (WHeaptrack w0) ops = Ret (WHeaptrack w1) ∧ any_flush (WHeaptrack w1) = Ret (WHeaptrack w)
  ∧ heaptrack_tells cs w.
Proof.
  intros [Hadr Hfl Hbal Hsys Hnames].
  assert (Ht : ∀ id st, answers id = Some st → st_ok st ∧ Forall (fun p => 0 ≤ p ≤ 2 ^ 60) (GetTrace st)) by eauto.
  destruct (ctor_spec answers (sy_exe sys) (sy_cmdline sys) (sy_pageSize sys) (sy_physPages sys)) as (w0 & E0 & Hg0 & Hc0 & Hs0);
    [apply Hsys..|].
  destruct (replay_spec hash_order hash_order_perm finder answers Ht finder_spec (to_hop <$> ops)
    (en_heaptrack env) w0 Hg0 Hc0 Hs0) as (w1 & w & E1 & E2 & Hw & Hu & Hc); [|apply Hfl; by left|done|lia|].
  { apply Forall_fmap, Forall_forall. intros op Hin. pose proof (proj1 (Forall_forall _ _) ops_ok op Hin) as Hop.
    destruct op as [m total|e|]; cbn; [|by apply Hfl; right|done].
    intros id [s Hs]. by destruct Hop as [_ Hop]; destruct (Hop id s Hs). }
  assert (Htext : unbroken (ht_ofstream w)).
  { eapply flush_unbroken; [apply Hfl; by left| |exact E2]. eapply hrun_unbroken; [| |exact E1]; [|by eapply ctor_unbroken].
    apply Forall_fmap, Forall_forall. intros [m total|e|] Hin; cbn; [done|apply Hfl; by right|done]. }
  exists w0, w1, w. split; [done|]. split; [by apply any_run_heaptrack|].
  cbn [Any_FlushData]. rewrite E2. step_ret. split; [done|]. unfold heaptrack_tells. cbv zeta. intros id.
  rewrite (read_text_lines _ Htext). assert (Hcur : sum_size (consumed_of id cs) = current w id).
  { rewrite consumed_balance, Hc. pose proof (Hbal (length (to_hop <$> ops)) id) as Hb. rewrite firstn_all in Hb.
    apply i64_small. unfold is_i64. lia. }
  rewrite Hcur. pose proof (reader_live answers Ht w Hw Hu id) as Hr. by destruct (0 <? current w id).
Qed.

(** ** Property *)

(** C9: the adaptor the factory makes has exactly the enabled writers, and whatever snapshots,
    flushes and module changes it is given, and whatever the finder knows and does not know,
    no call fails and after a flush all files tell the same: the protobuf file reads back to
    the accumulated balance of every trace of the snapshots and to its frames when the finder
    knows it; the characters of the heaptrack file read back to one allocation of every
    positive balance of a known trace, at the frames of the trace, and to nothing else; and the
    text report lists the greatest of these balances.  Conditions: the answers of the finder do
    not change, the snapshots have fewer than 2^26 entries, the protobuf file is shorter than
    2^64 bytes, and, when the heaptrack writer is enabled, the limits of its format: addresses
    at most 2^60, other numbers below 2^60, balances in 64 bits, no newline in a name. *)
Theorem files_agree cfg : counts_ok (text_config cfg) →
  (writer_enabled "heaptrack_writer" cfg = true → heaptrack_limits answers sys ops env) → ∃ ws0 ws1 ws lt lp lh,
  CreateWritersAdaptor hash_order serialize_info serialize_snapshot ZSTD_compress progname sys cfg finder = Ret ws0
  ∧ adaptor_run hash_order serialize_snapshot ZSTD_compress progname finder ws0 ops = Ret ws1
  ∧ Adaptor_FlushData hash_order serialize_snapshot ZSTD_compress progname env finder ws1 = Ret ws
  ∧ ws = lt ++ lp ++ lh
  ∧ (if writer_enabled "text_writer" cfg then ∃ w, lt = [WText w] ∧ text_tells cs (text_config cfg) (en_now env) w else lt = [])
  ∧ (if writer_enabled "proto_writer" cfg then ∃ w, lp = [WProto w] ∧ proto_tells cs w else lp = [])
  ∧ (if writer_enabled "heaptrack_writer" cfg then ∃ w, lh = [WHeaptrack w] ∧ heaptrack_tells cs w else lh = []).
Proof.
  intros Hc Hlim. destruct (text_part (text_config cfg) Hc) as (t1 & t & T1 & T2 & T3).
  destruct proto_part as (p0 & p1 & p & P0 & P1 & P2 & P3).
  set (bt := writer_enabled "text_writer" cfg). set (bp := writer_enabled "proto_writer" cfg).
  set (bh := writer_enabled "heaptrack_writer" cfg).
  set (one := fun (b : bool) (w : AnyWriter (I := I)) => if b then [w] else []).
  assert (∃ lh0 lh1 lh : list (AnyWriter (I := I)),
    (∀ ws, (if bh then w ← HeaptrackWriter_ctor (sy_exe sys) (sy_cmdline sys) (sy_pageSize sys) (sy_physPages sys);
                       Ret (AddWriter ws (WHeaptrack w)) else Ret ws) = Ret (ws ++ lh0))
    ∧ Forall2 (fun w w' => any_ops w ops = Ret w') lh0 lh1 ∧ Forall2 (fun w w' => any_flush w = Ret w') lh1 lh
    ∧ if bh then ∃ w, lh = [WHeaptrack w] ∧ heaptrack_tells cs w else lh = []) as (lh0 & lh1 & lh & L0 & L1 & L2 & L3).
  { destruct bh eqn:Eb; [|exists [], [], []; split_and!; [intros ws; by rewrite app_nil_r|by constructor|by constructor|done]].
    destruct (heaptrack_part (Hlim Eb)) as (h0 & h1 & h & -> & H1 & H2 & H3).
    exists [WHeaptrack h0], [WHeaptrack h1], [WHeaptrack h]. split_and!; [done|by repeat constructor|by repeat constructor|by exists h]. }
  assert (Hone : ∀ (R : AnyWriter → AnyWriter → Prop) b w w', R w w' → Forall2 R (one b w) (one b w')).
  { intros R b w w' Hw. destruct b; repeat constructor. done. }
  exists (one bt (WText (TextWriter_ctor (text_config cfg))) ++ one bp (WProto p0) ++ lh0),
    (one bt (WText t1) ++ one bp (WProto p1) ++ lh1), (one bt (WText t) ++ one bp (WProto p) ++ lh),
    (one bt (WText t)), (one bp (WProto p)), lh.
  split_and!.
  - unfold CreateWritersAdaptor. rewrite P0. fold bt bp bh. unfold one. destruct bt, bp; repeat step_ret; apply L0.
  - apply adaptor_run_forwards. repeat apply Forall2_app; [by apply Hone|by apply Hone|done].
  - apply (adaptor_exec_forwards hash_order serialize_snapshot ZSTD_compress progname finder (WFlush env)).
    repeat apply Forall2_app; [by apply Hone|by apply Hone|done].
  - done.
  - unfold one. destruct bt; [by exists t|done].
  - unfold one. destruct bp; [by exists p|done].
  - done.
Qed.
End agree.

(** Every writer enabled. *)
Definition example_writers : object :=
  modify [str "text_writer"; str "enabled"] (fun x => ConfigVar_assign x (VBool true))
    (modify [str "heaptrack_writer"; str "enabled"] (fun x => ConfigVar_assign x (VBool true)) WritersConfig).

Lemma files_agree_witness :
  let st := mkStacktrace 2 0 ([4660; 22136] ++ replicate 62 0) in
  let delta n := mkAllocSummary n 0 1 1 0 in
  let ops := [WAccount {[5 := delta 100]} (delta 100); WFlush (mkEnv 1 (mkProtoEnv 7 []) (mkFlushEnv 7 8 [])); WModules;
              WAccount {[5 := delta (-40)]} (delta (-40))] in
  let env := mkEnv 2 (mkProtoEnv 9 []) (mkFlushEnv 9 8 []) in
  let sys := mkSystem [98] 1 2 (mkProtoEnv 3 []) None [] 4096 1000 in
  let answers id := if id =? 5 then Some st else None in
  ∃ ws0 ws1 ws t p h,
    CreateWritersAdaptor (I := gmap Z AllocSummary) elements to_bytes to_bytes id [97] sys example_writers
      (fun i => Ret (answers i)) = Ret ws0
    ∧ adaptor_run elements to_bytes id [97] (fun i => Ret (answers i)) ws0 ops = Ret ws1
    ∧ Adaptor_FlushData elements to_bytes id [97] env (fun i => Ret (answers i)) ws1 = Ret ws
    ∧ ws = [WText t; WProto p; WHeaptrack h]
    ∧ LTrace 5 (mkAllocSummary 60 0 2 2 0) ∈ tw_summaryFile t
    ∧ fst <$> rd_live (read_text (file_text (ht_ofstream h))) !! 5 = Some 60.
Proof.
  intros st delta ops env sys answers.
  assert (Hr : ∀ n, - 2 ^ 62 ≤ n ≤ 2 ^ 62 → in_range (delta n)) by (intros n Hn; unfold in_range, is_i64, is_u64; cbn; lia).
  assert (Hop : ∀ n, - 2 ^ 62 ≤ n ≤ 2 ^ 62 → wop_ok (WAccount {[5 := delta n]} (delta n))).
  { intros n Hn. split; [by apply Hr|]. intros x s Hs. cbn [fst] in Hs. apply lookup_singleton_Some in Hs as [<- <-].
    split; [by apply Hr|by unfold is_u32]. }
  destruct (files_agree (I := gmap Z AllocSummary) elements (fun _ => reflexivity _) to_bytes to_bytes id [97] Some of_bytes of_bytes
    (fun _ => eq_refl) of_to_bytes of_to_bytes (fun i => Ret (answers i)) answers) with (ops := ops) (env := env) (sys := sys)
    (cfg := example_writers) as (ws0 & ws1 & ws & lt & lp & lh & E0 & E1 & E2 & -> & Ht & Hp & Hh).
  - done.
  - intros i s Hs. assert (s = st) as -> by (unfold answers in Hs; destruct (i =? 5); congruence). ground.
  - apply List.Forall_cons; [apply Hop; lia|]. apply List.Forall_cons; [done|].
    apply List.Forall_cons; [done|]. apply List.Forall_cons; [apply Hop; lia|apply List.Forall_nil].
  - vm_compute. reflexivity.
  - vm_compute. split_and!; discriminate.
  - intros _. split.
    + intros i s Hs. assert (s = st) as -> by (unfold answers in Hs; destruct (i =? 5); congruence).
      change (GetTrace st) with [4660; 22136]. repeat (apply List.Forall_cons; [lia|]). apply List.Forall_nil.
    + intros e He. assert (env_modules (en_heaptrack e) = [] ∧ 0 ≤ env_elapsed (en_heaptrack e) < 2 ^ 60
        ∧ 0 ≤ env_maxrss (en_heaptrack e) < 2 ^ 60) as (Em & H1 & H2).
      { destruct He as [->|He]; [cbn; split; [done|lia]|].
        repeat (apply elem_of_cons in He as [He|He]; [first [discriminate He|injection He as ->; cbn; split; [done|lia]]|]).
        by apply elem_of_nil in He. }
      unfold env_ok, clean_env. rewrite Em. split; [|constructor]. split; [lia|]. split; [lia|constructor].
    + intros k i. destruct (decide (i = 5)) as [->|Hne].
      * do 5 (destruct k as [|k]; [vm_compute; split; congruence|]).
        assert (take (S (S (S (S (S k))))) (to_hop <$> ops) = to_hop <$> ops) as -> by (by destruct k). vm_compute. split; congruence.
      * assert (balance (take k (to_hop <$> ops)) i = 0) as ->; [|lia].
        assert (Forall (fun op => op_size op i = 0) (to_hop <$> ops)) as Hall.
        { repeat (apply List.Forall_cons; [cbn; try done; by rewrite lookup_singleton_ne by congruence|]). apply List.Forall_nil. }
        apply (Forall_take _ k) in Hall. induction Hall as [|op l Hz _ IH]; [done|].
        change (balance (op :: l) i) with (op_size op i + balance l i). lia.
    + cbn. lia.
    + split; [done|]. apply not_elem_of_nil.
  - destruct Ht as (t & -> & Ht). destruct Hp as (p & -> & _). destruct Hh as (h & -> & Hh).
    exists ws0, ws1, ([WText t] ++ [WProto p] ++ [WHeaptrack h]), t, p, h. split_and!; [done..| |].
    + destruct Ht as (before & n & upd & ext & int & -> & (bySize & byCount & _ & Htop & ->) & _).
      assert (H5 : 5 ∈ byCount.*1).
      { destruct (it_full _ _ _ _ _ Htop) as [Hlen|Hall]; [|apply Hall; [left; by eexists|done]].
        exfalso. change (zlen byCount = 10) in Hlen. assert (Hsub : byCount.*1 ⊆ [5]).
        { intros x ([y s] & -> & Hin)%list_elem_of_fmap. apply (it_exact _ _ _ _ _ Htop) in Hin as (Hm & _).
          repeat (apply Exists_cons in Hm as [[z Hz]|Hm]; [cbn in Hz; apply lookup_singleton_Some in Hz as [<- _]; by left|]).
          by apply Exists_nil in Hm. }
        apply NoDup_submseteq, submseteq_length in Hsub; [|apply Htop]. rewrite length_fmap in Hsub. unfold zlen in Hlen. cbn in Hsub. lia. }
      apply list_elem_of_fmap in H5 as ([x s] & E & Hin). cbn in E. subst x.
      assert (s = mkAllocSummary 60 0 2 2 0) as -> by by apply (it_exact _ _ _ _ _ Htop) in Hin as (_ & _ & ->).
      rewrite !elem_of_app. right. right. left. right. right. right. apply list_elem_of_fmap. by exists (5, mkAllocSummary 60 0 2 2 0).
    + specialize (Hh 5). change (sum_size (consumed_of 5 (ops ≫= wop_snapshots))) with 60 in Hh.
      destruct Hh as (node & -> & _). done.
Defined.
