(* ===== verification/WriterContract.v ===== *)
(** * What the profiler relies on in its writers

    The contract of [writers/i_writer.h]: a writer that meets it never fails and keeps, under
    every sequence of calls, a relation to the snapshots it was given.  The profiler answers the
    questions of a flush from its stack trace trackers, which grow between two flushes; a
    predicate [good] therefore says which answers are right, and the relation survives a change
    of the predicate that keeps right answers right.

    The three writers meet the contract, and so does the adaptor that the factory makes of
    them.  A flush of the heaptrack writer needs every number it writes to have at most 15
    hexadecimal digits ([wr_fits]); the others need nothing.  What a reader of the heaptrack file
    finds is stated for a system with names without a newline ([clean_system]). *)

From Stdlib Require Import ZArith Lia.
From stdpp Require Import base numbers list gmap strings.
From S2P Require Import Prelude FromChars ParseStruct Algo AllocInfo Stacktrace StacktraceTree IStacktraceTracker ThreadTracker MemHawk Config HeaptrackWriter Snapshots ProtobufWriter TextWriter Writers.

Abbreviation answers := (Z → option Stacktrace → Prop).

(** The finder answers every question about the snapshots, and rightly. *)
Definition finder_good (good : answers) (finder : Z → outcome (option Stacktrace)) (cs : Recorder) : Prop :=
  ∀ id, mentioned cs id → ∃ r, finder id = Ret r ∧ good id r ∧ ∀ st, r = Some st → st_ok st.

(** There are few enough traces for the ids of the addresses. *)
Definition few_traces (cs : Recorder) : Prop :=
  ∃ ids : list Z, (∀ id, mentioned cs id → id ∈ ids) ∧ 64 * (1 + zlen ids) < 2 ^ 32.

Class WriterSpec (W : Type) `{!IWriterStrategy W} := {
  (** [w] was given the snapshots [cs] *)
  wr_inv : answers → W → Recorder → Prop;
  (** and its files tell all of them *)
  wr_told : answers → W → Recorder → Prop;
  wr_mono good good' w cs : (∀ id r, good id r → good' id r) → wr_inv good w cs → wr_inv good' w cs;
  wr_told_mono good good' w cs : (∀ id r, good id r → good' id r) → wr_told good w cs → wr_told good' w cs;
  wr_modules good w cs : wr_inv good w cs → ∃ w', UpdateModules w = Ret w' ∧ wr_inv good w' cs;
  wr_account good w cs m total : wr_inv good w cs → snapshot_ok (m, total) →
    ∃ w', AccountSnapshot w m total = Ret w' ∧ wr_inv good w' (cs ++ [(m, total)]);
  (** every number that the next flush writes fits its place *)
  wr_fits : (Z → outcome (option Stacktrace)) → W → Prop;
  wr_flush good w cs finder : wr_inv good w cs → finder_good good finder cs → few_traces cs → wr_fits finder w →
    ∃ w', FlushData finder w = Ret w' ∧ wr_inv good w' cs ∧ wr_told good w' cs;
}.

(** ** The protobuf writer *)

Section proto.
Context (hash_order : gset Z → list Z) (hash_order_perm : ∀ X, hash_order X ≡ₚ elements X).
Context (serialize_info : proto_ProcessInfo → bytes) (serialize_snapshot : proto_Snapshot → bytes).
Context (ZSTD_compress : bytes → bytes) (progname : bytes).
Context (ZSTD_decompress : bytes → option bytes) (parse_info : bytes → option proto_ProcessInfo)
        (parse_snapshot : bytes → option proto_Snapshot).
Context (zstd_law : ∀ b, ZSTD_decompress (ZSTD_compress b) = Some b)
        (info_law : ∀ i, parse_info (serialize_info i) = Some i)
        (snapshot_law : ∀ s, parse_snapshot (serialize_snapshot s) = Some s).
Context (info : proto_ProcessInfo).
Implicit Types (w : ProtobufWriter) (cs : Recorder) (good : answers).

(** [tr] are the answers written so far; trace 0 was written by the constructor. *)
Record proto_state good w cs : Prop := {
  ps_zero : 0 ∈ pb_writtenTraces w;
  ps_inv : ∃ tr sns, (∀ id st, tr id = Some st → st_ok st)
    ∧ pw_inv tr serialize_info serialize_snapshot ZSTD_compress info w (first_snapshot :: cs) sns
    ∧ ∀ id, id ∈ pb_writtenTraces w → good id (tr id);
}.

(** What a reader gets out of the file. *)
Definition proto_told good w cs : Prop :=
  zlen (pb_ofstream w) < 2 ^ 64 → ∃ r,
    read_proto_file ZSTD_decompress parse_info parse_snapshot (pb_ofstream w) = Some (info, r)
    ∧ pr_total r = FillAllocSummary (consumed_total cs)
    ∧ ∀ id, default (FillAllocSummary AllocSummary_zero) (pr_actual r !! id) = FillAllocSummary (consumed_of id cs)
        ∧ (mentioned cs id → ∃ a, good id a ∧ pr_traces r !! id = (fun st => written_addr <$> GetTrace st) <$> a).

Lemma proto_mono good good' w cs : (∀ id r, good id r → good' id r) → proto_state good w cs → proto_state good' w cs.
Proof. intros Hg [Hz (tr & sns & Ht & Hw & Ha)]. split; [done|]. exists tr, sns. auto. Qed.

Lemma proto_told_mono good good' w cs : (∀ id r, good id r → good' id r) → proto_told good w cs → proto_told good' w cs.
Proof.
  intros Hg Ht Hsz. destruct (Ht Hsz) as (r & E & Htot & H). exists r. split; [done|]. split; [done|]. intros id.
  destruct (H id) as [H1 H2]. split; [done|]. intros (a & Ha & Et)%H2. exists a. auto.
Qed.

Lemma proto_modules good w cs : proto_state good w cs → proto_state good (Proto_UpdateModules w) cs.
Proof. intros [Hz (tr & sns & Ht & [? [? ?] ? ? ? ? ? ?] & Ha)]. split; [done|]. exists tr, sns. by split_and!. Qed.

Lemma account_written w m total : pb_writtenTraces (Proto_AccountSnapshot w m total) = pb_writtenTraces w.
Proof. unfold Proto_AccountSnapshot. by destruct (foldl _ _ _). Qed.

Lemma proto_account good w cs m total : proto_state good w cs → snapshot_ok (m, total) →
  proto_state good (Proto_AccountSnapshot w m total) (cs ++ [(m, total)]).
Proof.
  intros [Hz (tr & sns & Ht & Hw & Ha)] Hok. destruct (account_inv _ _ _ _ _ _ _ _ m total Hw Hok) as [Hw' _].
  split; rewrite account_written; [done|]. by exists tr, sns.
Qed.

(** The traces of a writer are those of its snapshots, and trace 0. *)
Lemma local_mentioned tr w cs sns id :
  pw_inv tr serialize_info serialize_snapshot ZSTD_compress info w (first_snapshot :: cs) sns →
  id ∈ dom (pb_localSummaries w) ↔ id = 0 ∨ mentioned cs id.
Proof.
  intros Hw. destruct (pw_accounted _ _ _ _ _ _ _ _ Hw) as [Hl _].
  assert (Hm : mentioned (first_snapshot :: cs) id ↔ id = 0 ∨ mentioned cs id).
  { unfold mentioned. rewrite Exists_cons. cbn. rewrite lookup_singleton_is_Some.
    split; (intros [E|?]; [left; congruence|by right]). }
  rewrite <- Hm, elem_of_dom. split; [by intros [s [? _]%Hl]|intros ?]. eexists. by apply Hl.
Qed.

Lemma set_of_list_size (l : list Z) : (size (list_to_set l : gset Z) ≤ length l)%nat.
Proof.
  unfold size, set_size. apply submseteq_length, NoDup_submseteq; [apply NoDup_elements|].
  intros x. cbn. by rewrite elem_of_elements, elem_of_list_to_set.
Qed.

Lemma few_local tr w cs sns : few_traces cs →
  pw_inv tr serialize_info serialize_snapshot ZSTD_compress info w (first_snapshot :: cs) sns →
  64 * Z.of_nat (size (pb_localSummaries w)) < 2 ^ 32.
Proof.
  intros (ids & Hids & Hb) Hw. rewrite <- (size_dom (D := gset Z)).
  assert (Hsub : dom (pb_localSummaries w) ⊆ list_to_set (0 :: ids)).
  { intros id [->|Hm]%(local_mentioned _ _ _ _ _ Hw); apply elem_of_list_to_set; [by left|right; auto]. }
  apply subseteq_size in Hsub. pose proof (set_of_list_size (0 :: ids)) as Hle.
  unfold zlen in Hb. cbn [length] in Hle. lia.
Qed.
(** The answers after a flush: the old ones, and the new ones of the finder. *)
Definition answered w (tr : Z → option Stacktrace) (finder : Z → outcome (option Stacktrace)) (id : Z) : option Stacktrace :=
  if decide (id ∈ pb_writtenTraces w) then tr id
  else if decide (id ∈ dom (pb_localSummaries w)) then match finder id with Ret r => r | _ => None end else None.

Lemma answered_spec good w tr finder cs sns : finder_good good finder cs →
  pw_inv tr serialize_info serialize_snapshot ZSTD_compress info w (first_snapshot :: cs) sns →
  0 ∈ pb_writtenTraces w → (∀ id st, tr id = Some st → st_ok st) → (∀ id, id ∈ pb_writtenTraces w → good id (tr id)) →
  (∀ id st, answered w tr finder id = Some st → st_ok st) ∧
  (∀ id, id ∈ dom (pb_localSummaries w) → good id (answered w tr finder id)) ∧
  (∀ id, id ∈ pb_changedSummaries w → id ∉ pb_writtenTraces w → finder id = Ret (answered w tr finder id)).
Proof.
  intros Hf Hw Hz Ht Hg.
  assert (Hnew : ∀ id, id ∈ dom (pb_localSummaries w) → id ∉ pb_writtenTraces w →
    ∃ r, finder id = Ret r ∧ good id r ∧ ∀ st, r = Some st → st_ok st).
  { intros id [->|Hm]%(local_mentioned _ _ _ _ _ Hw) Hn; [done|by apply Hf]. }
  unfold answered. split_and!.
  - intros id st. destruct (decide (id ∈ pb_writtenTraces w)) as [|Hn]; [by apply Ht|].
    destruct (decide _) as [Hd|]; [|done]. destruct (Hnew id Hd Hn) as (r & -> & _ & Hst). apply Hst.
  - intros id Hd. destruct (decide (id ∈ pb_writtenTraces w)) as [|Hn]; [by apply Hg|].
    rewrite decide_True by done. by destruct (Hnew id Hd Hn) as (r & -> & Hr & _).
  - intros id Hc Hn. rewrite decide_False by done. pose proof (pw_known _ _ _ _ _ _ _ _ Hw id (or_intror Hc)) as Hd.
    rewrite decide_True by done. by destruct (Hnew id Hd Hn) as (r & -> & _).
Qed.

Lemma proto_flush good w cs env finder : proto_state good w cs → finder_good good finder cs → few_traces cs →
  ∃ w', Proto_FlushData hash_order serialize_snapshot ZSTD_compress progname env finder w = Ret w'
    ∧ proto_state good w' cs ∧ proto_told good w' cs.
Proof.
  intros [Hz (tr & sns & Ht & Hw & Hg)] Hf Hfew.
  destruct (answered_spec good w tr finder cs sns Hf Hw Hz Ht Hg) as (Hst & Hgood & Hfi).
  set (tr' := answered w tr finder) in *.
  assert (Hw' : pw_inv tr' serialize_info serialize_snapshot ZSTD_compress info w (first_snapshot :: cs) sns).
  { apply (pw_inv_traces tr); [|done]. intros id Hid. unfold tr', answered. by rewrite decide_True. }
  destruct (Proto_FlushData_on hash_order hash_order_perm finder tr' Hst serialize_info serialize_snapshot ZSTD_compress
    progname info env w _ sns Hw' (few_local _ _ _ _ Hfew Hw') Hfi) as (w' & sn & E & Hw2 & Hfl & El).
  assert (Hdom : ∀ id, id ∈ pb_writtenTraces w' → good id (tr' id)).
  { intros id Hid. apply Hgood. rewrite <- El. apply (pw_known _ _ _ _ _ _ _ _ Hw2). by left. }
  exists w'. split; [done|]. split.
  - split; [|by exists tr', (sns ++ [sn])]. destruct (pw_done _ _ _ _ _ _ _ _ Hw2 0) as [?|Hc]; [|done|].
    + apply (local_mentioned _ _ _ _ _ Hw2). by left.
    + rewrite (proj1 Hfl) in Hc. by apply elem_of_empty in Hc.
  - intros Hsz. eexists. split; [by apply (read_proto_file_spec tr' serialize_info serialize_snapshot ZSTD_compress _ _ _ _ w' (first_snapshot :: cs))|].
    destruct (reader_balances tr' serialize_info serialize_snapshot ZSTD_compress _ _ _ _ Hw2 Hfl) as [Htot Hr].
    assert (Hm : ∀ id, mentioned cs id → mentioned (first_snapshot :: cs) id) by (intros id Hm; by right).
    split; [by rewrite Htot|]. intros id. destruct (Hr id) as [Hin Hout]. split.
    + rewrite <- consumed_first. destruct (decide (id ∈ dom (pb_localSummaries w'))) as [Hd|Hd].
      * apply elem_of_dom in Hd as [s [Hd _]%(ac_local _ _ (pw_accounted _ _ _ _ _ _ _ _ Hw2))].
        by destruct (Hin Hd) as [-> _].
      * assert (Hn : ¬ mentioned (first_snapshot :: cs) id).
        { intros Hmm. apply Hd, elem_of_dom. eexists. by apply (ac_local _ _ (pw_accounted _ _ _ _ _ _ _ _ Hw2)). }
        destruct (Hout Hn) as [-> _]. by rewrite consumed_unmentioned.
    + intros Hid. exists (tr' id). destruct (Hin (Hm id Hid)) as [_ ->]. split; [|done]. apply Hgood. rewrite <- El.
      apply (local_mentioned _ _ _ _ _ Hw2). by right.
Qed.

(** A new writer, when the finder does not know trace 0. *)
Lemma proto_new good shortName pid startNs env finder : info = FillProcessInfo progname shortName pid startNs →
  finder 0 = Ret None → good 0 None →
  ∃ w, ProtobufWriter_ctor hash_order serialize_info serialize_snapshot ZSTD_compress progname
         shortName pid startNs env finder = Ret w ∧ proto_state good w [].
Proof.
  intros Hinfo Hf Hg.
  assert (Ht : ∀ (id : Z) st, (fun _ => None) id = Some st → st_ok st) by done.
  destruct (ctor_inv_on hash_order hash_order_perm finder (fun _ => None) Ht serialize_info serialize_snapshot
    ZSTD_compress progname shortName pid startNs env Hf) as (w & sns & E & Hw & _ & Hch).
  rewrite <- Hinfo in Hw. exists w. split; [done|].
  assert (Hdom : ∀ id, id ∈ pb_writtenTraces w ↔ id = 0).
  { intros id. split.
    - intros Hid. pose proof (pw_known _ _ _ _ _ _ _ _ Hw id (or_introl Hid)) as Hd.
      by apply (local_mentioned _ _ _ _ _ Hw) in Hd as [?|?%Exists_nil].
    - intros ->. destruct (pw_done _ _ _ _ _ _ _ _ Hw 0) as [?|Hc]; [|done|].
      + apply (local_mentioned _ _ _ _ _ Hw). by left.
      + rewrite Hch in Hc. by apply elem_of_empty in Hc. }
  split; [by apply Hdom|]. exists (fun _ => None), sns. split; [done|]. split; [done|]. by intros id ->%Hdom.
Qed.
End proto.

(** ** The text writer *)

Section text.
Context {I : Type} `{!SummaryIndex I} `{!SummaryIndexLaws I} (hash_order : gset Z → list Z).
Context (hash_order_perm : ∀ X, hash_order X ≡ₚ elements X) (cfg : WriterConfig) (counts : counts_ok cfg).
Implicit Types (w : TextWriter I) (cs : Recorder).

Definition text_state w cs : Prop := tw_cfg w = cfg ∧ ∃ upd, tw_ok w cs upd.

(** A report is about the traces of the snapshots. *)
Lemma report_ids w cs upd now id : tw_ok w cs upd → id ∈ line_ids (report w now) → mentioned cs id.
Proof.
  intros Hok. unfold report. rewrite !line_ids_app, !line_ids_index.
  assert (Hl : ∀ b ic, id ∈ (listed (index_of w b) ic).*1 → mentioned cs id).
  { intros b ic ([i s] & -> & Hin)%list_elem_of_fmap. cbn [fst].
    assert (Hf : ix_find (index_of w b) i = Some s); [|by apply (tk_index _ _ _ Hok) in Hf as [? _]].
    destruct (ix_view_size (index_of w b)) as [_ E1 _], (ix_view_count (index_of w b)) as [_ E2 _].
    unfold listed in Hin. destruct (ic_Enabled ic); [|by apply elem_of_nil in Hin].
    apply elem_of_app in Hin as [[_ Hin]%list_elem_of_filter|Hin].
    - apply E1. by eapply elem_of_take in Hin as (? & ?%list_elem_of_lookup_2 & _).
    - apply E2. by eapply elem_of_take in Hin as (? & ?%list_elem_of_lookup_2 & _). }
  rewrite !elem_of_app. intros [?%elem_of_nil|[H|[?%elem_of_nil|[H|?%elem_of_nil]]]]; try done.
  - by apply (Hl false (wc_ExternalTraces (tw_cfg w))).
  - by apply (Hl true (wc_InternalTraces (tw_cfg w))).
Qed.

Lemma text_flush good w cs now finder : text_state w cs → finder_good good finder cs →
  ∃ w', Text_FlushData hash_order now finder w = Ret w' ∧ text_state w' cs ∧ text_tells cs cfg now w'.
Proof.
  intros [Hcfg [upd Hok]] Hf. set (tr := fun id => match finder id with Ret r => r | _ => None end).
  eexists. split; [apply (Text_FlushData_on hash_order hash_order_perm tr finder now w); [by rewrite Hcfg|]|].
  { intros id Hid%(report_ids w cs upd now id Hok). destruct (Hf id Hid) as (r & E & _). unfold tr. by rewrite E. }
  split.
  - split; [done|]. exists 0. destruct Hok as [H1 H2 H3]. by split.
  - unfold text_tells. cbn [tw_summaryFile]. unfold report.
    pose proof (tk_total _ _ _ Hok false) as T1. pose proof (tk_total _ _ _ Hok true) as T2. cbn [total_of] in T1, T2.
    rewrite T1, T2, Hcfg. eexists _, _, _, _, _. split; [done|]. destruct counts as (C1 & C2 & C3 & C4).
    split; [by apply (index_shows w _ _ false _ Hok)|by apply (index_shows w _ _ true _ Hok)].
Qed.

Lemma text_account w cs m total : text_state w cs → snapshot_ok (m, total) →
  text_state (Text_AccountSnapshot w m total) (cs ++ [(m, total)]).
Proof.
  intros [Hcfg [upd Hok]] Hs. destruct (text_account_spec w cs upd (m, total) Hok Hs) as (Hok' & E & _).
  cbn [fst snd] in *. split; [by rewrite E|]. by eexists.
Qed.
End text.

(** ** The heaptrack writer *)

(** The balances and the addresses that a flush writes have at most 15 hexadecimal digits. *)
Definition heaptrack_fits (env : FlushEnv) (finder : Z → outcome (option Stacktrace)) (w : HeaptrackWriter) : Prop :=
  env_ok env ∧ set_Forall (fun id =>
    match ht_summaries w !! id with Some t => ts_current t < 2 ^ 60 | None => True end
    ∧ match finder id with Ret (Some st) => Forall (fun p => 0 ≤ p ≤ 2 ^ 60) (GetTrace st) | _ => True end)
    (ht_changedSummaries w).

#[export] Instance heaptrack_fits_dec env finder w : Decision (heaptrack_fits env finder w).
Proof.
  apply and_dec; [unfold env_ok; solve_decision|]. apply set_Forall_dec. intros id. apply and_dec.
  - destruct (ht_summaries w !! id); solve_decision.
  - destruct (finder id) as [[st|]| |]; solve_decision.
Defined.

Section heaptrack.
Context (hash_order : gset Z → list Z) (hash_order_perm : ∀ X, hash_order X ≡ₚ elements X).
(** No name that is written has a newline. *)
Context (clean : Prop).
Implicit Types (w : HeaptrackWriter) (cs : Recorder) (good : answers) (tr : Z → option Stacktrace).

Definition small_trace (st : Stacktrace) : Prop := st_ok st ∧ Forall (fun p => 0 ≤ p ≤ 2 ^ 60) (GetTrace st).

(** [tr] are the answers the finder gave for the traces that were written or left out. *)
Record heaptrack_state good w cs : Prop := {
  hs_answers : ∃ tr, (∀ id st, tr id = Some st → small_trace st) ∧ HeaptrackWriter.good tr w
    ∧ ∀ id, is_Some (ht_writtenTraces w !! id) ∨ (is_Some (ht_summaries w !! id) ∧ id ∉ ht_changedSummaries w) → good id (tr id);
  hs_current id : current w id = sum_size (consumed_of id cs);
  hs_known id : is_Some (ht_summaries w !! id) ↔ mentioned cs id;
  hs_text : clean → unbroken (ht_ofstream w);
}.

(** A reader finds the balance of every trace whose frames the finder knew, at these frames. *)
Definition heaptrack_told good w cs : Prop := clean →
  let r := read_text (file_text (ht_ofstream w)) in
  ∀ id, let size := sum_size (consumed_of id cs) in
    if 0 <? size
    then ∃ a, good id a ∧ match a with
      | Some st => ∃ node, rd_live r !! id = Some (size, node) ∧ node_path 64 (rd_nodes r) node = Some (Z.pred <$> frames st)
      | None => rd_live r !! id = None
      end
    else rd_live r !! id = None.

Lemma heaptrack_mono good good' w cs : (∀ id r, good id r → good' id r) → heaptrack_state good w cs → heaptrack_state good' w cs.
Proof. intros Hg [(tr & Ht & Hw & Ha) Hc Hk Hx]. split; [|done..]. exists tr. auto. Qed.

Lemma heaptrack_told_mono good good' w cs : (∀ id r, good id r → good' id r) → heaptrack_told good w cs → heaptrack_told good' w cs.
Proof.
  intros Hg Ht Hcl r id. specialize (Ht Hcl id). cbv zeta in *. destruct (0 <? _); [|done]. destruct Ht as (a & Ha & Hr). exists a. auto.
Qed.

Lemma heaptrack_modules good w cs : heaptrack_state good w cs → heaptrack_state good (Heaptrack_UpdateModules w) cs.
Proof. intros [(tr & Ht & [Hw Hm] & Ha) Hc Hk Hx]. split; [|done..]. exists tr. split; [done|]. split; [|done]. split; [by apply hw_inv_ext|done]. Qed.

(** Accounting changes neither the written traces nor what is not in the snapshot. *)
Lemma account_fields (m : SummariesMap) w (w' := Heaptrack_AccountSnapshot w m) :
  ht_writtenTraces w' = ht_writtenTraces w ∧ ht_changedSummaries w' = dom m ∪ ht_changedSummaries w.
Proof.
  assert (H : ∀ l w, ht_writtenTraces (foldl account_one w l) = ht_writtenTraces w
    ∧ ht_changedSummaries (foldl account_one w l) = list_to_set l.*1 ∪ ht_changedSummaries w).
  { intros l. induction l as [|[id s] l IH]; intros v; [split; [done|]; cbn; by rewrite (left_id_L ∅ (∪))|].
    cbn [foldl]. destruct (IH (account_one v (id, s))) as [-> ->]. split; [done|]. cbn.
    by rewrite (assoc_L (∪)), (comm_L (∪) (list_to_set _) {[id]}). }
  destruct (H (map_to_list m) w) as [E1 E2]. split; [exact E1|]. unfold w', Heaptrack_AccountSnapshot. rewrite E2. f_equal.
  apply set_eq. intros id. rewrite elem_of_list_to_set, size_in_keys. by rewrite elem_of_dom.
Qed.

Lemma heaptrack_account good w cs m total : heaptrack_state good w cs → snapshot_ok (m, total) →
  heaptrack_state good (Heaptrack_AccountSnapshot w m) (cs ++ [(m, total)]).
Proof.
  intros [(tr & Ht & Hw & Ha) Hc Hk Hx] [_ Hm].
  destruct (account_map_spec tr w m Hw) as (Hw' & Hc' & Hd).
  { intros id [s Hs]. by apply (Hm id s). }
  { intros id s Hs _. apply (Hm id s Hs). }
  destruct (account_fields m w) as [Ew Ech]. split.
  - exists tr. split; [done|]. split; [done|]. intros id. rewrite Ew, Ech, not_elem_of_union, <- !elem_of_dom, Hd, elem_of_union.
    intros [Hid|[[?|Hid] [? ?]]]; [|done|]; apply Ha; rewrite <- !elem_of_dom; auto.
  - intros id. rewrite Hc', Hc, consumed_snoc. cbn. unfold summary_slot. destruct (m !! id); done.
  - intros id. rewrite mentioned_snoc, <- Hk, <- !elem_of_dom, Hd, elem_of_union. tauto.
  - by rewrite account_stream.
Qed.

(** The answers after a flush: the old ones, and those of the finder for what was asked. *)
Definition asked w (id : Z) : Prop := id ∈ ht_changedSummaries w ∧ ht_writtenTraces w !! id = None.
#[local] Instance asked_dec w id : Decision (asked w id).
Proof. apply and_dec; solve_decision. Defined.
Definition told_answers w tr (finder : Z → outcome (option Stacktrace)) (id : Z) : option Stacktrace :=
  if decide (asked w id) then match finder id with Ret r => r | _ => None end else tr id.

(** The invariant is about the answers that were used. *)
Lemma good_answers tr tr' w : (∀ id, is_Some (ht_writtenTraces w !! id) ∨ id ∉ ht_changedSummaries w → tr' id = tr id) →
  HeaptrackWriter.good tr w → HeaptrackWriter.good tr' w.
Proof.
  intros Ht [[(paths & H1 & H2 & H3 & H4 & H5) K2 K3 K4 K5 K6] [Hm1 Hm2]]. split; [split; try done|split; [done|]].
  - exists paths. split_and!; try done. intros id node Hn. rewrite Ht by (left; by rewrite Hn). auto.
  - intros id Hid Hn. destruct (Hm2 id Hid Hn) as [?|[? ?]]; [by left|right]. split; [done|]. by rewrite Ht by auto.
Qed.

Lemma heaptrack_flush good w cs env finder : heaptrack_state good w cs → finder_good good finder cs → few_traces cs →
  heaptrack_fits env finder w → (clean → clean_env env) →
  ∃ w', Heaptrack_FlushData hash_order env finder w = Ret w' ∧ heaptrack_state good w' cs ∧ heaptrack_told good w' cs.
Proof.
  intros [(tr & Ht & Hw & Ha) Hc Hk Hx] Hf (ids & Hids & Hb) [Henv Hfit] Hce. set (tr' := told_answers w tr finder).
  assert (Hold : ∀ id, is_Some (ht_writtenTraces w !! id) ∨ id ∉ ht_changedSummaries w → tr' id = tr id).
  { intros id Hid. unfold tr', told_answers. rewrite decide_False; [done|]. intros [? E]. rewrite E in Hid. by destruct Hid as [[? ?]|?]. }
  destruct (good_answers tr tr' w Hold Hw) as [Hw' Hm'].
  assert (Hnew : ∀ id, asked w id → ∃ r, finder id = Ret r ∧ tr' id = r ∧ good id r ∧ ∀ st, r = Some st → small_trace st).
  { intros id Has. pose proof Has as [Hch Hun]. destruct (Hf id) as (r & E & Hg & Hst).
    { apply Hk. by apply Hm'. }
    exists r. split; [done|]. split; [unfold tr', told_answers; by rewrite decide_True, E|]. split; [done|].
    intros st ->. destruct (Hfit id Hch) as [_ Hfr]. rewrite E in Hfr. split; [by apply Hst|done]. }
  assert (Hok : ∀ id st, tr' id = Some st → small_trace st).
  { intros id st. destruct (decide (asked w id)) as [Has|Has].
    - destruct (Hnew id Has) as (r & _ & -> & _ & H). apply H.
    - unfold tr', told_answers. rewrite decide_False by done. apply Ht. }
  destruct (FlushData_spec hash_order hash_order_perm finder tr' Hok env w Hw') as (w' & E & Hw2 & Hm2 & Hu & Hch & Hcur); [|done|done| |].
  - unfold few_nodes. rewrite <- (size_dom (D := gset Z)). assert (dom (ht_summaries w) ⊆ list_to_set ids) as Hsub%subseteq_size.
    { intros id Hid%elem_of_dom%Hk. apply elem_of_list_to_set. auto. }
    pose proof (set_of_list_size ids) as Hle. unfold zlen in Hb. lia.
  - intros id Hid. split.
    + intros Hn. by destruct (Hnew id (conj Hid Hn)) as (r & -> & -> & _).
    + intros t Et. destruct (Hfit id Hid) as [Hs _]. by rewrite Et in Hs.
  - assert (Ecur : ∀ id, current w' id = sum_size (consumed_of id cs)) by (intros id; rewrite <- Hc; unfold current; by rewrite Hcur).
    assert (Eknown : ∀ id, is_Some (ht_summaries w' !! id) ↔ mentioned cs id).
    { intros id. rewrite <- Hk. specialize (Hcur id). by destruct (ht_summaries w' !! id), (ht_summaries w !! id). }
    assert (Hgood : ∀ id, mentioned cs id → good id (tr' id)).
    { intros id Hid. destruct (decide (asked w id)) as [Has|Has]; [by destruct (Hnew id Has) as (r & _ & -> & ? & _)|].
      assert (Hor : is_Some (ht_writtenTraces w !! id) ∨ id ∉ ht_changedSummaries w).
      { destruct (ht_writtenTraces w !! id) eqn:En; [by left|right]. intros Hin. by apply Has. }
      rewrite Hold by done. apply Ha. destruct Hor; [by left|right]. split; [by apply Hk|done]. }
    assert (Hbr : clean → unbroken (ht_ofstream w')) by (intros Hcl; eapply flush_unbroken; [by apply Hce|by apply Hx|exact E]).
    exists w'. split; [done|]. split.
    + split; [|done..]. exists tr'. split; [done|]. split; [done|]. intros id Hid. apply Hgood, Eknown.
      destruct Hid as [?|[? _]]; [by apply (hw_written _ _ Hw2)|done].
    + intros Hcl. rewrite (read_text_lines _ (Hbr Hcl)). intros r id. subst r.
      pose proof (reader_live tr' Hok w' Hw2 Hu id) as Hr. rewrite Ecur in Hr. cbv zeta.
      destruct (Z.ltb_spec 0 (sum_size (consumed_of id cs))); [|done]. exists (tr' id). split; [|done].
      apply Hgood. apply dec_stable. intros Hn. apply consumed_unmentioned in Hn. rewrite Hn in *. cbn in *. lia.
Qed.

(** A new writer. *)
Lemma heaptrack_new good exe cmdline pageSize physPages : 0 ≤ pageSize < 2 ^ 60 → 0 ≤ physPages < 2 ^ 60 →
  (clean → clean_names exe cmdline) →
  ∃ w, HeaptrackWriter_ctor exe cmdline pageSize physPages = Ret w ∧ heaptrack_state good w [].
Proof.
  intros Hp Hq Hcn. destruct (ctor_spec (fun _ => None) exe cmdline pageSize physPages Hp Hq) as (w & E & Hg & Hc & Hs).
  exists w. split; [done|]. apply map_size_empty_inv in Hs. split.
  - exists (fun _ => None). split; [done|]. split; [done|]. intros id [Hw|[Hw _]].
    + apply (hw_written _ _ (proj1 Hg)) in Hw. rewrite Hs in Hw. by destruct Hw.
    + rewrite Hs in Hw. by destruct Hw.
  - intros id. by rewrite Hc.
  - intros id. rewrite Hs. split; [by intros [? ?%lookup_empty_Some]|by intros ?%Exists_nil].
  - intros Hcl. eapply ctor_unbroken; [by apply Hcn|exact E].
Qed.
End heaptrack.

(** ** The adaptor *)

(** No newline in the path of the program, in its command line or in the name of a module. *)
Definition clean_system (sys : System) (system_at : nat → Env) : Prop :=
  clean_names (sy_exe sys) (sy_cmdline sys) ∧ ∀ k, clean_env (en_heaptrack (system_at k)).

Section adaptor.
Context {I : Type} `{!SummaryIndex I} `{!SummaryIndexLaws I} (hash_order : gset Z → list Z).
Context (hash_order_perm : ∀ X, hash_order X ≡ₚ elements X).
Context (serialize_info : proto_ProcessInfo → bytes) (serialize_snapshot : proto_Snapshot → bytes).
Context (ZSTD_compress : bytes → bytes) (progname : bytes).
Context (ZSTD_decompress : bytes → option bytes) (parse_info : bytes → option proto_ProcessInfo)
        (parse_snapshot : bytes → option proto_Snapshot).
Context (zstd_law : ∀ b, ZSTD_decompress (ZSTD_compress b) = Some b)
        (info_law : ∀ i, parse_info (serialize_info i) = Some i)
        (snapshot_law : ∀ s, parse_snapshot (serialize_snapshot s) = Some s).
Context (sys : System) (cfg : object) (counts : counts_ok (text_config cfg)) (system_at : nat → Env).
Context (sys_small : writer_enabled "heaptrack_writer" cfg = true → 0 ≤ sy_pageSize sys < 2 ^ 60 ∧ 0 ≤ sy_physPages sys < 2 ^ 60).
Implicit Types (w : AnyWriter (I := I)) (cs : Recorder) (good : answers).

Abbreviation process_info := (FillProcessInfo progname (sy_shortName sys) (sy_pid sys) (sy_startNs sys)).

Definition writer_name w : string :=
  match w with WText _ => "text_writer" | WProto _ => "proto_writer" | WHeaptrack _ => "heaptrack_writer" end.

Definition any_state good cs w : Prop :=
  match w with
  | WText w => text_state (text_config cfg) w cs
  | WProto w => proto_state serialize_info serialize_snapshot ZSTD_compress process_info good w cs
  | WHeaptrack w => heaptrack_state (clean_system sys system_at) good w cs
  end.
Definition any_told good cs w : Prop :=
  match w with
  | WText w => ∃ now, text_tells cs (text_config cfg) now w
  | WProto w => proto_told ZSTD_decompress parse_info parse_snapshot process_info good w cs
  | WHeaptrack w => heaptrack_told (clean_system sys system_at) good w cs
  end.
Definition any_fits (env : Env) (finder : Z → outcome (option Stacktrace)) w : Prop :=
  match w with WHeaptrack w => heaptrack_fits (en_heaptrack env) finder w | _ => True end.

(** The writers that are enabled, in the order of the factory. *)
Definition enabled_names : list string :=
  filter (fun n => writer_enabled n cfg = true) ["text_writer"; "proto_writer"; "heaptrack_writer"].

Definition adaptor_inv good (a : nat * list (AnyWriter (I := I))) cs : Prop :=
  writer_name <$> a.2 = enabled_names ∧ Forall (any_state good cs) a.2.
Definition adaptor_told good (a : nat * list (AnyWriter (I := I))) cs : Prop :=
  writer_name <$> a.2 = enabled_names ∧ Forall (any_told good cs) a.2.

Lemma any_flush good cs w k finder (env := system_at k) : any_state good cs w → finder_good good finder cs → few_traces cs → any_fits env finder w →
  ∃ w', Any_FlushData hash_order serialize_snapshot ZSTD_compress progname env finder w = Ret w'
    ∧ any_state good cs w' ∧ any_told good cs w' ∧ writer_name w' = writer_name w.
Proof.
  destruct w as [w|w|w]; intros Hw Hf Hfew Hfit; cbn [any_state any_fits Any_FlushData] in *.
  - destruct (text_flush hash_order hash_order_perm _ counts good w cs (en_now env) finder Hw Hf) as (w' & -> & Hw' & Ht).
    step_ret. exists (WText w'). split; [done|]. split; [done|]. split; [by eexists|done].
  - destruct (proto_flush hash_order hash_order_perm serialize_info serialize_snapshot ZSTD_compress progname
      ZSTD_decompress parse_info parse_snapshot zstd_law info_law snapshot_law process_info good w cs (en_proto env) finder Hw Hf Hfew)
      as (w' & -> & Hw' & Ht). step_ret. by exists (WProto w').
  - destruct (heaptrack_flush hash_order hash_order_perm _ good w cs _ finder Hw Hf Hfew Hfit (fun Hcl => proj2 Hcl k)) as (w' & -> & Hw' & Ht).
    step_ret. by exists (WHeaptrack w').
Qed.

Lemma adaptor_flush good cs k finder ws (env := system_at k) : Forall (any_state good cs) ws → finder_good good finder cs → few_traces cs →
  Forall (any_fits env finder) ws →
  ∃ ws', Adaptor_FlushData hash_order serialize_snapshot ZSTD_compress progname env finder ws = Ret ws'
    ∧ Forall (any_state good cs) ws' ∧ Forall (any_told good cs) ws' ∧ writer_name <$> ws' = writer_name <$> ws.
Proof.
  intros Hws Hf Hfew Hfit. induction Hws as [|w ws Hw _ IH]; [by exists []|].
  apply Forall_cons in Hfit as [Hfit (ws' & E & H1 & H2 & H3)%IH].
  destruct (any_flush good cs w k finder Hw Hf Hfew Hfit) as (w' & Ew & K1 & K2 & K3).
  exists (w' :: ws'). cbn [Adaptor_FlushData]. fold env in Ew. rewrite Ew. step_ret. rewrite E. step_ret.
  split; [done|]. split; [by constructor|]. split; [by constructor|]. cbn. by rewrite K3, H3.
Qed.

#[refine] Instance adaptor_spec : @WriterSpec _ (adaptor_strategy (I := I) hash_order serialize_snapshot ZSTD_compress progname system_at) :=
  { wr_inv := adaptor_inv; wr_told := adaptor_told; wr_fits finder a := Forall (any_fits (system_at a.1) finder) a.2 }.
Proof.
  - intros good good' a cs Hg [Hn Hs]. split; [done|]. apply (Forall_impl _ _ _ Hs).
    intros [w|w|w]; cbn; [done|by apply proto_mono|by apply heaptrack_mono].
  - intros good good' a cs Hg [Hn Hs]. split; [done|]. apply (Forall_impl _ _ _ Hs).
    intros [w|w|w]; cbn; [done|by apply proto_told_mono|by apply heaptrack_told_mono].
  - intros good a cs [Hn Hs]. exists (a.1, Adaptor_UpdateModules a.2). split; [done|]. split; cbn [snd].
    + unfold Adaptor_UpdateModules. rewrite <- Hn, <- list_fmap_compose. apply list_fmap_ext. by intros i [] _.
    + apply Forall_fmap, (Forall_impl _ _ _ Hs). intros [w|w|w]; cbn; [done|apply proto_modules|apply heaptrack_modules].
  - intros good a cs m total [Hn Hs] Hok. exists (a.1, Adaptor_AccountSnapshot a.2 m total). split; [done|]. split; cbn [snd].
    + rewrite <- Hn. unfold Adaptor_AccountSnapshot. rewrite <- list_fmap_compose. apply list_fmap_ext. by intros i [] _.
    + apply Forall_fmap, (Forall_impl _ _ _ Hs). intros [w|w|w] Hw; cbn in *; [by apply text_account|by apply proto_account|by eapply heaptrack_account].
  - intros good a cs finder [Hn Hs] Hf Hfew Hfit.
    destruct (adaptor_flush good cs a.1 finder a.2 Hs Hf Hfew Hfit) as (ws' & E & H1 & H2 & H3).
    cbn. rewrite E. step_ret. eexists. split; [done|]. rewrite <- H3 in Hn. by split; split.
Defined.

(** The factory makes an adaptor that meets the contract. *)
Lemma adaptor_new good finder k : finder 0 = Ret None → good 0 None →
  ∃ ws, CreateWritersAdaptor hash_order serialize_info serialize_snapshot ZSTD_compress progname sys cfg finder = Ret ws
    ∧ adaptor_inv good (k, ws) [].
Proof.
  intros Hf Hg.
  destruct (proto_new hash_order hash_order_perm serialize_info serialize_snapshot ZSTD_compress progname process_info
    good (sy_shortName sys) (sy_pid sys) (sy_startNs sys) (sy_env sys) finder eq_refl Hf Hg) as (p & E & Hp).
  assert (Ht : text_state (I := I) (text_config cfg) (TextWriter_ctor (text_config cfg)) []).
  { split; [done|]. exists 0. apply (ctor_ok (fun _ => None)). }
  unfold CreateWritersAdaptor, AddWriter. rewrite E. unfold adaptor_inv, enabled_names. cbn [snd]. rewrite !filter_cons.
  destruct (writer_enabled "heaptrack_writer" cfg); [destruct sys_small as [S1 S2]; [done|];
    destruct (heaptrack_new (clean_system sys system_at) good (sy_exe sys) (sy_cmdline sys) _ _ S1 S2 (fun H => proj1 H)) as (h & -> & Hh)|];
  destruct (writer_enabled "text_writer" cfg), (writer_enabled "proto_writer" cfg); repeat step_ret;
    repeat (rewrite decide_True by done || rewrite decide_False by done); (eexists; split; [done|]; split; [done|]);
    repeat (apply List.Forall_cons; [done|]); apply List.Forall_nil.
Qed.
End adaptor.
