(* ===== verification/Reports.v ===== *)
(** * The profiler with any writer behind it

    [MemHawk] was verified with a writer that records its snapshots.  Here the writer is any
    that meets [WriterSpec]: the handlers do not look at it, and an iteration of the worker
    with it and with the recorder run in step, so that the profiler with this writer meets the
    contract of the allocation functions, and its writer was given exactly the snapshots that
    the recorder would hold. *)

From Stdlib Require Import ZArith Lia.
From stdpp Require Import base numbers list gmap.
From S2P Require Import Prelude Algo AllocInfo Stacktrace LruCache IStacktraceTracker StacktraceTracker StaticTracker ThreadTracker MemHawk HawkMalloc HawkHeap Profiling Snapshots WriterContract.

(** ** Another writer in the same place *)

Section swap.
Context {I W W' : Type} `{!SequencedHash I CompressedStacktrace Z}.
Context (avx : bool) (xxh : list Z → Z).
Implicit Types (s : MemHawk I W) (th : nat) (ws : option (WorkerStorage W')).

Definition swap ws s : MemHawk I W' :=
  mkMemHawk (m_cfg s) (m_modulesCacheInvalidated s) ws (m_thTrackers s) (m_finishedTrackers s)
    (m_exitingThreadsTracker s) (m_btTracker s) (m_maxPostponedSize s) (m_postponed s) (m_innerTracker s)
    (m_innerBtTracker s) (tls s).

Lemma swap_register ws s th : RegisterThread (swap ws s) th = (s ← RegisterThread s th; Ret (swap ws s)).
Proof.
  unfold RegisterThread. change (tls_of (swap ws s) th) with (tls_of s th). cbn [swap m_finishedTrackers m_thTrackers].
  destruct (gtl_tracker (tls_of s th)); [|done..]. destruct (last (m_finishedTrackers s)); [|done].
  by destruct (rd (m_thTrackers s) _).
Qed.

Lemma swap_ensure ws s th : ensure_registered (swap ws s) th = (s ← ensure_registered s th; Ret (swap ws s)).
Proof.
  unfold ensure_registered. change (tls_of (swap ws s) th) with (tls_of s th).
  destruct (bool_decide _); [apply swap_register|done].
Qed.

Lemma swap_store ws s th t bt : store_tracker (swap ws s) th t bt = (s ← store_tracker s th t bt; Ret (swap ws s)).
Proof.
  unfold store_tracker. change (tls_of (swap ws s) th) with (tls_of s th). cbn [swap m_thTrackers].
  destruct (gtl_tracker (tls_of s th)); [done| |done]. by destruct (wr (m_thTrackers s) _ _).
Qed.

Lemma swap_postponed ws s : ProcessPostponed (swap ws s) = (s ← ProcessPostponed s; Ret (swap ws s)).
Proof.
  unfold ProcessPostponed. cbn [swap m_postponed m_innerTracker]. destruct (m_postponed s); [done|].
  by destruct (m_innerTracker s).
Qed.

Lemma swap_inner ws s f : with_inner_tracker (swap ws s) f = (s ← with_inner_tracker s f; Ret (swap ws s)).
Proof. unfold with_inner_tracker. cbn [swap m_innerTracker]. by destruct (m_innerTracker s). Qed.

Lemma swap_Postpone ws s op info : Postpone op (swap ws s) info = swap ws (Postpone op s info).
Proof. unfold Postpone. cbn [swap m_cfg m_postponed]. by destruct (_ <=? _). Qed.

(** Internal operations at the first level. *)
Lemma swap_first ws s f :
  (s ← ProcessPostponed (swap ws s); with_inner_tracker s f) =
  (s ← (s ← ProcessPostponed s; with_inner_tracker s f); Ret (swap ws s)).
Proof. rewrite swap_postponed. destruct (ProcessPostponed s) as [s1| |]; [|done..]. repeat step_ret. apply swap_inner. Qed.

Lemma swap_alloc ws s th info trace ext :
  TrackAlloc avx xxh (swap ws s) th info trace ext =
  ('(info, trace, s) ← TrackAlloc avx xxh s th info trace ext; Ret (info, trace, swap ws s)).
Proof.
  unfold TrackAlloc. destruct ext.
  - rewrite swap_ensure. destruct (ensure_registered s th) as [s1| |]; [|done..]. repeat step_ret.
    change (current_tracker (swap ws s1) th) with (current_tracker s1 th).
    destruct (current_tracker s1 th) as [t| |]; [|done..]. repeat step_ret. cbn [swap m_btTracker].
    destruct (SaveTraceId _ _ _ _ _ _) as [[[[i tr] t'] bt]| |]; [|done..]. repeat step_ret.
    rewrite swap_store. by destruct (store_tracker s1 th _ bt).
  - cbn [swap m_innerBtTracker]. destruct (Static_InsertStacktrace _ _ _) as [[id ibt]| |]; [|done..]. repeat step_ret.
    set (s1 := with_inner s _ _ _ _). change (with_inner (swap ws s) _ _ _ _) with (swap ws s1).
    change (inner_first (swap ws s1) th) with (inner_first s1 th). destruct (inner_first s1 th).
    + rewrite swap_postponed. destruct (ProcessPostponed s1) as [s2| |]; [|done..]. repeat step_ret.
      rewrite swap_inner. by destruct (with_inner_tracker s2 _).
    + unfold PostponeAlloc. by rewrite swap_Postpone.
Qed.

Lemma swap_dealloc ws s th info ext :
  TrackDealloc (swap ws s) th info ext = (s ← TrackDealloc s th info ext; Ret (swap ws s)).
Proof.
  unfold TrackDealloc. destruct ext.
  - rewrite swap_ensure. destruct (ensure_registered s th) as [s1| |]; [|done..]. repeat step_ret.
    change (current_tracker (swap ws s1) th) with (current_tracker s1 th).
    destruct (current_tracker s1 th) as [t| |]; [|done..]. repeat step_ret. apply swap_store.
  - change (inner_first (swap ws s) th) with (inner_first s th). destruct (inner_first s th); [apply swap_first|].
    unfold PostponeDealloc. by rewrite swap_Postpone.
Qed.

Lemma swap_realloc ws s th prev info trace ext :
  TrackRealloc avx xxh (swap ws s) th prev info trace ext =
  ('(info, trace, s) ← TrackRealloc avx xxh s th prev info trace ext; Ret (info, trace, swap ws s)).
Proof.
  unfold TrackRealloc. destruct ext.
  - rewrite swap_ensure. destruct (ensure_registered s th) as [s1| |]; [|done..]. repeat step_ret.
    change (current_tracker (swap ws s1) th) with (current_tracker s1 th).
    destruct (current_tracker s1 th) as [t| |]; [|done..]. repeat step_ret. cbn [swap m_btTracker].
    destruct (SaveTraceId _ _ _ _ _ _) as [[[[i tr] t'] bt]| |]; [|done..]. repeat step_ret.
    rewrite swap_store. by destruct (store_tracker s1 th _ bt).
  - cbn [swap m_innerBtTracker]. destruct (Static_InsertStacktrace _ _ _) as [[id ibt]| |]; [|done..]. repeat step_ret.
    set (s1 := with_inner s _ _ _ _). change (with_inner (swap ws s) _ _ _ _) with (swap ws s1).
    change (inner_first (swap ws s1) th) with (inner_first s1 th). destruct (inner_first s1 th).
    + rewrite swap_postponed. destruct (ProcessPostponed s1) as [s2| |]; [|done..]. repeat step_ret.
      rewrite swap_inner. by destruct (with_inner_tracker s2 _).
    + unfold PostponeAlloc, PostponeDealloc. by rewrite !swap_Postpone.
Qed.

Lemma swap_exit ws s th : ThreadExit (swap ws s) th = (s ← ThreadExit s th; Ret (swap ws s)).
Proof.
  unfold ThreadExit. change (tls_of (swap ws s) th) with (tls_of s th).
  destruct (gtl_trackerFinalizer (tls_of s th)) as [i|]; [|done]. unfold ReclaimTracker.
  cbn [swap with_tls m_thTrackers]. by destruct (rd (m_thTrackers s) i).
Qed.
End swap.

(** The handlers leave the writer alone, so what they do with one they do with another. *)
Section handlers.
Context {I W W' : Type} `{!SequencedHash I CompressedStacktrace Z}.
Context (avx : bool) (xxh : list Z → Z).
Implicit Types (s : MemHawk I W) (th : nat) (ws : option (WorkerStorage W')).

Lemma swap_id s : swap (m_workerStorage s) s = s.
Proof. by destruct s. Qed.

Lemma alloc_swapped ws s th info trace ext i t (s0 : MemHawk I W') :
  TrackAlloc avx xxh (swap ws s) th info trace ext = Ret (i, t, s0) →
  ∃ s', TrackAlloc avx xxh s th info trace ext = Ret (i, t, s') ∧ s0 = swap ws s' ∧ m_workerStorage s' = m_workerStorage s.
Proof.
  intros E. rewrite swap_alloc in E. inv_ret. destruct r as [[i' t'] s']. simplify_eq. exists s'. split; [done|]. split; [done|].
  pose proof (swap_alloc avx xxh (m_workerStorage s) s th info trace ext) as H. rewrite swap_id, Hr in H.
  injection H as H. by rewrite H at 1.
Qed.

Lemma dealloc_swapped ws s th info ext (s0 : MemHawk I W') : TrackDealloc (swap ws s) th info ext = Ret s0 →
  ∃ s', TrackDealloc s th info ext = Ret s' ∧ s0 = swap ws s' ∧ m_workerStorage s' = m_workerStorage s.
Proof.
  intros E. rewrite swap_dealloc in E. inv_ret. eexists. split; [done|]. split; [done|].
  pose proof (swap_dealloc (m_workerStorage s) s th info ext) as H. rewrite swap_id, Hr in H.
  injection H as H. by rewrite H at 1.
Qed.

Lemma realloc_swapped ws s th prev info trace ext i t (s0 : MemHawk I W') :
  TrackRealloc avx xxh (swap ws s) th prev info trace ext = Ret (i, t, s0) →
  ∃ s', TrackRealloc avx xxh s th prev info trace ext = Ret (i, t, s') ∧ s0 = swap ws s' ∧ m_workerStorage s' = m_workerStorage s.
Proof.
  intros E. rewrite swap_realloc in E. inv_ret. destruct r as [[i' t'] s']. simplify_eq. exists s'. split; [done|]. split; [done|].
  pose proof (swap_realloc avx xxh (m_workerStorage s) s th prev info trace ext) as H. rewrite swap_id, Hr in H.
  injection H as H. by rewrite H at 1.
Qed.

Lemma exit_swapped ws s th (s0 : MemHawk I W') : ThreadExit (swap ws s) th = Ret s0 →
  ∃ s', ThreadExit s th = Ret s' ∧ s0 = swap ws s' ∧ m_workerStorage s' = m_workerStorage s.
Proof.
  intros E. rewrite swap_exit in E. inv_ret. eexists. split; [done|]. split; [done|].
  pose proof (swap_exit (m_workerStorage s) s th) as H. rewrite swap_id, Hr in H. injection H as H. by rewrite H at 1.
Qed.
End handlers.

(** ** The worker *)

Section worker.
Context {I W : Type} `{!SequencedHash I CompressedStacktrace Z} `{!IWriterStrategy W} `{!WriterSpec W}.
Context (uninit : list Z).
Implicit Types (s : MemHawk I W) (es : list event).

Abbreviation storage w := (Some (mkWorkerStorage w ∅ AllocSummary_zero)).

(** The snapshots [r] were taken of the events [es]. *)
Definition taken (r : Recorder) es : Prop :=
  Forall snapshot_ok r ∧ ∀ id, mentioned r id → id ∈ event_trace <$> es.

Lemma taken_mono r es new : taken r es → taken r (es ++ new).
Proof. intros [H1 H2]. split; [done|]. intros id Hid. rewrite fmap_app, elem_of_app. left. auto. Qed.

(** A tracker that holds some of the events [es]. *)
Definition part_of es (t : ThreadTracker I) : Prop := ∃ fs, holds t fs ∧ ∀ e, e ∈ fs → e ∈ es.

Lemma taken_snoc r es t : Forall (fun e => is_u32 (event_trace e)) es → taken r es → part_of es t →
  taken (r ++ [(tt_summaries t, summary_add AllocSummary_zero (tt_total t))]) es
  ∧ snapshot_ok (tt_summaries t, summary_add AllocSummary_zero (tt_total t)).
Proof.
  intros Hu [H1 H2] (fs & [Hs _] & Hfs). rewrite Forall_forall in Hu.
  assert (Hin : ∀ id a, tt_summaries t !! id = Some a → a = wrap (exact_sum (of_trace id fs)) ∧ ∃ e, e ∈ es ∧ event_trace e = id).
  { intros id a. rewrite Hs. case_bool_decide as Hn; [done|]. intros [= <-]. split; [done|].
    destruct (of_trace id fs) as [|e l] eqn:E; [done|].
    assert (He : e ∈ of_trace id fs) by (rewrite E; by left). unfold of_trace in He.
    apply list_elem_of_filter in He as [? ?]. exists e. auto. }
  assert (Hok : snapshot_ok (tt_summaries t, summary_add AllocSummary_zero (tt_total t))).
  { split; [apply summary_add_range|]. intros id s [-> (e & He & <-)]%Hin. split; [apply wrap_in_range|by apply Hu]. }
  split; [|done]. split; [by apply Forall_app; split; [|constructor]|].
  intros id. rewrite mentioned_snoc. intros [?|[s [_ (e & He & <-)]%Hin]]; [auto|]. by apply list_elem_of_fmap_2.
Qed.

(** The storages of the two profilers belong together. *)
Definition in_step (good : answers) es (ws : option (WorkerStorage W)) (ws0 : option (WorkerStorage Recorder)) : Prop :=
  ∃ w r, ws = storage w ∧ ws0 = storage r ∧ wr_inv good w r ∧ taken r es.

Context (good : answers) (es : list event) (es_ids : Forall (fun e => is_u32 (event_trace e)) es).

Lemma account_in_step s ws0 t : in_step good es (m_workerStorage s) ws0 → part_of es t →
  ∃ t' ws' ws0', WorkerAccountThreadTracker s t = Ret (t', swap ws' s)
    ∧ WorkerAccountThreadTracker (swap ws0 s) t = Ret (t', swap ws0' s) ∧ in_step good es ws' ws0'.
Proof.
  intros (w & r & Ew & -> & Hw & Hr) Ht. destruct (taken_snoc r es t es_ids Hr Ht) as [Hr' Hok].
  destruct (wr_account good w r _ _ Hw Hok) as (w' & E & Hw').
  unfold WorkerAccountThreadTracker. rewrite Ew. cbn [the swap m_workerStorage]. repeat step_ret.
  cbn [ConsumeDiff ws_localSummaries ws_summary ws_writer]. rewrite E. repeat step_ret. cbn.
  eexists _, (storage w'), (storage _). split; [done|]. split; [done|]. by eexists w', _.
Qed.

Lemma loop_in_step todo : ∀ s done ws0, in_step good es (m_workerStorage s) ws0 → Forall (part_of es) todo →
  ∃ ts ws' ws0',
    WorkerUpdateData_loop s todo done =
      Ret (with_trackers (swap ws' s) ts (m_finishedTrackers s) (m_exitingThreadsTracker s) (m_btTracker s))
    ∧ WorkerUpdateData_loop (swap ws0 s) todo done =
      Ret (with_trackers (swap ws0' s) ts (m_finishedTrackers s) (m_exitingThreadsTracker s) (m_btTracker s))
    ∧ in_step good es ws' ws0'.
Proof.
  induction todo as [|t todo IH]; intros s done ws0 Hs Hf; cbn [WorkerUpdateData_loop].
  { exists done, (m_workerStorage s), ws0. by rewrite swap_id. }
  apply Forall_cons in Hf as [Ht Hf].
  destruct (account_in_step s ws0 t Hs Ht) as (t' & ws1 & ws01 & -> & -> & H1). repeat step_ret.
  destruct (IH (swap ws1 s) (done ++ [t']) ws01 H1 Hf) as (ts & ws2 & ws02 & E1 & E2 & H2).
  exists ts, ws2, ws02. split; [exact E1|]. split; [exact E2|done].
Qed.

(** Both profilers after the snapshots were taken. *)
Lemma update_in_step s ws0 inn ex : in_step good es (m_workerStorage s) ws0 → Forall (part_of es) (m_thTrackers s) →
  m_innerTracker s = Some inn → part_of es inn → m_exitingThreadsTracker s = Some ex → part_of es ex →
  ∃ s' ws0', WorkerUpdateData s = Ret s' ∧ WorkerUpdateData (swap ws0 s) = Ret (swap ws0' s')
    ∧ in_step good es (m_workerStorage s') ws0' ∧ m_btTracker s' = m_btTracker s
    ∧ m_innerBtTracker s' = m_innerBtTracker s ∧ m_cfg s' = m_cfg s.
Proof.
  intros Hs Hth Ei Hi Ex Hx. unfold WorkerUpdateData.
  destruct (loop_in_step (m_thTrackers s) s [] ws0 Hs Hth) as (ts & ws1 & ws01 & E1 & E2 & H1).
  change (m_thTrackers (swap ws0 s)) with (m_thTrackers s). rewrite E1, E2. repeat step_ret.
  cbn [with_trackers swap m_innerTracker]. rewrite Ei. cbn [the]. repeat step_ret.
  set (s1 := with_trackers (swap ws1 s) _ _ _ _).
  change (with_trackers (swap ws01 s) _ _ _ _) with (swap ws01 s1).
  destruct (account_in_step s1 ws01 inn H1 Hi) as (inn' & ws2 & ws02 & -> & -> & H2). repeat step_ret.
  cbn [with_inner swap m_exitingThreadsTracker s1 with_trackers]. rewrite Ex. cbn [the]. repeat step_ret.
  set (s2 := with_inner (swap ws2 s1) _ _ _ _).
  change (with_inner (swap ws02 s1) _ _ _ _) with (swap ws02 s2).
  destruct (account_in_step s2 ws02 ex H2 Hx) as (ex' & ws3 & ws03 & -> & -> & (w & r & -> & -> & Hw & Hr)). repeat step_ret.
  cbn [with_trackers swap m_modulesCacheInvalidated m_workerStorage s1 s2 with_inner].
  destruct (m_modulesCacheInvalidated s); cbn [the]; repeat step_ret.
  - destruct (wr_modules good w r Hw) as (w' & E & Hw'). cbn [ws_writer]. rewrite E. repeat step_ret. cbn.
    eexists _, _. split; [done|]. split; [done|]. split; [by eexists w', r|done].
  - eexists _, _. split; [done|]. split; [done|]. split; [by eexists w, r|done].
Qed.

(** The numbers the writer of a state has to write fit their places. *)
Definition writer_fits s : Prop :=
  match m_workerStorage s with
  | Some st => wr_fits (InnerStacktraceFinder_GetStacktraceFromId uninit s) (ws_writer st)
  | None => True
  end.

Lemma print_in_step s ws0 : in_step good es (m_workerStorage s) ws0 → writer_fits s →
  (∀ r, taken r es → finder_good good (InnerStacktraceFinder_GetStacktraceFromId uninit s) r) →
  64 * (1 + zlen es) < 2 ^ 32 →
  ∃ s' w r, WorkerPrintData uninit s = Ret s' ∧ WorkerPrintData uninit (swap ws0 s) = Ret (swap ws0 s')
    ∧ m_workerStorage s' = storage w ∧ ws0 = storage r ∧ wr_inv good w r ∧ taken r es ∧ wr_told good w r
    ∧ m_btTracker s' = m_btTracker s ∧ m_innerBtTracker s' = m_innerBtTracker s ∧ m_cfg s' = m_cfg s.
Proof.
  intros (w & r & Ew & -> & Hw & Hr) Hfit Hf He. unfold writer_fits in Hfit. rewrite Ew in Hfit. unfold WorkerPrintData. rewrite Ew. cbn [the swap m_workerStorage].
  repeat step_ret.
  destruct (wr_flush good w r (InnerStacktraceFinder_GetStacktraceFromId uninit s) Hw (Hf r Hr)) as (w' & E & Hw' & Ht).
  { exists (event_trace <$> es). split; [apply Hr|]. unfold zlen in *. by rewrite length_fmap. }
  { exact Hfit. }
  cbn [ws_writer ws_localSummaries ws_summary]. rewrite E. repeat step_ret. cbn.
  eexists _, w', r. split; [done|]. split; [done|]. split_and!; done.
Qed.
End worker.

(** ** The profiler *)

Section profiler.
Context {I W : Type} `{!SequencedHash I CompressedStacktrace Z} `{!SequencedHashLaws I CompressedStacktrace Z}.
Context `{!IWriterStrategy W} `{!WriterSpec W}.
Context (avx : bool) (xxh : list Z → Z) (uninit : list Z) (uninit_length : zlen uninit = MaxUnwindDepth).
Implicit Types (s : MemHawk I W) (th : nat) (es : list event) (w : W) (r : Recorder).

(** What the trackers of a state know. *)
Definition view s : MemHawk I Recorder := swap None s.
Definition with_recorder s r : MemHawk I Recorder := swap (Some (mkWorkerStorage r ∅ AllocSummary_zero)) s.

(** The right answers to a writer; trace 0 was asked for before there were traces. *)
Definition right_of s : answers := fun id a =>
  (id = 0 ∧ a = None) ∨ ∃ tr ext, id_means xxh (view s) id tr ext ∧ right_answer (view s) id tr ext a.

Lemma right_of_later s s' id a : later xxh (view s) (view s') → right_of s id a → right_of s' id a.
Proof.
  intros Hl [H|(tr & ext & Hm & Ha)]; [by left|]. right. exists tr, ext. split; [by eapply id_means_later|].
  unfold right_answer in *. by rewrite (lt_cfg _ _ _ Hl).
Qed.

(** [s] has tracked [es], but for those that wait and that were lost according to [q]; its writer was
    given the snapshots [r] of them. *)
Record full_inv n s q es w r : Prop := {
  fu_worker : m_workerStorage s = Some (mkWorkerStorage w ∅ AllocSummary_zero);
  fu_inv : mh_inv xxh n (with_recorder s r) q es;
  fu_writer : wr_inv (right_of s) w r;
  fu_taken : taken r es;
  fu_known e : e ∈ es → ∃ tr ext, id_means xxh (view s) (event_trace e) tr ext;
  fu_room : 64 * (1 + zlen es + 2 * Z.of_nat n) < 2 ^ 32;
}.

Lemma later_view s s' r : later xxh (with_recorder s r) (with_recorder s' r) → later xxh (view s) (view s').
Proof. intros [H1 H2 H3]. by split. Qed.

(** A handler that tracks the events [new]. *)
Lemma full_step n n' s s' q q' es new w r : full_inv n s q es w r → m_workerStorage s' = m_workerStorage s →
  mh_inv xxh n' (with_recorder s' r) q' (es ++ new) → later xxh (with_recorder s r) (with_recorder s' r) →
  (∀ e, e ∈ new → ∃ tr ext, id_means xxh (view s') (event_trace e) tr ext) →
  zlen new + 2 * Z.of_nat n' ≤ 2 * Z.of_nat n → full_inv n' s' q' (es ++ new) w r.
Proof.
  intros [H1 H2 H3 H4 H5 H6] Ew Hi Hl%later_view Hn Hz. split; [by rewrite Ew|done| |by apply taken_mono| |].
  - apply (wr_mono (right_of s)); [|done]. intros id a. by apply right_of_later.
  - intros e [He|He]%elem_of_app; [|auto]. destruct (H5 e He) as (tr & ext & Hm). exists tr, ext. by eapply id_means_later.
  - rewrite zlen_app. lia.
Qed.

(** The ids of the events are known to the finder, and are ids. *)
Lemma full_ids n s q es w r : full_inv n s q es w r →
  Forall (fun e => is_u32 (event_trace e)) es ∧
  ∀ r, taken r es → finder_good (right_of s) (InnerStacktraceFinder_GetStacktraceFromId uninit s) r.
Proof.
  intros [_ Hi _ _ Hk _]. split.
  - apply Forall_forall. intros e He. destruct (Hk e He) as (tr & ext & Hm).
    pose proof (id_means_range xxh n (with_recorder s r) q es _ _ ext Hi Hm). unfold is_u32. destruct ext; lia.
  - intros r' [_ Ht] id Hid%Ht. apply list_elem_of_fmap in Hid as (e & -> & He). destruct (Hk e He) as (tr & ext & Hm).
    destruct (finder_right xxh uninit n (with_recorder s r) q es _ _ ext Hi uninit_length Hm) as (a & E & Ha & Hst).
    exists a. split; [exact E|]. split; [right; by exists tr, ext|done].
Qed.

(** Every tracker holds some of the events. *)
Lemma full_parts n s q es w r : full_inv n s q es w r →
  Forall (part_of es) (m_thTrackers s) ∧ ∃ inn ex, m_innerTracker s = Some inn ∧ part_of es inn
    ∧ m_exitingThreadsTracker s = Some ex ∧ part_of es ex.
Proof.
  intros [_ [_ _ [b [K1 (inn & Ei & Hi) (ex & Ex & Hx) _ K5]] _] _ _ _ _].
  assert (Hsub : ∀ fs : list event, (∀ e, e ∈ fs → e ∈ b_all (with_recorder s r) q b) → ∀ e, e ∈ fs → e ∈ es).
  { intros fs Hfs e He. rewrite <- K5. auto. }
  unfold b_all in Hsub. split.
  - apply Forall_lookup. intros i t Ht. destruct (Forall2_lookup_l _ _ _ _ _ K1 Ht) as (fs & Hfs & Hh). exists fs.
    split; [done|]. apply Hsub. intros e He. rewrite elem_of_app. right. rewrite elem_of_app. left.
    apply list_elem_of_In, in_concat. exists fs. split; apply list_elem_of_In; [by eapply list_elem_of_lookup_2|done].
  - exists inn, ex. split_and!; [done| |done|].
    + exists (b_inner b). split; [done|]. apply Hsub. intros e He. rewrite !elem_of_app. tauto.
    + exists (b_exit b). split; [done|]. apply Hsub. intros e He. rewrite !elem_of_app. tauto.
Qed.

(** What an iteration of the worker needs: the numbers of its flush fit. *)
Definition iteration_fits s : Prop :=
  match WorkerUpdateData s with Ret s1 => writer_fits uninit s1 | _ => True end.

Lemma full_worker n s q es w r : full_inv n s q es w r → iteration_fits s →
  ∃ s' w' r', WorkerIteration uninit s = Ret s' ∧ WorkerIteration uninit (with_recorder s r) = Ret (with_recorder s' r')
    ∧ full_inv n s' q es w' r' ∧ wr_told (right_of s') w' r'.
Proof.
  intros Hf Hfit. destruct (full_ids n s q es w r Hf) as [Hu Hfi]. destruct (full_parts n s q es w r Hf) as (Hp & inn & ex & Ei & Hi & Ex & Hx).
  pose proof Hf as [Ew Hinv Hw Ht Hk Hroom]. pose proof (zlen_nonneg es).
  destruct (update_in_step (right_of s) es Hu s (Some (mkWorkerStorage r ∅ AllocSummary_zero)) inn ex)
    as (s1 & ws0 & E1 & E2 & H1 & Eb1 & Ei1 & Ec1); try done.
  { exists w, r. by split_and!. }
  unfold iteration_fits in Hfit. rewrite E1 in Hfit.
  destruct (print_in_step uninit (right_of s) es s1 ws0 H1 Hfit) as (s2 & w' & r' & E3 & E4 & Ew' & -> & Hw' & Ht' & Htold & Eb2 & Ei2 & Ec2).
  { intros r0 Hr0 id Hid. unfold InnerStacktraceFinder_GetStacktraceFromId. rewrite Eb1, Ei1. by apply (Hfi r0). }
  { lia. }
  assert (Hl : later xxh (view s) (view s2)) by (apply same_store_later; unfold same_store; cbn; split_and!; congruence).
  assert (Hl' : later xxh (view s2) (view s)) by (apply same_store_later; unfold same_store; cbn; split_and!; congruence).
  assert (E : WorkerIteration uninit (with_recorder s r) = Ret (with_recorder s2 r')).
  { unfold WorkerIteration. unfold with_recorder at 1. rewrite E2. step_ret. exact E4. }
  destruct (WorkerIteration_spec xxh uninit n (with_recorder s r) q es Hinv) as (s0 & E0 & Hinv0 & _). rewrite E in E0.
  injection E0 as <-. exists s2, w', r'. split; [unfold WorkerIteration; rewrite E1; step_ret; exact E3|]. split; [done|].
  split.
  - split; try done.
    + apply (wr_mono (right_of s)); [|done]. intros id a. by apply right_of_later.
    + intros e He. destruct (Hk e He) as (tr & ext & Hm). exists tr, ext. by eapply id_means_later.
  - apply (wr_told_mono (right_of s)); [|done]. intros id a. by apply right_of_later.
Qed.

(** The state after the constructors; the writer is made when the trackers are there. *)
Lemma full_start n cfg w : cfg_ok cfg → 1 + 64 * Z.of_nat n < 2 ^ 31 →
  wr_inv (fun id a => id = 0 ∧ a = None) w [] →
  full_inv n (MemHawk_PostponedConstruct w (MemHawk_ctor cfg)) nobody_waits [] w [].
Proof.
  intros Hc Hn Hw. pose proof (start_inv (I := I) xxh n cfg Hc Hn) as Hi. destruct Hc as (Ht & _). split.
  - cbn. by rewrite Ht.
  - cbn. unfold start, MemHawk_PostponedConstruct in Hi. cbn in Hi. by rewrite Ht in Hi.
  - apply (wr_mono (fun id a => id = 0 ∧ a = None)); [|done]. intros id a ?. by left.
  - split; [apply List.Forall_nil|]. by intros id ?%Exists_nil.
  - by intros e ?%elem_of_nil.
  - change (zlen []) with 0. assert (64 * Z.of_nat n ≤ 2 ^ 31 - 64); [|lia].
    change (2 ^ 31) with (64 * 2 ^ 25) in *. lia.
Qed.

(** Before any trace was inserted the finder knows none. *)
Lemma finder_start w cfg : InnerStacktraceFinder_GetStacktraceFromId uninit (MemHawk_PostponedConstruct (I := I) w (MemHawk_ctor cfg)) 0 = Ret None.
Proof. reflexivity. Qed.

(** *** Behind the allocation functions *)

Definition act s (a : background) : outcome (MemHawk I W) :=
  let level th f := let l := tls_of s th in
    Ret (with_tls s th (mkTls (gtl_tracker l) (gtl_trackerFinalizer l) (u32 (f (inner_level l))))) in
  match a with
  | BThreadExit th => ThreadExit s th
  | BEnterInner th => level th (fun l => l + 1)
  | BLeaveInner th => level th (fun l => l - 1)
  | BWorker => WorkerIteration uninit s
  end.

#[local] Instance writer_profiler : Profiler (MemHawk I W) := {
  prof_TrackAlloc s th info trace ext :=
    '(info, _, s) ← TrackAlloc avx xxh s th info trace ext; Ret (info, s);
  prof_TrackDealloc s th info ext := TrackDealloc s th info ext;
  prof_TrackRealloc s th prev info trace ext :=
    '(info, _, s) ← TrackRealloc avx xxh s th prev info trace ext; Ret (info, s);
  prof_InvalidateModulesCache := InvalidateModulesCache;
  prof_action := background;
  prof_act := act;
}.

(** Only the worker asks for something. *)
Definition act_can s (a : background) : Prop := match a with BWorker => iteration_fits s | _ => True end.

Lemma full_act n s q es w r a : full_inv n s q es w r → act_can s a →
  ∃ s' w' r', act s a = Ret s' ∧ full_inv n s' (queue_act q a) es w' r'.
Proof.
  intros Hf Hcan. pose proof Hf as [Ew Hi Hw Ht Hk Hroom].
  assert (Hlevel : ∀ th f, ∃ s' w' r', Ret (with_tls s th (mkTls (gtl_tracker (tls_of s th)) (gtl_trackerFinalizer (tls_of s th))
    (u32 (f (inner_level (tls_of s th)))))) = Ret s' ∧ full_inv n s' (queue_level q th f) es w' r').
  { intros th f. eexists _, w, r. split; [done|]. split; try done. exact (set_level_inv xxh n _ q es th f Hi). }
  destruct a as [th|th|th|]; cbn [act queue_act]; [|apply (Hlevel th (fun l => l + 1))|apply (Hlevel th (fun l => l - 1))|].
  - destruct (ThreadExit_spec xxh n _ q es th Hi) as (s0 & E & Hi' & Hl).
    destruct (exit_swapped _ s th s0 E) as (s' & E' & -> & Es). exists s', w, r. split; [done|].
    rewrite <- (app_nil_r es). eapply (full_step n); try done; [by rewrite app_nil_r|by intros e ?%elem_of_nil].
  - destruct (full_worker n s q es w r Hf Hcan) as (s' & w' & r' & E & _ & Hf' & _). by exists s', w', r'.
Qed.

Lemma full_le n s q es w r : full_inv (S n) s q es w r → full_inv n s q es w r.
Proof. intros [H1 H2 H3 H4 H5 H6]. split; try done; [by apply mh_inv_le|lia]. Qed.

Lemma full_invalidate n s q es w r : full_inv n s q es w r → full_inv n (InvalidateModulesCache s) q es w r.
Proof.
  intros [H1 H2 H3 H4 H5 H6]. split; try done.
  destruct H2 as [Hth [] [b []] Hq]. split; [by eapply threads_ok_ext; [..|exact Hth]|by split|exists b; by split|done].
Qed.

Lemma full_alloc n s q es w r th info trace ext : full_inv (S n) s q es w r → st_ok trace → addresses trace →
  ∃ info' tr' s', TrackAlloc avx xxh s th info trace ext = Ret (info', tr', s')
    ∧ full_inv n s' (queued s q th ext [EvAlloc info']) (es ++ [EvAlloc info']) w r ∧ tagged info info'.
Proof.
  intros Hf Hst Ha.
  destruct (TrackAlloc_spec avx xxh n _ q es th info trace ext (fu_inv _ _ _ _ _ _ Hf) Hst Ha)
    as (info' & tr' & s0 & E & Hi' & Hl & Hm). pose proof (TrackAlloc_info avx xxh _ _ _ _ _ _ _ _ E) as Einfo.
  destruct (alloc_swapped avx xxh _ s th info trace ext info' tr' s0 E) as (s' & -> & -> & Es).
  exists info', tr', s'. split; [done|]. split.
  - eapply (full_step (S n)); try done; [|change (zlen [_]) with 1; lia].
    intros e ->%list_elem_of_singleton. by exists (GetTrace trace), ext.
  - pose proof (id_means_valid xxh _ _ _ _ _ _ _ Hi' Hm). by rewrite Einfo.
Qed.

Lemma full_dealloc n s q es w r th info ext : full_inv (S n) s q es w r → EvAlloc info ∈ es →
  ∃ s', TrackDealloc s th info ext = Ret s'
    ∧ full_inv n s' (queued s q th ext [EvFree info]) (es ++ [EvFree info]) w r.
Proof.
  intros Hf Hin.
  destruct (TrackDealloc_spec xxh n _ q es th info ext (fu_inv _ _ _ _ _ _ Hf)) as (s0 & E & Hi' & Hl).
  destruct (dealloc_swapped _ s th info ext s0 E) as (s' & -> & -> & Es). exists s'. split; [done|].
  eapply (full_step (S n)); try done; [|change (zlen [_]) with 1; lia].
  intros e ->%list_elem_of_singleton. destruct (fu_known _ _ _ _ _ _ Hf _ Hin) as (tr & x & Hm). exists tr, x.
  eapply id_means_later; [by eapply later_view|exact Hm].
Qed.

Lemma full_realloc n s q es w r th prev info trace ext :
  full_inv (S n) s q es w r → EvAlloc prev ∈ es → st_ok trace → addresses trace →
  ∃ info' tr' s', TrackRealloc avx xxh s th prev info trace ext = Ret (info', tr', s')
    ∧ full_inv n s' (queued s q th ext [EvFree prev; EvAlloc info']) (es ++ [EvFree prev; EvAlloc info']) w r
    ∧ tagged info info'.
Proof.
  intros Hf Hin Hst Ha.
  destruct (TrackRealloc_spec avx xxh n _ q es th prev info trace ext (fu_inv _ _ _ _ _ _ Hf) Hst Ha)
    as (info' & tr' & s0 & E & Hi' & Hl & Hm). pose proof (TrackRealloc_info avx xxh _ _ _ _ _ _ _ _ _ E) as Einfo.
  destruct (realloc_swapped avx xxh _ s th prev info trace ext info' tr' s0 E) as (s' & -> & -> & Es).
  exists info', tr', s'. split; [done|]. split.
  - eapply (full_step (S n)); try done; [|change (zlen [_; _]) with 2; lia].
    intros e [->|[->|?%elem_of_nil]%elem_of_cons]%elem_of_cons; [|by exists (GetTrace trace), ext|done].
    destruct (fu_known _ _ _ _ _ _ Hf _ Hin) as (tr & x & Hp). exists tr, x.
    eapply id_means_later; [by eapply later_view|exact Hp].
  - pose proof (id_means_valid xxh _ _ _ _ _ _ _ Hi' Hm). by rewrite Einfo.
Qed.

#[local, refine] Instance writer_profiler_spec : ProfilerSpec (MemHawk I W) :=
  { prof_inv n s es := ∃ q w r, full_inv n s q es w r; prof_can := act_can }.
Proof.
  - intros n s es (q & w & r & Hf). exists q, w, r. by apply full_le.
  - intros n s es th info trace ext (q & w & r & Hf) Hst Ha. cbn.
    destruct (full_alloc n s q es w r th info trace ext Hf Hst Ha) as (info' & tr' & s' & -> & Hf' & Ht). step_ret.
    exists info', s'. split; [done|]. split; [by eexists _, w, r|done].
  - intros n s es th info ext (q & w & r & Hf) Hin. cbn.
    destruct (full_dealloc n s q es w r th info ext Hf Hin) as (s' & -> & Hf'). exists s'. split; [done|]. by eexists _, w, r.
  - intros n s es th prev info trace ext (q & w & r & Hf) Hin Hst Ha. cbn.
    destruct (full_realloc n s q es w r th prev info trace ext Hf Hin Hst Ha) as (info' & tr' & s' & -> & Hf' & Ht). step_ret.
    exists info', s'. split; [done|]. split; [by eexists _, w, r|done].
  - intros n s es (q & w & r & Hf). exists q, w, r. by apply full_invalidate.
  - intros n s es a (q & w & r & Hf) Hcan. destruct (full_act n s q es w r a Hf Hcan) as (s' & w' & r' & E & Hf').
    exists s'. split; [done|]. by exists (queue_act q a), w', r'.
Defined.

(** *** With the reference queue beside it

    The profiler and the reference see the same calls; the reference is never read, so the first
    component does what the profiler does alone. *)
#[local] Instance watched_profiler : Profiler (MemHawk I W * Waiting) := {
  prof_TrackAlloc '(s, q) th info trace ext :=
    '(info, _, s') ← TrackAlloc avx xxh s th info trace ext; Ret (info, (s', queued s q th ext [EvAlloc info]));
  prof_TrackDealloc '(s, q) th info ext :=
    s' ← TrackDealloc s th info ext; Ret (s', queued s q th ext [EvFree info]);
  prof_TrackRealloc '(s, q) th prev info trace ext :=
    '(info, _, s') ← TrackRealloc avx xxh s th prev info trace ext;
    Ret (info, (s', queued s q th ext [EvFree prev; EvAlloc info]));
  prof_InvalidateModulesCache '(s, q) := (InvalidateModulesCache s, q);
  prof_action := background;
  prof_act '(s, q) a := s' ← act s a; Ret (s', queue_act q a);
}.

#[local, refine] Instance watched_profiler_spec : ProfilerSpec (MemHawk I W * Waiting) :=
  { prof_inv n m es := ∃ w r, full_inv n m.1 m.2 es w r; prof_can m := act_can m.1 }.
Proof.
  - intros n [s q] es (w & r & Hf). exists w, r. by apply full_le.
  - intros n [s q] es th info trace ext (w & r & Hf) Hst Ha. cbn in *.
    destruct (full_alloc n s q es w r th info trace ext Hf Hst Ha) as (info' & tr' & s' & -> & Hf' & Ht). step_ret.
    eexists info', _. split; [done|]. split; [by exists w, r|done].
  - intros n [s q] es th info ext (w & r & Hf) Hin. cbn in *.
    destruct (full_dealloc n s q es w r th info ext Hf Hin) as (s' & -> & Hf'). step_ret. eexists. split; [done|]. by exists w, r.
  - intros n [s q] es th prev info trace ext (w & r & Hf) Hin Hst Ha. cbn in *.
    destruct (full_realloc n s q es w r th prev info trace ext Hf Hin Hst Ha) as (info' & tr' & s' & -> & Hf' & Ht). step_ret.
    eexists info', _. split; [done|]. split; [by exists w, r|done].
  - intros n [s q] es (w & r & Hf). exists w, r. by apply full_invalidate.
  - intros n [s q] es a (w & r & Hf) Hcan. cbn in *. destruct (full_act n s q es w r a Hf Hcan) as (s' & w' & r' & -> & Hf').
    step_ret. eexists. split; [done|]. by exists w', r'.
Defined.
End profiler.
