(* ===== verification/Files.v ===== *)
(** * The files and the heap

    The whole program: the allocation functions of [hawk_malloc.cpp], [MemHawk] behind them, and
    behind [MemHawk] the adaptor that the factory makes from the configuration.  What a reader
    finds in the files is compared with the blocks the program holds.  Beside [MemHawk] runs the
    reference queue of own operations, which sees the same calls. *)

From Stdlib Require Import ZArith Lia.
From stdpp Require Import base numbers list gmap strings.
From S2P Require Import Prelude FromChars ParseStruct Algo AllocInfo Stacktrace LruCache StacktraceTree IStacktraceTracker StacktraceTracker StaticTracker ThreadTracker MemHawk HawkMalloc HawkHeap Profiling Config HeaptrackWriter Snapshots ProtobufWriter TextWriter Writers WriterContract Reports.

(** ** Any writer *)

Section any.
Context {L I W : Type} `{!Libc L} `{!LibcLaws L} `{!Unwinder} `{!UnwinderLaws}.
Context `{!SequencedHash I CompressedStacktrace Z} `{!SequencedHashLaws I CompressedStacktrace Z}.
Context `{!IWriterStrategy W} `{!WriterSpec W}.
Context (avx : bool) (xxh : list Z → Z) (sp : bool) (uninit : list Z).
Context (uninit_length : zlen uninit = MaxUnwindDepth) (uninit_words : Forall is_u64 uninit).

#[local] Instance any_profiler : Profiler (MemHawk I W * Waiting) := watched_profiler avx xxh uninit.
#[local] Instance any_profiler_spec : ProfilerSpec (MemHawk I W * Waiting) := watched_profiler_spec avx xxh uninit uninit_length.

(** The frames that are shown for an id: none for an own operation that found the tracker full. *)
Definition shown_frames (m : MemHawk I W) (id : Z) (tr : list Z) (isExternal : bool) : option (list Z) :=
  if isExternal then Some (dyn_canon (collapse tr (u32 (cfg_CollapseRecursionDepth (m_cfg m)))))
  else if decide (id = UnknownTraceId) then None else Some (static_canon tr).

(** Per trace the snapshots [cs] and the own operations that wait or were lost add up to the live
    blocks. *)
Definition matches_heap (q : Waiting) (cs : Recorder) (user : gmap Z AllocInfo) : Prop :=
  ∀ id, id ≠ InvalidTraceId →
    same_held
      (summary_add (consumed_of id cs) (wrap (exact_sum (of_trace id (q_waiting q ++ q_lost q)))))
      (wrap (exact_sum (of_trace id (live_events user)))).

Lemma iteration_told n (c : Client) (m0 := (gl_memhawk (cl_hawk c)).1) (q := (gl_memhawk (cl_hawk c)).2) :
  reachable (L := L) (M := MemHawk I W * Waiting) sp uninit n c →
  gl_memhawkReady (cl_hawk c) = true → iteration_fits uninit m0 →
  ∃ m es w cs, WorkerIteration uninit m0 = Ret m
    ∧ full_inv xxh n m q es w cs ∧ wr_told (right_of xxh m) w cs ∧ matches_heap q cs (cl_user c).
Proof.
  intros (f & es & Hi & _)%reachable_inv Hr Hfit; [|done..].
  destruct (hi_prof _ _ _ _ _ Hi Hr) as [(w & r & Hf) Hb]. fold m0 q in Hf.
  destruct (full_worker xxh uninit uninit_length n _ q es w r Hf Hfit) as (m & w' & cs & E & E0 & Hf' & Ht).
  destruct (WorkerIteration_spec xxh uninit n _ q es (fu_inv _ _ _ _ _ _ _ Hf)) as (m1 & E1 & Hi1 & _ & b & Hbk & He).
  rewrite E0 in E1. injection E1 as <-. exists m, es, w', cs. split; [done|]. split; [done|]. split; [done|].
  intros id Hid. pose proof (books_sum _ q b es id Hbk) as Hs. rewrite (books_idle _ q b es id Hbk He), summary_add_zero in Hs.
  change (snapshots (with_recorder m cs)) with cs in Hs. rewrite (proj2 (mi_queue _ _ _ _ _ Hi1)) in Hs.
  rewrite Hs. by apply same_held_wrap, (bl_held _ _ Hb).
Qed.

(** A right answer shows the frames of the trace. *)
Lemma right_frames n (m : MemHawk I W) q es w cs id tr ext a : full_inv xxh n m q es w cs →
  id_means xxh (view m) id tr ext → id ≠ 0 → right_of xxh m id a → GetTrace <$> a = shown_frames m id tr ext.
Proof.
  intros Hf Hm Hz [[? _]|(tr' & ext' & Hm' & Ha)]; [done|]. pose proof (fu_inv _ _ _ _ _ _ _ Hf) as Hi.
  assert (ext' = ext) as ->.
  { pose proof (id_means_range xxh _ _ _ _ _ _ _ Hi Hm). pose proof (id_means_range xxh _ _ _ _ _ _ _ Hi Hm').
    destruct ext, ext'; lia || done. }
  destruct (finder_right xxh uninit n _ q es id tr ext Hi uninit_length Hm) as (r & E & Hr & _).
  destruct (finder_right xxh uninit n _ q es id tr' ext Hi uninit_length Hm') as (r' & E' & Hr' & _).
  rewrite E in E'. injection E' as <-. unfold right_answer in *. unfold shown_frames. destruct ext.
  - destruct Ha as (st & -> & Hst), Hr as (s1 & -> & Hs1), Hr' as (s2 & [= <-] & Hs2). cbn in *. congruence.
  - case_decide; [by rewrite Ha|]. destruct Ha as (st & -> & Hst), Hr as (s1 & -> & Hs1), Hr' as (s2 & [= <-] & Hs2).
    cbn. congruence.
Qed.

(** Every trace with a balance has a meaning. *)
Lemma balance_means n (m : MemHawk I W) q es w cs id : full_inv xxh n m q es w cs → mentioned cs id →
  ∃ tr ext, id_means xxh (view m) id tr ext.
Proof.
  intros Hf Hid. apply (proj2 (fu_taken _ _ _ _ _ _ _ Hf)), list_elem_of_fmap in Hid as (e & -> & He).
  by apply (fu_known _ _ _ _ _ _ _ Hf).
Qed.
End any.

(** A writer is still in its state after the snapshots were taken. *)
Section update.
Context {I W : Type} `{!SequencedHash I CompressedStacktrace Z} `{!IWriterStrategy W} `{!WriterSpec W}.
Context (xxh : list Z → Z) (uninit : list Z) (uninit_length : zlen uninit = MaxUnwindDepth).

Lemma update_keeps n (m : MemHawk I W) q es w cs : full_inv xxh n m q es w cs →
  ∃ m1 w1 cs1, WorkerUpdateData m = Ret m1 ∧ m_workerStorage m1 = Some (mkWorkerStorage w1 ∅ AllocSummary_zero)
    ∧ wr_inv (right_of xxh m) w1 cs1.
Proof.
  intros Hf. destruct (full_ids xxh uninit uninit_length n m q es w cs Hf) as [Hu _].
  destruct (full_parts xxh uninit n m q es w cs Hf) as (Hp & inn & ex & Ei & Hi & Ex & Hx).
  destruct (update_in_step (right_of xxh m) es Hu m (Some (mkWorkerStorage cs ∅ AllocSummary_zero)) inn ex)
    as (m1 & ws0 & E1 & _ & (w1 & cs1 & Ew & _ & Hw & _) & _); try done.
  - exists w, cs. destruct Hf as [Ew _ Hw Ht _ _]. by split_and!.
  - by exists m1, w1, cs1.
Qed.
End update.

(** Without a heaptrack writer every number fits. *)
Lemma fits_unless_heaptrack {I X} `{!SequencedHash I CompressedStacktrace Z} `{!SequencedHashLaws I CompressedStacktrace Z}
    `{!SummaryIndex X} `{!SummaryIndexLaws X} (xxh : list Z → Z) (uninit : list Z) (uninit_length : zlen uninit = MaxUnwindDepth)
    (hash_order : gset Z → list Z) (hash_order_perm : ∀ S, hash_order S ≡ₚ elements S)
    serialize_info serialize_snapshot ZSTD_compress progname ZSTD_decompress parse_info parse_snapshot
    (zstd_law : ∀ b, ZSTD_decompress (ZSTD_compress b) = Some b)
    (info_law : ∀ i : proto_ProcessInfo, parse_info (serialize_info i) = Some i)
    (snapshot_law : ∀ s : proto_Snapshot, parse_snapshot (serialize_snapshot s) = Some s)
    (sys : System) (cfg : object) (counts : counts_ok (text_config cfg)) (system_at : nat → Env)
    (SW := adaptor_spec (I := X) hash_order hash_order_perm serialize_info serialize_snapshot ZSTD_compress progname
             ZSTD_decompress parse_info parse_snapshot zstd_law info_law snapshot_law sys cfg counts system_at)
    n (m : MemHawk I _) q es w cs :
  writer_enabled "heaptrack_writer" cfg = false → full_inv (WriterSpec0 := SW) xxh n m q es w cs →
  iteration_fits (WriterSpec0 := SW) uninit m.
Proof.
  intros Hh Hf. destruct (update_keeps (WriterSpec0 := SW) xxh uninit uninit_length n m q es w cs Hf) as (m1 & [k ws] & cs1 & E & Ew & [Hn _]).
  unfold iteration_fits. rewrite E. unfold writer_fits. rewrite Ew. cbn [wr_fits SW adaptor_spec ws_writer fst snd] in *.
  apply Forall_forall. intros [t|p|h] Hin; [done..|]. exfalso.
  assert (Hx : "heaptrack_writer"%string ∈ enabled_names cfg) by (rewrite <- Hn; apply list_elem_of_fmap; by exists (WHeaptrack h)).
  apply list_elem_of_filter in Hx as [Hx _]. congruence.
Qed.

(** ** Property *)

(** C1: the files agree with the heap.  With any configuration, whatever the program and the
    profiler did, an iteration of the worker succeeds (when the heaptrack writer is on, as long as
    the numbers it has to write have at most 15 hexadecimal digits), and then there are snapshots
    [cs] that, with the own operations of the profiler that wait in its queue and those that a full
    queue lost, add up for every trace to the bytes, the overhead and the number of the live blocks
    under this trace.  What waits and what is lost is not free: it is what the reference queue [q]
    has, which saw the same calls and events and nothing of the state of the profiler (an own operation of a
    thread that is inside the profiler waits, or is lost when [max_postponed] events wait already).
    The enabled writers and no others exist; the protobuf file is read back to exactly the balances
    of [cs], and to the frames of every trace with a balance, as they were when the id was given, or
    to none for the unknown id of a full tracker; the characters of the heaptrack file are read back
    to one allocation of every positive balance of [cs] at the frames of its trace, and to nothing
    else (when no name that is written has a newline); and the last report of the text file has the
    totals and the heaviest traces of [cs].  The frames of the id 0 are left out, and fewer
    than 2^25 requests follow the initialisation, so that the 32-bit ids suffice. *)
Theorem files_match_heap {L I X} `{!Libc L} `{!LibcLaws L} `{!Unwinder} `{!UnwinderLaws}
    `{!SequencedHash I CompressedStacktrace Z} `{!SequencedHashLaws I CompressedStacktrace Z}
    `{!SummaryIndex X} `{!SummaryIndexLaws X}
    (avx : bool) (xxh : list Z → Z) (sp : bool) (uninit : list Z) (uninit_length : zlen uninit = MaxUnwindDepth)
    (hash_order : gset Z → list Z) (hash_order_perm : ∀ S, hash_order S ≡ₚ elements S)
    serialize_info serialize_snapshot ZSTD_compress progname ZSTD_decompress parse_info parse_snapshot
    (zstd_law : ∀ b, ZSTD_decompress (ZSTD_compress b) = Some b)
    (info_law : ∀ i : proto_ProcessInfo, parse_info (serialize_info i) = Some i)
    (snapshot_law : ∀ s : proto_Snapshot, parse_snapshot (serialize_snapshot s) = Some s)
    (sys : System) (cfg : object) (counts : counts_ok (text_config cfg)) (system_at : nat → Env) n
    (c : Client (L := L) (M := MemHawk I (nat * list (AnyWriter (I := X))) * Waiting))
    (IW := adaptor_strategy (I := X) hash_order serialize_snapshot ZSTD_compress progname system_at)
    (SW := adaptor_spec (I := X) hash_order hash_order_perm serialize_info serialize_snapshot ZSTD_compress progname
             ZSTD_decompress parse_info parse_snapshot zstd_law info_law snapshot_law sys cfg counts system_at) :
  Forall is_u64 uninit →
  reachable (L := L) (M := MemHawk I _ * Waiting) (Profiler0 := watched_profiler (IWriterStrategy0 := IW) avx xxh uninit)
    (ProfilerSpec0 := watched_profiler_spec (WriterSpec0 := SW) avx xxh uninit uninit_length) sp uninit n c →
  gl_memhawkReady (cl_hawk c) = true →
  let m0 := (gl_memhawk (cl_hawk c)).1 in let q := (gl_memhawk (cl_hawk c)).2 in
  (writer_enabled "heaptrack_writer" cfg = true → iteration_fits (WriterSpec0 := SW) uninit m0) →
  ∃ m k ws cs, WorkerIteration (IWriterStrategy0 := IW) uninit m0 = Ret m
    ∧ m_workerStorage m = Some (mkWorkerStorage (k, ws) ∅ AllocSummary_zero)
    ∧ po_event <$> m_postponed m = q_waiting q ∧ matches_heap q cs (cl_user c)
    ∧ writer_name <$> ws = enabled_names cfg
    ∧ (∀ id, consumed_of id cs ≠ AllocSummary_zero → ∃ tr ext, id_means xxh (view m) id tr ext)
    ∧ (∀ w, WProto w ∈ ws → zlen (pb_ofstream w) < 2 ^ 64 → ∃ r,
        read_proto_file ZSTD_decompress parse_info parse_snapshot (pb_ofstream w) =
          Some (FillProcessInfo progname (sy_shortName sys) (sy_pid sys) (sy_startNs sys), r)
        ∧ ∀ id, default (FillAllocSummary AllocSummary_zero) (pr_actual r !! id) = FillAllocSummary (consumed_of id cs)
          ∧ ∀ tr ext, id_means xxh (view m) id tr ext → id ≠ 0 → consumed_of id cs ≠ AllocSummary_zero →
              pr_traces r !! id = (fun fs : list Z => written_addr <$> fs) <$> shown_frames m id tr ext)
    ∧ (∀ w, WHeaptrack w ∈ ws → clean_system sys system_at → let r := read_text (file_text (ht_ofstream w)) in
        ∀ id, let size := sum_size (consumed_of id cs) in
          if 0 <? size
          then ∀ tr ext, id_means xxh (view m) id tr ext → id ≠ 0 →
            match shown_frames m id tr ext with
            | Some fs => ∃ node, rd_live r !! id = Some (size, node)
                ∧ node_path 64 (rd_nodes r) node = Some (Z.pred <$> filter (fun p => p ≠ 0) (reverse fs))
            | None => rd_live r !! id = None
            end
          else rd_live r !! id = None)
    ∧ (∀ w, WText w ∈ ws → ∃ now, text_tells cs (text_config cfg) now w).
Proof.
  intros Hu Hr Hready m0 q Hfits.
  assert (Hfit : iteration_fits (WriterSpec0 := SW) uninit m0).
  { destruct (writer_enabled "heaptrack_writer" cfg) eqn:Eh; [by apply Hfits|].
    apply reachable_inv in Hr as (f & es & Hi & _); [|done..]. destruct (hi_prof _ _ _ _ _ Hi Hready) as [(w & r & Hf) _].
    by eapply fits_unless_heaptrack. }
  destruct (iteration_told avx xxh sp uninit uninit_length Hu n c Hr Hready Hfit) as (m & es & [k ws] & cs & E & Hf & [Hn Ht] & Hm).
  exists m, k, ws, cs. split; [exact E|]. split; [by apply Hf|].
  split; [apply (proj2 (mi_queue _ _ _ _ _ (fu_inv _ _ _ _ _ _ _ Hf)))|]. split; [done|]. split; [done|].
  cbn [snd] in Ht. rewrite Forall_forall in Ht.
  pose proof (right_frames (WriterSpec0 := SW) xxh uninit uninit_length n m q es (k, ws) cs) as Hframes.
  assert (Hment : ∀ id, consumed_of id cs ≠ AllocSummary_zero → mentioned cs id).
  { intros id Hne. apply dec_stable. intros Hx. by apply Hne, consumed_unmentioned. }
  split_and!.
  - intros id Hne. by eapply (balance_means (WriterSpec0 := SW)); [exact Hf|apply Hment].
  - intros w Hw Hsz. destruct (Ht _ Hw Hsz) as (r & Er & _ & Hb). exists r. split; [done|]. intros id.
    destruct (Hb id) as [H1 H2]. split; [done|]. intros tr ext Hmean Hz Hne.
    destruct H2 as (a & Ha & ->); [by apply Hment|]. rewrite <- (Hframes id tr ext a Hf Hmean Hz Ha). by destruct a.
  - intros w Hw Hcl r id. pose proof (Ht _ Hw Hcl id) as Hb. cbv zeta in *. fold r in Hb. destruct (0 <? _); [|done].
    intros tr ext Hmean Hz. destruct Hb as (a & Ha & Hb). rewrite <- (Hframes id tr ext a Hf Hmean Hz Ha). by destruct a.
  - intros w Hw. exact (Ht _ Hw).
Qed.

(** The profiler as [MemHawk::PostponedConstruct] leaves it, with the adaptor of the factory. *)
Lemma system_start {I X} `{!SequencedHash I CompressedStacktrace Z} `{!SequencedHashLaws I CompressedStacktrace Z}
    `{!SummaryIndex X} `{!SummaryIndexLaws X} (xxh : list Z → Z) (uninit : list Z)
    (hash_order : gset Z → list Z) (hash_order_perm : ∀ S, hash_order S ≡ₚ elements S)
    serialize_info serialize_snapshot ZSTD_compress progname ZSTD_decompress parse_info parse_snapshot
    (zstd_law : ∀ b, ZSTD_decompress (ZSTD_compress b) = Some b)
    (info_law : ∀ i : proto_ProcessInfo, parse_info (serialize_info i) = Some i)
    (snapshot_law : ∀ s : proto_Snapshot, parse_snapshot (serialize_snapshot s) = Some s)
    (sys : System) (cfg : object) (counts : counts_ok (text_config cfg)) (system_at : nat → Env) n mcfg
    (SW := adaptor_spec (I := X) hash_order hash_order_perm serialize_info serialize_snapshot ZSTD_compress progname
             ZSTD_decompress parse_info parse_snapshot zstd_law info_law snapshot_law sys cfg counts system_at) :
  (writer_enabled "heaptrack_writer" cfg = true → 0 ≤ sy_pageSize sys < 2 ^ 60 ∧ 0 ≤ sy_physPages sys < 2 ^ 60) →
  cfg_ok mcfg → 1 + 64 * Z.of_nat n < 2 ^ 31 →
  ∃ ws, CreateWritersAdaptor hash_order serialize_info serialize_snapshot ZSTD_compress progname sys cfg
          (InnerStacktraceFinder_GetStacktraceFromId uninit
             (MemHawk_PostponedConstruct (I := I) (0%nat, @nil (AnyWriter (I := X))) (MemHawk_ctor mcfg))) = Ret ws
    ∧ full_inv (WriterSpec0 := SW) xxh n (MemHawk_PostponedConstruct (I := I) (0%nat, ws) (MemHawk_ctor mcfg)) nobody_waits [] (0%nat, ws) [].
Proof.
  intros Hh Hc Hn.
  destruct (adaptor_new hash_order hash_order_perm serialize_info serialize_snapshot ZSTD_compress progname sys cfg system_at Hh
    (fun id a => id = 0 ∧ a = None) (InnerStacktraceFinder_GetStacktraceFromId uninit
       (MemHawk_PostponedConstruct (I := I) (0%nat, @nil (AnyWriter (I := X))) (MemHawk_ctor mcfg))) 0%nat) as (ws & E & Hws); [done..|].
  exists ws. split; [done|]. by apply full_start.
Qed.

(** A run with all writers: 24 bytes before initialisation, then 100 bytes that are tracked. *)
Definition demo_writers : object := example_writers.
Definition demo_sys : System := mkSystem [98] 1 2 (mkProtoEnv 3 []) None [] 4096 1000.
Definition demo_env (_ : nat) : Env := mkEnv 2 (mkProtoEnv 9 []) (mkFlushEnv 9 8 []).
Abbreviation demo_adaptor := (nat * list (AnyWriter (I := gmap Z AllocSummary)))%type.
Definition demo_files : Type := MemHawk (list (CompressedStacktrace * Z)) demo_adaptor.
Abbreviation demo_watched := (demo_files * Waiting)%type.

Lemma demo_counts : counts_ok (text_config demo_writers).
Proof. vm_compute. split_and!; discriminate. Qed.

Lemma demo_clean : clean_system demo_sys demo_env.
Proof. split; [split; [done|apply not_elem_of_nil]|]. intros k. apply List.Forall_nil. Qed.

Definition demo_strategy : IWriterStrategy demo_adaptor := adaptor_strategy elements to_bytes id [97] demo_env.
Definition demo_writer_spec : @WriterSpec demo_adaptor demo_strategy :=
  adaptor_spec elements (fun _ => reflexivity _) to_bytes to_bytes id [97] Some of_bytes of_bytes (fun _ => eq_refl)
    of_to_bytes of_to_bytes demo_sys demo_writers demo_counts demo_env.
#[local] Instance files_profiler : Profiler demo_watched := watched_profiler (IWriterStrategy0 := demo_strategy) true (fun _ => 0) sample_words.
#[local] Instance files_spec : ProfilerSpec demo_watched :=
  watched_profiler_spec (WriterSpec0 := demo_writer_spec) true (fun _ => 0) sample_words eq_refl.
Local Abbreviation files_reach := (reachable (L := Arena) (M := demo_watched) false sample_words).

Definition files_new (ws : list (AnyWriter (I := gmap Z AllocSummary))) : demo_files :=
  MemHawk_PostponedConstruct (0%nat, ws) (MemHawk_ctor demo_cfg).
Definition files_start : demo_files :=
  match CreateWritersAdaptor elements to_bytes to_bytes id [97] demo_sys demo_writers
          (InnerStacktraceFinder_GetStacktraceFromId sample_words (files_new [])) with
  | Ret ws => files_new ws
  | _ => files_new []
  end.
Definition files_serve (c : Client (L := Arena) (M := demo_watched)) (r : request (M := demo_watched)) :=
  serve false sample_words c r.
Definition files_next (c : Client) (r : request) : Client :=
  match files_serve c r with Ret (_, c) => c | _ => c end.
Definition files_client : Client :=
  foldl files_next
    (mkClient (mkHawk (mkArena 1 ∅) ∅ (fun _ => 85) false false false (MemHawk_ctor demo_cfg, nobody_waits) 0 false ∅) ∅)
    [RMalloc 0%nat 24; RInit (Some ((files_start, nobody_waits), 16, false)); RMalloc 0%nat 100].

Lemma files_step n c r : files_reach (S n) c → allowed n c r →
  match files_serve c r with Ret _ => true | _ => false end = true → files_reach n (files_next c r).
Proof.
  intros Hc Ha Hs. unfold files_next. destruct (files_serve c r) as [[v c']| |] eqn:E; [|done..].
  by apply (reach_step _ _ n c r v).
Qed.

Lemma files_reachable : files_reach 5 files_client.
Proof.
  unfold files_client. cbn [foldl].
  apply files_step; [|cbn; lia|vm_compute; reflexivity].
  apply files_step; [|split_and!; [vm_compute; reflexivity|lia|]|vm_compute; reflexivity].
  2: { destruct (system_start (I := list (CompressedStacktrace * Z)) (X := gmap Z AllocSummary) (fun _ => 0) sample_words elements (fun _ => reflexivity _) to_bytes to_bytes id [97] Some of_bytes of_bytes (fun _ => eq_refl)
    of_to_bytes of_to_bytes demo_sys demo_writers demo_counts demo_env 6 demo_cfg) as (ws & E & Hf); [by vm_compute|ground|lia|].
    unfold files_start. change (files_new []) with (MemHawk_PostponedConstruct (I := list (CompressedStacktrace * Z)) (0%nat, @nil (AnyWriter (I := gmap Z AllocSummary))) (MemHawk_ctor demo_cfg)). rewrite E. exists (0%nat, ws), []. exact Hf. }
  apply files_step; [|cbn; lia|vm_compute; reflexivity].
  apply reach_start. split_and!; done.
Qed.

Definition small_file (w : AnyWriter (I := gmap Z AllocSummary)) : bool :=
  match w with WProto w => zlen (pb_ofstream w) <? 2 ^ 64 | _ => true end.

Lemma files_small m k ws : WorkerIteration (IWriterStrategy0 := demo_strategy) sample_words (gl_memhawk (cl_hawk files_client)).1 = Ret m →
  m_workerStorage m = Some (mkWorkerStorage (k, ws) ∅ AllocSummary_zero) → forallb small_file ws = true.
Proof.
  assert (H : match WorkerIteration (IWriterStrategy0 := demo_strategy) sample_words (gl_memhawk (cl_hawk files_client)).1 with
    | Ret m => match m_workerStorage m with Some st => forallb small_file (ws_writer st).2 | None => false end
    | _ => false end = true) by (vm_compute; reflexivity).
  intros E Ew. by rewrite E, Ew in H.
Qed.

Lemma files_fit : iteration_fits (WriterSpec0 := demo_writer_spec) sample_words (gl_memhawk (cl_hawk files_client)).1.
Proof.
  assert (H : match WorkerUpdateData (IWriterStrategy0 := demo_strategy) (gl_memhawk (cl_hawk files_client)).1 with
    | Ret m => match m_workerStorage m with
      | Some st => forallb (fun w => match w with
          | WHeaptrack w => bool_decide (heaptrack_fits (en_heaptrack (demo_env (ws_writer st).1))
                              (InnerStacktraceFinder_GetStacktraceFromId sample_words m) w)
          | _ => true end) (ws_writer st).2
      | None => true end
    | _ => true end = true) by (vm_compute; reflexivity).
  unfold iteration_fits. destruct (WorkerUpdateData _) as [m| |]; [|done..]. unfold writer_fits.
  destruct (m_workerStorage m) as [st|]; [|done]. apply Is_true_eq_left, forallb_True in H. apply (Forall_impl _ _ _ H).
  intros [w|w|w]; [done..|]. by intros Hw%Is_true_eq_true%bool_decide_eq_true.
Qed.

Lemma files_match_heap_witness :
  ∃ m k t p h cs r,
    WorkerIteration (IWriterStrategy0 := demo_strategy) sample_words (gl_memhawk (cl_hawk files_client)).1 = Ret m
    ∧ m_workerStorage m = Some (mkWorkerStorage (k, [WText t; WProto p; WHeaptrack h]) ∅ AllocSummary_zero)
    ∧ matches_heap (gl_memhawk (cl_hawk files_client)).2 cs (cl_user files_client)
    ∧ read_proto_file Some of_bytes of_bytes (pb_ofstream p) = Some (FillProcessInfo [97] [98] 1 2, r)
    ∧ (∀ i, default (FillAllocSummary AllocSummary_zero) (pr_actual r !! i) = FillAllocSummary (consumed_of i cs))
    ∧ ∀ i, (sum_size (consumed_of i cs) ≤ 0 → rd_live (read_text (file_text (ht_ofstream h))) !! i = None).
Proof.
  destruct (files_match_heap (I := list (CompressedStacktrace * Z)) (X := gmap Z AllocSummary) (H0 := sample_unwinder_laws)
    true (fun _ => 0) false sample_words eq_refl elements (fun _ => reflexivity _) to_bytes to_bytes id [97] Some of_bytes of_bytes
    (fun _ => eq_refl) of_to_bytes of_to_bytes demo_sys demo_writers demo_counts demo_env 5 files_client)
    as (m & k & ws & cs & E & Ew & _ & Hm & Hn & _ & Hp & Hh & _).
  - apply Forall_replicate. unfold is_u64; lia.
  - apply files_reachable.
  - vm_compute. reflexivity.
  - intros _. apply files_fit.
  - pose proof (files_small m k ws E Ew) as Hs.
    assert (Hn' : writer_name <$> ws = ["text_writer"; "proto_writer"; "heaptrack_writer"]%string) by (rewrite Hn; vm_compute; reflexivity).
    destruct ws as [|[t|?|?] [|[?|p|?] [|[?|?|h] [|? ?]]]]; try discriminate Hn'.
    destruct (Hp p) as (r & Hr & Hb); [right; by left|cbn in Hs; lia|].
    exists m, k, t, p, h, cs, r. split; [exact E|]. split; [exact Ew|]. split; [exact Hm|]. split; [exact Hr|].
    split; [intros i; apply Hb|]. intros i Hi. specialize (Hh h ltac:(right; right; by left) demo_clean i). cbv zeta in Hh.
    destruct (Z.ltb_spec 0 (sum_size (consumed_of i cs))); [lia|exact Hh].
Defined.
