(* ===== verification/Startup.v ===== *)
(** * The start of the program ([hooks::InitHooks], [hooks::CheckProgname], [hooks::init_memhawk])

    The constructor of the library: the functions of libc are looked up, the configuration is
    read from the environment, the name of the program is compared with a regular expression,
    the log is opened, and the profiler is made with its writers.  [dlsym] and the regular
    expressions (RE2) are parameters.  The messages of a start are part of the model. *)

From Stdlib Require Import ZArith Lia.
From stdpp Require Import base numbers list gmap strings.
From S2P Require Import Prelude FromChars ParseStruct Algo AllocInfo Stacktrace LruCache IStacktraceTracker StacktraceTracker StaticTracker ThreadTracker MemHawk HawkMalloc HawkHeap Profiling Config HeaptrackWriter Snapshots ProtobufWriter TextWriter Writers WriterContract Reports Files Logging.

(** RE2: is a pattern correct, what is wrong with it, and does it match a whole text? *)
Class RE2 := { RE2_ok : text → bool; RE2_error : text → text; RE2_FullMatch : text → text → bool }.

Definition CheckProgname `{!RE2} (program_invocation_name prognameRegex : text) (log : Log) : bool * Log :=
  if bool_decide (prognameRegex = []) then (true, log)
  else if negb (RE2_ok prognameRegex) then
    (false, LogEx (mkMessage Error (str "CheckProgname") (str "Incorrect progname regex: " ++ RE2_error prognameRegex)) log)
  else (RE2_FullMatch program_invocation_name prognameRegex, log).

(** Does the program have the right name? *)
Definition right_name `{!RE2} (program_invocation_name prognameRegex : text) : bool :=
  bool_decide (prognameRegex = []) || RE2_ok prognameRegex && RE2_FullMatch program_invocation_name prognameRegex.

Lemma CheckProgname_spec `{!RE2} name regex log : (CheckProgname name regex log).1 = right_name name regex.
Proof. unfold CheckProgname, right_name. case_bool_decide; [done|]. by destruct (RE2_ok regex). Qed.

(** ** Parts of the configuration *)

Definition get_string (path : list text) (o : object) : text :=
  match Get path o with Some x => match m_value x with VString s => s | _ => [] end | None => [] end.

(** A struct that is a member of a struct. *)
Definition get_struct (k : text) (o : object) : object :=
  match o with
  | OStruct ms => match find_member k ms with Some m => m_value m | None => OStruct [] end
  | OValue _ => OStruct []
  end.

(** The members of the struct for the log. *)
Definition get_level (path : list text) (o : object) : Z :=
  match Get path o with Some x => match m_value x with VEnum _ z => z | _ => 0 end | None => 0 end.
Definition log_config (cfg : object) : LogConfig :=
  mkLogConfig (get_bool [str "logging"; str "main_log"] cfg) (get_level [str "logging"; str "log_level"] cfg)
    (get_string [str "logging"; str "log_dir"] cfg).

Definition writers_of (cfg : object) : object := get_struct (str "writers") (get_struct (str "memhawk") cfg).

Lemma Get_struct k p o : p ≠ [] → Get p (get_struct k o) = Get (k :: p) o.
Proof.
  intros Hp. destruct p as [|a p]; [done|]. destruct o as [v|ms]; [done|]. cbn [get_struct].
  change (Get (k :: a :: p) (OStruct ms)) with (m ← find_member k ms; Get (a :: p) (m_value m)).
  by destruct (find_member k ms).
Qed.

Lemma Get_writers p cfg : p ≠ [] → Get p (writers_of cfg) = Get (str "memhawk" :: str "writers" :: p) cfg.
Proof. intros Hp. unfold writers_of. rewrite Get_struct by done. by rewrite Get_struct. Qed.

Lemma size_writers p cfg : p ≠ [] → get_size p (writers_of cfg) = get_size (str "memhawk" :: str "writers" :: p) cfg.
Proof. intros Hp. unfold get_size. by rewrite Get_writers. Qed.

(** The numbers of the text writer cannot be negative. *)
Lemma parsed_counts cfg : well_typed cfg → shape cfg = shape MainConfig → counts_ok (text_config (writers_of cfg)).
Proof.
  intros Ht Hs. unfold counts_ok, text_config, index_config. cbn [wc_ExternalTraces wc_InternalTraces ic_BySizeCount ic_ByTotalCount].
  split_and!; rewrite size_writers by done; apply get_size_range; try done; eexists; by vm_compute.
Qed.

(** ** The constructor of the library *)

(** The process is aborted, exits with a code, or goes on, with the handlers of [pthread_atfork] or without. *)
Inductive startup (S : Type) := SAbort | SExit (code : Z) (log : Log) | SRun (s : S) (log : Log) (atfork : bool).
Arguments SAbort {S}.
Arguments SExit {S} _ _.
Arguments SRun {S} _ _ _.

Section Startup.
Context {L I X : Type} `{!Libc L} `{!LibcLaws L} `{!Unwinder} `{!UnwinderLaws}.
Context `{!SequencedHash I CompressedStacktrace Z} `{!SequencedHashLaws I CompressedStacktrace Z}.
Context `{!SummaryIndex X} `{!SummaryIndexLaws X} `{!RE2} `{!Fmt} `{!SplitIterator}.
Context (avx : bool) (xxh : list Z → Z) (sp : bool) (uninit : list Z).
Context (uninit_length : zlen uninit = MaxUnwindDepth) (uninit_words : Forall is_u64 uninit).
Context (hash_order : gset Z → list Z) (hash_order_perm : ∀ S, hash_order S ≡ₚ elements S).
Context (serialize_info : proto_ProcessInfo → bytes) (serialize_snapshot : proto_Snapshot → bytes).
Context (ZSTD_compress : bytes → bytes) (progname : bytes).
Context (ZSTD_decompress : bytes → option bytes) (parse_info : bytes → option proto_ProcessInfo)
        (parse_snapshot : bytes → option proto_Snapshot).
Context (zstd_law : ∀ b, ZSTD_decompress (ZSTD_compress b) = Some b)
        (info_law : ∀ i, parse_info (serialize_info i) = Some i)
        (snapshot_law : ∀ s, parse_snapshot (serialize_snapshot s) = Some s).
Context (sys : System) (sys_small : 0 ≤ sy_pageSize sys < 2 ^ 60 ∧ 0 ≤ sy_physPages sys < 2 ^ 60).
Context (system_at : nat → Env) (program_invocation_name : text).
Context (program_invocation_short_name : text) (getpid : Z) (open_error : text → option Z) (strerror : Z → text).
(** Does [dlsym] find a function? *)
Context (dlsym : string → bool).

Abbreviation adaptor := (nat * list (AnyWriter (I := X)))%type.
Abbreviation hawk := (Hawk L (MemHawk I adaptor)).
Implicit Types (s : hawk) (cfg : object).

(** [hook::init]: without the original function the process is aborted. *)
Definition hook_init (identifier : string) : option unit := if dlsym identifier then Some tt else None.

Definition InitDlHooks s : option hawk :=
  if gl_dlInitialised s then Some s
  else
    _ ← hook_init "dlopen"; _ ← hook_init "dlclose";
    Some (mkHawk (hk_libc s) (hk_headers s) (hk_bytes s) (gl_initialised s) true (gl_memhawkReady s) (gl_memhawk s)
            (TrackDepth s) (UseAbslStacktraces s) (hk_guards s)).

Definition InitHooks s : option hawk :=
  s ← InitDlHooks s;
  _ ← hook_init "calloc"; _ ← hook_init "malloc"; _ ← hook_init "free"; _ ← hook_init "realloc";
  _ ← hook_init "posix_memalign"; _ ← hook_init "valloc"; _ ← hook_init "aligned_alloc";
  Some s.

(** [new MemHawk] and [PostponedConstruct], which makes the writers when there is a worker. *)
Definition new_MemHawk cfg : outcome (MemHawk I adaptor) :=
  let m := MemHawk_ctor (profiler_config cfg) in
  ws ← (if cfg_TrackingWorker (profiler_config cfg)
        then CreateWritersAdaptor hash_order serialize_info serialize_snapshot ZSTD_compress progname sys (writers_of cfg)
               (InnerStacktraceFinder_GetStacktraceFromId uninit (MemHawk_PostponedConstruct (0%nat, []) m))
        else Ret []);
  Ret (MemHawk_PostponedConstruct (0%nat, ws) m).

(** [PrintMessage] of the configuration. *)
Definition print_messages (out : list text) (log : Log) : Log :=
  with_process log (foldl (fun p message => sys_write p STDERR_FILENO message) (lg_process log) out).

(** The messages of the starting thread itself while the profiler is made.  Not here are what
    [ProcessPostponed] logs for own allocations on the debug level, and what the worker thread logs
    when it starts, which may come at any later time. *)
Definition start_messages : list LogMessage := [
  mkMessage Info (str "init_memhawk") (str "[" ++ print_int getpid ++ str "]");
  mkMessage Info (str "MemHawk") (str "Start MemHawk()");
  mkMessage Debug (str "PostponedConstruct") (str "begin");
  mkMessage Debug (str "PostponedConstruct") (str "end");
  mkMessage Info (str "PostponedConstruct") (str "MemHawk fully initialized")].

(** [init_memhawk] from the value of [MEMHAWK_OPTS]. *)
Definition init_process (env : option text) s (log : Log) : outcome (startup hawk) :=
  match InitHooks s with
  | None => Ret SAbort
  | Some s =>
    let '(out, config) := ParseConfig env in
    let log := print_messages out log in
    match config with
    | Exited code => Ret (SExit code log)
    | Returned cfg =>
      let '(matches, log) := CheckProgname program_invocation_name (get_string [str "progname_regex"] cfg) log in
      if matches then
        match LogInit program_invocation_short_name getpid open_error strerror (log_config cfg) log with
        | LogExit code log => Ret (SExit code log)
        | LogRun log =>
          m ← new_MemHawk cfg;
          Ret (SRun (init_memhawk s (Some (m, get_size TrackDepth_path cfg, get_bool [str "unwind"; str "absl"] cfg)))
                 (log_all start_messages log) true)
        end
      else Ret (SRun (init_memhawk s None) (mkLog (gl_logFile log) (gl_loggingConfig log) (LogLevel_value Off) (lg_process log)) false)
    end
  end.

(** ** What a started process is *)

(** The functions that are looked up: those of [dl] only once. *)
Definition looked_up s : list string :=
  (if gl_dlInitialised s then [] else ["dlopen"; "dlclose"])
  ++ ["calloc"; "malloc"; "free"; "realloc"; "posix_memalign"; "valloc"; "aligned_alloc"].

Lemma InitHooks_spec s :
  if forallb dlsym (looked_up s) then ∃ s', InitHooks s = Some s' ∧ ∀ pr, init_memhawk s' pr = init_memhawk s pr
  else InitHooks s = None.
Proof.
  unfold InitHooks, InitDlHooks, hook_init, looked_up.
  destruct (gl_dlInitialised s); cbn;
    repeat (match goal with |- context [dlsym ?f] => destruct (dlsym f) end; cbn; try done);
    eexists; (split; [done|]); intros [[[m d] a]|]; done.
Qed.

Abbreviation files_spec_of cfg counts :=
  (adaptor_spec (I := X) hash_order hash_order_perm serialize_info serialize_snapshot ZSTD_compress progname
     ZSTD_decompress parse_info parse_snapshot zstd_law info_law snapshot_law sys (writers_of cfg) counts system_at).
Abbreviation runs cfg counts :=
  (reachable (L := L) (M := MemHawk I adaptor)
     (Profiler0 := writer_profiler (IWriterStrategy0 := adaptor_strategy hash_order serialize_snapshot ZSTD_compress progname system_at) avx xxh uninit)
     (ProfilerSpec0 := writer_profiler_spec (WriterSpec0 := files_spec_of cfg counts) avx xxh uninit uninit_length) sp uninit).

(** What [ValidateConfig] leaves to the user: a worker, a cache with room, a collapse depth that does not wrap. *)
Definition sane cfg : Prop := cfg_ok (profiler_config cfg).

Lemma new_MemHawk_spec cfg counts n : sane cfg → 1 + 64 * Z.of_nat n < 2 ^ 31 →
  ∃ m w, new_MemHawk cfg = Ret m ∧ full_inv (WriterSpec0 := files_spec_of cfg counts) xxh n m nobody_waits [] w [].
Proof.
  intros Hc Hn. unfold new_MemHawk. rewrite (proj1 Hc).
  destruct (system_start (I := I) xxh uninit hash_order hash_order_perm serialize_info serialize_snapshot ZSTD_compress progname
    ZSTD_decompress parse_info parse_snapshot zstd_law info_law snapshot_law sys (writers_of cfg) counts system_at n
    (profiler_config cfg) (fun _ => sys_small) Hc Hn) as (ws & E & Hf). cbv zeta. rewrite E. step_ret. eexists _, _. split; [done|exact Hf].
Qed.

(** The values that [ParseConfig] checks. *)
Definition in_bounds cfg : Prop :=
  3 ≤ get_size TrackDepth_path cfg ≤ 64 ∧ 64 ≤ cfg_MaxPostponed (profiler_config cfg).

Lemma default_checked : in_bounds MainConfig.
Proof. unfold in_bounds. vm_compute. split_and!; discriminate. Qed.

(** A configuration that was returned: the defaults, or what the options say. *)
Lemma returned_config env cfg out : (∀ input, env = Some input → zlen input < 2 ^ 32) → ParseConfig env = (out, Returned cfg) →
  out = [] ∧ in_bounds cfg ∧ well_typed cfg ∧ shape cfg = shape MainConfig
  ∧ match env with
    | None => cfg = MainConfig
    | Some input => ∃ errs, ParseStruct input MainConfig = (errs, true, cfg) ∧ get_bool Help_path cfg = false
    end.
Proof.
  intros Hl E. destruct env as [input|].
  - destruct (config_checked input (Hl _ eq_refl)) as (errs & ok & cfg0 & out0 & run & Ep & Ec & Hrun). rewrite E in Ec.
    injection Ec as <- <-. destruct Hrun as (-> & -> & (-> & Hd & Hm) & Hh & Hs & Ht & _). split; [done|]. split; [done|].
    split; [done|]. split; [done|]. by exists errs.
  - injection E as <- <-. split; [done|]. split; [apply default_checked|]. split; [apply MainConfig_typed|done].
Qed.

(** ** Property *)

(** The process runs: the profiler is there exactly when the name is right, and then the log is open. *)
Definition started cfg (log : Log) (s' : hawk) (log' : Log) : Prop :=
  gl_memhawkReady s' = right_name program_invocation_name (get_string [str "progname_regex"] cfg)
  ∧ if gl_memhawkReady s' then
      ∃ log1, LogInit program_invocation_short_name getpid open_error strerror (log_config cfg) log = LogRun log1
        ∧ log' = log_all start_messages log1
    else gl_logFile log' = gl_logFile log ∧ gl_loggingConfig log' = gl_loggingConfig log.

(** The log cannot be opened. *)
Definition log_fails cfg (log : Log) : Prop :=
  right_name program_invocation_name (get_string [str "progname_regex"] cfg) = true
  ∧ ∃ log', LogInit program_invocation_short_name getpid open_error strerror (log_config cfg) log = LogExit (-1) log'.

Lemma LogInit_code (lcfg : LogConfig) log code log' :
  LogInit program_invocation_short_name getpid open_error strerror lcfg log = LogExit code log' → code = -1.
Proof. unfold LogInit. destruct (MainLogIntoFile lcfg); [|done]. destruct (sys_open _ _ _) as [[?|?] ?]; [|done]. by intros [= <- _]. Qed.

Lemma CheckProgname_same name regex log b log' : CheckProgname name regex log = (b, log') → b = true → log' = log.
Proof. unfold CheckProgname. case_bool_decide; [by intros [= <- <-]|]. destruct (RE2_ok regex); cbn; by intros [= <- <-]. Qed.

Lemma CheckProgname_log name regex log b log' : CheckProgname name regex log = (b, log') →
  gl_logFile log' = gl_logFile log ∧ gl_loggingConfig log' = gl_loggingConfig log.
Proof.
  unfold CheckProgname. case_bool_decide; [by intros [= _ <-]|]. destruct (RE2_ok regex); cbn; intros [= _ <-]; [done|].
  unfold LogEx. by destruct (_ <=? _).
Qed.

Lemma print_messages_nil log : print_messages [] log = log.
Proof. by destruct log. Qed.

(** A start with a configuration that was accepted. *)
Lemma start_returned cfg counts n (c : Client) s1 log : in_bounds cfg → sane cfg → 1 + 64 * Z.of_nat n < 2 ^ 31 →
  runs cfg counts (S n) c → gl_initialised (cl_hawk c) = false →
  InitHooks (cl_hawk c) = Some s1 → (∀ pr, init_memhawk s1 pr = init_memhawk (cl_hawk c) pr) →
  ∀ env, ParseConfig env = ([], Returned cfg) →
  (log_fails cfg log ∧ ∃ log', init_process env (cl_hawk c) log = Ret (SExit (-1) log'))
  ∨ ¬ log_fails cfg log ∧ ∃ s' log', init_process env (cl_hawk c) log = Ret (SRun s' log' (gl_memhawkReady s'))
      ∧ runs cfg counts n (mkClient s' (cl_user c)) ∧ started cfg log s' log'.
Proof.
  intros Hb Hsane Hn Hr Hi Eh Es env E. unfold init_process, log_fails. rewrite Eh, E, print_messages_nil.
  destruct (CheckProgname _ _ _) as [b log1] eqn:Ec.
  assert (Hb1 : b = right_name program_invocation_name (get_string [str "progname_regex"] cfg)) by (by rewrite <- (CheckProgname_spec _ _ log), Ec).
  rewrite <- Hb1. destruct b.
  - rewrite (CheckProgname_same _ _ _ _ _ Ec eq_refl).
    destruct (LogInit _ _ _ _ _ _) as [code log'|log'] eqn:El.
    { left. rewrite (LogInit_code _ _ _ _ El) in *. split; [split; [done|]; by eexists|]. by exists log'. }
    right. split; [by intros [_ [? ?]]|].
    destruct (new_MemHawk_spec cfg counts n Hsane Hn) as (m & w & -> & Hf). step_ret. rewrite Es.
    exists (init_memhawk (cl_hawk c) (Some (m, get_size TrackDepth_path cfg, get_bool [str "unwind"; str "absl"] cfg))), (log_all start_messages log').
    split; [done|].
    split; [|split; [done|]; cbn; by exists log'].
    refine (reach_step _ _ n c (RInit (Some (m, _, _))) Nothing _ Hr _ eq_refl). split; [done|].
    split; [destruct Hb; lia|]. by exists nobody_waits, w, [].
  - right. split; [by intros [? _]|]. rewrite Es.
    assert (Hready : gl_memhawkReady (cl_hawk c) = false).
    { apply reachable_inv in Hr as (f & es & Hinv & _); [|done..].
      destruct (gl_memhawkReady (cl_hawk c)) eqn:Er; [|done]. rewrite (hi_ready _ _ _ _ _ Hinv Er) in Hi. done. }
    exists (init_memhawk (cl_hawk c) None). eexists. split; [cbn [init_memhawk gl_memhawkReady]; by rewrite Hready|].
    split; [by refine (reach_step _ _ n c (RInit None) Nothing _ Hr _ eq_refl)|].
    unfold started. cbn. rewrite Hready. split; [done|]. by apply CheckProgname_log in Ec.
Qed.

(** C36: the start of the program.  The process is aborted exactly when a function of libc that is
    looked up is not found.  It exits with code 0 exactly when the options are accepted, the checked
    values in bounds and help is asked for, with -1 when an option or a value was rejected, after
    printing what is wrong, and with -1 when the name of the program matches and the log cannot be
    opened.  Otherwise the configuration is the default or the one the options describe, nothing was
    printed, the track depth is between 3 and 64 and the queue has room for 64 operations; and, when
    it is sane in what is not checked, the library starts without a failure, with the profiler, an
    open log and the handlers for forks exactly when the name of the program matches, in a state
    from which the allocation functions, the profiler and its files keep all they promise. *)
Theorem startup_checked env n (c : Client) log : (∀ input, env = Some input → zlen input < 2 ^ 32) → 1 + 64 * Z.of_nat n < 2 ^ 31 →
  if forallb dlsym (looked_up (cl_hawk c)) then
    match ParseConfig env with
    | (out, Exited code) =>
      init_process env (cl_hawk c) log = Ret (SExit code (print_messages out log))
      ∧ ∃ input errs ok cfg, env = Some input ∧ ParseStruct input MainConfig = (errs, ok, cfg)
          ∧ ((code = 0 ∧ ok = true ∧ in_bounds cfg ∧ get_bool Help_path cfg = true) ∨ (code = -1 ∧ ¬ (ok = true ∧ in_bounds cfg)))
    | (out, Returned cfg) =>
      out = [] ∧ in_bounds cfg
      ∧ match env with
        | None => cfg = MainConfig
        | Some input => ∃ errs, ParseStruct input MainConfig = (errs, true, cfg) ∧ get_bool Help_path cfg = false
        end
      ∧ ∃ counts, sane cfg → runs cfg counts (S n) c → gl_initialised (cl_hawk c) = false →
          (log_fails cfg log ∧ ∃ log', init_process env (cl_hawk c) log = Ret (SExit (-1) log'))
          ∨ ¬ log_fails cfg log ∧ ∃ s' log', init_process env (cl_hawk c) log = Ret (SRun s' log' (gl_memhawkReady s'))
              ∧ runs cfg counts n (mkClient s' (cl_user c)) ∧ started cfg log s' log'
    end
  else init_process env (cl_hawk c) log = Ret SAbort.
Proof.
  intros Hl Hn. pose proof (InitHooks_spec (cl_hawk c)) as Hd. destruct (forallb _ _); [|by unfold init_process; rewrite Hd].
  destruct Hd as (s1 & Eh & Es). destruct (ParseConfig env) as [out [cfg|code]] eqn:E.
  - destruct (returned_config env cfg out Hl E) as (-> & Hb & Ht & Hs & He). split; [done|]. split; [done|]. split; [done|].
    exists (parsed_counts cfg Ht Hs). intros Hsane Hr Hi. by apply (start_returned cfg _ n c s1).
  - unfold init_process. rewrite Eh, E. split; [done|]. destruct env as [input|]; [|discriminate E].
    destruct (config_checked input (Hl _ eq_refl)) as (errs & ok & cfg & out0 & run & Ep & Ec & Hrun). rewrite E in Ec.
    injection Ec as <- <-. exists input, errs, ok, cfg. split; [done|]. split; [done|]. unfold in_bounds.
    destruct Hrun as [(-> & (-> & Hdepth & Hroom) & Hhelp)|[-> Hno]]; [left; done|right; done].
Qed.

(** When the program is not profiled because of its name, the destructor of the library closes its
    error stream: [LogDeinit] does what the default configuration says, which is to close the log. *)
Lemma unprofiled_stderr_closed env s p s' log' : init_process env s (Log_start p) = Ret (SRun s' log' false) →
  right_name program_invocation_name (match (ParseConfig env).2 with Returned cfg => get_string [str "progname_regex"] cfg | _ => [] end) = false →
  ps_fds (lg_process (LogDeinit log')) !! STDERR_FILENO = None.
Proof.
  unfold init_process. destruct (InitHooks s); [|done]. destruct (ParseConfig env) as [out [cfg|code]]; [|done]. cbn [snd].
  destruct (CheckProgname _ _ _) as [b log1] eqn:Ec. intros E Hn.
  assert (b = false) as -> by (rewrite <- Hn, <- (CheckProgname_spec _ _ (print_messages out (Log_start p))); by rewrite Ec).
  injection E as _ <-. apply CheckProgname_log in Ec as [E1 E2]. cbn in E1, E2. unfold LogDeinit. cbn. rewrite E1, E2. cbn. apply lookup_delete_eq.
Qed.
End Startup.

(** A program called "prog", started with options that ask for it, and with a name that does not match. *)
#[local] Instance plain_re2 : RE2 := { RE2_ok _ := true; RE2_error _ := []; RE2_FullMatch name pattern := bool_decide (name = pattern) }.
Definition demo_opts : text := str "unwind.track_depth=48:progname_regex=prog:memhawk.writers.text_writer.enabled=1:memhawk.writers.heaptrack_writer.enabled=1".
Definition new_client : Client (L := Arena) (M := demo_files) :=
  mkClient (mkHawk (mkArena 1 ∅) ∅ (fun _ => 85) false false false (MemHawk_ctor demo_cfg) 0 false ∅) ∅.
Definition demo_start (name : text) (dlsym : string → bool) (open_error : text → option Z) (opts : text) :=
  init_process sample_words elements to_bytes to_bytes id [97] demo_sys name name 7 open_error (fun _ => []) dlsym (Some opts)
    (cl_hawk new_client) (Log_start sample_process).

Lemma demo_sane cfg out : ParseConfig (Some demo_opts) = (out, Returned cfg) → sane cfg.
Proof. intros E. vm_compute in E. injection E as _ <-. ground. Qed.

Lemma startup_checked_witness :
  (∃ (s : Hawk Arena demo_files) log, demo_start (str "prog") (fun _ => true) (fun _ => None) demo_opts = Ret (SRun s log true) ∧ gl_memhawkReady s = true)
  ∧ (∃ (s : Hawk Arena demo_files) log, demo_start (str "other") (fun _ => true) (fun _ => None) demo_opts = Ret (SRun s log false) ∧ gl_memhawkReady s = false)
  ∧ (∃ log, demo_start (str "prog") (fun _ => true) (fun _ => Some 13) demo_opts = Ret (SExit (-1) log))
  ∧ demo_start (str "prog") (fun f => negb (bool_decide (f = "valloc"))) (fun _ => None) demo_opts = Ret SAbort
  ∧ ∃ log, demo_start (str "prog") (fun _ => true) (fun _ => None) (str "unwind.track_depth=2") = Ret (SExit (-1) log).
Proof.
  assert (Hw : Forall is_u64 sample_words) by (apply Forall_replicate; unfold is_u64; lia).
  assert (Hsys : 0 ≤ sy_pageSize demo_sys < 2 ^ 60 ∧ 0 ≤ sy_physPages demo_sys < 2 ^ 60) by (cbn; lia).
  assert (Hshort : ∀ opts : text, zlen opts < 2 ^ 32 → ∀ input, Some opts = Some input → zlen input < 2 ^ 32) by (by intros ? ? ? [= <-]).
  pose proof (fun name dlsym open_error opts H => startup_checked (I := list (CompressedStacktrace * Z)) (X := gmap Z AllocSummary)
    (H0 := sample_unwinder_laws) true (fun _ => 0) false sample_words eq_refl Hw elements (fun _ => reflexivity _) to_bytes to_bytes id [97]
    Some of_bytes of_bytes (fun _ => eq_refl) of_to_bytes of_to_bytes demo_sys Hsys demo_env name name 7 open_error (fun _ => []) dlsym (Some opts) 5 new_client
    (Log_start sample_process) (Hshort opts H) eq_refl) as Hs.
  destruct (ParseConfig (Some demo_opts)) as [out [cfg|code]] eqn:E; [|exfalso; vm_compute in E; discriminate E].
  pose proof (demo_sane cfg out E) as Hsane.
  assert (Hrun : ∀ name open_error, let fails := log_fails name name 7 open_error (fun _ => []) cfg (Log_start sample_process) in
    (fails ∧ ∃ log, demo_start name (fun _ => true) open_error demo_opts = Ret (SExit (-1) log))
    ∨ ¬ fails ∧ ∃ (s : Hawk Arena demo_files) log, demo_start name (fun _ => true) open_error demo_opts = Ret (SRun s log (gl_memhawkReady s))
        ∧ gl_memhawkReady s = right_name name (get_string [str "progname_regex"] cfg)).
  { intros name open_error. specialize (Hs name (fun _ => true) open_error demo_opts eq_refl). rewrite E in Hs.
    destruct Hs as (_ & _ & _ & counts & Hc). destruct (Hc Hsane) as [?|(Hf & s & log & Es & _ & Hready & _)]; [|done|by left|].
    - apply reach_start. split_and!; done.
    - right. split; [done|]. by exists s, log. }
  assert (Hre : get_string [str "progname_regex"] cfg = str "prog") by (vm_compute in E; injection E as _ <-; by vm_compute).
  assert (Hlog : log_config cfg = mkLogConfig true 2 (str "./")) by (vm_compute in E; injection E as _ <-; by vm_compute).
  unfold log_fails in Hrun. rewrite Hre, Hlog in Hrun. split_and!.
  - destruct (Hrun (str "prog") (fun _ => None)) as [[[_ [? ?]] _]|[_ (s & log & Es & Hr)]]; [discriminate|]. exists s, log. by rewrite Hr in Es.
  - destruct (Hrun (str "other") (fun _ => None)) as [[[? _] _]|[_ (s & log & Es & Hr)]]; [discriminate|]. exists s, log. by rewrite Hr in Es.
  - destruct (Hrun (str "prog") (fun _ => Some 13)) as [[_ ?]|[Hf _]]; [done|]. exfalso. apply Hf. split; [done|]. eexists. vm_compute. reflexivity.
  - exact (Hs (str "prog") (fun f => negb (bool_decide (f = "valloc"))) (fun _ => None) demo_opts eq_refl).
  - specialize (Hs (str "prog") (fun _ => true) (fun _ => None) (str "unwind.track_depth=2") eq_refl).
    destruct (ParseConfig (Some (str "unwind.track_depth=2"))) as [out' [cfg'|code]] eqn:E'; vm_compute in E'; [discriminate E'|].
    injection E' as _ <-. eexists. apply Hs.
Defined.
